(* ===== verification/_CoqProject ===== *)
-Q . S2P
Prelude.v
RpcError.v
Posix.v
Codec.v
Frames.v
PendingCalls.v
MpscRingQueue.v
ServiceRegistry.v
Proto3.v
SpecQueue.v
LogFormat.v
AsyncLogger.v
Task.v
ThreadPool.v
LoadBalancer.v
RpcClientPool.v
EventLoop.v
RpcClient.v
CallCo.v
ClientLocks.v
ConnBuffer.v
Connection.v
ConnHistory.v
ConnectionServe.v
WorkerLoop.v
WorkerServe.v
RpcServer.v
Network.v
WorkerPeer.v
EndToEnd.v
Calls.v
Caller.v
Cluster.v
Json.v
CodeGraphService.v
McpAdapter.v
SqliteBackend.v
NativeBackend.v
Programs.v
