(* ===== verification/Prelude.v ===== *)
(** * A verification library for the mini RPC framework

    ** The program

    The framework (src/src) carries calls between C++ processes over TCP.  A
    frame is a 4-byte big-endian length and a protobuf message: [RpcRequest] or
    [RpcResponse].

    - The client side.  [RpcClient] (client/rpc_client.cpp) owns one
      connection.  A call registers its request id in [PendingCalls]
      (client/pending_calls.cpp), sends the request with the blocking codec
      (protocol/codec.cpp), and binds a promise or a coroutine as the waiter; a
      dispatcher thread waits on [EventLoop] (client/event_loop.cpp), cuts the
      incoming bytes into frames, completes the calls by id, fails the ones
      whose deadline has passed and sends heartbeats.  [RpcClientPool]
      (client/rpc_client_pool.cpp) spreads calls over several clients through a
      [LoadBalancer] (client/load_balancer.cpp), tracks their health and
      retries.
    - The server side.  An acceptor (server/rpc_server.cpp) hands the accepted
      descriptors to its [WorkerLoop]s (server/worker_loop.cpp).  A worker owns an
      epoll set and its [Connection]s (server/connection.cpp), each served by a
      coroutine that reads, parses, dispatches and writes.  Requests run inline
      or in the [ThreadPool] (common/thread_pool.cpp), whose workers take them
      from a lock-free [MpscRingQueue] (common/mpsc_ring_queue.h); handlers come
      from the [ServiceRegistry] (server/service_registry.cpp), and results come
      back to the worker through its completion queue and eventfd.
    - Both sides log through the asynchronous logger (common/log.cpp,
      common/async_logger.cpp) and use the coroutine type [Task]
      (coroutine/task.h).
    - An application on top: the code graph service (codegraph/) with two
      backends, SQLite and codegraph-cpp, the MCP adapter that turns JSON-RPC
      lines into calls of the service, and the programs under demo/.

    ** The files

    - Prelude.v: machine integers and network byte order, strings, lists,
      tactics and hint databases.
    - RpcError.v: common/rpc_error.{h,cpp}.
    - Posix.v: the outcomes of the system calls, as scripts, and [UniqueFd]
      (common/unique_fd.h).
    - Codec.v: protocol/codec.{h,cpp}, over the class [ProtoMessage] of what the
      sources call of protobuf and the class [ProtoLaws] of what it documents.
    - Frames.v: the frame-splitting loop that [HandleReadableFrames] (client)
      and [TryParseRequests] (server) both are.
    - PendingCalls.v: client/pending_calls.{h,cpp}.
    - MpscRingQueue.v: the queue at the level of its atomic accesses, its
      abstract specification ([Spec]) and the simulation between them.
    - ServiceRegistry.v: server/service_registry.{h,cpp} and the execution of a
      request on both paths.
    - Proto3.v: an instance of the protobuf classes for the two messages, by the
      proto3 encoding; the witnesses run on it.
    - SpecQueue.v: the steps of the abstract queue as functions, for the models
      of the queue's users.
    - LogFormat.v: common/log.{h,cpp} and the formatting half of
      common/async_logger.cpp.
    - AsyncLogger.v: the engine of common/async_logger.cpp (Submit, the worker,
      files, drops, Shutdown).
    - Task.v: coroutine/task.h.
    - ThreadPool.v: common/thread_pool.{h,cpp}, over the abstract queue.
    - LoadBalancer.v: both strategies as instances of the class [LoadBalancer].
    - RpcClientPool.v: client/rpc_client_pool.{h,cpp}, for any [LoadBalancer].
    - EventLoop.v: client/event_loop.{h,cpp}.
    - RpcClient.v: client/rpc_client.{h,cpp}, what each operation does.
    - CallCo.v: [RpcClient::CallCo], a coroutine's call interleaved with
      everything else that happens to the table of calls.
    - ClientLocks.v: the same sources, where the operations wait for each other
      (two mutexes, the dispatcher thread, the join in [Close]).
    - ConnBuffer.v: [Connection::Buffer], [EncodeFrame], [DecodeFrameHeader].
    - Connection.v: server/connection.{h,cpp} and [HandleConnectionCo].
    - ConnHistory.v: what a connection has done, whatever has failed.
    - ConnectionServe.v: [Connection::Serve] and the owner of a connection.
    - WorkerLoop.v: server/worker_loop.{h,cpp}.
    - WorkerServe.v: what a worker does for each of its connections.
    - RpcServer.v: server/rpc_server.{h,cpp}, over the systems of WorkerLoop.v
      and ThreadPool.v.
    - Network.v: a client, the network, a connection and the pool composed.
    - WorkerPeer.v: what the client at the other end of a worker's connection
      sees.
    - EndToEnd.v: the path of a call through Network.v, and that it can always be
      completed.
    - Calls.v: what the operations of a client do to its table of calls.
    - Caller.v: one client through failures, reconnections and heartbeats, against
      the contract of what may reach it ([honest], [exhaustive]).
    - Cluster.v: any number of such clients and a whole [RpcServer]: the acceptor,
      the workers, the pool, starts and stops, and the network between them.
    - Json.v: the JSON values of nlohmann::json, and its text functions as the
      class [JsonText] with their laws [JsonTextLaws].
    - CodeGraphService.v: codegraph/codegraph_rpc_service.{h,cpp}.
    - McpAdapter.v: codegraph/mcp_adapter.{h,cpp}.
    - SqliteBackend.v: codegraph/sqlite_codegraph_backend.cpp.
    - NativeBackend.v: codegraph/codegraph_native_backend.{h,cpp}.
    - Programs.v: the [main] functions of demo/.

    Definitions carry the names of the functions they translate.  State is
    passed explicitly: a record for each class, a function for each method, and
    what a method does to its surroundings (promises, coroutines, descriptors,
    bytes on the wire) is part of its result.  What the kernel answers, what the
    clock says and what user handlers do are parameters, over which the theorems
    quantify.

    ** Concurrency

    - Code under a mutex is one atomic function; any sequence of such
      operations is an interleaving of threads ([PendingCalls.run]).
    - The lock-free queue and the thread pool step at each access to shared
      memory, with an arbitrary scheduler; memory is sequentially consistent.
      The pool is proved over the abstract queue that the lock-free one refines.
    - A worker's round ([WorkerLoop.PollOnce]) is 1 to 5 steps of its thread
      ([PollOnce_steps]); between them the acceptor, the pool's threads and the
      stopping thread may act ([WorkerLoop.op]).
    - [RpcServer::Start] and [Stop], the operations of ClientLocks.v, the logger's
      [Submit] and worker, and the two sides of a [Task] are lists of
      instructions, one for each access to shared state; any schedule of the
      threads is a run.
    - A coroutine is the point where it is suspended ([Connection.co_point]); a
      resume runs it on the resuming thread until it suspends again.

    ** What the theorems show

    - The whole path: every promise of a client is fulfilled at most once and
      only with what the handler makes of that very request, when nothing is
      on its way any more every call has its answer, and from every state a
      schedule leads there ([rpc_end_to_end]).  With any number of clients, a
      server of many workers that may be stopped and started again, failures of
      every side and of the network, reconnections and heartbeats, a promise gets
      that answer or an error, at most once; a stopping client settles every
      call; and where nothing is under way every bound promise is fulfilled
      ([every_client_gets_its_answers]).
    - Delivery: the client matches every response, however the stream is cut
      ([client_stream_delivery]), and a call receives the response to its own
      request ([call_gets_response]); a call by a coroutine is a future settled by
      the first result ([callco_is_a_future]).  A worker serves each of its
      connections from its own stream and completely
      ([worker_serves_each_connection]), so that each of its clients gets the
      answers to its own requests ([worker_peer_contract]); the server answers
      the requests of a peer in order ([server_answers_in_order]); a worker's
      requests and counters add up ([worker_conserves_requests]); a connection
      that serves by itself answers all its peer's requests
      ([serve_answers_in_order]).
    - Wire format: output is always whole frames ([connection_output_is_frames]);
      the codecs round-trip and refuse what they must ([codec_roundtrip],
      [codec_write_total], [codec_read_errors], [frame_codec_roundtrip]).
    - Waiters: no promise or coroutine is served twice, with another call's
      result, or forgotten when the connection goes away ([waiters_at_most_once],
      [results_match_request_id], [fail_all_reaches_every_waiter],
      [fail_timed_out_exact], [bind_complete_race], [iteration_stop_settled],
      [connection_coroutine_never_lost]).
    - Refinement: the lock-free queue implements the abstract queue
      ([queue_refines_spec], [queue_fifo], [queue_sequential]); the receive
      buffer implements a queue of bytes ([buffer_refines_queue]); both paths of
      the server compute the same response ([dispatch_paths_agree]).
    - Workers and the pool: epoll, table and counters agree
      ([worker_connections_consistent]), no wakeup is lost
      ([worker_no_lost_wakeup]), tasks are conserved, drained and the workers
      terminate ([pool_tasks_conserved], [pool_stop_drains],
      [pool_worker_terminates]).
    - The server: what a server that is not running holds (nothing), who gets
      the next connection, and that a stop completes ([server_resources],
      [stop_releases_everything], [accept_round_robin], [server_stop_progress],
      [worker_stops]).
    - The client's locks: used from one thread at a time, without heartbeats and
      coroutines, no operation blocks for ever ([client_one_thread_ends]).
    - The logger: what is accepted is written once, in order and in the documented
      format, and a shutdown loses nothing ([logger_writes_in_order],
      [logger_shutdown_complete], [logger_statistics], [format_batch_lines],
      [format_fits_estimate]).
    - [Task]: a result reaches its owner, whoever is faster
      ([task_result_reaches_owner], [task_sound_on_one_thread],
      [task_frames_destroyed_once]), and [Task<void>] is the template at the
      one-element type ([void_task_result_reaches_owner]).
    - The code graph service: tools, arguments and errors ([codegraph_call],
      [codegraph_registration], [sqlite_backend_errors]), one answer per request
      line ([mcp_one_answer_per_request], [mcp_end_to_end]), the traversal is a
      bounded breadth-first search ([traversal_bfs]), the cache is invisible
      ([native_cache_transparent], [native_cache_put_get]).
    - The programs: command lines and what they lead to ([graph_server_args],
      [graph_server_main], [calc_demo_prints_sum]).
    - Pool of clients: selection, fairness, retries and health
      ([select_channel_choice], [least_inflight_minimal], [round_robin_fair],
      [call_retries], [health_threshold]).
    - Where the code falls short of what it means to do, a theorem says how:
      [pool_loses_accepted_task], [timed_out_connection_is_deaf],
      [timed_out_connection_stays_open], [busy_connection_starves_timeouts],
      [call_after_dispatcher_stop], [cut_heartbeat_swallows_call],
      [unhealthy_is_forever],
      [failed_send_deadlocks], [close_waits_for_revived_dispatcher],
      [coroutine_call_joins_itself], [task_double_resume],
      [task_get_frees_running_frame], [pool_freed_under_workers],
      [stop_request_overwritten], [refused_connection_closed_twice],
      [inflight_underflow_drops], [late_submit_is_lost], and the smaller
      [peer_close_discards_requests], [timed_out_async_slot_stays],
      [event_loop_tokens], [method_keys], [optional_int_truncates],
      [mcp_unprintable_answer_ends_run], [mcp_odd_requests],
      [native_cache_evicts_newest], [adapter_timeout_wraps].

    ** Bounds and fuel

    - The frame loops take the length of the buffer as fuel; each frame removes
      at least its header, so it is enough ([frames_loop_fuel_enough]).
    - One resume of a connection's coroutine has fuel [co_fuel] = 10; the
      coroutine always suspends or ends before that ([co_run_suspends]).
    - System-call loops recurse on the script of the kernel's answers; a script
      that has ended means [EAGAIN] on a non-blocking socket.
    - The counters of the ring queue are 64-bit and wrap; the theorems about
      interleavings assume that the claims made so far stay below 2^63 less the
      capacity ([no_wrap]).  The round-robin counter is 64-bit too.
    - Termination is by measures on the threads' own steps: [run_rank], at most 6
      for a worker that has been asked to stop; [shutdown_rank] for
      [RpcServer::Start] after a stop; twenty steps for each queued task or log
      entry and twenty more for the pool's and the logger's workers; [work] for
      the operations of ClientLocks.v; [to_do] for what is on its way in
      EndToEnd.v.
    - Request ids and connection tokens are 64-bit; the theorems about whole runs
      assume fewer than 2^64 steps, so that they do not come round.
    - The traversal recurses on [max_depth], as the loop it translates does.

    ** What is a parameter

    protobuf ([ProtoMessage] with the laws [ProtoLaws], inhabited in Proto3.v, and
    the generated calculator messages); user handlers; the text side of
    nlohmann::json ([JsonText], inhabited at the end of Json.v); what SQLite yields
    for a statement ([query]); the graph engine of codegraph-cpp ([engine]) and
    the iteration order of the hash map ([rehash]); [strftime]; the answers of the
    kernel and the readings of the clock.  Of TCP the compositions use that what
    has arrived at one end is a beginning of what was sent at the other; how it is
    cut, delayed or lost from some point on is up to the schedule.

    ** What is not modelled

    Relaxed memory orders; unsynchronised reads of [sock_] in [RpcClient], which
    are data races in C++; the log lines the components emit (the logger itself is
    modelled, and so is what the programs print); the benchmarks and tests.

    Calls by coroutines are not steps of Cluster.v: [callco_is_a_future] relates
    them to the table of calls, under everything else that may happen to it, and
    a call by a promise stands for them in the composition.  That a schedule leads
    to the answers is proved for one connection (EndToEnd.v); for the whole
    cluster the theorem is about the states where nothing is under way. *)

From Stdlib Require Import ZArith Lia.
From Stdlib Require Export Strings.Byte.
From stdpp Require Export base gmap strings list fin_maps pretty.

Declare Scope rpc_scope.
Delimit Scope rpc_scope with rpc.

(** ** Automation *)

(** Rewriting of the setters and accessors of state records. *)
Create HintDb rpc.
Create Rewrite HintDb rpc.

(** Case analysis on the scrutinee of the first [match] or [if] of the goal,
    keeping the equation. *)
Ltac split_match :=
  match goal with
  | |- context [match ?x with _ => _ end] =>
      lazymatch x with
      | context [match _ with _ => _ end] => fail
      | _ => destruct x eqn:?
      end
  end.

(** The same in a hypothesis. *)
Ltac split_match_in H :=
  match type of H with
  | context [match ?x with _ => _ end] =>
      lazymatch x with
      | context [match _ with _ => _ end] => fail
      | _ => destruct x eqn:?
      end
  end.

(** Reflect every boolean comparison of the context into its proposition. *)
Ltac breflect :=
  repeat match goal with
  | H : (_ && _)%bool = true |- _ => apply andb_true_iff in H; destruct H
  | H : (_ || _)%bool = false |- _ => apply orb_false_iff in H; destruct H
  | H : (_ && _)%bool = false |- _ => apply andb_false_iff in H
  | H : (_ || _)%bool = true |- _ => apply orb_true_iff in H
  | H : negb _ = true |- _ => apply negb_true_iff in H
  | H : negb _ = false |- _ => apply negb_false_iff in H
  | H : Z.eqb _ _ = true |- _ => apply Z.eqb_eq in H
  | H : Z.eqb _ _ = false |- _ => apply Z.eqb_neq in H
  | H : Z.ltb _ _ = true |- _ => apply Z.ltb_lt in H
  | H : Z.ltb _ _ = false |- _ => apply Z.ltb_ge in H
  | H : Z.leb _ _ = true |- _ => apply Z.leb_le in H
  | H : Z.leb _ _ = false |- _ => apply Z.leb_gt in H
  | H : Nat.eqb _ _ = true |- _ => apply Nat.eqb_eq in H
  | H : Nat.eqb _ _ = false |- _ => apply Nat.eqb_neq in H
  | H : Nat.ltb _ _ = true |- _ => apply Nat.ltb_lt in H
  | H : Nat.ltb _ _ = false |- _ => apply Nat.ltb_ge in H
  | H : Nat.leb _ _ = true |- _ => apply Nat.leb_le in H
  | H : Nat.leb _ _ = false |- _ => apply Nat.leb_gt in H
  | H : String.eqb _ _ = true |- _ => apply String.eqb_eq in H
  | H : String.eqb _ _ = false |- _ => apply String.eqb_neq in H
  end.

(** ** Machine integers *)

(** [std::size_t] and [std::uint64_t] are 64 bits wide. *)
Definition two64 : Z := 2 ^ 64.

Definition wrap64 (z : Z) : Z := z mod two64.

(** [static_cast<std::intptr_t>] of a 64-bit word. *)
Definition to_signed64 (z : Z) : Z :=
  if (z <? 2 ^ 63)%Z then z else (z - two64)%Z.

Lemma wrap64_small z : (0 <= z < two64)%Z -> wrap64 z = z.
Proof. apply Z.mod_small. Qed.

Lemma wrap64_range z : (0 <= wrap64 z < two64)%Z.
Proof. apply Z.mod_pos_bound. reflexivity. Qed.

Lemma to_signed64_small z : (0 <= z < 2 ^ 63)%Z -> to_signed64 z = z.
Proof.
  intros H. unfold to_signed64. destruct (Z.ltb_spec z (2 ^ 63)); lia.
Qed.

(** ** Bytes *)

Abbreviation bytes := (list byte).

Definition Z_of_byte (b : byte) : Z := Z.of_N (Byte.to_N b).

Definition byte_of_Z (z : Z) : byte :=
  match Byte.of_N (Z.to_N (z mod 256)) with
  | Some b => b
  | None => x00
  end.

Lemma Z_of_byte_range b : (0 <= Z_of_byte b < 256)%Z.
Proof. unfold Z_of_byte. pose proof (Byte.to_N_bounded b). lia. Qed.

Lemma Z_of_byte_of_Z z : Z_of_byte (byte_of_Z z) = (z mod 256)%Z.
Proof.
  unfold byte_of_Z, Z_of_byte.
  pose proof (Z.mod_pos_bound z 256 ltac:(lia)).
  destruct (Byte.of_N (Z.to_N (z mod 256))) eqn:E.
  - apply Byte.to_of_N in E. rewrite E. lia.
  - apply Byte.of_N_None_iff in E. lia.
Qed.

Lemma byte_of_Z_of_byte b : byte_of_Z (Z_of_byte b) = b.
Proof.
  unfold byte_of_Z. rewrite Z.mod_small by apply Z_of_byte_range.
  unfold Z_of_byte. rewrite N2Z.id, Byte.of_to_N. reflexivity.
Qed.

(** The four bytes a [std::uint32_t] has in memory after [htonl]: big endian
    whatever the byte order of the host. *)
Definition htonl_bytes (z : Z) : bytes :=
  [byte_of_Z (Z.shiftr z 24); byte_of_Z (Z.shiftr z 16);
   byte_of_Z (Z.shiftr z 8); byte_of_Z z].

(** [ntohl] of the first four bytes of a buffer. *)
Definition ntohl_bytes (bs : bytes) : Z :=
  match bs with
  | b3 :: b2 :: b1 :: b0 :: _ =>
      (Z.shiftl (Z_of_byte b3) 24 + Z.shiftl (Z_of_byte b2) 16 +
       Z.shiftl (Z_of_byte b1) 8 + Z_of_byte b0)%Z
  | _ => 0%Z
  end.

Lemma length_htonl_bytes z : length (htonl_bytes z) = 4.
Proof. reflexivity. Qed.

Lemma ntohl_htonl z rest :
  (0 <= z < 2 ^ 32)%Z -> ntohl_bytes (htonl_bytes z ++ rest) = z.
Proof.
  intros Hz. unfold htonl_bytes, ntohl_bytes. simpl app. cbv iota beta.
  rewrite !Z_of_byte_of_Z, !Z.shiftr_div_pow2, !Z.shiftl_mul_pow2 by lia.
  change (2 ^ 24)%Z with (256 * 256 * 256)%Z.
  change (2 ^ 16)%Z with (256 * 256)%Z. change (2 ^ 8)%Z with 256%Z.
  rewrite <- !Z.div_div by lia.
  pose proof (Z.div_mod z 256 ltac:(lia)).
  pose proof (Z.div_mod (z / 256) 256 ltac:(lia)).
  pose proof (Z.div_mod (z / 256 / 256) 256 ltac:(lia)).
  assert (0 <= z / 256 / 256 / 256 < 256)%Z.
  { rewrite !Z.div_div by lia. split; [apply Z.div_pos; lia|].
    apply Z.div_lt_upper_bound; lia. }
  rewrite (Z.mod_small (z / 256 / 256 / 256) 256) by lia. lia.
Qed.

Lemma byte_of_Z_eq z b : (z mod 256 = Z_of_byte b)%Z -> byte_of_Z z = b.
Proof.
  intros E. rewrite <- (byte_of_Z_of_byte b), <- E. unfold byte_of_Z. by rewrite Z.mod_mod.
Qed.

Lemma htonl_ntohl bs : 4 <= length bs -> htonl_bytes (ntohl_bytes bs) = take 4 bs.
Proof.
  destruct bs as [|b3 [|b2 [|b1 [|b0 bs]]]]; simpl length; try lia. intros _.
  unfold htonl_bytes, ntohl_bytes. simpl take.
  pose proof (Z_of_byte_range b3). pose proof (Z_of_byte_range b2).
  pose proof (Z_of_byte_range b1). pose proof (Z_of_byte_range b0).
  rewrite !Z.shiftr_div_pow2, !Z.shiftl_mul_pow2 by lia.
  change (2 ^ 24)%Z with 16777216%Z. change (2 ^ 16)%Z with 65536%Z. change (2 ^ 8)%Z with 256%Z.
  repeat f_equal; apply byte_of_Z_eq; Z.div_mod_to_equations; lia.
Qed.

Lemma ntohl_bytes_range bs : (0 <= ntohl_bytes bs < 2 ^ 32)%Z.
Proof.
  unfold ntohl_bytes.
  destruct bs as [|b3 [|b2 [|b1 [|b0 bs]]]]; try lia.
  pose proof (Z_of_byte_range b3). pose proof (Z_of_byte_range b2).
  pose proof (Z_of_byte_range b1). pose proof (Z_of_byte_range b0).
  rewrite !Z.shiftl_mul_pow2 by lia. lia.
Qed.

Lemma ntohl_bytes_app bs rest :
  4 <= length bs -> ntohl_bytes (bs ++ rest) = ntohl_bytes bs.
Proof. destruct bs as [|b3 [|b2 [|b1 [|b0 bs]]]]; simpl; try lia; reflexivity. Qed.

Lemma wrap64_add_l a b : wrap64 (wrap64 a + b) = wrap64 (a + b)%Z.
Proof. unfold wrap64. apply Z.add_mod_idemp_l. done. Qed.

Lemma wrap64_add_r a b : wrap64 (a + wrap64 b) = wrap64 (a + b)%Z.
Proof. unfold wrap64. apply Z.add_mod_idemp_r. done. Qed.

Lemma wrap64_sub_l a b : wrap64 (wrap64 a - b) = wrap64 (a - b)%Z.
Proof. unfold wrap64. apply Zminus_mod_idemp_l. Qed.

(** ** Strings *)

(** [s.find(needle) != npos]. *)
Definition str_contains (needle s : string) : bool :=
  match String.index 0 needle s with
  | Some _ => true
  | None => false
  end.

(** [s.rfind(p, 0) == 0]. *)
Definition starts_with (p s : string) : bool := String.prefix p s.

Definition str_empty (s : string) : bool :=
  match s with EmptyString => true | _ => false end.

(** [std::to_string] of an unsigned integer. *)
Definition to_string (z : Z) : string := pretty (Z.to_N z).

Lemma string_app_assoc s1 s2 s3 : (s1 +:+ s2) +:+ s3 = s1 +:+ (s2 +:+ s3).
Proof.
  induction s1 as [|c s1 IH]; [done|].
  change (String c ((s1 +:+ s2) +:+ s3) = String c (s1 +:+ (s2 +:+ s3))). by rewrite IH.
Qed.

Lemma string_app_nil_r s : s +:+ "" = s.
Proof. induction s as [|c s IH]; [done|]. change (String c (s +:+ "") = String c s). by rewrite IH. Qed.

Lemma string_length_app s1 s2 :
  String.length (s1 +:+ s2) = String.length s1 + String.length s2.
Proof.
  induction s1 as [|c s1 IH]; [done|].
  change (S (String.length (s1 +:+ s2)) = S (String.length s1 + String.length s2)). by rewrite IH.
Qed.

Lemma substring_all s : String.substring 0 (String.length s) s = s.
Proof. induction s as [|c s IH]; [done|]. simpl. by rewrite IH. Qed.

(** Cutting a string in two. *)
Lemma substring_split s : forall n,
  n <= String.length s ->
  String.substring 0 n s +:+ String.substring n (String.length s - n) s = s.
Proof.
  induction s as [|c s IH]; intros [|n] Hn; simpl in *; [done|lia| |].
  - change (String c (String.substring 0 (String.length s) s) = String c s).
    by rewrite substring_all.
  - change (String c (String.substring 0 n s +:+ String.substring n (String.length s - n) s) = String c s).
    by rewrite IH by lia.
Qed.

(** A number below [10 ^ k] has at most [k] digits. *)
Lemma length_pretty_N_go k : forall (x : N) s,
  (x < 10 ^ N.of_nat k)%N -> String.length (pretty_N_go x s) <= k + String.length s.
Proof.
  induction k as [|k IH]; intros x s Hx.
  - assert (x = 0)%N as -> by (simpl in Hx; lia). by rewrite pretty_N_go_0.
  - destruct (decide (x = 0)%N) as [->|Hn]; [rewrite pretty_N_go_0; lia|].
    rewrite pretty_N_go_step by lia. etrans; [apply IH|simpl; lia].
    apply N.Div0.div_lt_upper_bound. rewrite Nat2N.inj_succ, N.pow_succ_r' in Hx. lia.
Qed.

Lemma length_to_string k z :
  (0 < k)%nat -> (z < 10 ^ Z.of_nat k)%Z -> String.length (to_string z) <= k.
Proof.
  intros Hk Hz. unfold to_string, pretty, pretty_N. destruct (decide _); [simpl; lia|].
  etrans; [apply (length_pretty_N_go k)|simpl; lia].
  apply N2Z.inj_lt. rewrite N2Z.inj_pow, nat_N_Z. lia.
Qed.

(** The optional output parameter [std::string* error_msg]: [None] is the null
    pointer, and a write through it happens only when it is not null. *)
Definition set_error (slot : option string) (msg : string) : option string :=
  match slot with
  | Some _ => Some msg
  | None => None
  end.

(** ** Lists *)

Section lists.
Context {A : Type}.
Implicit Types (l k : list A) (x : A).

Lemma take_app_exact l k : take (length l) (l ++ k) = l.
Proof. apply take_app_length. Qed.

Lemma drop_app_exact l k : drop (length l) (l ++ k) = k.
Proof. apply drop_app_length. Qed.

End lists.

Lemma omap_omap {A B C} (f : A -> option B) (g : B -> option C) (l : list A) :
  omap g (omap f l) = omap (fun x => f x ≫= g) l.
Proof.
  induction l as [|x l IH]; [done|]. simpl. destruct (f x) as [y|]; simpl; [|done].
  destruct (g y); [f_equal|]; apply IH.
Qed.

Lemma omap_ext {A B} (f g : A -> option B) (l : list A) :
  (forall x, f x = g x) -> omap f l = omap g l.
Proof. intros Hf. induction l as [|x l IH]; [done|]. simpl. rewrite Hf. destruct (g x); [f_equal|]; apply IH. Qed.

Lemma omap_None {A B} (f : A -> option B) (l : list A) :
  (forall x, f x = None) -> omap f l = [].
Proof. intros Hf. induction l as [|x l IH]; [done|]. simpl. by rewrite Hf. Qed.

Lemma omap_of_map {X Y Z} (h : X -> Y) (sel : Y -> option Z) xs :
  omap sel (map h xs) = omap (sel ∘ h) xs.
Proof.
  induction xs as [|x xs IH]; [done|]. simpl. destruct (sel (h x)); [f_equal|]; apply IH.
Qed.

(** Composition of two conservation steps: [f] was handed out and [w] is
    stored, out of [b] brought in and what was stored before. *)
Lemma conserve_trans {A} (f1 f2 b1 b2 w0 w1 w2 : list A) :
  f1 ++ w1 ⊆+ b1 ++ w0 -> f2 ++ w2 ⊆+ b2 ++ w1 ->
  (f1 ++ f2) ++ w2 ⊆+ (b1 ++ b2) ++ w0.
Proof.
  intros H1 H2. trans (b2 ++ f1 ++ w1).
  - rewrite <- app_assoc. trans (f1 ++ b2 ++ w1); [by apply submseteq_app|].
    rewrite !(assoc_L (++)). by rewrite (Permutation_app_comm f1).
  - trans (b2 ++ b1 ++ w0); [by apply submseteq_app|].
    rewrite (assoc_L (++)). by rewrite (Permutation_app_comm b2).
Qed.

Lemma submseteq_NoDup {A} (l k : list A) : l ⊆+ k -> NoDup k -> NoDup l.
Proof.
  intros [k' ->]%submseteq_Permutation Hk. by apply NoDup_app in Hk as [? _].
Qed.

(** The elements of a list of which one has been replaced. *)
Lemma insert_elem {A} (l : list A) i x y z :
  l !! i = Some x -> z ∈ <[i := y]> l -> z = y \/ z ∈ l.
Proof.
  intros Hi [k Hk]%list_elem_of_lookup. destruct (decide (k = i)) as [->|Hne].
  - rewrite list_lookup_insert_eq in Hk by (by eapply lookup_lt_Some). injection Hk as <-. by left.
  - rewrite list_lookup_insert_ne in Hk by done. right. by eapply list_elem_of_lookup_2.
Qed.

Lemma insert_elem_other {A} (l : list A) i x y z :
  l !! i = Some x -> z ∈ l -> z = x \/ z ∈ <[i := y]> l.
Proof.
  intros Hi [k Hk]%list_elem_of_lookup. destruct (decide (k = i)) as [->|Hne]; [left; congruence|right].
  apply (list_elem_of_lookup_2 _ k). by rewrite list_lookup_insert_ne.
Qed.

Lemma insert_elem_here {A} (l : list A) i x y : l !! i = Some x -> y ∈ <[i := y]> l.
Proof.
  intros Hi. apply (list_elem_of_lookup_2 _ i). apply list_lookup_insert_eq. by eapply lookup_lt_Some.
Qed.

Lemma sum_list_app (l k : list nat) : sum_list (l ++ k) = sum_list l + sum_list k.
Proof. induction l as [|x l IH]; simpl; lia. Qed.

(** The sum of [f] over a list, and how updating one element changes it. *)
Definition tally {A} (f : A -> nat) (l : list A) : nat := sum_list (map f l).

Lemma tally_insert {A} (f : A -> nat) (l : list A) i x y :
  l !! i = Some x -> tally f (<[i := y]> l) + f x = tally f l + f y.
Proof.
  revert i. induction l as [|z l IH]; intros [|i] E; simplify_eq/=; unfold tally in *; simpl; [lia|].
  specialize (IH i E). lia.
Qed.

Lemma tally_pos {A} (f : A -> nat) (l : list A) i x :
  l !! i = Some x -> f x <= tally f l.
Proof.
  revert i. induction l as [|z l IH]; intros [|i] E; simplify_eq/=; unfold tally in *; simpl; [lia|].
  specialize (IH i E). lia.
Qed.

Lemma tally_zero {A} (f : A -> nat) (l : list A) :
  Forall (fun x => f x = 0) l -> tally f l = 0.
Proof. unfold tally. induction 1 as [|x l Hx _ IH]; simpl; [done|]. lia. Qed.

#[export] Hint Rewrite @length_htonl_bytes @length_app @length_take @length_drop : rpc.
