(* ===== verification/RpcError.v ===== *)
(** * Error codes (common/rpc_error.h, common/rpc_error.cpp)

    The framework's error codes, the protobuf codes on the wire and the
    conversions between them. *)

From S2P Require Import Prelude.

Local Open Scope string_scope.
Local Open Scope list_scope.
Local Open Scope Z_scope.

Inductive ErrorCode := kOk | kMethodNotFound | kParseError | kInternalError.

#[export] Instance ErrorCode_eq_dec : EqDecision ErrorCode.
Proof. solve_decision. Defined.

(** The underlying value of the enumerator. *)
Definition ErrorCode_value (c : ErrorCode) : Z :=
  match c with
  | kOk => 0
  | kMethodNotFound => 1
  | kParseError => 2
  | kInternalError => 3
  end.

(** The error categories: the framework's own one, and any other (identified
    by a number) that an [std::error_code] may carry. *)
Inductive error_category := RpcErrorCategory | OtherCategory (id : positive).

#[export] Instance error_category_eq_dec : EqDecision error_category.
Proof. solve_decision. Defined.

Record error_code := { value : Z; category : error_category }.

#[export] Instance error_code_eq_dec : EqDecision error_code.
Proof. solve_decision. Defined.

Definition make_error_code (c : ErrorCode) : error_code :=
  {| value := ErrorCode_value c; category := RpcErrorCategory |}.

(** [RpcErrorCategory::message]. *)
Definition category_message (ev : Z) : string :=
  if ev =? 0 then "ok"
  else if ev =? 1 then "method not found"
  else if ev =? 2 then "parse error"
  else if ev =? 3 then "internal error"
  else "unknown rpc error".

Definition ToString (c : ErrorCode) : string :=
  match c with
  | kOk => "OK"
  | kMethodNotFound => "METHOD_NOT_FOUND"
  | kParseError => "PARSE_ERROR"
  | kInternalError => "INTERNAL_ERROR"
  end.

(** The enumerators of [rpc::ErrorCode] in proto/rpc.proto. *)
Definition proto_OK : Z := 0.
Definition proto_METHOD_NOT_FOUND : Z := 1.
Definition proto_PARSE_ERROR : Z := 2.
Definition proto_INTERNAL_ERROR : Z := 3.

Definition ToProtoErrorCode (code : error_code) : Z :=
  if value code =? 0 then proto_OK
  else if negb (bool_decide (category code = RpcErrorCategory)) then
    proto_INTERNAL_ERROR
  else if value code =? 1 then proto_METHOD_NOT_FOUND
  else if value code =? 2 then proto_PARSE_ERROR
  else if value code =? 3 then proto_INTERNAL_ERROR
  else proto_INTERNAL_ERROR.

Definition FromProtoErrorCode (code : Z) : error_code :=
  if code =? proto_OK then make_error_code kOk
  else if code =? proto_METHOD_NOT_FOUND then make_error_code kMethodNotFound
  else if code =? proto_PARSE_ERROR then make_error_code kParseError
  else if code =? proto_INTERNAL_ERROR then make_error_code kInternalError
  else make_error_code kInternalError.

Record Status := { code : error_code; message : string }.

#[export] Instance Status_eq_dec : EqDecision Status.
Proof. solve_decision. Defined.

Definition Status_ok (s : Status) : bool := value (code s) =? 0.

Definition Status_Ok : Status :=
  {| code := make_error_code kOk; message := "" |}.

(** An [RpcException] in flight: its code and what [what()] returns.  The text
    of a foreign category is that category's own. *)
Record RpcException := { ex_code : error_code; ex_what : string }.

Definition mkRpcException (foreign_message : positive -> Z -> string)
    (c : error_code) (msg : string) : RpcException :=
  {| ex_code := c;
     ex_what :=
       if str_empty msg then
         match category c with
         | RpcErrorCategory => category_message (value c)
         | OtherCategory id => foreign_message id (value c)
         end
       else msg |}.

(** ** Properties *)

(** The framework's error codes survive the trip over the wire; a code the
    peer made up arrives as an internal error, never as success. *)
Theorem error_code_roundtrip :
  (forall c, FromProtoErrorCode (ToProtoErrorCode (make_error_code c)) =
             make_error_code c) /\
  (forall n, ToProtoErrorCode (FromProtoErrorCode n) =
             if (0 <=? n) && (n <=? 3) then n else proto_INTERNAL_ERROR) /\
  (forall e, Status_ok {| code := FromProtoErrorCode (ToProtoErrorCode e);
                          message := "" |} =
             Status_ok {| code := e; message := "" |}).
Proof.
  split_and!.
  - by intros [].
  - intros n. unfold FromProtoErrorCode, ToProtoErrorCode, proto_OK,
      proto_METHOD_NOT_FOUND, proto_PARSE_ERROR, proto_INTERNAL_ERROR.
    repeat (split_match; simpl); breflect; lia.
  - intros [v cat]. unfold ToProtoErrorCode, FromProtoErrorCode, Status_ok. simpl.
    destruct (v =? 0) eqn:E; [done|].
    by destruct (bool_decide _), (v =? 1), (v =? 2), (v =? 3).
Qed.
