(* ===== verification/Posix.v ===== *)
(** * What the sources use of POSIX, and the owner of a descriptor

    [errno] values, [strerror], the outcomes [recv] and [send] can have on a
    socket (as scripts: the kernel's side of a run, one event per system
    call), and [common::UniqueFd] (common/unique_fd.h) with the log of the
    [close] calls it makes. *)

From S2P Require Import Prelude.

Local Open Scope string_scope.
Local Open Scope list_scope.

(** ** errno *)

(** On Linux [EWOULDBLOCK] and [EAGAIN] are one value. *)
Inductive errno :=
  | EINTR
  | EAGAIN
  | EPIPE
  | ECONNRESET
  | ETIMEDOUT
  | EOther (n : positive).

#[export] Instance errno_eq_dec : EqDecision errno.
Proof. solve_decision. Defined.

Definition strerror (e : errno) : string :=
  match e with
  | EINTR => "Interrupted system call"
  | EAGAIN => "Resource temporarily unavailable"
  | EPIPE => "Broken pipe"
  | ECONNRESET => "Connection reset by peer"
  | ETIMEDOUT => "Connection timed out"
  | EOther n => "Unknown error " +:+ pretty (Npos n)
  end.

(** ** Sockets *)

(** One [recv] call: the bytes the kernel hands over ([[]] is the end of the
    stream, return value 0) or an error. *)
Inductive recv_event := RecvBytes (bs : bytes) | RecvErr (e : errno).

(** One [send] call: how many bytes the kernel is ready to take, or an
    error. *)
Inductive send_event := SendOk (n : nat) | SendErr (e : errno).

(** A call either returns, with what is left of the script, or blocks because
    the script has no further event. *)
Inductive io_result (A S : Type) :=
  | Returned (a : A) (rest : S)
  | Blocked.
Arguments Returned {A S} a rest.
Arguments Blocked {A S}.

(** The bytes of the data events of a script. *)
Fixpoint script_bytes (s : list recv_event) : bytes :=
  match s with
  | [] => []
  | RecvBytes bs :: s => bs ++ script_bytes s
  | RecvErr _ :: s => script_bytes s
  end.

(** Only data and interrupted calls: no end of stream and no failure. *)
Definition clean_event (e : recv_event) : bool :=
  match e with
  | RecvBytes [] => false
  | RecvBytes _ => true
  | RecvErr EINTR => true
  | RecvErr _ => false
  end.

Definition clean_script (s : list recv_event) : Prop := Forall (fun e => clean_event e = true) s.

(** Whether the events of a [send] script are only acceptances and
    interrupted calls, and how many of them accept at least one byte. *)
Definition clean_send (e : send_event) : bool :=
  match e with
  | SendOk _ => true
  | SendErr EINTR => true
  | SendErr _ => false
  end.

Definition clean_sends (s : list send_event) : Prop := Forall (fun e => clean_send e = true) s.

Fixpoint send_progress (s : list send_event) : nat :=
  match s with
  | SendOk (S _) :: s => S (send_progress s)
  | _ :: s => send_progress s
  | [] => 0
  end.

(** ** UniqueFd *)

Module UniqueFd.

(** The descriptor ([-1] when none is owned). *)
Record t := { fd_ : Z }.

Definition empty : t := {| fd_ := (-1)%Z |}.

Definition make (fd : Z) : t := {| fd_ := fd |}.

Definition Valid (u : t) : bool := (0 <=? fd_ u)%Z.

(** [Release]: the descriptor and the object that no longer owns it. *)
Definition Release (u : t) : Z * t := (fd_ u, empty).

(** [Reset]: the object and the [close] calls made. *)
Definition Reset (u : t) (new_fd : Z) : t * list Z :=
  ({| fd_ := new_fd |}, if (0 <=? fd_ u)%Z then [fd_ u] else []).

(** Destruction is [Reset()]. *)
Definition destroy (u : t) : list Z := snd (Reset u (-1)).

(** Move assignment [dst = std::move(src)] of two distinct objects: both
    objects after it and the [close] calls made. *)
Definition move_assign (dst src : t) : t * t * list Z :=
  let '(raw, src') := Release src in
  let '(dst', closed) := Reset dst raw in
  (dst', src', closed).

End UniqueFd.
