(* ===== verification/Codec.v ===== *)
(** * The blocking codec (protocol/codec.h, protocol/codec.cpp)

    A frame is a 4-byte big-endian length followed by the serialized protobuf
    message.  [ReadN] and [WriteN] are the loops over [recv] and [send];
    protobuf itself is an interface ([ProtoMessage]). *)

From S2P Require Import Prelude Posix.

Local Open Scope string_scope.
Local Open Scope list_scope.
Local Open Scope Z_scope.

(** ** Protobuf messages *)

(** What the sources call of [google::protobuf::Message]. *)
Class ProtoMessage (M : Type) := {
  ByteSizeLong : M -> Z;
  SerializeToArray : M -> option bytes;
  ParseFromArray : bytes -> option M;
}.

(** The documented behaviour: a successful serialization has the announced
    size, and parsing it gives the message back when the message is valid
    (its [string] fields are UTF-8, which proto3 parsers require). *)
Class ProtoLaws (M : Type) `{ProtoMessage M} := {
  proto_valid : M -> Prop;
  serialize_size : forall m b,
    SerializeToArray m = Some b -> Z.of_nat (length b) = ByteSizeLong m;
  parse_serialize : forall m b,
    proto_valid m -> SerializeToArray m = Some b -> ParseFromArray b = Some m;
}.

Definition kMaxFrameSize : Z := 4 * 1024 * 1024.

(** ** Exact reads and writes *)

(** The loop of [ReadN]: [left] bytes are missing, [out] has been read. *)
Fixpoint ReadN_loop (script : list recv_event) (left : nat) (out : bytes)
    (error_msg : option string)
    : io_result (bool * bytes * option string) (list recv_event) :=
  match left with
  | O => Returned (true, out, error_msg) script
  | S _ =>
      match script with
      | [] => Blocked
      | RecvBytes [] :: s =>
          Returned (false, out, set_error error_msg "peer closed connection") s
      | RecvErr e :: s =>
          if decide (e = EINTR) then ReadN_loop s left out error_msg
          else Returned
                 (false, out,
                  set_error error_msg ("recv failed: " +:+ strerror e)) s
      | RecvBytes bs :: s =>
          if (length bs <=? left)%nat then
            ReadN_loop s (left - length bs) (out ++ bs) error_msg
          else
            Returned (true, out ++ take left bs, error_msg)
                     (RecvBytes (drop left bs) :: s)
      end
  end.

Definition ReadN (script : list recv_event) (size : nat) (error_msg : option string) :=
  ReadN_loop script size [] error_msg.

(** [WriteN]: the result, the error message and the bytes put on the wire. *)
Fixpoint WriteN (script : list send_event) (buffer : bytes)
    (error_msg : option string)
    : io_result (bool * option string * bytes) (list send_event) :=
  match buffer with
  | [] => Returned (true, error_msg, []) script
  | _ :: _ =>
      match script with
      | [] => Blocked
      | SendErr e :: s =>
          if decide (e = EINTR) then WriteN s buffer error_msg
          else Returned
                 (false, set_error error_msg ("send failed: " +:+ strerror e), []) s
      | SendOk n :: s =>
          match WriteN s (drop n buffer) error_msg with
          | Returned (ok, err, wire) s' => Returned (ok, err, take n buffer ++ wire) s'
          | Blocked => Blocked
          end
      end
  end.

(** ** Messages *)

Section messages.
Context {M : Type} `{ProtoMessage M}.

(** [ReadMessage]; the output parameter [message] is the option returned, and
    [have_message] says that the pointer is not null. *)
Definition ReadMessage (script : list recv_event) (have_message : bool)
    (error_msg : option string)
    : io_result (bool * option M * option string) (list recv_event) :=
  if negb have_message then
    Returned (false, None, set_error error_msg "message is null") script
  else
    match ReadN script 4 error_msg with
    | Blocked => Blocked
    | Returned (false, _, err) s => Returned (false, None, err) s
    | Returned (true, header, err) s =>
        let body_length := ntohl_bytes header in
        if (body_length =? 0) || (kMaxFrameSize <? body_length) then
          Returned
            (false, None,
             set_error err ("invalid frame length: " +:+ to_string body_length)) s
        else
          match ReadN s (Z.to_nat body_length) err with
          | Blocked => Blocked
          | Returned (false, _, err) s => Returned (false, None, err) s
          | Returned (true, body, err) s =>
              match ParseFromArray body with
              | None =>
                  Returned
                    (false, None, set_error err "failed to parse protobuf body") s
              | Some m => Returned (true, Some m, err) s
              end
          end
    end.

(** [WriteMessage]: the result, the error message and the bytes put on the
    wire. *)
Definition WriteMessage (script : list send_event) (message : M)
    (error_msg : option string)
    : io_result (bool * option string * bytes) (list send_event) :=
  let body_length := ByteSizeLong message in
  if (body_length =? 0) || (kMaxFrameSize <? body_length) then
    Returned
      (false,
       set_error error_msg
         ("invalid serialized size: " +:+ to_string body_length), []) script
  else
    match SerializeToArray message with
    | None =>
        Returned
          (false, set_error error_msg "failed to serialize protobuf message", [])
          script
    | Some body =>
        match WriteN script (htonl_bytes body_length) error_msg with
        | Blocked => Blocked
        | Returned (false, err, wire) s => Returned (false, err, wire) s
        | Returned (true, err, wire) s =>
            match WriteN s body err with
            | Blocked => Blocked
            | Returned (ok, err, wire') s' => Returned (ok, err, wire ++ wire') s'
            end
        end
    end.

(** The frame of a message: what a complete [WriteMessage] puts on the
    wire. *)
Definition frame_of (body : bytes) : bytes :=
  htonl_bytes (Z.of_nat (length body)) ++ body.

End messages.

(** ** Lemmas *)

Lemma ntohl_bytes_take bs : (4 <= length bs)%nat -> ntohl_bytes (take 4 bs) = ntohl_bytes bs.
Proof.
  intros Hl. rewrite <- (take_drop 4 bs) at 2. rewrite ntohl_bytes_app; [done|].
  rewrite length_take. lia.
Qed.

Lemma ReadN_loop_app s left out err tail :
  clean_script s -> (left <= length (script_bytes s))%nat ->
  exists s', ReadN_loop (s ++ tail) left out err =
               Returned (true, out ++ take left (script_bytes s), err) (s' ++ tail) /\
             clean_script s' /\ script_bytes s' = drop left (script_bytes s).
Proof.
  revert left out. induction s as [|e s IH]; intros left out Hc Hlen.
  - exists []. destruct left; [|simpl in Hlen; lia].
    simpl. rewrite app_nil_r. by destruct tail.
  - destruct left as [|left].
    { exists (e :: s). simpl ReadN_loop. rewrite take_0, drop_0, app_nil_r. done. }
    inversion Hc as [|? ? He Hs]; subst. destruct e as [[|b bs]|e]; [done| |].
    + simpl script_bytes in *. set (l := b :: bs) in *.
      change (b :: bs ++ script_bytes s) with (l ++ script_bytes s) in *.
      rewrite length_app in Hlen.
      change (ReadN_loop ((RecvBytes l :: s) ++ tail) (S left) out err)
        with (if (length l <=? S left)%nat then
          ReadN_loop (s ++ tail) (S left - length l) (out ++ l) err
        else Returned (true, out ++ take (S left) l, err)
          (RecvBytes (drop (S left) l) :: s ++ tail)).
      destruct (Nat.leb_spec (length l) (S left)) as [Hle|Hgt].
      * destruct (IH (S left - length l)%nat (out ++ l) Hs ltac:(lia))
          as (s' & E & Hc' & Hb).
        exists s'. rewrite E, Hb, take_app_ge, drop_app_ge, <- app_assoc by lia. done.
      * exists (RecvBytes (drop (S left) l) :: s).
        rewrite take_app_le by lia. simpl script_bytes. rewrite drop_app_le by lia.
        split_and!; [done| |done]. constructor; [|done].
        destruct (drop (S left) l) eqn:E; [|done].
        assert (length (drop (S left) l) = 0%nat) as E' by (by rewrite E).
        rewrite length_drop in E'. lia.
    + destruct e; try done. simpl. by apply IH.
Qed.

Lemma ReadN_clean s n err :
  clean_script s -> (n <= length (script_bytes s))%nat ->
  exists s', ReadN s n err = Returned (true, take n (script_bytes s), err) s' /\
             clean_script s' /\ script_bytes s' = drop n (script_bytes s).
Proof.
  intros Hc Hl. destruct (ReadN_loop_app s n [] err [] Hc Hl) as (s' & E & ? & ?).
  rewrite !app_nil_r in E. by exists s'.
Qed.

Lemma WriteN_prefix s buf err ok err' wire s' :
  WriteN s buf err = Returned (ok, err', wire) s' ->
  wire `prefix_of` buf /\ (ok = true -> wire = buf).
Proof.
  revert buf ok err' wire s'. induction s as [|e s IH];
    intros [|b buf] ok err' wire s' E; simplify_eq/=; try done.
  destruct e as [n|e].
  - destruct (WriteN s (drop n (b :: buf)) err) as [[[ok1 err1] w1] s1|] eqn:E1;
      simplify_eq/=.
    apply IH in E1 as [Hp Hok]. rewrite <- (take_drop n (b :: buf)) at 2 4.
    split; [by apply prefix_app|]. intros Hk. by rewrite Hok.
  - case_decide; [by eapply IH|]. simplify_eq. split; [apply prefix_nil|done].
Qed.

Lemma WriteN_full s buf err ok err' s' :
  WriteN s buf err = Returned (ok, err', buf) s' -> ok = true.
Proof.
  revert buf ok err' s'. induction s as [|e s IH]; intros [|b buf] ok err' s' E;
    cbn [WriteN] in E; simplify_eq; try done.
  destruct e as [n|e].
  - destruct (WriteN s (drop n (b :: buf)) err) as [[[ok1 err1] w1] s1|] eqn:E1;
      simplify_eq.
    assert (w1 = drop n (b :: buf)) as ->.
    { apply (app_inv_head (take n (b :: buf))). rewrite take_drop. congruence. }
    by eapply IH.
  - case_decide; [by eapply IH|]. simplify_eq.
Qed.

Lemma WriteN_complete s buf err :
  clean_sends s -> (length buf <= send_progress s)%nat ->
  exists s', WriteN s buf err = Returned (true, err, buf) s' /\
             clean_sends s' /\
             (send_progress s <= length buf + send_progress s')%nat.
Proof.
  revert buf. induction s as [|e s IH]; intros [|b buf] Hc Hlen.
  - exists []. done.
  - simpl in Hlen. lia.
  - exists (e :: s). split_and!; [done|done|simpl; lia].
  - inversion Hc as [|? ? He Hs]; subst. destruct e as [n|e].
    + destruct (IH (drop n (b :: buf)) Hs) as (s' & E & Hs' & Hp).
      { rewrite length_drop. destruct n; simpl in *; lia. }
      exists s'. cbn [WriteN]. rewrite E, take_drop, length_drop in *.
      split_and!; [done|done|]. destruct n; simpl in *; lia.
    + destruct e; try done. simpl in *. by apply IH.
Qed.

Section roundtrip.
Context {M : Type} `{ProtoLaws M}.

Lemma WriteMessage_wire s (m : M) err err' wire s' :
  WriteMessage s m err = Returned (true, err', wire) s' ->
  exists body, SerializeToArray m = Some body /\ wire = frame_of body /\
    0 < Z.of_nat (length body) <= kMaxFrameSize.
Proof.
  unfold WriteMessage. intros E. split_match_in E; [by simplify_eq|].
  destruct (SerializeToArray m) as [body|] eqn:Es; [|by simplify_eq].
  destruct (WriteN s _ err) as [[[[] err1] w1] s1|] eqn:E1; simplify_eq.
  destruct (WriteN s1 body err1) as [[[ok err2] w2] s2|] eqn:E2; simplify_eq.
  apply WriteN_prefix in E1 as [_ ->]; [|done].
  apply WriteN_prefix in E2 as [_ ->]; [|done].
  exists body. pose proof (serialize_size _ _ Es) as Hsz.
  unfold frame_of. rewrite Hsz. breflect. split_and!; [done|done|lia..].
Qed.

Lemma ReadMessage_frame s (m : M) body rest err :
  clean_script s -> script_bytes s = frame_of body ++ rest ->
  0 < Z.of_nat (length body) <= kMaxFrameSize -> ParseFromArray body = Some m ->
  exists s', ReadMessage s true err = Returned (true, Some m, err) s' /\
             clean_script s' /\ script_bytes s' = rest.
Proof.
  intros Hc Hb Hlen Hp. unfold ReadMessage. cbn [negb].
  destruct (ReadN_clean s 4 err Hc) as (s1 & -> & Hc1 & Hb1).
  { rewrite Hb. unfold frame_of. rewrite !length_app, length_htonl_bytes. lia. }
  assert (take 4 (script_bytes s) = htonl_bytes (Z.of_nat (length body))) as ->.
  { rewrite Hb. unfold frame_of. rewrite <- app_assoc. by apply take_app_length'. }
  assert (script_bytes s1 = body ++ rest) as Hb1'.
  { rewrite Hb1, Hb. unfold frame_of. rewrite <- app_assoc. by apply drop_app_length'. }
  rewrite <- (app_nil_r (htonl_bytes _)), ntohl_htonl by (unfold kMaxFrameSize in *; lia).
  destruct (_ || _) eqn:E; breflect; [unfold kMaxFrameSize in *; lia|].
  rewrite Nat2Z.id.
  destruct (ReadN_clean s1 (length body) err Hc1) as (s2 & -> & Hc2 & Hb2).
  { rewrite Hb1', length_app. lia. }
  rewrite Hb1', take_app_length, Hp.
  exists s2. split_and!; [done|done|]. by rewrite Hb2, Hb1', drop_app_length.
Qed.

End roundtrip.

Lemma ReadN_loop_eof s left out err tail :
  clean_script s -> (length (script_bytes s) < left)%nat ->
  ReadN_loop (s ++ RecvBytes [] :: tail) left out err =
    Returned (false, out ++ script_bytes s,
              set_error err "peer closed connection") tail.
Proof.
  revert left out. induction s as [|e s IH]; intros left out Hc Hlen.
  - destruct left; [simpl in Hlen; lia|]. simpl. by rewrite app_nil_r.
  - inversion Hc as [|? ? He Hs]; subst. destruct left as [|left]; [lia|].
    destruct e as [[|b bs]|e]; [done| |].
    + simpl script_bytes in *. set (l := b :: bs) in *.
      change (b :: bs ++ script_bytes s) with (l ++ script_bytes s) in *.
      rewrite length_app in Hlen.
      trans (ReadN_loop (s ++ RecvBytes [] :: tail) (S left - length l) (out ++ l) err).
      { change (ReadN_loop ((RecvBytes l :: s) ++ RecvBytes [] :: tail) (S left) out err)
          with (if (length l <=? S left)%nat then
            ReadN_loop (s ++ RecvBytes [] :: tail) (S left - length l) (out ++ l) err
          else Returned (true, out ++ take (S left) l, err)
            (RecvBytes (drop (S left) l) :: s ++ RecvBytes [] :: tail)).
        destruct (Nat.leb_spec (length l) (S left)); [done|lia]. }
      rewrite IH by (done || lia). by rewrite <- app_assoc.
    + destruct e; try done. simpl. by apply IH.
Qed.

(** ** Properties *)

Section properties.
Context {M : Type} `{ProtoLaws M}.

(** C26: whatever pieces [send] took the frame in, and whatever pieces [recv]
    hands it over in (interrupted calls included), a message written by
    [WriteMessage] is the message [ReadMessage] returns, and exactly the bytes
    that follow the frame are left in the stream. *)
Theorem codec_roundtrip sscript sscript' rscript (m : M) err err' wire rest err2 :
  proto_valid m ->
  WriteMessage sscript m err = Returned (true, err', wire) sscript' ->
  clean_script rscript -> script_bytes rscript = wire ++ rest ->
  exists rscript',
    ReadMessage rscript true err2 = Returned (true, Some m, err2) rscript' /\
    clean_script rscript' /\ script_bytes rscript' = rest.
Proof.
  intros Hv Hw Hc Hb.
  apply WriteMessage_wire in Hw as (body & Hs & -> & Hlen).
  eapply ReadMessage_frame; eauto using parse_serialize.
Qed.

(** [WriteMessage] returns on every socket that keeps accepting bytes: it
    reports success with the whole frame on the wire when the serialized size
    is between 1 and 4 MiB; otherwise it fails without writing a byte. *)
Theorem codec_write_total sscript (m : M) body err :
  SerializeToArray m = Some body -> clean_sends sscript ->
  (4 + length body <= send_progress sscript)%nat ->
  exists sscript',
    WriteMessage sscript m err =
      if (0 <? Z.of_nat (length body)) && (Z.of_nat (length body) <=? kMaxFrameSize)
      then Returned (true, err, frame_of body) sscript'
      else Returned
             (false, set_error err ("invalid serialized size: " +:+
                                    to_string (Z.of_nat (length body))), [])
             sscript.
Proof.
  intros Hs Hc Hp. unfold WriteMessage.
  rewrite <- (serialize_size _ _ Hs), Hs.
  destruct ((0 <? _) && _) eqn:E.
  - destruct (_ || _) eqn:E2; breflect; [lia|].
    destruct (WriteN_complete sscript (htonl_bytes (Z.of_nat (length body))) err Hc)
      as (s1 & -> & Hc1 & Hp1); [rewrite length_htonl_bytes; lia|].
    rewrite length_htonl_bytes in Hp1.
    destruct (WriteN_complete s1 body err Hc1) as (s2 & -> & _ & _); [lia|].
    by exists s2.
  - exists []. destruct (_ || _) eqn:E2; [done|]. breflect. lia.
Qed.

(** However [WriteMessage] ends (error in the middle of the header or of
    the body included), what reached the wire is a prefix of the frame. *)
Theorem codec_write_prefix sscript (m : M) err ok err' wire sscript' body :
  SerializeToArray m = Some body ->
  WriteMessage sscript m err = Returned (ok, err', wire) sscript' ->
  wire `prefix_of` frame_of body /\ (ok = true <-> wire = frame_of body).
Proof.
  intros Hs. unfold WriteMessage, frame_of. rewrite <- (serialize_size _ _ Hs), Hs.
  intros E. split_match_in E.
  { simplify_eq. split; [apply prefix_nil|]. split; [done|].
    intros Hn. destruct body; done. }
  destruct (WriteN sscript _ err) as [[[[] err1] w1] s1|] eqn:E1; simplify_eq.
  - destruct (WriteN s1 body err1) as [[[ok2 err2] w2] s2|] eqn:E2; simplify_eq.
    apply WriteN_prefix in E1 as [_ ->]; [|done].
    pose proof (WriteN_prefix _ _ _ _ _ _ _ E2) as [Hp Hok].
    split; [by apply prefix_app|]. split; [intros ->; by rewrite Hok|].
    intros ->%app_inv_head. by eapply WriteN_full.
  - pose proof (WriteN_prefix _ _ _ _ _ _ _ E1) as [Hp _].
    split; [by apply prefix_app_r|]. split; [done|]. intros ->.
    apply prefix_length in Hp. rewrite length_app, length_htonl_bytes in Hp.
    breflect. lia.
Qed.

(** The two ways a peer can break the framing are errors: a length of 0 or
    above 4 MiB is refused after exactly the 4 header bytes, before any body
    byte is read; and a stream that ends inside the header or the body gives
    "peer closed connection". *)
Theorem codec_read_errors s tail (err : string) :
  clean_script s ->
  ((4 <= length (script_bytes s))%nat ->
   let n := ntohl_bytes (script_bytes s) in
   n = 0 \/ kMaxFrameSize < n ->
   exists s', ReadMessage (M := M) s true (Some err) =
     Returned (false, None, Some ("invalid frame length: " +:+ to_string n)) s' /\
     script_bytes s' = drop 4 (script_bytes s)) /\
  ((length (script_bytes s) < 4)%nat \/
   (let n := ntohl_bytes (script_bytes s) in
    0 < n <= kMaxFrameSize /\ Z.of_nat (length (script_bytes s)) < 4 + n) ->
   ReadMessage (M := M) (s ++ RecvBytes [] :: tail) true (Some err) =
     Returned (false, None, Some "peer closed connection") tail).
Proof.
  intros Hc. split.
  - intros Hl n Hn. unfold ReadMessage. cbn [negb].
    destruct (ReadN_clean s 4 (Some err) Hc Hl) as (s1 & -> & _ & Hb1).
    exists s1. rewrite ntohl_bytes_take by done. fold n.
    destruct (_ || _) eqn:E; [done|]. breflect. lia.
  - intros [Hshort|[Hn Hshort]]; unfold ReadMessage, ReadN; cbn [negb].
    { by rewrite ReadN_loop_eof. }
    destruct (decide (length (script_bytes s) < 4)%nat) as [|Hl].
    { by rewrite ReadN_loop_eof. }
    destruct (ReadN_loop_app s 4 [] (Some err) (RecvBytes [] :: tail) Hc ltac:(lia))
      as (s1 & -> & Hc1 & Hb1).
    simpl app. rewrite ntohl_bytes_take by lia.
    destruct (_ || _) eqn:E; breflect; [lia|].
    rewrite ReadN_loop_eof; [done..|]. rewrite Hb1, length_drop. lia.
Qed.

End properties.

(** A message that is its own serialization: a protobuf stand-in the
    hypotheses hold for. *)
Definition raw_proto : ProtoMessage bytes :=
  {| ByteSizeLong := fun m => Z.of_nat (length m);
     SerializeToArray := fun m => Some m;
     ParseFromArray := fun b => Some b |}.

Definition raw_laws : @ProtoLaws bytes raw_proto.
Proof.
  refine (@Build_ProtoLaws bytes raw_proto (fun _ => True) _ _);
    simpl; intros; simplify_eq; done.
Defined.

Definition sample_wire : bytes := [x00; x00; x00; x02; x61; x62].

Lemma codec_roundtrip_witness :
  exists rscript',
    @ReadMessage bytes raw_proto
      [RecvBytes [x00; x00]; RecvErr EINTR; RecvBytes [x00; x02; x61]; RecvBytes [x62; x7a]]
      true (Some "") = Returned (true, Some [x61; x62], Some "") rscript' /\
    clean_script rscript' /\ script_bytes rscript' = [x7a].
Proof.
  apply (@codec_roundtrip bytes raw_proto raw_laws [SendOk 3; SendErr EINTR; SendOk 7; SendOk 9] []
           _ [x61; x62] (Some "") (Some "") sample_wire [x7a] (Some "")).
  - exact I.
  - vm_compute. reflexivity.
  - repeat constructor.
  - reflexivity.
Defined.

Lemma codec_write_total_witness :
  exists s', @WriteMessage bytes raw_proto (replicate 6 (SendOk 1)) [x61; x62] None =
    Returned (true, None, sample_wire) s'.
Proof.
  apply (@codec_write_total bytes raw_proto raw_laws (replicate 6 (SendOk 1)) [x61; x62]
           [x61; x62] None).
  - reflexivity.
  - repeat constructor.
  - vm_compute. lia.
Defined.

Lemma codec_write_prefix_witness :
  [x00; x00; x00; x02; x61] `prefix_of` frame_of [x61; x62] /\
  (false = true <-> [x00; x00; x00; x02; x61] = frame_of [x61; x62]).
Proof.
  apply (@codec_write_prefix bytes raw_proto raw_laws [SendOk 4; SendOk 1; SendErr EPIPE]
           [x61; x62] None false None _ [] [x61; x62]); vm_compute; reflexivity.
Defined.

Lemma codec_read_errors_witness :
  exists s', @ReadMessage bytes raw_proto [RecvBytes [x00; x00; x00; x00; x41]] true (Some "") =
     Returned (false, None, Some ("invalid frame length: " +:+ to_string 0)) s' /\
     script_bytes s' = [x41].
Proof.
  apply (@codec_read_errors bytes raw_proto
           [RecvBytes [x00; x00; x00; x00; x41]] [] "").
  - repeat constructor.
  - vm_compute. lia.
  - left. reflexivity.
Defined.
