(* ===== verification/Frames.v ===== *)
(** * Splitting a byte stream into frames

    Client and server receive frames the same way: append what [recv] returned
    to a buffer, then, as long as the buffer starts with a complete frame,
    handle its body and drop it; the incomplete tail stays.  The two loops of
    the sources ([HandleReadableFrames] of client/rpc_client.cpp and
    [TryParseRequests] of server/connection.cpp) are instances of
    [frames_loop]; what is generic about them is proved here once, above all
    that the outcome does not depend on how the stream was cut into reads. *)

From Stdlib Require Import ZArith Lia.
From S2P Require Import Prelude Codec.

Local Open Scope list_scope.

Definition kFrameHeaderBytes : nat := 4.

(** What the first bytes of a buffer are. *)
Inductive frame_view :=
  | FIncomplete
  | FInvalid
  | FFrame (body rest : bytes).

(** The tests of the two loops, in their order: enough bytes for a header; the
    length of the body; enough bytes for the body. *)
Definition view_frame (buf : bytes) : frame_view :=
  if length buf <? kFrameHeaderBytes then FIncomplete
  else
    let body_length := ntohl_bytes buf in
    if ((body_length =? 0) || (kMaxFrameSize <? body_length))%Z then FInvalid
    else if length buf <? kFrameHeaderBytes + Z.to_nat body_length then FIncomplete
    else FFrame (take (Z.to_nat body_length) (drop kFrameHeaderBytes buf))
                (drop (kFrameHeaderBytes + Z.to_nat body_length) buf).

Lemma view_frame_length buf body rest :
  view_frame buf = FFrame body rest -> length rest < length buf.
Proof.
  unfold view_frame. intros H. repeat (split_match_in H; simplify_eq).
  breflect. rewrite length_drop. unfold kFrameHeaderBytes in *. lia.
Qed.

(** More bytes do not change what was already complete. *)
Lemma view_frame_app buf more :
  match view_frame buf with
  | FFrame body rest => view_frame (buf ++ more) = FFrame body (rest ++ more)
  | FInvalid => view_frame (buf ++ more) = FInvalid
  | FIncomplete => True
  end.
Proof.
  unfold view_frame. destruct (length buf <? kFrameHeaderBytes) eqn:E1; [done|]. breflect.
  rewrite ntohl_bytes_app by (unfold kFrameHeaderBytes in *; lia).
  rewrite length_app.
  destruct (Nat.ltb_spec (length buf + length more) kFrameHeaderBytes); [lia|].
  destruct ((ntohl_bytes buf =? 0) || (kMaxFrameSize <? ntohl_bytes buf))%Z; [done|].
  destruct (length buf <? kFrameHeaderBytes + Z.to_nat (ntohl_bytes buf)) eqn:E2; [done|]. breflect.
  destruct (Nat.ltb_spec (length buf + length more)
              (kFrameHeaderBytes + Z.to_nat (ntohl_bytes buf))); [lia|].
  rewrite !drop_app_le by lia.
  rewrite take_app_le; [done|]. rewrite length_drop. lia.
Qed.

(** A frame is its header and its body. *)
Lemma view_frame_inv buf body rest :
  view_frame buf = FFrame body rest ->
  (0 < Z.of_nat (length body) <= kMaxFrameSize)%Z /\ buf = frame_of body ++ rest.
Proof.
  unfold view_frame. intros E. repeat (split_match_in E; simplify_eq). breflect.
  pose proof (ntohl_bytes_range buf). unfold kFrameHeaderBytes in *.
  set (n := ntohl_bytes buf) in *.
  assert (length (take (Z.to_nat n) (drop 4 buf)) = Z.to_nat n) as El
    by (rewrite length_take, length_drop; lia).
  rewrite El. split; [lia|]. unfold frame_of. rewrite El, Z2Nat.id by lia.
  unfold n at 1. rewrite htonl_ntohl by lia.
  change (S (S (S (S (Z.to_nat n))))) with (4 + Z.to_nat n).
  rewrite <- app_assoc, <- drop_drop, take_drop. symmetry. apply take_drop.
Qed.

(** The frame of a body that fits. *)
Lemma view_frame_frame body rest :
  (0 < Z.of_nat (length body) <= kMaxFrameSize)%Z ->
  view_frame (htonl_bytes (Z.of_nat (length body)) ++ body ++ rest) = FFrame body rest.
Proof.
  intros Hb. unfold view_frame, kFrameHeaderBytes.
  rewrite ntohl_htonl by (unfold kMaxFrameSize in *; lia).
  rewrite !length_app, length_htonl_bytes.
  destruct (Nat.ltb_spec (4 + (length body + length rest)) 4); [lia|].
  destruct (Z.eqb_spec (Z.of_nat (length body)) 0); [lia|].
  destruct (Z.ltb_spec kMaxFrameSize (Z.of_nat (length body))); [lia|]. simpl orb. cbv iota.
  rewrite Nat2Z.id.
  destruct (Nat.ltb_spec (4 + (length body + length rest)) (4 + length body)); [lia|].
  f_equal.
  - change 4 with (length (htonl_bytes (Z.of_nat (length body)))) at 1.
    by rewrite drop_app_exact, take_app_exact.
  - rewrite (assoc_L (++)), <- length_htonl_bytes with (z := Z.of_nat (length body)).
    rewrite <- length_app. apply drop_app_exact.
Qed.

Section loop.
Context {S : Type}.

(** [on_body s b] handles a complete body: [inl] to go on, [inr] to stop the
    connection; [on_invalid] handles a length that is zero or too large. *)
Context (on_body : S -> bytes -> S + S) (on_invalid : S -> S).

(** The result of the loop: whether to go on, the state, what is left of the
    buffer. *)
Fixpoint frames_loop_fuel (fuel : nat) (s : S) (buf : bytes) : bool * S * bytes :=
  match fuel with
  | O => (true, s, buf)
  | Datatypes.S fuel =>
      match view_frame buf with
      | FIncomplete => (true, s, buf)
      | FInvalid => (false, on_invalid s, buf)
      | FFrame body rest =>
          match on_body s body with
          | inl s' => frames_loop_fuel fuel s' rest
          | inr s' => (false, s', buf)
          end
      end
  end.

(** Every round consumes a frame, so the length of the buffer is fuel enough. *)
Definition frames_loop (s : S) (buf : bytes) : bool * S * bytes :=
  frames_loop_fuel (Datatypes.S (length buf)) s buf.

Lemma frames_loop_fuel_enough n m s buf :
  length buf < n -> length buf < m -> frames_loop_fuel n s buf = frames_loop_fuel m s buf.
Proof.
  revert m s buf. induction n as [|n IH]; intros [|m] s buf Hn Hm; try lia. simpl.
  destruct (view_frame buf) as [| |body rest] eqn:E; try done.
  destruct (on_body s body); [|done].
  apply view_frame_length in E. apply IH; lia.
Qed.

(** The defining equation of the loop. *)
Lemma frames_loop_unfold s buf :
  frames_loop s buf =
  match view_frame buf with
  | FIncomplete => (true, s, buf)
  | FInvalid => (false, on_invalid s, buf)
  | FFrame body rest =>
      match on_body s body with
      | inl s' => frames_loop s' rest
      | inr s' => (false, s', buf)
      end
  end.
Proof.
  unfold frames_loop at 1. cbn [frames_loop_fuel].
  destruct (view_frame buf) as [| |body rest] eqn:E; try done.
  destruct (on_body s body); [|done].
  apply view_frame_length in E. apply frames_loop_fuel_enough; lia.
Qed.

Lemma frames_loop_ind (P : bytes -> Prop) :
  (forall buf, (forall body rest, view_frame buf = FFrame body rest -> P rest) -> P buf) ->
  forall buf, P buf.
Proof.
  intros Hstep buf. remember (length buf) as n eqn:Hn. revert buf Hn.
  induction n as [n IH] using lt_wf_ind. intros buf ->.
  apply Hstep. intros body rest E%view_frame_length. by eapply IH.
Qed.

(** What is left after a successful loop starts with no complete frame. *)
Lemma frames_loop_rest s buf s' rest :
  frames_loop s buf = (true, s', rest) -> view_frame rest = FIncomplete.
Proof.
  revert s. induction buf as [buf IH] using frames_loop_ind. intros s.
  rewrite frames_loop_unfold. destruct (view_frame buf) as [| |body r] eqn:E; try done.
  - by intros [= _ <-].
  - destruct (on_body s body); [|done]. by eapply IH.
Qed.

Lemma frames_loop_shrinks s buf ok s' rest :
  frames_loop s buf = (ok, s', rest) -> length rest <= length buf.
Proof.
  revert s. induction buf as [buf IH] using frames_loop_ind. intros s.
  rewrite frames_loop_unfold. destruct (view_frame buf) as [| |body r] eqn:E.
  - by intros [= _ _ <-].
  - by intros [= _ _ <-].
  - destruct (on_body s body); [|by intros [= _ _ <-]].
    intros H. eapply IH in H; [|done]. apply view_frame_length in E. lia.
Qed.

(** Bytes that arrive later: the loop goes on where it stopped. *)
Lemma frames_loop_app s buf more :
  match frames_loop s buf with
  | (true, s', rest) => frames_loop s (buf ++ more) = frames_loop s' (rest ++ more)
  | (false, s', _) => (frames_loop s (buf ++ more)).1 = (false, s')
  end.
Proof.
  revert s. induction buf as [buf IH] using frames_loop_ind. intros s.
  rewrite (frames_loop_unfold s buf). pose proof (view_frame_app buf more) as Hv.
  destruct (view_frame buf) as [| |body rest] eqn:E.
  - done.
  - rewrite frames_loop_unfold, Hv. done.
  - rewrite (frames_loop_unfold s (buf ++ more)), Hv.
    destruct (on_body s body) as [s1|s1]; [|done].
    specialize (IH body rest eq_refl s1). by destruct (frames_loop s1 rest) as [[[] s2] r2].
Qed.

(** A stream of frames with an incomplete tail: the bodies are handled in
    order and the tail is left. *)
Fixpoint handle_all (s : S) (bodies : list bytes) : bool * S :=
  match bodies with
  | [] => (true, s)
  | b :: bs => match on_body s b with
               | inl s' => handle_all s' bs
               | inr s' => (false, s')
               end
  end.

Lemma frames_loop_bodies bodies tail s :
  Forall (fun b => 0 < Z.of_nat (length b) <= kMaxFrameSize)%Z bodies ->
  view_frame tail = FIncomplete ->
  let '(ok, s', rest) := frames_loop s (concat (map frame_of bodies) ++ tail) in
  (ok, s') = handle_all s bodies /\ (ok = true -> rest = tail).
Proof.
  intros Hb Ht. revert s. induction Hb as [|b bs Hb Hbs IH]; intros s.
  - simpl. rewrite frames_loop_unfold, Ht. done.
  - assert (view_frame (concat (map frame_of (b :: bs)) ++ tail) =
            FFrame b (concat (map frame_of bs) ++ tail)) as E.
    { simpl. unfold frame_of at 1. rewrite <- !app_assoc. by apply view_frame_frame. }
    rewrite frames_loop_unfold, E. simpl. destruct (on_body s b) as [s1|s1]; [apply IH|done].
Qed.

(** The part of a stream of frames that has arrived so far: its complete
    frames are handled in order, and what is left continues the stream. *)
Lemma frames_loop_prefix future tail buf : forall bodies s,
  Forall (fun b => 0 < Z.of_nat (length b) <= kMaxFrameSize)%Z bodies ->
  view_frame tail = FIncomplete ->
  buf ++ future = concat (map frame_of bodies) ++ tail ->
  exists seen rest, bodies = seen ++ rest /\
    let '(ok, s', remain) := frames_loop s buf in
    (ok, s') = handle_all s seen /\
    (ok = true -> view_frame remain = FIncomplete /\
                  remain ++ future = concat (map frame_of rest) ++ tail).
Proof.
  induction buf as [buf IH] using frames_loop_ind. intros bodies s Hb Ht E.
  assert (match bodies with
          | [] => view_frame (buf ++ future) = FIncomplete
          | b :: bs => view_frame (buf ++ future) = FFrame b (concat (map frame_of bs) ++ tail)
          end) as Hv.
  { rewrite E. destruct Hb as [|b bs Hb _]; [done|]. simpl. unfold frame_of at 1.
    rewrite <- !app_assoc. by apply view_frame_frame. }
  rewrite frames_loop_unfold. pose proof (view_frame_app buf future) as Ha.
  destruct (view_frame buf) as [| |body r] eqn:Ev.
  - by exists [], bodies.
  - destruct bodies; congruence.
  - destruct bodies as [|b bs]; [congruence|]. rewrite Ha in Hv. injection Hv as -> Hr.
    apply Forall_cons in Hb as [_ Hb]. destruct (on_body s b) as [s1|s1] eqn:Eb.
    + destruct (IH b r eq_refl bs s1 Hb Ht Hr) as (seen & rest & -> & Hl).
      exists (b :: seen), rest. split; [done|]. simpl. rewrite Eb. exact Hl.
    + exists [b], bs. split; [done|]. simpl. by rewrite Eb.
Qed.

(** Feeding a stream in pieces: after each piece the loop runs. *)
Fixpoint feed (s : S) (buf : bytes) (chunks : list bytes) : bool * S * bytes :=
  match chunks with
  | [] => (true, s, buf)
  | c :: cs =>
      match frames_loop s (buf ++ c) with
      | (true, s', rest) => feed s' rest cs
      | (false, s', rest) => (false, s', rest)
      end
  end.

(** However a stream is cut into pieces, the outcome is that of the whole. *)
Lemma feed_concat chunks : forall s buf,
  view_frame buf = FIncomplete ->
  (feed s buf chunks).1 = (frames_loop s (buf ++ concat chunks)).1 /\
  ((feed s buf chunks).1.1 = true ->
   (feed s buf chunks).2 = (frames_loop s (buf ++ concat chunks)).2).
Proof.
  induction chunks as [|c cs IH]; intros s buf Hbuf; simpl.
  - rewrite app_nil_r, frames_loop_unfold, Hbuf. done.
  - rewrite (assoc_L (++)). pose proof (frames_loop_app s (buf ++ c) (concat cs)) as Ha.
    pose proof (frames_loop_rest s (buf ++ c)) as Hr.
    destruct (frames_loop s (buf ++ c)) as [[[] s1] rest].
    + rewrite Ha. apply IH. by eapply Hr.
    + rewrite Ha. done.
Qed.

End loop.
