(* ===== verification/PendingCalls.v ===== *)
(** * The table of pending calls (client/pending_calls.h, client/pending_calls.cpp)

    [slots_] is a [gmap] from request id to slot.  Each public method runs
    under the mutex, so it is one atomic function on the table; what it does
    after the lock is released (fulfilling promises, resuming coroutines) is
    the list of effects it returns, in order.  Promises, coroutine handles and
    threads are named by numbers.  [FailAll] and [FailTimedOut] visit the
    slots in the unspecified order of an [unordered_map]; here the order is
    that of [map_to_list], and the properties do not depend on it. *)

From S2P Require Import Prelude RpcError.

Local Open Scope string_scope.
Local Open Scope list_scope.

(** ** Data *)

(** client/rpc_types.h *)
Record RpcCallResult := { status : Status; response_payload : string }.

#[export] Instance RpcCallResult_eq_dec : EqDecision RpcCallResult.
Proof. solve_decision. Defined.

Definition RpcCallResult_default : RpcCallResult :=
  {| status := {| code := make_error_code kInternalError;
                  message := "uninitialized" |};
     response_payload := "" |}.

Definition RpcCallResult_ok (r : RpcCallResult) : bool := Status_ok (status r).

(** [RpcCallResult{{make_error_code(c), msg}, {}}]. *)
Definition failure (c : ErrorCode) (msg : string) : RpcCallResult :=
  {| status := {| code := make_error_code c; message := msg |};
     response_payload := "" |}.

Inductive BindCoroutineStatus := kBound | kAlreadyDone | kNotFound | kAlreadyBound.

Record Slot := {
  done : bool;
  result : RpcCallResult;
  async_promise : option nat;
  async_bound : bool;
  coroutine_handle : option nat;
  coroutine_bound : bool;
  deadline : Z;
}.

Definition Slot_default : Slot :=
  {| done := false; result := RpcCallResult_default; async_promise := None;
     async_bound := false; coroutine_handle := None; coroutine_bound := false;
     deadline := 0 |}.

(** What a method does besides changing the table. *)
Inductive effect :=
  | SetValue (promise : nat) (r : RpcCallResult)
  | Resume (handle : nat)
  | NotifyAll (request_id : string).

#[export] Instance effect_eq_dec : EqDecision effect.
Proof. solve_decision. Defined.

Abbreviation table := (gmap string Slot).

(** ** Operations *)

Definition Add (sl : table) (request_id : string) : bool * table :=
  if str_empty request_id then (false, sl)
  else match sl !! request_id with
       | Some _ => (false, sl)
       | None => (true, <[request_id := Slot_default]> sl)
       end.

Definition BindAsync (sl : table) (request_id : string) (promise : nat) (dl : Z)
    : bool * table * list effect :=
  match sl !! request_id with
  | None => (false, sl, [])
  | Some s =>
      if async_bound s then (false, sl, [])
      else if coroutine_bound s then (false, sl, [])
      else if done s then
        (true, delete request_id sl, [SetValue promise (result s)])
      else
        (true,
         <[request_id :=
             {| done := done s; result := result s; async_promise := Some promise;
                async_bound := true; coroutine_handle := coroutine_handle s;
                coroutine_bound := coroutine_bound s; deadline := dl |}]> sl, [])
  end.

Definition BindCoroutine (sl : table) (request_id : string) (handle : nat) (dl : Z)
    : BindCoroutineStatus * table :=
  match sl !! request_id with
  | None => (kNotFound, sl)
  | Some s =>
      if coroutine_bound s then (kAlreadyBound, sl)
      else if async_bound s then (kAlreadyBound, sl)
      else if done s then (kAlreadyDone, sl)
      else
        (kBound,
         <[request_id :=
             {| done := done s; result := result s; async_promise := async_promise s;
                async_bound := async_bound s; coroutine_handle := Some handle;
                coroutine_bound := true; deadline := dl |}]> sl)
  end.

(** The slot with its result written and its coroutine waiter unbound. *)
Definition finish (s : Slot) (r : RpcCallResult) : Slot :=
  {| done := true; result := r; async_promise := async_promise s;
     async_bound := async_bound s; coroutine_handle := coroutine_handle s;
     coroutine_bound := coroutine_bound s; deadline := deadline s |}.

Definition unbind_coroutine (s : Slot) : Slot :=
  {| done := done s; result := result s; async_promise := async_promise s;
     async_bound := async_bound s; coroutine_handle := None;
     coroutine_bound := false; deadline := deadline s |}.

Definition reset_promise (s : Slot) : Slot :=
  {| done := done s; result := result s; async_promise := None;
     async_bound := async_bound s; coroutine_handle := coroutine_handle s;
     coroutine_bound := coroutine_bound s; deadline := deadline s |}.

(** The handle of [slot.coroutine_bound && slot.coroutine_handle]. *)
Definition bound_handle (s : Slot) : option nat :=
  if coroutine_bound s then coroutine_handle s else None.

Definition Complete (sl : table) (request_id : string) (r : RpcCallResult)
    : bool * table * list effect :=
  match sl !! request_id with
  | None => (false, sl, [])
  | Some s =>
      if done s then (false, sl, [])
      else
        let s := finish s r in
        match async_promise s with
        | Some p => (true, delete request_id sl, [SetValue p (result s)])
        | None =>
            match bound_handle s with
            | Some h => (true, <[request_id := unbind_coroutine s]> sl, [Resume h])
            | None => (true, <[request_id := s]> sl, [NotifyAll request_id])
            end
        end
  end.

(** [WaitAndPop] up to the wait, and each time the waiting thread holds the
    mutex again.  The waiting thread keeps a reference to the slot: if the slot
    was erased meanwhile the reference dangles. *)
Inductive wait_outcome :=
  | Popped (r : option RpcCallResult)
  | Waiting
  | Dangling.

Definition WaitAndPop_enter (sl : table) (request_id : string) : wait_outcome * table :=
  match sl !! request_id with
  | None => (Popped None, sl)
  | Some s =>
      if done s then (Popped (Some (result s)), delete request_id sl)
      else (Waiting, sl)
  end.

Definition WaitAndPop_wake (sl : table) (request_id : string) (timed_out : bool)
    : wait_outcome * table :=
  match sl !! request_id with
  | None => (Dangling, sl)
  | Some s =>
      if done s then (Popped (Some (result s)), delete request_id sl)
      else if timed_out then (Popped None, sl)
      else (Waiting, sl)
  end.

Definition TryPop (sl : table) (request_id : string) : option RpcCallResult * table :=
  match sl !! request_id with
  | None => (None, sl)
  | Some s =>
      if negb (done s) then (None, sl)
      else (Some (result s), delete request_id sl)
  end.

Definition Remove (sl : table) (request_id : string) : table :=
  match sl !! request_id with
  | None => sl
  | Some _ => delete request_id sl
  end.

(** What the loops of [FailAll] and [FailTimedOut] collect from a slot. *)
Definition slot_promise (s : Slot) : option (nat * RpcCallResult) :=
  (fun p => (p, result s)) <$> async_promise s.

Definition collect_waiter (s : Slot) : Slot :=
  let s := reset_promise s in
  match bound_handle s with
  | Some _ => unbind_coroutine s
  | None => s
  end.

(** The slot once its result is decided, before the waiters are collected. *)
Definition fail_all_mark (template : RpcCallResult) (s : Slot) : Slot :=
  if done s then s else finish s template.

Definition times_out (now : Z) (s : Slot) : bool :=
  negb (done s || (now <? deadline s)%Z ||
        (negb (async_bound s) && negb (coroutine_bound s))).

(** The common body: mark the selected slots, collect their waiters, notify;
    then, outside the lock, all promises and all coroutines. *)
Definition fail_effects (sel : Slot -> bool) (mark : Slot -> Slot) (sl : table)
    : list effect :=
  let visited := filter (fun kv => sel (snd kv) = true) (map_to_list sl) in
  map (fun kv => NotifyAll (fst kv)) visited ++
  omap (fun kv => (fun pr => SetValue (fst pr) (snd pr)) <$> slot_promise (mark (snd kv)))
       visited ++
  omap (fun kv => Resume <$> bound_handle (mark (snd kv))) visited.

Definition fail_table (sel : Slot -> bool) (mark : Slot -> Slot) (sl : table) : table :=
  (fun s => if sel s then collect_waiter (mark s) else s) <$> sl.

Definition FailAll (sl : table) (template : RpcCallResult) : table * list effect :=
  (fail_table (fun _ => true) (fail_all_mark template) sl,
   fail_effects (fun _ => true) (fail_all_mark template) sl).

Definition FailTimedOut (sl : table) (now : Z) (timeout_result : RpcCallResult)
    : table * list effect :=
  (fail_table (times_out now) (fun s => finish s timeout_result) sl,
   fail_effects (times_out now) (fun s => finish s timeout_result) sl).

Definition Size (sl : table) : nat := size sl.

(** ** Runs *)

Inductive Op :=
  | OpAdd (request_id : string)
  | OpBindAsync (request_id : string) (promise : nat) (dl : Z)
  | OpBindCoroutine (request_id : string) (handle : nat) (dl : Z)
  | OpComplete (request_id : string) (r : RpcCallResult)
  | OpWaitEnter (request_id : string)
  | OpWaitWake (request_id : string) (timed_out : bool)
  | OpTryPop (request_id : string)
  | OpRemove (request_id : string)
  | OpFailAll (r : RpcCallResult)
  | OpFailTimedOut (now : Z) (r : RpcCallResult).

Definition step (sl : table) (op : Op) : table * list effect :=
  match op with
  | OpAdd id => (snd (Add sl id), [])
  | OpBindAsync id p dl => let '(_, sl', e) := BindAsync sl id p dl in (sl', e)
  | OpBindCoroutine id h dl => (snd (BindCoroutine sl id h dl), [])
  | OpComplete id r => let '(_, sl', e) := Complete sl id r in (sl', e)
  | OpWaitEnter id => (snd (WaitAndPop_enter sl id), [])
  | OpWaitWake id t => (snd (WaitAndPop_wake sl id t), [])
  | OpTryPop id => (snd (TryPop sl id), [])
  | OpRemove id => (Remove sl id, [])
  | OpFailAll r => FailAll sl r
  | OpFailTimedOut now r => FailTimedOut sl now r
  end.

(** Any interleaving of the threads' calls is a list of operations. *)
Fixpoint run (sl : table) (ops : list Op) : table * list effect :=
  match ops with
  | [] => (sl, [])
  | op :: ops =>
      let '(sl1, e1) := step sl op in
      let '(sl2, e2) := run sl1 ops in
      (sl2, e1 ++ e2)
  end.

Definition fulfilled (es : list effect) : list nat :=
  omap (fun e => match e with SetValue p _ => Some p | _ => None end) es.

Definition resumed (es : list effect) : list nat :=
  omap (fun e => match e with Resume h => Some h | _ => None end) es.

Definition promises_of (ops : list Op) : list nat :=
  omap (fun op => match op with OpBindAsync _ p _ => Some p | _ => None end) ops.

Definition handles_of (ops : list Op) : list nat :=
  omap (fun op => match op with OpBindCoroutine _ h _ => Some h | _ => None end) ops.

(** ** Invariant *)

(** At most one kind of waiter; a bound waiter means that the call is not
    done; a stored promise or handle means that its flag is set. *)
Record slot_wf (s : Slot) : Prop := {
  wf_handle : coroutine_bound s = true <-> is_Some (coroutine_handle s);
  wf_promise : is_Some (async_promise s) -> async_bound s = true /\ done s = false;
  wf_coroutine : coroutine_bound s = true -> async_bound s = false /\ done s = false;
}.

Definition table_wf (sl : table) : Prop :=
  sl !! "" = None /\ map_Forall (fun _ s => slot_wf s) sl.

(** ** Lemmas: the invariant *)

Lemma slot_wf_default : slot_wf Slot_default.
Proof. split; simpl; [by split; [|intros []]| by intros []|done]. Qed.

Lemma slot_wf_finish s r :
  slot_wf s -> async_promise s = None -> bound_handle s = None -> slot_wf (finish s r).
Proof.
  intros [Hh Hp Hc] E1 E2. unfold bound_handle in E2.
  split; simpl; [done|rewrite E1; by intros []|].
  intros Hb. destruct (proj1 Hh Hb). rewrite Hb in E2. congruence.
Qed.

Lemma slot_wf_unbind s r :
  slot_wf s -> async_promise s = None -> slot_wf (unbind_coroutine (finish s r)).
Proof.
  intros [Hh Hp Hc] E1.
  split; simpl; [by split; [|intros []]|rewrite E1; by intros []|done].
Qed.

Lemma slot_wf_collect s :
  (coroutine_bound s = true <-> is_Some (coroutine_handle s)) -> slot_wf (collect_waiter s).
Proof.
  intros Hh. unfold collect_waiter, bound_handle. simpl.
  destruct (coroutine_bound s) eqn:Eb.
  - destruct (proj1 Hh) as [h Eh]; [done|]. rewrite Eh.
    split; simpl; [by split; [|intros []]|by intros []|done].
  - split; simpl; rewrite ?Eb; [done|by intros []|done].
Qed.

Lemma table_wf_empty : table_wf ∅.
Proof. split; [apply lookup_empty|apply map_Forall_empty]. Qed.

Lemma table_wf_lookup sl id s : table_wf sl -> sl !! id = Some s -> slot_wf s /\ id <> "".
Proof. intros [He Hf] E. split; [by apply (Hf id)|]. intros ->. congruence. Qed.

Lemma table_wf_insert sl id s : table_wf sl -> id <> "" -> slot_wf s -> table_wf (<[id:=s]> sl).
Proof.
  intros [He Hf] Hid Hs. split; [by rewrite lookup_insert_ne|].
  by apply map_Forall_insert_2.
Qed.

Lemma table_wf_delete sl id : table_wf sl -> table_wf (delete id sl).
Proof.
  intros [He Hf]. split; [|by apply map_Forall_delete].
  rewrite lookup_delete. by case_decide.
Qed.

Lemma table_wf_fail sel mark sl :
  (forall s, coroutine_bound (mark s) = coroutine_bound s /\
             coroutine_handle (mark s) = coroutine_handle s) ->
  table_wf sl -> table_wf (fail_table sel mark sl).
Proof.
  intros Hm [He Hf]. unfold fail_table. split; [by rewrite lookup_fmap, He|].
  intros id s. rewrite lookup_fmap. intros (s0 & E & ->)%fmap_Some_1.
  apply Hf in E as [Hh Hp Hc]. destruct (sel s0); [|by split].
  apply slot_wf_collect. destruct (Hm s0) as [-> ->]. done.
Qed.

#[export] Hint Resolve slot_wf_default slot_wf_finish slot_wf_unbind
  table_wf_empty table_wf_insert table_wf_delete : rpc.

Lemma step_wf sl op : table_wf sl -> table_wf (fst (step sl op)).
Proof.
  intros Hwf.
  destruct op as [id|id p dl|id h dl|id r|id|id t|id|id|r|now r]; simpl;
    unfold Add, BindAsync, BindCoroutine, Complete, WaitAndPop_enter, WaitAndPop_wake,
      TryPop, Remove, FailAll, FailTimedOut.
  9: { apply table_wf_fail; [|done]. intros s. unfold fail_all_mark. by destruct (done s). }
  9: { by apply table_wf_fail. }
  all: destruct (sl !! id) as [s|] eqn:E;
    try (pose proof (table_wf_lookup _ _ _ Hwf E) as [Hs Hid];
         pose proof Hs as [Hh Hp Hc]).
  - by destruct (str_empty id).
  - destruct id; simpl; auto with rpc.
  - destruct (async_bound s) eqn:Ea, (coroutine_bound s) eqn:Eb, (done s) eqn:Ed;
      simpl; auto with rpc.
    apply table_wf_insert; [done..|]. by split.
  - done.
  - destruct (coroutine_bound s) eqn:Eb, (async_bound s) eqn:Ea, (done s) eqn:Ed;
      simpl; auto with rpc.
    apply table_wf_insert; [done..|]. split; simpl; [by split; eauto| |done].
    intros [? ?]%Hp. congruence.
  - done.
  - destruct (done s); [done|]. simpl. destruct (async_promise s) eqn:Ep; simpl;
      [auto with rpc|].
    destruct (bound_handle (finish s r)) eqn:Eh; simpl; auto with rpc.
  - done.
  - destruct (done s); simpl; auto with rpc.
  - done.
  - destruct (done s), t; simpl; auto with rpc.
  - done.
  - destruct (done s); simpl; auto with rpc.
  - done.
  - auto with rpc.
  - done.
Qed.

Lemma run_wf sl ops : table_wf sl -> table_wf (fst (run sl ops)).
Proof.
  revert sl. induction ops as [|op ops IH]; intros sl Hwf; [done|]. simpl.
  pose proof (step_wf sl op Hwf) as H1. destruct (step sl op) as [sl1 e1]. cbn [fst snd] in H1.
  pose proof (IH sl1 H1). by destruct (run sl1 ops).
Qed.

(** ** Lemmas: conservation of waiters *)

(** The waiters of one kind stored in a table, as a multiset. *)
Section waiters.
Context (w : Slot -> option nat).

Definition waiters (sl : table) : list nat := omap (fun kv => w (snd kv)) (map_to_list sl).

Lemma waiters_insert_None sl id s :
  sl !! id = None -> waiters (<[id:=s]> sl) ≡ₚ option_list (w s) ++ waiters sl.
Proof.
  intros E. unfold waiters. rewrite map_to_list_insert by done. simpl.
  by destruct (w s).
Qed.

Lemma waiters_lookup sl id s :
  sl !! id = Some s -> waiters sl ≡ₚ option_list (w s) ++ waiters (delete id sl).
Proof.
  intros E. rewrite <- (insert_id sl id s) at 1 by done. rewrite <- insert_delete_eq.
  apply waiters_insert_None, lookup_delete_eq.
Qed.

Lemma waiters_insert sl id s :
  waiters (<[id:=s]> sl) ≡ₚ option_list (w s) ++ waiters (delete id sl).
Proof. rewrite <- insert_delete_eq. apply waiters_insert_None, lookup_delete_eq. Qed.

Lemma waiters_delete sl id : waiters (delete id sl) ⊆+ waiters sl.
Proof.
  destruct (sl !! id) as [s|] eqn:E.
  - rewrite (waiters_lookup sl id s E). by apply submseteq_inserts_l.
  - by rewrite delete_id.
Qed.

(** Failing slots moves their waiters from the table to the effects. *)
Lemma waiters_fail sel mark sl :
  (forall s, w (collect_waiter (mark s)) = None) -> (forall s, w (mark s) = w s) ->
  omap (fun kv => w (mark (snd kv)))
    (filter (fun kv : string * Slot => sel (snd kv) = true) (map_to_list sl)) ++
  waiters (fail_table sel mark sl) ≡ₚ waiters sl.
Proof.
  intros Hcol Hmark. unfold waiters, fail_table. rewrite map_to_list_fmap.
  induction (map_to_list sl) as [|[id s] l IH]; [done|].
  rewrite filter_cons. case_decide as Es; simpl in Es |- *.
  - rewrite Es, Hcol, Hmark. destruct (w s); simpl; by rewrite IH.
  - apply not_true_is_false in Es. rewrite Es. destruct (w s); simpl; [|done].
    by rewrite <- Permutation_middle, IH.
Qed.

End waiters.

Lemma fulfilled_app e1 e2 : fulfilled (e1 ++ e2) = fulfilled e1 ++ fulfilled e2.
Proof. apply omap_app. Qed.

Lemma resumed_app e1 e2 : resumed (e1 ++ e2) = resumed e1 ++ resumed e2.
Proof. apply omap_app. Qed.

Lemma fulfilled_fail sel mark sl :
  fulfilled (fail_effects sel mark sl) =
  omap (fun kv => async_promise (mark (snd kv)))
    (filter (fun kv : string * Slot => sel (snd kv) = true) (map_to_list sl)).
Proof.
  unfold fail_effects. rewrite !fulfilled_app. unfold fulfilled.
  rewrite omap_of_map, !omap_omap, omap_None by done.
  rewrite (omap_None (fun kv => (Resume <$> _) ≫= _))
    by (intros kv; by destruct (bound_handle _)).
  rewrite app_nil_r. apply omap_ext. intros kv. unfold slot_promise.
  by destruct (async_promise _).
Qed.

Lemma resumed_fail sel mark sl :
  resumed (fail_effects sel mark sl) =
  omap (fun kv => bound_handle (mark (snd kv)))
    (filter (fun kv : string * Slot => sel (snd kv) = true) (map_to_list sl)).
Proof.
  unfold fail_effects. rewrite !resumed_app. unfold resumed, slot_promise.
  rewrite omap_of_map, !omap_omap, omap_None by done.
  rewrite (omap_None (fun kv => (_ <$> (_ <$> _)) ≫= _))
    by (intros kv; by destruct (async_promise _)).
  apply omap_ext. intros kv. by destruct (bound_handle _).
Qed.

(** One operation: the promises stored afterwards and those it fulfils were
    stored before or are the one it binds. *)
Lemma step_promises sl op :
  fulfilled (snd (step sl op)) ++ waiters async_promise (fst (step sl op)) ⊆+
  promises_of [op] ++ waiters async_promise sl.
Proof.
  destruct op as [id|id p dl|id h dl|id r|id|id t|id|id|r|now r]; simpl;
    unfold Add, BindAsync, BindCoroutine, Complete, WaitAndPop_enter, WaitAndPop_wake,
      TryPop, Remove, FailAll, FailTimedOut.
  9: { cbn [fst snd]. rewrite fulfilled_fail.
       rewrite (waiters_fail async_promise (fun _ => true) (fail_all_mark r)); [done|..].
       - intros s. unfold collect_waiter. by destruct (bound_handle _).
       - intros s. unfold fail_all_mark. by destruct (done s). }
  9: { cbn [fst snd]. rewrite fulfilled_fail.
       rewrite (waiters_fail async_promise (times_out now) (fun s => finish s r)); [done|..].
       - intros s. unfold collect_waiter. by destruct (bound_handle _).
       - done. }
  all: destruct (sl !! id) as [s|] eqn:E;
    try (pose proof (waiters_lookup async_promise sl id s E) as Hl);
    pose proof (waiters_delete async_promise sl id) as Hd.
  - by destruct (str_empty id).
  - destruct (str_empty id); simpl; [done|]. by rewrite waiters_insert_None.
  - destruct (async_bound s), (coroutine_bound s), (done s); simpl;
      try (by apply submseteq_cons); try (by apply submseteq_skip).
    rewrite waiters_insert. simpl. by apply submseteq_skip.
  - by apply submseteq_cons.
  - destruct (coroutine_bound s), (async_bound s), (done s); simpl; try done.
    rewrite waiters_insert, Hl. done.
  - done.
  - destruct (done s); simpl; [done|]. destruct (async_promise s) as [p|] eqn:Ep; simpl.
    + by rewrite Hl.
    + destruct (bound_handle _); simpl; rewrite waiters_insert, Hl; simpl; by rewrite Ep.
  - done.
  - by destruct (done s).
  - done.
  - by destruct (done s), t.
  - done.
  - by destruct (done s).
  - done.
  - done.
  - done.
Qed.

(** The same for coroutine handles. *)
Lemma step_handles sl op :
  table_wf sl ->
  resumed (snd (step sl op)) ++ waiters bound_handle (fst (step sl op)) ⊆+
  handles_of [op] ++ waiters bound_handle sl.
Proof.
  intros Hwf.
  destruct op as [id|id p dl|id h dl|id r|id|id t|id|id|r|now r]; simpl;
    unfold Add, BindAsync, BindCoroutine, Complete, WaitAndPop_enter, WaitAndPop_wake,
      TryPop, Remove, FailAll, FailTimedOut.
  9: { cbn [fst snd]. rewrite resumed_fail.
       rewrite (waiters_fail bound_handle (fun _ => true) (fail_all_mark r)); [done|..]; intros s.
       - unfold collect_waiter. destruct (bound_handle (reset_promise _)) eqn:Eb; [done|].
         by rewrite Eb.
       - unfold fail_all_mark. by destruct (done s). }
  9: { cbn [fst snd]. rewrite resumed_fail.
       rewrite (waiters_fail bound_handle (times_out now) (fun s => finish s r)); [done|..]; intros s.
       - unfold collect_waiter. destruct (bound_handle (reset_promise _)) eqn:Eb; [done|].
         by rewrite Eb.
       - done. }
  all: destruct (sl !! id) as [s|] eqn:E;
    try (pose proof (waiters_lookup bound_handle sl id s E) as Hl);
    pose proof (waiters_delete bound_handle sl id) as Hd.
  - by destruct (str_empty id).
  - destruct (str_empty id); simpl; [done|]. by rewrite waiters_insert_None.
  - destruct (async_bound s), (coroutine_bound s) eqn:Eb, (done s); simpl; try done.
    rewrite waiters_insert, Hl. unfold bound_handle. simpl. by rewrite Eb.
  - done.
  - destruct (coroutine_bound s), (async_bound s), (done s); simpl;
      try (by apply submseteq_cons).
    rewrite waiters_insert. simpl. by apply submseteq_skip.
  - by apply submseteq_cons.
  - destruct (done s); simpl; [done|]. destruct (async_promise s) as [p|] eqn:Ep; simpl.
    + done.
    + destruct (bound_handle (finish s r)) eqn:Eb; simpl; rewrite waiters_insert, Hl.
      * change (bound_handle (finish s r)) with (bound_handle s) in Eb. by rewrite Eb.
      * change (bound_handle (finish s r)) with (bound_handle s). done.
  - done.
  - by destruct (done s).
  - done.
  - by destruct (done s), t.
  - done.
  - by destruct (done s).
  - done.
  - done.
  - done.
Qed.

Lemma run_promises sl ops :
  fulfilled (snd (run sl ops)) ++ waiters async_promise (fst (run sl ops)) ⊆+
  promises_of ops ++ waiters async_promise sl.
Proof.
  revert sl. induction ops as [|op ops IH]; intros sl; [done|].
  pose proof (step_promises sl op) as H1. simpl run.
  destruct (step sl op) as [sl1 e1]. cbn [fst snd] in H1.
  pose proof (IH sl1) as H2. destruct (run sl1 ops) as [sl2 e2]. cbn [fst snd] in *.
  rewrite fulfilled_app.
  replace (promises_of (op :: ops)) with (promises_of [op] ++ promises_of ops)
    by (symmetry; apply (omap_app _ [op] ops)).
  by eapply conserve_trans.
Qed.

Lemma run_handles sl ops :
  table_wf sl ->
  resumed (snd (run sl ops)) ++ waiters bound_handle (fst (run sl ops)) ⊆+
  handles_of ops ++ waiters bound_handle sl.
Proof.
  revert sl. induction ops as [|op ops IH]; intros sl Hwf; [done|].
  pose proof (step_handles sl op Hwf) as H1. pose proof (step_wf sl op Hwf) as Hwf1.
  simpl run. destruct (step sl op) as [sl1 e1]. cbn [fst snd] in H1, Hwf1.
  pose proof (IH sl1 Hwf1) as H2. destruct (run sl1 ops) as [sl2 e2]. cbn [fst snd] in *.
  rewrite resumed_app.
  replace (handles_of (op :: ops)) with (handles_of [op] ++ handles_of ops)
    by (symmetry; apply (omap_app _ [op] ops)).
  by eapply conserve_trans.
Qed.

Lemma run_app sl ops1 ops2 :
  run sl (ops1 ++ ops2) =
  (fst (run (fst (run sl ops1)) ops2),
   snd (run sl ops1) ++ snd (run (fst (run sl ops1)) ops2)).
Proof.
  revert sl. induction ops1 as [|op ops1 IH]; intros sl; simpl.
  - by destruct (run sl ops2).
  - destruct (step sl op) as [sl1 e1]. rewrite IH.
    destruct (run sl1 ops1) as [sl2 e2]. simpl. by rewrite app_assoc.
Qed.

(** ** Lemmas: where a result comes from *)

(** [r] was given for [id]: by its own response or by a failure that sweeps
    the table. *)
Definition given (ops : list Op) (id : string) (r : RpcCallResult) : Prop :=
  OpComplete id r ∈ ops \/ OpFailAll r ∈ ops \/ exists now, OpFailTimedOut now r ∈ ops.

Definition provenance (ops : list Op) (sl : table) : Prop :=
  forall id s, sl !! id = Some s ->
    (done s = true -> given ops id (result s)) /\
    (forall p, async_promise s = Some p -> exists dl, OpBindAsync id p dl ∈ ops).

Definition effects_ok (ops : list Op) (es : list effect) : Prop :=
  forall p r, SetValue p r ∈ es ->
    exists id dl, OpBindAsync id p dl ∈ ops /\ given ops id r.

Lemma given_mono ops op id r : given ops id r -> given (ops ++ [op]) id r.
Proof. unfold given. setoid_rewrite elem_of_app. intros [|[|[now ?]]]; eauto. Qed.

Lemma provenance_mono ops op sl : provenance ops sl -> provenance (ops ++ [op]) sl.
Proof.
  intros Hp id s E. destruct (Hp id s E) as [H1 H2].
  split; [eauto using given_mono|]. setoid_rewrite elem_of_app.
  intros p [dl ?]%H2. eauto.
Qed.

Lemma provenance_insert ops sl id s :
  provenance ops sl -> (done s = true -> given ops id (result s)) ->
  (forall p, async_promise s = Some p -> exists dl, OpBindAsync id p dl ∈ ops) ->
  provenance ops (<[id:=s]> sl).
Proof. intros Hp H1 H2 id' s' [[<- <-]|[_ E]]%lookup_insert_Some; eauto. Qed.

Lemma provenance_delete ops sl id : provenance ops sl -> provenance ops (delete id sl).
Proof. intros Hp id' s' [_ E]%lookup_delete_Some. eauto. Qed.

#[export] Hint Resolve given_mono provenance_mono provenance_insert provenance_delete : rpc.

Lemma elem_of_SetValue_fail sel mark sl p r :
  SetValue p r ∈ fail_effects sel mark sl <->
  exists id s, sl !! id = Some s /\ sel s = true /\
    async_promise (mark s) = Some p /\ result (mark s) = r.
Proof.
  unfold fail_effects. rewrite !elem_of_app, !list_elem_of_omap, list_elem_of_fmap.
  split.
  - intros [([id s] & Hk & _)|[([id s] & Hin & Hv)|([id s] & _ & Hv)]]; [done| |].
    + apply list_elem_of_filter in Hin as [Hs Hin%elem_of_map_to_list].
      unfold slot_promise in Hv. simpl in *. exists id, s.
      destruct (async_promise (mark s)) eqn:E; simpl in Hv; naive_solver.
    + simpl in Hv. by destruct (bound_handle _).
  - intros (id & s & E & Hs & Hp & Hr). right. left. exists (id, s).
    rewrite list_elem_of_filter, elem_of_map_to_list. split; [done|].
    unfold slot_promise. simpl. rewrite Hp. simpl. congruence.
Qed.

Lemma elem_of_Resume_fail sel mark sl h :
  Resume h ∈ fail_effects sel mark sl <->
  exists id s, sl !! id = Some s /\ sel s = true /\ bound_handle (mark s) = Some h.
Proof.
  unfold fail_effects. rewrite !elem_of_app, !list_elem_of_omap, list_elem_of_fmap.
  split.
  - intros [([id s] & Hk & _)|[([id s] & _ & Hv)|([id s] & Hin & Hv)]]; [done| |].
    + unfold slot_promise in Hv. simpl in Hv. by destruct (async_promise _).
    + apply list_elem_of_filter in Hin as [Hs Hin%elem_of_map_to_list]. simpl in *.
      exists id, s. destruct (bound_handle _); naive_solver.
  - intros (id & s & E & Hs & Hh). right. right. exists (id, s).
    rewrite list_elem_of_filter, elem_of_map_to_list. simpl. by rewrite Hh.
Qed.

Lemma fail_table_lookup sel mark sl id :
  fail_table sel mark sl !! id =
  (fun s => if sel s then collect_waiter (mark s) else s) <$> sl !! id.
Proof. apply lookup_fmap. Qed.

Lemma collect_waiter_fields s :
  done (collect_waiter s) = done s /\ result (collect_waiter s) = result s /\
  async_promise (collect_waiter s) = None /\ bound_handle (collect_waiter s) = None /\
  async_bound (collect_waiter s) = async_bound s.
Proof.
  unfold collect_waiter. destruct (bound_handle (reset_promise s)) eqn:E; [done|].
  by split_and!.
Qed.

Lemma provenance_fail sel mark sl ops r :
  (forall s, done (mark s) = true /\ async_promise (mark s) = async_promise s) ->
  (forall s, result (mark s) = r \/ (done s = true /\ result (mark s) = result s)) ->
  (forall id, given ops id r) -> provenance ops sl ->
  provenance ops (fail_table sel mark sl) /\ effects_ok ops (fail_effects sel mark sl).
Proof.
  intros Hd Hr Hg Hp. split.
  - intros id s. rewrite fail_table_lookup. intros (s0 & E & ->)%fmap_Some_1.
    destruct (Hp _ _ E) as [H1 H2]. destruct (sel s0); [|done].
    destruct (collect_waiter_fields (mark s0)) as (-> & -> & -> & _).
    split; [|done]. intros _. destruct (Hr s0) as [->|[? ->]]; auto.
  - intros p r' (id & s & E & _ & Ep & <-)%elem_of_SetValue_fail.
    destruct (Hp _ _ E) as [H1 H2]. rewrite (proj2 (Hd s)) in Ep.
    destruct (H2 _ Ep) as [dl Hb]. exists id, dl. split; [done|].
    destruct (Hr s) as [->|[? ->]]; auto.
Qed.

Lemma effects_nil ops : effects_ok ops [].
Proof. intros p r H. by apply not_elem_of_nil in H. Qed.

Lemma effects_set ops id p dl r :
  OpBindAsync id p dl ∈ ops -> given ops id r -> effects_ok ops [SetValue p r].
Proof. intros Hb Hg p' r' [= -> ->]%list_elem_of_singleton. eauto. Qed.

Lemma effects_other ops e :
  (forall p r, e <> SetValue p r) -> effects_ok ops [e].
Proof. intros He p r <-%list_elem_of_singleton. by destruct (He p r). Qed.

#[export] Hint Resolve effects_nil effects_set effects_other : rpc.

Lemma elem_of_snoc_last (ops : list Op) op : op ∈ ops ++ [op].
Proof. apply elem_of_app. right. by apply list_elem_of_singleton. Qed.

#[export] Hint Resolve elem_of_snoc_last : rpc.

Lemma step_provenance ops sl op :
  provenance ops sl ->
  provenance (ops ++ [op]) (fst (step sl op)) /\
  effects_ok (ops ++ [op]) (snd (step sl op)).
Proof.
  intros Hp0. pose proof (provenance_mono ops op sl Hp0) as Hp.
  destruct op as [id|id p dl|id h dl|id r|id|id t|id|id|r|now r]; simpl;
    unfold Add, BindAsync, BindCoroutine, Complete, WaitAndPop_enter, WaitAndPop_wake,
      TryPop, Remove, FailAll, FailTimedOut.
  9: { apply (provenance_fail _ _ _ _ r); [| |unfold given; auto with rpc|done].
       - intros s. unfold fail_all_mark. destruct (done s) eqn:E; by simpl.
       - intros s. unfold fail_all_mark. destruct (done s) eqn:E; simpl; auto. }
  9: { apply (provenance_fail _ _ _ _ r); [by split|by left| |done].
       intros id. right. right. eauto with rpc. }
  all: destruct (sl !! id) as [s|] eqn:E;
    try (destruct (Hp id s E) as [Hd Ha]).
  - destruct (str_empty id); auto with rpc.
  - destruct (str_empty id); simpl; auto with rpc. split; auto with rpc.
    apply provenance_insert; [done..|]. by intros ? ?.
  - destruct (async_bound s), (coroutine_bound s), (done s) eqn:Ed; simpl; split; eauto with rpc.
    apply provenance_insert; [done|simpl; auto|]. simpl. intros p' [= ->]. eauto with rpc.
  - auto with rpc.
  - destruct (coroutine_bound s), (async_bound s), (done s) eqn:Ed; simpl; split; auto with rpc.
  - auto with rpc.
  - assert (given (ops ++ [OpComplete id r]) id r) as Hg by (left; auto with rpc).
    destruct (done s); simpl; [auto with rpc|].
    destruct (async_promise s) as [p|] eqn:Ep; simpl.
    + destruct (Ha p eq_refl) as [dl Hb]. split; eauto with rpc.
    + destruct (bound_handle _); simpl; (split; [|auto with rpc]);
        apply provenance_insert; simpl; auto; congruence.
  - auto with rpc.
  - destruct (done s); simpl; auto with rpc.
  - auto with rpc.
  - destruct (done s), t; simpl; auto with rpc.
  - auto with rpc.
  - destruct (done s); simpl; auto with rpc.
  - auto with rpc.
  - auto with rpc.
  - auto with rpc.
Qed.

Lemma run_provenance ops :
  provenance ops (fst (run ∅ ops)) /\ effects_ok ops (snd (run ∅ ops)).
Proof.
  induction ops as [|op ops [IH1 IH2]] using rev_ind.
  - split; [|apply effects_nil]. intros id s E. simpl in E. by rewrite lookup_empty in E.
  - rewrite run_app. cbn [fst snd run].
    destruct (step_provenance _ _ op IH1) as [H1 H2].
    destruct (step (fst (run ∅ ops)) op) as [sl2 e2]. cbn [fst snd] in *.
    split; [done|]. rewrite app_nil_r. intros p r [Hin|Hin]%elem_of_app; [|eauto].
    destruct (IH2 _ _ Hin) as (id & dl & Hb & Hg). exists id, dl.
    split; [|eauto with rpc]. apply elem_of_app. auto.
Qed.

(** ** Properties *)

(** In every interleaving of calls, from the empty table: no slot ever has
    two kinds of waiters, a finished call has none, and the empty request id is
    never used. *)
Theorem pending_table_invariant ops : table_wf (fst (run ∅ ops)).
Proof. apply run_wf, table_wf_empty. Qed.

(** C11: however the calls of the threads interleave, no promise is fulfilled
    twice and no coroutine is resumed twice (the double resume the unbinding
    before the resume is there to prevent), and nothing is fulfilled or
    resumed that was not bound. *)
Theorem waiters_at_most_once ops :
  NoDup (promises_of ops) -> NoDup (handles_of ops) ->
  let es := snd (run ∅ ops) in
  NoDup (fulfilled es) /\ NoDup (resumed es) /\
  fulfilled es ⊆ promises_of ops /\ resumed es ⊆ handles_of ops.
Proof.
  intros H1 H2 es.
  pose proof (run_promises ∅ ops) as Hp.
  pose proof (run_handles ∅ ops table_wf_empty) as Hh.
  change (waiters async_promise ∅) with (@nil nat) in Hp.
  change (waiters bound_handle ∅) with (@nil nat) in Hh.
  rewrite app_nil_r in Hp, Hh.
  assert (fulfilled es ⊆+ promises_of ops) as Hp' by (etrans; [by apply submseteq_inserts_r|done]).
  assert (resumed es ⊆+ handles_of ops) as Hh' by (etrans; [by apply submseteq_inserts_r|done]).
  split_and!.
  - by eapply submseteq_NoDup.
  - by eapply submseteq_NoDup.
  - intros x Hx. by eapply elem_of_submseteq.
  - intros x Hx. by eapply elem_of_submseteq.
Qed.

(** Responses are matched by request id whatever the order they arrive in:
    a value a promise receives was given for the request id the promise was
    bound to, by its own [Complete] or by a failure of the whole table; and so
    was a result that [TryPop] hands to a coroutine. *)
Theorem results_match_request_id ops :
  (forall p r, SetValue p r ∈ snd (run ∅ ops) ->
     exists id dl, OpBindAsync id p dl ∈ ops /\ given ops id r) /\
  (forall id r sl', TryPop (fst (run ∅ ops)) id = (Some r, sl') -> given ops id r).
Proof.
  destruct (run_provenance ops) as [Hp He]. split; [exact He|].
  intros id r sl'. unfold TryPop. destruct (fst (run ∅ ops) !! id) as [s|] eqn:E; [|done].
  destruct (done s) eqn:Ed; simpl; [|done]. intros [= <- _]. by apply (Hp id s E).
Qed.

(** When the connection goes away ([FailAll]) no waiter is left behind:
    every promise gets the failure, every bound coroutine is resumed, every
    slot is done and unbound; a result that had already arrived is kept. *)
Theorem fail_all_reaches_every_waiter sl r :
  table_wf sl ->
  let '(sl', es) := FailAll sl r in
  (forall id s p, sl !! id = Some s -> async_promise s = Some p -> SetValue p r ∈ es) /\
  (forall id s h, sl !! id = Some s -> bound_handle s = Some h -> Resume h ∈ es) /\
  (forall id s, sl !! id = Some s -> exists s', sl' !! id = Some s' /\
     done s' = true /\ async_promise s' = None /\ bound_handle s' = None /\
     result s' = if done s then result s else r) /\
  (forall id, sl !! id = None -> sl' !! id = None).
Proof.
  intros Hwf. unfold FailAll. split_and!.
  - intros id s p E Ep. apply elem_of_SetValue_fail. exists id, s.
    destruct (table_wf_lookup _ _ _ Hwf E) as [[_ Hp _] _].
    destruct Hp as [_ Hd]; [by rewrite Ep|].
    unfold fail_all_mark. by rewrite Hd.
  - intros id s h E Eh. apply elem_of_Resume_fail. exists id, s.
    unfold fail_all_mark. by destruct (done s).
  - intros id s E. rewrite fail_table_lookup, E. simpl. eexists. split; [done|].
    destruct (collect_waiter_fields (fail_all_mark r s)) as (-> & -> & -> & -> & _).
    unfold fail_all_mark. by destruct (done s) eqn:Ed.
  - intros id E. by rewrite fail_table_lookup, E.
Qed.

(** A timeout sweep ([FailTimedOut]) fails exactly the waiting calls whose
    deadline has passed: the promises fulfilled and the coroutines resumed are
    those of the slots with a waiter and [deadline <= now], and every other
    slot is untouched. *)
Theorem fail_timed_out_exact sl now r :
  table_wf sl ->
  let '(sl', es) := FailTimedOut sl now r in
  (forall p v, SetValue p v ∈ es <->
     v = r /\ exists id s, sl !! id = Some s /\ async_promise s = Some p /\
                          (deadline s <= now)%Z) /\
  (forall h, Resume h ∈ es <->
     exists id s, sl !! id = Some s /\ bound_handle s = Some h /\
                  (deadline s <= now)%Z) /\
  (forall id s, sl !! id = Some s -> times_out now s = false -> sl' !! id = Some s).
Proof.
  intros Hwf. unfold FailTimedOut. split_and!.
  - intros p v. rewrite elem_of_SetValue_fail. split.
    + intros (id & s & E & Ht & Ep & <-). split; [done|]. exists id, s.
      unfold times_out in Ht. breflect. split_and!; [done|done|lia].
    + intros (-> & id & s & E & Ep & Hdl). exists id, s. split_and!; try done.
      destruct (table_wf_lookup _ _ _ Hwf E) as [[_ Hp _] _].
      destruct Hp as [Hb Hd]; [by rewrite Ep|]. unfold times_out.
      rewrite Hb, Hd. destruct (Z.ltb_spec now (deadline s)); [lia|done].
  - intros h. rewrite elem_of_Resume_fail. split.
    + intros (id & s & E & Ht & Eh). exists id, s. unfold times_out in Ht. breflect.
      split_and!; [done|done|lia].
    + intros (id & s & E & Eh & Hdl). exists id, s. split_and!; try done.
      destruct (table_wf_lookup _ _ _ Hwf E) as [[_ _ Hc] _].
      unfold bound_handle in Eh. destruct (coroutine_bound s) eqn:Eb; [|done].
      destruct Hc as [Ha Hd]; [done|]. unfold times_out. rewrite Ha, Hd, Eb.
      destruct (Z.ltb_spec now (deadline s)); [lia|done].
  - intros id s E Ht. rewrite fail_table_lookup, E. simpl. by rewrite Ht.
Qed.

(** The race between the response and the binding of the waiter is benign:
    whichever comes first, the promise gets the response and the slot is gone;
    and a coroutine that finds the call already done pops the same result as
    one that was suspended and resumed, leaving the same table. *)
Theorem bind_complete_race sl id s r p h dl :
  sl !! id = Some s -> done s = false -> async_bound s = false ->
  coroutine_bound s = false -> async_promise s = None ->
  (let '(sl1, e1) := run sl [OpComplete id r; OpBindAsync id p dl] in
   let '(sl2, e2) := run sl [OpBindAsync id p dl; OpComplete id r] in
   sl1 = delete id sl /\ sl2 = sl1 /\
   fulfilled e1 = [p] /\ e2 = [SetValue p r] /\ SetValue p r ∈ e1) /\
  (let '(b1, sl1, e1) := Complete sl id r in
   let '(st1, sl1') := BindCoroutine sl1 id h dl in
   let '(st2, sl2) := BindCoroutine sl id h dl in
   let '(b2, sl2', e2) := Complete sl2 id r in
   st1 = kAlreadyDone /\ st2 = kBound /\ e2 = [Resume h] /\
   TryPop sl1' id = (Some r, delete id sl) /\ TryPop sl2' id = (Some r, delete id sl)).
Proof.
  intros E Ed Ea Ec Ep. split.
  - cbn [run step]. unfold Complete, BindAsync, bound_handle, finish.
    repeat first [progress cbn | rewrite E | rewrite Ed | rewrite Ea | rewrite Ec
                 | rewrite Ep | rewrite lookup_insert_eq].
    rewrite !delete_insert_eq. split_and!; try done. right. left.
  - unfold Complete, BindCoroutine, TryPop, bound_handle.
    repeat first [progress cbn | rewrite E | rewrite Ed | rewrite Ea | rewrite Ec
                 | rewrite Ep | rewrite lookup_insert_eq].
    by rewrite !insert_insert_eq, !delete_insert_eq.
Qed.

(** ** Slots of asynchronous calls that failed *)

(** A slot whose promise was taken by [FailAll] or [FailTimedOut]. *)
Definition parked (s : Slot) : Prop :=
  async_bound s = true /\ done s = true /\ async_promise s = None.

(** The operations that erase a slot whatever its waiter: the blocking and the
    coroutine paths use them, the asynchronous path does not. *)
Definition pops (id : string) (op : Op) : bool :=
  match op with
  | OpWaitEnter i | OpWaitWake i _ | OpTryPop i | OpRemove i => bool_decide (i = id)
  | _ => false
  end.

Lemma parked_collect s : parked s -> parked (collect_waiter s).
Proof.
  intros (Ha & Hd & Hp). destruct (collect_waiter_fields s) as (H1 & _ & H3 & _ & H5).
  unfold parked. split_and!; congruence.
Qed.

Lemma parked_step sl op id s :
  sl !! id = Some s -> parked s -> pops id op = false ->
  exists s', fst (step sl op) !! id = Some s' /\ parked s'.
Proof.
  intros E Hs Hop. pose proof Hs as (Ha & Hd & Hp).
  destruct op as [i|i p dl|i h dl|i r|i|i t|i|i|r|now r]; simpl in *;
    try (apply bool_decide_eq_false in Hop).
  - unfold Add. repeat split_match; simpl; eauto.
    destruct (decide (i = id)) as [->|]; [congruence|]. rewrite lookup_insert_ne; eauto.
  - unfold BindAsync. destruct (decide (i = id)) as [->|Hi]; [rewrite E, Ha; eauto|].
    repeat split_match; simpl; rewrite ?lookup_insert_ne, ?lookup_delete_ne; eauto.
  - unfold BindCoroutine. destruct (decide (i = id)) as [->|Hi].
    + rewrite E, Ha. destruct (coroutine_bound s); eauto.
    + repeat split_match; simpl; rewrite ?lookup_insert_ne; eauto.
  - unfold Complete. destruct (decide (i = id)) as [->|Hi]; [rewrite E, Hd; eauto|].
    repeat split_match; simpl; rewrite ?lookup_insert_ne, ?lookup_delete_ne; eauto.
  - unfold WaitAndPop_enter. repeat split_match; simpl; rewrite ?lookup_delete_ne; eauto.
  - unfold WaitAndPop_wake. repeat split_match; simpl; rewrite ?lookup_delete_ne; eauto.
  - unfold TryPop. repeat split_match; simpl; rewrite ?lookup_delete_ne; eauto.
  - unfold Remove. repeat split_match; simpl; rewrite ?lookup_delete_ne; eauto.
  - rewrite fail_table_lookup, E. simpl. eexists. split; [done|].
    apply parked_collect. unfold fail_all_mark. by rewrite Hd.
  - rewrite fail_table_lookup, E. simpl. unfold times_out. rewrite Hd. simpl. eauto.
Qed.

Lemma parked_run ops : forall sl id s,
  sl !! id = Some s -> parked s -> forallb (fun op => negb (pops id op)) ops = true ->
  exists s', fst (run sl ops) !! id = Some s' /\ parked s'.
Proof.
  induction ops as [|op ops IH]; intros sl id s E Hs Hops; [eauto|].
  simpl in Hops. apply andb_true_iff in Hops as [Hop Hops]. apply negb_true_iff in Hop.
  destruct (parked_step _ _ _ _ E Hs Hop) as (s' & E' & Hs'). simpl.
  destruct (step sl op) as [sl1 e1]. simpl in E'.
  destruct (IH sl1 id s' E' Hs' Hops) as (s2 & E2 & Hs2).
  destruct (run sl1 ops) as [sl2 e2]. eauto.
Qed.

(** An asynchronous call that timed out is never removed from the table:
    its promise gets the timeout, but whatever the other threads do next
    (more calls, its own late response, further sweeps, the failure of the
    connection) the slot stays, and [Size] keeps counting it. *)
Theorem timed_out_async_slot_stays sl id s p now r ops :
  table_wf sl -> sl !! id = Some s -> async_promise s = Some p -> (deadline s <= now)%Z ->
  forallb (fun op => negb (pops id op)) ops = true ->
  SetValue p r ∈ snd (FailTimedOut sl now r) /\
  1 <= Size (fst (run (fst (FailTimedOut sl now r)) ops)).
Proof.
  intros Hwf E Ep Hdl Hops.
  destruct (table_wf_lookup _ _ _ Hwf E) as [[_ Hp _] _].
  destruct Hp as [Hb Hd]; [by rewrite Ep|].
  assert (times_out now s = true) as Ht.
  { unfold times_out. rewrite Hb, Hd. destruct (Z.ltb_spec now (deadline s)); [lia|done]. }
  split.
  - apply elem_of_SetValue_fail. by exists id, s.
  - assert (fst (FailTimedOut sl now r) !! id = Some (collect_waiter (finish s r))) as E1.
    { simpl. by rewrite fail_table_lookup, E; simpl; rewrite Ht. }
    destruct (collect_waiter_fields (finish s r)) as (H1 & _ & H3 & _ & H5).
    destruct (parked_run ops _ _ _ E1) as (s' & E2 & _); [split; [|split]; simpl in *; congruence|done|].
    unfold Size. destruct (size (fst (run _ ops))) eqn:Esz; [|lia].
    apply map_size_empty_inv in Esz. by rewrite Esz, lookup_empty in E2.
Qed.

(** ** Witnesses *)

Definition w_ops : list Op :=
  [OpAdd "1"; OpAdd "2"; OpBindAsync "1" 7 100; OpBindCoroutine "2" 9 50].

Definition w_reply : RpcCallResult := {| status := Status_Ok; response_payload := "pong" |}.

Definition w_timeout : RpcCallResult := failure kInternalError "call timeout".

(** Two calls in flight, one with a promise, one with a coroutine. *)
Definition w_table : table := fst (run ∅ w_ops).

Lemma w_table_wf : table_wf w_table.
Proof. apply run_wf, table_wf_empty. Qed.

Lemma waiters_at_most_once_witness :
  let es := snd (run ∅ (w_ops ++ [OpComplete "2" w_reply; OpComplete "1" w_reply])) in
  NoDup (fulfilled es) /\ fulfilled es = [7] /\ resumed es = [9].
Proof.
  split; [|split; vm_compute; reflexivity].
  apply (waiters_at_most_once (w_ops ++ [OpComplete "2" w_reply; OpComplete "1" w_reply]));
    apply (bool_decide_unpack _); vm_compute; exact I.
Defined.

Lemma fail_all_reaches_every_waiter_witness :
  let r := failure kInternalError "closed" in
  SetValue 7 r ∈ snd (FailAll w_table r) /\ Resume 9 ∈ snd (FailAll w_table r).
Proof.
  destruct (fail_all_reaches_every_waiter w_table (failure kInternalError "closed") w_table_wf)
    as (H1 & H2 & _).
  split; [eapply (H1 "1")|eapply (H2 "2")]; vm_compute; reflexivity.
Defined.

Lemma fail_timed_out_exact_witness :
  Resume 9 ∈ snd (FailTimedOut w_table 60 w_timeout) /\
  ~ SetValue 7 w_timeout ∈ snd (FailTimedOut w_table 60 w_timeout).
Proof.
  destruct (fail_timed_out_exact w_table 60 w_timeout w_table_wf) as (H1 & H2 & _).
  split.
  - apply H2. eexists "2", _. split_and!; [vm_compute; reflexivity..|]. vm_compute. discriminate.
  - apply (bool_decide_unpack (~ _)). vm_compute. exact I.
Defined.

Lemma bind_complete_race_witness :
  fst (run (fst (run ∅ [OpAdd "1"])) [OpComplete "1" w_reply; OpBindAsync "1" 7 100]) = ∅.
Proof.
  destruct (bind_complete_race (fst (run ∅ [OpAdd "1"])) "1" Slot_default w_reply 7 9 100)
    as [H _]; try (vm_compute; reflexivity).
Defined.

Lemma timed_out_async_slot_stays_witness :
  1 <= Size (fst (run (fst (FailTimedOut w_table 100 w_timeout))
                    [OpTryPop "2"; OpComplete "1" w_reply; OpFailAll w_timeout])).
Proof.
  eapply (timed_out_async_slot_stays w_table "1" _ 7 100 w_timeout); [apply w_table_wf|..];
    vm_compute; try reflexivity; discriminate.
Defined.
