(* ===== verification/MpscRingQueue.v ===== *)
(** * The bounded multi-producer single-consumer queue (common/mpsc_ring_queue.h)

    The lock-free code is modelled at the granularity of its atomic accesses:
    each producer is a small state machine whose steps are the loads, the
    compare-exchange (which may fail spuriously, as [compare_exchange_weak]
    may), the construction of the element and the publishing store of
    [TryPush]; the consumer likewise for [TryPopOne] and [Empty].  Memory is
    sequentially consistent.  The element of a slot is [None] when no object
    lives in its storage: constructing over a live object or moving from a dead
    one is a fault.  [dequeue_pos_] is private to the consumer, so its increment
    is one step with the store before it.

    [Spec] is the abstract queue the code implements: a claim appends an entry
    that is not published yet, and the consumer sees an entry only once it and
    all the entries before it are published. *)

From Stdlib Require Import ZArith Lia.
From S2P Require Import Prelude.

Local Open Scope list_scope.
Local Open Scope Z_scope.

(** What a step of the queue does, seen from outside; [t] is the producer. *)
Inductive label (T : Type) :=
  | LTau
  | LClaim (t : nat) (v : T)
  | LPublish (t : nat)
  | LFull (t : nat)
  | LPop (v : T)
  | LNotReady
  | LReady.
Arguments LTau {T}.
Arguments LClaim {T} t v.
Arguments LPublish {T} t.
Arguments LFull {T} t.
Arguments LPop {T} v.
Arguments LNotReady {T}.
Arguments LReady {T}.

(** ** The abstract queue *)

Module Spec.

Section spec.
Context {T : Type} (cap : Z).

(** An entry: the producer that claimed it, its value, and whether it is
    published. *)
Abbreviation entry := (nat * T * bool)%type.

Definition published (e : entry) : bool := snd e.

(** The consumer can take the first entry. *)
Definition ready (q : list entry) : bool :=
  match q with
  | e :: _ => published e
  | [] => false
  end.

Inductive step : list entry -> label T -> list entry -> Prop :=
  | step_tau q : step q LTau q
  | step_claim q t v :
      Z.of_nat (length q) < cap -> step q (LClaim t v) (q ++ [(t, v, false)])
  | step_publish q1 q2 t v :
      step (q1 ++ (t, v, false) :: q2) (LPublish t) (q1 ++ (t, v, true) :: q2)
  | step_full q t : Z.of_nat (length q) = cap -> step q (LFull t) q
  | step_pop q t v : step ((t, v, true) :: q) (LPop v) q
  | step_not_ready q : ready q = false -> step q LNotReady q
  | step_ready q : ready q = true -> step q LReady q.

End spec.

End Spec.

(** ** The code *)

Section code.
Context {T : Type} (Capacity : Z).

Definition kMask : Z := Capacity - 1.

Record Slot := { sequence : Z; storage : option T }.

Record MpscRingQueue := {
  enqueue_pos_ : Z;
  dequeue_pos_ : Z;
  slots_ : list Slot;
}.

(** The constructor. *)
Definition make : MpscRingQueue :=
  {| enqueue_pos_ := 0; dequeue_pos_ := 0;
     slots_ := map (fun i => {| sequence := Z.of_nat i; storage := None |})
                   (seq 0 (Z.to_nat Capacity)) |}.

Definition slot_index (pos : Z) : nat := Z.to_nat (Z.land pos kMask).

(** [slots_[pos & kMask]]. *)
Definition get_slot (q : MpscRingQueue) (pos : Z) : Slot :=
  default {| sequence := 0; storage := None |} (slots_ q !! slot_index pos).

Definition set_slot (q : MpscRingQueue) (pos : Z) (sl : Slot) : MpscRingQueue :=
  {| enqueue_pos_ := enqueue_pos_ q; dequeue_pos_ := dequeue_pos_ q;
     slots_ := <[slot_index pos := sl]> (slots_ q) |}.

(** [static_cast<std::intptr_t>(seq) - static_cast<std::intptr_t>(pos)]. *)
Definition seq_diff (seq pos : Z) : Z := to_signed64 seq - to_signed64 pos.

(** *** Producers *)

(** Where a producer is in [TryPush]. *)
Inductive pstate :=
  | PIdle (returned : bool)
  | PLoad (value : T)
  | PCheck (value : T) (pos : Z)
  | PCas (value : T) (pos : Z)
  | PConstruct (value : T) (pos : Z)
  | PStore (pos : Z)
  | PFault.

(** One step of [TryPush] of producer [t]; [spurious] makes the weak
    compare-exchange fail although the value is the expected one. *)
Definition TryPush_step (t : nat) (spurious : bool) (q : MpscRingQueue) (p : pstate)
    : MpscRingQueue * pstate * label T :=
  match p with
  | PIdle b => (q, PIdle b, LTau)
  | PLoad v => (q, PCheck v (enqueue_pos_ q), LTau)
  | PCheck v pos =>
      let diff := seq_diff (sequence (get_slot q pos)) pos in
      if diff =? 0 then (q, PCas v pos, LTau)
      else if diff <? 0 then (q, PIdle false, LFull t)
      else (q, PLoad v, LTau)
  | PCas v pos =>
      if (enqueue_pos_ q =? pos) && negb spurious then
        ({| enqueue_pos_ := wrap64 (pos + 1); dequeue_pos_ := dequeue_pos_ q;
            slots_ := slots_ q |}, PConstruct v pos, LClaim t v)
      else (q, PCheck v (enqueue_pos_ q), LTau)
  | PConstruct v pos =>
      let sl := get_slot q pos in
      match storage sl with
      | Some _ => (q, PFault, LTau)
      | None =>
          (set_slot q pos {| sequence := sequence sl; storage := Some v |}, PStore pos, LTau)
      end
  | PStore pos =>
      (set_slot q pos {| sequence := wrap64 (pos + 1);
                         storage := storage (get_slot q pos) |},
       PIdle true, LPublish t)
  | PFault => (q, PFault, LTau)
  end.

(** *** The consumer *)

Inductive cstate :=
  | CIdle (returned : option T)
  | CLoad
  | CTake
  | CRelease (out : T)
  | CEmpty
  | CEmptyDone (returned : bool)
  | CFault.

(** One step of [TryPopOne] (from [CLoad]) or of [Empty] (from [CEmpty]). *)
Definition consumer_step (q : MpscRingQueue) (c : cstate)
    : MpscRingQueue * cstate * label T :=
  let pos := dequeue_pos_ q in
  let sl := get_slot q pos in
  match c with
  | CIdle r => (q, CIdle r, LTau)
  | CLoad =>
      if seq_diff (sequence sl) (wrap64 (pos + 1)) <? 0 then (q, CIdle None, LNotReady)
      else (q, CTake, LTau)
  | CTake =>
      match storage sl with
      | None => (q, CFault, LTau)
      | Some v =>
          (set_slot q pos {| sequence := sequence sl; storage := None |}, CRelease v, LTau)
      end
  | CRelease v =>
      let q1 := set_slot q pos {| sequence := wrap64 (pos + Capacity);
                                  storage := storage sl |} in
      ({| enqueue_pos_ := enqueue_pos_ q1; dequeue_pos_ := wrap64 (pos + 1);
          slots_ := slots_ q1 |}, CIdle (Some v), LPop v)
  | CEmpty =>
      if seq_diff (sequence sl) (wrap64 (pos + 1)) <? 0
      then (q, CEmptyDone true, LNotReady)
      else (q, CEmptyDone false, LReady)
  | CEmptyDone b => (q, CEmptyDone b, LTau)
  | CFault => (q, CFault, LTau)
  end.

(** *** The calls without interference *)

(** [TryPush] run alone: [None] is a fault (or a call that has not finished
    within the four steps it takes). *)
Definition TryPush (q : MpscRingQueue) (v : T) : option (bool * MpscRingQueue) :=
  let fix go n q p :=
    match n with
    | O => None
    | S n => match p with
             | PIdle b => Some (b, q)
             | PFault => None
             | _ => let '(q1, p1, _) := TryPush_step 0 false q p in go n q1 p1
             end
    end in
  go 6%nat q (PLoad v).

Definition TryPopOne (q : MpscRingQueue) : option (option T * MpscRingQueue) :=
  let fix go n q c :=
    match n with
    | O => None
    | S n => match c with
             | CIdle r => Some (r, q)
             | CFault => None
             | _ => let '(q1, c1, _) := consumer_step q c in go n q1 c1
             end
    end in
  go 5%nat q CLoad.

(** [PopBatch] on a span of [n] elements: what was written to it, in order. *)
Fixpoint PopBatch (n : nat) (q : MpscRingQueue) : option (list T * MpscRingQueue) :=
  match n with
  | O => Some ([], q)
  | S n =>
      match TryPopOne q with
      | None => None
      | Some (None, q1) => Some ([], q1)
      | Some (Some v, q1) =>
          match PopBatch n q1 with
          | None => None
          | Some (vs, q2) => Some (v :: vs, q2)
          end
      end
  end.

Definition Empty (q : MpscRingQueue) : bool :=
  seq_diff (sequence (get_slot q (dequeue_pos_ q))) (wrap64 (dequeue_pos_ q + 1)) <? 0.

(** [DrainAll]: the elements destroyed; [None] when it destroys an object that
    is not there, or does not stop within [fuel] rounds. *)
Fixpoint DrainAll (fuel : nat) (q : MpscRingQueue) : option (list T * MpscRingQueue) :=
  match fuel with
  | O => None
  | S fuel =>
      let pos := dequeue_pos_ q in
      let sl := get_slot q pos in
      if seq_diff (sequence sl) (wrap64 (pos + 1)) <? 0 then Some ([], q)
      else
        match storage sl with
        | None => None
        | Some v =>
            let q1 := set_slot q pos {| sequence := wrap64 (pos + Capacity);
                                        storage := None |} in
            let q2 := {| enqueue_pos_ := enqueue_pos_ q1;
                         dequeue_pos_ := wrap64 (pos + 1); slots_ := slots_ q1 |} in
            match DrainAll fuel q2 with
            | None => None
            | Some (vs, q3) => Some (v :: vs, q3)
            end
        end
  end.

(** ** The system: producers, the consumer, and the history *)

(** [claimed] and [popped] are history: the claims in the order of their
    compare-exchange, and the values the consumer has released. *)
Record system := {
  queue : MpscRingQueue;
  producers : gmap nat pstate;
  consumer : cstate;
  claimed : list (nat * T);
  popped : list T;
}.

Definition init : system :=
  {| queue := make; producers := ∅; consumer := CIdle None; claimed := []; popped := [] |}.

Definition busy (p : option pstate) : bool :=
  match p with
  | None | Some (PIdle _) => false
  | Some _ => true
  end.

Definition cbusy (c : cstate) : bool :=
  match c with
  | CIdle _ | CEmptyDone _ => false
  | _ => true
  end.

(** What the history records of a step. *)
Definition record (l : label T) (c : list (nat * T)) (p : list T)
    : list (nat * T) * list T :=
  match l with
  | LClaim t v => (c ++ [(t, v)], p)
  | LPop v => (c, p ++ [v])
  | _ => (c, p)
  end.

Definition producer_moves (s : system) (t : nat) (spurious : bool) (p : pstate)
    : system * label T :=
  let '(q, p1, l) := TryPush_step t spurious (queue s) p in
  let '(cl, po) := record l (claimed s) (popped s) in
  ({| queue := q; producers := <[t := p1]> (producers s); consumer := consumer s;
      claimed := cl; popped := po |}, l).

Definition consumer_moves (s : system) : system * label T :=
  let '(q, c1, l) := consumer_step (queue s) (consumer s) in
  let '(cl, po) := record l (claimed s) (popped s) in
  ({| queue := q; producers := producers s; consumer := c1;
      claimed := cl; popped := po |}, l).

Definition begin_push (s : system) (t : nat) (v : T) : system :=
  {| queue := queue s; producers := <[t := PLoad v]> (producers s);
     consumer := consumer s; claimed := claimed s; popped := popped s |}.

Definition begin_consumer (s : system) (c : cstate) : system :=
  {| queue := queue s; producers := producers s; consumer := c;
     claimed := claimed s; popped := popped s |}.

Inductive sys_step : system -> label T -> system -> Prop :=
  | sys_begin_push s t v :
      busy (producers s !! t) = false -> sys_step s LTau (begin_push s t v)
  | sys_producer s t spurious p :
      producers s !! t = Some p ->
      sys_step s (snd (producer_moves s t spurious p)) (fst (producer_moves s t spurious p))
  | sys_begin_pop s :
      cbusy (consumer s) = false -> sys_step s LTau (begin_consumer s CLoad)
  | sys_begin_empty s :
      cbusy (consumer s) = false -> sys_step s LTau (begin_consumer s CEmpty)
  | sys_consumer s :
      sys_step s (snd (consumer_moves s)) (fst (consumer_moves s)).

Inductive reachable : system -> Prop :=
  | reach_init : reachable init
  | reach_step s l s' : reachable s -> sys_step s l s' -> reachable s'.

Definition claims (s : system) : Z := Z.of_nat (length (claimed s)).

Definition pops (s : system) : Z := Z.of_nat (length (popped s)).

(** The positions have not reached the sign bit of [std::intptr_t]. *)
Definition no_wrap (s : system) : Prop := claims s + Capacity < 2 ^ 63.

End code.
Arguments make T Capacity : clear implicits.
Arguments init T Capacity : clear implicits.

(** ** The invariant *)

Section invariant.
Context {T : Type} (k : Z) (Hk : 1 <= k).

(** [static_assert]: a power of two, at least 2. *)
Local Abbreviation Capacity := (2 ^ k).

Implicit Types (s : @system T) (q : @MpscRingQueue T) (p : Z) (t : nat) (v : T)
  (ps : @pstate T).

Definition claim_at s p : option (nat * T) := claimed s !! Z.to_nat p.

(** A position of the window [[pops, pops + Capacity)] owns its slot: free;
    claimed and being written by its producer; or published. *)
Definition slot_ok s p : Prop :=
  let sl := get_slot Capacity (queue s) p in
  if p <? claims s then
    exists t v, claim_at s p = Some (t, v) /\
      ((sequence sl = p /\
        ((storage sl = None /\ producers s !! t = Some (PConstruct v p)) \/
         (storage sl = Some v /\ producers s !! t = Some (PStore p)))) \/
       (sequence sl = p + 1 /\
        ((storage sl = Some v /\ (p = pops s -> consumer s <> CRelease v)) \/
         (storage sl = None /\ p = pops s /\ consumer s = CRelease v))))
  else sequence sl = p /\ storage sl = None.

Definition producer_ok s t (ps : pstate) : Prop :=
  match ps with
  | PIdle _ | PLoad _ => True
  | PCheck _ p => 0 <= p <= claims s
  | PCas _ p => 0 <= p <= claims s /\ (p = claims s -> p < pops s + Capacity)
  | PConstruct v p =>
      pops s <= p < claims s /\ claim_at s p = Some (t, v) /\
      sequence (get_slot Capacity (queue s) p) = p
  | PStore p =>
      pops s <= p < claims s /\ (exists v, claim_at s p = Some (t, v)) /\
      sequence (get_slot Capacity (queue s) p) = p
  | PFault => False
  end.

Definition consumer_ok s : Prop :=
  match consumer s with
  | CIdle _ | CLoad | CEmpty | CEmptyDone _ => True
  | CTake => sequence (get_slot Capacity (queue s) (pops s)) = pops s + 1
  | CRelease v =>
      pops s < claims s /\ sequence (get_slot Capacity (queue s) (pops s)) = pops s + 1 /\
      exists t, claim_at s (pops s) = Some (t, v)
  | CFault => False
  end.

Record inv s : Prop := {
  inv_length : length (slots_ (queue s)) = Z.to_nat Capacity;
  inv_enqueue : enqueue_pos_ (queue s) = claims s;
  inv_dequeue : dequeue_pos_ (queue s) = pops s;
  inv_window : pops s <= claims s <= pops s + Capacity;
  inv_popped : popped s = take (length (popped s)) (map snd (claimed s));
  inv_slots : forall p, pops s <= p < pops s + Capacity -> slot_ok s p;
  inv_producers : forall t ps, producers s !! t = Some ps -> producer_ok s t ps;
  inv_consumer : consumer_ok s;
}.

(** *** Positions and slots *)

Lemma Capacity_pos : 2 <= Capacity.
Proof. change 2 with (2 ^ 1) at 1. apply Z.pow_le_mono_r; lia. Qed.

Lemma slot_index_mod p : slot_index Capacity p = Z.to_nat (p mod Capacity).
Proof.
  unfold slot_index, kMask. replace (2 ^ k - 1) with (Z.ones k).
  - rewrite Z.land_ones by lia. done.
  - rewrite Z.ones_equiv. lia.
Qed.

Lemma slot_index_lt p : (slot_index Capacity p < Z.to_nat Capacity)%nat.
Proof.
  rewrite slot_index_mod. pose proof Capacity_pos.
  pose proof (Z.mod_pos_bound p Capacity). lia.
Qed.

(** Two positions of a window have different slots. *)
Lemma slot_index_inj p1 p2 :
  slot_index Capacity p1 = slot_index Capacity p2 -> Z.abs (p1 - p2) < Capacity -> p1 = p2.
Proof.
  rewrite !slot_index_mod. pose proof Capacity_pos. intros E Hd.
  pose proof (Z.mod_pos_bound p1 Capacity). pose proof (Z.mod_pos_bound p2 Capacity).
  assert (p1 mod Capacity = p2 mod Capacity) as E' by lia.
  pose proof (Z.div_mod p1 Capacity). pose proof (Z.div_mod p2 Capacity).
  assert (p1 / Capacity = p2 / Capacity) by nia. nia.
Qed.

Lemma slot_index_wrap p : slot_index Capacity (p + Capacity) = slot_index Capacity p.
Proof.
  rewrite !slot_index_mod. pose proof Capacity_pos. f_equal.
  rewrite <- (Z.mul_1_l Capacity) at 1. apply Z.mod_add. lia.
Qed.

Lemma get_slot_set_eq q p p' sl :
  length (slots_ q) = Z.to_nat Capacity -> slot_index Capacity p = slot_index Capacity p' ->
  get_slot Capacity (set_slot Capacity q p sl) p' = sl.
Proof.
  intros Hl E. unfold get_slot, set_slot. simpl. rewrite <- E.
  rewrite list_lookup_insert_eq; [done|]. rewrite Hl. apply slot_index_lt.
Qed.

Lemma get_slot_set_ne q p p' sl :
  slot_index Capacity p <> slot_index Capacity p' ->
  get_slot Capacity (set_slot Capacity q p sl) p' = get_slot Capacity q p'.
Proof. intros E. unfold get_slot, set_slot. simpl. by rewrite list_lookup_insert_ne. Qed.

Lemma get_slot_window q p p' sl :
  length (slots_ q) = Z.to_nat Capacity -> Z.abs (p - p') < Capacity ->
  get_slot Capacity (set_slot Capacity q p sl) p' =
  if p =? p' then sl else get_slot Capacity q p'.
Proof.
  intros Hl Hd. destruct (Z.eqb_spec p p') as [->|Hne]; [by apply get_slot_set_eq|].
  apply get_slot_set_ne. intros E. by apply Hne, slot_index_inj.
Qed.

Lemma get_slot_wrap q p : get_slot Capacity q (p + Capacity) = get_slot Capacity q p.
Proof. unfold get_slot. by rewrite slot_index_wrap. Qed.

Lemma seq_diff_small a b :
  0 <= a < 2 ^ 63 -> 0 <= b < 2 ^ 63 -> seq_diff a b = a - b.
Proof. intros Ha Hb. unfold seq_diff. by rewrite !to_signed64_small. Qed.

(** *** What the sequence of a slot says *)

Lemma slot_sequence s p :
  slot_ok s p ->
  let sq := sequence (get_slot Capacity (queue s) p) in
  sq = p \/ (sq = p + 1 /\ p < claims s).
Proof.
  unfold slot_ok. destruct (Z.ltb_spec p (claims s)); [|intros [-> _]; lia].
  intros (t & v & _ & [[-> _]|[-> _]]); lia.
Qed.

(** The slot of any position that was ever used holds the sequence of the
    window position that shares it. *)
Lemma slot_of_old s p :
  inv s -> 0 <= p <= claims s ->
  exists p', pops s <= p' < pops s + Capacity /\
    get_slot Capacity (queue s) p' = get_slot Capacity (queue s) p /\
    (p' = p \/ (p' = pops s /\ p = pops s + Capacity /\ claims s = p) \/ p < p').
Proof.
  intros Hi Hp. pose proof Capacity_pos as Hc. pose proof (inv_window _ Hi) as Hw.
  exists (pops s + (p - pops s) mod Capacity).
  pose proof (Z.mod_pos_bound (p - pops s) Capacity).
  split; [lia|]. split.
  - unfold get_slot. rewrite !slot_index_mod, Zplus_mod_idemp_r.
    by replace (pops s + (p - pops s)) with p by lia.
  - destruct (decide (p < pops s)); [lia|].
    destruct (decide (p = pops s + Capacity)) as [->|].
    + right. left. replace (pops s + Capacity - pops s) with Capacity by lia.
      rewrite Z.mod_same by lia. lia.
    + left. rewrite Z.mod_small; lia.
Qed.

(** *** Preservation *)

(** The producer is between its claim and its publishing store. *)
Definition owner (ps : @pstate T) : bool :=
  match ps with
  | PConstruct _ _ | PStore _ => true
  | _ => false
  end.

Definition with_producer s t (ps : pstate) : system :=
  {| queue := queue s; producers := <[t := ps]> (producers s); consumer := consumer s;
     claimed := claimed s; popped := popped s |}.

Lemma claim_at_range s p tv : claim_at s p = Some tv -> 0 <= p -> p < claims s.
Proof. intros H%lookup_lt_Some Hp. unfold claims. lia. Qed.

Lemma slot_ok_frame s s' p :
  claims s' = claims s -> pops s' = pops s -> claim_at s' p = claim_at s p ->
  get_slot Capacity (queue s') p = get_slot Capacity (queue s) p ->
  (forall t ps, producers s !! t = Some ps -> owner ps = true ->
     producers s' !! t = Some ps) ->
  (forall v, consumer s' = CRelease v <-> consumer s = CRelease v) ->
  slot_ok s p -> slot_ok s' p.
Proof.
  intros Hc Hp Ha Hg Hpr Hco. unfold slot_ok. rewrite Hc, Hp, Ha, Hg.
  destruct (p <? claims s); [|done].
  intros (t & v & Hcl & Hcase). exists t, v. split; [done|].
  destruct Hcase as [[Hs [[? E]|[? E]]]|[Hs [[? Hn]|(? & ? & ?)]]].
  - left. split; [done|]. left. split; [done|]. by apply Hpr.
  - left. split; [done|]. right. split; [done|]. by apply Hpr.
  - right. split; [done|]. left. split; [done|]. intros Hpp Hr. by apply Hn, Hco.
  - right. split; [done|]. right. split_and!; try done. by apply Hco.
Qed.

(** A step of a producer that does not own a slot and writes nothing. *)
Lemma inv_producer_local s t ps :
  inv s -> (forall ps0, producers s !! t = Some ps0 -> owner ps0 = false) ->
  producer_ok s t ps -> inv (with_producer s t ps).
Proof.
  intros [] Ho Hok. split; try done.
  - intros p Hp. eapply slot_ok_frame; [..|by apply inv_slots0]; try done.
    intros t' ps0 E Hown. simpl. rewrite lookup_insert_ne; [done|].
    intros <-. apply Ho in E. congruence.
  - intros t' ps0. simpl. destruct (decide (t = t')) as [<-|Hne].
    + rewrite lookup_insert_eq. intros [= <-]. done.
    + rewrite lookup_insert_ne by done. intros E. by apply inv_producers0.
Qed.

(** A step of the consumer that writes nothing. *)
Lemma inv_consumer_local s c :
  inv s -> (forall v, consumer s <> CRelease v) -> (forall v, c <> CRelease v) ->
  consumer_ok (begin_consumer s c) -> inv (begin_consumer s c).
Proof.
  intros [] H1 H2 Hok. split; try done.
  intros p Hp. eapply slot_ok_frame; [..|by apply inv_slots0]; try done.
  intros v. simpl. split; intros E; [by apply H2 in E|by apply H1 in E].
Qed.

(** Writing the slot of a position [p] of the window that producer [t] owns,
    while that producer moves on to the state [ps]. *)
Definition with_slot s p sl t (ps : pstate) : system :=
  {| queue := set_slot Capacity (queue s) p sl; producers := <[t := ps]> (producers s);
     consumer := consumer s; claimed := claimed s; popped := popped s |}.

Lemma get_slot_with s p sl t ps p' :
  inv s -> Z.abs (p - p') < Capacity ->
  get_slot Capacity (queue (with_slot s p sl t ps)) p' =
  if p =? p' then sl else get_slot Capacity (queue s) p'.
Proof. intros Hi Hd. apply get_slot_window; [apply (inv_length _ Hi)|done]. Qed.

Definition position (ps : @pstate T) : option Z :=
  match ps with
  | PConstruct _ p | PStore p => Some p
  | _ => None
  end.

Lemma owner_claim s t ps p :
  inv s -> producers s !! t = Some ps -> position ps = Some p ->
  pops s <= p < claims s /\ (exists v, claim_at s p = Some (t, v)) /\
  sequence (get_slot Capacity (queue s) p) = p.
Proof.
  intros Hi E Hp. pose proof (inv_producers _ Hi _ _ E) as Hok.
  destruct ps; simplify_eq/=; naive_solver.
Qed.

Lemma inv_owner_write s t ps0 p sl ps :
  inv s -> producers s !! t = Some ps0 -> position ps0 = Some p ->
  slot_ok (with_slot s p sl t ps) p -> producer_ok (with_slot s p sl t ps) t ps ->
  inv (with_slot s p sl t ps).
Proof.
  intros Hi E Hp Hslot Hok.
  destruct (owner_claim _ _ _ _ Hi E Hp) as (Hr & (v & Hcl) & Hseq).
  pose proof (inv_window _ Hi) as Hw.
  assert (forall p', pops s <= p' < pops s + Capacity -> p' <> p ->
    get_slot Capacity (queue (with_slot s p sl t ps)) p' = get_slot Capacity (queue s) p') as Hg.
  { intros p' Hp' Hne. rewrite get_slot_with by (done || lia).
    destruct (Z.eqb_spec p p'); [congruence|done]. }
  split; try apply Hi.
  - simpl. rewrite length_insert. apply Hi.
  - intros p' Hp'. destruct (decide (p' = p)) as [->|Hne]; [done|].
    change (pops s <= p' < pops s + Capacity) in Hp'.
    pose proof (inv_slots _ Hi p' Hp') as Hs. revert Hs. unfold slot_ok. rewrite Hg by done.
    change (claims (with_slot s p sl t ps)) with (claims s).
    destruct (Z.ltb_spec p' (claims s)); [|done].
    intros (t' & v' & Hcl' & Hcase). exists t', v'. split; [done|].
    destruct Hcase as [[Hs Hcase]|Hcase]; [|by right]. left. split; [done|]. simpl.
    destruct (decide (t = t')) as [<-|]; [|by rewrite lookup_insert_ne].
    exfalso. destruct Hcase as [[_ E']|[_ E']]; rewrite E in E'; simplify_eq/=.
  - intros t' ps'. simpl. destruct (decide (t = t')) as [<-|Hne].
    + rewrite lookup_insert_eq. by intros [= <-].
    + rewrite lookup_insert_ne by done. intros E'.
      pose proof (inv_producers _ Hi _ _ E') as H'.
      destruct ps'; try done; simpl in H' |- *;
        destruct H' as (Hr' & Hcl' & Hs'); (split; [done|]; split; [done|]);
        rewrite Hg; try done; try (change (pops (with_slot s p sl t ps)) with (pops s) in *; lia);
        intros ->; rewrite Hcl in Hcl'; naive_solver.
  - pose proof (inv_consumer _ Hi) as Hc. unfold consumer_ok in *. simpl.
    change (pops (with_slot s p sl t ps)) with (pops s).
    destruct (consumer s); try done.
    + rewrite Hg; [done|lia|]. intros <-. lia.
    + destruct Hc as (H1 & H2 & H3). split_and!; try done.
      rewrite Hg; [done|lia|]. intros <-. lia.
Qed.

Lemma inv_construct s t v p :
  inv s -> producers s !! t = Some (PConstruct v p) ->
  storage (get_slot Capacity (queue s) p) = None /\
  inv (with_slot s p {| sequence := sequence (get_slot Capacity (queue s) p);
                        storage := Some v |} t (PStore p)).
Proof.
  intros Hi E. destruct (inv_producers _ Hi _ _ E) as (Hr & Hcl & Hseq).
  pose proof (inv_window _ Hi) as Hw.
  assert (slot_ok s p) as Hs by (apply (inv_slots _ Hi); lia).
  split.
  - unfold slot_ok in Hs. destruct (Z.ltb_spec p (claims s)); [|lia].
    destruct Hs as (t' & v' & Hcl' & [[_ [[? _]|[_ E']]]|[? _]]); [done| |lia].
    rewrite Hcl in Hcl'. simplify_eq.
  - pose proof Capacity_pos. eapply inv_owner_write; [done..| |].
    + unfold slot_ok. rewrite get_slot_with, Z.eqb_refl by (done || lia).
      change (claims (with_slot s p _ t _)) with (claims s).
      destruct (Z.ltb_spec p (claims s)); [|lia]. exists t, v. split; [done|].
      left. split; [done|]. right. split; [done|]. apply lookup_insert_eq.
    + simpl. split; [done|]. split; [by eauto|].
      rewrite get_slot_window, Z.eqb_refl by (apply Hi || lia). done.
Qed.

Lemma inv_publish s t p :
  inv s -> producers s !! t = Some (PStore p) ->
  inv (with_slot s p {| sequence := p + 1;
                        storage := storage (get_slot Capacity (queue s) p) |} t (PIdle true)).
Proof.
  intros Hi E. destruct (inv_producers _ Hi _ _ E) as (Hr & (v & Hcl) & Hseq).
  pose proof (inv_window _ Hi) as Hw. pose proof Capacity_pos.
  assert (slot_ok s p) as Hs by (apply (inv_slots _ Hi); lia).
  eapply inv_owner_write; [done..| |done].
  unfold slot_ok in *. rewrite get_slot_with, Z.eqb_refl by (done || lia).
  change (claims (with_slot s p _ t _)) with (claims s).
  destruct (Z.ltb_spec p (claims s)); [|lia].
  destruct Hs as (t' & v' & Hcl' & [[_ [[_ E']|[Hst _]]]|[? _]]); [|exists t', v'|lia].
  - rewrite Hcl in Hcl'. simplify_eq.
  - split; [done|]. right. split; [done|]. left. split; [done|].
    intros Hpp Hc. change (p = pops s) in Hpp. change (consumer s = CRelease v') in Hc.
    pose proof (inv_consumer _ Hi) as Hco. unfold consumer_ok in Hco. rewrite Hc, <- Hpp in Hco.
    lia.
Qed.

Definition after_claim s t v p : system :=
  {| queue := {| enqueue_pos_ := p + 1; dequeue_pos_ := dequeue_pos_ (queue s);
                 slots_ := slots_ (queue s) |};
     producers := <[t := PConstruct v p]> (producers s); consumer := consumer s;
     claimed := claimed s ++ [(t, v)]; popped := popped s |}.

Lemma claims_after_claim s t v p : claims (after_claim s t v p) = claims s + 1.
Proof. unfold claims. simpl. rewrite length_app. simpl. lia. Qed.

Lemma claim_at_after_claim s t v p p' :
  0 <= p' -> claim_at (after_claim s t v p) p' =
  if p' <? claims s then claim_at s p' else if p' =? claims s then Some (t, v) else None.
Proof.
  intros Hp. unfold claim_at, claims. simpl.
  destruct (Z.ltb_spec p' (Z.of_nat (length (claimed s)))).
  - apply lookup_app_l. lia.
  - destruct (Z.eqb_spec p' (Z.of_nat (length (claimed s)))) as [->|].
    + rewrite Nat2Z.id. apply list_lookup_middle. done.
    + apply lookup_ge_None. rewrite length_app. simpl. lia.
Qed.

Lemma inv_claim s t v p :
  inv s -> producers s !! t = Some (PCas v p) -> p = claims s ->
  inv (after_claim s t v p).
Proof.
  intros Hi E ->. destruct (inv_producers _ Hi _ _ E) as [Hp Hlt].
  specialize (Hlt eq_refl). pose proof (inv_window _ Hi) as Hw. pose proof Capacity_pos.
  assert (0 <= pops s) by (unfold pops; lia).
  assert (slot_ok s (claims s)) as Hsl by (apply (inv_slots _ Hi); lia).
  unfold slot_ok in Hsl. rewrite Z.ltb_irrefl in Hsl. destruct Hsl as [Hsq Hst].
  set (s' := after_claim s t v (claims s)).
  assert (pops s' = pops s) as Hps by done.
  split.
  - apply (inv_length _ Hi).
  - unfold s'. by rewrite claims_after_claim.
  - apply (inv_dequeue _ Hi).
  - unfold s'. rewrite claims_after_claim. change (pops (after_claim _ _ _ _)) with (pops s). lia.
  - simpl. rewrite map_app, take_app_le; [apply (inv_popped _ Hi)|].
    rewrite length_map. unfold claims, pops in Hw. lia.
  - intros p Hp'. rewrite Hps in Hp'. unfold slot_ok. unfold s' at 1. rewrite claims_after_claim.
    change (get_slot _ (queue s') p) with (get_slot Capacity (queue s) p). rewrite Hps.
    unfold s' at 1. rewrite claim_at_after_claim by lia.
    pose proof (inv_slots _ Hi p Hp') as Hs. unfold slot_ok in Hs.
    destruct (Z.ltb_spec p (claims s)).
    + destruct (Z.ltb_spec p (claims s + 1)); [|lia].
      destruct Hs as (t' & v' & Hcl & Hcase). exists t', v'. split; [done|].
      destruct Hcase as [[Hq Hcase]|Hcase]; [|by right]. left. split; [done|].
      simpl. rewrite lookup_insert_ne; [done|]. intros <-.
      destruct Hcase as [[_ E']|[_ E']]; congruence.
    + destruct (Z.ltb_spec p (claims s + 1)); [|done].
      assert (p = claims s) as -> by lia. rewrite Z.eqb_refl. exists t, v. split; [done|].
      left. split; [done|]. left. split; [done|]. apply lookup_insert_eq.
  - intros t' ps'. simpl. destruct (decide (t = t')) as [<-|Hne].
    + rewrite lookup_insert_eq. intros [= <-]. simpl. unfold s'.
      rewrite claims_after_claim, claim_at_after_claim, Z.ltb_irrefl, Z.eqb_refl by lia.
      change (pops (after_claim s t v (claims s))) with (pops s). split_and!; [lia|lia|done|done].
    + rewrite lookup_insert_ne by done. intros E'.
      pose proof (inv_producers _ Hi _ _ E') as H'.
      destruct ps' as [| |v' p'|v' p'|v' p'|p'|]; try done; simpl in H' |- *; unfold s';
        rewrite ?claims_after_claim; change (pops (after_claim s t v (claims s))) with (pops s);
        try lia;
        destruct H' as (Hr' & Hcl' & Hs'); (split; [lia|]; split; [|done]);
        rewrite claim_at_after_claim by lia; by destruct (Z.ltb_spec p' (claims s)); [|lia].
  - pose proof (inv_consumer _ Hi) as Hc. unfold consumer_ok in *. simpl. rewrite Hps.
    destruct (consumer s); try done. destruct Hc as (H1 & H2 & H3).
    unfold s'. rewrite claims_after_claim. split_and!; [lia|done|].
    rewrite claim_at_after_claim by lia. by destruct (Z.ltb_spec (pops s) (claims s)); [|lia].
Qed.

(** The element at the head is published exactly when its sequence is one past
    its position, and then it is there and it is the claimed value. *)
Lemma head_published s :
  inv s -> (forall v, consumer s <> CRelease v) ->
  sequence (get_slot Capacity (queue s) (pops s)) = pops s + 1 ->
  pops s < claims s /\
  exists t v, claim_at s (pops s) = Some (t, v) /\
    storage (get_slot Capacity (queue s) (pops s)) = Some v.
Proof.
  intros Hi Hc Hq. pose proof Capacity_pos.
  pose proof (inv_slots _ Hi (pops s) ltac:(lia)) as Hs. unfold slot_ok in Hs.
  destruct (Z.ltb_spec (pops s) (claims s)); [|lia]. split; [done|].
  destruct Hs as (t & v & Hcl & [[? _]|[_ [[? _]|(_ & _ & Hr)]]]); [lia|by eauto|].
  by apply Hc in Hr.
Qed.

Definition after_take s v : system :=
  {| queue := set_slot Capacity (queue s) (pops s)
                {| sequence := sequence (get_slot Capacity (queue s) (pops s));
                   storage := None |};
     producers := producers s; consumer := CRelease v;
     claimed := claimed s; popped := popped s |}.

Lemma get_slot_take s v p :
  inv s -> pops s <= p < pops s + Capacity ->
  get_slot Capacity (queue (after_take s v)) p =
  if pops s =? p then {| sequence := sequence (get_slot Capacity (queue s) (pops s));
                         storage := None |}
  else get_slot Capacity (queue s) p.
Proof. intros Hi Hp. apply get_slot_window; [apply Hi|lia]. Qed.

Lemma sequence_take s v p :
  inv s -> pops s <= p < pops s + Capacity ->
  sequence (get_slot Capacity (queue (after_take s v)) p) =
  sequence (get_slot Capacity (queue s) p).
Proof. intros Hi Hp. rewrite get_slot_take by done. by destruct (Z.eqb_spec (pops s) p) as [<-|]. Qed.

Lemma inv_take s v :
  inv s -> consumer s = CTake ->
  storage (get_slot Capacity (queue s) (pops s)) = Some v -> inv (after_take s v).
Proof.
  intros Hi Hc Hst. pose proof (inv_consumer _ Hi) as Hq. unfold consumer_ok in Hq.
  rewrite Hc in Hq. pose proof (inv_window _ Hi) as Hw. pose proof Capacity_pos.
  destruct (head_published s Hi) as (Hlt & t & v' & Hcl & Hst'); [by intros; rewrite Hc|done|].
  rewrite Hst in Hst'. injection Hst' as <-.
  split; try apply Hi.
  - simpl. rewrite length_insert. apply Hi.
  - intros p Hp. change (pops (after_take s v)) with (pops s) in Hp.
    pose proof (inv_slots _ Hi p Hp) as Hs. unfold slot_ok in *. rewrite get_slot_take by done.
    change (pops (after_take s v)) with (pops s).
    change (claims (after_take s v)) with (claims s).
    destruct (Z.eqb_spec (pops s) p) as [<-|Hne].
    + destruct (Z.ltb_spec (pops s) (claims s)); [|lia]. exists t, v. split; [done|]. right.
      split; [done|]. right. by split_and!.
    + destruct (Z.ltb_spec p (claims s)); [|done].
      destruct Hs as (t' & v' & Hcl' & Hcase). exists t', v'. split; [done|].
      destruct Hcase as [Hcase|[Hsq [[Hs' _]|(_ & ? & _)]]]; [by left| |congruence].
      right. split; [done|]. left. split; [done|]. congruence.
  - intros t' ps' E. pose proof (inv_producers _ Hi _ _ E) as H'.
    destruct ps' as [| |v' p'|v' p'|v' p'|p'|]; try done; unfold producer_ok in H' |- *;
      destruct H' as (H1 & H2 & H3); (split; [done|]; split; [done|]);
      rewrite sequence_take; try done; change (pops (after_take s v)) with (pops s); lia.
  - unfold consumer_ok. cbn [consumer after_take]. split; [done|]. split; [|by eauto].
    change (pops (after_take s v)) with (pops s). rewrite sequence_take; [done|done|lia].
Qed.

Definition after_release s v : system :=
  {| queue := {| enqueue_pos_ := enqueue_pos_ (queue s); dequeue_pos_ := pops s + 1;
                 slots_ := <[slot_index Capacity (pops s) :=
                              {| sequence := pops s + Capacity;
                                 storage := storage (get_slot Capacity (queue s) (pops s)) |}]>
                             (slots_ (queue s)) |};
     producers := producers s; consumer := CIdle (Some v);
     claimed := claimed s; popped := popped s ++ [v] |}.

Lemma pops_after_release s v : pops (after_release s v) = pops s + 1.
Proof. unfold pops. simpl. rewrite length_app. simpl. lia. Qed.

Lemma get_slot_release s v p :
  inv s -> pops s < p <= pops s + Capacity ->
  get_slot Capacity (queue (after_release s v)) p =
  if p =? pops s + Capacity
  then {| sequence := p; storage := storage (get_slot Capacity (queue s) (pops s)) |}
  else get_slot Capacity (queue s) p.
Proof.
  intros Hi Hp. change (get_slot Capacity (queue (after_release s v)) p) with
    (get_slot Capacity (set_slot Capacity (queue s) (pops s)
      {| sequence := pops s + Capacity;
         storage := storage (get_slot Capacity (queue s) (pops s)) |}) p).
  destruct (Z.eqb_spec p (pops s + Capacity)) as [->|Hne].
  - apply get_slot_set_eq; [apply Hi|]. by rewrite slot_index_wrap.
  - rewrite get_slot_window; [|apply Hi|lia]. destruct (Z.eqb_spec (pops s) p); [lia|done].
Qed.

Lemma inv_release s v :
  inv s -> consumer s = CRelease v -> inv (after_release s v).
Proof.
  intros Hi Hc. pose proof (inv_consumer _ Hi) as Hq. unfold consumer_ok in Hq.
  rewrite Hc in Hq. destruct Hq as (Hlt & Hq & t & Hcl).
  pose proof (inv_window _ Hi) as Hw. pose proof Capacity_pos.
  assert (0 <= pops s) by (unfold pops; lia).
  assert (storage (get_slot Capacity (queue s) (pops s)) = None) as Hst.
  { pose proof (inv_slots _ Hi (pops s) ltac:(lia)) as Hs. unfold slot_ok in Hs.
    destruct (Z.ltb_spec (pops s) (claims s)); [|lia].
    destruct Hs as (t' & v' & Hcl' & [[? _]|[_ [[_ Hn]|(Hs & _)]]]); [lia| |done].
    rewrite Hcl in Hcl'. simplify_eq. by destruct (Hn eq_refl). }
  assert (claims (after_release s v) = claims s) as Hcs by done.
  split; rewrite ?pops_after_release, ?Hcs.
  - simpl. rewrite length_insert. apply Hi.
  - apply (inv_enqueue _ Hi).
  - done.
  - lia.
  - simpl. rewrite length_app, Nat.add_1_r. erewrite take_S_r.
    + f_equal. apply Hi.
    + rewrite list_lookup_fmap. unfold claim_at, pops in Hcl. rewrite Nat2Z.id in Hcl.
      by rewrite Hcl.
  - intros p Hp. unfold slot_ok. rewrite Hcs, get_slot_release by (done || lia).
    destruct (Z.eqb_spec p (pops s + Capacity)) as [->|Hne].
    + destruct (Z.ltb_spec (pops s + Capacity) (claims s)); [lia|done].
    + pose proof (inv_slots _ Hi p ltac:(lia)) as Hs. unfold slot_ok in Hs.
      destruct (Z.ltb_spec p (claims s)); [|done].
      destruct Hs as (t' & v' & Hcl' & Hcase). exists t', v'. split; [done|].
      destruct Hcase as [Hcase|[Hsq [[Hs' _]|(_ & ? & _)]]]; [by left| |lia].
      right. split; [done|]. left. split; [done|]. done.
  - intros t' ps' E. pose proof (inv_producers _ Hi _ _ E) as H'.
    destruct ps' as [| |v' p'|v' p'|v' p'|p'|]; try done; unfold producer_ok in H' |- *;
      rewrite ?pops_after_release, ?Hcs; try lia;
      destruct H' as (H1 & H2 & H3);
      (assert (p' <> pops s) by (intros ->; lia));
      (split; [lia|]; split; [done|]);
      rewrite get_slot_release by (done || lia); (destruct (Z.eqb_spec p' (pops s + Capacity)); [lia|done]).
  - done.
Qed.

(** *** Every step *)

(** What a producer concludes from the sequence it reads. *)
Lemma check_cases s p :
  inv s -> no_wrap Capacity s -> 0 <= p <= claims s ->
  let d := seq_diff (sequence (get_slot Capacity (queue s) p)) p in
  (d = 0 -> p = claims s -> p < pops s + Capacity) /\
  (d < 0 -> claims s = pops s + Capacity).
Proof.
  intros Hi Hn Hp. pose proof Capacity_pos as Hc. pose proof (inv_window _ Hi) as Hw.
  unfold no_wrap in Hn. assert (0 <= pops s) by (unfold pops; lia).
  destruct (slot_of_old s p Hi Hp) as (p' & Hp' & <- & Hcase). simpl.
  destruct (slot_sequence s p' (inv_slots _ Hi p' Hp')) as [E|[E ?]]; rewrite E;
    rewrite seq_diff_small by lia; split; intros; lia.
Qed.

(** The consumer finds the head not ready exactly when it is not published. *)
Lemma head_cases s :
  inv s -> no_wrap Capacity s ->
  let sq := sequence (get_slot Capacity (queue s) (dequeue_pos_ (queue s))) in
  (seq_diff sq (wrap64 (dequeue_pos_ (queue s) + 1)) <? 0) = negb (sq =? pops s + 1).
Proof.
  intros Hi Hn. pose proof Capacity_pos as Hc. pose proof (inv_window _ Hi) as Hw.
  unfold no_wrap in Hn. assert (0 <= pops s) by (unfold pops; lia).
  rewrite (inv_dequeue _ Hi). simpl. rewrite wrap64_small by (unfold two64; lia).
  destruct (slot_sequence s (pops s) (inv_slots _ Hi (pops s) ltac:(lia))) as [E|[E ?]];
    rewrite E, seq_diff_small by lia.
  - replace (pops s - (pops s + 1)) with (-1) by lia.
    destruct (Z.eqb_spec (pops s) (pops s + 1)); [lia|done].
  - by rewrite Z.sub_diag, Z.eqb_refl.
Qed.

Lemma inv_init : inv (init T Capacity).
Proof.
  pose proof Capacity_pos.
  assert (claims (init T Capacity) = 0) as Hc by done.
  assert (pops (init T Capacity) = 0) as Hp by done.
  split; rewrite ?Hc, ?Hp; try done.
  - simpl. rewrite length_map, length_seq. done.
  - lia.
  - intros p Hr. unfold slot_ok. rewrite Hc.
    destruct (Z.ltb_spec p 0); [lia|].
    unfold get_slot. rewrite slot_index_mod, Z.mod_small by lia. simpl.
    rewrite list_lookup_fmap, lookup_seq_lt by lia. simpl. split; [lia|done].
Qed.

Lemma no_wrap_mono s l s' : sys_step Capacity s l s' -> claims s <= claims s'.
Proof.
  assert (forall (lb : label T) c po, (length c <= length (fst (record lb c po)))%nat) as Hr.
  { intros [] c po; simpl; rewrite ?length_app; simpl; lia. }
  intros []; try (unfold claims; simpl; lia).
  - unfold producer_moves. destruct (TryPush_step _ _ _ _ _) as [[q1 p1] l1].
    pose proof (Hr l1 (claimed s0) (popped s0)) as H1. unfold claims.
    destruct (record l1 _ _). simpl in *. lia.
  - unfold consumer_moves. destruct (consumer_step _ _ _) as [[q1 p1] l1].
    pose proof (Hr l1 (claimed s0) (popped s0)) as H1. unfold claims.
    destruct (record l1 _ _). simpl in *. lia.
Qed.

(** *** The abstraction *)

Definition entry_of s (i : nat) (tv : nat * T) : nat * T * bool :=
  let p := pops s + Z.of_nat i in
  (fst tv, snd tv, sequence (get_slot Capacity (queue s) p) =? p + 1).

(** The claims that have not been popped, with their published flags. *)
Definition abstraction s : list (nat * T * bool) :=
  imap (entry_of s) (drop (length (popped s)) (claimed s)).

Lemma length_abstraction s : inv s -> Z.of_nat (length (abstraction s)) = claims s - pops s.
Proof.
  intros Hi. unfold abstraction. rewrite length_imap, length_drop.
  pose proof (inv_window _ Hi). unfold claims, pops in *. lia.
Qed.

Lemma abstraction_lookup s p t v :
  pops s <= p -> claim_at s p = Some (t, v) ->
  abstraction s !! Z.to_nat (p - pops s) =
  Some (t, v, sequence (get_slot Capacity (queue s) p) =? p + 1).
Proof.
  intros Hp Hcl. assert (0 <= pops s) by (unfold pops; lia).
  unfold abstraction. rewrite list_lookup_imap, lookup_drop.
  unfold claim_at in Hcl.
  replace (length (popped s) + Z.to_nat (p - pops s))%nat with (Z.to_nat p)
    by (unfold pops in *; lia).
  rewrite Hcl. simpl. unfold entry_of. simpl. by replace (pops s + Z.of_nat (Z.to_nat (p - pops s))) with p by lia.
Qed.

Lemma abstraction_frame s s' :
  claimed s' = claimed s -> popped s' = popped s ->
  (forall p, pops s <= p < claims s ->
     sequence (get_slot Capacity (queue s') p) = sequence (get_slot Capacity (queue s) p)) ->
  abstraction s' = abstraction s.
Proof.
  intros Hc Hp Hs. unfold abstraction. rewrite Hc, Hp. apply imap_ext.
  intros i tv Hi%lookup_lt_Some. unfold entry_of. unfold pops. rewrite Hp. fold (pops s).
  rewrite Hs; [done|]. rewrite length_drop in Hi. unfold pops, claims. lia.
Qed.

Lemma abstraction_head s :
  inv s -> Spec.ready (abstraction s) =
  (sequence (get_slot Capacity (queue s) (pops s)) =? pops s + 1).
Proof.
  intros Hi. pose proof Capacity_pos. pose proof (inv_window _ Hi) as Hw.
  pose proof (inv_slots _ Hi (pops s) ltac:(lia)) as Hs. unfold slot_ok in Hs.
  destruct (Z.ltb_spec (pops s) (claims s)).
  - destruct Hs as (t & v & Hcl & _).
    pose proof (abstraction_lookup s (pops s) t v ltac:(lia) Hcl) as E.
    rewrite Z.sub_diag in E. destruct (abstraction s); [done|].
    simpl in E. injection E as ->. done.
  - destruct Hs as [-> _]. pose proof (length_abstraction s Hi).
    destruct (abstraction s); simpl in *; [|lia]. symmetry. apply Z.eqb_neq. lia.
Qed.

(** *** One step: the invariant is preserved and the abstract queue follows *)

Definition sim s (l : label T) s' : Prop :=
  inv s' /\ Spec.step Capacity (abstraction s) l (abstraction s').

Lemma sim_tau s s' :
  inv s' -> claimed s' = claimed s -> popped s' = popped s ->
  (forall p, pops s <= p < claims s ->
     sequence (get_slot Capacity (queue s') p) = sequence (get_slot Capacity (queue s) p)) ->
  sim s LTau s'.
Proof.
  intros Hi Hc Hp Hs. split; [done|]. rewrite (abstraction_frame s s') by done. constructor.
Qed.

Lemma sim_claim s t v :
  inv s -> producers s !! t = Some (PCas v (claims s)) ->
  sim s (LClaim t v) (after_claim s t v (claims s)).
Proof.
  intros Hi E. pose proof (inv_window _ Hi) as Hw.
  destruct (inv_producers _ Hi _ _ E) as [_ Hlt]. specialize (Hlt eq_refl).
  split; [by apply inv_claim|].
  replace (abstraction (after_claim s t v (claims s)))
    with (abstraction s ++ [(t, v, false)]).
  { constructor. rewrite length_abstraction by done. lia. }
  unfold abstraction. cbn [claimed popped after_claim].
  rewrite drop_app_le by (unfold pops, claims in Hw; lia).
  rewrite imap_app. f_equal. simpl. f_equal. unfold entry_of. simpl. f_equal.
  change (pops (after_claim s t v (claims s))) with (pops s).
  rewrite length_drop, Nat.add_0_r.
  replace (pops s + Z.of_nat (length (claimed s) - length (popped s))) with (claims s)
    by (unfold pops, claims in *; lia).
  assert (slot_ok s (claims s)) as Hsl by (apply (inv_slots _ Hi); lia).
  unfold slot_ok in Hsl. rewrite Z.ltb_irrefl in Hsl.
  change (sequence (get_slot _ _ _)) with (sequence (get_slot Capacity (queue s) (claims s))).
  destruct Hsl as [-> _]. symmetry. apply Z.eqb_neq. lia.
Qed.

Lemma sim_publish s t p :
  inv s -> producers s !! t = Some (PStore p) ->
  sim s (LPublish t)
    (with_slot s p {| sequence := p + 1;
                      storage := storage (get_slot Capacity (queue s) p) |} t (PIdle true)).
Proof.
  intros Hi E. split; [by apply inv_publish|].
  destruct (inv_producers _ Hi _ _ E) as (Hr & (v & Hcl) & Hseq).
  pose proof (inv_window _ Hi) as Hw. pose proof Capacity_pos.
  set (s' := with_slot s p _ t _). set (i := Z.to_nat (p - pops s)).
  assert (abstraction s !! i = Some (t, v, false)) as Hl.
  { unfold i. rewrite (abstraction_lookup s p t v) by (done || lia).
    rewrite Hseq. do 2 f_equal. apply Z.eqb_neq. lia. }
  assert (abstraction s' = <[i := (t, v, true)]> (abstraction s)) as ->.
  { apply list_eq. intros j. destruct (decide (i = j)) as [<-|Hne].
    - rewrite list_lookup_insert_eq by (by eapply lookup_lt_Some).
      unfold i. change (pops s) with (pops s').
      rewrite (abstraction_lookup s' p t v) by (done || (change (pops s') with (pops s); lia)).
      unfold s'. rewrite get_slot_with, Z.eqb_refl by (done || lia). simpl. by rewrite Z.eqb_refl.
    - rewrite list_lookup_insert_ne by done. unfold abstraction. rewrite !list_lookup_imap.
      change (drop (length (popped s')) (claimed s')) with (drop (length (popped s)) (claimed s)).
      destruct (drop (length (popped s)) (claimed s) !! j) as [tv|] eqn:Ej; [|done]. simpl.
      f_equal. unfold entry_of. change (pops s') with (pops s). do 2 f_equal.
      apply lookup_lt_Some in Ej. rewrite length_drop in Ej.
      unfold s'. rewrite get_slot_with by (done || (unfold pops, claims in *; lia)).
      destruct (Z.eqb_spec p (pops s + Z.of_nat j)); [|done]. unfold i in Hne. lia. }
  rewrite insert_take_drop by (by eapply lookup_lt_Some).
  rewrite <- (take_drop_middle _ _ _ Hl) at 1. constructor.
Qed.

Lemma sim_pop s v :
  inv s -> consumer s = CRelease v -> sim s (LPop v) (after_release s v).
Proof.
  intros Hi Hc. split; [by apply inv_release|].
  pose proof (inv_consumer _ Hi) as Hq. unfold consumer_ok in Hq.
  rewrite Hc in Hq. destruct Hq as (Hlt & Hq & t & Hcl).
  pose proof (inv_window _ Hi) as Hw. pose proof Capacity_pos.
  assert (abstraction s = (t, v, true) :: abstraction (after_release s v)) as ->; [|constructor].
  unfold abstraction. cbn [claimed popped after_release]. rewrite length_app, Nat.add_1_r.
  unfold claim_at, pops in Hcl. rewrite Nat2Z.id in Hcl.
  rewrite (drop_S _ _ _ Hcl). rewrite imap_cons. f_equal.
  - unfold entry_of. rewrite Z.add_0_r, Hq. simpl. by rewrite Z.eqb_refl.
  - apply imap_ext. intros i tv Hi'%lookup_lt_Some. unfold compose, entry_of.
    rewrite pops_after_release. rewrite length_drop in Hi'.
    rewrite get_slot_release by (done || (unfold pops, claims in *; lia)).
    replace (pops s + Z.of_nat (S i)) with (pops s + 1 + Z.of_nat i) by lia.
    destruct (Z.eqb_spec (pops s + 1 + Z.of_nat i) (pops s + Capacity)); [|reflexivity].
    unfold pops, claims in *. lia.
Qed.

Lemma begin_push_sim s t v :
  inv s -> busy (producers s !! t) = false -> sim s LTau (begin_push s t v).
Proof.
  intros Hi Hb. apply sim_tau; try done.
  apply (inv_producer_local s t (PLoad v)); [done| |done].
  intros ps0 E. rewrite E in Hb. by destruct ps0.
Qed.

Lemma producer_sim s t spurious ps :
  inv s -> no_wrap Capacity (fst (producer_moves Capacity s t spurious ps)) ->
  producers s !! t = Some ps ->
  sim s (snd (producer_moves Capacity s t spurious ps))
    (fst (producer_moves Capacity s t spurious ps)).
Proof.
  intros Hi Hn E. pose proof (inv_producers _ Hi _ _ E) as Hok.
  pose proof (inv_window _ Hi) as Hw. pose proof Capacity_pos.
  assert (no_wrap Capacity s) as Hn0.
  { pose proof (no_wrap_mono _ _ _ (sys_producer Capacity s t spurious ps E)).
    unfold no_wrap in *. lia. }
  assert (0 <= claims s) by (unfold claims; lia).
  assert (forall ps1, owner ps = false -> producer_ok s t ps1 ->
    sim s LTau (with_producer s t ps1)) as Hlocal.
  { intros ps1 Ho H1. apply sim_tau; try done. apply inv_producer_local; try done.
    intros ps0 E0. congruence. }
  destruct ps as [b|v|v p|v p|v p|p|]; unfold producer_moves in *; simpl in *; try done.
  - by apply Hlocal.
  - apply Hlocal; [done|]. simpl. rewrite (inv_enqueue _ Hi). lia.
  - destruct (check_cases s p Hi Hn0 Hok) as [Hz Hf].
    destruct (Z.eqb_spec (seq_diff (sequence (get_slot Capacity (queue s) p)) p) 0).
    + apply Hlocal; simpl; auto.
    + destruct (Z.ltb_spec (seq_diff (sequence (get_slot Capacity (queue s) p)) p) 0); simpl.
      * destruct (Hlocal (PIdle false)) as [Hi' _]; [done..|]. split; [exact Hi'|].
        change (Spec.step Capacity (abstraction s) (LFull t) (abstraction s)).
        constructor. rewrite length_abstraction by done. rewrite Hf by done. lia.
      * by apply Hlocal.
  - destruct ((enqueue_pos_ (queue s) =? p) && negb spurious) eqn:Ec; simpl.
    + breflect. rewrite (inv_enqueue _ Hi) in *. subst p.
      rewrite wrap64_small by (unfold no_wrap, two64 in *; lia). by apply sim_claim.
    + apply Hlocal; [done|]. simpl. rewrite (inv_enqueue _ Hi). lia.
  - destruct (inv_construct _ _ _ _ Hi E) as [Hst Hi']. rewrite Hst. simpl.
    apply sim_tau; try done. intros p' Hp'. simpl.
    rewrite get_slot_window by (apply Hi || lia). by destruct (Z.eqb_spec p p') as [<-|].
  - rewrite wrap64_small by (unfold no_wrap, two64, pops in *; lia). by apply sim_publish.
Qed.

Lemma begin_consumer_sim s c :
  inv s -> cbusy (consumer s) = false -> c = CLoad \/ c = CEmpty ->
  sim s LTau (begin_consumer s c).
Proof.
  intros Hi Hb Hc. apply sim_tau; try done. apply inv_consumer_local; try done.
  - intros v E. by rewrite E in Hb.
  - by destruct Hc as [-> | ->].
  - by destruct Hc as [-> | ->].
Qed.

Lemma consumer_sim s :
  inv s -> no_wrap Capacity s ->
  sim s (snd (consumer_moves Capacity s)) (fst (consumer_moves Capacity s)).
Proof.
  intros Hi Hn. pose proof (inv_consumer _ Hi) as Hok. unfold consumer_ok in Hok.
  pose proof (head_cases s Hi Hn) as Hh. simpl in Hh.
  pose proof (abstraction_head s Hi) as Ha.
  pose proof (inv_dequeue _ Hi) as Hd. pose proof (inv_window _ Hi) as Hw.
  pose proof Capacity_pos. assert (0 <= pops s) by (unfold pops; lia).
  assert (forall c, (forall v, consumer s <> CRelease v) -> (forall v, c <> CRelease v) ->
    consumer_ok (begin_consumer s c) -> inv (begin_consumer s c)) as Hlocal
    by (intros; by apply inv_consumer_local).
  unfold consumer_moves, consumer_step. destruct (consumer s) as [r| | |v| |b|] eqn:Ec; try done.
  - apply sim_tau; try done. by apply Hlocal.
  - rewrite Hh, Hd. rewrite <- Ha.
    destruct (Spec.ready (abstraction s)) eqn:Er; simpl.
    + apply sim_tau; try done. apply Hlocal; try done. unfold consumer_ok. simpl. by apply Z.eqb_eq.
    + split; [by apply Hlocal|]. by apply Spec.step_not_ready.
  - rewrite Hd.
    destruct (head_published s Hi) as (_ & t & v & _ & Hst); [by intros; rewrite Ec|done|].
    rewrite Hst. simpl. apply sim_tau; try done; [by apply inv_take|].
    intros p Hp. apply (sequence_take s v p Hi). lia.
  - rewrite Hd. cbn [snd fst record enqueue_pos_ set_slot slots_].
    rewrite !wrap64_small by (unfold no_wrap, two64 in *; lia). by apply sim_pop.
  - rewrite Hh, Hd, <- Ha. destruct (Spec.ready (abstraction s)) eqn:Er; simpl.
    + split; [by apply Hlocal|]. by apply Spec.step_ready.
    + split; [by apply Hlocal|]. by apply Spec.step_not_ready.
  - apply sim_tau; try done. by apply Hlocal.
Qed.

Lemma step_sim s l s' :
  inv s -> no_wrap Capacity s' -> sys_step Capacity s l s' -> sim s l s'.
Proof.
  intros Hi Hn Hs. pose proof (no_wrap_mono _ _ _ Hs) as Hm. unfold no_wrap in Hn.
  destruct Hs.
  - by apply begin_push_sim.
  - by apply producer_sim.
  - by apply begin_consumer_sim; auto.
  - by apply begin_consumer_sim; auto.
  - apply consumer_sim; [done|]. unfold no_wrap. lia.
Qed.

Lemma reachable_inv s : reachable Capacity s -> no_wrap Capacity s -> inv s.
Proof.
  induction 1 as [|s l s' Hr IH Hs]; intros Hn; [apply inv_init|].
  eapply step_sim; [|done|done]. apply IH. pose proof (no_wrap_mono _ _ _ Hs).
  unfold no_wrap in *. lia.
Qed.

(** *** The calls without interference *)

(** No call is in progress. *)
Definition quiet s : Prop :=
  (forall t ps, producers s !! t = Some ps -> exists b, ps = PIdle b) /\
  cbusy (consumer s) = false.

Definition contents s : list T := drop (length (popped s)) (map snd (claimed s)).

(** The queue [q] holds the elements [l], [n] pushes after its creation. *)
Definition holds q (n : Z) (l : list T) : Prop :=
  exists s, inv s /\ quiet s /\ queue s = q /\ contents s = l /\ claims s = n.

Lemma length_contents s : inv s -> Z.of_nat (length (contents s)) = claims s - pops s.
Proof.
  intros Hi. unfold contents. rewrite length_drop, length_map.
  pose proof (inv_window _ Hi). unfold claims, pops in *. lia.
Qed.

Lemma contents_cons s v l :
  contents s = v :: l -> exists t, claim_at s (pops s) = Some (t, v).
Proof.
  unfold contents, claim_at, pops. rewrite Nat2Z.id. intros E.
  pose proof (lookup_drop (map snd (claimed s)) (length (popped s)) 0) as H0.
  rewrite E, Nat.add_0_r, list_lookup_fmap in H0. simpl in H0.
  destruct (claimed s !! length (popped s)) as [[t w]|]; simplify_eq/=. eauto.
Qed.

Lemma quiet_release s v : quiet s -> consumer s <> CRelease v.
Proof. intros [_ Hc] E. by rewrite E in Hc. Qed.

(** The head slot of a quiet queue. *)
Lemma quiet_head s :
  inv s -> quiet s ->
  let sl := get_slot Capacity (queue s) (pops s) in
  match contents s with
  | [] => sequence sl = pops s
  | v :: _ => sequence sl = pops s + 1 /\ storage sl = Some v
  end.
Proof.
  intros Hi Hq. pose proof Capacity_pos. simpl.
  pose proof (inv_slots _ Hi (pops s) ltac:(lia)) as Hs. unfold slot_ok in Hs.
  pose proof (length_contents s Hi) as Hl.
  destruct (contents s) as [|v l] eqn:Ec; simpl in Hl.
  - destruct (Z.ltb_spec (pops s) (claims s)); [lia|]. apply Hs.
  - destruct (Z.ltb_spec (pops s) (claims s)); [|lia].
    destruct (contents_cons _ _ _ Ec) as [t Hcl].
    destruct Hs as (t' & v' & Hcl' & Hcase). rewrite Hcl in Hcl'. injection Hcl' as <- <-.
    destruct Hcase as [[_ [[_ E]|[_ E]]]|[? [[? _]|(_ & _ & E)]]]; [..|done|].
    + by apply (proj1 Hq) in E as [].
    + by apply (proj1 Hq) in E as [].
    + by apply quiet_release in E.
Qed.

Lemma quiet_tail s :
  inv s -> no_wrap Capacity s ->
  (seq_diff (sequence (get_slot Capacity (queue s) (claims s))) (claims s) =? 0) =
    (claims s <? pops s + Capacity) /\
  (claims s = pops s + Capacity ->
   seq_diff (sequence (get_slot Capacity (queue s) (claims s))) (claims s) < 0).
Proof.
  intros Hi Hn. pose proof Capacity_pos. pose proof (inv_window _ Hi) as Hw.
  unfold no_wrap in Hn. assert (0 <= pops s) by (unfold pops; lia).
  destruct (Z.ltb_spec (claims s) (pops s + Capacity)) as [Hlt|Hge].
  - pose proof (inv_slots _ Hi (claims s) ltac:(lia)) as Hs. unfold slot_ok in Hs.
    rewrite Z.ltb_irrefl in Hs. destruct Hs as [-> _]. rewrite seq_diff_small by lia.
    split; [|lia]. apply Z.eqb_eq. lia.
  - assert (claims s = pops s + Capacity) as E by lia. rewrite E, get_slot_wrap.
    destruct (slot_sequence s (pops s) (inv_slots _ Hi (pops s) ltac:(lia))) as [E'|[E' ?]];
      rewrite E', seq_diff_small by lia; (split; [apply Z.eqb_neq; lia|lia]).
Qed.

Lemma TryPush_holds q n l v :
  holds q n l -> n + 1 + Capacity < 2 ^ 63 ->
  if Z.of_nat (length l) <? Capacity
  then exists q', TryPush Capacity q v = Some (true, q') /\ holds q' (n + 1) (l ++ [v])
  else TryPush Capacity q v = Some (false, q).
Proof.
  intros (s & Hi & Hq & <- & <- & <-) Hn. rewrite length_contents by done.
  assert (no_wrap Capacity s) as Hn0 by (unfold no_wrap; lia).
  destruct (quiet_tail s Hi Hn0) as [H0 Hneg]. pose proof (inv_window _ Hi) as Hw.
  pose proof Capacity_pos. assert (0 <= pops s) by (unfold pops; lia).
  unfold TryPush. simpl. rewrite (inv_enqueue _ Hi), H0.
  destruct (Z.ltb_spec (claims s) (pops s + Capacity)) as [Hlt|Hge].
  - destruct (Z.ltb_spec (claims s - pops s) Capacity); [|lia].
    simpl. rewrite (inv_enqueue _ Hi), Z.eqb_refl. simpl.
    rewrite !wrap64_small by (unfold two64; lia).
    set (s1 := with_producer s 0 (PCas v (claims s))).
    assert (inv s1) as Hi1.
    { apply inv_producer_local; [done| |simpl; lia]. by intros ps0 [b ->]%(proj1 Hq). }
    assert (producers s1 !! 0%nat = Some (PCas v (claims s))) as E1 by apply lookup_insert_eq.
    pose proof (inv_claim s1 0 v (claims s) Hi1 E1 eq_refl) as Hi2.
    set (s2 := after_claim s1 0 v (claims s)) in *.
    assert (producers s2 !! 0%nat = Some (PConstruct v (claims s))) as E2 by apply lookup_insert_eq.
    destruct (inv_construct s2 0 v _ Hi2 E2) as [Hst Hi3].
    set (s3 := with_slot s2 _ _ _ _) in *.
    assert (producers s3 !! 0%nat = Some (PStore (claims s))) as E3 by apply lookup_insert_eq.
    pose proof (inv_publish s3 0 _ Hi3 E3) as Hi4. set (s4 := with_slot s3 _ _ _ _) in *.
    change (storage (get_slot Capacity (queue s2) (claims s)) = None) in Hst.
    change {| enqueue_pos_ := claims s + 1; dequeue_pos_ := dequeue_pos_ (queue s);
              slots_ := slots_ (queue s) |} with (queue s2).
    rewrite Hst. unfold TryPush_step. rewrite wrap64_small by (unfold two64; lia). exists (queue s4). split; [reflexivity|].
    exists s4. split_and!; try done.
    + split; [|apply Hq].
      intros t ps. simpl. rewrite !insert_insert_eq. destruct (decide (t = 0%nat)) as [->|].
      * rewrite lookup_insert_eq. intros [= <-]. eauto.
      * rewrite lookup_insert_ne by done. apply Hq.
    + unfold contents. simpl. rewrite map_app, drop_app_le; [done|].
      rewrite length_map. unfold pops, claims in *. lia.
    + change (claims s4) with (claims s2). exact (claims_after_claim s1 0 v (claims s)).
  - destruct (Z.ltb_spec (claims s - pops s) Capacity); [lia|].
    destruct (Z.ltb_spec (seq_diff (sequence (get_slot Capacity (queue s) (claims s))) (claims s)) 0);
      [done|lia].
Qed.

(** Taking the head of a quiet queue. *)
Lemma quiet_pop s v l :
  inv s -> quiet s -> contents s = v :: l ->
  inv (after_release (after_take s v) v) /\ quiet (after_release (after_take s v) v) /\
  contents (after_release (after_take s v) v) = l.
Proof.
  intros Hi Hq Ec. pose proof (quiet_head s Hi Hq) as Hh. simpl in Hh. rewrite Ec in Hh.
  destruct Hh as [Hsq Hst]. split_and!.
  - apply inv_release; [|done].
    assert (inv (begin_consumer s CTake)) as Hi1.
    { apply inv_consumer_local; try done. intros w. by apply quiet_release. }
    by apply (inv_take (begin_consumer s CTake) v Hi1).
  - split; [apply Hq|done].
  - unfold contents in *. simpl. rewrite length_app, Nat.add_1_r.
    replace (S (length (popped s))) with (length (popped s) + 1)%nat by lia.
    rewrite <- drop_drop, Ec. done.
Qed.

Lemma head_ready s :
  inv s -> quiet s -> no_wrap Capacity s ->
  (seq_diff (sequence (get_slot Capacity (queue s) (dequeue_pos_ (queue s))))
     (wrap64 (dequeue_pos_ (queue s) + 1)) <? 0) =
  match contents s with [] => true | _ => false end.
Proof.
  intros Hi Hq Hn. rewrite (head_cases s Hi Hn), (inv_dequeue _ Hi).
  pose proof (quiet_head s Hi Hq) as Hh. simpl in Hh.
  destruct (contents s).
  - rewrite Hh. destruct (Z.eqb_spec (pops s) (pops s + 1)); [lia|done].
  - destruct Hh as [-> _]. by rewrite Z.eqb_refl.
Qed.

Lemma TryPopOne_holds q n l :
  holds q n l -> n + Capacity < 2 ^ 63 ->
  match l with
  | [] => TryPopOne Capacity q = Some (None, q)
  | v :: l' => exists q', TryPopOne Capacity q = Some (Some v, q') /\ holds q' n l'
  end.
Proof.
  intros (s & Hi & Hq & <- & <- & <-) Hn.
  pose proof (head_ready s Hi Hq Hn) as Hr.
  unfold TryPopOne, consumer_step. cbv zeta. rewrite Hr.
  destruct (contents s) as [|v l'] eqn:Ec; [done|].
  pose proof (quiet_head s Hi Hq) as Hh. simpl in Hh. rewrite Ec in Hh.
  destruct Hh as [Hsq Hst]. destruct (quiet_pop s v l' Hi Hq Ec) as (Hi' & Hq' & Hc').
  pose proof (inv_window _ Hi). assert (0 <= pops s) by (unfold pops; lia).
  pose proof Capacity_pos.
  rewrite (inv_dequeue _ Hi), Hst. cbn [dequeue_pos_ set_slot]. rewrite (inv_dequeue _ Hi).
  rewrite !wrap64_small by (unfold two64; lia).
  exists (queue (after_release (after_take s v) v)). split; [reflexivity|].
  exists (after_release (after_take s v) v). done.
Qed.

Lemma PopBatch_holds m : forall q n l,
  holds q n l -> n + Capacity < 2 ^ 63 ->
  exists q', PopBatch Capacity m q = Some (take m l, q') /\ holds q' n (drop m l).
Proof.
  induction m as [|m IH]; intros q n l Hq Hn; [exists q; by rewrite drop_0|].
  pose proof (TryPopOne_holds q n l Hq Hn) as H1. simpl.
  destruct l as [|v l'].
  - rewrite H1. by exists q.
  - destruct H1 as (q1 & -> & Hq1). destruct (IH q1 n l' Hq1 Hn) as (q2 & -> & Hq2). eauto.
Qed.

Lemma Empty_holds q n l :
  holds q n l -> n + Capacity < 2 ^ 63 ->
  Empty Capacity q = match l with [] => true | _ => false end.
Proof. intros (s & Hi & Hq & <- & <- & <-) Hn. by apply head_ready. Qed.

Lemma DrainAll_holds l : forall q n fuel,
  holds q n l -> n + Capacity < 2 ^ 63 -> (length l < fuel)%nat ->
  exists q', DrainAll Capacity fuel q = Some (l, q') /\ holds q' n [].
Proof.
  induction l as [|v l' IH]; intros q n fuel Hh Hn Hf;
    (destruct fuel as [|fuel]; [simpl in Hf; lia|]); cbn [DrainAll];
    pose proof Hh as (s & Hi & Hq & <- & Ec & <-);
    rewrite (head_ready s Hi Hq Hn), Ec; [by eauto|].
  pose proof (quiet_head s Hi Hq) as Hhd. simpl in Hhd. rewrite Ec in Hhd.
  destruct Hhd as [Hsq Hst]. destruct (quiet_pop s v l' Hi Hq Ec) as (Hi' & Hq' & Hc').
  pose proof (inv_window _ Hi). assert (0 <= pops s) by (unfold pops; lia).
  pose proof Capacity_pos.
  rewrite (inv_dequeue _ Hi), Hst. rewrite !wrap64_small by (unfold two64; lia).
  cbv zeta. set (q2 := {| enqueue_pos_ := _ |}).
  assert (q2 = queue (after_release (after_take s v) v)) as ->.
  { unfold q2. simpl. rewrite list_insert_insert_eq. do 3 f_equal.
    change (pops (after_take s v)) with (pops s).
    rewrite get_slot_set_eq by (apply Hi || done). done. }
  destruct (IH (queue (after_release (after_take s v) v)) (claims s) fuel) as (q3 & -> & Hq3).
  - by exists (after_release (after_take s v) v).
  - done.
  - simpl in Hf. lia.
  - eauto.
Qed.

Lemma holds_make : holds (make T Capacity) 0 [].
Proof.
  exists (init T Capacity). split; [apply inv_init|]. split_and!; try done.
Qed.

End invariant.

(** ** Properties *)

Section properties.
Context {T : Type} (k : Z).

(** C7: the lock-free queue implements the abstract queue: whatever the
    interleaving of any number of producers with the consumer, spurious
    compare-exchange failures included, each step of the code is a step of the
    abstract queue with the same effect.  In particular a failing [TryPush]
    happens only when exactly [Capacity] elements are claimed and not released,
    and the consumer sees the claims in order. *)
Theorem queue_refines_spec (s s' : @system T) l :
  1 <= k -> reachable (2 ^ k) s -> sys_step (2 ^ k) s l s' -> no_wrap (2 ^ k) s' ->
  Spec.step (2 ^ k) (abstraction k s) l (abstraction k s').
Proof.
  intros Hk Hr Hs Hn. pose proof (no_wrap_mono k s l s' Hs).
  apply (step_sim k Hk); [|done..]. apply reachable_inv; [done..|]. unfold no_wrap in *. lia.
Qed.

(** No element is lost, duplicated or reordered, and no storage is misused:
    what the consumer has received is a prefix of the claims in the order of
    their compare-exchange, at most [Capacity] claims are outstanding, no
    producer ever constructs over a live element and the consumer never moves
    from storage that holds none. *)
Theorem queue_fifo (s : @system T) :
  1 <= k -> reachable (2 ^ k) s -> no_wrap (2 ^ k) s ->
  popped s `prefix_of` map snd (claimed s) /\
  claims s - pops s <= 2 ^ k /\
  (forall t, producers s !! t <> Some PFault) /\ consumer s <> CFault.
Proof.
  intros Hk Hr Hn. pose proof (reachable_inv k Hk s Hr Hn) as Hi. split_and!.
  - rewrite (inv_popped _ _ Hi). exists (drop (length (popped s)) (map snd (claimed s))).
    by rewrite take_drop.
  - pose proof (inv_window _ _ Hi). lia.
  - intros t E. apply (inv_producers _ _ Hi _ _ E).
  - intros E. pose proof (inv_consumer _ _ Hi) as Hc. unfold consumer_ok in Hc. by rewrite E in Hc.
Qed.

(** Without interference the calls are those of a bounded FIFO queue:
    [TryPush] appends, or fails exactly when [Capacity] elements are there;
    [PopBatch] takes the first elements in order; [Empty] is exact; [DrainAll]
    terminates and destroys every remaining element. *)
Theorem queue_sequential (q : @MpscRingQueue T) n l v m :
  1 <= k -> holds k q n l -> n + 1 + 2 ^ k < 2 ^ 63 ->
  (if Z.of_nat (length l) <? 2 ^ k
   then exists q', TryPush (2 ^ k) q v = Some (true, q') /\ holds k q' (n + 1) (l ++ [v])
   else TryPush (2 ^ k) q v = Some (false, q)) /\
  (exists q', PopBatch (2 ^ k) m q = Some (take m l, q') /\ holds k q' n (drop m l)) /\
  Empty (2 ^ k) q = (match l with [] => true | _ => false end) /\
  (exists q', DrainAll (2 ^ k) (S (length l)) q = Some (l, q') /\ holds k q' n []).
Proof.
  intros Hk Hq Hn. split_and!.
  - by apply TryPush_holds.
  - apply PopBatch_holds; [done..|lia].
  - eapply Empty_holds; [done..|lia].
  - eapply DrainAll_holds; [done..|lia|lia].
Qed.

End properties.

(** ** Witnesses: a producer pushes 5 into a queue of two slots, and the
    consumer pops it *)

(** [n] steps of producer [t]. *)
Fixpoint producer_runs {T} (Capacity : Z) (t n : nat) (s : @system T) : system :=
  match n, producers s !! t with
  | S n, Some p => producer_runs Capacity t n (fst (producer_moves Capacity s t false p))
  | _, _ => s
  end.

Fixpoint consumer_runs {T} (Capacity : Z) (n : nat) (s : @system T) : system :=
  match n with
  | S n => consumer_runs Capacity n (fst (consumer_moves Capacity s))
  | O => s
  end.

Lemma producer_runs_reachable {T} C t n : forall s : @system T,
  reachable C s -> reachable C (producer_runs C t n s).
Proof.
  induction n as [|n IH]; intros s Hs; [done|]. simpl.
  destruct (producers s !! t) eqn:E; [|done]. apply IH.
  eapply reach_step; [done|]. by apply sys_producer.
Qed.

Lemma consumer_runs_reachable {T} C n : forall s : @system T,
  reachable C s -> reachable C (consumer_runs C n s).
Proof.
  induction n as [|n IH]; intros s Hs; [done|]. simpl. apply IH.
  eapply reach_step; [done|]. apply sys_consumer.
Qed.

Definition w_sys (n m : nat) : @system nat :=
  consumer_runs (2 ^ 1) m
    (begin_consumer (producer_runs (2 ^ 1) 0 n (begin_push (init nat (2 ^ 1)) 0 5%nat)) CLoad).

Lemma w_sys_reachable n m : reachable (2 ^ 1) (w_sys n m).
Proof.
  apply consumer_runs_reachable. eapply reach_step; [|apply sys_begin_pop].
  - apply producer_runs_reachable. eapply reach_step; [apply reach_init|].
    by apply sys_begin_push.
  - assert (forall n (s : @system nat), consumer (producer_runs (2 ^ 1) 0 n s) = consumer s) as Hc.
    { clear. induction n as [|n IH]; intros s; [done|]. simpl.
      destruct (producers s !! 0%nat); [|done]. rewrite IH. unfold producer_moves.
      destruct (TryPush_step _ _ _ _ _) as [[? ?] ?]. by destruct (record _ _ _). }
    by rewrite Hc.
Qed.

Lemma queue_refines_spec_witness :
  Spec.step (2 ^ 1) [(0%nat, 5%nat, false)] (LPublish 0) [(0%nat, 5%nat, true)].
Proof.
  assert (sys_step (2 ^ 1) (w_sys 4 0) (LPublish 0)
            (fst (producer_moves (2 ^ 1) (w_sys 4 0) 0 false (PStore 0)))) as Hs.
  { apply (sys_producer (2 ^ 1) (w_sys 4 0) 0 false (PStore 0)). vm_compute. reflexivity. }
  refine (queue_refines_spec 1 _ _ _ _ (w_sys_reachable 4 0) Hs _); [lia|].
  vm_compute. reflexivity.
Defined.

Lemma queue_fifo_witness : [5%nat] `prefix_of` map snd (claimed (w_sys 5 3)).
Proof.
  destruct (queue_fifo 1 (w_sys 5 3)) as [H _];
    [lia|apply w_sys_reachable|vm_compute; reflexivity|exact H].
Defined.

Lemma queue_sequential_witness :
  exists q', TryPush (2 ^ 1) (make nat (2 ^ 1)) 5%nat = Some (true, q') /\
             holds 1 q' 1 [5%nat].
Proof.
  assert (1 <= 1) as H1 by lia.
  destruct (queue_sequential 1 (make nat (2 ^ 1)) 0 [] 5%nat 1 H1 (holds_make 1 H1)) as [H _];
    [vm_compute; reflexivity|exact H].
Defined.
