(* ===== verification/ServiceRegistry.v ===== *)
(** * The table of methods and the execution of a request
    (server/service_registry.h, server/service_registry.cpp; [HandleOneRequest]
    of server/connection.cpp and the task of [DispatchRequestToThreadPool] of
    server/worker_loop.cpp)

    The methods lock the registry's mutex, so each is one atomic function on
    the map.  A handler is user code: a function from the payload to the string
    it returns or to what it throws. *)

From Stdlib Require Import Ascii.
From S2P Require Import Prelude RpcError.

Local Open Scope string_scope.

(** ** Handlers *)

Inductive handler_outcome :=
  | HReturn (payload : string)
  | HThrowRpc (ex : RpcException)
  | HThrowStd (what : string)
  | HThrowOther.

Definition Handler : Type := string -> handler_outcome.

(** ** The registry *)

Abbreviation registry := (gmap string Handler).

Definition BuildKey (service_name method_name : string) : string :=
  service_name +:+ "." +:+ method_name.

(** [handler] is [None] for an empty [std::function]. *)
Definition Register (r : registry) (service_name method_name : string)
    (handler : option Handler) : bool * registry :=
  match handler with
  | None => (false, r)
  | Some h =>
      if str_empty service_name || str_empty method_name then (false, r)
      else
        let key := BuildKey service_name method_name in
        match r !! key with
        | Some _ => (false, r)
        | None => (true, <[key := h]> r)
        end
  end.

Definition Find (r : registry) (service_name method_name : string) : option Handler :=
  r !! BuildKey service_name method_name.

(** ** Messages (proto/rpc.proto) *)

Record RpcRequest := {
  rq_request_id : string;
  rq_service_name : string;
  rq_method_name : string;
  rq_payload : string;
}.

Record RpcResponse := {
  rs_request_id : string;
  rs_error_code : Z;
  rs_error_msg : string;
  rs_payload : string;
}.

(** ** Executing a request on the connection's own thread *)

(** The response [HandleOneRequest] leaves in its output parameter; it returns
    [true] on each of these paths. *)
Definition HandleOneRequest (r : registry) (rq : RpcRequest) : RpcResponse :=
  let reply code msg payload :=
    {| rs_request_id := rq_request_id rq; rs_error_code := code;
       rs_error_msg := msg; rs_payload := payload |} in
  match Find r (rq_service_name rq) (rq_method_name rq) with
  | None =>
      reply proto_METHOD_NOT_FOUND
        ("method not found: " +:+ rq_service_name rq +:+ "." +:+ rq_method_name rq) ""
  | Some h =>
      match h (rq_payload rq) with
      | HReturn p => reply proto_OK "" p
      | HThrowRpc ex => reply (ToProtoErrorCode (ex_code ex)) (ex_what ex) ""
      | HThrowStd what =>
          reply (ToProtoErrorCode (make_error_code kInternalError))
            ("handler exception: " +:+ what) ""
      | HThrowOther =>
          reply (ToProtoErrorCode (make_error_code kInternalError))
            "handler threw unknown exception" ""
      end
  end.

(** ** Executing a request as a task of the thread pool *)

(** [Connection::DispatchRequest] (server/connection.h). *)
Record DispatchRequest := {
  dr_sequence : Z;
  dr_request_id : string;
  dr_service_name : string;
  dr_method_name : string;
  dr_payload : string;
}.

(** [WorkerLoop::CompletedResponse] (server/worker_loop.h). *)
Record CompletedResponse := {
  cr_fd : Z;
  cr_connection_token : Z;
  cr_request_sequence : Z;
  cr_request_id : string;
  cr_method_key : string;
  cr_proto_error_code : Z;
  cr_error_msg : string;
  cr_payload : string;
  cr_handler_success : bool;
}.

(** Phase 3 of the task: find and run the handler. *)
Definition execute (r : registry) (fd token : Z) (d : DispatchRequest) : CompletedResponse :=
  let completed code msg payload success :=
    {| cr_fd := fd; cr_connection_token := token; cr_request_sequence := dr_sequence d;
       cr_request_id := dr_request_id d;
       cr_method_key := dr_service_name d +:+ "." +:+ dr_method_name d;
       cr_proto_error_code := code; cr_error_msg := msg; cr_payload := payload;
       cr_handler_success := success |} in
  match Find r (dr_service_name d) (dr_method_name d) with
  | None =>
      completed proto_METHOD_NOT_FOUND
        ("method not found: " +:+ dr_service_name d +:+ "." +:+ dr_method_name d) "" false
  | Some h =>
      match h (dr_payload d) with
      | HReturn p => completed proto_OK "" p true
      | HThrowRpc ex => completed (ToProtoErrorCode (ex_code ex)) (ex_what ex) "" false
      | HThrowStd what =>
          completed proto_INTERNAL_ERROR ("handler exception: " +:+ what) "" false
      | HThrowOther => completed proto_INTERNAL_ERROR "handler threw unknown exception" "" false
      end
  end.

(** The request a connection hands to the pool, and the response the worker
    builds from the completion. *)
Definition to_dispatch (sequence : Z) (rq : RpcRequest) : DispatchRequest :=
  {| dr_sequence := sequence; dr_request_id := rq_request_id rq;
     dr_service_name := rq_service_name rq; dr_method_name := rq_method_name rq;
     dr_payload := rq_payload rq |}.

Definition to_response (c : CompletedResponse) : RpcResponse :=
  {| rs_request_id := cr_request_id c; rs_error_code := cr_proto_error_code c;
     rs_error_msg := cr_error_msg c; rs_payload := cr_payload c |}.

(** ** Method statistics ([RecordMethodCall]) *)

Abbreviation method_stats := (gmap string (Z * Z)).

Definition RecordMethodCall (st : method_stats) (method : string) (success : bool)
    : method_stats :=
  let '(total, failed) := default (0, 0)%Z (st !! method) in
  <[method := (wrap64 (total + 1), if success then failed else wrap64 (failed + 1))%Z]> st.

(** ** Lemmas *)

Fixpoint no_dot (s : string) : bool :=
  match s with
  | EmptyString => true
  | String c s => negb (Ascii.eqb c "."%char) && no_dot s
  end.

Lemma BuildKey_inj s1 m1 s2 m2 :
  no_dot s1 = true -> no_dot s2 = true ->
  BuildKey s1 m1 = BuildKey s2 m2 -> s1 = s2 /\ m1 = m2.
Proof.
  unfold BuildKey. revert s2.
  induction s1 as [|c1 s1 IH]; intros [|c2 s2] H1 H2 E; simpl in *; simplify_eq.
  - done.
  - breflect. destruct (IH s2) as [-> ->]; done.
Qed.

Lemma Register_Find r s m h r' s' m' :
  Register r s m h = (true, r') ->
  Find r' s' m' = if decide (BuildKey s m = BuildKey s' m') then h else Find r s' m'.
Proof.
  unfold Register, Find. intros H. repeat (split_match_in H; simplify_eq/=).
  by rewrite lookup_insert.
Qed.

(** ** Properties *)

(** Registering a method succeeds exactly for a non-empty service and
    method name, a callable handler and a key that is free; then [Find] returns
    the handler for its key and every other lookup is as before; a failed
    registration changes nothing, so a method is never replaced. *)
Theorem register_find r s m h :
  let '(ok, r') := Register r s m h in
  ok = negb (str_empty s) && negb (str_empty m) && bool_decide (is_Some h) &&
       bool_decide (Find r s m = None) /\
  (forall s' m', Find r' s' m' =
     if ok && bool_decide (BuildKey s m = BuildKey s' m') then h else Find r s' m').
Proof.
  destruct (Register r s m h) as [ok r'] eqn:E. pose proof E as E'. revert E'.
  unfold Register, Find. intros H.
  destruct h as [h|], (str_empty s), (str_empty m), (r !! BuildKey s m) eqn:Ek;
    simplify_eq/=; split; try done; intros s' m';
    (rewrite lookup_insert; destruct (decide _); [by rewrite bool_decide_true|
       by rewrite bool_decide_false]).
Qed.

(** Both ways of executing a request give the same response. *)
Lemma execute_response r rq fd token seq :
  to_response (execute r fd token (to_dispatch seq rq)) = HandleOneRequest r rq.
Proof.
  unfold execute, HandleOneRequest. simpl.
  destruct (Find r _ _) as [h|]; [|done]. by destruct (h (rq_payload rq)).
Qed.

(** A request gets the same answer on both paths of the server: executed
    inline by the connection, or as a task of the thread pool whose completion
    the worker turns into a response, for every registry, whatever the handler
    returns or throws; and the completion counts as a success exactly when the
    handler returned. *)
Theorem dispatch_paths_agree r rq fd token seq :
  to_response (execute r fd token (to_dispatch seq rq)) = HandleOneRequest r rq /\
  (cr_handler_success (execute r fd token (to_dispatch seq rq)) = true <->
   exists h p, Find r (rq_service_name rq) (rq_method_name rq) = Some h /\
               h (rq_payload rq) = HReturn p).
Proof.
  split; [apply execute_response|]. unfold execute. simpl.
  destruct (Find r _ _) as [h|]; [|split; [done|by intros (? & ? & ? & ?)]].
  destruct (h (rq_payload rq)) eqn:E; simpl;
    (split; [try done; eauto|intros (? & ? & [= <-] & ?); congruence]).
Qed.

(** A service name without a dot and a method name determine their key;
    with a dot in the service name two different methods share one, so the
    second registration is refused and its callers reach the first handler. *)
Theorem method_keys :
  (forall s1 m1 s2 m2, no_dot s1 = true -> no_dot s2 = true ->
     BuildKey s1 m1 = BuildKey s2 m2 -> s1 = s2 /\ m1 = m2) /\
  (forall h1 h2,
     let '(_, r) := Register ∅ "A.B" "C" (Some h1) in
     fst (Register r "A" "B.C" (Some h2)) = false /\ Find r "A" "B.C" = Some h1).
Proof. split; [exact BuildKey_inj|]. intros h1 h2. vm_compute. done. Qed.
