(* ===== verification/Proto3.v ===== *)
(** * The protobuf encoding of the two messages (proto/rpc.proto)

    protobuf is a library the sources link with; the components use it through
    the classes [ProtoMessage] and [ProtoLaws].  This file shows that the
    classes can be inhabited by what proto3 really does with these messages:
    fields in order of their number, each a tag, a varint length and the bytes,
    default values left out.  In particular a message whose fields are all
    default has size zero. *)

From Stdlib Require Import ZArith Lia Strings.String.
From S2P Require Import Prelude Codec ServiceRegistry.

Local Open Scope list_scope.
Local Open Scope Z_scope.

(** ** Varints *)

Fixpoint varint_fuel (fuel : nat) (n : Z) : bytes :=
  match fuel with
  | O => []
  | S fuel =>
      if n <? 128 then [byte_of_Z n]
      else byte_of_Z (n mod 128 + 128) :: varint_fuel fuel (n / 128)
  end.

Definition varint (n : Z) : bytes := varint_fuel 10 n.

Fixpoint read_varint_fuel (fuel : nat) (bs : bytes) : option (Z * bytes) :=
  match fuel, bs with
  | S fuel, b :: bs =>
      let v := Z_of_byte b in
      if v <? 128 then Some (v, bs)
      else match read_varint_fuel fuel bs with
           | Some (n, bs') => Some (v - 128 + 128 * n, bs')
           | None => None
           end
  | _, _ => None
  end.

Definition read_varint (bs : bytes) : option (Z * bytes) := read_varint_fuel 10 bs.

Lemma read_varint_fuel_varint fuel : forall n rest,
  0 <= n < 128 ^ Z.of_nat (S fuel) ->
  read_varint_fuel (S fuel) (varint_fuel (S fuel) n ++ rest) = Some (n, rest).
Proof.
  induction fuel as [|fuel IH]; intros n rest Hn.
  { change (128 ^ Z.of_nat 1) with 128 in Hn. simpl.
    destruct (Z.ltb_spec n 128); [|lia]. simpl.
    rewrite Z_of_byte_of_Z, Z.mod_small by lia. destruct (Z.ltb_spec n 128); [done|lia]. }
  remember (S fuel) as f eqn:Ef.
  cbn [varint_fuel]. destruct (Z.ltb_spec n 128); cbn [app read_varint_fuel].
  - rewrite Z_of_byte_of_Z, Z.mod_small by lia. destruct (Z.ltb_spec n 128); [done|lia].
  - pose proof (Z.mod_pos_bound n 128 ltac:(lia)) as Hm. pose proof (Z.div_mod n 128 ltac:(lia)).
    rewrite Z_of_byte_of_Z, Z.mod_small by lia.
    destruct (Z.ltb_spec (n mod 128 + 128) 128); [lia|].
    rewrite IH.
    + do 2 f_equal. lia.
    + split; [apply Z.div_pos; lia|]. apply Z.div_lt_upper_bound; [lia|].
      rewrite Nat2Z.inj_succ, Z.pow_succ_r in Hn by lia. lia.
Qed.

Lemma read_varint_varint n rest : 0 <= n < 2 ^ 63 -> read_varint (varint n ++ rest) = Some (n, rest).
Proof.
  intros Hn. apply (read_varint_fuel_varint 9). change (128 ^ Z.of_nat 10) with (2 ^ 70). lia.
Qed.

Lemma varint_not_nil n : varint n <> [].
Proof. unfold varint. simpl. by destruct (n <? 128). Qed.

(** ** Fields *)

Definition string_field (tag : byte) (s : string) : bytes :=
  match s with
  | EmptyString => []
  | _ => let b := list_byte_of_string s in tag :: varint (Z.of_nat (List.length b)) ++ b
  end.

Definition read_string_field (tag : byte) (bs : bytes) : option (string * bytes) :=
  match bs with
  | [] => Some (EmptyString, [])
  | t :: bs' =>
      if Byte.eqb t tag then
        match read_varint bs' with
        | Some (n, bs'') =>
            if Z.of_nat (List.length bs'') <? n then None
            else Some (string_of_list_byte (take (Z.to_nat n) bs''), drop (Z.to_nat n) bs'')
        | None => None
        end
      else Some (EmptyString, bs)
  end.

Definition enum_field (tag : byte) (n : Z) : bytes :=
  if n =? 0 then [] else tag :: varint n.

Definition read_enum_field (tag : byte) (bs : bytes) : option (Z * bytes) :=
  match bs with
  | [] => Some (0, [])
  | t :: bs' => if Byte.eqb t tag then read_varint bs' else Some (0, bs)
  end.

(** What follows a field does not start with its tag. *)
Definition no_tag (tag : byte) (bs : bytes) : bool :=
  match bs with
  | [] => true
  | t :: _ => negb (Byte.eqb t tag)
  end.

Definition short (s : string) : Prop :=
  Z.of_nat (List.length (list_byte_of_string s)) < 2 ^ 31.

Lemma short_length s : (String.length s < 1000)%nat -> short s.
Proof.
  unfold short. intros Hs.
  assert (List.length (list_byte_of_string s) = String.length s) as ->; [|lia].
  clear. unfold list_byte_of_string. rewrite length_map. induction s as [|a s IH]; [done|].
  simpl. by rewrite IH.
Qed.

Lemma read_string_field_field tag s rest :
  short s -> no_tag tag rest = true ->
  read_string_field tag (string_field tag s ++ rest) = Some (s, rest).
Proof.
  unfold short, string_field. destruct s as [|a s]; intros Hs Hr.
  - simpl. destruct rest as [|t rest]; [done|]. simpl in *. by destruct (Byte.eqb t tag).
  - cbn [app read_string_field]. rewrite Byte.byte_dec_lb by done.
    rewrite <- app_assoc, read_varint_varint by lia.
    rewrite length_app. destruct (Z.ltb_spec (Z.of_nat (List.length (list_byte_of_string (String a s)) + List.length rest))
      (Z.of_nat (List.length (list_byte_of_string (String a s))))); [lia|].
    by rewrite Nat2Z.id, take_app_exact, drop_app_exact, string_of_list_byte_of_string.
Qed.

Lemma read_enum_field_field tag n rest :
  0 <= n < 2 ^ 31 -> no_tag tag rest = true ->
  read_enum_field tag (enum_field tag n ++ rest) = Some (n, rest).
Proof.
  intros Hn Hr. unfold enum_field. destruct (Z.eqb_spec n 0) as [->|].
  - simpl. destruct rest as [|t rest]; [done|]. simpl in *. by destruct (Byte.eqb t tag).
  - cbn [app read_enum_field]. rewrite Byte.byte_dec_lb by done.
    rewrite read_varint_varint by lia. done.
Qed.

Lemma no_tag_string_field tag tag' s rest :
  Byte.eqb tag' tag = false -> no_tag tag rest = true -> no_tag tag (string_field tag' s ++ rest) = true.
Proof. intros Ht Hr. destruct s; simpl; [done|]. by rewrite Ht. Qed.

Lemma no_tag_enum_field tag tag' n rest :
  Byte.eqb tag' tag = false -> no_tag tag rest = true -> no_tag tag (enum_field tag' n ++ rest) = true.
Proof. intros Ht Hr. unfold enum_field. destruct (n =? 0); simpl; [done|]. by rewrite Ht. Qed.

(** ** The messages *)

Definition encode_request (r : RpcRequest) : bytes :=
  string_field x0a (rq_request_id r) ++ string_field x12 (rq_service_name r) ++
  string_field x1a (rq_method_name r) ++ string_field x22 (rq_payload r).

Definition decode_request (bs : bytes) : option RpcRequest :=
  match read_string_field x0a bs with
  | Some (id, bs) =>
      match read_string_field x12 bs with
      | Some (svc, bs) =>
          match read_string_field x1a bs with
          | Some (m, bs) =>
              match read_string_field x22 bs with
              | Some (p, []) =>
                  Some {| rq_request_id := id; rq_service_name := svc;
                          rq_method_name := m; rq_payload := p |}
              | _ => None
              end
          | None => None
          end
      | None => None
      end
  | None => None
  end.

Definition encode_response (r : RpcResponse) : bytes :=
  string_field x0a (rs_request_id r) ++ enum_field x10 (rs_error_code r) ++
  string_field x1a (rs_error_msg r) ++ string_field x22 (rs_payload r).

Definition decode_response (bs : bytes) : option RpcResponse :=
  match read_string_field x0a bs with
  | Some (id, bs) =>
      match read_enum_field x10 bs with
      | Some (c, bs) =>
          match read_string_field x1a bs with
          | Some (m, bs) =>
              match read_string_field x22 bs with
              | Some (p, []) =>
                  Some {| rs_request_id := id; rs_error_code := c;
                          rs_error_msg := m; rs_payload := p |}
              | _ => None
              end
          | None => None
          end
      | None => None
      end
  | None => None
  end.

#[export] Instance request_proto : ProtoMessage RpcRequest := {
  ByteSizeLong := fun r => Z.of_nat (List.length (encode_request r));
  SerializeToArray := fun r => Some (encode_request r);
  ParseFromArray := decode_request;
}.

#[export] Instance response_proto : ProtoMessage RpcResponse := {
  ByteSizeLong := fun r => Z.of_nat (List.length (encode_response r));
  SerializeToArray := fun r => Some (encode_response r);
  ParseFromArray := decode_response;
}.

Lemma read_last tag s : short s -> read_string_field tag (string_field tag s) = Some (s, []).
Proof. intros Hs. rewrite <- (app_nil_r (string_field tag s)). by apply read_string_field_field. Qed.

#[export] Program Instance request_laws : ProtoLaws RpcRequest := {
  proto_valid := fun r => short (rq_request_id r) /\ short (rq_service_name r) /\
                          short (rq_method_name r) /\ short (rq_payload r);
}.
Next Obligation. intros m b [= <-]. done. Qed.
Next Obligation.
  intros [id svc m p] b (H1 & H2 & H3 & H4) [= <-]. simpl in *. unfold decode_request, encode_request. simpl.
  assert (no_tag x1a (string_field x22 p) = true /\ no_tag x12 (string_field x22 p) = true /\
          no_tag x0a (string_field x22 p) = true) as (N1 & N2 & N3).
  { split_and!; rewrite <- (app_nil_r (string_field x22 p)); by apply no_tag_string_field. }
  rewrite read_string_field_field by auto using no_tag_string_field.
  rewrite read_string_field_field by auto using no_tag_string_field.
  rewrite read_string_field_field by done. by rewrite read_last.
Qed.

#[export] Program Instance response_laws : ProtoLaws RpcResponse := {
  proto_valid := fun r => short (rs_request_id r) /\ 0 <= rs_error_code r < 2 ^ 31 /\
                          short (rs_error_msg r) /\ short (rs_payload r);
}.
Next Obligation. intros m b [= <-]. done. Qed.
Next Obligation.
  intros [id c m p] b (H1 & H2 & H3 & H4) [= <-]. simpl in *. unfold decode_response, encode_response. simpl.
  assert (no_tag x1a (string_field x22 p) = true /\ no_tag x10 (string_field x22 p) = true /\
          no_tag x0a (string_field x22 p) = true) as (N1 & N2 & N3).
  { split_and!; rewrite <- (app_nil_r (string_field x22 p)); by apply no_tag_string_field. }
  rewrite read_string_field_field by (auto using no_tag_string_field, no_tag_enum_field).
  rewrite read_enum_field_field by auto using no_tag_string_field.
  rewrite read_string_field_field by done. by rewrite read_last.
Qed.
