(* ===== verification/SpecQueue.v ===== *)
(** * The operations of the abstract queue

    The lock-free queue of MpscRingQueue.v implements the abstract queue
    [Spec]; its clients (the thread pool, the logger) are modelled over the
    functions of this file, each of which is a step of that specification. *)

From Stdlib Require Import ZArith Lia.
From S2P Require Import Prelude MpscRingQueue.

Local Open Scope list_scope.
Local Open Scope Z_scope.

(** The producer, the value, and whether the entry is published. *)
Abbreviation entry T := (nat * T * bool)%type.

Section queue_ops.
Context {T : Type} (cap : Z).
Implicit Types (q : list (entry T)).

Definition q_full q : bool := Z.of_nat (length q) =? cap.

Definition q_claim (t : nat) (x : T) q : list (entry T) := q ++ [(t, x, false)].

(** Publish the entry that producer [t] has claimed. *)
Fixpoint q_publish (t : nat) q : list (entry T) :=
  match q with
  | [] => []
  | (t', x, b) :: q =>
      if (t' =? t)%nat && negb b then (t', x, true) :: q
      else (t', x, b) :: q_publish t q
  end.

Definition q_pop q : option (T * list (entry T)) :=
  match q with
  | (_, x, true) :: q => Some (x, q)
  | _ => None
  end.

(** The values of the entries, in order. *)
Definition q_values q : list T := map (fun e => snd (fst e)) q.

(** The entries of [q] that producer [t] has claimed and not published. *)
Definition unpublished (t : nat) q : nat :=
  length (filter (fun e : entry T => fst (fst e) = t /\ snd e = false) q).

Lemma q_claim_spec t x q :
  Z.of_nat (length q) < cap ->
  Spec.step cap q (LClaim t x) (q_claim t x q).
Proof. apply Spec.step_claim. Qed.

Lemma q_full_spec t q :
  q_full q = true -> Spec.step cap q (LFull t) q.
Proof. intros H. apply Spec.step_full. by apply Z.eqb_eq. Qed.

Lemma q_publish_spec t x q :
  (t, x, false) ∈ q -> Spec.step cap q (LPublish t) (q_publish t q).
Proof.
  intros Hin.
  assert (exists q1 q2 y, q = q1 ++ (t, y, false) :: q2 /\
                          q_publish t q = q1 ++ (t, y, true) :: q2) as (q1 & q2 & y & -> & ->).
  { induction q as [|[[t' y] b] q IH]; [by apply not_elem_of_nil in Hin|]. simpl.
    destruct ((t' =? t)%nat && negb b) eqn:E.
    - breflect. subst. by exists [], q, y.
    - apply elem_of_cons in Hin as [[= -> -> <-]|Hin].
      + by rewrite Nat.eqb_refl in E.
      + destruct (IH Hin) as (q1 & q2 & z & -> & ->). by exists ((t', y, b) :: q1), q2, z. }
  constructor.
Qed.

Lemma q_pop_spec q x q' :
  q_pop q = Some (x, q') -> Spec.step cap q (LPop x) q'.
Proof. destruct q as [|[[t y] []] q]; simpl; intros; simplify_eq. constructor. Qed.

Lemma q_pop_None q : q_pop q = None -> Spec.step cap q LNotReady q.
Proof. intros H. constructor. by destruct q as [|[[t y] []] q]. Qed.

Lemma q_values_publish t q : q_values (q_publish t q) = q_values q.
Proof.
  induction q as [|[[t' x] b] q IH]; [done|]. simpl.
  destruct ((t' =? t)%nat && negb b); simpl; [done|]. by f_equal.
Qed.

Lemma length_q_publish t q : length (q_publish t q) = length q.
Proof.
  induction q as [|[[t' x] b] q IH]; [done|]. simpl.
  destruct ((t' =? t)%nat && negb b); simpl; [done|]. by f_equal.
Qed.

Lemma q_values_claim t x q : q_values (q_claim t x q) = q_values q ++ [x].
Proof. apply map_app. Qed.

Lemma unpublished_cons t e q :
  unpublished t (e :: q) =
  ((if decide (fst (fst e) = t /\ snd e = false) then 1 else 0) + unpublished t q)%nat.
Proof. unfold unpublished. rewrite filter_cons. by destruct (decide _). Qed.

Lemma unpublished_claim t t' x q :
  unpublished t (q_claim t' x q) = (unpublished t q + if decide (t' = t) then 1 else 0)%nat.
Proof.
  unfold unpublished, q_claim. rewrite filter_app, length_app, filter_cons, filter_nil. simpl.
  destruct (decide (t' = t)), (decide (t' = t /\ false = false)); simpl; naive_solver lia.
Qed.

Lemma unpublished_publish t t' q :
  unpublished t (q_publish t' q) =
  (unpublished t q - if decide (t' = t) then 1 else 0)%nat.
Proof.
  induction q as [|[[u x] b] q IH]; [by destruct (decide _)|]. simpl.
  destruct ((u =? t')%nat && negb b) eqn:E; rewrite !unpublished_cons; simpl.
  - breflect. subst. repeat case_decide; naive_solver lia.
  - rewrite IH. destruct (decide (t' = t)) as [->|]; [|lia].
    destruct (decide (u = t /\ b = false)) as [[-> ->]|]; [|lia].
    by rewrite Nat.eqb_refl in E.
Qed.

Lemma unpublished_pop t q x q' :
  q_pop q = Some (x, q') -> unpublished t q = unpublished t q' /\ q_values q = x :: q_values q'.
Proof.
  destruct q as [|[[u y] []] q]; simpl; intros; simplify_eq.
  split; [|done]. rewrite unpublished_cons. by destruct (decide _) as [[_ ?]|].
Qed.

End queue_ops.
