(* ===== verification/LogFormat.v ===== *)
(** * Log entries and their text (common/log.h, common/log.cpp and the first half
    of common/async_logger.cpp)

    Levels, options and their presets, the message container with its inline
    buffer, the record of one log call, and the formatting of a batch with its
    one-second cache.  Time stamps are nanoseconds since the epoch; what
    [localtime_r] and [strftime] make of a second is a parameter. *)

From Stdlib Require Import ZArith Lia Ascii.
From S2P Require Import Prelude.

Local Open Scope string_scope.
Local Open Scope list_scope.
Local Open Scope Z_scope.

(** ** common/log.h *)

Inductive LogLevel := kInfo | kWarn | kError | kOff.

#[export] Instance LogLevel_eq_dec : EqDecision LogLevel.
Proof. solve_decision. Defined.

Inductive DropPolicy := DropNewest | DropOldest.

(** Durations are in the unit of their type: milliseconds for [flush_interval],
    microseconds for [idle_sleep]. *)
Record LoggerOptions := {
  log_file_path : string;
  queue_capacity : Z;
  max_batch_size : Z;
  flush_interval : Z;
  spin_before_sleep : Z;
  idle_sleep : Z;
  drop_policy : DropPolicy;
  min_level : LogLevel;
  inline_message_threshold : Z;
  file_path : string;
}.

Definition LoggerOptions_default : LoggerOptions :=
  {| log_file_path := "./rpc.log"; queue_capacity := 65536; max_batch_size := 512;
     flush_interval := 500; spin_before_sleep := 128; idle_sleep := 150;
     drop_policy := DropNewest; min_level := kInfo; inline_message_threshold := 112;
     file_path := "" |}.

Definition ThroughputFirstLoggerOptions : LoggerOptions :=
  {| log_file_path := log_file_path LoggerOptions_default; queue_capacity := Z.shiftl 1 18;
     max_batch_size := 1024; flush_interval := 500; spin_before_sleep := 256;
     idle_sleep := 50; drop_policy := DropNewest;
     min_level := min_level LoggerOptions_default; inline_message_threshold := 112;
     file_path := file_path LoggerOptions_default |}.

Definition BalancedLoggerOptions : LoggerOptions :=
  {| log_file_path := log_file_path LoggerOptions_default; queue_capacity := Z.shiftl 1 16;
     max_batch_size := 512; flush_interval := 500; spin_before_sleep := 128;
     idle_sleep := 150; drop_policy := DropNewest;
     min_level := min_level LoggerOptions_default; inline_message_threshold := 112;
     file_path := file_path LoggerOptions_default |}.

Definition LogLevelName (level : LogLevel) : string :=
  match level with
  | kInfo => "INFO"
  | kWarn => "WARN"
  | kError => "ERROR"
  | kOff => "OFF"
  end.

Definition LevelValue (level : LogLevel) : Z :=
  match level with
  | kInfo => 0
  | kWarn => 1
  | kError => 2
  | kOff => 3
  end.

(** [base] follows the last separator seen so far. *)
Fixpoint Basename_loop (base p : string) : string :=
  match p with
  | EmptyString => base
  | String c p' =>
      Basename_loop (if Ascii.eqb c "/" || Ascii.eqb c "\" then p' else base) p'
  end.

Definition Basename (full_path : string) : string := Basename_loop full_path full_path.

(** ** Helpers of common/async_logger.cpp *)

(** [std::isspace] in the C locale. *)
Definition is_space (c : ascii) : bool :=
  let n := N_of_ascii c in ((n =? 32) || ((9 <=? n) && (n <=? 13)))%N.

(** The [begin] iterator of [TrimPath]. *)
Fixpoint trim_begin (s : string) : string :=
  match s with
  | EmptyString => EmptyString
  | String c s' => if is_space c then trim_begin s' else s
  end.

(** The [end] iterator, as an offset. *)
Fixpoint trim_end (s : string) (end_ : nat) : nat :=
  match end_ with
  | O => O
  | S m =>
      match String.get m s with
      | Some c => if is_space c then trim_end s m else end_
      | None => end_
      end
  end.

Definition TrimPath (raw : string) : string :=
  match trim_begin raw with
  | EmptyString => EmptyString
  | s => String.substring 0 (trim_end s (String.length s)) s
  end.

(** [std::to_chars] of an unsigned integer into [n] characters. *)
Definition to_chars (n : nat) (value : Z) : option string :=
  let digits := to_string value in
  if (String.length digits <=? n)%nat then Some digits else None.

Definition AppendUnsigned (out : string) (value : Z) : string :=
  match to_chars 24 value with
  | Some digits => out +:+ digits
  | None => out +:+ "0"
  end.

(** ['0' + n]. *)
Definition digit (n : Z) : ascii := ascii_of_N (Z.to_N (48 + n)).

Definition push_back (out : string) (c : ascii) : string := out +:+ String c "".

Definition AppendMilliseconds3 (out : string) (ms : Z) : string :=
  let safe_ms := Z.max 0 (Z.min 999 ms) in
  let out := push_back out (digit (Z.quot safe_ms 100)) in
  let out := push_back out (digit (Z.rem (Z.quot safe_ms 10) 10)) in
  push_back out (digit (Z.rem safe_ms 10)).

(** [std::memcpy] of the first [n] characters of [src] to the start of [dst]. *)
Definition memcpy (dst src : list ascii) (n : nat) : list ascii := take n src ++ drop n dst.

Fixpoint chars (s : string) : list ascii :=
  match s with
  | EmptyString => []
  | String c s => c :: chars s
  end.

Fixpoint of_chars (l : list ascii) : string :=
  match l with
  | [] => EmptyString
  | c :: l => String c (of_chars l)
  end.

Record ThreadIdCache := { text : list ascii; size : nat }.

(** [tid_hash] is the hash of the thread's id. *)
Definition CurrentThreadIdCache (tid_hash : Z) : ThreadIdCache :=
  match to_chars 24 tid_hash with
  | Some digits =>
      {| text := memcpy (replicate 24 "000"%char) (chars digits) (String.length digits);
         size := String.length digits |}
  | None => {| text := "0"%char :: replicate 23 "000"%char; size := 1 |}
  end.

(** ** SmallLogMessage *)

Module SmallLogMessage.

Definition kInlineCapacity : Z := 112.

Record t := {
  using_heap_ : bool;
  inline_size_ : Z;
  inline_buffer_ : list ascii;
  heap_buffer_ : string;
}.

Definition make : t :=
  {| using_heap_ := false; inline_size_ := 0;
     inline_buffer_ := replicate (Z.to_nat kInlineCapacity) "000"%char; heap_buffer_ := "" |}.

(** [inline_size_] is a 16-bit integer. *)
Definition Assign (m : t) (message : string) (inline_limit : Z) : t :=
  let threshold := Z.max 1 (Z.min inline_limit kInlineCapacity) in
  if Z.of_nat (String.length message) <=? threshold then
    {| using_heap_ := false; inline_size_ := Z.of_nat (String.length message) mod 2 ^ 16;
       inline_buffer_ := memcpy (inline_buffer_ m) (chars message) (String.length message);
       heap_buffer_ := "" |}
  else
    {| using_heap_ := true; inline_size_ := 0; inline_buffer_ := inline_buffer_ m;
       heap_buffer_ := message |}.

Definition View (m : t) : string :=
  if using_heap_ m then heap_buffer_ m
  else of_chars (take (Z.to_nat (inline_size_ m)) (inline_buffer_ m)).

End SmallLogMessage.

(** ** LogEntry *)

Record LogEntry := {
  timestamp : Z;
  level : LogLevel;
  tid_text : list ascii;
  tid_size : nat;
  file_name : string;
  line : Z;
  function_name : string;
  message : SmallLogMessage.t;
}.

(** What [Submit] fills in. *)
Definition make_entry (now : Z) (lv : LogLevel) (tid : ThreadIdCache) (file : string) (ln : Z)
    (func msg : string) (threshold : Z) : LogEntry :=
  {| timestamp := now; level := lv;
     tid_text := memcpy (replicate 24 "000"%char) (text tid) (size tid); tid_size := size tid;
     file_name := file; line := ln; function_name := func;
     message := SmallLogMessage.Assign SmallLogMessage.make msg threshold |}.

(** ** Formatting *)

Definition EstimateFormattedBatchBytes (batch : list LogEntry) : nat :=
  let total :=
    fold_left (fun total e =>
      (total + 48 + tid_size e + String.length (file_name e) + String.length (function_name e)
       + String.length (SmallLogMessage.View (message e)) + 12)%nat) batch 0%nat in
  (total + length batch * 8)%nat.

Record second_cache := { cached_second_ : Z; cached_second_text_ : string }.

Definition second_cache_new : second_cache :=
  {| cached_second_ := -1; cached_second_text_ := "" |}.

Section format.

(** The text of a second in local time, or [None] when [strftime] returns 0. *)
Context (strftime : Z -> option string).

Definition second_text (sec : Z) : string :=
  match strftime sec with
  | Some t => t
  | None => "1970-01-01 00:00:00"
  end.

Definition AppendFormattedEntry (c : second_cache) (e : LogEntry) (out : string)
    : second_cache * string :=
  let ms := Z.rem (Z.quot (timestamp e) 1000000) 1000 in
  let sec := Z.quot (timestamp e) 1000000000 in
  let c :=
    if sec =? cached_second_ c then c
    else {| cached_second_ := sec; cached_second_text_ := second_text sec |} in
  let out := push_back out "[" in
  let out := out +:+ cached_second_text_ c in
  let out := push_back out "." in
  let out := AppendMilliseconds3 out ms in
  let out := out +:+ "][" in
  let out := out +:+ LogLevelName (level e) in
  let out := out +:+ "][tid=" in
  let out := out +:+ of_chars (take (tid_size e) (tid_text e)) in
  let out := out +:+ "] " in
  let out := out +:+ file_name e in
  let out := push_back out ":" in
  let out := AppendUnsigned out (line e) in
  let out := push_back out " " in
  let out := out +:+ function_name e in
  let out := out +:+ " | " in
  let out := out +:+ SmallLogMessage.View (message e) in
  (c, push_back out "010").

Fixpoint FormatBatch_loop (c : second_cache) (batch : list LogEntry) (out : string)
    : second_cache * string :=
  match batch with
  | [] => (c, out)
  | e :: batch => let '(c, out) := AppendFormattedEntry c e out in FormatBatch_loop c batch out
  end.

Definition FormatBatch (c : second_cache) (batch : list LogEntry) : second_cache * string :=
  FormatBatch_loop c batch "".

End format.

(** ** Lemmas *)

Lemma of_chars_chars s : of_chars (chars s) = s.
Proof. induction s as [|c s IH]; [done|]. simpl. by rewrite IH. Qed.

Lemma length_chars s : length (chars s) = String.length s.
Proof. induction s as [|c s IH]; [done|]. simpl. by rewrite IH. Qed.

Lemma length_of_chars l : String.length (of_chars l) = length l.
Proof. induction l as [|c l IH]; [done|]. simpl. by rewrite IH. Qed.

Lemma length_memcpy dst src n :
  (n <= length src)%nat -> (n <= length dst)%nat -> length (memcpy dst src n) = length dst.
Proof. intros. unfold memcpy. rewrite length_app, length_take, length_drop. lia. Qed.

Lemma take_memcpy dst src n : (n <= length src)%nat -> take n (memcpy dst src n) = take n src.
Proof.
  intros. unfold memcpy. rewrite take_app_le by (rewrite length_take; lia).
  rewrite take_take. f_equal. lia.
Qed.

Lemma memcpy_chars dst s : take (String.length s) (memcpy dst (chars s) (String.length s)) = chars s.
Proof. rewrite take_memcpy, <- length_chars by (rewrite length_chars; lia). by rewrite firstn_all. Qed.

Lemma to_chars_u64 z : z < 2 ^ 64 -> to_chars 24 z = Some (to_string z).
Proof.
  intros Hz. unfold to_chars.
  assert (String.length (to_string z) <= 24)%nat as ->%Nat.leb_le; [|done].
  apply length_to_string; [lia|]. change (10 ^ Z.of_nat 24) with 1000000000000000000000000. lia.
Qed.

Lemma tid_text_of_hash h :
  h < 2 ^ 64 -> of_chars (take (size (CurrentThreadIdCache h)) (text (CurrentThreadIdCache h))) = to_string h.
Proof.
  intros Hh. unfold CurrentThreadIdCache. rewrite to_chars_u64 by done. cbn [size text].
  by rewrite memcpy_chars, of_chars_chars.
Qed.

(** The message container gives back what was put into it, whatever it held
    before, and never writes past its inline buffer. *)
Lemma SmallLogMessage_roundtrip m msg limit :
  length (SmallLogMessage.inline_buffer_ m) = Z.to_nat SmallLogMessage.kInlineCapacity ->
  let m' := SmallLogMessage.Assign m msg limit in
  SmallLogMessage.View m' = msg /\
  length (SmallLogMessage.inline_buffer_ m') = Z.to_nat SmallLogMessage.kInlineCapacity.
Proof.
  intros Hm m'. unfold m', SmallLogMessage.Assign, SmallLogMessage.View,
    SmallLogMessage.kInlineCapacity in *.
  destruct (Z.leb_spec (Z.of_nat (String.length msg)) (Z.max 1 (Z.min limit 112))) as [Hl|Hl];
    cbn [SmallLogMessage.using_heap_ SmallLogMessage.inline_size_ SmallLogMessage.inline_buffer_
         SmallLogMessage.heap_buffer_]; [|done].
  rewrite Z.mod_small by lia. rewrite Nat2Z.id, memcpy_chars, of_chars_chars.
  split; [done|]. rewrite length_memcpy; rewrite ?length_chars; lia.
Qed.

Lemma View_make_entry now lv tid file ln func msg th :
  SmallLogMessage.View (message (make_entry now lv tid file ln func msg th)) = msg.
Proof. by apply SmallLogMessage_roundtrip. Qed.

Lemma length_push_back s c : String.length (push_back s c) = S (String.length s).
Proof. unfold push_back. rewrite string_length_app. simpl. lia. Qed.

Definition is_sep (c : ascii) : bool := Ascii.eqb c "/" || Ascii.eqb c "\".

Definition has_sep (s : string) : bool := existsb is_sep (chars s).

(** Empty, or ending in a separator. *)
Definition is_dir (s : string) : Prop := s = "" \/ exists s' c, s = push_back s' c /\ is_sep c = true.

Lemma chars_app s1 s2 : chars (s1 +:+ s2) = chars s1 ++ chars s2.
Proof.
  induction s1 as [|c s1 IH]; [done|]. change (c :: chars (s1 +:+ s2) = c :: chars s1 ++ chars s2).
  by rewrite IH.
Qed.

Lemma Basename_loop_spec p : forall dir seen,
  is_dir dir -> has_sep seen = false ->
  exists dir', dir +:+ seen +:+ p = dir' +:+ Basename_loop (seen +:+ p) p /\
    is_dir dir' /\ has_sep (Basename_loop (seen +:+ p) p) = false.
Proof.
  induction p as [|c p IH]; intros dir seen Hd Hs; cbn [Basename_loop].
  - exists dir. by rewrite string_app_nil_r.
  - change (Ascii.eqb c "/" || Ascii.eqb c "\") with (is_sep c).
    destruct (is_sep c) eqn:Ec.
    + destruct (IH (dir +:+ push_back seen c) "") as (dir' & E & Hd' & Hs'); [|done|].
      { right. exists (dir +:+ seen), c. unfold push_back. by rewrite string_app_assoc. }
      change ("" +:+ p) with p in *. exists dir'. rewrite <- E. split; [|done].
      unfold push_back. by rewrite !string_app_assoc.
    + destruct (IH dir (push_back seen c)) as (dir' & E & Hd' & Hs'); [done| |].
      { unfold has_sep, push_back. rewrite chars_app, existsb_app. cbn. by rewrite Ec, orb_false_r. }
      assert (push_back seen c +:+ p = seen +:+ String c p) as Ep.
      { unfold push_back. by rewrite string_app_assoc. }
      rewrite Ep in *. by exists dir'.
Qed.

(** [Basename] splits a path after its last separator. *)
Lemma Basename_spec path :
  exists dir, path = dir +:+ Basename path /\ is_dir dir /\ has_sep (Basename path) = false.
Proof. apply (Basename_loop_spec path "" ""); [by left|done]. Qed.

(** *** [TrimPath] *)

Definition blank (s : string) : bool := forallb is_space (chars s).

Lemma trim_begin_spec s :
  exists l, s = l +:+ trim_begin s /\ blank l = true /\
    match trim_begin s with EmptyString => True | String c _ => is_space c = false end.
Proof.
  induction s as [|c s IH]; [by exists ""|]. cbn [trim_begin].
  destruct (is_space c) eqn:Ec.
  - destruct IH as (l & E & Hl & H). exists (String c l). split; [|split; [|done]].
    + change (String c s = String c (l +:+ trim_begin s)). by rewrite <- E.
    + unfold blank. simpl. by rewrite Ec.
  - exists "". by rewrite Ec.
Qed.

Lemma get_chars s : forall n, String.get n s = chars s !! n.
Proof. induction s as [|c s IH]; intros [|n]; simpl; auto. Qed.

Lemma chars_substring s : forall n, chars (String.substring 0 n s) = take n (chars s).
Proof.
  induction s as [|c s IH]; intros [|n]; [done..|]. simpl. by rewrite <- IH.
Qed.

Lemma trim_end_spec s n :
  (n <= length (chars s))%nat ->
  (trim_end s n <= n)%nat /\
  forallb is_space (drop (trim_end s n) (take n (chars s))) = true /\
  match trim_end s n with
  | O => True
  | S m => exists c, chars s !! m = Some c /\ is_space c = false
  end.
Proof.
  induction n as [|n IH]; intros Hn; [done|]. cbn [trim_end]. rewrite get_chars.
  destruct (chars s !! n) as [c|] eqn:E; [|apply lookup_ge_None in E; lia].
  destruct (is_space c) eqn:Ec.
  - destruct IH as (H1 & H2 & H3); [lia|]. split; [lia|]. split; [|done].
    rewrite (take_S_r _ _ _ E), drop_app_le by (rewrite length_take; lia).
    by rewrite forallb_app, H2; simpl; rewrite Ec.
  - split; [lia|]. split; [|by exists c]. by rewrite drop_ge by (rewrite length_take; lia).
Qed.

(** [TrimPath] removes exactly the white space at both ends. *)
Lemma TrimPath_spec raw :
  exists l r, chars raw = l ++ chars (TrimPath raw) ++ r /\
    forallb is_space l = true /\ forallb is_space r = true /\
    (forall c, head (chars (TrimPath raw)) = Some c -> is_space c = false) /\
    (forall c, last (chars (TrimPath raw)) = Some c -> is_space c = false).
Proof.
  destruct (trim_begin_spec raw) as (l & E & Hl & Hh). unfold TrimPath.
  remember (trim_begin raw) as s eqn:Es. clear Es. subst raw. rewrite chars_app.
  destruct s as [|c0 s']; [by exists (chars l), []|].
  set (s := String c0 s') in *.
  destruct (trim_end_spec s (String.length s)) as (H1 & H2 & H3); [by rewrite length_chars|].
  assert (take (String.length s) (chars s) = chars s) as Ht
    by (rewrite <- length_chars; apply firstn_all).
  rewrite Ht in H2. set (n := trim_end s (String.length s)) in *.
  exists (chars l), (drop n (chars s)). rewrite chars_substring, take_drop.
  split; [done|]. split; [done|]. split; [done|]. split.
  - intros c. destruct n; simpl; [done|]. intros [= <-]. exact Hh.
  - intros c. rewrite last_lookup, length_take.
    rewrite Nat.min_l by (rewrite length_chars; lia). destruct n as [|m]; [done|].
    destruct H3 as (c' & Hc & Hsp). change (Nat.pred (S m)) with m. rewrite lookup_take_lt by lia. naive_solver.
Qed.

(** *** What a log call prints *)

(** The arguments of a log call, with what its thread and the clock add. *)
Record log_call := {
  call_time : Z;
  call_level : LogLevel;
  call_tid : Z;
  call_file : string;
  call_line : Z;
  call_function : string;
  call_message : string;
}.

(** The ranges of the types of the source; the clock is past the epoch. *)
Definition call_ok (c : log_call) : Prop :=
  0 <= call_time c /\ 0 <= call_tid c < 2 ^ 64 /\ 0 <= call_line c < 2 ^ 32.

(** The entry [Submit] makes of the call. *)
Definition entry_of_call (threshold : Z) (c : log_call) : LogEntry :=
  make_entry (call_time c) (call_level c) (CurrentThreadIdCache (call_tid c))
    (Basename (call_file c)) (call_line c) (call_function c) (call_message c) threshold.

Definition pad3 (n : Z) : string := String.substring 1 3 (to_string (1000 + n)).

Lemma AppendMilliseconds3_spec out ms :
  0 <= ms < 1000 -> AppendMilliseconds3 out ms = out +:+ pad3 ms.
Proof.
  intros Hms. unfold AppendMilliseconds3, push_back. rewrite !string_app_assoc. f_equal.
  assert (forallb (fun n => String.eqb
    (String (digit (Z.quot (Z.max 0 (Z.min 999 (Z.of_nat n))) 100)) "" +:+
     String (digit (Z.rem (Z.quot (Z.max 0 (Z.min 999 (Z.of_nat n))) 10) 10)) "" +:+
     String (digit (Z.rem (Z.max 0 (Z.min 999 (Z.of_nat n))) 10)) "") (pad3 (Z.of_nat n)))
    (seq 0 1000) = true) as H by (vm_compute; reflexivity).
  rewrite forallb_forall in H. specialize (H (Z.to_nat ms)).
  rewrite Z2Nat.id in H by lia. apply String.eqb_eq, H, in_seq. lia.
Qed.

Section lines.
Context (strftime : Z -> option string).

(** The line the documentation promises. *)
Definition log_line (c : log_call) : string :=
  "[" +:+ second_text strftime (call_time c / 10 ^ 9) +:+ "." +:+
  pad3 (call_time c / 10 ^ 6 mod 1000) +:+ "][" +:+ LogLevelName (call_level c) +:+ "][tid=" +:+
  to_string (call_tid c) +:+ "] " +:+ Basename (call_file c) +:+ ":" +:+ to_string (call_line c) +:+
  " " +:+ call_function c +:+ " | " +:+ call_message c +:+ String "010" "".

(** The cache is empty or holds the text of its second. *)
Definition cache_ok (k : second_cache) : Prop :=
  cached_second_ k = -1 \/ cached_second_text_ k = second_text strftime (cached_second_ k).

Lemma AppendFormattedEntry_line k th c out :
  call_ok c -> cache_ok k ->
  exists k', AppendFormattedEntry strftime k (entry_of_call th c) out = (k', out +:+ log_line c) /\
    cache_ok k'.
Proof.
  intros (Ht & Htid & Hln) Hk. unfold AppendFormattedEntry.
  change (timestamp (entry_of_call th c)) with (call_time c).
  set (sec := Z.quot (call_time c) 1000000000).
  assert (sec = call_time c / 10 ^ 9) as Esec by (apply Z.quot_div_nonneg; lia).
  assert (0 <= sec) as Hsec by (rewrite Esec; apply Z.div_pos; lia).
  set (k' := if sec =? cached_second_ k then k else _).
  assert (cached_second_text_ k' = second_text strftime sec /\ cache_ok k') as [Ek Hk'].
  { unfold k'. destruct (Z.eqb_spec sec (cached_second_ k)) as [E|E].
    - split; [|done]. rewrite E. destruct Hk as [Hk|Hk]; [lia|done].
    - split; [done|]. by right. }
  exists k'. split; [|done]. f_equal. rewrite Ek, Esec. clearbody k'. clear k Hk Ek Hk'.
  rewrite (Z.quot_div_nonneg (call_time c)), Z.rem_mod_nonneg by (try apply Z.div_pos; lia).
  rewrite AppendMilliseconds3_spec by (apply Z.mod_pos_bound; lia).
  unfold AppendUnsigned.
  change (line (entry_of_call th c)) with (call_line c). rewrite to_chars_u64 by lia.
  unfold entry_of_call at 1 2 3 4 5 6. rewrite View_make_entry.
  cbn [level tid_size tid_text file_name line function_name make_entry].
  rewrite take_memcpy, tid_text_of_hash.
  all: try lia.
  2: { unfold CurrentThreadIdCache. rewrite to_chars_u64 by lia. cbn [size text].
       rewrite length_memcpy, length_replicate; rewrite ?length_chars, ?length_replicate;
       pose proof (length_to_string 24 (call_tid c)); lia. }
  unfold push_back, log_line. by rewrite !string_app_assoc.
Qed.

Definition join_lines (calls : list log_call) : string :=
  foldr (fun c s => log_line c +:+ s) "" calls.

Lemma join_lines_app l1 l2 : join_lines (l1 ++ l2) = join_lines l1 +:+ join_lines l2.
Proof.
  induction l1 as [|c l1 IH]; [done|].
  change (log_line c +:+ join_lines (l1 ++ l2) = (log_line c +:+ join_lines l1) +:+ join_lines l2).
  by rewrite IH, string_app_assoc.
Qed.

Lemma FormatBatch_loop_lines entries calls :
  Forall2 (fun e c => (exists th, e = entry_of_call th c) /\ call_ok c) entries calls ->
  forall k out, cache_ok k ->
  exists k', FormatBatch_loop strftime k entries out = (k', out +:+ join_lines calls) /\ cache_ok k'.
Proof.
  induction 1 as [|e c es cs ((th & ->) & Hc) _ IH]; intros k out Hk; cbn [FormatBatch_loop].
  - exists k. by rewrite string_app_nil_r.
  - destruct (AppendFormattedEntry_line k th c out Hc Hk) as (k1 & -> & Hk1).
    destruct (IH k1 (out +:+ log_line c) Hk1) as (k2 & -> & Hk2).
    exists k2. split; [|done]. f_equal. by rewrite string_app_assoc.
Qed.

(** The line of an entry, formatted without a cache. *)
Definition entry_line (e : LogEntry) : string :=
  snd (AppendFormattedEntry strftime second_cache_new e "").

Lemma AppendFormattedEntry_plain k e out :
  0 <= timestamp e -> cache_ok k ->
  exists k', AppendFormattedEntry strftime k e out = (k', out +:+ entry_line e) /\ cache_ok k'.
Proof.
  intros Ht Hk. unfold entry_line, AppendFormattedEntry. cbv zeta.
  set (sec := Z.quot (timestamp e) 1000000000).
  assert (0 <= sec) as Hsec by (apply Z.quot_pos; lia).
  set (k' := if sec =? cached_second_ k then k else _).
  assert (cached_second_text_ k' = second_text strftime sec /\ cache_ok k') as [Ek Hk'].
  { unfold k'. destruct (Z.eqb_spec sec (cached_second_ k)) as [E|E].
    - split; [|done]. rewrite E. destruct Hk as [Hk|Hk]; [lia|done].
    - split; [done|]. by right. }
  exists k'. split; [|done]. f_equal.
  assert ((sec =? cached_second_ second_cache_new) = false) as -> by (simpl; lia).
  cbn [cached_second_text_ snd]. rewrite Ek.
  unfold AppendUnsigned, AppendMilliseconds3, push_back.
  destruct (to_chars 24 (line e)); by rewrite !string_app_assoc.
Qed.

Lemma entry_line_call th c : call_ok c -> entry_line (entry_of_call th c) = log_line c.
Proof.
  intros Hc. unfold entry_line.
  destruct (AppendFormattedEntry_line second_cache_new th c "" Hc) as (k' & -> & _); [by left|done].
Qed.

Definition concat_lines (es : list LogEntry) : string := foldr (fun e s => entry_line e +:+ s) "" es.

Lemma FormatBatch_plain es k :
  Forall (fun e => 0 <= timestamp e) es -> cache_ok k ->
  exists k', FormatBatch strftime k es = (k', concat_lines es) /\ cache_ok k'.
Proof.
  intros Hf. unfold FormatBatch. change (concat_lines es) with ("" +:+ concat_lines es).
  generalize "" as out. revert k.
  induction Hf as [|e es He Hf IH]; intros k out Hk; cbn [FormatBatch_loop].
  - exists k. by rewrite string_app_nil_r.
  - destruct (AppendFormattedEntry_plain k e out He Hk) as (k1 & -> & Hk1).
    destruct (IH k1 (out +:+ entry_line e) Hk1) as (k2 & -> & Hk2).
    exists k2. split; [|done]. f_equal. by rewrite string_app_assoc.
Qed.

(** *** The size of the text *)

(** [strftime] writes at most 31 characters and the terminator into the 32 of
    the cache. *)
Context (strftime_fits : forall sec t, strftime sec = Some t -> (String.length t <= 31)%nat).

Definition cache_fits (k : second_cache) : Prop :=
  (String.length (cached_second_text_ k) <= 31)%nat.

Definition estimate (e : LogEntry) : nat :=
  (68 + tid_size e + String.length (file_name e) + String.length (function_name e)
   + String.length (SmallLogMessage.View (message e)))%nat.

Lemma Estimate_sum batch :
  EstimateFormattedBatchBytes batch = sum_list (map estimate batch).
Proof.
  unfold EstimateFormattedBatchBytes.
  assert (forall n, fold_left (fun total e =>
      (total + 48 + tid_size e + String.length (file_name e) + String.length (function_name e)
       + String.length (SmallLogMessage.View (message e)) + 12)%nat) batch n
    + length batch * 8 = n + sum_list (map estimate batch))%nat as H; [|by rewrite H].
  induction batch as [|e batch IH]; intros n; simpl; [lia|].
  specialize (IH (n + 48 + tid_size e + String.length (file_name e) +
    String.length (function_name e) + String.length (SmallLogMessage.View (message e)) + 12)%nat).
  lia.
Qed.

Lemma second_text_fits sec : (String.length (second_text strftime sec) <= 31)%nat.
Proof.
  unfold second_text. destruct (strftime sec) as [t|] eqn:E; [by eapply strftime_fits|].
  simpl. lia.
Qed.

Lemma AppendFormattedEntry_fits k e out :
  cache_fits k -> line e < 2 ^ 32 ->
  let '(k', out') := AppendFormattedEntry strftime k e out in
  cache_fits k' /\ (String.length out' <= String.length out + estimate e)%nat.
Proof.
  intros Hk Hl. unfold AppendFormattedEntry.
  set (k' := if _ =? _ then k else _).
  assert (cache_fits k') as Hk'.
  { unfold k'. destruct (_ =? _); [done|]. apply second_text_fits. }
  split; [done|]. unfold cache_fits in Hk'. clearbody k'.
  unfold AppendUnsigned, AppendMilliseconds3, estimate. rewrite to_chars_u64 by lia.
  assert (String.length (to_string (line e)) <= 10)%nat as Hd.
  { apply length_to_string; [lia|]. change (10 ^ Z.of_nat 10) with 10000000000. lia. }
  assert (String.length (LogLevelName (level e)) <= 5)%nat as Hn by (destruct (level e); simpl; lia).
  repeat first [rewrite length_push_back | rewrite string_length_app].
  rewrite length_of_chars, length_take.
  cbn [String.length]. lia.
Qed.
End lines.

(** C20: the text of a batch is the text of its calls: formatting with the one-second
    cache, the inline message buffers and the fixed-size digit buffers prints for
    every call exactly the documented line, in order, and leaves the cache
    consistent for the next batch. *)
Theorem format_batch_lines strftime k entries calls :
  Forall2 (fun e c => (exists th, e = entry_of_call th c) /\ call_ok c) entries calls ->
  cache_ok strftime k ->
  snd (FormatBatch strftime k entries) = join_lines strftime calls /\
  cache_ok strftime (fst (FormatBatch strftime k entries)).
Proof.
  intros Hf Hk. unfold FormatBatch.
  by destruct (FormatBatch_loop_lines strftime entries calls Hf k "" Hk) as (k' & -> & Hk').
Qed.

(** C21: the estimate [FormatBatch] reserves is always enough: whatever the entries
    of a batch hold, the formatted text is at most as long as
    [EstimateFormattedBatchBytes], so that appending never reallocates. *)
Theorem format_fits_estimate strftime k entries :
  (forall sec t, strftime sec = Some t -> (String.length t <= 31)%nat) ->
  cache_fits k -> Forall (fun e => line e < 2 ^ 32) entries ->
  (String.length (snd (FormatBatch strftime k entries)) <= EstimateFormattedBatchBytes entries)%nat.
Proof.
  intros Hs Hk Hf. rewrite Estimate_sum. unfold FormatBatch.
  assert (forall out, (String.length (snd (FormatBatch_loop strftime k entries out)) <=
    String.length out + sum_list (map estimate entries))%nat) as H; [|apply (H "")].
  revert k Hk. induction Hf as [|e es He Hf IH]; intros k Hk out; cbn [FormatBatch_loop]; [simpl; lia|].
  pose proof (AppendFormattedEntry_fits strftime Hs k e out Hk He) as Ha.
  destruct (AppendFormattedEntry strftime k e out) as [k1 out1]. destruct Ha as [Hk1 Ho].
  specialize (IH k1 Hk1 out1). cbn [map]. change (sum_list (estimate e :: ?l)) with (estimate e + sum_list l)%nat. lia.
Qed.

(** ** Witnesses *)

Definition w_strftime (sec : Z) : option string :=
  if sec =? 1700000000 then Some "2023-11-14 22:13:20" else None.

Definition w_log_call : log_call :=
  {| call_time := 1700000000042000000; call_level := kWarn; call_tid := 77;
     call_file := "/src/server/rpc_server.cpp"; call_line := 180;
     call_function := "Start"; call_message := "already running" |}.

Lemma format_batch_lines_witness :
  snd (FormatBatch w_strftime second_cache_new [entry_of_call 112 w_log_call; entry_of_call 4 w_log_call])
  = "[2023-11-14 22:13:20.042][WARN][tid=77] rpc_server.cpp:180 Start | already running
[2023-11-14 22:13:20.042][WARN][tid=77] rpc_server.cpp:180 Start | already running
".
Proof.
  etrans; [apply (format_batch_lines w_strftime second_cache_new
    [entry_of_call 112 w_log_call; entry_of_call 4 w_log_call] [w_log_call; w_log_call])|].
  - repeat constructor; try (eexists; reflexivity); vm_compute; congruence.
  - by left.
  - vm_compute. reflexivity.
Defined.

Lemma format_fits_estimate_witness :
  (String.length (snd (FormatBatch w_strftime second_cache_new [entry_of_call 4 w_log_call]))
   <= EstimateFormattedBatchBytes [entry_of_call 4 w_log_call])%nat.
Proof.
  apply (format_fits_estimate w_strftime second_cache_new).
  - intros sec t. unfold w_strftime. destruct (_ =? _); [|done]. intros [= <-]. simpl. lia.
  - unfold cache_fits. simpl. lia.
  - repeat constructor.
Defined.
