(* ===== verification/AsyncLogger.v ===== *)
(** * The asynchronous logger (common/async_logger.cpp)

    Any number of threads submit, one worker thread consumes, others configure
    and shut down.  Each step below is one access to shared memory (or the
    thread-local work that follows it); a run is any interleaving of steps.  The
    queue is the abstract queue that the ring queue implements, claim and publish
    being two steps.  The kernel's and the clock's side of a worker step is its
    argument [wenv]: the clocks, whether [fopen] succeeds, how much [fwrite]
    takes.  What goes out is the log [io].

    [claimed] (the entries in the order in which the queue took them), [emitted]
    (what the worker has written, as items) and [rejected] (calls after the
    shutdown) are history. *)

From Stdlib Require Import ZArith Lia Ascii.
From S2P Require Import Prelude MpscRingQueue SpecQueue LogFormat.

Local Open Scope string_scope.
Local Open Scope list_scope.
Local Open Scope Z_scope.

(** ** Data *)

Definition kRingCapacity : Z := Z.shiftl 1 18.
Definition kDefaultQueueCapacity : Z := Z.shiftl 1 16.
Definition kDefaultBatchSize : Z := 512.
Definition kDefaultFlushInterval : Z := 500.
Definition kDefaultIdleSleep : Z := 150.
Definition kDropSummaryInterval : Z := 500.
Definition kDefaultInlineMessageCapacity : Z := 112.
Definition kDefaultLogFilePath : string := "./rpc.log".

(** The run-time parameters. *)
Record LoggerParams := {
  queue_capacity_soft_ : Z;
  max_batch_size_ : Z;
  flush_interval_ms_ : Z;
  spin_before_sleep_ : Z;
  idle_sleep_us_ : Z;
  inline_message_threshold_ : Z;
  drop_policy_ : DropPolicy;
  min_level_ : LogLevel;
}.

Definition LoggerParams_default : LoggerParams :=
  {| queue_capacity_soft_ := kDefaultQueueCapacity; max_batch_size_ := kDefaultBatchSize;
     flush_interval_ms_ := kDefaultFlushInterval; spin_before_sleep_ := 128;
     idle_sleep_us_ := kDefaultIdleSleep;
     inline_message_threshold_ := kDefaultInlineMessageCapacity;
     drop_policy_ := DropNewest; min_level_ := kInfo |}.

(** The counters, 64-bit each. *)
Record LoggerCounters := {
  submit_calls_ : Z;
  filtered_by_level_ : Z;
  enqueued_ : Z;
  consumed_ : Z;
  dropped_ : Z;
  dropped_for_summary_ : Z;
}.

Definition LoggerCounters_zero : LoggerCounters :=
  {| submit_calls_ := 0; filtered_by_level_ := 0; enqueued_ := 0; consumed_ := 0;
     dropped_ := 0; dropped_for_summary_ := 0 |}.

(** What the process does to files. *)
Inductive sink := ToFile (path : string) | ToStderr.

Inductive io :=
  | IoOpen (path : string)
  | IoWrite (s : sink) (bytes : string)
  | IoFlush (path : string)
  | IoClose (path : string).

(** What the worker has written. *)
Inductive item :=
  | ItEntry (e : LogEntry)
  | ItSummary (n : Z) (e : LogEntry)
  | ItNotice (text : string).

(** Where a thread is in [Submit]. *)
Inductive sstate :=
  | SIdle
  | SCount (c : log_call)
  | SAccept (c : log_call)
  | SLevel (c : log_call)
  | SFiltered
  | SSoftCap (c : log_call)
  | SInflight (c : log_call) (soft_cap : Z)
  | SBuild (c : log_call)
  | SPush (e : LogEntry)
  | SPublish
  | SInflightAdd
  | SEnqueued
  | SDrop
  | SDropSummary.

(** Where the worker is in [WorkerLoop]; [drained] is what the round popped. *)
Inductive wpoint :=
  | WStart
  | WResize
  | WReopen
  | WLimit
  | WPop (batch : list LogEntry)
  | WTaken (batch : list LogEntry)
  | WCount (batch : list LogEntry)
  | WWrite (batch : list LogEntry)
  | WDrops (drained : nat)
  | WFlush (drained : nat)
  | WStop
  | WIdle
  | WDrain (batch : list LogEntry)
  | WDrainTaken (batch : list LogEntry)
  | WDrainCount (batch : list LogEntry)
  | WDrainWrite (batch : list LogEntry)
  | WLastDrops
  | WLastFlush
  | WExited.

(** What only the worker uses. *)
Record LoggerWorker := {
  point : wpoint;
  batch_limit : nat;
  last_flush : Z;
  last_drop_report : Z;
  pending_drop_summary_ : Z;
  file_ : option string;
  second_ : second_cache;
}.

(** The thread that won the exchange of [Shutdown]. *)
Inductive shstate := ShNone | ShStop | ShJoin | ShDone.

Record AsyncLoggerEngine := {
  queue_ : list (entry LogEntry);
  inflight_count_ : Z;
  params : LoggerParams;
  counters : LoggerCounters;
  accepting_logs_ : bool;
  worker_started_ : bool;
  flush_requested_ : bool;
  reopen_requested_ : bool;
  pending_log_path_ : string;
  stop_requested : bool;
  worker_ : LoggerWorker;
  submitters : list sstate;
  shutdown : shstate;
  ios : list io;
  claimed : list LogEntry;
  emitted : list item;
  rejected : Z;
}.

(** The engine after its constructor, which starts the worker; [n] threads use
    it. *)
Definition make_engine (n : nat) : AsyncLoggerEngine :=
  {| queue_ := []; inflight_count_ := 0; params := LoggerParams_default;
     counters := LoggerCounters_zero; accepting_logs_ := true; worker_started_ := true;
     flush_requested_ := false; reopen_requested_ := false;
     pending_log_path_ := kDefaultLogFilePath; stop_requested := false;
     worker_ := {| point := WStart; batch_limit := 0; last_flush := 0; last_drop_report := 0;
                   pending_drop_summary_ := 0; file_ := None; second_ := second_cache_new |};
     submitters := replicate n SIdle; shutdown := ShNone; ios := []; claimed := [];
     emitted := []; rejected := 0 |}.

(** ** Setters *)

Definition set_params (v : LoggerParams) (g : AsyncLoggerEngine) : AsyncLoggerEngine :=
  {| queue_ := queue_ g; inflight_count_ := inflight_count_ g; params := v; counters :=
     counters g; accepting_logs_ := accepting_logs_ g; worker_started_ := worker_started_ g;
     flush_requested_ := flush_requested_ g; reopen_requested_ := reopen_requested_ g;
     pending_log_path_ := pending_log_path_ g; stop_requested := stop_requested g; worker_
     := worker_ g; submitters := submitters g; shutdown := shutdown g; ios := ios g; claimed
     := claimed g; emitted := emitted g; rejected := rejected g |}.

Definition set_counters (v : LoggerCounters) (g : AsyncLoggerEngine) : AsyncLoggerEngine :=
  {| queue_ := queue_ g; inflight_count_ := inflight_count_ g; params := params g; counters
     := v; accepting_logs_ := accepting_logs_ g; worker_started_ := worker_started_ g;
     flush_requested_ := flush_requested_ g; reopen_requested_ := reopen_requested_ g;
     pending_log_path_ := pending_log_path_ g; stop_requested := stop_requested g; worker_
     := worker_ g; submitters := submitters g; shutdown := shutdown g; ios := ios g; claimed
     := claimed g; emitted := emitted g; rejected := rejected g |}.

Definition set_inflight (v : Z) (g : AsyncLoggerEngine) : AsyncLoggerEngine :=
  {| queue_ := queue_ g; inflight_count_ := v; params := params g; counters := counters g;
     accepting_logs_ := accepting_logs_ g; worker_started_ := worker_started_ g;
     flush_requested_ := flush_requested_ g; reopen_requested_ := reopen_requested_ g;
     pending_log_path_ := pending_log_path_ g; stop_requested := stop_requested g; worker_
     := worker_ g; submitters := submitters g; shutdown := shutdown g; ios := ios g; claimed
     := claimed g; emitted := emitted g; rejected := rejected g |}.

Definition set_queue (v : list (entry LogEntry)) (g : AsyncLoggerEngine) : AsyncLoggerEngine :=
  {| queue_ := v; inflight_count_ := inflight_count_ g; params := params g; counters :=
     counters g; accepting_logs_ := accepting_logs_ g; worker_started_ := worker_started_ g;
     flush_requested_ := flush_requested_ g; reopen_requested_ := reopen_requested_ g;
     pending_log_path_ := pending_log_path_ g; stop_requested := stop_requested g; worker_
     := worker_ g; submitters := submitters g; shutdown := shutdown g; ios := ios g; claimed
     := claimed g; emitted := emitted g; rejected := rejected g |}.

Definition set_accepting (v : bool) (g : AsyncLoggerEngine) : AsyncLoggerEngine :=
  {| queue_ := queue_ g; inflight_count_ := inflight_count_ g; params := params g; counters
     := counters g; accepting_logs_ := v; worker_started_ := worker_started_ g;
     flush_requested_ := flush_requested_ g; reopen_requested_ := reopen_requested_ g;
     pending_log_path_ := pending_log_path_ g; stop_requested := stop_requested g; worker_
     := worker_ g; submitters := submitters g; shutdown := shutdown g; ios := ios g; claimed
     := claimed g; emitted := emitted g; rejected := rejected g |}.

Definition set_started (v : bool) (g : AsyncLoggerEngine) : AsyncLoggerEngine :=
  {| queue_ := queue_ g; inflight_count_ := inflight_count_ g; params := params g; counters
     := counters g; accepting_logs_ := accepting_logs_ g; worker_started_ := v;
     flush_requested_ := flush_requested_ g; reopen_requested_ := reopen_requested_ g;
     pending_log_path_ := pending_log_path_ g; stop_requested := stop_requested g; worker_
     := worker_ g; submitters := submitters g; shutdown := shutdown g; ios := ios g; claimed
     := claimed g; emitted := emitted g; rejected := rejected g |}.

Definition set_flush_requested (v : bool) (g : AsyncLoggerEngine) : AsyncLoggerEngine :=
  {| queue_ := queue_ g; inflight_count_ := inflight_count_ g; params := params g; counters
     := counters g; accepting_logs_ := accepting_logs_ g; worker_started_ := worker_started_
     g; flush_requested_ := v; reopen_requested_ := reopen_requested_ g; pending_log_path_
     := pending_log_path_ g; stop_requested := stop_requested g; worker_ := worker_ g;
     submitters := submitters g; shutdown := shutdown g; ios := ios g; claimed := claimed g;
     emitted := emitted g; rejected := rejected g |}.

Definition set_reopen_requested (v : bool) (g : AsyncLoggerEngine) : AsyncLoggerEngine :=
  {| queue_ := queue_ g; inflight_count_ := inflight_count_ g; params := params g; counters
     := counters g; accepting_logs_ := accepting_logs_ g; worker_started_ := worker_started_
     g; flush_requested_ := flush_requested_ g; reopen_requested_ := v; pending_log_path_ :=
     pending_log_path_ g; stop_requested := stop_requested g; worker_ := worker_ g;
     submitters := submitters g; shutdown := shutdown g; ios := ios g; claimed := claimed g;
     emitted := emitted g; rejected := rejected g |}.

Definition set_path (v : string) (g : AsyncLoggerEngine) : AsyncLoggerEngine :=
  {| queue_ := queue_ g; inflight_count_ := inflight_count_ g; params := params g; counters
     := counters g; accepting_logs_ := accepting_logs_ g; worker_started_ := worker_started_
     g; flush_requested_ := flush_requested_ g; reopen_requested_ := reopen_requested_ g;
     pending_log_path_ := v; stop_requested := stop_requested g; worker_ := worker_ g;
     submitters := submitters g; shutdown := shutdown g; ios := ios g; claimed := claimed g;
     emitted := emitted g; rejected := rejected g |}.

Definition set_stop_requested (v : bool) (g : AsyncLoggerEngine) : AsyncLoggerEngine :=
  {| queue_ := queue_ g; inflight_count_ := inflight_count_ g; params := params g; counters
     := counters g; accepting_logs_ := accepting_logs_ g; worker_started_ := worker_started_
     g; flush_requested_ := flush_requested_ g; reopen_requested_ := reopen_requested_ g;
     pending_log_path_ := pending_log_path_ g; stop_requested := v; worker_ := worker_ g;
     submitters := submitters g; shutdown := shutdown g; ios := ios g; claimed := claimed g;
     emitted := emitted g; rejected := rejected g |}.

Definition set_worker (v : LoggerWorker) (g : AsyncLoggerEngine) : AsyncLoggerEngine :=
  {| queue_ := queue_ g; inflight_count_ := inflight_count_ g; params := params g; counters
     := counters g; accepting_logs_ := accepting_logs_ g; worker_started_ := worker_started_
     g; flush_requested_ := flush_requested_ g; reopen_requested_ := reopen_requested_ g;
     pending_log_path_ := pending_log_path_ g; stop_requested := stop_requested g; worker_
     := v; submitters := submitters g; shutdown := shutdown g; ios := ios g; claimed :=
     claimed g; emitted := emitted g; rejected := rejected g |}.

Definition set_submitters (v : list sstate) (g : AsyncLoggerEngine) : AsyncLoggerEngine :=
  {| queue_ := queue_ g; inflight_count_ := inflight_count_ g; params := params g; counters
     := counters g; accepting_logs_ := accepting_logs_ g; worker_started_ := worker_started_
     g; flush_requested_ := flush_requested_ g; reopen_requested_ := reopen_requested_ g;
     pending_log_path_ := pending_log_path_ g; stop_requested := stop_requested g; worker_
     := worker_ g; submitters := v; shutdown := shutdown g; ios := ios g; claimed := claimed
     g; emitted := emitted g; rejected := rejected g |}.

Definition set_shutdown (v : shstate) (g : AsyncLoggerEngine) : AsyncLoggerEngine :=
  {| queue_ := queue_ g; inflight_count_ := inflight_count_ g; params := params g; counters
     := counters g; accepting_logs_ := accepting_logs_ g; worker_started_ := worker_started_
     g; flush_requested_ := flush_requested_ g; reopen_requested_ := reopen_requested_ g;
     pending_log_path_ := pending_log_path_ g; stop_requested := stop_requested g; worker_
     := worker_ g; submitters := submitters g; shutdown := v; ios := ios g; claimed :=
     claimed g; emitted := emitted g; rejected := rejected g |}.

Definition add_ios (v : list io) (g : AsyncLoggerEngine) : AsyncLoggerEngine :=
  {| queue_ := queue_ g; inflight_count_ := inflight_count_ g; params := params g; counters
     := counters g; accepting_logs_ := accepting_logs_ g; worker_started_ := worker_started_
     g; flush_requested_ := flush_requested_ g; reopen_requested_ := reopen_requested_ g;
     pending_log_path_ := pending_log_path_ g; stop_requested := stop_requested g; worker_
     := worker_ g; submitters := submitters g; shutdown := shutdown g; ios := ios g ++ v;
     claimed := claimed g; emitted := emitted g; rejected := rejected g |}.

Definition add_claimed (v : LogEntry) (g : AsyncLoggerEngine) : AsyncLoggerEngine :=
  {| queue_ := queue_ g; inflight_count_ := inflight_count_ g; params := params g; counters
     := counters g; accepting_logs_ := accepting_logs_ g; worker_started_ := worker_started_
     g; flush_requested_ := flush_requested_ g; reopen_requested_ := reopen_requested_ g;
     pending_log_path_ := pending_log_path_ g; stop_requested := stop_requested g; worker_
     := worker_ g; submitters := submitters g; shutdown := shutdown g; ios := ios g; claimed
     := claimed g ++ [v]; emitted := emitted g; rejected := rejected g |}.

Definition add_emitted (v : list item) (g : AsyncLoggerEngine) : AsyncLoggerEngine :=
  {| queue_ := queue_ g; inflight_count_ := inflight_count_ g; params := params g; counters
     := counters g; accepting_logs_ := accepting_logs_ g; worker_started_ := worker_started_
     g; flush_requested_ := flush_requested_ g; reopen_requested_ := reopen_requested_ g;
     pending_log_path_ := pending_log_path_ g; stop_requested := stop_requested g; worker_
     := worker_ g; submitters := submitters g; shutdown := shutdown g; ios := ios g; claimed
     := claimed g; emitted := emitted g ++ v; rejected := rejected g |}.

Definition add_rejected  (g : AsyncLoggerEngine) : AsyncLoggerEngine :=
  {| queue_ := queue_ g; inflight_count_ := inflight_count_ g; params := params g; counters
     := counters g; accepting_logs_ := accepting_logs_ g; worker_started_ := worker_started_
     g; flush_requested_ := flush_requested_ g; reopen_requested_ := reopen_requested_ g;
     pending_log_path_ := pending_log_path_ g; stop_requested := stop_requested g; worker_
     := worker_ g; submitters := submitters g; shutdown := shutdown g; ios := ios g; claimed
     := claimed g; emitted := emitted g; rejected := rejected g + 1 |}.

Definition at_point (v : wpoint) (w : LoggerWorker) : LoggerWorker :=
  {| point := v; batch_limit := batch_limit w; last_flush := last_flush w; last_drop_report
     := last_drop_report w; pending_drop_summary_ := pending_drop_summary_ w; file_ := file_
     w; second_ := second_ w |}.

Definition set_limit (v : nat) (w : LoggerWorker) : LoggerWorker :=
  {| point := point w; batch_limit := v; last_flush := last_flush w; last_drop_report :=
     last_drop_report w; pending_drop_summary_ := pending_drop_summary_ w; file_ := file_ w;
     second_ := second_ w |}.

Definition set_last_flush (v : Z) (w : LoggerWorker) : LoggerWorker :=
  {| point := point w; batch_limit := batch_limit w; last_flush := v; last_drop_report :=
     last_drop_report w; pending_drop_summary_ := pending_drop_summary_ w; file_ := file_ w;
     second_ := second_ w |}.

Definition set_last_report (v : Z) (w : LoggerWorker) : LoggerWorker :=
  {| point := point w; batch_limit := batch_limit w; last_flush := last_flush w;
     last_drop_report := v; pending_drop_summary_ := pending_drop_summary_ w; file_ := file_
     w; second_ := second_ w |}.

Definition set_pending (v : Z) (w : LoggerWorker) : LoggerWorker :=
  {| point := point w; batch_limit := batch_limit w; last_flush := last_flush w;
     last_drop_report := last_drop_report w; pending_drop_summary_ := v; file_ := file_ w;
     second_ := second_ w |}.

Definition set_file (v : option string) (w : LoggerWorker) : LoggerWorker :=
  {| point := point w; batch_limit := batch_limit w; last_flush := last_flush w;
     last_drop_report := last_drop_report w; pending_drop_summary_ := pending_drop_summary_
     w; file_ := v; second_ := second_ w |}.

Definition set_second (v : second_cache) (w : LoggerWorker) : LoggerWorker :=
  {| point := point w; batch_limit := batch_limit w; last_flush := last_flush w;
     last_drop_report := last_drop_report w; pending_drop_summary_ := pending_drop_summary_
     w; file_ := file_ w; second_ := v |}.

Definition count_submit  (c : LoggerCounters) : LoggerCounters :=
  {| submit_calls_ := wrap64 (submit_calls_ c + 1); filtered_by_level_ := filtered_by_level_
     c; enqueued_ := enqueued_ c; consumed_ := consumed_ c; dropped_ := dropped_ c;
     dropped_for_summary_ := dropped_for_summary_ c |}.

Definition count_filtered  (c : LoggerCounters) : LoggerCounters :=
  {| submit_calls_ := submit_calls_ c; filtered_by_level_ := wrap64 (filtered_by_level_ c +
     1); enqueued_ := enqueued_ c; consumed_ := consumed_ c; dropped_ := dropped_ c;
     dropped_for_summary_ := dropped_for_summary_ c |}.

Definition count_enqueued  (c : LoggerCounters) : LoggerCounters :=
  {| submit_calls_ := submit_calls_ c; filtered_by_level_ := filtered_by_level_ c; enqueued_
     := wrap64 (enqueued_ c + 1); consumed_ := consumed_ c; dropped_ := dropped_ c;
     dropped_for_summary_ := dropped_for_summary_ c |}.

Definition count_dropped  (c : LoggerCounters) : LoggerCounters :=
  {| submit_calls_ := submit_calls_ c; filtered_by_level_ := filtered_by_level_ c; enqueued_
     := enqueued_ c; consumed_ := consumed_ c; dropped_ := wrap64 (dropped_ c + 1);
     dropped_for_summary_ := dropped_for_summary_ c |}.

Definition count_for_summary  (c : LoggerCounters) : LoggerCounters :=
  {| submit_calls_ := submit_calls_ c; filtered_by_level_ := filtered_by_level_ c; enqueued_
     := enqueued_ c; consumed_ := consumed_ c; dropped_ := dropped_ c; dropped_for_summary_
     := wrap64 (dropped_for_summary_ c + 1) |}.

Definition count_consumed (n : nat) (c : LoggerCounters) : LoggerCounters :=
  {| submit_calls_ := submit_calls_ c; filtered_by_level_ := filtered_by_level_ c; enqueued_
     := enqueued_ c; consumed_ := wrap64 (consumed_ c + Z.of_nat n); dropped_ := dropped_ c;
     dropped_for_summary_ := dropped_for_summary_ c |}.

Definition clear_for_summary  (c : LoggerCounters) : LoggerCounters :=
  {| submit_calls_ := submit_calls_ c; filtered_by_level_ := filtered_by_level_ c; enqueued_
     := enqueued_ c; consumed_ := consumed_ c; dropped_ := dropped_ c; dropped_for_summary_
     := 0 |}.

(** ** Configuration *)

(** The stores [Init] and [SetLogFile] make; other threads may run between any
    two of them. *)
Inductive store :=
  | StMinLevel (v : LogLevel)
  | StQueueCapacity (v : Z)
  | StMaxBatch (v : Z)
  | StFlushInterval (v : Z)
  | StSpin (v : Z)
  | StIdleSleep (v : Z)
  | StInlineThreshold (v : Z)
  | StDropPolicy (v : DropPolicy)
  | StPath (v : string)
  | StReopen.

Definition store_param (s : store) (p : LoggerParams) : LoggerParams :=
  {| queue_capacity_soft_ := match s with StQueueCapacity v => v | _ => queue_capacity_soft_ p end;
     max_batch_size_ := match s with StMaxBatch v => v | _ => max_batch_size_ p end;
     flush_interval_ms_ := match s with StFlushInterval v => v | _ => flush_interval_ms_ p end;
     spin_before_sleep_ := match s with StSpin v => v | _ => spin_before_sleep_ p end;
     idle_sleep_us_ := match s with StIdleSleep v => v | _ => idle_sleep_us_ p end;
     inline_message_threshold_ :=
       match s with StInlineThreshold v => v | _ => inline_message_threshold_ p end;
     drop_policy_ := match s with StDropPolicy v => v | _ => drop_policy_ p end;
     min_level_ := match s with StMinLevel v => v | _ => min_level_ p end |}.

Definition apply_store (g : AsyncLoggerEngine) (s : store) : AsyncLoggerEngine :=
  match s with
  | StPath v => set_path v g
  | StReopen => set_reopen_requested true g
  | _ => set_params (store_param s (params g)) g
  end.

Definition ResolveLogPath (options : LoggerOptions) : string :=
  let compat := TrimPath (file_path options) in
  if negb (str_empty compat) then compat
  else if negb (str_empty (log_file_path options)) then log_file_path options
  else kDefaultLogFilePath.

Definition SetLogLevel (level : LogLevel) : list store := [StMinLevel level].

Definition Init_stores (o : LoggerOptions) : list store :=
  SetLogLevel (min_level o) ++
  [StQueueCapacity (Z.max 1 (Z.min (queue_capacity o) kRingCapacity));
   StMaxBatch (Z.max 1 (max_batch_size o));
   StFlushInterval (Z.max 1 (flush_interval o));
   StSpin (Z.max 1 (spin_before_sleep o));
   StIdleSleep (Z.max 0 (idle_sleep o));
   StInlineThreshold
     (Z.max 1 (Z.min (inline_message_threshold o) SmallLogMessage.kInlineCapacity));
   StDropPolicy (drop_policy o);
   StPath (ResolveLogPath o);
   StReopen].

(** The worker is started by the constructor, so the exchange of
    [StartWorkerIfNeeded] fails ever after. *)
Definition StartWorkerIfNeeded (g : AsyncLoggerEngine) : AsyncLoggerEngine :=
  if worker_started_ g then g else set_started true g.

Definition Init (o : LoggerOptions) (g : AsyncLoggerEngine) : AsyncLoggerEngine :=
  if negb (accepting_logs_ g) then g
  else StartWorkerIfNeeded (fold_left apply_store (Init_stores o) g).

Definition SetLogFile_stores (path : string) : list store :=
  let normalized := TrimPath path in
  if str_empty normalized then [] else [StPath normalized; StReopen].

Definition SetLogFile (path : string) (g : AsyncLoggerEngine) : AsyncLoggerEngine :=
  fold_left apply_store (SetLogFile_stores path) g.

Definition GetLogLevel (g : AsyncLoggerEngine) : LogLevel := min_level_ (params g).

Record LoggerRuntimeStats := {
  submit_calls : Z;
  filtered_by_level : Z;
  enqueued : Z;
  consumed : Z;
  dropped : Z;
}.

Definition GetRuntimeStats (g : AsyncLoggerEngine) : LoggerRuntimeStats :=
  let c := counters g in
  {| submit_calls := submit_calls_ c; filtered_by_level := filtered_by_level_ c;
     enqueued := enqueued_ c; consumed := consumed_ c; dropped := dropped_ c |}.

Definition Flush (g : AsyncLoggerEngine) : AsyncLoggerEngine := set_flush_requested true g.

(** ** Submitting *)

(** [SubmitAsyncLog]: the level [kOff] never reaches the engine. *)
Definition SubmitAsyncLog (c : log_call) : option sstate :=
  if decide (call_level c = kOff) then None else Some (SCount c).

Definition count (f : LoggerCounters -> LoggerCounters) (g : AsyncLoggerEngine)
    : AsyncLoggerEngine := set_counters (f (counters g)) g.

(** The next step of thread [t] in [Submit]. *)
Definition Submit_step (t : nat) (s : sstate) (g : AsyncLoggerEngine)
    : sstate * AsyncLoggerEngine :=
  match s with
  | SIdle => (SIdle, g)
  | SCount c => (SAccept c, count count_submit g)
  | SAccept c => if negb (accepting_logs_ g) then (SIdle, add_rejected g) else (SLevel c, g)
  | SLevel c =>
      if LevelValue (call_level c) <? LevelValue (min_level_ (params g)) then (SFiltered, g)
      else (SSoftCap c, g)
  | SFiltered => (SIdle, count count_filtered g)
  | SSoftCap c =>
      let soft_cap := queue_capacity_soft_ (params g) in
      if soft_cap <? kRingCapacity then (SInflight c soft_cap, g) else (SBuild c, g)
  | SInflight c soft_cap =>
      if soft_cap <=? inflight_count_ g then (SDrop, g) else (SBuild c, g)
  | SBuild c => (SPush (entry_of_call (inline_message_threshold_ (params g)) c), g)
  | SPush e =>
      if q_full kRingCapacity (queue_ g) then (SDrop, g)
      else (SPublish, add_claimed e (set_queue (q_claim t e (queue_ g)) g))
  | SPublish => (SInflightAdd, set_queue (q_publish t (queue_ g)) g)
  | SInflightAdd => (SEnqueued, set_inflight (wrap64 (inflight_count_ g + 1)) g)
  | SEnqueued => (SIdle, count count_enqueued g)
  | SDrop => (SDropSummary, count count_dropped g)
  | SDropSummary => (SIdle, count count_for_summary g)
  end.

(** ** Files *)

Definition WriteFallback (bytes : string) : list io :=
  if str_empty bytes then [] else [IoWrite ToStderr bytes].

(** [written] is what [fwrite] takes at most. *)
Definition WriteBuffer (file : option string) (bytes : string) (written : nat) : list io :=
  if str_empty bytes then []
  else
    match file with
    | Some path =>
        let n := Nat.min written (String.length bytes) in
        let w := IoWrite (ToFile path) (String.substring 0 n bytes) in
        if (n =? String.length bytes)%nat then [w]
        else w :: WriteFallback (String.substring n (String.length bytes - n) bytes)
    | None => WriteFallback bytes
    end.

Definition FlushFile (file : option string) : list io :=
  match file with
  | Some path => [IoFlush path]
  | None => []
  end.

Definition CloseFile (file : option string) : list io :=
  match file with
  | Some path => [IoFlush path; IoClose path]
  | None => []
  end.

Definition open_notice (resolved : string) : string :=
  "[LOGGER][ERROR] open file failed: " +:+ resolved +:+ String "010"%char "".

(** [opens]: whether [fopen] succeeds. *)
Definition OpenFile (path : string) (opens : bool) (g : AsyncLoggerEngine) : AsyncLoggerEngine :=
  let resolved := if str_empty path then kDefaultLogFilePath else path in
  let w := worker_ g in
  let g := add_ios (CloseFile (file_ w)) g in
  if opens then
    set_worker (set_file (Some resolved) w) (add_ios [IoOpen resolved] g)
  else
    set_worker (set_file None w)
      (add_emitted [ItNotice (open_notice resolved)] (add_ios (WriteFallback (open_notice resolved)) g)).

(** ** The worker *)

(** The clocks (steady, in milliseconds; system, in nanoseconds), [fopen] and
    [fwrite]. *)
Record wenv := {
  e_now : Z;
  e_wall : Z;
  e_open : bool;
  e_written : nat;
}.

Section worker.
Context (strftime : Z -> option string) (worker_tid : Z).

Definition go (p : wpoint) (g : AsyncLoggerEngine) : AsyncLoggerEngine :=
  set_worker (at_point p (worker_ g)) g.

(** [FormatBatch] and [WriteBuffer]. *)
Definition write_entries (env : wenv) (batch : list LogEntry) (items : list item)
    (g : AsyncLoggerEngine) : AsyncLoggerEngine :=
  let w := worker_ g in
  let '(k, bytes) := FormatBatch strftime (second_ w) batch in
  set_worker (set_second k w)
    (add_emitted items (add_ios (WriteBuffer (file_ w) bytes (e_written env)) g)).

Definition summary_text (n : Z) : string :=
  "dropped " +:+ to_string n +:+ " log entries because queue is full".

Definition summary_entry (env : wenv) (n : Z) : LogEntry :=
  make_entry (e_wall env) kWarn (CurrentThreadIdCache worker_tid) "async_logger" 0
    "EmitDropSummaryIfNeeded" (summary_text n) SmallLogMessage.kInlineCapacity.

Definition EmitDropSummaryIfNeeded (env : wenv) (force_emit : bool) (g : AsyncLoggerEngine)
    : AsyncLoggerEngine :=
  let w := set_pending (wrap64 (pending_drop_summary_ (worker_ g) +
                                dropped_for_summary_ (counters g))) (worker_ g) in
  let g := set_worker w (count clear_for_summary g) in
  let n := pending_drop_summary_ w in
  if n =? 0 then g
  else if negb force_emit && (e_now env - last_drop_report w <? kDropSummaryInterval) then g
  else
    let e := summary_entry env n in
    write_entries env [e] [ItSummary n e]
      (set_worker (set_pending 0 (set_last_report (e_now env) w)) g).

(** The pops of one [PopBatch], then what follows it. *)
Definition pop_step (batch : list LogEntry) (more : list LogEntry -> wpoint)
    (finish : list LogEntry -> wpoint) (g : AsyncLoggerEngine) : AsyncLoggerEngine :=
  if (length batch <? batch_limit (worker_ g))%nat then
    match q_pop (queue_ g) with
    | Some (e, q) => go (more (batch ++ [e])) (set_queue q g)
    | None => go (finish batch) g
    end
  else go (finish batch) g.

Definition after_pop (batch : list LogEntry) : wpoint :=
  match batch with
  | [] => WDrops 0
  | _ => WTaken batch
  end.

Definition after_drain (batch : list LogEntry) : wpoint :=
  match batch with
  | [] => WLastDrops
  | _ => WDrainTaken batch
  end.

Definition release (batch : list LogEntry) (g : AsyncLoggerEngine) : AsyncLoggerEngine :=
  set_inflight (wrap64 (inflight_count_ g - Z.of_nat (length batch))) g.

(** One step of [WorkerLoop]. *)
Definition WorkerLoop_step (env : wenv) (g : AsyncLoggerEngine) : AsyncLoggerEngine :=
  let w := worker_ g in
  match point w with
  | WStart => go WResize (OpenFile (pending_log_path_ g) (e_open env) g)
  | WResize =>
      set_worker
        (at_point WReopen
           (set_limit (Z.to_nat (max_batch_size_ (params g)))
              (set_last_flush (e_now env) (set_last_report (e_now env) w)))) g
  | WReopen =>
      if reopen_requested_ g then
        go WLimit (OpenFile (pending_log_path_ g) (e_open env) (set_reopen_requested false g))
      else go WLimit g
  | WLimit =>
      set_worker (at_point (WPop []) (set_limit (Z.to_nat (max_batch_size_ (params g))) w)) g
  | WPop batch => pop_step batch WPop after_pop g
  | WTaken batch => go (WCount batch) (release batch g)
  | WCount batch => go (WWrite batch) (count (count_consumed (length batch)) g)
  | WWrite batch => go (WDrops (length batch)) (write_entries env batch (map ItEntry batch) g)
  | WDrops drained => go (WFlush drained) (EmitDropSummaryIfNeeded env false g)
  | WFlush drained =>
      let next := if (drained =? 0)%nat then WStop else WReopen in
      if flush_requested_ g || (flush_interval_ms_ (params g) <=? e_now env - last_flush w) then
        set_worker (at_point next (set_last_flush (e_now env) w))
          (add_ios (FlushFile (file_ w)) (set_flush_requested false g))
      else go next g
  | WStop => go (if stop_requested g then WDrain [] else WIdle) g
  | WIdle => go WReopen g
  | WDrain batch => pop_step batch WDrain after_drain g
  | WDrainTaken batch => go (WDrainCount batch) (release batch g)
  | WDrainCount batch => go (WDrainWrite batch) (count (count_consumed (length batch)) g)
  | WDrainWrite batch => go (WDrain []) (write_entries env batch (map ItEntry batch) g)
  | WLastDrops => go WLastFlush (EmitDropSummaryIfNeeded env true g)
  | WLastFlush => go WExited (add_ios (FlushFile (file_ w)) g)
  | WExited => g
  end.

(** ** Shutdown *)

(** The exchange at the start; a second caller returns at once. *)
Definition Shutdown_begin (g : AsyncLoggerEngine) : AsyncLoggerEngine :=
  if accepting_logs_ g then set_shutdown ShStop (set_accepting false g) else g.

(** The next step of the thread that shuts down. *)
Definition Shutdown_step (g : AsyncLoggerEngine) : AsyncLoggerEngine :=
  match shutdown g with
  | ShNone | ShDone => g
  | ShStop =>
      if worker_started_ g then set_shutdown ShJoin (set_stop_requested true g)
      else set_shutdown ShDone (add_ios (CloseFile (file_ (worker_ g))) g)
  | ShJoin =>
      match point (worker_ g) with
      | WExited =>
          set_shutdown ShDone
            (set_worker (set_file None (worker_ g)) (add_ios (CloseFile (file_ (worker_ g))) g))
      | _ => g
      end
  end.

(** ** Runs *)

Inductive action :=
  | ABegin (t : nat) (c : log_call)
  | ASubmit (t : nat)
  | AWorker (env : wenv)
  | AStore (s : store)
  | AFlush
  | AShutdown
  | AShutdownStep.

Definition act (g : AsyncLoggerEngine) (a : action) : AsyncLoggerEngine :=
  match a with
  | ABegin t c =>
      match submitters g !! t, SubmitAsyncLog c with
      | Some SIdle, Some s => set_submitters (<[t := s]> (submitters g)) g
      | _, _ => g
      end
  | ASubmit t =>
      match submitters g !! t with
      | Some s =>
          let '(s', g') := Submit_step t s g in set_submitters (<[t := s']> (submitters g')) g'
      | None => g
      end
  | AWorker env => WorkerLoop_step env g
  | AStore s => apply_store g s
  | AFlush => Flush g
  | AShutdown => Shutdown_begin g
  | AShutdownStep => Shutdown_step g
  end.

Definition run (g : AsyncLoggerEngine) (acts : list action) : AsyncLoggerEngine :=
  fold_left act acts g.

End worker.

(** ** The books: what the counters and the queue mean *)

Definition entries_of (its : list item) : list LogEntry :=
  omap (fun i => match i with ItEntry e => Some e | _ => None end) its.

(** The drops that have been reported. *)
Fixpoint reported (its : list item) : Z :=
  match its with
  | [] => 0
  | ItSummary n _ :: its => n + reported its
  | _ :: its => reported its
  end.

(** The entries the worker has popped and not written yet; how many of them it
    has taken off [inflight_count_] and added to [consumed_]. *)
Definition in_hand (p : wpoint) : list LogEntry :=
  match p with
  | WPop b | WTaken b | WCount b | WWrite b
  | WDrain b | WDrainTaken b | WDrainCount b | WDrainWrite b => b
  | _ => []
  end.

Definition released (p : wpoint) : nat :=
  match p with
  | WCount b | WWrite b | WDrainCount b | WDrainWrite b => length b
  | _ => 0
  end.

Definition consuming (p : wpoint) : nat :=
  match p with
  | WWrite b | WDrainWrite b => length b
  | _ => 0
  end.

(** A submitter between its claim and the increment of [inflight_count_], and
    of [enqueued_]; one whose call is counted but not yet settled; one between
    the two counters of a drop. *)
Definition uncounted (s : sstate) : nat :=
  match s with SPublish | SInflightAdd => 1 | _ => 0 end.

Definition unenqueued (s : sstate) : nat :=
  match s with SPublish | SInflightAdd | SEnqueued => 1 | _ => 0 end.

Definition unsettled (s : sstate) : nat :=
  match s with SIdle | SCount _ | SDropSummary => 0 | _ => 1 end.

Definition dropping (s : sstate) : nat :=
  match s with SDropSummary => 1 | _ => 0 end.

Definition publishing (s : option sstate) : nat :=
  match s with Some SPublish => 1 | _ => 0 end.

Record books (q : list (entry LogEntry)) (inflight : Z) (c : LoggerCounters) (subs : list sstate)
    (cl : list LogEntry) (its : list item) (p : wpoint) (pend rej : Z) : Prop := {
  bk_order : cl = entries_of its ++ in_hand p ++ q_values q;
  bk_published : forall t, unpublished t q = publishing (subs !! t);
  bk_capacity : Z.of_nat (length q) <= kRingCapacity;
  bk_inflight : inflight = wrap64 (Z.of_nat (length cl) - Z.of_nat (tally uncounted subs)
                                   - Z.of_nat (length (entries_of its) + released p));
  bk_enqueued : enqueued_ c = wrap64 (Z.of_nat (length cl) - Z.of_nat (tally unenqueued subs));
  bk_consumed : consumed_ c = wrap64 (Z.of_nat (length (entries_of its) + consuming p));
  bk_settled : submit_calls_ c = wrap64 (filtered_by_level_ c + enqueued_ c + dropped_ c + rej
                                         + Z.of_nat (tally unsettled subs));
  bk_drops : dropped_ c = wrap64 (reported its + pend + dropped_for_summary_ c
                                  + Z.of_nat (tally dropping subs));
}.

Definition logger_ok (g : AsyncLoggerEngine) : Prop :=
  books (queue_ g) (inflight_count_ g) (counters g) (submitters g) (claimed g) (emitted g)
    (point (worker_ g)) (pending_drop_summary_ (worker_ g)) (rejected g).

Lemma entries_of_app l1 l2 : entries_of (l1 ++ l2) = entries_of l1 ++ entries_of l2.
Proof. apply omap_app. Qed.

Lemma reported_app l1 l2 : reported (l1 ++ l2) = reported l1 + reported l2.
Proof. induction l1 as [|[e|n e|s] l1 IH]; simpl; lia. Qed.

Lemma entries_of_entries es : entries_of (map ItEntry es) = es.
Proof. induction es as [|e es IH]; [done|]. change (e :: entries_of (map ItEntry es) = e :: es). by rewrite IH. Qed.

Lemma reported_entries es : reported (map ItEntry es) = 0.
Proof. by induction es. Qed.

Lemma tally_replicate_idle f n : f SIdle = 0%nat -> tally f (replicate n SIdle) = 0%nat.
Proof. intros Hf. apply tally_zero, Forall_replicate. done. Qed.

Lemma make_engine_ok n : logger_ok (make_engine n).
Proof.
  unfold logger_ok, make_engine.
  split; cbn [queue_ inflight_count_ counters submitters claimed emitted worker_ point
    pending_drop_summary_ rejected LoggerCounters_zero submit_calls_ filtered_by_level_ enqueued_
    consumed_ dropped_ dropped_for_summary_]; rewrite ?tally_replicate_idle by done; try done.
  intros t. destruct (decide (t < n)%nat).
  - by rewrite lookup_replicate_2.
  - rewrite lookup_ge_None_2; [done|]. rewrite length_replicate. lia.
Qed.

(** Unfolding of the setters. *)
Ltac logger_simpl :=
  cbn [queue_ inflight_count_ params counters accepting_logs_ worker_started_ flush_requested_
    reopen_requested_ pending_log_path_ stop_requested worker_ submitters shutdown ios claimed emitted
    rejected point batch_limit last_flush last_drop_report pending_drop_summary_ file_ second_
    submit_calls_ filtered_by_level_ enqueued_ consumed_ dropped_ dropped_for_summary_
    set_params set_counters set_inflight set_queue set_accepting set_started set_flush_requested
    set_reopen_requested set_path set_stop_requested set_worker set_submitters set_shutdown add_ios
    add_claimed add_emitted add_rejected at_point set_limit set_last_flush set_last_report
    set_pending set_file set_second count_submit count_filtered count_enqueued count_dropped
    count_for_summary count_consumed clear_for_summary count go release fst snd] in *.

(** Equations between counters. *)
Ltac wrap_solve :=
  first [ rewrite ?wrap64_add_l, ?wrap64_sub_l, ?wrap64_add_r; f_equal; lia
        | unfold wrap64, two64 in *; Z.to_euclidean_division_equations; lia ].

Lemma logger_Submit_ok t s g :
  logger_ok g -> submitters g !! t = Some s ->
  logger_ok (let '(s', g') := Submit_step t s g in set_submitters (<[t := s']> (submitters g')) g').
Proof.
  intros [B1 B2 B3 B4 B5 B6 B7 B8] Es.
  assert (forall (q : list (entry LogEntry)) s', unpublished t q = publishing (Some s') ->
    (forall u, u <> t -> unpublished u q = unpublished u (queue_ g)) ->
    forall u, unpublished u q = publishing (<[t := s']> (submitters g) !! u)) as Hpub.
  { intros q s' H1 H2 u. destruct (decide (u = t)) as [->|Hne].
    - rewrite list_lookup_insert_eq; [done|]. by eapply lookup_lt_Some.
    - rewrite list_lookup_insert_ne by done. rewrite H2 by done. apply B2. }
  pose proof (B2 t) as Hs. rewrite Es in Hs.
  pose proof (fun s' => tally_insert uncounted _ _ _ s' Es) as T1.
  pose proof (fun s' => tally_insert unenqueued _ _ _ s' Es) as T2.
  pose proof (fun s' => tally_insert unsettled _ _ _ s' Es) as T3.
  pose proof (fun s' => tally_insert dropping _ _ _ s' Es) as T4.
  destruct s as [|c|c|c| |c|c cap|c|e| | | | |]; unfold Submit_step;
    repeat match goal with |- context [if ?b then _ else _] => destruct b eqn:? end;
    unfold logger_ok; logger_simpl;
    match goal with |- context [<[t := ?s']> (submitters g)] =>
      specialize (T1 s'); specialize (T2 s'); specialize (T3 s'); specialize (T4 s') end;
    cbn [uncounted unenqueued unsettled dropping publishing] in *.
  all: split; logger_simpl; try done; try (apply Hpub; [done|done]); try wrap_solve.
  - rewrite q_values_claim, B1. by rewrite <- !app_assoc.
  - apply Hpub.
    + rewrite unpublished_claim, Hs, decide_True by done. done.
    + intros u Hu. rewrite unpublished_claim, decide_False by done. lia.
  - unfold q_claim, q_full in *. breflect. rewrite length_app. simpl. lia.
  - rewrite length_app. simpl. wrap_solve.
  - rewrite length_app. simpl. wrap_solve.
  - by rewrite q_values_publish.
  - apply Hpub.
    + rewrite unpublished_publish, Hs, decide_True by done. done.
    + intros u Hu. rewrite unpublished_publish, decide_False by done. lia.
  - by rewrite length_q_publish.
Qed.

(** *** The worker *)

Lemma books_items q i c subs cl its its' p p' pd pd' rej c' :
  books q i c subs cl its p pd rej ->
  entries_of its' = [] ->
  in_hand p' = in_hand p -> released p' = released p -> consuming p' = consuming p ->
  submit_calls_ c' = submit_calls_ c -> filtered_by_level_ c' = filtered_by_level_ c ->
  enqueued_ c' = enqueued_ c -> consumed_ c' = consumed_ c -> dropped_ c' = dropped_ c ->
  wrap64 (reported its' + pd' + dropped_for_summary_ c') = wrap64 (pd + dropped_for_summary_ c) ->
  books q i c' subs cl (its ++ its') p' pd' rej.
Proof.
  intros [B1 B2 B3 B4 B5 B6 B7 B8] He Hh Hr Hc C1 C2 C3 C4 C5 Hd.
  split; rewrite ?entries_of_app, ?He, ?app_nil_r, ?Hh, ?Hr, ?Hc, ?C1, ?C2, ?C3, ?C4, ?C5; try done.
  rewrite reported_app, B8.
  set (d := Z.of_nat (tally dropping subs)).
  transitivity (wrap64 ((reported its + d) + wrap64 (pd + dropped_for_summary_ c)));
    [|rewrite <- Hd]; rewrite wrap64_add_r; f_equal; lia.
Qed.

Lemma books_point q i c subs cl its p p' pd rej :
  books q i c subs cl its p pd rej ->
  in_hand p' = in_hand p -> released p' = released p -> consuming p' = consuming p ->
  books q i c subs cl its p' pd rej.
Proof. intros [] H1 H2 H3. by split; rewrite ?H1, ?H2, ?H3. Qed.

Section worker_lemmas.
Context (strftime : Z -> option string) (worker_tid : Z).

Lemma OpenFile_books g path opens p :
  logger_ok g -> in_hand p = in_hand (point (worker_ g)) ->
  released p = released (point (worker_ g)) -> consuming p = consuming (point (worker_ g)) ->
  logger_ok (go p (OpenFile path opens g)).
Proof.
  intros Hok H1 H2 H3. unfold OpenFile, logger_ok in *.
  destruct opens; logger_simpl; [by eapply books_point|].
  by eapply books_items.
Qed.

Lemma pop_step_ok g batch more finish :
  logger_ok g -> in_hand (point (worker_ g)) = batch ->
  released (point (worker_ g)) = 0%nat -> consuming (point (worker_ g)) = 0%nat ->
  (forall b, in_hand (more b) = b /\ released (more b) = 0%nat /\ consuming (more b) = 0%nat) ->
  in_hand (finish batch) = batch -> released (finish batch) = 0%nat ->
  consuming (finish batch) = 0%nat ->
  logger_ok (pop_step batch more finish g).
Proof.
  intros Hok Hh Hr Hc Hm Hf1 Hf2 Hf3. unfold pop_step.
  assert (logger_ok (go (finish batch) g)) as Hfin.
  { unfold logger_ok. logger_simpl. eapply books_point; [exact Hok|congruence..]. }
  destruct (length batch <? batch_limit (worker_ g))%nat; [|done].
  destruct (q_pop (queue_ g)) as [[e q]|] eqn:Eq; [|done].
  destruct (Hm (batch ++ [e])) as (Hm1 & Hm2 & Hm3).
  destruct (unpublished_pop 0 _ _ _ Eq) as [_ Ev].
  destruct Hok as [B1 B2 B3 B4 B5 B6 B7 B8]. unfold logger_ok. logger_simpl.
  split; rewrite ?Hm1, ?Hm2, ?Hm3, ?Hh, ?Hr, ?Hc in *; try done.
  - rewrite B1, Ev. by rewrite <- !app_assoc.
  - intros t. rewrite <- (proj1 (unpublished_pop t _ _ _ Eq)). apply B2.
  - destruct (queue_ g) as [|[[t x] []] q']; simplify_eq/=. lia.
Qed.

Lemma release_ok g batch p :
  logger_ok g -> in_hand (point (worker_ g)) = batch ->
  released (point (worker_ g)) = 0%nat -> consuming (point (worker_ g)) = 0%nat ->
  in_hand p = batch -> released p = length batch -> consuming p = 0%nat ->
  logger_ok (go p (release batch g)).
Proof.
  intros [B1 B2 B3 B4 B5 B6 B7 B8] Hh Hr Hc P1 P2 P3. unfold logger_ok. logger_simpl.
  split; logger_simpl; rewrite ?P1, ?P2, ?P3, ?Hh, ?Hr, ?Hc in *; try done.
  rewrite B4. wrap_solve.
Qed.

Lemma consume_ok g batch p :
  logger_ok g -> in_hand (point (worker_ g)) = batch ->
  released (point (worker_ g)) = length batch -> consuming (point (worker_ g)) = 0%nat ->
  in_hand p = batch -> released p = length batch -> consuming p = length batch ->
  logger_ok (go p (count (count_consumed (length batch)) g)).
Proof.
  intros [B1 B2 B3 B4 B5 B6 B7 B8] Hh Hr Hc P1 P2 P3. unfold logger_ok. logger_simpl.
  split; logger_simpl; rewrite ?P1, ?P2, ?P3, ?Hh, ?Hr, ?Hc in *; try done.
  rewrite B6. wrap_solve.
Qed.

Lemma write_batch_ok g env batch p :
  logger_ok g -> in_hand (point (worker_ g)) = batch ->
  released (point (worker_ g)) = length batch -> consuming (point (worker_ g)) = length batch ->
  in_hand p = [] -> released p = 0%nat -> consuming p = 0%nat ->
  logger_ok (go p (write_entries strftime env batch (map ItEntry batch) g)).
Proof.
  intros [B1 B2 B3 B4 B5 B6 B7 B8] Hh Hr Hc P1 P2 P3. unfold logger_ok, write_entries.
  destruct (FormatBatch strftime (second_ (worker_ g)) batch) as [k bytes]. logger_simpl.
  split; rewrite ?entries_of_app, ?entries_of_entries, ?reported_app, ?reported_entries, ?P1, ?P2, ?P3,
    ?Hh, ?Hr, ?Hc in *; try done.
  - by rewrite B1, <- !app_assoc.
  - rewrite B4, length_app. f_equal. lia.
  - rewrite B6, length_app. f_equal. lia.
  - rewrite B8. f_equal. lia.
Qed.

Lemma summary_ok g env force p :
  logger_ok g -> in_hand p = in_hand (point (worker_ g)) ->
  released p = released (point (worker_ g)) -> consuming p = consuming (point (worker_ g)) ->
  logger_ok (go p (EmitDropSummaryIfNeeded strftime worker_tid env force g)).
Proof.
  intros Hok H1 H2 H3. unfold EmitDropSummaryIfNeeded. cbv zeta. logger_simpl.
  set (n := wrap64 _).
  assert (logger_ok (go p (set_worker (set_pending n (worker_ g)) (count clear_for_summary g)))) as Hidle.
  { unfold logger_ok. logger_simpl.
    rewrite <- (app_nil_r (emitted g)). eapply books_items; try done. simpl.
    rewrite Z.add_0_r. unfold n, wrap64. by apply Z.mod_mod. }
  destruct (n =? 0); [exact Hidle|]. destruct (negb force && _); [exact Hidle|].
  unfold write_entries. logger_simpl.
  destruct (FormatBatch _ _ _) as [k bytes]. unfold logger_ok. logger_simpl.
  eapply books_items; try done. cbn [reported].
  logger_simpl. f_equal. lia.
Qed.

Lemma WorkerLoop_step_ok env g :
  logger_ok g -> logger_ok (WorkerLoop_step strftime worker_tid env g).
Proof.
  intros Hok. unfold WorkerLoop_step. cbv zeta.
  assert (forall p, in_hand p = in_hand (point (worker_ g)) ->
    released p = released (point (worker_ g)) -> consuming p = consuming (point (worker_ g)) ->
    logger_ok (go p g)) as Hgo.
  { intros p H1 H2 H3. unfold logger_ok. logger_simpl. by eapply books_point. }
  destruct (point (worker_ g)) eqn:Ep;
    try (apply pop_step_ok; rewrite ?Ep; try done; by destruct batch);
    try (apply release_ok; by rewrite ?Ep); try (apply consume_ok; by rewrite ?Ep);
    try (apply write_batch_ok; by rewrite ?Ep); try (apply summary_ok; by rewrite ?Ep);
    try (apply OpenFile_books; by rewrite ?Ep); try done.
  - unfold logger_ok in *. logger_simpl. rewrite Ep in Hok. by eapply books_point.
  - destruct (reopen_requested_ g); [|by apply Hgo].
    apply OpenFile_books; logger_simpl; by rewrite ?Ep.
  - unfold logger_ok in *. logger_simpl. rewrite Ep in Hok. by eapply books_point.
  - destruct (flush_requested_ g || _); [|by apply Hgo; destruct (drained =? 0)%nat].
    unfold logger_ok in *. logger_simpl. rewrite Ep in Hok.
    eapply books_point; [exact Hok|by destruct (drained =? 0)%nat..].
  - apply Hgo; by destruct (stop_requested g).
  - by apply Hgo.
  - unfold logger_ok in *. logger_simpl. rewrite Ep in Hok. by eapply books_point.
Qed.

Lemma logger_act_ok g a : logger_ok g -> logger_ok (act strftime worker_tid g a).
Proof.
  intros Hok. destruct a as [t c|t|env|s| | |]; cbn [act].
  - destruct (submitters g !! t) as [s|] eqn:Es; [|done]. destruct s; try done.
    destruct (SubmitAsyncLog c) as [s|] eqn:Ec; [|done].
    assert (s = SCount c) as -> by (unfold SubmitAsyncLog in Ec; by case_decide; simplify_eq).
    destruct Hok as [B1 B2 B3 B4 B5 B6 B7 B8]. unfold logger_ok. logger_simpl.
    pose proof (tally_insert uncounted _ _ _ (SCount c) Es).
    pose proof (tally_insert unenqueued _ _ _ (SCount c) Es).
    pose proof (tally_insert unsettled _ _ _ (SCount c) Es).
    pose proof (tally_insert dropping _ _ _ (SCount c) Es).
    cbn [uncounted unenqueued unsettled dropping] in *.
    split; try done; try (by etrans; [eassumption|]; f_equal; lia).
    intros u. rewrite B2. destruct (decide (u = t)) as [->|].
    + rewrite list_lookup_insert_eq by (by eapply lookup_lt_Some). by rewrite Es.
    + by rewrite list_lookup_insert_ne.
  - destruct (submitters g !! t) as [s|] eqn:Es; [|done]. by apply logger_Submit_ok.
  - by apply WorkerLoop_step_ok.
  - by destruct s.
  - done.
  - unfold Shutdown_begin. by destruct (accepting_logs_ g).
  - unfold Shutdown_step. destruct (shutdown g); try done.
    + by destruct (worker_started_ g).
    + by destruct (point (worker_ g)).
Qed.

Lemma logger_run_ok acts : forall g, logger_ok g -> logger_ok (run strftime worker_tid g acts).
Proof. induction acts as [|a acts IH]; intros g Hg; [done|]. apply IH. by apply logger_act_ok. Qed.

End worker_lemmas.

(** ** The text that goes out *)

Fixpoint written (l : list io) : string :=
  match l with
  | [] => ""
  | IoWrite _ bytes :: l => bytes +:+ written l
  | _ :: l => written l
  end.

Section text.
Context (strftime : Z -> option string) (worker_tid : Z).

Definition item_text (i : item) : string :=
  match i with
  | ItEntry e | ItSummary _ e => entry_line strftime e
  | ItNotice s => s
  end.

Definition items_text (its : list item) : string := foldr (fun i s => item_text i +:+ s) "" its.

Lemma written_app l1 l2 : written (l1 ++ l2) = written l1 +:+ written l2.
Proof.
  induction l1 as [|[] l1 IH]; [done| |..]; cbn [written app]; try done.
  by rewrite IH, string_app_assoc.
Qed.

Lemma items_text_app l1 l2 : items_text (l1 ++ l2) = items_text l1 +:+ items_text l2.
Proof.
  unfold items_text. induction l1 as [|i l1 IH]; [done|]. cbn [foldr app].
  by rewrite IH, string_app_assoc.
Qed.

Lemma items_text_entries es : items_text (map ItEntry es) = concat_lines strftime es.
Proof.
  unfold items_text, concat_lines. induction es as [|e es IH]; [done|]. cbn [foldr map item_text].
  by rewrite IH.
Qed.

Lemma written_fallback bytes : written (WriteFallback bytes) = bytes.
Proof. unfold WriteFallback. destruct bytes; [done|]. apply string_app_nil_r. Qed.

Lemma written_buffer file bytes n : written (WriteBuffer file bytes n) = bytes.
Proof.
  unfold WriteBuffer. destruct (str_empty bytes) eqn:E; [by destruct bytes|].
  destruct file as [path|]; [|apply written_fallback].
  set (k := Nat.min n (String.length bytes)).
  destruct (Nat.eqb_spec k (String.length bytes)) as [Ek|Ek]; cbn [written].
  - rewrite Ek, string_app_nil_r. apply substring_all.
  - rewrite written_fallback. apply substring_split. lia.
Qed.

Lemma written_close file : written (CloseFile file) = "".
Proof. by destruct file. Qed.

Lemma written_flush file : written (FlushFile file) = "".
Proof. by destruct file. Qed.

(** What the threads hold is stamped after the epoch. *)
Definition stamped (s : sstate) : Prop :=
  match s with
  | SCount c | SAccept c | SLevel c | SSoftCap c | SInflight c _ | SBuild c => 0 <= call_time c
  | SPush e => 0 <= timestamp e
  | _ => True
  end.

Record text_ok (g : AsyncLoggerEngine) : Prop := {
  tx_cache : cache_ok strftime (second_ (worker_ g));
  tx_entries : Forall (fun e => 0 <= timestamp e) (in_hand (point (worker_ g)) ++ q_values (queue_ g));
  tx_subs : Forall stamped (submitters g);
  tx_text : written (ios g) = items_text (emitted g);
}.

(** The clock is past the epoch. *)
Definition clock_ok (a : action) : Prop :=
  match a with
  | ABegin _ c => 0 <= call_time c
  | AWorker env => 0 <= e_wall env
  | _ => True
  end.

Lemma text_keep g g' :
  text_ok g -> second_ (worker_ g') = second_ (worker_ g) ->
  in_hand (point (worker_ g')) ++ q_values (queue_ g') =
    in_hand (point (worker_ g)) ++ q_values (queue_ g) ->
  submitters g' = submitters g ->
  (exists l its, ios g' = ios g ++ l /\ emitted g' = emitted g ++ its /\ written l = items_text its) ->
  text_ok g'.
Proof.
  intros [T1 T2 T3 T4] H1 H2 H3 (l & its & H4 & H5 & H6).
  split; rewrite ?H1, ?H2, ?H3; try done.
  by rewrite H4, H5, written_app, items_text_app, T4, H6.
Qed.

Lemma write_entries_text g env es its p :
  text_ok g -> Forall (fun e => 0 <= timestamp e) es -> items_text its = concat_lines strftime es ->
  Forall (fun e => 0 <= timestamp e) (in_hand p ++ q_values (queue_ g)) ->
  text_ok (go p (write_entries strftime env es its g)).
Proof.
  intros [T1 T2 T3 T4] He Hi Hp. unfold write_entries.
  destruct (FormatBatch_plain strftime es (second_ (worker_ g)) He T1) as (k & -> & Hk).
  split; logger_simpl; try done.
  by rewrite written_app, written_buffer, items_text_app, T4, Hi.
Qed.

Lemma OpenFile_text g path opens p :
  text_ok g -> in_hand p = in_hand (point (worker_ g)) -> text_ok (go p (OpenFile path opens g)).
Proof.
  intros Ht Hp. unfold OpenFile. destruct opens; logger_simpl.
  - apply (text_keep g); try done; logger_simpl; [by rewrite Hp|].
    eexists _, []. rewrite <- app_assoc. split; [done|]. split; [by rewrite app_nil_r|].
    by rewrite written_app, written_close.
  - apply (text_keep g); try done; logger_simpl; [by rewrite Hp|].
    eexists _, _. rewrite <- app_assoc. split; [done|]. split; [done|].
    by rewrite written_app, written_close, written_fallback; simpl; rewrite string_app_nil_r.
Qed.

Lemma summary_text_ok g env force p :
  text_ok g -> 0 <= e_wall env -> in_hand p = in_hand (point (worker_ g)) ->
  text_ok (go p (EmitDropSummaryIfNeeded strftime worker_tid env force g)).
Proof.
  intros Ht Henv Hp. unfold EmitDropSummaryIfNeeded. cbv zeta. logger_simpl.
  set (n := wrap64 _).
  set (g1 := set_worker (set_pending n (worker_ g)) (count clear_for_summary g)).
  assert (text_ok (go p g1)) as Hidle.
  { apply (text_keep g); try done; logger_simpl; [by rewrite Hp|].
    exists [], []. by rewrite !app_nil_r. }
  destruct (n =? 0); [exact Hidle|]. destruct (negb force && _); [exact Hidle|].
  apply write_entries_text; logger_simpl.
  - apply (text_keep g); try done. exists [], []. logger_simpl. by rewrite !app_nil_r.
  - by repeat constructor.
  - done.
  - rewrite Hp. apply Ht.
Qed.

Lemma WorkerLoop_step_text env g :
  0 <= e_wall env -> text_ok g -> text_ok (WorkerLoop_step strftime worker_tid env g).
Proof.
  intros Henv Ht. unfold WorkerLoop_step. cbv zeta.
  assert (forall g', second_ (worker_ g') = second_ (worker_ g) ->
    in_hand (point (worker_ g')) ++ q_values (queue_ g') =
      in_hand (point (worker_ g)) ++ q_values (queue_ g) ->
    submitters g' = submitters g -> emitted g' = emitted g ->
    (exists l, ios g' = ios g ++ l /\ written l = "") -> text_ok g') as Hkeep.
  { intros g' H1 H2 H3 H4 (l & H5 & H6). eapply text_keep; try done.
    exists l, []. by rewrite app_nil_r. }
  assert (forall batch more finish, in_hand (point (worker_ g)) = batch ->
    (forall b, in_hand (more b) = b) -> in_hand (finish batch) = batch ->
    text_ok (pop_step batch more finish g)) as Hpop.
  { intros batch more finish Hb Hm Hf. unfold pop_step.
    assert (text_ok (go (finish batch) g)) as Hfin.
    { apply Hkeep; try done; logger_simpl; [by rewrite Hf, Hb|]. exists []. by rewrite app_nil_r. }
    destruct (_ <? _)%nat; [|done]. destruct (q_pop (queue_ g)) as [[e q]|] eqn:Eq; [|done].
    apply Hkeep; try done; logger_simpl; [|exists []; by rewrite app_nil_r].
    rewrite Hm, Hb, (proj2 (unpublished_pop 0 _ _ _ Eq)). by rewrite <- app_assoc. }
  assert (forall b p, in_hand (point (worker_ g)) = b -> in_hand p = [] ->
    text_ok (go p (write_entries strftime env b (map ItEntry b) g))) as Hwrite.
  { intros b p Hb Hp. pose proof (tx_entries _ Ht) as He. rewrite Hb in He.
    apply Forall_app in He as [He1 He2].
    apply write_entries_text; [done|done|apply items_text_entries|by rewrite Hp]. }
  destruct (point (worker_ g)) eqn:Ep;
    try (apply Hpop; rewrite ?Ep; try done; by destruct batch);
    try (by apply Hwrite); try (apply summary_text_ok; by rewrite ?Ep);
    try (apply OpenFile_text; by rewrite ?Ep); try done;
    try (apply Hkeep; logger_simpl; try done; exists []; by rewrite app_nil_r).
  - destruct (reopen_requested_ g).
    + apply OpenFile_text; [|logger_simpl; by rewrite Ep].
      apply (text_keep g); try done. exists [], []. logger_simpl. by rewrite !app_nil_r.
    + apply Hkeep; logger_simpl; try done. exists []. by rewrite app_nil_r.
  - destruct (flush_requested_ g || _).
    + apply Hkeep; logger_simpl; try done; [by destruct (drained =? 0)%nat|].
      eexists. split; [done|]. apply written_flush.
    + apply Hkeep; logger_simpl; try done; [by destruct (drained =? 0)%nat|].
      exists []. by rewrite app_nil_r.
  - apply Hkeep; logger_simpl; try done; [by destruct (stop_requested g)|].
    exists []. by rewrite app_nil_r.
  - apply Hkeep; logger_simpl; try done. eexists. split; [done|]. apply written_flush.
Qed.

Lemma Submit_step_text t s g :
  text_ok g -> submitters g !! t = Some s ->
  text_ok (let '(s', g') := Submit_step t s g in set_submitters (<[t := s']> (submitters g')) g').
Proof.
  intros [T1 T2 T3 T4] Es.
  assert (stamped s) as Hs by (by eapply Forall_lookup_1).
  destruct s; unfold Submit_step;
    repeat match goal with |- context [if ?b then _ else _] => destruct b eqn:? end;
    split; logger_simpl; try done; try (apply Forall_insert; done).
  - unfold q_claim, q_values. rewrite map_app, app_assoc. apply Forall_app. split; [done|].
    by repeat constructor.
  - by rewrite q_values_publish.
Qed.

Lemma act_text g a : clock_ok a -> text_ok g -> text_ok (act strftime worker_tid g a).
Proof.
  intros Ha Ht. destruct a as [t c|t|env|s| | |]; cbn [act].
  - destruct (submitters g !! t) as [s|] eqn:Es; [|done]. destruct s; try done.
    unfold SubmitAsyncLog. case_decide; [done|]. destruct Ht.
    split; logger_simpl; try done. by apply Forall_insert.
  - destruct (submitters g !! t) as [s|] eqn:Es; [|done]. by apply Submit_step_text.
  - by apply WorkerLoop_step_text.
  - destruct Ht. by destruct s; split.
  - destruct Ht. by split.
  - unfold Shutdown_begin. destruct (accepting_logs_ g); [|done]. destruct Ht. by split.
  - assert (forall sh w, second_ w = second_ (worker_ g) -> point w = point (worker_ g) ->
      text_ok (set_shutdown sh (set_worker w (add_ios (CloseFile (file_ (worker_ g))) g)))) as Hclose.
    { intros sh w H1 H2. apply (text_keep g); logger_simpl; try done; [by rewrite H2|].
      eexists _, []. split; [done|]. rewrite app_nil_r. split; [done|]. apply written_close. }
    unfold Shutdown_step. destruct (shutdown g); try done.
    + destruct (worker_started_ g); [destruct Ht; by split|]. by apply (Hclose ShDone (worker_ g)).
    + destruct (point (worker_ g)) eqn:Ep; try done. by apply Hclose.
Qed.

Lemma run_text acts : forall g,
  Forall clock_ok acts -> text_ok g -> text_ok (run strftime worker_tid g acts).
Proof.
  induction acts as [|a acts IH]; intros g Ha Hg; [done|]. inversion_clear Ha.
  apply IH; [done|]. by apply act_text.
Qed.

Lemma make_engine_text n : text_ok (make_engine n).
Proof.
  split; cbn; try done; [by left|]. by apply Forall_replicate.
Qed.

End text.

(** ** Shutting down *)

Definition store_ok (s : store) : Prop :=
  match s with StMaxBatch v => 1 <= v | _ => True end.

Lemma Init_stores_ok o : Forall store_ok (Init_stores o).
Proof. repeat constructor. cbn. lia. Qed.

Lemma SetLogFile_stores_ok path : Forall store_ok (SetLogFile_stores path).
Proof. unfold SetLogFile_stores. destruct (str_empty _); by repeat constructor. Qed.

(** Every store is one that [Init] or [SetLogFile] makes. *)
Definition stores_ok (a : action) : Prop :=
  match a with AStore s => store_ok s | _ => True end.

(** A submitter that will still see [accepting_logs_]. *)
Definition harmless (s : sstate) : bool :=
  match s with SIdle | SCount _ | SAccept _ => true | _ => false end.

(** The worker has left its loop; it has left the final drain. *)
Definition finishing (p : wpoint) : bool :=
  match p with
  | WDrain _ | WDrainTaken _ | WDrainCount _ | WDrainWrite _ | WLastDrops | WLastFlush | WExited => true
  | _ => false
  end.

Definition drained (p : wpoint) : bool :=
  match p with WLastDrops | WLastFlush | WExited => true | _ => false end.

Record lifecycle (g : AsyncLoggerEngine) : Prop := {
  lc_started : worker_started_ g = true;
  lc_accepting : accepting_logs_ g = true <-> shutdown g = ShNone;
  lc_stop : shutdown g = ShNone \/ shutdown g = ShStop -> stop_requested g = false;
  lc_finishing : finishing (point (worker_ g)) = true -> stop_requested g = true;
  lc_params : 1 <= max_batch_size_ (params g);
  lc_limit : point (worker_ g) = WStart \/ point (worker_ g) = WResize \/
             (1 <= batch_limit (worker_ g))%nat;
}.

(** What a step of the worker changes. *)
Section shutting_down.
Context (strftime : Z -> option string) (worker_tid : Z).
Implicit Types g : AsyncLoggerEngine.

Definition environment g :=
  (params g, accepting_logs_ g, worker_started_ g, stop_requested g, submitters g, shutdown g,
   claimed g, rejected g).

Lemma OpenFile_env path opens g : environment (OpenFile path opens g) = environment g.
Proof. by destruct opens. Qed.

Lemma write_entries_env env es its g :
  environment (write_entries strftime env es its g) = environment g.
Proof. unfold write_entries. by destruct (FormatBatch _ _ _). Qed.

Lemma summary_env env force g :
  environment (EmitDropSummaryIfNeeded strftime worker_tid env force g) = environment g.
Proof.
  unfold EmitDropSummaryIfNeeded. cbv zeta. destruct (_ =? 0); [done|].
  destruct (negb force && _); [done|]. by rewrite write_entries_env.
Qed.

Lemma go_env p g : environment (go p g) = environment g.
Proof. done. Qed.

Lemma WorkerLoop_step_env env g :
  environment (WorkerLoop_step strftime worker_tid env g) = environment g.
Proof.
  unfold WorkerLoop_step, pop_step. cbv zeta. destruct (point (worker_ g)); rewrite ?go_env;
    rewrite ?OpenFile_env, ?write_entries_env, ?summary_env; try done;
    repeat match goal with
      | |- context [if ?b then _ else _] => destruct b
      | |- context [match q_pop ?q with _ => _ end] => destruct (q_pop q) as [[e q']|]
      end; rewrite ?go_env, ?OpenFile_env; done.
Qed.

(** The limit of a batch is kept by everything but its own load. *)
Lemma OpenFile_limit path opens g : batch_limit (worker_ (OpenFile path opens g)) = batch_limit (worker_ g).
Proof. by destruct opens. Qed.

Lemma write_entries_limit env es its g :
  batch_limit (worker_ (write_entries strftime env es its g)) = batch_limit (worker_ g).
Proof. unfold write_entries. by destruct (FormatBatch _ _ _). Qed.

Lemma summary_limit env force g :
  batch_limit (worker_ (EmitDropSummaryIfNeeded strftime worker_tid env force g)) =
  batch_limit (worker_ g).
Proof.
  unfold EmitDropSummaryIfNeeded. cbv zeta. destruct (_ =? 0); [done|].
  destruct (negb force && _); [done|]. by rewrite write_entries_limit.
Qed.

Lemma WorkerLoop_step_lifecycle env g :
  lifecycle g -> lifecycle (WorkerLoop_step strftime worker_tid env g).
Proof.
  intros [L1 L2 L3 L4 L5 L6]. pose proof (WorkerLoop_step_env env g) as He.
  unfold environment in He.
  assert (forall g', environment g' = environment g ->
    (finishing (point (worker_ g')) = true -> stop_requested g = true) ->
    (point (worker_ g') = WResize \/ (1 <= batch_limit (worker_ g'))%nat) ->
    lifecycle g') as Hk.
  { intros g' E F B. unfold environment in E. injection E as E1 E2 E3 E4 E5 E6 E7 E8.
    split; rewrite ?E1, ?E2, ?E3, ?E4, ?E6; try done. tauto. }
  clear He. unfold WorkerLoop_step, pop_step. cbv zeta.
  destruct (point (worker_ g)) eqn:Ep; cbn [finishing] in L4;
    repeat match goal with
      | |- context [if ?b then _ else _] => destruct b eqn:?
      | |- context [match q_pop ?q with _ => _ end] => destruct (q_pop q) as [[e q']|]
      end;
    try (by split; rewrite ?Ep);
    (apply Hk;
      [by rewrite ?go_env, ?OpenFile_env, ?write_entries_env, ?summary_env
      |logger_simpl; cbn [finishing after_pop after_drain]; try done; try by destruct batch
      |logger_simpl; rewrite ?OpenFile_limit, ?write_entries_limit, ?summary_limit; logger_simpl;
       destruct L6 as [?|[?|?]]; (by left) || (right; lia) || done]).
Qed.

Lemma Submit_step_frame t s g :
  let '(_, g') := Submit_step t s g in
  params g' = params g /\ accepting_logs_ g' = accepting_logs_ g /\
  worker_started_ g' = worker_started_ g /\ stop_requested g' = stop_requested g /\
  shutdown g' = shutdown g /\ worker_ g' = worker_ g /\ submitters g' = submitters g.
Proof.
  destruct s; unfold Submit_step;
    repeat match goal with |- context [if ?b then _ else _] => destruct b end; done.
Qed.

Lemma act_lifecycle a g :
  stores_ok a -> lifecycle g -> lifecycle (act strftime worker_tid g a).
Proof.
  intros Ha Hl. destruct a as [t c|t|env|s| | |]; cbn [act].
  - destruct (submitters g !! t) as [[]|]; try done. destruct (SubmitAsyncLog c); [|done].
    destruct Hl. by split.
  - destruct (submitters g !! t) as [s|]; [|done]. pose proof (Submit_step_frame t s g) as Hf.
    destruct (Submit_step t s g) as [s' g']. destruct Hf as (F1 & F2 & F3 & F4 & F5 & F6 & F7).
    destruct Hl. split; logger_simpl; rewrite ?F1, ?F2, ?F3, ?F4, ?F5, ?F6; done.
  - by apply WorkerLoop_step_lifecycle.
  - destruct Hl. destruct s; split; done.
  - destruct Hl. by split.
  - unfold Shutdown_begin. destruct (accepting_logs_ g) eqn:Ea; [|done].
    destruct Hl as [L1 L2 L3 L4 L5 L6]. pose proof (proj1 L2 Ea) as Es.
    split; logger_simpl; try done. auto.
  - unfold Shutdown_step. destruct Hl as [L1 L2 L3 L4 L5 L6].
    destruct (shutdown g) eqn:Es; try (by split; rewrite ?Es).
    + rewrite L1. assert (accepting_logs_ g <> true) by (intros Ea; by apply L2 in Ea).
      split; logger_simpl; try done. by intros [|].
    + assert (accepting_logs_ g <> true) by (intros Ea; by apply L2 in Ea).
      destruct (point (worker_ g)) eqn:Ep; try (by split; rewrite ?Es, ?Ep).
      split; logger_simpl; rewrite ?Ep; try done. by intros [|].
Qed.

Lemma run_lifecycle acts : forall g,
  Forall stores_ok acts -> lifecycle g -> lifecycle (run strftime worker_tid g acts).
Proof.
  induction acts as [|a acts IH]; intros g Ha Hg; [done|]. inversion_clear Ha.
  apply IH; [done|]. by apply act_lifecycle.
Qed.

Lemma make_engine_lifecycle n : lifecycle (make_engine n).
Proof. split; cbn; try done; by auto. Qed.

(** *** Nothing comes in any more *)

Definition closed g : Prop := accepting_logs_ g = false /\ Forall (fun s => harmless s = true) (submitters g).

(** A submitter of a closed logger changes neither the queue nor the drops. *)
Lemma closed_submit t s g :
  closed g -> submitters g !! t = Some s ->
  let '(s', g') := Submit_step t s g in
  harmless s' = true /\ queue_ g' = queue_ g /\ claimed g' = claimed g /\
  dropped_for_summary_ (counters g') = dropped_for_summary_ (counters g) /\
  accepting_logs_ g' = false /\ submitters g' = submitters g /\ worker_ g' = worker_ g /\
  stop_requested g' = stop_requested g /\ emitted g' = emitted g.
Proof.
  intros [Ha Hh] Es.
  assert (harmless s = true) as Hs.
  { by apply (Forall_lookup_1 _ _ _ _ Hh) in Es. }
  destruct s; try done; unfold Submit_step; logger_simpl; rewrite ?Ha; done.
Qed.

Lemma logger_closed_act a g : closed g -> closed (act strftime worker_tid g a).
Proof.
  intros Hc. destruct a as [t c|t|env|s| | |]; cbn [act].
  - destruct (submitters g !! t) as [[]|]; try done. unfold SubmitAsyncLog.
    case_decide; [done|]. destruct Hc. split; [done|]. by apply Forall_insert.
  - destruct (submitters g !! t) as [s|] eqn:Es; [|done].
    pose proof (closed_submit t s g Hc Es) as Hf. destruct (Submit_step t s g) as [s' g'].
    destruct Hf as (F1 & F2 & F3 & F4 & F5 & F6 & F7 & _). split; [done|].
    logger_simpl. rewrite F6. apply Forall_insert; [apply Hc|done].
  - pose proof (WorkerLoop_step_env env g) as He. injection He as _ E2 _ _ E5 _ _ _.
    unfold closed. by rewrite E2, E5.
  - by destruct s.
  - done.
  - unfold Shutdown_begin. destruct Hc as [Ha Hc]. by rewrite Ha.
  - unfold Shutdown_step. destruct (shutdown g); try done; [by destruct (worker_started_ g)|].
    by destruct (point (worker_ g)).
Qed.

(** The final drain ends with an empty queue, the final report with no drop
    unreported. *)
Definition complete g : Prop :=
  (drained (point (worker_ g)) = true -> queue_ g = []) /\
  (point (worker_ g) = WLastFlush \/ point (worker_ g) = WExited ->
   pending_drop_summary_ (worker_ g) = 0 /\ dropped_for_summary_ (counters g) = 0).

Lemma closed_pop g : logger_ok g -> closed g -> q_pop (queue_ g) = None -> queue_ g = [].
Proof.
  intros Hok [_ Hh] Eq. destruct (queue_ g) as [|[[t e] []] q] eqn:E; [done|done|].
  pose proof (bk_published _ _ _ _ _ _ _ _ _ Hok t) as Hu. rewrite E, unpublished_cons in Hu.
  rewrite decide_True in Hu by done.
  destruct (submitters g !! t) as [s|] eqn:Es; [|simpl in Hu; lia].
  apply (Forall_lookup_1 _ _ _ _ Hh) in Es.
  destruct s; simpl in *; done || lia.
Qed.

Lemma summary_forced env g :
  let g' := EmitDropSummaryIfNeeded strftime worker_tid env true g in
  queue_ g' = queue_ g /\ pending_drop_summary_ (worker_ g') = 0 /\
  dropped_for_summary_ (counters g') = 0.
Proof.
  unfold EmitDropSummaryIfNeeded. cbv zeta. logger_simpl. cbn [negb andb].
  destruct (Z.eqb_spec (wrap64 (pending_drop_summary_ (worker_ g) + dropped_for_summary_ (counters g))) 0)
    as [E|E]; [by logger_simpl|].
  unfold write_entries. logger_simpl. by destruct (FormatBatch _ _ _).
Qed.

Lemma WorkerLoop_step_complete env g :
  logger_ok g -> lifecycle g -> closed g -> complete g ->
  complete (WorkerLoop_step strftime worker_tid env g).
Proof.
  intros Hok Hl Hc [C1 C2]. unfold WorkerLoop_step, pop_step. cbv zeta.
  destruct (point (worker_ g)) eqn:Ep;
    repeat match goal with
      | |- context [if ?b then _ else _] => destruct b eqn:?
      | |- context [match q_pop ?q with _ => _ end] => destruct (q_pop q) as [[e q']|] eqn:Eq
      end;
    try (split; logger_simpl; cbn [drained];
         first [done | by intros [?|?] | by destruct batch; intros [?|?] | by destruct batch]).
  - split; logger_simpl; [|by destruct batch; intros [|]].
    intros _. by apply closed_pop.
  - destruct batch as [|e batch]; [|by split; logger_simpl; [|intros [|]]].
    destruct (lc_limit _ Hl) as [?|[?|?]]; [congruence..|]. breflect. simpl in *. lia.
  - destruct (summary_forced env g) as (S1 & S2 & S3).
    split; logger_simpl; [|done]. intros _. rewrite S1. by apply C1.
  - split; logger_simpl; [intros _; by apply C1|]. intros _. apply C2. by left.
  - by split; rewrite ?Ep.
Qed.

(** *** The worker stops *)

Definition rank (p : wpoint) : nat :=
  match p with
  | WExited => 0
  | WLastFlush => 1
  | WLastDrops => 2
  | WDrain [] => 3
  | WDrainWrite _ => 4
  | WDrainCount _ => 5
  | WDrainTaken _ => 6
  | WDrain _ => 7
  | WStop => 8
  | WFlush 0 => 9
  | WDrops 0 => 10
  | WPop [] => 11
  | WLimit => 12
  | WReopen => 13
  | WFlush _ | WIdle => 14
  | WDrops _ | WResize => 15
  | WWrite _ | WStart => 16
  | WCount _ => 17
  | WTaken _ => 18
  | WPop _ => 19
  end.

Definition steps_left g : nat := (20 * length (queue_ g) + rank (point (worker_ g)))%nat.

Lemma go_rank p g : steps_left (go p g) = (20 * length (queue_ g) + rank p)%nat.
Proof. done. Qed.

Lemma OpenFile_queue path opens g : queue_ (OpenFile path opens g) = queue_ g.
Proof. by destruct opens. Qed.

Lemma write_entries_queue env es its g : queue_ (write_entries strftime env es its g) = queue_ g.
Proof. unfold write_entries. by destruct (FormatBatch _ _ _). Qed.

Lemma summary_queue env force g :
  queue_ (EmitDropSummaryIfNeeded strftime worker_tid env force g) = queue_ g.
Proof.
  unfold EmitDropSummaryIfNeeded. cbv zeta. destruct (_ =? 0); [done|].
  destruct (negb force && _); [done|]. by rewrite write_entries_queue.
Qed.

Lemma pop_step_rank batch more finish g :
  point (worker_ g) = more batch ->
  (forall e, rank (more (batch ++ [e])) < 20 + rank (more batch))%nat ->
  (rank (finish batch) < rank (more batch))%nat ->
  (steps_left (pop_step batch more finish g) < steps_left g)%nat.
Proof.
  intros Ep Hm Hf. unfold pop_step.
  assert (steps_left (go (finish batch) g) < steps_left g)%nat as Hfin.
  { rewrite go_rank. unfold steps_left. rewrite Ep. lia. }
  destruct (_ <? _)%nat; [|done]. destruct (q_pop (queue_ g)) as [[e q]|] eqn:Eq; [|done].
  assert (length (queue_ g) = S (length q)) as Hq.
  { destruct (queue_ g) as [|[[t x] []] q']; simplify_eq/=. done. }
  rewrite go_rank. unfold steps_left. rewrite Ep, Hq. logger_simpl. specialize (Hm e). lia.
Qed.

Lemma rank_WPop b : (11 <= rank (WPop b) <= 19)%nat.
Proof. destruct b; simpl; lia. Qed.

Lemma rank_WDrain b : (3 <= rank (WDrain b) <= 7)%nat.
Proof. destruct b; simpl; lia. Qed.

Lemma WorkerLoop_step_rank env g :
  stop_requested g = true -> point (worker_ g) <> WExited ->
  (steps_left (WorkerLoop_step strftime worker_tid env g) < steps_left g)%nat.
Proof.
  intros Hs He. unfold WorkerLoop_step. cbv zeta. rewrite ?Hs.
  assert (forall p g', queue_ g' = queue_ g -> (rank p < rank (point (worker_ g)))%nat ->
    (steps_left (go p g') < steps_left g)%nat) as Hgo.
  { intros p g' Hq Hp. rewrite go_rank, Hq. unfold steps_left. lia. }
  destruct (point (worker_ g)) eqn:Ep; try done;
    try (apply Hgo; rewrite ?OpenFile_queue, ?write_entries_queue, ?summary_queue; [done|simpl; lia]).
  - destruct (reopen_requested_ g); apply Hgo; rewrite ?OpenFile_queue; done || (simpl; lia).
  - apply pop_step_rank; [done| |].
    + intros e. pose proof (rank_WPop batch). pose proof (rank_WPop (batch ++ [e])). lia.
    + destruct batch; simpl; lia.
  - apply Hgo; [apply write_entries_queue|]. destruct batch; simpl; lia.
  - apply Hgo; [apply summary_queue|]. destruct drained0; simpl; lia.
  - set (next := if (drained0 =? 0)%nat then WStop else WReopen).
    assert (rank next < rank (WFlush drained0))%nat as Hr by (unfold next; destruct drained0; simpl; lia).
    destruct (flush_requested_ g || _); [|by apply Hgo].
    unfold steps_left. rewrite Ep. logger_simpl. lia.
  - apply pop_step_rank; [done| |].
    + intros e. pose proof (rank_WDrain batch). pose proof (rank_WDrain (batch ++ [e])). lia.
    + destruct batch; simpl; lia.
Qed.

(** What remains true, and what does not change, once the stop is requested. *)
Record stopping (cl : list LogEntry) g : Prop := {
  sp_ok : logger_ok g;
  sp_life : lifecycle g;
  sp_closed : closed g;
  sp_complete : complete g;
  sp_stop : stop_requested g = true;
  sp_claimed : claimed g = cl;
}.

Definition is_worker (a : action) : bool := match a with AWorker _ => true | _ => false end.

Definition worker_steps (acts : list action) : nat := length (List.filter is_worker acts).

Lemma stopping_act cl a g :
  stores_ok a -> stopping cl g ->
  stopping cl (act strftime worker_tid g a) /\
  (steps_left (act strftime worker_tid g a) <= steps_left g - if is_worker a then 1 else 0)%nat.
Proof.
  intros Ha [P1 P2 P3 P4 P5 P6].
  pose proof (logger_act_ok strftime worker_tid g a P1) as A1.
  pose proof (act_lifecycle a g Ha P2) as A2. pose proof (logger_closed_act a g P3) as A3.
  assert (forall g', queue_ g' = queue_ g -> worker_ g' = worker_ g ->
    dropped_for_summary_ (counters g') = dropped_for_summary_ (counters g) ->
    stop_requested g' = stop_requested g -> claimed g' = claimed g ->
    complete g' /\ stop_requested g' = true /\ claimed g' = cl /\ (steps_left g' <= steps_left g)%nat)
    as Hsame.
  { intros g' E1 E2 E3 E4 E5. unfold complete, steps_left. rewrite E1, E2, E3, E4, E5. done. }
  assert (complete (act strftime worker_tid g a) /\ stop_requested (act strftime worker_tid g a) = true /\
    claimed (act strftime worker_tid g a) = cl /\
    (steps_left (act strftime worker_tid g a) <= steps_left g - if is_worker a then 1 else 0)%nat)
    as (B1 & B2 & B3 & B4); [|by split].
  destruct a as [t c|t|env|s| | |]; cbn [act is_worker] in *; rewrite ?Nat.sub_0_r.
  - destruct (submitters g !! t) as [[]|]; try (by apply Hsame).
    destruct (SubmitAsyncLog c); by apply Hsame.
  - destruct (submitters g !! t) as [s|] eqn:Es; [|by apply Hsame].
    pose proof (closed_submit t s g P3 Es) as Hf. destruct (Submit_step t s g) as [s' g'].
    destruct Hf as (F1 & F2 & F3 & F4 & F5 & F6 & F7 & F8 & F9). by apply Hsame.
  - pose proof (WorkerLoop_step_env env g) as He. injection He as _ _ _ E4 _ _ E7 _.
    rewrite E4, E7. split; [by apply WorkerLoop_step_complete|]. split; [done|]. split; [done|].
    assert (point (worker_ g) = WExited \/ point (worker_ g) <> WExited) as [Ep|Ep]
      by (destruct (point (worker_ g)); auto).
    + unfold WorkerLoop_step, steps_left. cbv zeta. rewrite !Ep. cbn [rank].
      rewrite (proj1 P4) by (by rewrite Ep). simpl. lia.
    + pose proof (WorkerLoop_step_rank env g P5 Ep). lia.
  - destruct s; by apply Hsame.
  - by apply Hsame.
  - unfold Shutdown_begin. destruct P3 as [-> _]. by apply Hsame.
  - unfold Shutdown_step. destruct (shutdown g); try (by apply Hsame).
    + rewrite (lc_started _ P2). unfold complete, steps_left. by logger_simpl.
    + destruct (point (worker_ g)) eqn:Ep; try (by apply Hsame).
      unfold complete, steps_left in *. logger_simpl. rewrite Ep in *. done.
Qed.

Lemma stopping_run cl acts : forall g,
  Forall stores_ok acts -> stopping cl g ->
  stopping cl (run strftime worker_tid g acts) /\
  (steps_left (run strftime worker_tid g acts) <= steps_left g - worker_steps acts)%nat.
Proof.
  induction acts as [|a acts IH]; intros g Ha Hg; [split; [done|unfold worker_steps; simpl; lia]|].
  inversion_clear Ha as [|? ? H1 H2].
  destruct (stopping_act cl a g H1 Hg) as [Hg' Hs]. destruct (IH _ H2 Hg') as [Hr Hl].
  split; [exact Hr|]. unfold worker_steps in *. cbn [List.filter run fold_left] in *.
  unfold run in Hl. destruct (is_worker a); cbn [length]; lia.
Qed.

Lemma rank_zero p : rank p = 0%nat -> p = WExited.
Proof. destruct p as [| | | |[]| | | |[]|[]| | |[]| | | | | |]; simpl; done. Qed.

Lemma rank_bound p : (rank p <= 19)%nat.
Proof. destruct p as [| | | |[]| | | |[]|[]| | |[]| | | | | |]; simpl; lia. Qed.

Lemma harmless_tally f l :
  (forall s, harmless s = true -> f s = 0%nat) -> Forall (fun s => harmless s = true) l ->
  tally f l = 0%nat.
Proof. intros Hf Hl. apply tally_zero. by eapply Forall_impl. Qed.

Lemma exited_books cl g :
  stopping cl g -> point (worker_ g) = WExited ->
  entries_of (emitted g) = cl /\ dropped_ (counters g) = wrap64 (reported (emitted g)).
Proof.
  intros [P1 P2 P3 P4 P5 P6] Ep. destruct P4 as [C1 C2]. rewrite Ep in *.
  destruct (C2 (or_intror eq_refl)) as [D1 D2]. pose proof (C1 eq_refl) as Hq.
  destruct P1 as [B1 _ _ _ _ _ _ B8]. rewrite Ep, Hq in B1. rewrite D1, D2 in B8.
  rewrite (harmless_tally dropping) in B8; [| |apply P3]; [|by intros []].
  simpl in B1. rewrite app_nil_r in B1. split; [congruence|]. rewrite B8. f_equal. lia.
Qed.

End shutting_down.

(** ** Theorems *)

(** C18: the logger writes what it accepted, once and in order: in every interleaving
    of submitting threads, the worker, reconfiguration and shutdown, the entries the
    queue has taken are, in that order, those the worker has written, those of its
    current batch and those still queued; and the bytes that went to the log file or
    to stderr are exactly the lines of what was written, the reports of dropped
    entries and of failed opens included, whatever part of each write the file
    takes. *)
Theorem logger_writes_in_order strftime worker_tid n acts :
  Forall clock_ok acts ->
  let g := run strftime worker_tid (make_engine n) acts in
  claimed g = entries_of (emitted g) ++ in_hand (point (worker_ g)) ++ q_values (queue_ g) /\
  written (ios g) = items_text strftime (emitted g).
Proof.
  intros Ha g. split.
  - apply (bk_order _ _ _ _ _ _ _ _ _ (logger_run_ok strftime worker_tid acts _ (make_engine_ok n))).
  - apply tx_text. apply run_text; [done|apply make_engine_text].
Qed.

(** The statistics are right: whenever no call is between two of its counters,
    every call has been counted exactly once as filtered, enqueued, dropped or
    refused after the shutdown (modulo the width of the counters), [consumed]
    counts the written entries, [inflight_count_] is the number of entries queued
    or in the worker's hands, and every drop has been reported or is waiting to be. *)
Theorem logger_statistics strftime worker_tid n acts :
  let g := run strftime worker_tid (make_engine n) acts in
  let c := counters g in
  Forall (fun s => harmless s = true /\ unsettled s = 0%nat) (submitters g) ->
  in_hand (point (worker_ g)) = [] ->
  submit_calls_ c = wrap64 (filtered_by_level_ c + enqueued_ c + dropped_ c + rejected g) /\
  enqueued_ c = wrap64 (Z.of_nat (length (claimed g))) /\
  consumed_ c = wrap64 (Z.of_nat (length (entries_of (emitted g)))) /\
  inflight_count_ g = wrap64 (Z.of_nat (length (queue_ g))) /\
  dropped_ c = wrap64 (reported (emitted g) + pending_drop_summary_ (worker_ g)
                       + dropped_for_summary_ c).
Proof.
  intros g c Hs Hh.
  destruct (logger_run_ok strftime worker_tid acts _ (make_engine_ok n)) as [B1 _ _ B4 B5 B6 B7 B8].
  fold g in B1, B4, B5, B6, B7, B8. fold c in B5, B6, B7, B8.
  assert (forall f, (forall s, harmless s = true /\ unsettled s = 0%nat -> f s = 0%nat) ->
    tally f (submitters g) = 0%nat) as Ht.
  { intros f Hf. apply tally_zero. by eapply Forall_impl. }
  rewrite Ht in B4, B5, B7, B8 by (by intros [] []).
  assert (released (point (worker_ g)) = 0%nat /\ consuming (point (worker_ g)) = 0%nat) as [R C].
  { destruct (point (worker_ g)); simpl in *; subst; done. }
  rewrite Hh in B1. rewrite R in B4. rewrite C in B6.
  assert (length (claimed g) = length (entries_of (emitted g)) + length (queue_ g))%nat as Hl.
  { rewrite B1. unfold q_values. by rewrite length_app, length_app, length_map. }
  split_and!; [etrans; [exact B7|]|etrans; [exact B5|]|etrans; [exact B6|]|etrans; [exact B4|]
    |etrans; [exact B8|]]; f_equal; lia.
Qed.

(** C19: a shutdown loses nothing: when [Shutdown] begins and every [Submit] that is
    still running has yet to look at [accepting_logs_], the worker stops after at
    most twenty of its own steps for each queued entry and twenty more, whatever the
    other threads do, and then every entry ever accepted has been written and every
    drop has been reported. *)
Theorem logger_shutdown_complete strftime worker_tid n acts1 acts2 :
  let g1 := run strftime worker_tid (make_engine n) acts1 in
  let g2 := run strftime worker_tid g1 (AShutdownStep :: acts2) in
  Forall stores_ok acts1 -> Forall stores_ok acts2 ->
  shutdown g1 = ShStop -> Forall (fun s => harmless s = true) (submitters g1) ->
  (20 * (length (queue_ g1) + 1) <= worker_steps acts2)%nat ->
  point (worker_ g2) = WExited /\ entries_of (emitted g2) = claimed g1 /\
  dropped_ (counters g2) = wrap64 (reported (emitted g2)).
Proof.
  intros g1 g2 Ha1 Ha2 Hsh Hh Hn.
  pose proof (logger_run_ok strftime worker_tid acts1 _ (make_engine_ok n)) as Hok. fold g1 in Hok.
  pose proof (run_lifecycle strftime worker_tid acts1 _ Ha1 (make_engine_lifecycle n)) as Hl. fold g1 in Hl.
  assert (stopping (claimed g1) (act strftime worker_tid g1 AShutdownStep)) as Hst.
  { pose proof (lc_stop _ Hl (or_intror Hsh)) as Hnot.
    assert (closed g1) as Hc.
    { split; [|done]. destruct (accepting_logs_ g1) eqn:E; [|done].
      apply (lc_accepting _ Hl) in E. congruence. }
    split; [by apply logger_act_ok|by apply act_lifecycle|by apply logger_closed_act|..];
      cbn [act]; unfold Shutdown_step; rewrite Hsh, (lc_started _ Hl); logger_simpl; try done.
    assert (finishing (point (worker_ g1)) = false) as Hf.
    { destruct (finishing _) eqn:E; [|done]. apply (lc_finishing _ Hl) in E. congruence. }
    split; logger_simpl; destruct (point (worker_ g1)); simpl in *; try done; by intros [|]. }
  destruct (stopping_run strftime worker_tid (claimed g1) acts2 _ Ha2 Hst) as [Hend Hleft].
  assert (steps_left (act strftime worker_tid g1 AShutdownStep) = steps_left g1) as Es.
  { cbn [act]. unfold Shutdown_step. by rewrite Hsh, (lc_started _ Hl). }
  change (run strftime worker_tid (act strftime worker_tid g1 AShutdownStep) acts2) with g2 in *.
  assert (point (worker_ g2) = WExited) as Hx.
  { apply rank_zero. pose proof (rank_bound (point (worker_ g1))). unfold steps_left in *. lia. }
  split; [done|]. by apply exited_books.
Qed.

(** ** Where the code falls short *)

Definition w_now : wenv := {| e_now := 1000; e_wall := 0; e_open := true; e_written := 400 |}.

Definition submit_steps (t k : nat) : list action := replicate k (ASubmit t).

Definition underflow_run : list action :=
  ABegin 0 w_log_call :: submit_steps 0 8 ++ replicate 7 (AWorker w_now) ++
  ABegin 1 w_log_call :: submit_steps 1 7.

(** An entry can be dropped although the queue is empty: [inflight_count_] is
    incremented after the entry has become visible, so a worker that takes the entry
    at once subtracts it first; the unsigned counter wraps around, and until the
    submitter adds its one, every other thread sees a full queue. *)
Theorem inflight_underflow_drops strftime worker_tid :
  let g := run strftime worker_tid (make_engine 2) underflow_run in
  queue_ g = [] /\ length (claimed g) = 1%nat /\ inflight_count_ g = 2 ^ 64 - 1 /\
  dropped_ (counters g) = 1.
Proof. vm_compute. repeat split. Qed.

Definition late_submit_run : list action :=
  ABegin 0 w_log_call :: submit_steps 0 2 ++ [AShutdown; AShutdownStep] ++
  replicate 15 (AWorker w_now) ++ submit_steps 0 8 ++ [AShutdownStep].

Lemma exited_frozen strftime worker_tid acts : forall g,
  point (worker_ g) = WExited ->
  point (worker_ (run strftime worker_tid g acts)) = WExited /\
  emitted (run strftime worker_tid g acts) = emitted g.
Proof.
  induction acts as [|a acts IH]; intros g Ep; [done|]. cbn [run fold_left].
  assert (point (worker_ (act strftime worker_tid g a)) = WExited /\
    emitted (act strftime worker_tid g a) = emitted g) as [Ep' Ee].
  { destruct a as [t c|t|env|s| | |]; cbn [act].
    - destruct (submitters g !! t) as [[]|]; try done. by destruct (SubmitAsyncLog c).
    - destruct (submitters g !! t) as [s|]; [|done].
      destruct s; unfold Submit_step;
        repeat match goal with |- context [if ?b then _ else _] => destruct b end; done.
    - unfold WorkerLoop_step. cbv zeta. by rewrite Ep.
    - by destruct s.
    - done.
    - unfold Shutdown_begin. by destruct (accepting_logs_ g).
    - unfold Shutdown_step. destruct (shutdown g); try done; [by destruct (worker_started_ g)|].
      by rewrite Ep. }
  destruct (IH _ Ep') as [H1 H2]. split; [exact H1|]. unfold run in H2. congruence.
Qed.

(** An entry of a call that looked at [accepting_logs_] before the shutdown can be
    enqueued after the worker has gone: it is counted as enqueued and never
    written. *)
Theorem late_submit_is_lost strftime worker_tid acts :
  let g := run strftime worker_tid (make_engine 1) late_submit_run in
  let g' := run strftime worker_tid g acts in
  shutdown g = ShDone /\ enqueued_ (counters g) = 1 /\ entries_of (emitted g') = [].
Proof.
  intros g g'. assert (point (worker_ g) = WExited) as Ep by (vm_compute; reflexivity).
  destruct (exited_frozen strftime worker_tid acts g Ep) as [_ E].
  split; [vm_compute; reflexivity|]. split; [vm_compute; reflexivity|].
  unfold g'. rewrite E. vm_compute. reflexivity.
Qed.

(** ** Witnesses *)

Definition w_acts : list action :=
  map AStore (Init_stores BalancedLoggerOptions) ++
  ABegin 0 w_log_call :: ABegin 1 w_log_call :: submit_steps 0 10 ++ submit_steps 1 10 ++
  [AShutdown].

Definition w_end : list action := replicate 60 (AWorker w_now).

Lemma logger_writes_in_order_witness :
  written (ios (run w_strftime 5 (make_engine 2) (w_acts ++ AShutdownStep :: w_end))) =
  items_text w_strftime [ItEntry (entry_of_call 112 w_log_call); ItEntry (entry_of_call 112 w_log_call)].
Proof.
  etrans; [apply (logger_writes_in_order w_strftime 5 2 (w_acts ++ AShutdownStep :: w_end))|].
  - unfold w_acts. rewrite <- app_assoc. apply Forall_app. split; [apply Forall_map; by repeat constructor|].
    vm_compute. repeat constructor; discriminate.
  - vm_compute. reflexivity.
Defined.

Lemma logger_statistics_witness :
  let g := run w_strftime 5 (make_engine 2) (w_acts ++ w_end) in
  enqueued_ (counters g) = wrap64 (Z.of_nat (length (claimed g))).
Proof.
  refine (proj1 (proj2 (logger_statistics w_strftime 5 2 (w_acts ++ w_end) _ _))).
  - vm_compute. repeat constructor.
  - vm_compute. reflexivity.
Defined.

Lemma logger_shutdown_complete_witness :
  let g1 := run w_strftime 5 (make_engine 2) w_acts in
  let g2 := run w_strftime 5 g1 (AShutdownStep :: w_end) in
  entries_of (emitted g2) = claimed g1 /\ length (claimed g1) = 2%nat.
Proof.
  split; [|vm_compute; reflexivity].
  refine (proj1 (proj2 (logger_shutdown_complete w_strftime 5 2 w_acts w_end _ _ _ _ _))).
  - unfold w_acts. apply Forall_app. split.
    + apply Forall_map, (Forall_impl _ _ _ (Init_stores_ok BalancedLoggerOptions)). done.
    + vm_compute. repeat constructor.
  - vm_compute. repeat constructor.
  - vm_compute. reflexivity.
  - vm_compute. repeat constructor.
  - vm_compute. lia.
Defined.
