(* ===== verification/Task.v ===== *)
(** * The coroutine type [Task] (coroutine/task.h)

    The promise of a coroutine, the final awaiter, the awaiter of [co_await] and
    [Get], and the handle that owns the frame.  A coroutine may run on another
    thread than the one that waits for it: the steps below are the accesses of the
    two sides to the promise, and a run is any interleaving of them.  An access to
    a destroyed frame, and the resumption of a coroutine that is not suspended,
    are faults.  Values are of any type, exceptions are strings. *)

From Stdlib Require Import ZArith Lia.
From S2P Require Import Prelude.

Local Open Scope string_scope.
Local Open Scope list_scope.
Local Open Scope nat_scope.

Section task.
Context {T : Type}.

(** What a coroutine body ends with. *)
Abbreviation outcome := (T + string)%type.

(** ** The promise *)

(** [completion] is the state of [completion_promise] and its shared future;
    [continuation] says whether the waiting coroutine has registered itself. *)
Record promise_type := {
  completion : option outcome;
  continuation : bool;
  result_value : option T;
  unhandled_error : option string;
  completion_set : bool;
}.

Definition make_promise : promise_type :=
  {| completion := None; continuation := false; result_value := None;
     unhandled_error := None; completion_set := false |}.

Definition return_value (v : T) (p : promise_type) : promise_type :=
  {| completion := completion p; continuation := continuation p; result_value := Some v;
     unhandled_error := unhandled_error p; completion_set := completion_set p |}.

Definition unhandled_exception (e : string) (p : promise_type) : promise_type :=
  {| completion := completion p; continuation := continuation p; result_value := result_value p;
     unhandled_error := Some e; completion_set := completion_set p |}.

Definition set_completion (o : option outcome) (p : promise_type) : promise_type :=
  {| completion := o; continuation := continuation p; result_value := result_value p;
     unhandled_error := unhandled_error p; completion_set := true |}.

Definition set_continuation (p : promise_type) : promise_type :=
  {| completion := completion p; continuation := true; result_value := result_value p;
     unhandled_error := unhandled_error p; completion_set := completion_set p |}.

(** Dereferencing an empty [result_value] has no defined outcome: [None]. *)
Definition PublishCompletion (p : promise_type) : promise_type :=
  if completion_set p then p
  else
    match unhandled_error p with
    | Some e => set_completion (Some (inr e)) p
    | None => set_completion (inl <$> result_value p) p
    end.

(** [wait_for(0) == ready]. *)
Definition IsReady (p : promise_type) : bool :=
  match completion p with Some _ => true | None => false end.

(** ** The two sides *)

(** The thread of the coroutine: in the body, at the final suspend point before and
    after the publication, and done. *)
Inductive co_state :=
  | CBody (o : outcome)
  | CFinal
  | CPublished
  | CDone.

(** The side that waits, by [co_await] or by [Get], and then destroys the task. *)
Inductive owner_state :=
  | OReady
  | OStore
  | OCheck
  | OSuspended
  | OGet
  | OGot (r : outcome)
  | ODestroyed (r : outcome).

Inductive fault := UseAfterDestroy | ResumeRunning.

Record task_state := {
  promise : promise_type;
  destroyed : bool;
  co : co_state;
  owner : owner_state;
  resumes : nat;
  faults : list fault;
}.

(** A task whose body ends with [o]; [start] is how its owner waits. *)
Definition make_task (o : outcome) (start : owner_state) : task_state :=
  {| promise := make_promise; destroyed := false; co := CBody o; owner := start;
     resumes := 0; faults := [] |}.

Definition touch (s : task_state) : list fault :=
  if destroyed s then faults s ++ [UseAfterDestroy] else faults s.

(** The steps of the coroutine: [co_return] or an exception, then
    [FinalAwaiter::await_suspend], which publishes, reads the continuation and
    transfers control to it. *)
Definition co_step (s : task_state) : task_state :=
  match co s with
  | CBody o =>
      {| promise := match o with
                    | inl v => return_value v (promise s)
                    | inr e => unhandled_exception e (promise s)
                    end;
         destroyed := destroyed s; co := CFinal; owner := owner s; resumes := resumes s;
         faults := touch s |}
  | CFinal =>
      {| promise := PublishCompletion (promise s); destroyed := destroyed s; co := CPublished;
         owner := owner s; resumes := resumes s; faults := touch s |}
  | CPublished =>
      if continuation (promise s) then
        match owner s, completion (promise s) with
        | OSuspended, Some r =>
            {| promise := promise s; destroyed := destroyed s; co := CDone; owner := OGot r;
               resumes := S (resumes s); faults := touch s |}
        | _, _ =>
            {| promise := promise s; destroyed := destroyed s; co := CDone; owner := owner s;
               resumes := S (resumes s); faults := touch s ++ [ResumeRunning] |}
        end
      else
        {| promise := promise s; destroyed := destroyed s; co := CDone; owner := owner s;
           resumes := resumes s; faults := touch s |}
  | CDone => s
  end.

Definition owner_moves (s : task_state) (p : promise_type) (o : owner_state) (n : nat)
    : task_state :=
  {| promise := p; destroyed := destroyed s; co := co s; owner := o; resumes := resumes s + n;
     faults := touch s |}.

(** The steps of the owner: [Awaiter::await_ready], the two accesses of
    [Awaiter::await_suspend], [await_resume] or [Get], and the destructor.  [None]:
    it is suspended or blocked. *)
Definition owner_step (s : task_state) : option task_state :=
  let p := promise s in
  match owner s with
  | OReady =>
      match completion p with
      | Some r => Some (owner_moves s p (OGot r) 1)
      | None => Some (owner_moves s p OStore 0)
      end
  | OStore => Some (owner_moves s (set_continuation p) OCheck 0)
  | OCheck =>
      match completion p with
      | Some r => Some (owner_moves s p (OGot r) 1)
      | None => Some (owner_moves s p OSuspended 0)
      end
  | OSuspended => None
  | OGet =>
      match completion p with
      | Some r => Some (owner_moves s p (OGot r) 1)
      | None => None
      end
  | OGot r =>
      (* [Reset]: the future is ready, so the frame is destroyed at once *)
      if IsReady p then
        Some {| promise := p; destroyed := true; co := co s; owner := ODestroyed r;
                resumes := resumes s; faults := touch s |}
      else None
  | ODestroyed _ => None
  end.

Inductive side := TheCoroutine | TheOwner.

Definition step (s : task_state) (x : side) : task_state :=
  match x with
  | TheCoroutine => co_step s
  | TheOwner => default s (owner_step s)
  end.

Definition run (s : task_state) (sched : list side) : task_state := fold_left step sched s.

(** One side running on the only thread: until it has to wait, or has ended. *)
Definition turn (s : task_state) (x : side) : task_state := run s (replicate 4 x).

End task.
Arguments promise_type : clear implicits.
Arguments co_state : clear implicits.
Arguments owner_state : clear implicits.
Arguments task_state : clear implicits.

(** ** [Task<void>] *)

Module VoidTask.

(** The promise of [Task<void>] has no [result_value]. *)
Record promise_type := {
  completion : option (unit + string);
  continuation : bool;
  unhandled_error : option string;
  completion_set : bool;
}.

Definition make_promise : promise_type :=
  {| completion := None; continuation := false; unhandled_error := None; completion_set := false |}.

Definition return_void (p : promise_type) : promise_type := p.

Definition unhandled_exception (e : string) (p : promise_type) : promise_type :=
  {| completion := completion p; continuation := continuation p;
     unhandled_error := Some e; completion_set := completion_set p |}.

Definition PublishCompletion (p : promise_type) : promise_type :=
  if completion_set p then p
  else
    {| completion := Some (match unhandled_error p with Some e => inr e | None => inl tt end);
       continuation := continuation p; unhandled_error := unhandled_error p;
       completion_set := true |}.

Definition set_continuation (p : promise_type) : promise_type :=
  {| completion := completion p; continuation := true; unhandled_error := unhandled_error p;
     completion_set := completion_set p |}.

Definition IsReady (p : promise_type) : bool :=
  match completion p with Some _ => true | None => false end.

Record task_state := {
  promise : promise_type;
  destroyed : bool;
  co : Task.co_state unit;
  owner : Task.owner_state unit;
  resumes : nat;
  faults : list fault;
}.

Definition make_task (o : unit + string) (start : Task.owner_state unit) : task_state :=
  {| promise := make_promise; destroyed := false; co := CBody o; owner := start;
     resumes := 0; faults := [] |}.

Definition touch (s : task_state) : list fault :=
  if destroyed s then faults s ++ [UseAfterDestroy] else faults s.

Definition set_co (s : task_state) (p : promise_type) (c : Task.co_state unit) : task_state :=
  {| promise := p; destroyed := destroyed s; co := c; owner := owner s; resumes := resumes s;
     faults := touch s |}.

(** [return_void] or [unhandled_exception], then [FinalAwaiter::await_suspend]. *)
Definition co_step (s : task_state) : task_state :=
  match co s with
  | CBody (inl _) => set_co s (return_void (promise s)) CFinal
  | CBody (inr e) => set_co s (unhandled_exception e (promise s)) CFinal
  | CFinal => set_co s (PublishCompletion (promise s)) CPublished
  | CPublished =>
      if continuation (promise s) then
        match owner s, completion (promise s) with
        | OSuspended, Some r =>
            {| promise := promise s; destroyed := destroyed s; co := CDone; owner := OGot r;
               resumes := S (resumes s); faults := touch s |}
        | _, _ =>
            {| promise := promise s; destroyed := destroyed s; co := CDone; owner := owner s;
               resumes := S (resumes s); faults := touch s ++ [ResumeRunning] |}
        end
      else set_co s (promise s) CDone
  | CDone => s
  end.

Definition owner_moves (s : task_state) (p : promise_type) (o : Task.owner_state unit) (n : nat)
    : task_state :=
  {| promise := p; destroyed := destroyed s; co := co s; owner := o; resumes := resumes s + n;
     faults := touch s |}.

(** [Awaiter], [Get] and the destructor. *)
Definition owner_step (s : task_state) : option task_state :=
  let p := promise s in
  match owner s with
  | OReady =>
      if IsReady p then (fun r => owner_moves s p (OGot r) 1) <$> completion p
      else Some (owner_moves s p OStore 0)
  | OStore => Some (owner_moves s (set_continuation p) OCheck 0)
  | OCheck =>
      if IsReady p then (fun r => owner_moves s p (OGot r) 1) <$> completion p
      else Some (owner_moves s p OSuspended 0)
  | OSuspended => None
  | OGet => (fun r => owner_moves s p (OGot r) 1) <$> completion p
  | OGot r =>
      if IsReady p then
        Some {| promise := p; destroyed := true; co := co s; owner := ODestroyed r;
                resumes := resumes s; faults := touch s |}
      else None
  | ODestroyed _ => None
  end.

Definition step (s : task_state) (x : side) : task_state :=
  match x with
  | TheCoroutine => co_step s
  | TheOwner => default s (owner_step s)
  end.

Definition run (s : task_state) (sched : list side) : task_state := fold_left step sched s.

(** The general promise agrees; its value is there once the body has returned. *)
Definition agrees (c : Task.co_state unit) (p : promise_type) (q : Task.promise_type unit) : Prop :=
  completion p = Task.completion q /\ continuation p = Task.continuation q /\
  unhandled_error p = Task.unhandled_error q /\ completion_set p = Task.completion_set q /\
  (c = CFinal -> unhandled_error p = None -> Task.result_value q = Some tt).

(** What a [Task<unit>] in the same situation would be. *)
Record alike (s : task_state) (s' : Task.task_state unit) : Prop := {
  ak_promise : agrees (co s) (promise s) (Task.promise s');
  ak_destroyed : destroyed s = Task.destroyed s';
  ak_co : co s = Task.co s';
  ak_owner : owner s = Task.owner s';
  ak_resumes : resumes s = Task.resumes s';
  ak_faults : faults s = Task.faults s';
}.

Lemma alike_step s s' x : alike s s' -> alike (step s x) (Task.step s' x).
Proof.
  intros [(P1 & P2 & P3 & P4 & P5) D C O R F].
  destruct s as [[cm k ue cs] d c ow rs fs], s' as [[cm' k' rv ue' cs'] d' c' ow' rs' fs'].
  cbn in *. subst. destruct x; cbn [step Task.step].
  - unfold co_step, Task.co_step, set_co, touch, Task.touch. cbn.
    destruct c' as [[[]|e]| | |]; cbn; try (by split).
    + unfold PublishCompletion, Task.PublishCompletion. cbn.
      destruct cs', ue' as [e|]; cbn; try rewrite P5 by done; by split.
    + destruct k'; [|by split]. by destruct ow', cm'; split.
  - unfold owner_step, Task.owner_step, owner_moves, Task.owner_moves, touch, Task.touch, IsReady, Task.IsReady. cbn.
    destruct ow', cm'; cbn; by split.
Qed.

Lemma alike_run sched : forall s s', alike s s' -> alike (run s sched) (Task.run s' sched).
Proof. induction sched as [|x sched IH]; intros s s' Ha; [done|]. apply IH. by apply alike_step. Qed.

End VoidTask.

(** ** The handle *)

(** Task objects are numbered; each holds a handle or nothing.  [ended] logs the
    frames [Reset] has destroyed; a [Reset] waits for the coroutine, so it happens
    only when the frame is complete. *)
Module Handles.

Record t := { handles : list (option nat); ended : list nat; next : nat }.

Definition make : t := {| handles := []; ended := []; next := 0 |}.

Inductive op :=
  | Create
  | MoveConstruct (other : nat)
  | MoveAssign (self other : nat)
  | Destruct (self : nat).

(** A call of a coroutine: a new frame. *)
Definition create (s : t) : t :=
  {| handles := handles s ++ [Some (next s)]; ended := ended s; next := S (next s) |}.

Definition Reset (self : nat) (s : t) : t :=
  match handles s !! self with
  | Some (Some h) =>
      {| handles := <[self := None]> (handles s); ended := ended s ++ [h]; next := next s |}
  | _ => s
  end.

Definition move_construct (other : nat) (s : t) : t :=
  match handles s !! other with
  | Some h => {| handles := <[other := None]> (handles s) ++ [h]; ended := ended s; next := next s |}
  | None => s
  end.

Definition move_assign (self other : nat) (s : t) : t :=
  if (self =? other) then s
  else
    match handles s !! self, handles s !! other with
    | Some _, Some _ =>
        let s := Reset self s in
        match handles s !! other with
        | Some h =>
            {| handles := <[other := None]> (<[self := h]> (handles s)); ended := ended s;
               next := next s |}
        | None => s
        end
    | _, _ => s
    end.

Definition apply (s : t) (o : op) : t :=
  match o with
  | Create => create s
  | MoveConstruct other => move_construct other s
  | MoveAssign self other => move_assign self other s
  | Destruct self => Reset self s
  end.

Definition run (s : t) (ops : list op) : t := fold_left apply ops s.

End Handles.

(** ** Lemmas *)

Section lemmas.
Context {T : Type} (o : T + string).
Implicit Types s : task_state T.

(** What the promise holds when the body has ended. *)
Definition holds (p : promise_type T) : Prop :=
  match o with
  | inl v => result_value p = Some v /\ unhandled_error p = None
  | inr e => unhandled_error p = Some e
  end.

Record task_inv s : Prop := {
  ti_co : match co s with
          | CBody o' => o' = o /\ result_value (promise s) = None /\
                        unhandled_error (promise s) = None /\
                        completion_set (promise s) = false /\ completion (promise s) = None
          | CFinal => holds (promise s) /\ completion_set (promise s) = false /\
                      completion (promise s) = None
          | CPublished | CDone => completion (promise s) = Some o
          end;
  ti_owner : match owner s with
             | OReady | OStore | OGet => continuation (promise s) = false
             | OCheck => continuation (promise s) = true
             | OSuspended => continuation (promise s) = true /\ co s <> CDone
             | OGot r | ODestroyed r => r = o /\ completion (promise s) = Some o
             end;
}.

Lemma PublishCompletion_holds p :
  holds p -> completion_set p = false ->
  completion (PublishCompletion p) = Some o /\
  continuation (PublishCompletion p) = continuation p.
Proof.
  unfold holds, PublishCompletion. intros H ->. destruct o as [v|e].
  - destruct H as [-> ->]. done.
  - by rewrite H.
Qed.

Lemma co_step_inv s : task_inv s -> task_inv (co_step s).
Proof.
  intros [Hc Ho]. unfold co_step. destruct (co s) as [o'| | |] eqn:Ec.
  - destruct Hc as (-> & H1 & H2 & H3 & H4). split; cbn [co promise owner].
    + unfold holds. destruct o as [v|e]; cbn; auto.
    + destruct (owner s); destruct o as [v|e]; cbn; try done; naive_solver.
  - destruct Hc as (H1 & H2 & H3). destruct (PublishCompletion_holds _ H1 H2) as [P1 P2].
    split; cbn [co promise owner]; [done|]. rewrite P1, P2. destruct (owner s); naive_solver.
  - destruct (continuation (promise s)) eqn:Ek.
    + destruct (owner s) eqn:Eo; rewrite ?Hc; split; cbn [co promise owner]; rewrite ?Ek; naive_solver.
    + split; cbn [co promise owner]; [done|]. rewrite Ek. destruct (owner s); naive_solver.
  - split; by rewrite ?Ec.
Qed.

(** What the owner's waiting needs. *)
Definition waits (c : co_state T) (p : promise_type T) (w : owner_state T) : Prop :=
  match w with
  | OReady | OStore | OGet => continuation p = false
  | OCheck => continuation p = true
  | OSuspended => continuation p = true /\ c <> CDone
  | OGot r | ODestroyed r => r = o /\ completion p = Some o
  end.

Lemma owner_moves_inv s w n :
  task_inv s -> waits (co s) (promise s) w -> task_inv (owner_moves s (promise s) w n).
Proof. intros [Hc _] Hw. by split. Qed.

Lemma owner_step_inv s : task_inv s -> task_inv (default s (owner_step s)).
Proof.
  intros Hi. pose proof Hi as [Hc Ho]. unfold owner_step.
  assert (forall r, completion (promise s) = Some r -> r = o /\ completion (promise s) = Some o) as Hr.
  { intros r E. destruct (co s); [destruct Hc as (_ & _ & _ & _ & Hc)|destruct Hc as (_ & _ & Hc)| |];
      rewrite E in Hc; by simplify_eq. }
  assert (completion (promise s) = None -> co s <> CDone) as Hn.
  { intros E Hd. rewrite Hd, E in Hc. done. }
  destruct (owner s) eqn:Eo; cbv zeta.
  - destruct (completion (promise s)) as [r|] eqn:E; apply owner_moves_inv; try done.
    cbn. rewrite E. by apply Hr.
  - split; [exact Hc|done].
  - destruct (completion (promise s)) as [r|] eqn:E; apply owner_moves_inv; try done.
    + cbn. rewrite E. by apply Hr.
    + split; [done|]. by apply Hn.
  - done.
  - destruct (completion (promise s)) as [r|] eqn:E; [|done]. apply owner_moves_inv; try done.
    cbn. rewrite E. by apply Hr.
  - destruct (IsReady (promise s)); [|done]. split; [exact Hc|exact Ho].
  - done.
Qed.

Lemma task_run_inv sched : forall s, task_inv s -> task_inv (run s sched).
Proof.
  induction sched as [|x sched IH]; intros s Hs; [done|]. apply IH.
  destruct x; [by apply co_step_inv|by apply owner_step_inv].
Qed.

Lemma make_task_inv start : start = OReady \/ start = OGet -> task_inv (make_task o start).
Proof. intros [->| ->]; by split; cbn. Qed.

Lemma task_run_app s l1 l2 : run s (l1 ++ l2) = run (run s l1) l2.
Proof. apply fold_left_app. Qed.

Definition co_next (c : co_state T) : co_state T :=
  match c with
  | CBody _ => CFinal
  | CFinal => CPublished
  | CPublished | CDone => CDone
  end.

Lemma co_step_next s : co (co_step s) = co_next (co s).
Proof.
  unfold co_step. destruct (co s) eqn:E; cbn [co co_next]; try done.
  destruct (continuation (promise s)); [|done].
  by destruct (owner s), (completion (promise s)).
Qed.

(** Three steps end the coroutine. *)
Lemma co_finishes s : co (run s (replicate 3 TheCoroutine)) = CDone.
Proof.
  unfold run. cbn [replicate fold_left step]. rewrite !co_step_next. by destruct (co s).
Qed.

(** When the result is there, a step of the owner brings it nearer to the end. *)
Definition owner_left (w : owner_state T) : nat :=
  match w with
  | OReady | OGet | OCheck => 2
  | OStore => 3
  | OSuspended => 0
  | OGot _ => 1
  | ODestroyed _ => 0
  end.

Lemma owner_step_left s :
  task_inv s -> co s = CDone ->
  owner_left (owner (step s TheOwner)) = owner_left (owner s) - 1 /\ co (step s TheOwner) = CDone.
Proof.
  intros [Hc Ho] Ed. rewrite Ed in Hc. cbn [step]. unfold owner_step, IsReady. cbv zeta.
  destruct (owner s) eqn:Eo; rewrite ?Hc; cbn [default owner_moves owner co owner_left];
    rewrite ?Eo; auto.
Qed.

(** Then four steps of the owner take the result and destroy the task. *)
Lemma owner_finishes s :
  task_inv s -> co s = CDone -> owner (run s (replicate 4 TheOwner)) = ODestroyed o.
Proof.
  intros Hi Ed. set (s' := run s (replicate 4 TheOwner)).
  assert (owner_left (owner s') = owner_left (owner s) - 4 /\ co s' = CDone) as [Hl Hd'].
  { unfold s', run. cbn [replicate fold_left].
    destruct (owner_step_left s Hi Ed) as [L1 D1].
    pose proof (task_run_inv [TheOwner] s Hi) as I1.
    destruct (owner_step_left _ I1 D1) as [L2 D2].
    pose proof (task_run_inv [TheOwner; TheOwner] s Hi) as I2.
    destruct (owner_step_left _ I2 D2) as [L3 D3].
    pose proof (task_run_inv [TheOwner; TheOwner; TheOwner] s Hi) as I3.
    destruct (owner_step_left _ I3 D3) as [L4 D4].
    unfold run in *. cbn [fold_left] in *. split; [lia|done]. }
  pose proof (task_run_inv (replicate 4 TheOwner) s Hi) as [Hc' Ho']. fold s' in Hc', Ho'.
  assert (owner_left (owner s) <= 3) by (destruct (owner s); simpl; lia).
  destruct (owner s') as [| | | | |r|r]; simpl in Hl; try lia; [|by destruct Ho' as [-> _]].
  destruct Ho' as [_ []]. done.
Qed.

End lemmas.

(** *** One thread *)

Section one_thread.
Context {T : Type} (o : T + string).
Implicit Types s : task_state T.

Definition turns (s : task_state T) (xs : list side) : task_state T := fold_left turn xs s.

(** The states between two turns. *)
Definition calm (start : owner_state T) (s : task_state T) : Prop :=
  faults s = [] /\
  (s = make_task o start \/
   (start = OReady /\ co s = CBody o /\ promise s = set_continuation make_promise /\
    destroyed s = false /\ owner s = OSuspended /\ resumes s = 0) \/
   (co s = CDone /\ completion (promise s) = Some o /\
    ((owner s = start /\ destroyed s = false /\ resumes s = 0) \/
     (owner s = OGot o /\ destroyed s = false /\ resumes s = 1) \/
     (owner s = ODestroyed o /\ resumes s = 1)))).

Lemma turn_coroutine_done s : co s = CDone -> turn s TheCoroutine = s.
Proof.
  intros Hd. unfold turn, run. cbn [replicate fold_left step].
  assert (co_step s = s) as E by (unfold co_step; by rewrite Hd). by rewrite !E.
Qed.

Lemma turn_owner_done s :
  co s = CDone -> completion (promise s) = Some o -> faults s = [] ->
  (owner s = OReady \/ owner s = OGet) /\ destroyed s = false /\ resumes s = 0 \/
  owner s = OGot o /\ destroyed s = false /\ resumes s = 1 \/
  owner s = ODestroyed o /\ resumes s = 1 ->
  let s' := turn s TheOwner in
  co s' = CDone /\ completion (promise s') = Some o /\ faults s' = [] /\
  owner s' = ODestroyed o /\ resumes s' = 1.
Proof.
  destruct s as [[cp k rv ue cs] d c w n f]. cbn [co promise completion faults owner destroyed resumes].
  intros -> -> -> [([-> | ->] & -> & ->)|[(-> & -> & ->)|(-> & ->)]]; destruct o; done.
Qed.

Lemma turn_calm start s x :
  start = OReady \/ start = OGet -> calm start s -> calm start (turn s x).
Proof.
  intros Hstart [Hf [->|[(-> & Hc & Hp & Hd & Ho & Hr)|(Hc & Hp & Hs)]]].
  - destruct x.
    + split; [by destruct o|]. right. right.
      destruct Hstart as [-> | ->]; destruct o; (split; [done|]; split; [done|]; by left).
    + destruct Hstart as [-> | ->]; (split; [done|]); [right; left|left]; done.
  - destruct s as [p d c w n f]. cbn [co promise destroyed owner resumes faults] in *. subst.
    destruct x; (split; [by destruct o|]).
    + right. right. destruct o; (split; [done|]; split; [done|]; right; by left).
    + right. left. done.
  - destruct x; [rewrite turn_coroutine_done by done; split; [done|]; by right; right|].
    destruct (turn_owner_done s Hc Hp Hf) as (H1 & H2 & H3 & H4 & H5).
    { destruct Hs as [(-> & Hs)|Hs]; [by left|by right]. }
    split; [done|]. right. right. auto 10.
Qed.

Lemma turns_calm start xs : forall s,
  start = OReady \/ start = OGet -> calm start s -> calm start (turns s xs).
Proof.
  induction xs as [|x xs IH]; intros s Hst Hs; [done|]. apply IH; [done|]. by apply turn_calm.
Qed.

End one_thread.

(** *** Handles *)

Module HandleFacts.
Import Handles.

Definition live (s : t) : list nat := omap (fun h => h) (handles s).

Definition handles_ok (s : t) : Prop :=
  NoDup (ended s ++ live s) /\ Forall (fun h => h < next s) (ended s ++ live s).

Lemma live_insert (l : list (option nat)) i h h' :
  l !! i = Some h ->
  omap (fun h => h) (<[i := h']> l) ++ (if h is Some x then [x] else []) ≡ₚ
  omap (fun h => h) l ++ (if h' is Some x then [x] else []).
Proof.
  revert i. induction l as [|y l IH]; intros [|i] E; simplify_eq/=.
  - destruct h as [x|], h' as [x'|]; simpl; solve_Permutation.
  - specialize (IH i E). destruct y as [y|]; simpl; [|done]. by rewrite IH.
Qed.

Lemma ok_perm s s' :
  handles_ok s -> ended s' ++ live s' ≡ₚ ended s ++ live s -> next s' = next s -> handles_ok s'.
Proof. intros [H1 H2] HP Hn. unfold handles_ok. rewrite HP, Hn. done. Qed.

Lemma Reset_ok self s : handles_ok s -> handles_ok (Reset self s).
Proof.
  intros Hs. unfold Reset. destruct (handles s !! self) as [[h|]|] eqn:E; try done.
  apply (ok_perm s); [done| |done]. unfold live. cbn [handles ended].
  pose proof (live_insert _ _ _ None E) as HP. simpl in HP. rewrite app_nil_r in HP. rewrite <- HP.
  solve_Permutation.
Qed.

Lemma handles_apply_ok s x : handles_ok s -> handles_ok (apply s x).
Proof.
  intros Hs. destruct x as [|other|self other|self]; cbn [apply].
  - destruct Hs as [H1 H2]. unfold handles_ok, create, live in *. cbn [handles ended next].
    rewrite omap_app, app_assoc. simpl. split.
    + apply NoDup_app. split; [done|]. split; [|by apply NoDup_singleton].
      intros x Hx. rewrite list_elem_of_singleton. intros ->.
      rewrite Forall_forall in H2. apply H2 in Hx. lia.
    + apply Forall_app. split; [|by repeat constructor].
      eapply Forall_impl; [exact H2|]. simpl. lia.
  - unfold move_construct. destruct (handles s !! other) as [h|] eqn:E; [|done].
    apply (ok_perm s); [done| |done]. unfold live. cbn [handles ended].
    rewrite omap_app. pose proof (live_insert _ _ _ None E) as HP. simpl in HP.
    rewrite app_nil_r in HP. apply Permutation_app_head. rewrite <- HP.
    destruct h; simpl; by rewrite ?app_nil_r.
  - unfold move_assign. destruct (Nat.eqb_spec self other) as [|Hne]; [done|].
    destruct (handles s !! self) as [h0|] eqn:E1; [|done].
    destruct (handles s !! other) as [h1|] eqn:E2; [|done].
    pose proof (Reset_ok self s Hs) as Hr. set (s' := Reset self s) in *.
    destruct (handles s' !! other) as [h|] eqn:E3; [|done].
    assert (handles s' !! self = Some None) as E4.
    { unfold s', Reset. rewrite E1. destruct h0; cbn [handles]; [|done].
      rewrite list_lookup_insert_eq; [done|]. by eapply lookup_lt_Some. }
    apply (ok_perm s'); [done| |done]. unfold live. cbn [handles ended]. apply Permutation_app_head.
    pose proof (live_insert _ _ _ h E4) as HP1. simpl in HP1. rewrite app_nil_r in HP1.
    assert (<[self := h]> (handles s') !! other = Some h) as E5 by (by rewrite list_lookup_insert_ne).
    pose proof (live_insert _ _ _ None E5) as HP2. rewrite app_nil_r in HP2.
    apply (Permutation_app_inv_r (if h is Some x then [x] else [])). by rewrite HP2, HP1.
  - by apply Reset_ok.
Qed.

Lemma handles_run_ok ops : forall s, handles_ok s -> handles_ok (run s ops).
Proof. induction ops as [|x ops IH]; intros s Hs; [done|]. apply IH. by apply handles_apply_ok. Qed.

End HandleFacts.

(** ** Theorems *)


(** [Task<void>], which the coroutines of the server's connections return, is the general
    template at the one-element type: under every schedule both sides are in the same places,
    continue as often and make the same mistakes; so its owner gets the end of the coroutine,
    whoever is faster. *)
Theorem void_task_result_reaches_owner (o : unit + string) start sched :
  start = OReady \/ start = OGet ->
  let s := VoidTask.run (VoidTask.make_task o start) sched in
  let s' := run (make_task o start) sched in
  VoidTask.owner s = owner s' /\ VoidTask.co s = co s' /\ VoidTask.destroyed s = destroyed s' /\
  VoidTask.resumes s = resumes s' /\ VoidTask.faults s = faults s' /\
  VoidTask.owner (VoidTask.run s (replicate 3 TheCoroutine ++ replicate 4 TheOwner)) = ODestroyed o.
Proof.
  intros Hst s s'.
  assert (VoidTask.alike (VoidTask.make_task o start) (make_task o start)) as Ha by by split.
  destruct (VoidTask.alike_run sched _ _ Ha) as [_ D C O R F]. do 5 (split; [done|]).
  rewrite (VoidTask.ak_owner _ _ (VoidTask.alike_run _ _ _ (VoidTask.alike_run sched _ _ Ha))).
  rewrite task_run_app. apply owner_finishes; [|apply co_finishes]. apply task_run_inv, task_run_inv.
  by apply make_task_inv.
Qed.

(** On one thread a task is sound: when the coroutine and its owner take turns,
    each running until it waits or ends (as the connections of a worker and their
    coroutines do), nothing touches a destroyed frame, nothing running is resumed,
    and the owner continues exactly once, with the result. *)
Theorem task_sound_on_one_thread {T : Type} (o : T + string) start xs :
  start = OReady \/ start = OGet ->
  let s := turns (make_task o start) xs in
  faults s = [] /\ resumes s <= 1 /\
  (forall r, owner s = ODestroyed r -> r = o /\ resumes s = 1).
Proof.
  intros Hst s.
  assert (calm o start s) as [Hf Hs] by (apply turns_calm; [done|]; split; [done|]; by left).
  split; [done|]. destruct Hs as [->|[(_ & _ & _ & _ & Ho & Hr)|(_ & _ & [(Ho & _ & Hr)|[(Ho & _ & Hr)|(Ho & Hr)]])]].
  - split; [simpl; lia|]. intros r E. simpl in E. destruct Hst; congruence.
  - rewrite Hr, Ho. split; [lia|done].
  - rewrite Hr, Ho. split; [lia|]. intros r E. destruct Hst; congruence.
  - rewrite Hr, Ho. split; [lia|done].
  - rewrite Hr, Ho. split; [lia|]. intros r E. split; congruence.
Qed.

(** C35: on two threads a waiting coroutine can be resumed twice: [await_suspend]
    registers the continuation and only then looks whether the task has completed;
    when the other thread publishes in between, it resumes the continuation while
    [await_suspend] returns false and resumes it as well. *)
Theorem task_double_resume {T : Type} (v : T) :
  let s := run (make_task (inl v) OReady)
             [TheOwner; TheOwner; TheCoroutine; TheCoroutine; TheOwner; TheCoroutine] in
  resumes s = 2 /\ faults s = [ResumeRunning].
Proof. split; reflexivity. Qed.

(** [SyncWait] on a task that completes on another thread can free the frame under
    it: [Get] returns as soon as the result is published, the destructor destroys the
    frame, and the final awaiter then reads the continuation from it. *)
Theorem task_get_frees_running_frame {T : Type} (v : T) :
  let s := run (make_task (inl v) OGet)
             [TheCoroutine; TheCoroutine; TheOwner; TheOwner; TheCoroutine] in
  owner s = ODestroyed (inl v) /\ faults s = [UseAfterDestroy].
Proof. split; reflexivity. Qed.

(** The frames of tasks are destroyed at most once, and never while a task object
    still owns them, through any sequence of moves, assignments (to itself too) and
    destructions. *)
Theorem task_frames_destroyed_once ops :
  let s := Handles.run Handles.make ops in
  NoDup (Handles.ended s) /\
  forall h, h ∈ Handles.ended s -> Some h ∉ Handles.handles s.
Proof.
  intros s. assert (HandleFacts.handles_ok s) as [Hn _].
  { apply HandleFacts.handles_run_ok. split; [constructor|constructor]. }
  apply NoDup_app in Hn as (H1 & H2 & _). split; [done|].
  intros h Hh Hin. apply (H2 h Hh). unfold HandleFacts.live. apply list_elem_of_omap. by exists (Some h).
Qed.

(** ** Witnesses *)


Lemma task_sound_on_one_thread_witness :
  resumes (turns (make_task (inl 7) OReady) [TheOwner; TheCoroutine; TheOwner]) = 1.
Proof.
  apply (task_sound_on_one_thread (inl 7) OReady [TheOwner; TheCoroutine; TheOwner]
    (or_introl eq_refl)) with (r := inl 7).
  vm_compute. reflexivity.
Defined.

Lemma void_task_result_reaches_owner_witness :
  VoidTask.owner (VoidTask.run (VoidTask.run (VoidTask.make_task (inl tt) OReady) [TheOwner; TheOwner])
    (replicate 3 TheCoroutine ++ replicate 4 TheOwner)) = ODestroyed (inl tt).
Proof. apply (void_task_result_reaches_owner (inl tt) OReady [TheOwner; TheOwner]). by left. Defined.
