(* ===== verification/ThreadPool.v ===== *)
(** * The thread pool (common/thread_pool.h, common/thread_pool.cpp)

    Every thread is a state machine whose steps are its accesses to shared
    memory.  The queue of a worker is the abstract queue that
    the refinement theorem of MpscRingQueue.v shows the lock-free code to implement
    ([Spec.step]): a claimed entry is not visible before it is published.  A
    thread that waits on the condition variable may wake at any time, as
    spurious wakeups allow, so the mutex and the notifications do not restrict
    the behaviours below.  Tasks are numbers; [claimed] and [executed] are
    history. *)

From Stdlib Require Import ZArith Lia.
From S2P Require Import Prelude MpscRingQueue SpecQueue.

Local Open Scope string_scope.
Local Open Scope list_scope.
Local Open Scope Z_scope.

Definition kQueueCapacity : Z := 1024.
Definition kBatchSize : nat := 32.

Abbreviation task := nat.

(** ** State *)

Record WorkerData := {
  queue : list (entry task);
  is_waiting : bool;
  pending : Z;
  claimed : list task;
  executed : list task;
}.

Definition WorkerData_new : WorkerData :=
  {| queue := []; is_waiting := false; pending := 0; claimed := []; executed := [] |}.

(** Where a worker is in [WorkerMain]. *)
Inductive wstate :=
  | WPop (batch : list task)
  | WPending (batch : list task)
  | WActivate (batch : list task)
  | WRun (count : nat) (batch : list task)
  | WDeactivate (count : nat)
  | WComplete (count : nat)
  | WStop1
  | WSetWaiting
  | WCheckEmpty
  | WClearContinue
  | WStop2
  | WClearExit
  | WWait
  | WBlocked
  | WExited.

(** Where a thread is in [Submit]; [SIdle] holds its [local_index] and what its
    last call returned. *)
Inductive sstate :=
  | SIdle (local_index : Z) (returned : bool)
  | SCheck (local_index : Z) (x : task)
  | STry (local_index : Z) (x : task) (idx : nat) (attempt : nat)
  | SSlow (local_index : Z) (x : task) (idx : nat)
  | SSlowCheck (local_index : Z) (x : task) (idx : nat)
  | SBlocked (local_index : Z) (x : task) (idx : nat)
  | SPublish (local_index : Z) (idx : nat)
  | SPending (local_index : Z) (idx : nat)
  | SSubmitted (local_index : Z) (idx : nat)
  | SNotify (local_index : Z) (idx : nat).

Record ThreadPool := {
  thread_count_ : nat;
  worker_data_ : list WorkerData;
  workers_ : list wstate;
  accepting_tasks_ : bool;
  stop_requested_ : bool;
  active_workers_ : Z;
  submitted_tasks_ : Z;
  completed_tasks_ : Z;
  submitters : gmap nat sstate;
}.

(** ** Construction, start, stop *)

Definition make_pool (thread_count : nat) : ThreadPool :=
  {| thread_count_ := if (thread_count =? 0)%nat then 1%nat else thread_count;
     worker_data_ := []; workers_ := []; accepting_tasks_ := false;
     stop_requested_ := false; active_workers_ := 0; submitted_tasks_ := 0;
     completed_tasks_ := 0; submitters := ∅ |}.

Definition with_flags (p : ThreadPool) (accepting stop : bool)
    (wd : list WorkerData) (ws : list wstate) : ThreadPool :=
  {| thread_count_ := thread_count_ p; worker_data_ := wd; workers_ := ws;
     accepting_tasks_ := accepting; stop_requested_ := stop;
     active_workers_ := active_workers_ p; submitted_tasks_ := submitted_tasks_ p;
     completed_tasks_ := completed_tasks_ p; submitters := submitters p |}.

(** [thread_failure] is the exception of [std::thread] when a thread cannot be
    created: the threads already started are joined and forgotten. *)
Definition Start (p : ThreadPool) (thread_failure : option string) (error_msg : option string)
    : bool * option string * ThreadPool :=
  match worker_data_ p with
  | _ :: _ => (false, set_error error_msg "thread pool already started", p)
  | [] =>
      match thread_failure with
      | Some what =>
          (false, set_error error_msg ("failed to start thread pool: " +:+ what),
           with_flags p false true [] [])
      | None =>
          (true, error_msg,
           with_flags p true false
             (replicate (thread_count_ p) WorkerData_new)
             (replicate (thread_count_ p) (WPop [])))
      end
  end.

(** The two exchanges of [Stop]; the notifications that follow only wake
    threads. *)
Definition Stop_accepting (p : ThreadPool) : ThreadPool :=
  with_flags p false (stop_requested_ p) (worker_data_ p) (workers_ p).

Definition Stop_request (p : ThreadPool) : ThreadPool :=
  with_flags p (accepting_tasks_ p) true (worker_data_ p) (workers_ p).

(** [Join] blocks until every worker has returned. *)
Definition Join (p : ThreadPool) : option ThreadPool :=
  if forallb (fun w => match w with WExited => true | _ => false end) (workers_ p)
  then Some (with_flags p (accepting_tasks_ p) (stop_requested_ p) [] [])
  else None.

Definition IsRunning (p : ThreadPool) : bool := accepting_tasks_ p.

Record StatsSnapshot := {
  thread_count : nat;
  active_workers : Z;
  queue_size : Z;
  submitted_tasks : Z;
  completed_tasks : Z;
  accepting_tasks : bool;
}.

Definition GetStatsSnapshot (p : ThreadPool) : StatsSnapshot :=
  {| thread_count := thread_count_ p; active_workers := active_workers_ p;
     queue_size := fold_left (fun n d => wrap64 (n + pending d)) (worker_data_ p) 0;
     submitted_tasks := submitted_tasks_ p; completed_tasks := completed_tasks_ p;
     accepting_tasks := accepting_tasks_ p |}.

(** ** A step of a worker *)

Definition set_queue (d : WorkerData) (q : list (entry task)) : WorkerData :=
  {| queue := q; is_waiting := is_waiting d; pending := pending d;
     claimed := claimed d; executed := executed d |}.

Definition set_waiting (d : WorkerData) (b : bool) : WorkerData :=
  {| queue := queue d; is_waiting := b; pending := pending d;
     claimed := claimed d; executed := executed d |}.

Definition add_pending (d : WorkerData) (n : Z) : WorkerData :=
  {| queue := queue d; is_waiting := is_waiting d; pending := wrap64 (pending d + n);
     claimed := claimed d; executed := executed d |}.

Definition run_task (d : WorkerData) (x : task) : WorkerData :=
  {| queue := queue d; is_waiting := is_waiting d; pending := pending d;
     claimed := claimed d; executed := executed d ++ [x] |}.

Definition push_claim (d : WorkerData) (t : nat) (x : task) : WorkerData :=
  {| queue := q_claim t x (queue d); is_waiting := is_waiting d; pending := pending d;
     claimed := claimed d ++ [x]; executed := executed d |}.

(** One step of [WorkerMain]: the worker's next state, its data, and the
    changes of the two counters it shares with the others. *)
Definition WorkerMain_step (stop : bool) (d : WorkerData) (w : wstate)
    : wstate * WorkerData * Z * Z :=
  match w with
  | WPop batch =>
      if (length batch <? kBatchSize)%nat then
        match q_pop (queue d) with
        | Some (x, q) => (WPop (batch ++ [x]), set_queue d q, 0, 0)
        | None =>
            match batch with
            | [] => (WStop1, d, 0, 0)
            | _ => (WPending batch, d, 0, 0)
            end
        end
      else (WPending batch, d, 0, 0)
  | WPending batch => (WActivate batch, add_pending d (- Z.of_nat (length batch)), 0, 0)
  | WActivate batch => (WRun (length batch) batch, d, 1, 0)
  | WRun n (x :: batch) => (WRun n batch, run_task d x, 0, 0)
  | WRun n [] => (WDeactivate n, d, 0, 0)
  | WDeactivate n => (WComplete n, d, -1, 0)
  | WComplete n => (WPop [], d, 0, Z.of_nat n)
  | WStop1 => (if stop then WExited else WSetWaiting, d, 0, 0)
  | WSetWaiting => (WCheckEmpty, set_waiting d true, 0, 0)
  | WCheckEmpty => (if Spec.ready (queue d) then WClearContinue else WStop2, d, 0, 0)
  | WClearContinue => (WPop [], set_waiting d false, 0, 0)
  | WStop2 => (if stop then WClearExit else WWait, d, 0, 0)
  | WClearExit => (WExited, set_waiting d false, 0, 0)
  | WWait => (if stop || Spec.ready (queue d) then WClearContinue else WBlocked, d, 0, 0)
  | WBlocked => (WWait, d, 0, 0)
  | WExited => (WExited, d, 0, 0)
  end.

Definition worker_step (p : ThreadPool) (i : nat) : ThreadPool :=
  match worker_data_ p !! i, workers_ p !! i with
  | Some d, Some w =>
      let '(w', d', da, dc) := WorkerMain_step (stop_requested_ p) d w in
      {| thread_count_ := thread_count_ p;
         worker_data_ := <[i := d']> (worker_data_ p);
         workers_ := <[i := w']> (workers_ p);
         accepting_tasks_ := accepting_tasks_ p; stop_requested_ := stop_requested_ p;
         active_workers_ := wrap64 (active_workers_ p + da);
         submitted_tasks_ := submitted_tasks_ p;
         completed_tasks_ := wrap64 (completed_tasks_ p + dc);
         submitters := submitters p |}
  | _, _ => p
  end.

(** ** A step of a submitter *)

(** One step of [Submit] of thread [t] on a pool of [n] workers: its next
    state, the data it changes, and the change of [submitted_tasks_].  [get]
    reads [*worker_data_[idx]]. *)
Definition Submit_step (t n : nat) (accepting : bool) (get : nat -> WorkerData) (s : sstate)
    : sstate * option (nat * WorkerData) * Z :=
  match s with
  | SIdle li r => (SIdle li r, None, 0)
  | SCheck li x =>
      if accepting then
        (STry (wrap64 (li + 1)) x (Z.to_nat (li mod Z.of_nat n)) 0, None, 0)
      else (SIdle li false, None, 0)
  | STry li x idx attempt =>
      if (attempt <? n)%nat then
        if q_full kQueueCapacity (queue (get idx)) then
          (STry li x ((idx + 1) mod n) (S attempt), None, 0)
        else (SPublish li idx, Some (idx, push_claim (get idx) t x), 0)
      else (SSlow li x idx, None, 0)
  | SSlow li x idx =>
      if q_full kQueueCapacity (queue (get idx)) then (SSlowCheck li x idx, None, 0)
      else (SPublish li idx, Some (idx, push_claim (get idx) t x), 0)
  | SSlowCheck li x idx =>
      if accepting then (SBlocked li x idx, None, 0) else (SIdle li false, None, 0)
  | SBlocked li x idx => (SSlow li x idx, None, 0)
  | SPublish li idx =>
      (SPending li idx, Some (idx, set_queue (get idx) (q_publish t (queue (get idx)))), 0)
  | SPending li idx => (SSubmitted li idx, Some (idx, add_pending (get idx) 1), 0)
  | SSubmitted li idx => (SNotify li idx, None, 1)
  | SNotify li idx => (SIdle li true, None, 0)
  end.

Definition submitter_step (p : ThreadPool) (t : nat) : ThreadPool :=
  match submitters p !! t with
  | None => p
  | Some s =>
      let get idx := default WorkerData_new (worker_data_ p !! idx) in
      let '(s', upd, dn) := Submit_step t (thread_count_ p) (accepting_tasks_ p) get s in
      {| thread_count_ := thread_count_ p;
         worker_data_ := match upd with
                         | Some (idx, d) => <[idx := d]> (worker_data_ p)
                         | None => worker_data_ p
                         end;
         workers_ := workers_ p; accepting_tasks_ := accepting_tasks_ p;
         stop_requested_ := stop_requested_ p; active_workers_ := active_workers_ p;
         submitted_tasks_ := wrap64 (submitted_tasks_ p + dn);
         completed_tasks_ := completed_tasks_ p;
         submitters := <[t := s']> (submitters p) |}
  end.

(** A thread calls [Submit]: with an empty [std::function] it returns at once. *)
Definition begin_submit (p : ThreadPool) (t : nat) (x : option task) : ThreadPool :=
  let li := match submitters p !! t with Some (SIdle li _) => li | _ => 0 end in
  {| thread_count_ := thread_count_ p; worker_data_ := worker_data_ p; workers_ := workers_ p;
     accepting_tasks_ := accepting_tasks_ p; stop_requested_ := stop_requested_ p;
     active_workers_ := active_workers_ p; submitted_tasks_ := submitted_tasks_ p;
     completed_tasks_ := completed_tasks_ p;
     submitters := <[t := match x with
                          | Some x => SCheck li x
                          | None => SIdle li false
                          end]> (submitters p) |}.

Definition s_idle (s : option sstate) : bool :=
  match s with
  | None | Some (SIdle _ _) => true
  | _ => false
  end.

(** ** Runs *)

Inductive action :=
  | AWorker (i : nat)
  | ASubmitter (t : nat)
  | ABegin (t : nat) (x : option task)
  | AStopAccepting
  | AStopRequest.

#[export] Instance action_eq_dec : EqDecision action.
Proof. solve_decision. Defined.

Definition act (p : ThreadPool) (a : action) : ThreadPool :=
  match a with
  | AWorker i => worker_step p i
  | ASubmitter t => submitter_step p t
  | ABegin t x => if s_idle (submitters p !! t) then begin_submit p t x else p
  | AStopAccepting => Stop_accepting p
  | AStopRequest => Stop_request p
  end.

(** Any interleaving is a list of actions. *)
Definition run (p : ThreadPool) (acts : list action) : ThreadPool := fold_left act acts p.

(** A pool of [n] threads that has just been started. *)
Definition started (n : nat) : ThreadPool := snd (Start (make_pool n) None None).

(** ** Invariants *)

(** The tasks a worker has popped and not yet executed. *)
Definition in_hand (w : wstate) : list task :=
  match w with
  | WPop b | WPending b | WActivate b | WRun _ b => b
  | _ => []
  end.

(** Every claimed task is executed, in the worker's hands, or queued; in order. *)
Definition balanced (d : WorkerData) (w : wstate) : Prop :=
  claimed d = executed d ++ in_hand w ++ q_values (queue d).

Definition publishing (s : option sstate) (i : nat) : nat :=
  match s with
  | Some (SPublish _ idx) => if (idx =? i)%nat then 1 else 0
  | _ => 0
  end.

Definition target (s : sstate) : option nat :=
  match s with
  | STry _ _ i _ | SSlow _ _ i | SSlowCheck _ _ i | SBlocked _ _ i
  | SPublish _ i | SPending _ i | SSubmitted _ i | SNotify _ i => Some i
  | _ => None
  end.

Record pool_ok (p : ThreadPool) : Prop := {
  ok_count : (0 < thread_count_ p)%nat;
  ok_data : length (worker_data_ p) = thread_count_ p;
  ok_workers : length (workers_ p) = thread_count_ p;
  ok_balanced : forall i d w,
    worker_data_ p !! i = Some d -> workers_ p !! i = Some w -> balanced d w;
  ok_published : forall i d t,
    worker_data_ p !! i = Some d ->
    unpublished t (queue d) = publishing (submitters p !! t) i;
  ok_target : forall t s i,
    submitters p !! t = Some s -> target s = Some i -> (i < thread_count_ p)%nat;
}.

(** *** Preservation *)

Lemma WorkerMain_step_ok stop d w w' d' da dc :
  WorkerMain_step stop d w = (w', d', da, dc) -> balanced d w ->
  balanced d' w' /\ forall t, unpublished t (queue d') = unpublished t (queue d).
Proof.
  unfold balanced. intros E Hb.
  destruct w as [b|b|b|n [|x b]|n|n| | | | | | | | |]; simpl in *; simplify_eq/=;
    try (by split).
  - repeat (split_match_in E; simplify_eq/=; try (by split)).
    destruct (unpublished_pop 0 _ _ _ Heqo) as [_ Ht]. rewrite Ht in Hb.
    split; [by rewrite Hb, <- !app_assoc|]. intros t. symmetry. by apply (unpublished_pop t _ _ _ Heqo).
  - split; [|done]. by rewrite Hb, <- app_assoc.
  - by destruct stop.
  - by destruct (Spec.ready _).
  - by destruct stop.
  - by destruct (stop || _).
Qed.

Lemma worker_step_ok p i : pool_ok p -> pool_ok (worker_step p i).
Proof.
  intros Hp. unfold worker_step.
  destruct (worker_data_ p !! i) as [d|] eqn:Ed; [|done].
  destruct (workers_ p !! i) as [w|] eqn:Ew; [|done].
  destruct (WorkerMain_step _ d w) as [[[w' d'] da] dc] eqn:E.
  destruct (WorkerMain_step_ok _ _ _ _ _ _ _ E (ok_balanced _ Hp _ _ _ Ed Ew)) as [Hb Hu].
  destruct Hp. split; simpl; rewrite ?length_insert; try done.
  - intros j d1 w1 [(<- & <- & _)|[Hne H1]]%list_lookup_insert_Some
      [(? & <- & _)|[? H2]]%list_lookup_insert_Some; try done; eauto.
  - intros j d1 t [(<- & <- & _)|[Hne H1]]%list_lookup_insert_Some; [|eauto].
    rewrite Hu. eauto.
Qed.

(** What a step of [Submit] does to the data of a worker. *)
Lemma Submit_step_ok t n acc get s s' upd dn :
  (0 < n)%nat -> Submit_step t n acc get s = (s', upd, dn) ->
  (forall i, target s = Some i -> (i < n)%nat) ->
  (forall i, publishing (Some s) i = unpublished t (queue (get i))) ->
  (forall i, target s' = Some i -> (i < n)%nat) /\
  match upd with
  | None => forall i, publishing (Some s') i = publishing (Some s) i
  | Some (idx, d) =>
      target s = Some idx /\
      (forall w, balanced (get idx) w -> balanced d w) /\
      (forall i, i <> idx -> publishing (Some s') i = publishing (Some s) i) /\
      unpublished t (queue d) = publishing (Some s') idx /\
      (forall u, u <> t -> unpublished u (queue d) = unpublished u (queue (get idx)))
  end.
Proof.
  intros Hn E Ht Hu.
  assert (forall li x idx, publishing (Some s) idx = 0%nat -> target s = Some idx ->
    s' = SPublish li idx -> upd = Some (idx, push_claim (get idx) t x) ->
    (forall i, publishing (Some s) i = 0%nat) ->
    (forall i, target s' = Some i -> (i < n)%nat) /\
    target s = Some idx /\
    (forall w, balanced (get idx) w -> balanced (push_claim (get idx) t x) w) /\
    (forall i, i <> idx -> publishing (Some s') i = publishing (Some s) i) /\
    unpublished t (queue (push_claim (get idx) t x)) = publishing (Some s') idx /\
    (forall u, u <> t ->
       unpublished u (queue (push_claim (get idx) t x)) = unpublished u (queue (get idx)))) as Hpush.
  { intros li x idx H0 Hti -> -> Hz. split_and!; auto.
    - intros i [= <-]. by apply Ht.
    - intros w Hb. unfold balanced in *. simpl. by rewrite Hb, q_values_claim, <- !app_assoc.
    - intros i Hi. rewrite Hz. simpl. by rewrite (proj2 (Nat.eqb_neq idx i)).
    - simpl. rewrite unpublished_claim, <- Hu, H0, Nat.eqb_refl. by rewrite decide_True.
    - intros u Hne. simpl. rewrite unpublished_claim, decide_False by done. lia. }
  destruct s as [li r|li x|li x idx at_|li x idx|li x idx|li x idx|li idx|li idx|li idx|li idx];
    cbn [Submit_step target] in *.
  - simplify_eq. by split.
  - destruct acc; simplify_eq; (split; [|done]); [|done].
    intros i [= <-]. apply Nat2Z.inj_lt. rewrite Z2Nat.id; apply Z.mod_pos_bound; lia.
  - destruct (at_ <? n)%nat; [|simplify_eq; by split].
    destruct (q_full _ _); simplify_eq; [|by eapply Hpush].
    split; [|done]. intros i [= <-]. apply Nat.mod_upper_bound. lia.
  - destruct (q_full _ _); simplify_eq; [by split|by eapply Hpush].
  - destruct acc; simplify_eq; by split.
  - simplify_eq. by split.
  - simplify_eq. split; [by intros i [= <-]; apply Ht|]. split_and!; try done.
    + intros w Hb. unfold balanced in *. simpl. by rewrite q_values_publish.
    + intros i Hi. simpl. by rewrite (proj2 (Nat.eqb_neq idx i)).
    + simpl. rewrite unpublished_publish, decide_True, <- Hu by done. simpl.
      by rewrite Nat.eqb_refl.
    + intros u Hne. simpl. rewrite unpublished_publish, decide_False by done. lia.
  - simplify_eq. split; [by intros i [= <-]; apply Ht|]. split_and!; try done.
    symmetry. apply (Hu idx).
  - simplify_eq. by split.
  - simplify_eq. by split.
Qed.

Lemma submitter_step_ok p t : pool_ok p -> pool_ok (submitter_step p t).
Proof.
  intros Hp. unfold submitter_step.
  destruct (submitters p !! t) as [s|] eqn:Es; [|done].
  set (get := fun idx => default WorkerData_new (worker_data_ p !! idx)).
  destruct (Submit_step _ _ _ get s) as [[s' upd] dn] eqn:E.
  assert (forall i d, worker_data_ p !! i = Some d -> get i = d) as Hget
    by (intros i d Hd; unfold get; by rewrite Hd).
  assert (forall i, publishing (Some s) i = unpublished t (queue (get i))) as Hu.
  { intros i. unfold get. destruct (worker_data_ p !! i) as [d|] eqn:Ed; simpl.
    - rewrite (ok_published _ Hp _ _ t Ed), Es. done.
    - apply lookup_ge_None in Ed. rewrite (ok_data _ Hp) in Ed.
      destruct s; simpl; try done. destruct (Nat.eqb_spec idx i) as [->|]; [|done].
      pose proof (ok_target _ Hp _ _ _ Es eq_refl). lia. }
  destruct (Submit_step_ok _ _ _ _ _ _ _ _ (ok_count _ Hp) E
              (fun i => ok_target _ Hp _ _ i Es) Hu) as [Ht Hupd].
  assert (forall u x i, <[t:=s']> (submitters p) !! u = Some x -> target x = Some i ->
    (i < thread_count_ p)%nat) as Htarget.
  { intros u x i [(<- & <-)|[Hne H1]]%lookup_insert_Some; [by apply Ht|].
    by apply (ok_target _ Hp u). }
  destruct upd as [[idx d]|]; destruct Hp; split; simpl; rewrite ?length_insert; try done.
  - destruct Hupd as (_ & Hb & _). intros i d1 w [(<- & <- & Hlt)|[Hne H1]]%list_lookup_insert_Some Hw.
    + destruct (lookup_lt_is_Some_2 _ _ Hlt) as [d0 Hd0]. apply Hb. rewrite (Hget _ _ Hd0). eauto.
    + eauto.
  - destruct Hupd as (_ & _ & Hother & Hsame & Hunp).
    intros i d1 u [(<- & <- & Hlt)|[Hne H1]]%list_lookup_insert_Some.
    + destruct (decide (u = t)) as [->|Hut]; [by rewrite lookup_insert_eq|].
      rewrite lookup_insert_ne, Hunp by done.
      destruct (lookup_lt_is_Some_2 _ _ Hlt) as [d0 Hd0]. rewrite (Hget _ _ Hd0). eauto.
    + destruct (decide (u = t)) as [->|Hut].
      * rewrite lookup_insert_eq, Hother, Hu by done. by rewrite (Hget _ _ H1).
      * rewrite lookup_insert_ne by done. eauto.
  - intros i d1 u H1. destruct (decide (u = t)) as [->|Hut].
    + rewrite lookup_insert_eq, Hupd, Hu. by rewrite (Hget _ _ H1).
    + rewrite lookup_insert_ne by done. eauto.
Qed.

Lemma act_ok p a : pool_ok p -> pool_ok (act p a).
Proof.
  intros Hp. destruct a as [i|t|t x| |]; simpl.
  - by apply worker_step_ok.
  - by apply submitter_step_ok.
  - destruct (s_idle (submitters p !! t)) eqn:Ei; [|done]. destruct Hp. split; simpl; try done.
    + intros i d u Hd. rewrite (ok_published0 _ _ u Hd).
      destruct (decide (u = t)) as [->|]; [|by rewrite lookup_insert_ne].
      rewrite lookup_insert_eq. destruct (submitters p !! t) as [[]|], x; done.
    + intros u s i [(<- & <-)|[Hne H1]]%lookup_insert_Some; [by destruct x|by apply (ok_target0 u)].
  - destruct Hp. by split.
  - destruct Hp. by split.
Qed.

Lemma run_ok acts : forall p, pool_ok p -> pool_ok (run p acts).
Proof.
  induction acts as [|a acts IH]; intros p Hp; [done|]. apply IH. by apply act_ok.
Qed.

Lemma started_ok n : pool_ok (started n).
Proof.
  split; simpl; rewrite ?length_replicate; try done.
  - destruct (n =? 0)%nat eqn:E; breflect; lia.
  - intros i d w [-> _]%lookup_replicate [-> _]%lookup_replicate. done.
  - intros i d t [-> _]%lookup_replicate. by rewrite lookup_empty.
Qed.

(** ** Draining at the stop *)

(** A thread that is past the check of [accepting_tasks_] and may still push. *)
Definition submitting (s : sstate) : bool :=
  match s with
  | SIdle _ _ | SCheck _ _ => false
  | _ => true
  end.

(** The pool refuses new tasks and no [Submit] is in progress. *)
Record closed (p : ThreadPool) : Prop := {
  cl_accepting : accepting_tasks_ p = false;
  cl_stop : stop_requested_ p = true;
  cl_submitters : forall t s, submitters p !! t = Some s -> submitting s = false;
}.

Lemma closed_published p i d :
  pool_ok p -> closed p -> worker_data_ p !! i = Some d -> q_pop (queue d) = None -> queue d = [].
Proof.
  intros Hp Hc Hd. destruct (queue d) as [|[[t x] b] q] eqn:Eq; [done|].
  destruct b; [done|]. intros _. exfalso.
  pose proof (ok_published _ Hp i d t Hd) as Hu.
  rewrite Eq, unpublished_cons, decide_True in Hu by done.
  destruct (submitters p !! t) as [s|] eqn:Es; [|simpl in Hu; lia].
  apply (cl_submitters _ Hc) in Es. destruct s; simpl in *; done || lia.
Qed.

Lemma closed_act p a : closed p -> closed (act p a).
Proof.
  intros [Ha Hs Hsub]. destruct a as [i|t|t x| |]; simpl.
  - unfold worker_step. destruct (worker_data_ p !! i), (workers_ p !! i); try done.
    by destruct (WorkerMain_step _ _ _) as [[[? ?] ?] ?].
  - unfold submitter_step. destruct (submitters p !! t) as [s|] eqn:Es; [|done].
    pose proof (Hsub t s Es) as Hns.
    destruct s; try done; cbn [Submit_step]; rewrite ?Ha; split; simpl; try done;
      intros u s' [(<- & <-)|[_ H1]]%lookup_insert_Some; eauto.
  - destruct (s_idle _); [|done]. split; simpl; try done.
    intros u s' [(<- & <-)|[_ H1]]%lookup_insert_Some; [by destruct x|eauto].
  - by split.
  - by split.
Qed.

(** A closed pool changes the data of a worker only by the worker's own steps. *)
Lemma closed_frame p a i :
  closed p -> a <> AWorker i ->
  worker_data_ (act p a) !! i = worker_data_ p !! i /\ workers_ (act p a) !! i = workers_ p !! i.
Proof.
  intros [Ha Hs Hsub] Hne. destruct a as [j|t|t x| |]; simpl; try done.
  - unfold worker_step. destruct (worker_data_ p !! j) eqn:Ed, (workers_ p !! j) eqn:Ew; try done.
    destruct (WorkerMain_step _ _ _) as [[[? ?] ?] ?]. simpl.
    rewrite !list_lookup_insert_ne by naive_solver. done.
  - unfold submitter_step. destruct (submitters p !! t) as [s|] eqn:Es; [|done].
    pose proof (Hsub t s Es) as Hns. destruct s; try done; cbn [Submit_step]; rewrite ?Ha; done.
  - by destruct (s_idle _).
Qed.

(** The states of a worker that has started a batch after the stop: it exits
    only with an empty queue. *)
Definition draining (d : WorkerData) (w : wstate) : Prop :=
  match w with
  | WPop _ | WPending _ | WActivate _ | WRun _ _ | WDeactivate _ | WComplete _ => True
  | WStop1 | WExited => queue d = []
  | _ => False
  end.

Definition drains (p : ThreadPool) (i : nat) : Prop :=
  exists d w, worker_data_ p !! i = Some d /\ workers_ p !! i = Some w /\ draining d w.

Lemma draining_step d w :
  (q_pop (queue d) = None -> queue d = []) -> draining d w ->
  let '(w', d', _, _) := WorkerMain_step true d w in draining d' w'.
Proof.
  intros Hq Hd.
  destruct w as [b|b|b|n [|x b]|n|n| | | | | | | | |]; simpl in *; try done.
  destruct (length b <? kBatchSize)%nat; [|done].
  destruct (q_pop (queue d)) as [[x q]|] eqn:E; [done|]. destruct b; simpl; auto.
Qed.

Lemma drains_act p a i : pool_ok p -> closed p -> drains p i -> drains (act p a) i.
Proof.
  intros Hp Hc (d & w & Hd & Hw & Hdr).
  destruct (decide (a = AWorker i)) as [->|Hne].
  - simpl. unfold worker_step. rewrite Hd, Hw, (cl_stop _ Hc).
    pose proof (draining_step d w (closed_published p i d Hp Hc Hd) Hdr) as Hs.
    destruct (WorkerMain_step true d w) as [[[w' d'] da] dc]. exists d', w'. simpl.
    rewrite !list_lookup_insert_eq by (by eapply lookup_lt_Some). done.
  - destruct (closed_frame p a i Hc Hne) as [E1 E2]. exists d, w. by rewrite E1, E2.
Qed.

Lemma drains_run acts i : forall p,
  pool_ok p -> closed p -> drains p i -> drains (run p acts) i.
Proof.
  induction acts as [|a acts IH]; intros p Hp Hc Hd; [done|]. simpl.
  apply IH; [by apply act_ok|by apply closed_act|by apply drains_act].
Qed.

(** *** Termination of a worker after the stop *)




(** ** Properties *)

(** C23: in every interleaving of any number of submitting threads with the
    workers and with [Stop], no task is lost inside the pool, run twice or run
    out of order: the tasks claimed in a worker's queue are, in order, those it
    has executed, those of its current batch, and those still queued. *)
Theorem pool_tasks_conserved n acts i d w :
  worker_data_ (run (started n) acts) !! i = Some d ->
  workers_ (run (started n) acts) !! i = Some w ->
  claimed d = executed d ++ in_hand w ++ q_values (queue d).
Proof. apply (ok_balanced _ (run_ok acts _ (started_ok n))). Qed.

(** A worker that begins a batch after [Stop], once no [Submit] is in
    progress, executes every task of its queue before it exits, whatever the
    other threads do. *)
Theorem pool_stop_drains n acts1 acts2 i d0 :
  let p := run (started n) acts1 in
  closed p -> worker_data_ p !! i = Some d0 -> workers_ p !! i = Some (WPop []) ->
  workers_ (run p acts2) !! i = Some WExited ->
  exists d, worker_data_ (run p acts2) !! i = Some d /\ executed d = claimed d.
Proof.
  intros p Hc Hd Hw Hx. assert (pool_ok p) as Hp by apply run_ok, started_ok.
  assert (drains (run p acts2) i) as (d & w & Ed & Ew & Hdr).
  { apply drains_run; [done..|]. by exists d0, (WPop []). }
  exists d. split; [done|]. rewrite Ew in Hx. injection Hx as ->. simpl in Hdr.
  pose proof (ok_balanced _ (run_ok acts2 _ Hp) _ _ _ Ed Ew) as Hb.
  unfold balanced in Hb. rewrite Hb, Hdr. simpl. by rewrite app_nil_r.
Qed.


(** The calls of the example: the only worker finds its queue empty, then a
    thread submits a task and the pool is stopped. *)
Definition lost_task_run : list action :=
  [AWorker 0; ABegin 0 (Some 7%nat)] ++ replicate 6 (ASubmitter 0) ++
  [AStopAccepting; AStopRequest; AWorker 0].

(** C38: a task whose [Submit] returned [true] before [Stop] was called can be
    lost: a worker that found its queue empty just before the task arrived
    reads [stop_requested_] and exits without looking at the queue again, so
    [Join] returns and the task never runs. *)
Theorem pool_loses_accepted_task :
  let p := run (started 1) lost_task_run in
  submitters (run (started 1) (take 8 lost_task_run)) !! 0%nat = Some (SIdle 1 true) /\
  stop_requested_ (run (started 1) (take 8 lost_task_run)) = false /\
  is_Some (Join p) /\
  (fun d => (executed d, q_values (queue d))) <$> worker_data_ p !! 0%nat = Some ([], [7%nat]).
Proof. vm_compute. split_and!; eauto. Qed.

(** ** Witnesses *)

Definition w_acts : list action :=
  [ABegin 0 (Some 7%nat); ABegin 1 (Some 8%nat)] ++ replicate 6 (ASubmitter 0) ++
  replicate 6 (ASubmitter 1) ++ [AStopAccepting; AStopRequest].

Lemma pool_tasks_conserved_witness :
  let p := run (started 1) (w_acts ++ replicate 6 (AWorker 0)) in
  let d := default WorkerData_new (worker_data_ p !! 0%nat) in
  let w := default WExited (workers_ p !! 0%nat) in
  claimed d = [7; 8]%nat /\ executed d = [7]%nat /\
  claimed d = executed d ++ in_hand w ++ q_values (queue d).
Proof.
  split_and!; [vm_compute; reflexivity..|].
  apply (pool_tasks_conserved 1 (w_acts ++ replicate 6 (AWorker 0)) 0); vm_compute; reflexivity.
Defined.

Lemma w_closed : closed (run (started 1) w_acts).
Proof.
  split; [vm_compute; reflexivity..|].
  intros t s Hs.
  assert (map_Forall (fun _ s => submitting s = false) (submitters (run (started 1) w_acts))) as Hf
    by (apply (bool_decide_unpack _); vm_compute; exact I).
  by apply (Hf t).
Qed.

Lemma pool_stop_drains_witness : exists d,
  worker_data_ (run (run (started 1) w_acts) (replicate 12 (AWorker 0))) !! 0%nat = Some d /\
  executed d = claimed d.
Proof.
  eapply (pool_stop_drains 1 w_acts (replicate 12 (AWorker 0)) 0); [apply w_closed|..];
    vm_compute; reflexivity.
Defined.

