(* ===== verification/LoadBalancer.v ===== *)
(** * Load balancing (client/load_balancer.h, client/load_balancer.cpp)

    A candidate is named by a number.  [GetInflightCount] is read several times
    during a selection while other threads change it, so the reads are a
    parameter: [reads pass c] is what the [pass]-th traversal reads for the
    candidate [c].  The class [LoadBalancer] is the abstract base class of the
    source with the promise its callers rely on: the index is one of a
    candidate. *)

From Stdlib Require Import ZArith Lia.
From S2P Require Import Prelude.

Local Open Scope list_scope.
Local Open Scope Z_scope.

Abbreviation reads := (nat -> nat -> Z).

Class LoadBalancer (B : Type) := {
  Select : B -> reads -> list nat -> nat * B;
  Name : string;
  Select_range : forall b rd cs,
    (0 < length cs)%nat -> (fst (Select b rd cs) < length cs)%nat;
}.

(** ** Round robin: the state is [next_index_] *)

Record RoundRobinBalancer := { next_index_ : Z }.

Definition RoundRobin_Select (b : RoundRobinBalancer) (cs : list nat)
    : nat * RoundRobinBalancer :=
  (Z.to_nat (next_index_ b mod Z.of_nat (length cs)),
   {| next_index_ := wrap64 (next_index_ b + 1) |}).

(** ** Least inflight: the state is [tie_breaker_] *)

Record LeastInflightBalancer := { tie_breaker_ : Z }.

Definition size_max : Z := two64 - 1.

(** Step 1: the smallest value read. *)
Definition find_min (rd : nat -> Z) (cs : list nat) : Z :=
  fold_left (fun m c => if rd c <? m then rd c else m) cs size_max.

(** Step 2: the indices whose value is [m]. *)
Fixpoint collect (rd : nat -> Z) (m : Z) (i : nat) (cs : list nat) : list nat :=
  match cs with
  | [] => []
  | c :: cs => if rd c =? m then i :: collect rd m (S i) cs else collect rd m (S i) cs
  end.

(** The retry when no candidate has the minimum any more. *)
Fixpoint rescan (rd : nat -> Z) (m : Z) (ties : list nat) (i : nat) (cs : list nat) : list nat :=
  match cs with
  | [] => ties
  | c :: cs =>
      if rd c <? m then rescan rd (rd c) [i] (S i) cs
      else if rd c =? m then rescan rd m (ties ++ [i]) (S i) cs
      else rescan rd m ties (S i) cs
  end.

Definition tie_indices (rd : reads) (cs : list nat) : list nat :=
  let ties := collect (rd 1%nat) (find_min (rd 0%nat) cs) 0 cs in
  match ties with
  | _ :: _ => ties
  | [] =>
      match rescan (rd 2%nat) size_max [] 0 cs with
      | [] => match cs with [] => [] | _ => [0%nat] end
      | ties => ties
      end
  end.

Definition LeastInflight_Select (b : LeastInflightBalancer) (rd : reads) (cs : list nat)
    : nat * LeastInflightBalancer :=
  let ties := tie_indices rd cs in
  (default 0%nat (ties !! Z.to_nat (tie_breaker_ b mod Z.of_nat (length ties))),
   {| tie_breaker_ := wrap64 (tie_breaker_ b + 1) |}).

(** ** Lemmas *)

Lemma collect_spec rd m cs : forall i j,
  j ∈ collect rd m i cs <-> exists c, (i <= j)%nat /\ cs !! (j - i)%nat = Some c /\ rd c = m.
Proof.
  induction cs as [|c cs IH]; intros i j; simpl.
  - rewrite elem_of_nil. split; [done|]. intros (c & _ & H & _). done.
  - assert ((exists c', (S i <= j)%nat /\ cs !! (j - S i)%nat = Some c' /\ rd c' = m) <->
            (exists c', (i < j)%nat /\ (c :: cs) !! (j - i)%nat = Some c' /\ rd c' = m)) as Hs.
    { split; intros (c' & Hle & Hl & Hr); exists c'; (split; [lia|]); (split; [|done]).
      - by replace (j - i)%nat with (S (j - S i)) by lia.
      - by replace (j - i)%nat with (S (j - S i)) in Hl by lia. }
    assert ((exists c', (i <= j)%nat /\ (c :: cs) !! (j - i)%nat = Some c' /\ rd c' = m) <->
            ((j = i /\ rd c = m) \/
             exists c', (i < j)%nat /\ (c :: cs) !! (j - i)%nat = Some c' /\ rd c' = m)) as Hd.
    { split.
      - intros (c' & Hle & Hl & Hr). destruct (decide (j = i)) as [->|].
        + left. rewrite Nat.sub_diag in Hl. simpl in Hl. injection Hl as ->. done.
        + right. exists c'. split; [lia|done].
      - intros [[-> Hr]|(c' & Hlt & Hl & Hr)].
        + exists c. rewrite Nat.sub_diag. done.
        + exists c'. split; [lia|done]. }
    rewrite Hd, <- Hs, <- (IH (S i) j).
    destruct (Z.eqb_spec (rd c) m); [rewrite elem_of_cons|]; naive_solver.
Qed.

Lemma rescan_range rd cs : forall m ties i n,
  Forall (fun j => (j < n)%nat) ties -> (i + length cs <= n)%nat ->
  Forall (fun j => (j < n)%nat) (rescan rd m ties i cs).
Proof.
  induction cs as [|c cs IH]; intros m ties i n Ht Hn; simpl in *; [done|].
  destruct (rd c <? m); [|destruct (rd c =? m)]; apply IH; try lia; try done.
  - apply Forall_singleton. lia.
  - apply Forall_app. split; [done|]. apply Forall_singleton. lia.
Qed.

Lemma tie_indices_range rd cs :
  (0 < length cs)%nat ->
  tie_indices rd cs <> [] /\ Forall (fun j => (j < length cs)%nat) (tie_indices rd cs).
Proof.
  intros Hn. unfold tie_indices.
  destruct (collect (rd 1%nat) _ 0 cs) as [|j ties] eqn:Ec.
  - pose proof (rescan_range (rd 2%nat) cs size_max [] 0 (length cs) ltac:(constructor) ltac:(lia)) as Hr.
    destruct (rescan _ _ _ _ _); [|done]. destruct cs; simpl in *; [lia|].
    split; [done|]. apply Forall_singleton. lia.
  - split; [done|]. apply Forall_forall. intros x Hx. rewrite <- Ec in Hx.
    apply collect_spec in Hx as (c & _ & Hl%lookup_lt_Some & _). lia.
Qed.

Lemma LeastInflight_Select_in b rd cs :
  (0 < length cs)%nat -> fst (LeastInflight_Select b rd cs) ∈ tie_indices rd cs.
Proof.
  intros Hn. destruct (tie_indices_range rd cs Hn) as [Hne _]. simpl.
  destruct (lookup_lt_is_Some_2 (tie_indices rd cs)
    (Z.to_nat (tie_breaker_ b mod Z.of_nat (length (tie_indices rd cs))))) as [x Hx].
  - destruct (tie_indices rd cs); [done|]. simpl length.
    pose proof (Z.mod_pos_bound (tie_breaker_ b) (Z.of_nat (S (length l)))). lia.
  - rewrite Hx. simpl. by eapply list_elem_of_lookup_2.
Qed.

(** ** The instances *)

#[export] Program Instance RoundRobin_LoadBalancer : LoadBalancer RoundRobinBalancer := {
  Select := fun b _ cs => RoundRobin_Select b cs;
  Name := "RoundRobin";
}.
Next Obligation.
  intros b rd cs Hn. simpl. pose proof (Z.mod_pos_bound (next_index_ b) (Z.of_nat (length cs))). lia.
Qed.

#[export] Program Instance LeastInflight_LoadBalancer : LoadBalancer LeastInflightBalancer := {
  Select := LeastInflight_Select;
  Name := "LeastInflight";
}.
Next Obligation.
  intros b rd cs Hn. pose proof (LeastInflight_Select_in b rd cs Hn) as Hin.
  destruct (tie_indices_range rd cs Hn) as [_ Hf]. by eapply Forall_forall in Hf.
Qed.

(** ** The minimum *)

Lemma find_min_spec (rd : nat -> Z) (cs : list nat) : forall m0,
  let m := fold_left (fun m c => if rd c <? m then rd c else m) cs m0 in
  m <= m0 /\ (forall c, c ∈ cs -> m <= rd c) /\ (m = m0 \/ exists c : nat, c ∈ cs /\ rd c = m).
Proof.
  induction cs as [|c cs IH]; intros m0; simpl.
  - split; [lia|]. split; [|by left]. intros c Hc. by apply elem_of_nil in Hc.
  - specialize (IH (if rd c <? m0 then rd c else m0)). simpl in IH.
    set (m := fold_left _ cs _) in *. destruct IH as (H1 & H2 & H3).
    destruct (Z.ltb_spec (rd c) m0).
    + split_and!; [lia| |].
      * intros c' [->|Hc]%elem_of_cons; [lia|auto].
      * right. destruct H3 as [->|(c' & ? & ?)]; [exists c|exists c']; split; try done; set_solver.
    + split_and!; [lia| |].
      * intros c' [->|Hc]%elem_of_cons; [lia|auto].
      * destruct H3 as [->|(c' & ? & ?)]; [by left|right; exists c'; split; [set_solver|done]].
Qed.

Lemma min_ties rd cs :
  (0 < length cs)%nat -> (forall c, c ∈ cs -> rd 0%nat c <= size_max) ->
  (forall c, rd 1%nat c = rd 0%nat c) ->
  forall j, j ∈ tie_indices rd cs ->
  exists c, cs !! j = Some c /\ forall c', c' ∈ cs -> rd 0%nat c <= rd 0%nat c'.
Proof.
  intros Hn Hmax Heq j. unfold tie_indices.
  destruct (find_min_spec (rd 0%nat) cs size_max) as (H1 & H2 & H3).
  fold (find_min (rd 0%nat) cs) in H1, H2, H3.
  assert (exists c, c ∈ cs /\ rd 0%nat c = find_min (rd 0%nat) cs) as (c0 & Hc0 & Hm).
  { destruct H3 as [H3|H3]; [|done]. destruct cs as [|c cs]; simpl in *; [lia|].
    exists c. split; [left|]. specialize (H2 c ltac:(left)). specialize (Hmax c ltac:(left)). lia. }
  destruct (collect (rd 1%nat) (find_min (rd 0%nat) cs) 0 cs) as [|i ties] eqn:Ec.
  - exfalso. apply list_elem_of_lookup in Hc0 as [k Hk].
    assert (k ∈ collect (rd 1%nat) (find_min (rd 0%nat) cs) 0 cs) as Hin.
    { apply collect_spec. exists c0. rewrite Nat.sub_0_r, Heq. split_and!; [lia|done|done]. }
    rewrite Ec in Hin. by apply elem_of_nil in Hin.
  - rewrite <- Ec. intros (c & _ & Hl & Hr)%collect_spec. rewrite Nat.sub_0_r in Hl.
    exists c. split; [done|]. rewrite Heq in Hr. rewrite Hr. done.
Qed.

(** [n] successive selections. *)
Fixpoint RoundRobin_selects (n : nat) (b : RoundRobinBalancer) (cs : list nat) : list nat :=
  match n with
  | O => []
  | S n => let '(i, b') := RoundRobin_Select b cs in i :: RoundRobin_selects n b' cs
  end.

Lemma RoundRobin_selects_mod n : forall b cs,
  0 <= next_index_ b -> next_index_ b + Z.of_nat n <= two64 ->
  RoundRobin_selects n b cs =
  map (fun k => Z.to_nat ((next_index_ b + Z.of_nat k) mod Z.of_nat (length cs))) (seq 0 n).
Proof.
  induction n as [|n IH]; intros b cs H0 Hn; [done|]. simpl. f_equal.
  - by rewrite Z.add_0_r.
  - rewrite <- seq_shift, map_map.
    destruct (decide (n = 0%nat)) as [->|Hne]; [done|].
    assert (wrap64 (next_index_ b + 1) = next_index_ b + 1) as Hw by (apply wrap64_small; lia).
    rewrite IH by (simpl; rewrite Hw; lia). simpl. rewrite Hw.
    apply map_ext. intros k. do 2 f_equal. lia.
Qed.

(** ** Properties *)

(** With stable inflight counts the least-inflight strategy picks a
    candidate with the smallest count; and whatever the racing threads make the
    three traversals read, the index is one of a candidate. *)
Theorem least_inflight_minimal b rd cs :
  (0 < length cs)%nat ->
  (fst (LeastInflight_Select b rd cs) < length cs)%nat /\
  ((forall c, c ∈ cs -> rd 0%nat c <= size_max) -> (forall c, rd 1%nat c = rd 0%nat c) ->
   exists c, cs !! fst (LeastInflight_Select b rd cs) = Some c /\
             forall c', c' ∈ cs -> rd 0%nat c <= rd 0%nat c').
Proof.
  intros Hn. split.
  - exact (Select_range b rd cs Hn).
  - intros Hmax Heq. by eapply min_ties, LeastInflight_Select_in.
Qed.

(** Round robin is fair: as many successive selections as there are
    candidates, wherever the counter stands (short of its wrap-around), pick
    each candidate exactly once. *)
Theorem round_robin_fair b cs :
  (0 < length cs)%nat -> 0 <= next_index_ b ->
  next_index_ b + Z.of_nat (length cs) <= two64 ->
  RoundRobin_selects (length cs) b cs ≡ₚ seq 0 (length cs).
Proof.
  intros Hn H0 Hw. rewrite RoundRobin_selects_mod by done.
  set (n := length cs) in *. set (f := fun k => _).
  assert (forall k, (f k < n)%nat) as Hf.
  { intros k. unfold f. pose proof (Z.mod_pos_bound (next_index_ b + Z.of_nat k) (Z.of_nat n)). lia. }
  assert (NoDup (map f (seq 0 n))) as Hnd.
  { apply NoDup_fmap_2_strong; [|apply NoDup_ListNoDup, seq_NoDup].
    intros x y Hx%elem_of_seq Hy%elem_of_seq E. unfold f in E.
    pose proof (Z.mod_pos_bound (next_index_ b + Z.of_nat x) (Z.of_nat n)).
    pose proof (Z.mod_pos_bound (next_index_ b + Z.of_nat y) (Z.of_nat n)).
    pose proof (Z.div_mod (next_index_ b + Z.of_nat x) (Z.of_nat n)).
    pose proof (Z.div_mod (next_index_ b + Z.of_nat y) (Z.of_nat n)).
    assert ((next_index_ b + Z.of_nat x) / Z.of_nat n = (next_index_ b + Z.of_nat y) / Z.of_nat n)
      by nia. nia. }
  apply submseteq_length_Permutation.
  - apply NoDup_submseteq; [done|]. intros x (k & -> & _)%list_elem_of_fmap.
    apply elem_of_seq. pose proof (Hf k). lia.
  - by rewrite length_map, !length_seq.
Qed.

(** ** Witnesses *)

Lemma least_inflight_minimal_witness :
  exists c, [0; 1; 2]%nat !! fst (LeastInflight_Select {| tie_breaker_ := 4 |}
     (fun _ c => match c with 1%nat => 2 | _ => 7 end) [0; 1; 2]%nat) = Some c /\ c = 1%nat.
Proof.
  destruct (least_inflight_minimal {| tie_breaker_ := 4 |}
     (fun _ c => match c with 1%nat => 2 | _ => 7 end) [0; 1; 2]%nat ltac:(simpl; lia)) as [_ H].
  destruct H as (c & Hc & Hm).
  - intros c _. destruct c as [|[|c]]; vm_compute; discriminate.
  - done.
  - exists c. split; [exact Hc|]. vm_compute in Hc. by injection Hc as <-.
Defined.

Lemma round_robin_fair_witness :
  RoundRobin_selects 3 {| next_index_ := 5 |} [4; 6; 8]%nat ≡ₚ [0; 1; 2]%nat.
Proof.
  apply (round_robin_fair {| next_index_ := 5 |} [4; 6; 8]%nat); vm_compute; try discriminate; lia.
Defined.
