(* ===== verification/RpcClientPool.v ===== *)
(** * The pool of clients (client/rpc_client_pool.h, client/rpc_client_pool.cpp)

    A channel is named by its index in [channels_].  The clients behind the
    channels are the environment of the pool: what the [k]-th attempt of a call
    returns on channel [c] is [client_call k c].  The balancer is any instance
    of the class [LoadBalancer].  Other threads change the counters and the
    health flags of the channels between the steps of a call: [env k] is what
    they do before the [k]-th attempt, an arbitrary change that keeps the
    channels themselves. *)

From Stdlib Require Import ZArith Lia.
From S2P Require Import Prelude RpcError PendingCalls LoadBalancer.

Local Open Scope string_scope.
Local Open Scope list_scope.

(** ** Data *)

Record Channel := {
  host : string;
  port : Z;
  success_count : Z;
  fail_count : Z;
  select_count : Z;
  consecutive_failures : Z;
  healthy : bool;
}.

Record Endpoint := { ep_host : string; ep_port : Z }.

Inductive LoadBalanceStrategy := kRoundRobin | kLeastInflight.

Definition make_channel (ep : Endpoint) : Channel :=
  {| host := ep_host ep; port := ep_port ep; success_count := 0; fail_count := 0;
     select_count := 0; consecutive_failures := 0; healthy := true |}.

Definition EndpointString (ch : Channel) : string := host ch +:+ ":" +:+ to_string (port ch).

(** The constructor: the channels, and the balancer's initial state for the
    strategy ([None] when there are no endpoints). *)
Definition make_channels (endpoints : list Endpoint) : list Channel := map make_channel endpoints.

Definition make_balancer (endpoints : list Endpoint) (s : LoadBalanceStrategy)
    : option (RoundRobinBalancer + LeastInflightBalancer) :=
  match endpoints with
  | [] => None
  | _ => Some (match s with
               | kLeastInflight => inr {| tie_breaker_ := 0 |}
               | kRoundRobin => inl {| next_index_ := 0 |}
               end)
  end.

Definition StrategyName (b : option (RoundRobinBalancer + LeastInflightBalancer)) : string :=
  match b with
  | None => "none"
  | Some (inl _) => Name (B := RoundRobinBalancer)
  | Some (inr _) => Name (B := LeastInflightBalancer)
  end.

(** ** Health and statistics *)

Definition set_health (ch : Channel) (failures : Z) (h : bool) : Channel :=
  {| host := host ch; port := port ch; success_count := success_count ch;
     fail_count := fail_count ch; select_count := select_count ch;
     consecutive_failures := failures; healthy := h |}.

Definition RecordReachability (max_failures : Z) (ch : Channel) (reachable : bool) : Channel :=
  if reachable then set_health ch 0 true
  else
    let failures := wrap64 (consecutive_failures ch + 1) in
    set_health ch failures (if (max_failures <=? failures)%Z then false else healthy ch).

Definition RecordCallResult (ch : Channel) (r : RpcCallResult) : Channel :=
  let ok := RpcCallResult_ok r in
  {| host := host ch; port := port ch;
     success_count := if ok then wrap64 (success_count ch + 1) else success_count ch;
     fail_count := if ok then fail_count ch else wrap64 (fail_count ch + 1);
     select_count := select_count ch; consecutive_failures := consecutive_failures ch;
     healthy := healthy ch |}.

Definition count_select (ch : Channel) : Channel :=
  {| host := host ch; port := port ch; success_count := success_count ch;
     fail_count := fail_count ch; select_count := wrap64 (select_count ch + 1);
     consecutive_failures := consecutive_failures ch; healthy := healthy ch |}.

Definition IsConnectionError (r : RpcCallResult) : bool :=
  if RpcCallResult_ok r then false
  else
    let msg := message (status r) in
    str_contains "connect failed" msg || str_contains "send request failed" msg ||
    str_contains "connection closed" msg || str_contains "connection inactive" msg ||
    str_contains "dispatcher stopped" msg || str_contains "call timeout" msg.

(** [Warmup]: [connects c] is what [Connect] of channel [c] returns. *)
Definition Warmup (max_failures : Z) (chs : list Channel) (connects : nat -> bool)
    : bool * list Channel :=
  (existsb connects (seq 0 (length chs)),
   imap (fun c ch => if connects c then set_health ch 0 true
                     else set_health ch max_failures false) chs).

Record EndpointStats := {
  es_endpoint : string;
  es_inflight : Z;
  es_success_count : Z;
  es_fail_count : Z;
  es_select_count : Z;
  es_healthy : bool;
  es_connected : bool;
}.

Definition GetStats (chs : list Channel) (inflight : nat -> Z) (connected : nat -> bool)
    : list EndpointStats :=
  imap (fun c ch =>
    {| es_endpoint := EndpointString ch; es_inflight := inflight c;
       es_success_count := success_count ch; es_fail_count := fail_count ch;
       es_select_count := select_count ch; es_healthy := healthy ch;
       es_connected := connected c |}) chs.

(** What the detached thread of [CallAsync] does when the inner future is
    ready, written out there a second time. *)
Definition CallAsync_record (max_failures : Z) (ch : Channel) (r : RpcCallResult) : Channel :=
  let ch :=
    if RpcCallResult_ok r then
      {| host := host ch; port := port ch; success_count := wrap64 (success_count ch + 1);
         fail_count := fail_count ch; select_count := select_count ch;
         consecutive_failures := consecutive_failures ch; healthy := healthy ch |}
    else
      {| host := host ch; port := port ch; success_count := success_count ch;
         fail_count := wrap64 (fail_count ch + 1); select_count := select_count ch;
         consecutive_failures := consecutive_failures ch; healthy := healthy ch |} in
  let is_connection_err :=
    if RpcCallResult_ok r then false
    else
      let msg := message (status r) in
      str_contains "connect failed" msg || str_contains "send request failed" msg ||
      str_contains "connection closed" msg || str_contains "connection inactive" msg ||
      str_contains "dispatcher stopped" msg || str_contains "call timeout" msg in
  if negb is_connection_err then set_health ch 0 true
  else
    let failures := wrap64 (consecutive_failures ch + 1) in
    set_health ch failures (if (max_failures <=? failures)%Z then false else healthy ch).

(** ** Selection *)

Section pool.
Context {B : Type} `{LoadBalancer B} (max_failures : Z).

Record state := { channels_ : list Channel; balancer_ : B }.

Definition candidates (chs : list Channel) (excluded : list nat) : list nat :=
  filter (fun c => healthy <$> chs !! c = Some true /\ c ∉ excluded) (seq 0 (length chs)).

Definition update (p : state) (c : nat) (f : Channel -> Channel) : state :=
  {| channels_ := alter f c (channels_ p); balancer_ := balancer_ p |}.

(** [SelectChannel]; [rd] is what the balancer reads of the inflight counts. *)
Definition SelectChannel (rd : reads) (p : state) (excluded : list nat)
    : option nat * state :=
  match candidates (channels_ p) excluded with
  | [] => (match channels_ p with [] => None | _ => Some 0%nat end, p)
  | cs =>
      let '(i, b) := Select (balancer_ p) rd cs in
      match cs !! i with
      | None => (None, p)
      | Some c =>
          (Some c, update {| channels_ := channels_ p; balancer_ := b |} c count_select)
      end
  end.

(** ** Calls *)

Section calls.
Context (rd : nat -> reads).
Context (env : nat -> list Channel -> list Channel).
Context (client_call : nat -> nat -> RpcCallResult).

Definition env_step (k : nat) (p : state) : state :=
  {| channels_ := env k (channels_ p); balancer_ := balancer_ p |}.

(** The loop of [Call]: the result, the final state, and the attempts made. *)
Fixpoint Call_loop (fuel attempt : nat) (attempted : list nat) (p : state)
    : RpcCallResult * state * list nat :=
  match fuel with
  | O =>
      (failure kInternalError
         ("all channels failed after " +:+ to_string (Z.of_nat attempt) +:+ " attempts"),
       p, attempted)
  | S fuel =>
      let '(ch, p) := SelectChannel (rd attempt) (env_step attempt p) attempted in
      match ch with
      | None => (failure kInternalError "no channel available", p, attempted)
      | Some c =>
          let attempted := attempted ++ [c] in
          let result := client_call attempt c in
          let p := update p c (fun ch => RecordCallResult ch result) in
          if RpcCallResult_ok result then
            (result, update p c (fun ch => RecordReachability max_failures ch true), attempted)
          else if IsConnectionError result then
            Call_loop fuel (S attempt) attempted
              (update p c (fun ch => RecordReachability max_failures ch false))
          else
            (result, update p c (fun ch => RecordReachability max_failures ch true), attempted)
      end
  end.

Definition Call (p : state) : RpcCallResult * state * list nat :=
  match channels_ p with
  | [] => (failure kInternalError "no endpoints configured", p, [])
  | _ => Call_loop (length (channels_ p)) 0 [] p
  end.

(** [CallCo] from its start to its result; and [CallAsync] up to its return: the
    channel whose client got the request, or the failure the future already
    holds. *)
Definition CallCo (p : state) : RpcCallResult * state :=
  let '(ch, p) := SelectChannel (rd 0) p [] in
  match ch with
  | None => (failure kInternalError "no channel available", p)
  | Some c =>
      let result := client_call 0 c in
      (result,
       update (update p c (fun ch => RecordCallResult ch result)) c
         (fun ch => RecordReachability max_failures ch (negb (IsConnectionError result))))
  end.

Definition CallAsync (p : state) : (RpcCallResult + nat) * state :=
  let '(ch, p) := SelectChannel (rd 0) p [] in
  match ch with
  | None => (inl (failure kInternalError "no channel available"), p)
  | Some c => (inr c, p)
  end.

End calls.

(** ** Lemmas *)

Lemma candidates_spec chs excluded c :
  c ∈ candidates chs excluded <->
  exists ch, chs !! c = Some ch /\ healthy ch = true /\ c ∉ excluded.
Proof.
  unfold candidates. rewrite list_elem_of_filter, elem_of_seq.
  destruct (chs !! c) as [ch|] eqn:E; simpl.
  - apply lookup_lt_Some in E as Hlt. split.
    + intros ([[= ?] ?] & _). eauto.
    + intros (ch' & [= ->] & Hh & He). rewrite Hh. split; [done|lia].
  - split; [by intros [[? _] _]|by intros (? & ? & _)].
Qed.

Lemma SelectChannel_spec rd p excluded :
  let '(r, p') := SelectChannel rd p excluded in
  length (channels_ p') = length (channels_ p) /\
  ((exists c, r = Some c /\ c ∈ candidates (channels_ p) excluded /\
      channels_ p' = alter count_select c (channels_ p)) \/
   (candidates (channels_ p) excluded = [] /\ p' = p /\
    r = if decide (channels_ p = []) then None else Some 0%nat)).
Proof.
  unfold SelectChannel. destruct (candidates (channels_ p) excluded) as [|c0 cs] eqn:Ec.
  - split; [done|]. right. split_and!; try done. by destruct (channels_ p).
  - pose proof (Select_range (balancer_ p) rd (c0 :: cs) ltac:(simpl; lia)) as Hr.
    destruct (Select (balancer_ p) rd (c0 :: cs)) as [i b]. simpl fst in Hr.
    destruct (lookup_lt_is_Some_2 _ _ Hr) as [c Hc]. rewrite Hc. simpl.
    rewrite length_alter. split; [done|]. left. exists c. split_and!; try done.
    by eapply list_elem_of_lookup_2.
Qed.

Section call_lemmas.
Context (rd : nat -> reads) (env : nat -> list Channel -> list Channel).
Context (client_call : nat -> nat -> RpcCallResult).
Hypothesis env_length : forall k chs, length (env k chs) = length chs.



End call_lemmas.

(** *** Channels that stay unhealthy *)

Definition unhealthy (p : state) (c : nat) : Prop :=
  exists ch, channels_ p !! c = Some ch /\ healthy ch = false.

Lemma unhealthy_update p c c' f :
  unhealthy p c -> c' <> c -> unhealthy (update p c' f) c.
Proof.
  intros (ch & E & Hh) Hne. exists ch. simpl. by rewrite list_lookup_alter_ne.
Qed.

Lemma SelectChannel_unhealthy rd p excluded c r p' :
  unhealthy p c -> c <> 0%nat -> SelectChannel rd p excluded = (r, p') ->
  unhealthy p' c /\ r <> Some c.
Proof.
  intros (ch & E & Hh) Hc0 Hs. pose proof (SelectChannel_spec rd p excluded) as Hsp.
  rewrite Hs in Hsp. destruct Hsp as [_ [(c' & -> & Hc & Hch)|(_ & -> & ->)]].
  - assert (c' <> c).
    { intros ->. apply candidates_spec in Hc as (ch' & E' & Hh' & _). congruence. }
    split; [|congruence]. exists ch. rewrite Hch, list_lookup_alter_ne; done.
  - split; [by exists ch|]. destruct (decide _); congruence.
Qed.

Lemma Call_loop_unhealthy rd client_call fuel : forall k att p c r p' att',
  unhealthy p c -> c <> 0%nat -> c ∉ att ->
  Call_loop rd (fun _ chs => chs) client_call fuel k att p = (r, p', att') ->
  unhealthy p' c /\ c ∉ att'.
Proof.
  induction fuel as [|fuel IH]; intros k att p c r p' att' Hu Hc0 Hna; cbn [Call_loop].
  { by intros [= _ <- <-]. }
  assert (unhealthy (env_step (fun _ chs => chs) k p) c) as Hu' by exact Hu.
  destruct (SelectChannel (rd k) (env_step _ k p) att) as [r1 p1] eqn:Es.
  destruct (SelectChannel_unhealthy _ _ _ _ _ _ Hu' Hc0 Es) as [Hu1 Hr].
  destruct r1 as [c1|]; [|by intros [= _ <- <-]].
  assert (c1 <> c) by congruence.
  assert (c ∉ att ++ [c1]) by (rewrite not_elem_of_app, list_elem_of_singleton; split; congruence).
  destruct (RpcCallResult_ok _).
  { intros [= _ <- <-]. split; [|done]. by repeat apply unhealthy_update. }
  destruct (IsConnectionError _).
  - apply IH; try done. by repeat apply unhealthy_update.
  - intros [= _ <- <-]. split; [|done]. by repeat apply unhealthy_update.
Qed.

End pool.
Arguments state B : clear implicits.

(** *** The health of a channel after a series of results *)

(** The connection errors since the last other result. *)
Definition trailing (rs : list RpcCallResult) : nat :=
  fold_left (fun n r => if IsConnectionError r then S n else 0%nat) rs 0%nat.

Definition record_one (max_failures : Z) (ch : Channel) (r : RpcCallResult) : Channel :=
  RecordReachability max_failures (RecordCallResult ch r) (negb (IsConnectionError r)).

Lemma trailing_snoc rs r :
  trailing (rs ++ [r]) = if IsConnectionError r then S (trailing rs) else 0%nat.
Proof. unfold trailing. by rewrite fold_left_app. Qed.

Lemma trailing_le rs : (trailing rs <= length rs)%nat.
Proof.
  induction rs as [|r rs IH] using rev_ind; [done|].
  rewrite trailing_snoc, length_app. destruct (IsConnectionError r); simpl; lia.
Qed.

Lemma record_health max_failures ch rs :
  (1 <= max_failures)%Z -> (Z.of_nat (length rs) < two64)%Z ->
  consecutive_failures ch = 0%Z -> healthy ch = true ->
  let ch' := fold_left (record_one max_failures) rs ch in
  consecutive_failures ch' = Z.of_nat (trailing rs) /\
  healthy ch' = (Z.of_nat (trailing rs) <? max_failures)%Z.
Proof.
  intros Hm Hl H0 Hh. induction rs as [|r rs IH] using rev_ind; simpl.
  - split; [done|]. rewrite Hh. symmetry. apply Z.ltb_lt. change (Z.of_nat (trailing [])) with 0%Z. lia.
  - rewrite length_app in Hl. simpl in Hl. destruct IH as [IH1 IH2]; [lia|].
    rewrite fold_left_app. simpl. rewrite trailing_snoc.
    set (ch1 := fold_left (record_one max_failures) rs ch) in *. clearbody ch1.
    unfold record_one, RecordReachability. destruct (IsConnectionError r); simpl.
    + pose proof (trailing_le rs). rewrite IH1, wrap64_small by lia. split; [lia|].
      rewrite IH2. destruct (Z.leb_spec max_failures (Z.of_nat (trailing rs) + 1)).
      * symmetry. apply Z.ltb_ge. lia.
      * transitivity true; [apply Z.ltb_lt; lia|symmetry; apply Z.ltb_lt; lia].
    + split; [done|]. symmetry. apply Z.ltb_lt. lia.
Qed.

(** ** Properties *)


(** A selection returns a healthy channel that was not tried before,
    counting the selection, whenever there is one; otherwise it returns the
    first channel, even if it is unhealthy or was already tried, and changes
    nothing; [nullptr] only when the pool has no channels. *)
Theorem select_channel_choice {B} `{LoadBalancer B} rd (p : state B) excluded :
  let usable c := exists ch, channels_ p !! c = Some ch /\ healthy ch = true /\ c ∉ excluded in
  let '(r, p') := SelectChannel rd p excluded in
  ((exists c, usable c) ->
     exists c ch, r = Some c /\ usable c /\ channels_ p !! c = Some ch /\
       channels_ p' !! c = Some (count_select ch)) /\
  (~ (exists c, usable c) ->
     p' = p /\ r = if decide (channels_ p = []) then None else Some 0%nat).
Proof.
  intros usable. pose proof (SelectChannel_spec rd p excluded) as Hs.
  destruct (SelectChannel rd p excluded) as [r p'].
  destruct Hs as [_ [(c & -> & Hc & Hch)|(Hnil & -> & ->)]].
  - apply candidates_spec in Hc as Hu. split; [|intros Hn; destruct Hn; by exists c].
    intros _. destruct Hu as (ch & E & Hu). exists c, ch. split_and!; try done; [by exists ch|].
    by rewrite Hch, list_lookup_alter_eq, E.
  - split; [|done]. intros [c Hc]. apply candidates_spec in Hc.
    rewrite Hnil in Hc. by apply elem_of_nil in Hc.
Qed.

(** The health of a channel is decided by its latest results: it is
    unhealthy exactly when at least [max_consecutive_failures] connection errors
    have followed the last result of another kind. *)
Theorem health_threshold max_failures ep rs :
  (1 <= max_failures)%Z -> (Z.of_nat (length rs) < two64)%Z ->
  let ch := fold_left (record_one max_failures) rs (make_channel ep) in
  consecutive_failures ch = Z.of_nat (trailing rs) /\
  healthy ch = (Z.of_nat (trailing rs) <? max_failures)%Z.
Proof. intros Hm Hl. by apply record_health. Qed.

(** The bookkeeping that [CallAsync] repeats in its detached thread is the
    one [CallCo] does through [RecordCallResult] and [RecordReachability]. *)
Theorem async_record_agrees max_failures ch r :
  CallAsync_record max_failures ch r = record_one max_failures ch r.
Proof.
  unfold CallAsync_record, record_one, RecordReachability, RecordCallResult, IsConnectionError.
  destruct (RpcCallResult_ok r); [done|]. cbn [consecutive_failures].
  by destruct (str_contains "connect failed" (message (status r)) || _).
Qed.

(** A channel other than the first that has become unhealthy is never
    tried again: whatever calls are made, with whatever results, it stays
    unhealthy, although its server may be back. *)
Theorem unhealthy_is_forever {B} `{LoadBalancer B} max_failures rd client_call (p : state B) c :
  unhealthy p c -> c <> 0%nat ->
  (let '(_, p', tried) := Call max_failures rd (fun _ chs => chs) client_call p in
   unhealthy p' c /\ c ∉ tried) /\
  unhealthy (snd (CallCo max_failures rd client_call p)) c /\
  fst (CallAsync rd p) <> inr c /\ unhealthy (snd (CallAsync rd p)) c.
Proof.
  intros Hu Hc0. unfold CallCo, CallAsync.
  destruct (SelectChannel (rd 0) p []) as [r1 p1] eqn:Es.
  destruct (SelectChannel_unhealthy _ _ _ _ _ _ Hu Hc0 Es) as [Hu1 Hr].
  split_and!.
  - unfold Call. destruct (channels_ p) eqn:Ec.
    + split; [done|]. apply not_elem_of_nil.
    + rewrite <- Ec. destruct (Call_loop _ _ _ _ _ _ _ _) as [[r p'] tried] eqn:E.
      eapply (Call_loop_unhealthy max_failures rd client_call _ 0 [] p); [done|done| |exact E].
      apply not_elem_of_nil.
  - destruct r1 as [c1|]; [|done]. assert (c1 <> c) by congruence.
    by repeat apply unhealthy_update.
  - destruct r1; simpl; congruence.
  - by destruct r1.
Qed.

(** ** Witnesses *)

Definition w_pool : state RoundRobinBalancer :=
  {| channels_ := make_channels [{| ep_host := "a"; ep_port := 1 |}; {| ep_host := "b"; ep_port := 2 |}];
     balancer_ := {| next_index_ := 0 |} |}.

Definition w_call (k c : nat) : RpcCallResult :=
  match c with
  | O => failure kInternalError "connect failed: refused"
  | _ => {| status := Status_Ok; response_payload := "pong" |}
  end.


Lemma health_threshold_witness :
  healthy (fold_left (record_one 2) [w_call 0 0; w_call 0 0] (make_channel {| ep_host := "a"; ep_port := 1 |})) = false.
Proof.
  destruct (health_threshold 2 {| ep_host := "a"; ep_port := 1 |} [w_call 0 0; w_call 0 0]) as [_ H];
    [lia|vm_compute; reflexivity|rewrite H; vm_compute; reflexivity].
Defined.

Lemma unhealthy_is_forever_witness :
  let p := update w_pool 1 (fun ch => set_health ch 3 false) in
  unhealthy (snd (CallCo 3 (fun _ _ _ => 0%Z) w_call p)) 1.
Proof.
  apply (unhealthy_is_forever 3 (fun _ _ _ => 0%Z) w_call); [|discriminate].
  eexists. split; [vm_compute; reflexivity|reflexivity].
Defined.
