(* ===== verification/EventLoop.v ===== *)
(** * The client's event loop (client/event_loop.h, client/event_loop.cpp)

    The kernel side of [epoll_wait] is a parameter of [WaitOnce]: the token of
    the event it reports, a timeout, or an error.  The token of the socket is
    its descriptor, because [ev.data.fd] is written into a zeroed 64-bit
    field. *)

From Stdlib Require Import ZArith Lia.
From S2P Require Import Prelude Posix.

Local Open Scope Z_scope.

Definition kWakeToken : Z := 1.

Inductive WaitResult := kReadable | kTimeout | kWakeup | kError.

#[export] Instance WaitResult_eq_dec : EqDecision WaitResult.
Proof. solve_decision. Defined.

(** [wake_count] is the counter of the eventfd; [registered] the tokens known
    to epoll. *)
Record EventLoop := {
  epoll_fd_ : UniqueFd.t;
  wake_fd_ : UniqueFd.t;
  read_fd_ : Z;
  wake_count : Z;
  registered : list Z;
}.

Definition make_loop : EventLoop :=
  {| epoll_fd_ := UniqueFd.empty; wake_fd_ := UniqueFd.empty; read_fd_ := -1;
     wake_count := 0; registered := [] |}.

(** [Init]: [epoll] and [evfd] are what the two system calls return, [ctl] an
    error of [epoll_ctl]. *)
Definition Init (l : EventLoop) (epoll evfd : Z) (ctl : option errno) : bool * EventLoop :=
  let l1 := {| epoll_fd_ := fst (UniqueFd.Reset (epoll_fd_ l) epoll); wake_fd_ := wake_fd_ l;
               read_fd_ := read_fd_ l; wake_count := wake_count l;
               registered := registered l |} in
  if negb (UniqueFd.Valid (epoll_fd_ l1)) then (false, l1)
  else
    let l2 := {| epoll_fd_ := epoll_fd_ l1; wake_fd_ := fst (UniqueFd.Reset (wake_fd_ l1) evfd);
                 read_fd_ := read_fd_ l1; wake_count := 0; registered := registered l1 |} in
    if negb (UniqueFd.Valid (wake_fd_ l2)) then (false, l2)
    else
      match ctl with
      | Some _ => (false, l2)
      | None =>
          (true, {| epoll_fd_ := epoll_fd_ l2; wake_fd_ := wake_fd_ l2; read_fd_ := read_fd_ l2;
                    wake_count := 0; registered := kWakeToken :: registered l2 |})
      end.

Definition SetReadFd (l : EventLoop) (fd : Z) (ctl : option errno) : bool * EventLoop :=
  if negb (UniqueFd.Valid (epoll_fd_ l)) then (false, l)
  else
    match ctl with
    | Some _ => (false, l)
    | None =>
        (true, {| epoll_fd_ := epoll_fd_ l; wake_fd_ := wake_fd_ l; read_fd_ := fd;
                  wake_count := wake_count l; registered := fd :: registered l |})
    end.

(** What [epoll_wait] returned. *)
Inductive epoll_outcome :=
  | EpollNone
  | EpollErr (e : errno)
  | EpollEvent (token : Z).

Definition WaitOnce (l : EventLoop) (o : epoll_outcome) : WaitResult * EventLoop :=
  if negb (UniqueFd.Valid (epoll_fd_ l)) || (read_fd_ l <? 0) then (kError, l)
  else
    match o with
    | EpollNone => (kTimeout, l)
    | EpollErr e => (if decide (e = EINTR) then kTimeout else kError, l)
    | EpollEvent token =>
        if token =? kWakeToken then
          (kWakeup, {| epoll_fd_ := epoll_fd_ l; wake_fd_ := wake_fd_ l; read_fd_ := read_fd_ l;
                       wake_count := 0; registered := registered l |})
        else (kReadable, l)
    end.

(** [Wakeup] adds one to the counter unless that would overflow it ([EAGAIN],
    which is ignored). *)
Definition Wakeup (l : EventLoop) : EventLoop :=
  if negb (UniqueFd.Valid (wake_fd_ l)) then l
  else {| epoll_fd_ := epoll_fd_ l; wake_fd_ := wake_fd_ l; read_fd_ := read_fd_ l;
          wake_count := if wake_count l + 1 <? two64 - 1 then wake_count l + 1 else wake_count l;
          registered := registered l |}.

(** The events the kernel can report: the wake token when the counter is not
    zero, the socket's token when it is readable. *)
Definition may_report (l : EventLoop) (readable : bool) (token : Z) : Prop :=
  token ∈ registered l /\
  ((token = kWakeToken /\ 0 < wake_count l) \/ (token = read_fd_ l /\ readable = true)).

(** ** Properties *)

(** On an initialised loop, a readable socket is reported as readable and
    a wakeup as a wakeup that resets the counter, so that the next wait reports
    it no more, for every descriptor but 1: that one is the wake token, and its
    data would be reported as wakeups for ever. *)
Theorem event_loop_tokens ep ev fd l :
  0 <= ep -> 0 <= ev -> 0 <= fd ->
  snd (SetReadFd (snd (Init make_loop ep ev None)) fd None) = l ->
  read_fd_ l = fd /\
  (fd <> 1 -> may_report l true fd /\ fst (WaitOnce l (EpollEvent fd)) = kReadable) /\
  (fd = 1 -> fst (WaitOnce l (EpollEvent fd)) = kWakeup) /\
  (let '(r, l') := WaitOnce (Wakeup l) (EpollEvent kWakeToken) in
   may_report (Wakeup l) false kWakeToken /\ r = kWakeup /\ wake_count l' = 0 /\
   ~ may_report l' false kWakeToken).
Proof.
  intros H1 H2 H3 <-.
  assert (UniqueFd.Valid (UniqueFd.make ep) = true) as V1 by (apply Z.leb_le; done).
  assert (UniqueFd.Valid (UniqueFd.make ev) = true) as V2 by (apply Z.leb_le; done).
  unfold Init, SetReadFd, WaitOnce, Wakeup, may_report. simpl.
  unfold UniqueFd.Reset. simpl. change {| UniqueFd.fd_ := ep |} with (UniqueFd.make ep).
  change {| UniqueFd.fd_ := ev |} with (UniqueFd.make ev).
  rewrite !V1, !V2. simpl. rewrite !V1. simpl. rewrite !V1, V2. simpl.
  destruct (Z.ltb_spec fd 0); [lia|]. simpl. split_and!.
  - done.
  - intros Hfd. rewrite (proj2 (Z.eqb_neq fd kWakeToken)) by done. split; [|done].
    split; [left|]. by right.
  - intros ->. done.
  - rewrite V1. simpl. destruct (Z.ltb_spec fd 0); [lia|]. simpl. split_and!; try done.
    + right. left.
    + left. split; [done|lia].
    + intros [_ [[_ ?]|[_ ?]]]; [lia|done].
Qed.

Lemma event_loop_tokens_witness :
  fst (WaitOnce (snd (SetReadFd (snd (Init make_loop 5 6 None)) 7 None)) (EpollEvent 7)) = kReadable.
Proof. apply (event_loop_tokens 5 6 7 _); try lia; reflexivity. Defined.
