(* ===== verification/RpcClient.v ===== *)
(** * The client of one connection (client/rpc_client.h, client/rpc_client.cpp)

    [client] is the state the threads share (socket, flags, id counter, the
    table of pending calls); [dispatcher] is what only the dispatcher thread
    uses.  A call is modelled by its phases (connect, register, send; then bind
    the waiter), between which other threads may act; one iteration of the
    dispatcher's loop is one function.  The kernel's side of each system call
    is a parameter; a receive script that has ended means that the socket has
    no data ([EAGAIN]).  Times are in milliseconds, one clock reading per
    iteration. *)

From Stdlib Require Import ZArith Lia.
From S2P Require Import Prelude RpcError Posix Codec Frames PendingCalls ServiceRegistry.
From S2P Require Import Proto3 LoadBalancer RpcClientPool EventLoop.

Local Open Scope string_scope.
Local Open Scope list_scope.
Local Open Scope Z_scope.

(** ** Data *)

Record RpcClientOptions := {
  send_timeout : Z;
  recv_timeout : Z;
  heartbeat_interval : Z;
  heartbeat_timeout : Z;
}.

Definition RpcClientOptions_default : RpcClientOptions :=
  {| send_timeout := 2000; recv_timeout := 2000; heartbeat_interval := 30000;
     heartbeat_timeout := 45000 |}.

Definition kHeartbeatServiceName : string := "__Heartbeat__".

Record client := {
  sock_ : UniqueFd.t;
  dispatcher_running_ : bool;
  dispatcher_thread_ : bool;
  event_loop_ : bool;
  next_id_ : Z;
  pending_calls_ : table;
}.

Definition make_client : client :=
  {| sock_ := UniqueFd.empty; dispatcher_running_ := false; dispatcher_thread_ := false;
     event_loop_ := false; next_id_ := 0; pending_calls_ := ∅ |}.

Record dispatcher := {
  read_buffer : bytes;
  last_activity_time_ : Z;
  last_heartbeat_time_ : Z;
}.

Definition with_pending (c : client) (t : table) : client :=
  {| sock_ := sock_ c; dispatcher_running_ := dispatcher_running_ c;
     dispatcher_thread_ := dispatcher_thread_ c; event_loop_ := event_loop_ c;
     next_id_ := next_id_ c; pending_calls_ := t |}.

Definition with_running (c : client) (b : bool) : client :=
  {| sock_ := sock_ c; dispatcher_running_ := b;
     dispatcher_thread_ := dispatcher_thread_ c; event_loop_ := event_loop_ c;
     next_id_ := next_id_ c; pending_calls_ := pending_calls_ c |}.

Definition with_loop (c : client) (b : bool) : client :=
  {| sock_ := sock_ c; dispatcher_running_ := dispatcher_running_ c;
     dispatcher_thread_ := dispatcher_thread_ c; event_loop_ := b;
     next_id_ := next_id_ c; pending_calls_ := pending_calls_ c |}.

Definition with_next_id (c : client) (n : Z) : client :=
  {| sock_ := sock_ c; dispatcher_running_ := dispatcher_running_ c;
     dispatcher_thread_ := dispatcher_thread_ c; event_loop_ := event_loop_ c;
     next_id_ := n; pending_calls_ := pending_calls_ c |}.

(** The errors the client reports itself. *)
Definition err (msg : string) : RpcCallResult := failure kInternalError msg.

(** ** Connecting *)

(** What the system calls of [Connect] return. *)
Record connect_env := {
  ce_socket : Z;
  ce_address_valid : bool;
  ce_connect : option errno;
  ce_sndtimeo : option errno;
  ce_rcvtimeo : option errno;
}.

(** [tv_sec] and [tv_usec] of [SetSocketTimeout]. *)
Definition timeval_of (timeout_ms : Z) : Z * Z :=
  (Z.quot timeout_ms 1000, (timeout_ms - Z.quot timeout_ms 1000 * 1000) * 1000).

Definition SetSocketTimeout (result : option errno) (error_msg : option string)
    : bool * option string :=
  match result with
  | Some e => (false, set_error error_msg ("setsockopt timeout failed: " +:+ strerror e))
  | None => (true, error_msg)
  end.

Definition Connect (c : client) (e : connect_env) : bool * client :=
  if UniqueFd.Valid (sock_ c) then (true, c)
  else if negb (UniqueFd.Valid (UniqueFd.make (ce_socket e))) then (false, c)
  else if negb (ce_address_valid e) then (false, c)
  else
    match ce_connect e with
    | Some _ => (false, c)
    | None =>
        let '(ok, timeout_error) := SetSocketTimeout (ce_sndtimeo e) (Some "") in
        if negb ok then (false, c)
        else
          let '(ok, _) := SetSocketTimeout (ce_rcvtimeo e) timeout_error in
          if negb ok then (false, c)
          else
            (true, {| sock_ := fst (fst (UniqueFd.move_assign (sock_ c)
                                           (UniqueFd.make (ce_socket e))));
                      dispatcher_running_ := true; dispatcher_thread_ := true;
                      event_loop_ := event_loop_ c; next_id_ := next_id_ c;
                      pending_calls_ := pending_calls_ c |})
    end.

(** [Close], once the dispatcher thread has been joined: what it does to the
    client and to the waiters. *)
Definition Close (c : client) : client * list effect :=
  let '(t, e) := FailAll (pending_calls_ c) (err "connection closed") in
  ({| sock_ := fst (UniqueFd.Reset (sock_ c) (-1)); dispatcher_running_ := false;
      dispatcher_thread_ := false; event_loop_ := event_loop_ c; next_id_ := next_id_ c;
      pending_calls_ := t |}, e).

Definition NextRequestId (c : client) : string * client :=
  let id := wrap64 (next_id_ c + 1) in (to_string id, with_next_id c id).

Definition GetInflightCount (c : client) : nat := Size (pending_calls_ c).

Definition IsConnected (c : client) : bool := UniqueFd.Valid (sock_ c).

(** ** Calls *)

Section calls.
Context `{ProtoMessage RpcRequest} `{ProtoMessage RpcResponse}.

(** The write under [write_mu_]: whether it succeeded, the error text, the
    bytes on the wire.  [None] when [send] never returns. *)
Definition send_request (c : client) (request : RpcRequest) (script : list send_event)
    : option (bool * string * bytes) :=
  if UniqueFd.Valid (sock_ c) then
    match WriteMessage script request (Some "") with
    | Blocked => None
    | Returned (ok, e, wire) _ => Some (ok, default "" e, wire)
    end
  else Some (false, "", []).

Definition send_failure (write_error : string) : RpcCallResult :=
  err ("send request failed: " +:+
       (if str_empty write_error then "connection closed" else write_error)).

(** The first phase of [CallAsync] and of [CallCo]: [inl r] when the call is
    over with the result [r], [inr id] when the request is on its way. *)
Definition Call_begin (c : client) (ce : connect_env) (service method payload : string)
    (script : list send_event)
    : option ((RpcCallResult + string) * client * list effect * bytes) :=
  let '(connected, c) := Connect c ce in
  if negb connected then Some (inl (err "connect failed"), c, [], [])
  else
    let '(request_id, c) := NextRequestId c in
    let '(added, t) := Add (pending_calls_ c) request_id in
    let c := with_pending c t in
    if negb added then Some (inl (err "duplicate request_id in pending table"), c, [], [])
    else
      let request := {| rq_request_id := request_id; rq_service_name := service;
                        rq_method_name := method; rq_payload := payload |} in
      match send_request c request script with
      | None => None
      | Some (true, _, wire) => Some (inr request_id, c, [], wire)
      | Some (false, write_error, wire) =>
          let result := send_failure write_error in
          let '(_, t1, e1) := Complete (pending_calls_ c) request_id result in
          let '(popped, t2) := TryPop t1 request_id in
          let '(c, e2) := Close (with_pending c t2) in
          Some (inl (default result popped), c, e1 ++ e2, wire)
      end.

(** [CallCo] repeats the first phase; its second phase is the awaiter below. *)
Definition CallCo_begin := Call_begin.

(** The second phase of [CallAsync]: [None] when the future is pending. *)
Definition CallAsync_bind (opts : RpcClientOptions) (c : client) (request_id : string)
    (promise : nat) (now : Z) : option RpcCallResult * client * list effect :=
  let '(bound, t, e) :=
    BindAsync (pending_calls_ c) request_id promise (now + recv_timeout opts) in
  if bound then (None, with_pending c t, e)
  else (Some (err "bind async waiter failed"), with_pending c (Remove t request_id), e).

(** [await_suspend] of [DirectCallCoAwaiter]: whether the coroutine stays
    suspended, and the fallback result. *)
Definition await_suspend (t : table) (request_id : string) (handle : nat) (dl : Z)
    : bool * option RpcCallResult * table :=
  let '(bind_status, t) := BindCoroutine t request_id handle dl in
  match bind_status with
  | kBound => (true, None, t)
  | kAlreadyDone => (false, None, t)
  | kNotFound => (false, Some (err "bind coroutine waiter failed: request not found"), t)
  | kAlreadyBound => (false, Some (err "bind coroutine waiter failed: already bound"), t)
  end.

Definition await_resume (t : table) (request_id : string) (fallback : option RpcCallResult)
    : RpcCallResult * table :=
  match fallback with
  | Some r => (r, t)
  | None =>
      match TryPop t request_id with
      | (Some r, t') => (r, t')
      | (None, t') => (err "coroutine waiter resumed without result", t')
      end
  end.

Definition SendHeartbeatRequest (c : client) (script : list send_event)
    : option (client * bytes) :=
  let id := wrap64 (next_id_ c + 1) in
  let c := with_next_id c id in
  let request := {| rq_request_id := "hb_" +:+ to_string id;
                    rq_service_name := kHeartbeatServiceName;
                    rq_method_name := "Ping"; rq_payload := "" |} in
  match send_request c request script with
  | None => None
  | Some (_, _, wire) => Some (c, wire)
  end.

(** ** The dispatcher *)

Definition IsTemporaryReadFailure (read_error : string) : bool :=
  str_contains "Resource temporarily unavailable" read_error ||
  str_contains "recv timeout" read_error.

Definition mapped_result (r : RpcResponse) : RpcCallResult :=
  {| status := {| code := FromProtoErrorCode (rs_error_code r); message := rs_error_msg r |};
     response_payload := rs_payload r |}.

(** What [HandleReadableFrames] does with a parsed response. *)
Definition on_response (s : table * list effect) (r : RpcResponse) : table * list effect :=
  let '(t, es) := s in
  if starts_with "hb_" (rs_request_id r) then s
  else
    let '(_, t', e) := Complete t (rs_request_id r) (mapped_result r) in
    (t', es ++ e).

Definition fail_all_in (s : table * list effect) (r : RpcCallResult) : table * list effect :=
  let '(t, es) := s in let '(t', e) := FailAll t r in (t', es ++ e).

Definition on_response_body (s : table * list effect) (body : bytes)
    : (table * list effect) + (table * list effect) :=
  match ParseFromArray body with
  | None => inr (fail_all_in s (failure kParseError "failed to parse RpcResponse"))
  | Some r => inl (on_response s r)
  end.

Definition on_bad_length (s : table * list effect) : table * list effect :=
  fail_all_in s (err "invalid response frame length").

(** [HandleReadableFrames]: whether to go on, the table and the effects, the
    buffer, and the time of the last activity. *)
Definition HandleReadableFrames (t : table) (buf : bytes) (last_activity now : Z)
    : bool * (table * list effect) * bytes * Z :=
  let '(ok, s, rest) := frames_loop on_response_body on_bad_length (t, []) buf in
  if ok then
    (true, s, rest, if (length rest <? length buf)%nat then now else last_activity)
  else (false, s, buf, last_activity).

(** The [recv] loop of a readable event. *)
Inductive drain_end := DrainEmpty | DrainClosed | DrainFailed (read_error : string).

Fixpoint drain (script : list recv_event) (buf : bytes) (got : bool)
    : bytes * bool * drain_end :=
  match script with
  | [] => (buf, got, DrainEmpty)
  | RecvBytes [] :: _ => (buf, got, DrainClosed)
  | RecvBytes bs :: s => drain s (buf ++ bs) true
  | RecvErr e :: s =>
      if decide (e = EINTR) then drain s buf got
      else if decide (e = EAGAIN) then (buf, got, DrainEmpty)
      else
        let read_error := "recv failed: " +:+ strerror e in
        (buf, got, if IsTemporaryReadFailure read_error then DrainEmpty
                   else DrainFailed read_error)
  end.

(** A [kTimeout] iteration: the sweep, then the heartbeat. *)
Definition timeout_iteration (opts : RpcClientOptions) (c : client) (d : dispatcher) (now : Z)
    (script : list send_event) : option (client * dispatcher * list effect * bytes) :=
  let '(t, es) := FailTimedOut (pending_calls_ c) now (err "call timeout") in
  let c := with_pending c t in
  if (0 <? heartbeat_timeout opts) && (heartbeat_timeout opts <=? now - last_activity_time_ d) then
    let '(t, e2) := FailAll (pending_calls_ c) (err "connection inactive (heartbeat timeout)") in
    Some (with_running (with_pending c t) false, d, es ++ e2, [])
  else if (0 <? heartbeat_interval opts) &&
          (heartbeat_interval opts <=? now - last_activity_time_ d) &&
          (heartbeat_interval opts <=? now - last_heartbeat_time_ d) then
    match SendHeartbeatRequest c script with
    | None => None
    | Some (c, wire) =>
        Some (c, {| read_buffer := read_buffer d; last_activity_time_ := last_activity_time_ d;
                    last_heartbeat_time_ := now |}, es, wire)
    end
  else Some (c, d, es, []).

(** A [kReadable] iteration. *)
Definition readable_iteration (c : client) (d : dispatcher) (now : Z)
    (script : list recv_event) : client * dispatcher * list effect :=
  let '(buf, got, fin) := drain script (read_buffer d) false in
  let activity := if got then now else last_activity_time_ d in
  let d1 := {| read_buffer := buf; last_activity_time_ := activity;
               last_heartbeat_time_ := last_heartbeat_time_ d |} in
  match fin with
  | DrainFailed read_error =>
      let '(t, es) := FailAll (pending_calls_ c) (err ("dispatcher stopped: " +:+ read_error)) in
      (with_running (with_pending c t) false, d1, es)
  | _ =>
      let '(ok, (t, es), rest, activity) :=
        HandleReadableFrames (pending_calls_ c) buf activity now in
      let d2 := {| read_buffer := rest; last_activity_time_ := activity;
                   last_heartbeat_time_ := last_heartbeat_time_ d |} in
      let c := with_pending c t in
      if negb ok then (with_running c false, d2, es)
      else
        match fin with
        | DrainClosed =>
            if (0 <? Size t)%nat then
              let '(t, e2) :=
                FailAll t (err "dispatcher stopped: peer closed connection") in
              (with_running (with_pending c t) false, d2, es ++ e2)
            else (with_running c false, d2, es)
        | _ => (c, d2, es)
        end
  end.

(** What the environment provides to an iteration of the loop. *)
Record iteration_env := {
  ie_wait : WaitResult;
  ie_now : Z;
  ie_recv : list recv_event;
  ie_send : list send_event;
}.

Definition dispatcher_iteration (opts : RpcClientOptions) (c : client) (d : dispatcher)
    (e : iteration_env) : option (client * dispatcher * list effect * bytes) :=
  match ie_wait e with
  | kTimeout => timeout_iteration opts c d (ie_now e) (ie_send e)
  | kWakeup => Some (c, d, [], [])
  | kError =>
      let '(t, es) := FailAll (pending_calls_ c) (err "dispatcher stopped: event loop error") in
      Some (with_running (with_pending c t) false, d, es, [])
  | kReadable =>
      let '(c, d, es) := readable_iteration c d (ie_now e) (ie_recv e) in
      Some (c, d, es, [])
  end.

(** The loop of [DispatcherLoop] over what the environment does, stopping when
    [dispatcher_running_] is found false. *)
Fixpoint dispatcher_loop (opts : RpcClientOptions) (c : client) (d : dispatcher)
    (envs : list iteration_env) : option (client * dispatcher * list effect) :=
  match envs with
  | [] => Some (c, d, [])
  | e :: envs =>
      if dispatcher_running_ c then
        match dispatcher_iteration opts c d e with
        | None => None
        | Some (c, d, es, _) =>
            match dispatcher_loop opts c d envs with
            | None => None
            | Some (c, d, es') => Some (c, d, es ++ es')
            end
        end
      else Some (c, d, [])
  end.

(** [DispatcherLoop]: [init_ok] and [set_ok] are the results of [Init] and of
    [SetReadFd]. *)
Definition DispatcherLoop (opts : RpcClientOptions) (c : client) (now : Z)
    (init_ok set_ok : bool) (envs : list iteration_env) : option (client * list effect) :=
  if negb (UniqueFd.Valid (sock_ c)) then Some (c, [])
  else if negb init_ok then
    let '(t, es) := FailAll (pending_calls_ c) (err "event loop init failed") in
    Some (with_running (with_pending c t) false, es)
  else if negb set_ok then
    if negb (dispatcher_running_ c) then Some (c, [])
    else
      let '(t, es) := FailAll (pending_calls_ c) (err "event loop add fd failed") in
      Some (with_running (with_pending c t) false, es)
  else
    let d := {| read_buffer := []; last_activity_time_ := now; last_heartbeat_time_ := now |} in
    match dispatcher_loop opts (with_loop c true) d envs with
    | None => None
    | Some (c, _, es) => Some (with_loop c false, es)
    end.

End calls.

(** ** Lemmas *)

(** Nobody waits for a slot of the table. *)
Definition settled (t : table) : Prop :=
  forall id s, t !! id = Some s ->
    done s = true /\ async_promise s = None /\ bound_handle s = None.

Lemma FailAll_settled t r : settled (fst (FailAll t r)).
Proof.
  intros id s. simpl. rewrite fail_table_lookup. intros (s0 & E & ->)%fmap_Some_1.
  destruct (collect_waiter_fields (fail_all_mark r s0)) as (H1 & _ & H3 & H4 & _).
  rewrite H1. split; [|done]. unfold fail_all_mark. by destruct (done s0) eqn:Ed.
Qed.

(** *** Request ids *)

Definition digit_head (s : string) : bool :=
  match s with
  | EmptyString => true
  | String a _ => Ascii.N_of_ascii a <? 58
  end%N.

Lemma pretty_N_go_digit n : forall s, digit_head s = true -> digit_head (pretty_N_go n s) = true.
Proof.
  induction (N.lt_wf_0 n) as [n _ IH]. intros s Hs.
  destruct (decide (n = 0)%N) as [->|Hn]; [by rewrite pretty_N_go_0|].
  rewrite pretty_N_go_step by lia. apply IH; [apply N.div_lt; lia|].
  simpl. unfold pretty_N_char. by repeat case_match.
Qed.

Lemma to_string_not_heartbeat z : starts_with "hb_" (to_string z) = false.
Proof.
  assert (digit_head (to_string z) = true) as Hd.
  { unfold to_string, pretty, pretty_N. destruct (decide _); [done|].
    by apply pretty_N_go_digit. }
  destruct (to_string z) as [|a s]; [done|]. revert Hd.
  by destruct a as [[] [] [] [] [] [] [] []].
Qed.

Lemma to_string_inj x y : 0 <= x -> 0 <= y -> to_string x = to_string y -> x = y.
Proof. intros Hx Hy E%pretty_N_inj. lia. Qed.

(** *** Receiving *)

Section receiving.
Context `{ProtoMessage RpcRequest} `{ProtoMessage RpcResponse}.

Lemma on_response_effects t es r :
  on_response (t, es) r =
  (fst (on_response (t, []) r), es ++ snd (on_response (t, []) r)).
Proof.
  unfold on_response. destruct (starts_with _ _); simpl; [by rewrite app_nil_r|].
  by destruct (Complete t _ _) as [[b t'] e].
Qed.

Lemma fail_all_in_effects t es r :
  fail_all_in (t, es) r =
  (fst (fail_all_in (t, []) r), es ++ snd (fail_all_in (t, []) r)).
Proof. unfold fail_all_in. by destruct (FailAll t r). Qed.

Lemma on_response_body_parsed s body :
  on_response_body s body =
  match ParseFromArray body with
  | None => inr (fail_all_in s (failure kParseError "failed to parse RpcResponse"))
  | Some r => inl (on_response s r)
  end.
Proof. done. Qed.

(** The effects of a run are appended to those before it. *)
Lemma frames_loop_effects buf : forall t es,
  let '(ok, (t', es'), rest) := frames_loop on_response_body on_bad_length (t, []) buf in
  frames_loop on_response_body on_bad_length (t, es) buf = (ok, (t', es ++ es'), rest).
Proof.
  induction buf as [buf IH] using frames_loop_ind. intros t es.
  rewrite !(frames_loop_unfold _ _ _ buf).
  destruct (view_frame buf) as [| |body rest] eqn:E.
  - by rewrite app_nil_r.
  - unfold on_bad_length. rewrite (fail_all_in_effects t es).
    by destruct (fail_all_in (t, []) _) as [t' es'].
  - rewrite !on_response_body_parsed. destruct (ParseFromArray body) as [r|].
    + rewrite (on_response_effects t es r).
      destruct (on_response (t, []) r) as [t1 e1]. cbn [fst snd].
      pose proof (IH body rest eq_refl t1 e1) as IH1.
      pose proof (IH body rest eq_refl t1 (es ++ e1)) as IH2.
      destruct (frames_loop _ _ (t1, []) rest) as [[ok [t2 e2]] r2].
      rewrite IH1, IH2. by rewrite app_assoc.
    + rewrite (fail_all_in_effects t es). by destruct (fail_all_in (t, []) _) as [t' es'].
Qed.

(** A loop that stops the connection has failed every waiter. *)
Lemma frames_loop_stop_settled s buf s' rest :
  frames_loop on_response_body on_bad_length s buf = (false, s', rest) -> settled (fst s').
Proof.
  revert s. induction buf as [buf IH] using frames_loop_ind. intros s.
  assert (forall r, settled (fst (fail_all_in s r))) as Hs.
  { intros r. destruct s as [t es]. unfold fail_all_in.
    pose proof (FailAll_settled t r). by destruct (FailAll t r). }
  rewrite frames_loop_unfold. destruct (view_frame buf) as [| |body r] eqn:E; try done.
  - intros [= <- _]. apply Hs.
  - rewrite on_response_body_parsed. destruct (ParseFromArray body) as [m|].
    + eapply IH. done.
    + intros [= <- _]. apply Hs.
Qed.

Definition on_responses (s : table * list effect) (rs : list RpcResponse) : table * list effect :=
  fold_left on_response rs s.

Lemma handle_all_responses bodies rs s :
  Forall2 (fun b r => ParseFromArray b = Some r) bodies rs ->
  handle_all on_response_body s bodies = (true, on_responses s rs).
Proof.
  intros Hf. revert s. induction Hf as [|b r bodies rs Hb Hf IH]; intros s; [done|].
  cbn [handle_all]. rewrite on_response_body_parsed, Hb. apply IH.
Qed.

Lemma on_responses_effects rs : forall t es,
  on_responses (t, es) rs =
  (fst (on_responses (t, []) rs), es ++ snd (on_responses (t, []) rs)).
Proof.
  unfold on_responses. induction rs as [|r rs IH]; intros t es; cbn [fold_left];
    [simpl; by rewrite app_nil_r|].
  rewrite (on_response_effects t es). destruct (on_response (t, []) r) as [t1 e1]. cbn [fst snd].
  rewrite (IH t1 (es ++ e1)), (IH t1 e1). cbn [fst snd]. by rewrite app_assoc.
Qed.

(** Responses to other requests leave a slot alone. *)
Lemma on_responses_other rs id : forall s,
  Forall (fun r => rs_request_id r <> id) rs ->
  fst (on_responses s rs) !! id = fst s !! id.
Proof.
  unfold on_responses. induction rs as [|r rs IH]; intros [t es] Hf; [done|].
  apply Forall_cons in Hf as [Hr Hf]. cbn [fold_left]. rewrite IH by done.
  unfold on_response. destruct (starts_with _ _); [done|].
  unfold Complete. repeat split_match; simplify_eq/=;
    rewrite ?lookup_insert_ne, ?lookup_delete_ne by done; done.
Qed.

Lemma drain_clean s : forall buf got,
  clean_script s -> fst (fst (drain s buf got)) = buf ++ script_bytes s /\
  snd (drain s buf got) = DrainEmpty.
Proof.
  induction s as [|e s IH]; intros buf got Hc; simpl; [by rewrite app_nil_r|].
  apply Forall_cons in Hc as [He Hc]. destruct e as [[|b bs]|e]; simpl in He; try done.
  - destruct (IH (buf ++ b :: bs) true Hc) as [H1 H2]. simpl in *. rewrite H1, H2.
    by rewrite <- app_assoc.
  - destruct e; try done. by apply IH.
Qed.

(** A readable event without end of stream and without failure. *)
Lemma readable_clean c d now script :
  clean_script script ->
  let '(ok, (t, es), rest) :=
    frames_loop on_response_body on_bad_length (pending_calls_ c, [])
      (read_buffer d ++ script_bytes script) in
  let '(c', d', es') := readable_iteration c d now script in
  es' = es /\ (ok = true -> c' = with_pending c t /\ read_buffer d' = rest) /\
  (ok = false -> c' = with_running (with_pending c t) false).
Proof.
  intros Hc. unfold readable_iteration.
  destruct (drain_clean script (read_buffer d) false Hc) as [H1 H2].
  destruct (drain script (read_buffer d) false) as [[buf got] fin]. simpl in H1, H2. subst.
  unfold HandleReadableFrames.
  destruct (frames_loop _ _ _ _) as [[ok [t es]] rest]. by destruct ok.
Qed.

(** Successive readable events, each at its time. *)
Fixpoint readable_iterations (c : client) (d : dispatcher)
    (events : list (Z * list recv_event)) : client * dispatcher * list effect :=
  match events with
  | [] => (c, d, [])
  | (now, script) :: events =>
      let '(c, d, es) := readable_iteration c d now script in
      let '(c, d, es') := readable_iterations c d events in
      (c, d, es ++ es')
  end.

Definition events_bytes (events : list (Z * list recv_event)) : bytes :=
  concat (map (fun e => script_bytes (snd e)) events).

Lemma readable_iterations_loop events : forall c d,
  Forall (fun e => clean_script (snd e)) events -> view_frame (read_buffer d) = FIncomplete ->
  let '(ok, (t, es), rest) :=
    frames_loop on_response_body on_bad_length (pending_calls_ c, [])
      (read_buffer d ++ events_bytes events) in
  ok = true ->
  let '(c', d', es') := readable_iterations c d events in
  c' = with_pending c t /\ es' = es /\ read_buffer d' = rest.
Proof.
  induction events as [|[now script] events IH]; intros c d Hf Hv.
  - simpl. rewrite app_nil_r, frames_loop_unfold, Hv. intros _. by destruct c.
  - apply Forall_cons in Hf as [Hc Hf]. simpl in Hc. unfold events_bytes. simpl.
    fold (events_bytes events). rewrite app_assoc.
    pose proof (readable_clean c d now script Hc) as Hr.
    pose proof (frames_loop_app on_response_body on_bad_length (pending_calls_ c, [])
      (read_buffer d ++ script_bytes script) (events_bytes events)) as Ha.
    pose proof (frames_loop_rest on_response_body on_bad_length (pending_calls_ c, [])
      (read_buffer d ++ script_bytes script)) as Hrest.
    destruct (frames_loop _ _ _ (read_buffer d ++ script_bytes script)) as [[ok [t es]] rest].
    destruct (readable_iteration c d now script) as [[c1 d1] es1].
    destruct Hr as (-> & Hok & _). destruct ok.
    + rewrite Ha. destruct Hok as [-> Hb]; [done|].
      specialize (IH (with_pending c t) d1 Hf). rewrite Hb in IH.
      specialize (IH ltac:(by eapply Hrest)). simpl in IH.
      pose proof (frames_loop_effects (rest ++ events_bytes events) t es) as He.
      destruct (frames_loop _ _ (t, []) (rest ++ events_bytes events)) as [[ok2 [t2 es2]] r2].
      rewrite He. intros Hok2. specialize (IH Hok2).
      destruct (readable_iterations (with_pending c t) d1 events) as [[c3 d3] es3].
      destruct IH as (-> & -> & ->). done.
    + destruct (frames_loop _ _ _ ((read_buffer d ++ script_bytes script) ++ _)) as [[ok2 [t2 es2]] r2].
      simpl in Ha. injection Ha as -> _ _. done.
Qed.

End receiving.

(** *** The phases of a call *)

Section phases.
Context `{ProtoLaws RpcRequest} `{ProtoLaws RpcResponse}.

(** The serialized form of a response that fits in a frame. *)
Definition encodes (b : bytes) (r : RpcResponse) : Prop :=
  SerializeToArray r = Some b /\ proto_valid r /\
  (0 < Z.of_nat (length b) <= kMaxFrameSize).

Lemma Connect_next_id c ce : next_id_ (snd (Connect c ce)) = next_id_ c.
Proof. unfold Connect. by repeat (split_match; simpl). Qed.

Lemma Call_begin_sent c ce service method payload script id c1 es wire :
  Call_begin c ce service method payload script = Some (inr id, c1, es, wire) ->
  id = to_string (wrap64 (next_id_ c + 1)) /\ es = [] /\
  pending_calls_ c1 !! id = Some Slot_default /\
  exists body,
    SerializeToArray {| rq_request_id := id; rq_service_name := service;
                        rq_method_name := method; rq_payload := payload |} = Some body /\
    wire = frame_of body /\ 0 < Z.of_nat (length body) <= kMaxFrameSize.
Proof.
  unfold Call_begin. pose proof (Connect_next_id c ce) as Hn.
  destruct (Connect c ce) as [[] c0]; simpl in *; [|done].
  remember (to_string (wrap64 (next_id_ c0 + 1))) as rid eqn:Erid. intros E.
  destruct (Add (pending_calls_ c0) rid) as [[] t] eqn:Ea; simpl in E; [|done].
  assert (t !! rid = Some Slot_default) as Ht.
  { unfold Add in Ea. repeat (split_match_in Ea; simplify_eq/=). by rewrite lookup_insert_eq. }
  unfold send_request in E. destruct (UniqueFd.Valid _).
  - destruct (WriteMessage script _ _) as [[[[] e] w] s'|] eqn:Ew; simplify_eq/=.
    + apply WriteMessage_wire in Ew. rewrite <- Hn. split_and!; try done.
    + unfold Close in E. by repeat split_match_in E; simplify_eq/=.
  - unfold Close in E. by repeat split_match_in E; simplify_eq/=.
Qed.

(** A readable event that brings exactly one response. *)
Lemma one_response c d now b r :
  encodes b r -> read_buffer d = [] ->
  let '(c', d', es) := readable_iteration c d now [RecvBytes (frame_of b)] in
  (pending_calls_ c', es) = on_response (pending_calls_ c, []) r /\ read_buffer d' = [].
Proof.
  intros (Hs & Hv & Hl) Hb.
  pose proof (readable_clean c d now [RecvBytes (frame_of b)]) as Hr.
  rewrite Hb in Hr. cbn [script_bytes] in Hr. rewrite app_nil_r, app_nil_l in Hr.
  pose proof (frames_loop_bodies on_response_body on_bad_length [b] [] (pending_calls_ c, [])) as Hf.
  cbn [concat map] in Hf. rewrite !app_nil_r in Hf.
  destruct (frames_loop _ _ _ (frame_of b)) as [[ok [t es]] rest].
  destruct Hf as [Hf Hrest]; [by apply Forall_singleton|done|].
  rewrite (handle_all_responses [b] [r]) in Hf by (constructor; [by apply parse_serialize|constructor]).
  injection Hf as -> Hf.
  destruct (readable_iteration c d now _) as [[c' d'] es'].
  destruct Hr as (-> & Hok & _).
  { constructor; [|constructor]. by destruct b. }
  destruct Hok as [-> ->]; [done|]. simpl. by rewrite Hrest.
Qed.

(** A stream of responses, cut anyhow. *)
Lemma stream_delivery c d events bodies rs tail :
  Forall2 encodes bodies rs -> Forall (fun e => clean_script (snd e)) events ->
  read_buffer d = [] -> view_frame tail = FIncomplete ->
  events_bytes events = concat (map frame_of bodies) ++ tail ->
  let '(c', d', es) := readable_iterations c d events in
  (pending_calls_ c', es) = on_responses (pending_calls_ c, []) rs /\
  dispatcher_running_ c' = dispatcher_running_ c /\ read_buffer d' = tail.
Proof.
  intros Hb Hc Hbuf Ht Hbytes.
  assert (view_frame (read_buffer d) = FIncomplete) as Hv by (by rewrite Hbuf).
  pose proof (readable_iterations_loop events c d Hc Hv) as Hr.
  rewrite Hbuf, app_nil_l, Hbytes in Hr.
  pose proof (frames_loop_bodies on_response_body on_bad_length bodies tail
    (pending_calls_ c, [])) as Hf.
  destruct (frames_loop _ _ _ _) as [[ok [t es]] rest].
  destruct Hf as [Hf Hrest]; [|done|].
  { clear -Hb. induction Hb as [|b r bs rs (_ & _ & Hl)]; by constructor. }
  rewrite (handle_all_responses bodies rs) in Hf.
  2: { clear -Hb. induction Hb as [|b r bs rs (Hs & Hv & _)]; constructor; [|done].
       by apply parse_serialize. }
  injection Hf as -> Hf. destruct (readable_iterations c d events) as [[c' d'] es'].
  destruct Hr as (-> & -> & ->); [done|]. simpl. split; [done|]. split; [done|]. by apply Hrest.
Qed.

(** An iteration that ends the loop leaves nobody waiting. *)
Lemma iteration_stop_settled opts c d e c' d' es wire :
  dispatcher_running_ c = true ->
  dispatcher_iteration opts c d e = Some (c', d', es, wire) ->
  dispatcher_running_ c' = false -> settled (pending_calls_ c').
Proof.
  intros Hrun. unfold dispatcher_iteration. destruct (ie_wait e).
  - unfold readable_iteration. destruct (drain (ie_recv e) (read_buffer d) false) as [[buf got] fin].
    assert (forall ok s rest act,
      HandleReadableFrames (pending_calls_ c) buf (if got then ie_now e else last_activity_time_ d)
        (ie_now e) = (ok, s, rest, act) -> ok = false -> settled (fst s)) as Hh.
    { unfold HandleReadableFrames. intros ok s rest act E Hok.
      destruct (frames_loop _ _ _ _) as [[[] s1] rest1] eqn:El; simplify_eq/=.
      by eapply frames_loop_stop_settled. }
    destruct fin as [| |msg].
    + destruct (HandleReadableFrames _ _ _ _) as [[[[] [t es1]] rest] act] eqn:E; simpl.
      * intros [= <- _ _ _]. simpl. congruence.
      * intros [= <- _ _ _] _. simpl. by eapply (Hh false (t, es1)).
    + destruct (HandleReadableFrames _ _ _ _) as [[[[] [t es1]] rest] act] eqn:E; simpl.
      * destruct (0 <? Size t)%nat eqn:Esz; intros [= <- _ _ _] _; simpl; [apply FailAll_settled|].
        breflect. assert (t = ∅) as -> by (apply map_size_empty_inv; unfold Size in *; lia).
        intros id s. by rewrite lookup_empty.
      * intros [= <- _ _ _] _. simpl. by eapply (Hh false (t, es1)).
    + intros [= <- _ _ _] _. apply FailAll_settled.
  - unfold timeout_iteration. simpl. destruct (_ && _) eqn:E1.
    + intros [= <- _ _ _] _. apply FailAll_settled.
    + destruct (_ && _ && _).
      * unfold SendHeartbeatRequest. destruct (send_request _ _ _) as [[[ok we] w]|]; [|done].
        intros [= <- _ _ _]. simpl. congruence.
      * intros [= <- _ _ _]. simpl. congruence.
  - intros [= <- _ _ _]. congruence.
  - intros [= <- _ _ _] _. apply FailAll_settled.
Qed.

End phases.

(** ** Properties *)

Section properties.
Context `{ProtoLaws RpcRequest} `{ProtoLaws RpcResponse}.

(** C6: responses are delivered however the stream is cut: after any series of
    readable events whose bytes are the frames of some responses and the
    beginning of one more, at whatever times, every response has been matched
    by its id, in order, and exactly the incomplete rest is kept. *)
Theorem client_stream_delivery c d events bodies rs tail :
  Forall2 encodes bodies rs -> Forall (fun e => clean_script (snd e)) events ->
  read_buffer d = [] -> view_frame tail = FIncomplete ->
  events_bytes events = concat (map frame_of bodies) ++ tail ->
  let '(c', d', es) := readable_iterations c d events in
  (pending_calls_ c', es) = on_responses (pending_calls_ c, []) rs /\
  dispatcher_running_ c' = dispatcher_running_ c /\ read_buffer d' = tail.
Proof. apply stream_delivery. Qed.

(** A call gets the response to its own request: once the request has been
    sent, its slot waits under the id on the wire, and when the response to
    that id comes the promise receives it and the slot is gone, whether the
    response comes before the waiter is bound or after. *)
Theorem call_gets_response opts c ce service method payload script id c1 es wire
    d now now' b r p :
  Call_begin c ce service method payload script = Some (inr id, c1, es, wire) ->
  encodes b r -> rs_request_id r = id -> read_buffer d = [] ->
  (let '(res, c2, _) := CallAsync_bind opts c1 id p now in
   let '(c3, _, es3) := readable_iteration c2 d now' [RecvBytes (frame_of b)] in
   res = None /\ es3 = [SetValue p (mapped_result r)] /\ pending_calls_ c3 !! id = None) /\
  (let '(c2, _, _) := readable_iteration c1 d now' [RecvBytes (frame_of b)] in
   let '(res, c3, es3) := CallAsync_bind opts c2 id p now in
   res = None /\ es3 = [SetValue p (mapped_result r)] /\ pending_calls_ c3 !! id = None).
Proof.
  intros E He Hid Hd. apply Call_begin_sent in E as (Eid & _ & Hslot & _).
  assert (starts_with "hb_" id = false) as Hhb by (rewrite Eid; apply to_string_not_heartbeat).
  split.
  - unfold CallAsync_bind, BindAsync. rewrite Hslot. simpl.
    pose proof (one_response (with_pending c1
      (<[id := {| done := false; result := RpcCallResult_default; async_promise := Some p;
                  async_bound := true; coroutine_handle := None; coroutine_bound := false;
                  deadline := now + recv_timeout opts |}]> (pending_calls_ c1)))
      d now' b r He Hd) as Hr.
    destruct (readable_iteration _ d now' _) as [[c3 d3] es3]. destruct Hr as [Hr _].
    unfold on_response, Complete in Hr. rewrite Hid, Hhb in Hr. simpl in Hr.
    rewrite lookup_insert_eq in Hr. simpl in Hr. injection Hr as -> ->.
    rewrite lookup_delete_eq. done.
  - pose proof (one_response c1 d now' b r He Hd) as Hr.
    destruct (readable_iteration c1 d now' _) as [[c2 d2] es2]. destruct Hr as [Hr _].
    unfold on_response, Complete in Hr. rewrite Hid, Hhb, Hslot in Hr. simpl in Hr.
    injection Hr as Hp _. unfold CallAsync_bind, BindAsync. rewrite Hp, lookup_insert_eq. simpl.
    rewrite lookup_delete_eq. done.
Qed.

(** After the dispatcher has stopped because the peer closed the
    connection, the socket is still set: the client says it is connected,
    [Connect] does nothing, and a new call whose request the kernel accepts is
    bound to a promise although no dispatcher runs: no iteration happens any
    more, so neither a response nor the timeout ever reaches it. *)
Theorem call_after_dispatcher_stop opts c ce service method payload script id c1 es wire p now :
  dispatcher_running_ c = false -> IsConnected c = true ->
  Call_begin c ce service method payload script = Some (inr id, c1, es, wire) ->
  Connect c ce = (true, c) /\
  (let '(res, c2, es2) := CallAsync_bind opts c1 id p now in
   res = None /\ es2 = [] /\
   (exists s, pending_calls_ c2 !! id = Some s /\ async_promise s = Some p) /\
   forall d envs, dispatcher_loop opts c2 d envs = Some (c2, d, [])).
Proof.
  unfold IsConnected. intros Hrun Hs E.
  assert (Connect c ce = (true, c)) as Hc by (unfold Connect; by rewrite Hs).
  split; [done|].
  assert (dispatcher_running_ c1 = false) as Hrun1.
  { revert E. unfold Call_begin. rewrite Hc. simpl.
    destruct (Add _ _) as [[] t]; simpl; [|done].
    destruct (send_request _ _ _) as [[[[] we] w]|]; [by intros [= _ <- _ _]| |done].
    by repeat split_match; intros; simplify_eq/=. }
  apply Call_begin_sent in E as (_ & _ & Hslot & _).
  unfold CallAsync_bind, BindAsync. rewrite Hslot. simpl. split_and!; try done.
  - eexists. by rewrite lookup_insert_eq.
  - intros d envs. destruct envs as [|e envs]; [done|]. simpl. by rewrite Hrun1.
Qed.

(** C40: while responses to other calls keep the socket readable, a call never
    times out: however late the events are, the slot of a request without a
    response is left as it is, deadline passed or not. *)
Theorem busy_connection_starves_timeouts c d events bodies rs tail id s :
  Forall2 encodes bodies rs -> Forall (fun e => clean_script (snd e)) events ->
  read_buffer d = [] -> view_frame tail = FIncomplete ->
  events_bytes events = concat (map frame_of bodies) ++ tail ->
  pending_calls_ c !! id = Some s -> Forall (fun r => rs_request_id r <> id) rs ->
  let '(c', _, _) := readable_iterations c d events in pending_calls_ c' !! id = Some s.
Proof.
  intros Hb Hc Hbuf Ht Hbytes Hs Hid.
  pose proof (stream_delivery c d events bodies rs tail Hb Hc Hbuf Ht Hbytes) as Hd.
  destruct (readable_iterations c d events) as [[c' d'] es]. destruct Hd as [Hd _].
  pose proof (on_responses_other rs id (pending_calls_ c, []) Hid) as Ho.
  rewrite <- Hd in Ho. simpl in Ho. by rewrite Ho.
Qed.

End properties.

(** The ids of [n] successive calls. *)
Fixpoint request_ids (n : nat) (c : client) : list string :=
  match n with
  | O => []
  | S n => let '(id, c) := NextRequestId c in id :: request_ids n c
  end.

Lemma request_ids_above n : forall c id,
  0 <= next_id_ c -> next_id_ c + Z.of_nat n < two64 -> id ∈ request_ids n c ->
  exists k, next_id_ c < k <= next_id_ c + Z.of_nat n /\ id = to_string k.
Proof.
  induction n as [|n IH]; intros c id H0 Hn Hin; simpl in Hin; [by apply elem_of_nil in Hin|].
  rewrite wrap64_small in Hin by lia.
  apply elem_of_cons in Hin as [->|Hin]; [exists (next_id_ c + 1); split; [lia|done]|].
  apply IH in Hin as (k & Hk & ->); simpl in *; [|lia..]. exists k. split; [lia|done].
Qed.

(** The request ids of a client are pairwise different and never look like the
    id of a heartbeat, so a heartbeat's answer is never taken for a response
    and no call is refused as a duplicate. *)
Theorem request_ids_distinct n c :
  0 <= next_id_ c -> next_id_ c + Z.of_nat n < two64 ->
  NoDup (request_ids n c) /\ Forall (fun id => starts_with "hb_" id = false) (request_ids n c).
Proof.
  revert c. induction n as [|n IH]; intros c H0 Hn; simpl; [split; constructor|].
  rewrite wrap64_small by lia.
  destruct (IH (with_next_id c (next_id_ c + 1))) as [IH1 IH2]; simpl; [lia..|].
  split; constructor; try done.
  - intros Hin. apply request_ids_above in Hin as (k & Hk & E); simpl in *; [|lia..].
    apply to_string_inj in E; lia.
  - apply to_string_not_heartbeat.
Qed.

(** ** The client's failures as the pool sees them *)

Section failures.
Context `{ProtoLaws RpcRequest} `{ProtoLaws RpcResponse}.

Lemma str_contains_app needle s : str_contains needle (needle +:+ s) = true.
Proof.
  unfold str_contains.
  assert (String.index 0 needle (needle +:+ s) = Some 0%nat) as ->; [|done].
  assert (String.prefix needle (needle +:+ s) = true) as Hp.
  { induction needle as [|a needle IH]; [by destruct s|]. simpl.
    destruct (Ascii.ascii_dec a a); [done|congruence]. }
  destruct (needle +:+ s) as [|a r] eqn:E.
  - destruct needle; [done|discriminate].
  - cbn [String.index]. by rewrite Hp.
Qed.

(** A call that ends before its request was sent ends with an error the pool
    takes for a connection error, so it is retried on another endpoint: it
    could not connect, or could not send.  So do the calls whose dispatcher
    stopped on a read error, on the end of the stream, by inactivity or by
    [Close], and those that timed out.  But a peer that sends a malformed frame,
    or a client that cannot start its event loop, is taken for a working
    endpoint with a failing method. *)
Theorem client_failures_seen_by_pool :
  (forall c ce service method payload script r c1 es wire,
     Call_begin c ce service method payload script = Some (inl r, c1, es, wire) ->
     r = err "duplicate request_id in pending table" \/ IsConnectionError r = true) /\
  (forall e, IsConnectionError (err ("dispatcher stopped: " +:+ e)) = true) /\
  Forall (fun m => IsConnectionError (err m) = true)
    ["call timeout"; "connection closed"; "connection inactive (heartbeat timeout)"] /\
  Forall (fun m => IsConnectionError (err m) = false)
    ["invalid response frame length"; "event loop init failed"; "event loop add fd failed"] /\
  IsConnectionError (failure kParseError "failed to parse RpcResponse") = false.
Proof.
  assert (forall e, IsConnectionError (err ("send request failed: " +:+ e)) = true) as Hsend.
  { intros e. unfold IsConnectionError. simpl message.
    change ("send request failed: " +:+ e) with ("send request failed" +:+ (": " +:+ e)).
    rewrite str_contains_app. simpl. by rewrite !orb_true_r. }
  split_and!.
  - intros c ce service method payload script r c1 es wire. unfold Call_begin.
    destruct (Connect c ce) as [[] c0]; simpl; [|intros [= <- _ _ _]; by right].
    destruct (Add _ _) as [[] t] eqn:Ea; simpl; [|intros [= <- _ _ _]; by left].
    destruct (send_request _ _ _) as [[[[] we] w]|]; [done| |done].
    unfold Add in Ea. repeat (split_match_in Ea; simplify_eq/=).
    unfold Complete. rewrite lookup_insert_eq. simpl.
    unfold TryPop. rewrite lookup_insert_eq. simpl. intros [= <- _ _ _]. right. apply Hsend.
  - intros e. unfold IsConnectionError. simpl message.
    change ("dispatcher stopped: " +:+ e) with ("dispatcher stopped" +:+ (": " +:+ e)).
    rewrite str_contains_app. simpl. by rewrite !orb_true_r.
  - repeat constructor.
  - repeat constructor.
  - done.
Qed.

End failures.

(** ** Witnesses, with the proto3 encoding *)

Definition w_connect : connect_env :=
  {| ce_socket := 5; ce_address_valid := true; ce_connect := None;
     ce_sndtimeo := None; ce_rcvtimeo := None |}.

(** A call whose request is sent. *)
Definition w_begun :=
  Call_begin make_client w_connect "Calc" "Add" "x" (replicate 40 (SendOk 1)).

Definition w_c1 : client :=
  match w_begun with
  | Some (_, c, _, _) => c
  | None => make_client
  end.

Definition w_wire : bytes :=
  match w_begun with
  | Some (_, _, _, w) => w
  | None => []
  end.

Definition w_response : RpcResponse :=
  {| rs_request_id := "1"; rs_error_code := 0; rs_error_msg := ""; rs_payload := "y" |}.

Definition w_body : bytes := encode_response w_response.

Definition w_dispatcher : dispatcher :=
  {| read_buffer := []; last_activity_time_ := 0; last_heartbeat_time_ := 0 |}.

Lemma w_encodes : encodes w_body w_response.
Proof. split_and!; vm_compute; try reflexivity; try discriminate; done. Qed.

Lemma w_begun_sent : w_begun = Some (inr "1", w_c1, [], w_wire).
Proof. vm_compute. reflexivity. Qed.

Lemma client_stream_delivery_witness :
  let events := [(0, [RecvBytes (take 3 (frame_of w_body))]);
                 (9, [RecvErr EINTR; RecvBytes (drop 3 (frame_of w_body)); RecvBytes [x00]])] in
  let '(c', d', es) := readable_iterations w_c1 w_dispatcher events in
  (pending_calls_ c', es) = on_responses (pending_calls_ w_c1, []) [w_response] /\
  dispatcher_running_ c' = true /\ read_buffer d' = [x00].
Proof.
  apply (client_stream_delivery w_c1 w_dispatcher _ [w_body] [w_response] [x00]).
  - constructor; [apply w_encodes|constructor].
  - repeat constructor.
  - reflexivity.
  - reflexivity.
  - vm_compute. reflexivity.
Defined.

Lemma call_gets_response_witness :
  let '(res, c2, _) := CallAsync_bind RpcClientOptions_default w_c1 "1" 7 100 in
  let '(c3, _, es3) := readable_iteration c2 w_dispatcher 200 [RecvBytes (frame_of w_body)] in
  res = None /\ es3 = [SetValue 7 (mapped_result w_response)] /\ pending_calls_ c3 !! "1" = None.
Proof.
  apply (call_gets_response RpcClientOptions_default _ _ _ _ _ _ "1" w_c1 [] w_wire
           w_dispatcher 100 200 w_body w_response 7 w_begun_sent w_encodes eq_refl eq_refl).
Defined.

(** The client of a connection the peer has closed. *)
Definition w_stale : client := with_running w_c1 false.

Lemma call_after_dispatcher_stop_witness : exists id c1 wire,
  Call_begin w_stale w_connect "Calc" "Add" "x" (replicate 40 (SendOk 1)) =
    Some (inr id, c1, [], wire) /\
  (forall d envs, dispatcher_loop RpcClientOptions_default
     (snd (fst (CallAsync_bind RpcClientOptions_default c1 id 8 50))) d envs =
     Some (snd (fst (CallAsync_bind RpcClientOptions_default c1 id 8 50)), d, [])).
Proof.
  destruct (Call_begin w_stale w_connect "Calc" "Add" "x" (replicate 40 (SendOk 1)))
    as [[[[[r|id] c1] es] wire]|] eqn:E; try (vm_compute in E; discriminate).
  exists id, c1, wire.
  destruct (call_after_dispatcher_stop RpcClientOptions_default w_stale w_connect _ _ _ _
              id c1 es wire 8%nat 50 eq_refl eq_refl E) as [_ H].
  destruct (CallAsync_bind _ c1 id 8 50) as [[res c2] es2]. destruct H as (_ & _ & _ & H).
  split; [|exact H]. vm_compute in E. injection E as <- <- <- <-. reflexivity.
Defined.

Lemma busy_connection_starves_timeouts_witness :
  let '(c', _, _) := readable_iterations (with_pending w_c1 (<["9" := Slot_default]> ∅))
    w_dispatcher [(99999, [RecvBytes (frame_of w_body)])] in
  pending_calls_ c' !! "9" = Some Slot_default.
Proof.
  apply (busy_connection_starves_timeouts _ w_dispatcher _ [w_body] [w_response] [] "9").
  - constructor; [apply w_encodes|constructor].
  - repeat constructor.
  - reflexivity.
  - reflexivity.
  - vm_compute. reflexivity.
  - reflexivity.
  - constructor; [discriminate|constructor].
Defined.

Lemma request_ids_distinct_witness : NoDup (request_ids 3 make_client).
Proof. apply (request_ids_distinct 3 make_client); vm_compute; [discriminate|reflexivity]. Defined.
