(* ===== verification/CallCo.v ===== *)
(** * A coroutine's call (RpcClient::CallCo, client/rpc_client.cpp)

    [CallCo] sends its request like [CallAsync] and then awaits [DirectCallCoAwaiter]: it binds
    its handle to the slot of the call, is resumed by whoever settles the slot, and pops the
    result.  Between these steps every other thread may do anything with the table: the
    dispatcher completes, fails and times out calls, other calls come and go.  The call is shown
    to be a future that is settled once ([spec]). *)

From Stdlib Require Import ZArith Lia.
From S2P Require Import Prelude RpcError Posix Codec Frames PendingCalls ServiceRegistry.
From S2P Require Import Proto3 EventLoop RpcClient.

Local Open Scope Z_scope.
Local Open Scope string_scope.
Local Open Scope list_scope.

(** ** The call *)

(** Where the coroutine is: the request has been sent; suspended; on its way from
    [await_suspend] or [resume] to [await_resume]; returned. *)
Inductive co_at :=
  | CoSent
  | CoSuspended
  | CoResumes (fallback_result_ : option RpcCallResult)
  | CoReturned (r : RpcCallResult).

Record co_call := {
  co_table : table;
  co_pc : co_at;
}.

(** A step of another thread, [co_await] of the awaiter at a time, or the continuation. *)
Inductive co_move :=
  | MOther (op : Op)
  | MAwait (now : Z)
  | MContinue.

(** What other threads do not do: use the identifier or the handle of this call. *)
Definition foreign (id : string) (h : nat) (op : Op) : bool :=
  match op with
  | OpAdd i | OpBindAsync i _ _ | OpWaitEnter i | OpWaitWake i _ | OpTryPop i | OpRemove i =>
      negb (bool_decide (i = id))
  | OpBindCoroutine i h' _ => negb (bool_decide (i = id)) && negb (bool_decide (h' = h))
  | OpComplete _ _ | OpFailAll _ | OpFailTimedOut _ _ => true
  end.

Definition co_step (opts : RpcClientOptions) (id : string) (h : nat) (s : co_call) (m : co_move)
    : option co_call :=
  let t := co_table s in
  match m, co_pc s with
  | MOther op, pc =>
      if foreign id h op then
        let '(t, es) := step t op in
        Some {| co_table := t;
                co_pc := match pc with
                         | CoSuspended => if bool_decide (Resume h ∈ es) then CoResumes None else pc
                         | _ => pc
                         end |}
      else None
  | MAwait now, CoSent =>
      let '(suspends, fallback, t) := await_suspend t id h (now + recv_timeout opts) in
      Some {| co_table := t; co_pc := if (suspends : bool) then CoSuspended else CoResumes fallback |}
  | MContinue, CoResumes fallback =>
      let '(r, t) := await_resume t id fallback in
      Some {| co_table := t; co_pc := CoReturned r |}
  | _, _ => None
  end.

Fixpoint co_steps (opts : RpcClientOptions) (id : string) (h : nat) (s : co_call) (ms : list co_move)
    : option co_call :=
  match ms with
  | [] => Some s
  | m :: ms => match co_step opts id h s m with Some s => co_steps opts id h s ms | None => None end
  end.

(** ** The future *)

(** Unsettled, perhaps with a deadline; or settled. *)
Inductive spec :=
  | Open (dl : option Z)
  | Settled (r : RpcCallResult).

(** The first result given to the call settles it; it can time out once it is awaited. *)
Definition spec_step (opts : RpcClientOptions) (id : string) (f : spec) (m : co_move) : spec :=
  match f, m with
  | Settled r, _ => Settled r
  | Open _, MOther (OpComplete i r) => if bool_decide (i = id) then Settled r else f
  | Open _, MOther (OpFailAll r) => Settled r
  | Open (Some dl), MOther (OpFailTimedOut now r) => if (now <? dl)%Z then f else Settled r
  | Open _, MAwait now => Open (Some (now + recv_timeout opts))
  | Open _, _ => f
  end.

Definition spec_steps (opts : RpcClientOptions) (id : string) (f : spec) (ms : list co_move) : spec :=
  fold_left (spec_step opts id) ms f.

(** ** The simulation *)

(** The slot of a call nobody waits for. *)
Definition unbound_slot (s : Slot) : Prop :=
  async_promise s = None /\ async_bound s = false /\ coroutine_handle s = None /\ coroutine_bound s = false.

Definition simulates (id : string) (h : nat) (t : table) (pc : co_at) (f : spec) : Prop :=
  match pc, f with
  | CoSent, Open None => exists s, t !! id = Some s /\ unbound_slot s /\ done s = false
  | CoSent, Settled r | CoResumes None, Settled r =>
      exists s, t !! id = Some s /\ unbound_slot s /\ done s = true /\ result s = r
  | CoSuspended, Open (Some dl) =>
      exists s, t !! id = Some s /\ async_promise s = None /\ async_bound s = false /\ done s = false /\
        coroutine_handle s = Some h /\ coroutine_bound s = true /\ deadline s = dl
  | CoReturned r, Settled r' => t !! id = None /\ r = r'
  | _, _ => False
  end.

(** Nobody else has the handle. *)
Definition owned (id : string) (h : nat) (t : table) : Prop :=
  forall i s, t !! i = Some s -> bound_handle s = Some h -> i = id.

Record co_inv (id : string) (h : nat) (s : co_call) (f : spec) : Prop := {
  ci_sim : simulates id h (co_table s) (co_pc s) f;
  ci_owned : owned id h (co_table s);
}.

Lemma bound_handle_Some s h : bound_handle s = Some h <-> coroutine_bound s = true /\ coroutine_handle s = Some h.
Proof. unfold bound_handle. destruct (coroutine_bound s); naive_solver. Qed.

Lemma owned_insert id h t i s :
  owned id h t -> (bound_handle s = Some h -> i = id) -> owned id h (<[i := s]> t).
Proof.
  intros Ho Hs j s'. rewrite lookup_insert. destruct (decide (i = j)) as [<-|]; [|by eauto].
  intros [= <-]. auto.
Qed.

Lemma owned_delete id h t i : owned id h t -> owned id h (delete i t).
Proof. intros Ho j s [_ E]%lookup_delete_Some. eauto. Qed.

Lemma owned_fail id h t sel mark : owned id h t -> owned id h (fail_table sel mark t).
Proof.
  intros Ho i s. rewrite fail_table_lookup. intros (s0 & E & ->)%fmap_Some_1.
  destruct (sel s0); [|by eauto]. destruct (collect_waiter_fields (mark s0)) as (_ & _ & _ & -> & _).
  done.
Qed.

#[local] Hint Resolve owned_insert owned_delete owned_fail : rpc.

Lemma owned_step id h t op :
  owned id h t -> foreign id h op = true -> owned id h (fst (step t op)).
Proof.
  intros Ho Hf. destruct op as [i|i p dl|i h' dl|i r|i|i b|i|i|r|now r]; cbn [step foreign] in *.
  - unfold Add. repeat split_match; cbn; auto. by apply owned_insert.
  - unfold BindAsync. repeat split_match; cbn; auto with rpc. by apply owned_insert.
  - apply andb_true_iff in Hf as [_ Hf]. apply negb_true_iff, bool_decide_eq_false in Hf.
    unfold BindCoroutine. repeat split_match; cbn; auto. apply owned_insert; [done|].
    unfold bound_handle. cbn. congruence.
  - unfold Complete. repeat split_match; cbn; auto with rpc; (apply owned_insert; [done|]); [done|congruence].
  - unfold WaitAndPop_enter. repeat split_match; cbn; auto with rpc.
  - unfold WaitAndPop_wake. repeat split_match; cbn; auto with rpc.
  - unfold TryPop. repeat split_match; cbn; auto with rpc.
  - unfold Remove. repeat split_match; cbn; auto with rpc.
  - apply owned_fail, Ho.
  - apply owned_fail, Ho.
Qed.

(** What the operations of other threads do to the slot of the call. *)
Definition touches (id : string) (op : Op) : bool :=
  match op with
  | OpComplete i _ => bool_decide (i = id)
  | OpFailAll _ | OpFailTimedOut _ _ => true
  | _ => false
  end.

Lemma foreign_step id h t op :
  owned id h t -> foreign id h op = true -> touches id op = false ->
  fst (step t op) !! id = t !! id /\ Resume h ∉ snd (step t op).
Proof.
  intros Ho Hf Ht. destruct op as [i|i p dl|i h' dl|i r|i|i b|i|i|r|now r]; cbn [step foreign touches] in *;
    try done; try apply andb_true_iff in Hf as [Hf _];
    try (apply negb_true_iff in Hf); try apply bool_decide_eq_false in Hf; try apply bool_decide_eq_false in Ht.
  - unfold Add. repeat split_match; cbn; rewrite ?lookup_insert_ne by done; by split; [|apply not_elem_of_nil].
  - unfold BindAsync. repeat split_match; cbn; rewrite ?lookup_insert_ne, ?lookup_delete_ne by done;
      (split; [done|]); rewrite ?list_elem_of_singleton; by try apply not_elem_of_nil.
  - unfold BindCoroutine. repeat split_match; cbn; rewrite ?lookup_insert_ne by done; by split; [|apply not_elem_of_nil].
  - unfold Complete. repeat split_match; cbn; rewrite ?lookup_insert_ne, ?lookup_delete_ne by done;
      (split; [done|]); rewrite ?list_elem_of_singleton; try done; try apply not_elem_of_nil.
    intros [= ->]. apply Ht. eapply Ho; [done|]. by match goal with Hb : bound_handle (finish _ _) = _ |- _ => exact Hb end.
  - unfold WaitAndPop_enter. repeat split_match; cbn; rewrite ?lookup_delete_ne by done; by split; [|apply not_elem_of_nil].
  - unfold WaitAndPop_wake. repeat split_match; cbn; rewrite ?lookup_delete_ne by done; by split; [|apply not_elem_of_nil].
  - unfold TryPop. repeat split_match; cbn; rewrite ?lookup_delete_ne by done; by split; [|apply not_elem_of_nil].
  - unfold Remove. repeat split_match; cbn; rewrite ?lookup_delete_ne by done; by split; [|apply not_elem_of_nil].
Qed.

Lemma unbound_slot_collect s : unbound_slot s -> collect_waiter s = s.
Proof. destruct s. unfold unbound_slot. cbn. by intros (-> & -> & -> & ->). Qed.

(** The slot of a suspended call. *)
Definition suspended_slot (h : nat) (s : Slot) : Prop :=
  async_promise s = None /\ async_bound s = false /\ done s = false /\
  coroutine_handle s = Some h /\ coroutine_bound s = true.

(** The result an operation brings to a slot. *)
Definition brings (op : Op) (s : Slot) : option RpcCallResult :=
  if done s then None
  else
    match op with
    | OpComplete _ r | OpFailAll r => Some r
    | OpFailTimedOut now r => if times_out now s then Some r else None
    | _ => None
    end.

Lemma touch_unbound id t op s :
  t !! id = Some s -> unbound_slot s -> touches id op = true ->
  exists s', fst (step t op) !! id = Some s' /\ unbound_slot s' /\
    match brings op s with
    | Some r => done s' = true /\ result s' = r
    | None => s' = s
    end.
Proof.
  intros E Hu Ht. pose proof Hu as (Hp & Ha & Hh & Hb).
  destruct op as [| | |i r| | | | |r|now r]; cbn [touches step] in *; try done.
  - apply bool_decide_eq_true in Ht as ->. unfold Complete, brings. rewrite E.
    destruct (done s); [by eauto|]. cbn. rewrite Hp. unfold bound_handle. cbn. rewrite Hb. cbn.
    rewrite lookup_insert_eq. by exists (finish s r).
  - cbn [fst FailAll]. rewrite fail_table_lookup, E. cbn. unfold fail_all_mark, brings.
    destruct (done s); [rewrite unbound_slot_collect by done; by eauto|].
    rewrite unbound_slot_collect by done. by exists (finish s r).
  - cbn [fst FailTimedOut]. rewrite fail_table_lookup, E. cbn. unfold brings.
    assert (times_out now s = false) as -> by (unfold times_out; rewrite Ha, Hb; by destruct (done s), (_ <? _)%Z).
    destruct (done s); by eauto.
Qed.

Lemma touch_suspended id h t op s :
  t !! id = Some s -> suspended_slot h s -> owned id h t -> touches id op = true ->
  match brings op s with
  | Some r => Resume h ∈ snd (step t op) /\
      exists s', fst (step t op) !! id = Some s' /\ unbound_slot s' /\ done s' = true /\ result s' = r
  | None => Resume h ∉ snd (step t op) /\ fst (step t op) !! id = Some s
  end.
Proof.
  intros E (Hp & Ha & Hd & Hh & Hb) Ho Ht.
  assert (bound_handle s = Some h) as Hbh by (unfold bound_handle; by rewrite Hb).
  assert (forall r, unbound_slot (collect_waiter (finish s r)) /\
    done (collect_waiter (finish s r)) = true /\ result (collect_waiter (finish s r)) = r) as Hc.
  { intros r. destruct s. cbn in *. by subst. }
  destruct op as [| | |i r| | | | |r|now r]; cbn [touches step] in *; try done; unfold brings; rewrite Hd.
  - apply bool_decide_eq_true in Ht as ->. unfold Complete. rewrite E, Hd. cbn. rewrite Hp.
    change (bound_handle (finish s r)) with (bound_handle s). rewrite Hbh. cbn.
    rewrite lookup_insert_eq. split; [left|]. eexists. by repeat split.
  - split; [|cbn [fst FailAll]; rewrite fail_table_lookup, E; cbn; unfold fail_all_mark; rewrite Hd; eauto].
    apply elem_of_Resume_fail. exists id, s. unfold fail_all_mark. by rewrite Hd.
  - destruct (times_out now s) eqn:Et.
    + split; [apply elem_of_Resume_fail; by exists id, s|].
      cbn [fst FailTimedOut]. rewrite fail_table_lookup, E. cbn. rewrite Et. eauto.
    + split; [|cbn [fst FailTimedOut]; rewrite fail_table_lookup, E; cbn; by rewrite Et].
      intros (i & s' & E' & Hs & Hb')%elem_of_Resume_fail.
      assert (i = id) as -> by (eapply Ho; [exact E'|exact Hb']). congruence.
Qed.

Lemma spec_step_other opts id f op : touches id op = false -> spec_step opts id f (MOther op) = f.
Proof. destruct f as [[dl|]|r], op; cbn; try done; intros Ht; by rewrite Ht. Qed.

Lemma co_other_step opts id h s f op t es :
  co_inv id h s f -> foreign id h op = true -> step (co_table s) op = (t, es) ->
  simulates id h t
    (match co_pc s with
     | CoSuspended => if bool_decide (Resume h ∈ es) then CoResumes None else co_pc s
     | _ => co_pc s
     end) (spec_step opts id f (MOther op)).
Proof.
  intros [Hs Ho] Hf E. destruct (touches id op) eqn:Ht.
  2: { rewrite spec_step_other by done. destruct (foreign_step _ _ _ _ Ho Hf Ht) as [El Hr].
    rewrite E in El, Hr. cbn [fst snd] in El, Hr. rewrite bool_decide_false by done.
    destruct (co_pc s), f as [[|]|]; cbn [simulates] in *; by rewrite ?El. }
  destruct (co_pc s) as [| |[fb|]|r] eqn:Epc, f as [[dl|]|r']; cbn [simulates] in Hs; try done.
  - destruct Hs as (sl & El & Hu & Hd). destruct (touch_unbound _ _ op _ El Hu Ht) as (s' & E' & Hu' & Hb).
    rewrite E in E'. cbn [fst] in E'. unfold brings in Hb. rewrite Hd in Hb.
    destruct op; try done; cbn [spec_step touches] in *; rewrite ?Ht; cbn; [by eauto..|].
    unfold times_out in Hb. destruct Hu as (_ & Ha & _ & Hc). rewrite Hd, Ha, Hc, orb_true_r in Hb. cbn in Hb.
    subst s'. eauto.
  - destruct Hs as (sl & El & Hu & Hd & Hr). destruct (touch_unbound _ _ op _ El Hu Ht) as (s' & E' & Hu' & Hb).
    rewrite E in E'. cbn [fst] in E'. unfold brings in Hb. rewrite Hd in Hb. subst s'. cbn. eauto.
  - destruct Hs as (sl & El & Hp & Ha & Hd & Hh & Hb & Hdl).
    pose proof (touch_suspended id h _ op sl El ltac:(by split_and!) Ho Ht) as Hx. rewrite E in Hx.
    cbn [fst snd] in Hx. unfold brings in Hx. rewrite Hd in Hx.
    destruct op; try done; cbn [spec_step touches] in *; rewrite ?Ht.
    1, 2: destruct Hx as [Hin (s' & E' & Hu' & Hd' & Hr')]; rewrite bool_decide_true by done; cbn; eauto.
    unfold times_out in Hx. rewrite Hd, Ha, Hb, Hdl in Hx. cbn in Hx. rewrite orb_false_r in Hx.
    destruct (now <? dl)%Z; cbn in Hx.
    + destruct Hx as [Hin E']. rewrite bool_decide_false by done. cbn. exists sl. by split_and!.
    + destruct Hx as [Hin (s' & E' & Hu' & Hd' & Hr')]. rewrite bool_decide_true by done. cbn. eauto.
  - destruct Hs as (sl & El & Hu & Hd & Hr). destruct (touch_unbound _ _ op _ El Hu Ht) as (s' & E' & Hu' & Hb).
    rewrite E in E'. cbn [fst] in E'. unfold brings in Hb. rewrite Hd in Hb. subst s'. cbn. eauto.
  - destruct Hs as [El Hr]. cbn. split; [|done]. replace t with (fst (step (co_table s) op)) by (by rewrite E).
    destruct op as [| | |i r0| | | | |r0|now r0]; cbn [touches step] in *; try done.
    + apply bool_decide_eq_true in Ht as ->. unfold Complete. by rewrite El.
    + cbn [fst FailAll]. by rewrite fail_table_lookup, El.
    + cbn [fst FailTimedOut]. by rewrite fail_table_lookup, El.
Qed.

Lemma co_inv_step opts id h s f m s' :
  co_inv id h s f -> co_step opts id h s m = Some s' -> co_inv id h s' (spec_step opts id f m).
Proof.
  intros Hi E. pose proof Hi as [Hs Ho]. unfold co_step in E. destruct m as [op|now|].
  - destruct (foreign id h op) eqn:Hf; [|done]. destruct (step (co_table s) op) as [t es] eqn:Et.
    injection E as <-. split; cbn [co_table co_pc]; [by eapply co_other_step|].
    replace t with (fst (step (co_table s) op)) by (by rewrite Et). by apply owned_step.
  - destruct (co_pc s) eqn:Epc; try done. unfold await_suspend, BindCoroutine in E.
    destruct f as [[dl|]|r]; cbn [simulates] in Hs; [done|..].
    + destruct Hs as (sl & El & (Hp & Ha & Hh & Hb) & Hd). rewrite El, Ha, Hb, Hd in E. injection E as <-.
      split; cbn; [|by apply owned_insert]. eexists. rewrite lookup_insert_eq. by split_and!.
    + destruct Hs as (sl & El & (Hp & Ha & Hh & Hb) & Hd & Hr). rewrite El, Ha, Hb, Hd in E. injection E as <-.
      split; cbn; [|done]. exists sl. by split_and!.
  - destruct (co_pc s) as [| |[fb|]|] eqn:Epc; try done; destruct f as [[dl|]|r]; cbn [simulates] in Hs; try done.
    destruct Hs as (sl & El & _ & Hd & Hr). unfold await_resume, TryPop in E. rewrite El, Hd in E. cbn in E.
    injection E as <-. split; cbn; [|by apply owned_delete]. by rewrite lookup_delete_eq.
Qed.

Lemma co_inv_steps opts id h ms : forall s f s',
  co_inv id h s f -> co_steps opts id h s ms = Some s' -> co_inv id h s' (spec_steps opts id f ms).
Proof.
  induction ms as [|m ms IH]; intros s f s' Hi E; cbn [co_steps] in E; [by injection E as <-|].
  destruct (co_step opts id h s m) as [s1|] eqn:E1; [|done]. cbn [spec_steps fold_left].
  apply (IH s1); [|done]. by eapply co_inv_step.
Qed.

(** ** The property *)

(** C25: a call by a coroutine is a future that the first result settles.  From the moment its
    request has been sent, whatever the dispatcher and the other threads do in between:
    until a result for it comes - a response, a failure of the connection, or its deadline
    once it is awaited - the coroutine has not gone on; from then on it is not suspended,
    its own next steps return exactly that result, and its slot is gone when it
    has returned.  None of the awaiter's fallback errors is ever returned. *)
Theorem callco_is_a_future `{ProtoLaws RpcRequest} opts c ce service method payload script id c1 es wire h ms s :
  CallCo_begin c ce service method payload script = Some (inr id, c1, es, wire) ->
  (forall i sl, pending_calls_ c1 !! i = Some sl -> coroutine_handle sl <> Some h) ->
  co_steps opts id h {| co_table := pending_calls_ c1; co_pc := CoSent |} ms = Some s ->
  match spec_steps opts id (Open None) ms with
  | Open None => co_pc s = CoSent
  | Open (Some _) => co_pc s = CoSuspended
  | Settled r => forall now, exists own s',
        own `sublist_of` [MAwait now; MContinue] /\
        co_steps opts id h s own = Some s' /\ co_pc s' = CoReturned r /\ co_table s' !! id = None
  end.
Proof.
  intros E Hh Es. apply Call_begin_sent in E as (_ & _ & Hslot & _).
  assert (co_inv id h {| co_table := pending_calls_ c1; co_pc := CoSent |} (Open None)) as Hi.
  { split; [exists Slot_default; by split_and!|].
    intros i sl Ei [_ Hb]%bound_handle_Some. by destruct (Hh i sl). }
  pose proof (co_inv_steps _ _ _ _ _ _ _ Hi Es) as [Hs _].
  destruct (spec_steps opts id (Open None) ms) as [[dl|]|r], (co_pc s) as [| |[fb|]|r'] eqn:Epc;
    cbn [simulates] in Hs; try done.
  - intros now. destruct Hs as (sl & El & (Hp & Ha & Hc & Hb) & Hd & Hr).
    exists [MAwait now; MContinue]. eexists. split; [done|]. cbn [co_steps co_step]. rewrite Epc.
    unfold await_suspend, BindCoroutine. rewrite El, Ha, Hb, Hd. cbn. unfold TryPop. rewrite El, Hd. cbn.
    split; [done|]. cbn. by rewrite Hr, lookup_delete_eq.
  - intros now. destruct Hs as (sl & El & _ & Hd & Hr).
    exists [MContinue]. eexists. split; [apply sublist_cons, sublist_skip, sublist_nil|].
    cbn [co_steps co_step]. rewrite Epc. unfold await_resume, TryPop. rewrite El, Hd. cbn.
    split; [done|]. cbn. by rewrite Hr, lookup_delete_eq.
  - destruct Hs as [El ->]. intros now. exists [], s. split; [apply sublist_nil_l|done].
Qed.

(** Awaited, completed and then caught up by the failure of the connection. *)
Definition co_moves : list co_move :=
  [MAwait 5; MOther (OpFailTimedOut 6 (err "call timeout"));
   MOther (OpComplete "1" (mapped_result w_response)); MOther (OpFailAll (err "connection closed"))].

Definition co_begun : co_call := {| co_table := pending_calls_ w_c1; co_pc := CoSent |}.

Definition co_end : co_call :=
  default co_begun (co_steps RpcClientOptions_default "1" 3 co_begun co_moves).

Lemma callco_is_a_future_witness : exists own s',
  own `sublist_of` [MAwait 9; MContinue] /\
  co_steps RpcClientOptions_default "1" 3 co_end own = Some s' /\
  co_pc s' = CoReturned (mapped_result w_response) /\ co_table s' !! "1" = None.
Proof.
  apply (callco_is_a_future RpcClientOptions_default _ _ _ _ _ _ "1" w_c1 [] w_wire 3 co_moves co_end
    w_begun_sent).
  - intros i sl Ei. assert (pending_calls_ w_c1 = ({[ "1" := Slot_default ]} : table)) as Et by (vm_compute; reflexivity).
    rewrite Et in Ei. by apply lookup_singleton_Some in Ei as [_ <-].
  - vm_compute. reflexivity.
Defined.
