(* ===== verification/ClientLocks.v ===== *)
(** * The locks and the threads of the client

    RpcClient.v describes what each operation of the client does when it runs without
    interruption.  This file describes where the operations wait for each other: the
    two mutexes [connect_mu_] and [write_mu_], the dispatcher thread and the join in
    [Close] (client/rpc_client.cpp).  An operation is a list of instructions, one for
    each lock, unlock, join or access between them; any number of threads execute
    such lists, one instruction at a time and in any order.  What sockets, events and
    the table of pending calls do is chosen by the environment. *)

From Stdlib Require Import Lia.
From S2P Require Import Prelude.

Local Open Scope list_scope.

(** ** Instructions *)

Inductive mutex := connect_mu_ | write_mu_.

#[export] Instance mutex_eq_dec : EqDecision mutex.
Proof. solve_decision. Defined.

Inductive instr :=
  | ILock (m : mutex)
  | IUnlock (m : mutex)
  | IConnect                       (** the rest of [Connect], under [connect_mu_] *)
  | ISend                          (** the write of a request, under [write_mu_] *)
  | IBind                          (** binding the waiter *)
  | ICloseBody                     (** [Close] under [connect_mu_] *)
  | IJoin (t : option nat)         (** the join of [Close], with its local [to_join] *)
  | IFailAll
  | IReadFd                        (** [DispatcherLoop]: take the descriptor *)
  | IInit                          (** set up the event loop *)
  | ISetLoop
  | IWait                          (** the loop of the dispatcher: test and wait *)
  | IHeartbeat                     (** the write of a heartbeat, under [write_mu_] *)
  | IResetLoop.

(** [CallAsync] and [CallCo]. *)
Definition Connect_code : list instr := [ILock connect_mu_; IConnect; IUnlock connect_mu_].

Definition Call_code : list instr :=
  Connect_code ++ [ILock write_mu_; ISend; IUnlock write_mu_; IBind].

Definition Close_code : list instr := [ILock connect_mu_; ICloseBody].

Definition DispatcherLoop_code : list instr :=
  [ILock connect_mu_; IReadFd; IUnlock connect_mu_; IInit; ILock connect_mu_; ISetLoop;
   IUnlock connect_mu_; IWait].

Definition SendHeartbeatRequest_code : list instr :=
  [ILock write_mu_; IHeartbeat; IUnlock write_mu_].

(** ** State *)

(** A thread is the list of what it still has to do; [sock_], [dispatcher_running_],
    [dispatcher_thread_] and [event_loop_] are those of the client.  [terminated]:
    the process has ended in [std::terminate]. *)
Record clients := {
  threads : list (list instr);
  owner_of : mutex -> option nat;
  sock_ : bool;
  dispatcher_running_ : bool;
  dispatcher_thread_ : option nat;
  event_loop_ : bool;
  terminated : bool;
}.

Definition no_clients : clients :=
  {| threads := []; owner_of := fun _ => None; sock_ := false; dispatcher_running_ := false;
     dispatcher_thread_ := None; event_loop_ := false; terminated := false |}.

(** What the environment decides at a step.  [EvResume]: a response completes the
    call of a coroutine, which goes on, on the dispatcher's thread, with a call of
    its own; [EvStop]: the dispatcher stops by itself. *)
Inductive wait_event := EvNothing | EvHeartbeat | EvResume | EvStop.

Record choice := { ok : bool; event : wait_event }.

Definition set_owner (m : mutex) (o : option nat) (s : clients) : clients :=
  {| threads := threads s;
     owner_of := fun m' => if decide (m' = m) then o else owner_of s m';
     sock_ := sock_ s; dispatcher_running_ := dispatcher_running_ s;
     dispatcher_thread_ := dispatcher_thread_ s; event_loop_ := event_loop_ s;
     terminated := terminated s |}.

Definition goes_on (t : nat) (code : list instr) (s : clients) : clients :=
  {| threads := <[t := code]> (threads s); owner_of := owner_of s; sock_ := sock_ s;
     dispatcher_running_ := dispatcher_running_ s; dispatcher_thread_ := dispatcher_thread_ s;
     event_loop_ := event_loop_ s; terminated := terminated s |}.

Definition set_running (b : bool) (s : clients) : clients :=
  {| threads := threads s; owner_of := owner_of s; sock_ := sock_ s; dispatcher_running_ := b;
     dispatcher_thread_ := dispatcher_thread_ s; event_loop_ := event_loop_ s;
     terminated := terminated s |}.

Definition set_loop (b : bool) (s : clients) : clients :=
  {| threads := threads s; owner_of := owner_of s; sock_ := sock_ s;
     dispatcher_running_ := dispatcher_running_ s; dispatcher_thread_ := dispatcher_thread_ s;
     event_loop_ := b; terminated := terminated s |}.

Definition terminate (s : clients) : clients :=
  {| threads := threads s; owner_of := owner_of s; sock_ := sock_ s;
     dispatcher_running_ := dispatcher_running_ s; dispatcher_thread_ := dispatcher_thread_ s;
     event_loop_ := event_loop_ s; terminated := true |}.

(** [Connect] once the socket is connected; assigning over a thread that can still be
    joined would terminate the process. *)
Definition connected (s : clients) : clients :=
  {| threads := threads s ++ [DispatcherLoop_code]; owner_of := owner_of s; sock_ := true;
     dispatcher_running_ := true; dispatcher_thread_ := Some (length (threads s));
     event_loop_ := event_loop_ s;
     terminated := terminated s || bool_decide (is_Some (dispatcher_thread_ s)) |}.

(** [Close] under [connect_mu_], the join aside. *)
Definition closed (s : clients) : clients :=
  {| threads := threads s; owner_of := owner_of s; sock_ := false; dispatcher_running_ := false;
     dispatcher_thread_ := None; event_loop_ := event_loop_ s; terminated := terminated s |}.

Section step.
Context (heartbeats coroutines : bool).

Definition finished (s : clients) (t : nat) : bool :=
  match threads s !! t with Some [] => true | _ => false end.

(** One instruction of thread [t]; [None] when it has to wait or has ended.  A failed
    connect or send leaves the call, whose remaining instructions are skipped. *)
Definition thread_step (t : nat) (ch : choice) (s : clients) : option clients :=
  match threads s !! t with
  | None | Some [] => None
  | Some (i :: k) =>
      match i with
      | ILock m =>
          match owner_of s m with
          | None => Some (goes_on t k (set_owner m (Some t) s))
          | Some _ => None
          end
      | IUnlock m => Some (goes_on t k (set_owner m None s))
      | IConnect =>
          if sock_ s then Some (goes_on t k s)
          else if ok ch then Some (goes_on t k (connected s))
          else Some (goes_on t (IUnlock connect_mu_ :: drop 5 k) s)
      | ISend =>
          if ok ch && sock_ s then Some (goes_on t k s)
          else Some (goes_on t (Close_code ++ IUnlock write_mu_ :: drop 2 k) s)
      | ICloseBody =>
          Some (goes_on t (IUnlock connect_mu_ :: IJoin (dispatcher_thread_ s) :: IFailAll :: k)
                  (closed s))
      | IJoin None => Some (goes_on t k s)
      | IJoin (Some t') =>
          if decide (t' = t) then Some (terminate s)
          else if finished s t' then Some (goes_on t k s) else None
      | IBind | IFailAll | IHeartbeat => Some (goes_on t k s)
      | IReadFd =>
          if sock_ s then Some (goes_on t k s) else Some (goes_on t [IUnlock connect_mu_] s)
      | IInit => if ok ch then Some (goes_on t k s) else Some (goes_on t [] (set_running false s))
      | ISetLoop => Some (goes_on t k (set_loop true s))
      | IWait =>
          if dispatcher_running_ s then
            match event ch with
            | EvNothing => Some s
            | EvHeartbeat =>
                Some (if heartbeats then goes_on t (SendHeartbeatRequest_code ++ [IWait]) s else s)
            | EvResume => Some (if coroutines then goes_on t (Call_code ++ [IWait]) s else s)
            | EvStop => Some (set_running false s)
            end
          else Some (goes_on t [ILock connect_mu_; IResetLoop; IUnlock connect_mu_] s)
      | IResetLoop => Some (goes_on t k (set_loop false s))
      end
  end.

(** A thread of the program begins an operation; a thread takes a step. *)
Inductive action := ACall | AClose | AStep (t : nat) (ch : choice).

Definition begins (code : list instr) (s : clients) : clients :=
  {| threads := threads s ++ [code]; owner_of := owner_of s; sock_ := sock_ s;
     dispatcher_running_ := dispatcher_running_ s; dispatcher_thread_ := dispatcher_thread_ s;
     event_loop_ := event_loop_ s; terminated := terminated s |}.

Definition act (s : clients) (a : action) : clients :=
  if terminated s then s
  else
    match a with
    | ACall => begins Call_code s
    | AClose => begins Close_code s
    | AStep t ch => default s (thread_step t ch s)
    end.

Definition run (s : clients) (acts : list action) : clients := fold_left act acts s.

End step.

(** ** One thread at a time *)

(** Whether a thread with this code holds a mutex: it will unlock it before it locks
    it again. *)
Fixpoint held (m : mutex) (code : list instr) : bool :=
  match code with
  | [] => false
  | ILock m' :: k => negb (bool_decide (m' = m)) && held m k
  | IUnlock m' :: k => bool_decide (m' = m) || held m k
  | ICloseBody :: k => bool_decide (connect_mu_ = m) || held m k
  | _ :: k => held m k
  end.

Fixpoint tails (l : list instr) : list (list instr) :=
  l :: match l with [] => [] | _ :: l => tails l end.

(** Everything a thread of the program can have before it, with [h] the dispatcher it
    joins, and everything a dispatcher can have before it. *)
Definition program_codes (h : option nat) : list (list instr) :=
  tails Call_code ++ tails [IUnlock connect_mu_] ++ tails (Close_code ++ [IUnlock write_mu_]) ++ tails Close_code ++
  tails [IUnlock connect_mu_; IJoin h; IFailAll; IUnlock write_mu_] ++
  tails [IUnlock connect_mu_; IJoin h; IFailAll].

Definition dispatcher_codes : list (list instr) :=
  tails DispatcherLoop_code ++ tails [ILock connect_mu_; IResetLoop; IUnlock connect_mu_].






(** ** Lemmas *)




Ltac by_code H := repeat (apply elem_of_cons in H as [->|H]); [..|by apply not_elem_of_nil in H].

Ltac member := unfold dispatcher_codes, program_codes; cbn; repeat (first [by left|right]).






Section serial.
Context (p : nat).












End serial.

(** ** Runs in which the program uses the client from one thread at a time *)








(** ** Properties *)


(** ** What goes wrong otherwise *)

Definition yes : choice := {| ok := true; event := EvNothing |}.
Definition no : choice := {| ok := false; event := EvNothing |}.
Definition on (e : wait_event) : choice := {| ok := true; event := e |}.

(** Thread 0 connects and calls; its dispatcher, thread 1, waits for events. *)
Definition first_call : list action :=
  ACall :: replicate 7 (AStep 0 yes) ++ replicate 7 (AStep 1 yes).

(** Thread 2 calls; while it has [write_mu_], the dispatcher wants to send a heartbeat;
    the send fails, and thread 2 closes the client. *)
Definition failed_send : list action :=
  first_call ++ ACall :: replicate 4 (AStep 2 yes) ++ [AStep 1 (on EvHeartbeat)] ++
  replicate 5 (AStep 2 no).

(** What a thread can have before it that does not hold [write_mu_]. *)
Definition harmless (code : list instr) : Prop :=
  held write_mu_ code = false /\
  (code ∈ dispatcher_codes \/ code ∈ tails (SendHeartbeatRequest_code ++ [IWait]) \/
   exists h, code ∈ program_codes h).

Record deadlocked (s : clients) : Prop := {
  dl_caller : threads s !! 2 = Some [IJoin (Some 1); IFailAll; IUnlock write_mu_];
  dl_dispatcher : threads s !! 1 = Some (SendHeartbeatRequest_code ++ [IWait]);
  dl_owner : owner_of s write_mu_ = Some 2;
  dl_others : forall t code, threads s !! t = Some code -> t <> 2 -> harmless code;
}.

Lemma deadlocked_goes_on s s1 t code' :
  deadlocked s -> t <> 1 -> t <> 2 -> harmless code' ->
  (threads s1 = threads s \/ threads s1 = threads s ++ [DispatcherLoop_code]) ->
  owner_of s1 write_mu_ = owner_of s write_mu_ ->
  deadlocked (goes_on t code' s1).
Proof.
  intros [D1 D2 D3 D4] H1 H2 Hh Et Eo.
  assert (forall u c, threads s !! u = Some c -> threads s1 !! u = Some c) as Hl.
  { intros u c Hu. destruct Et as [-> | ->]; [done|]. by apply lookup_app_l_Some. }
  split; unfold goes_on; cbn [threads owner_of].
  - rewrite list_lookup_insert_ne by done. by apply Hl.
  - rewrite list_lookup_insert_ne by done. by apply Hl.
  - by rewrite Eo.
  - intros u c Hu Hne. apply list_lookup_insert_Some in Hu as [(_ & <- & _)|[_ Hu]]; [done|].
    destruct Et as [Et|Et]; rewrite Et in Hu; [by eapply D4|].
    apply lookup_app_Some in Hu as [Hu|[_ Hu]]; [by eapply D4|].
    apply list_lookup_singleton_Some in Hu as [_ <-]. split; [done|]. left. member.
Qed.

Lemma deadlocked_begins s code : deadlocked s -> harmless code -> deadlocked (begins code s).
Proof.
  intros [D1 D2 D3 D4] Hc. split; cbn [begins threads owner_of];
    [by apply lookup_app_l_Some|by apply lookup_app_l_Some|done|].
  intros u c Hu Hne. apply lookup_app_Some in Hu as [Hu|[_ Hu]]; [by eapply D4|].
  by apply list_lookup_singleton_Some in Hu as [_ <-].
Qed.

Ltac harm := split; [done|first [left; member; fail|right; left; member; fail|
  right; right; exists None; member; fail|right; right; eexists; member]].

Lemma deadlocked_step s t ch s' :
  deadlocked s -> thread_step true false t ch s = Some s' -> deadlocked s'.
Proof.
  intros Hs E. pose proof Hs as [D1 D2 D3 D4]. unfold thread_step in E.
  destruct (decide (t = 2)) as [->|H2].
  { rewrite D1 in E. simpl in E. unfold finished in E. by rewrite D2 in E. }
  destruct (decide (t = 1)) as [->|H1]; [rewrite D2 in E; simpl in E; by rewrite D3 in E|].
  destruct (threads s !! t) as [code|] eqn:Ht; [|done].
  destruct (D4 t code Ht H2) as [Hw Hc].
  assert (forall code' s1, harmless code' ->
    (threads s1 = threads s \/ threads s1 = threads s ++ [DispatcherLoop_code]) ->
    owner_of s1 write_mu_ = owner_of s write_mu_ -> deadlocked (goes_on t code' s1)) as Hgo.
  { intros code' s1. by apply deadlocked_goes_on. }
  assert (deadlocked (set_running false s)) as Hstop by by split.
  assert (deadlocked (terminate s)) as Hterm by by split.
  destruct Hc as [Hc|[Hc|[h Hc]]]; by_code Hc; simpl in E, Hw; try done;
    repeat split_match_in E; simplify_eq; try done;
    (apply Hgo; [harm|by auto|done]).
Qed.

Lemma deadlocked_run acts : forall s, deadlocked s -> deadlocked (run true false s acts).
Proof.
  induction acts as [|a acts IH]; intros s Hs; [done|]. apply IH. unfold act.
  destruct (terminated s); [done|]. destruct a as [| |t ch].
  - apply deadlocked_begins; [done|harm].
  - apply deadlocked_begins; [done|harm].
  - destruct (thread_step true false t ch s) eqn:E; [|done]. by eapply deadlocked_step.
Qed.

Lemma failed_send_state :
  (threads (run true false no_clients failed_send),
   owner_of (run true false no_clients failed_send) write_mu_) =
  ([[]; SendHeartbeatRequest_code ++ [IWait]; [IJoin (Some 1); IFailAll; IUnlock write_mu_]], Some 2).
Proof. vm_compute. reflexivity. Qed.

Lemma failed_send_deadlocked s :
  (threads s, owner_of s write_mu_) =
    ([[]; SendHeartbeatRequest_code ++ [IWait]; [IJoin (Some 1); IFailAll; IUnlock write_mu_]], Some 2) ->
  deadlocked s.
Proof.
  intros [= Et Eo]. split; rewrite ?Et; [done|done|done|]. clear Et. intros t code Ht Hne.
  destruct t as [|[|[|t]]]; simplify_eq/=; harm.
Qed.

(** C37: a failed send can block the client for ever.  [CallAsync] and [CallCo] call
    [Close] while they hold [write_mu_], and [Close] waits for the dispatcher; when
    the dispatcher is just about to send a heartbeat, it waits for [write_mu_].  In
    this run both wait, and whatever any thread does afterwards, they wait for ever
    and no call can be sent any more. *)
Theorem failed_send_deadlocks acts :
  let s := run true false (run true false no_clients failed_send) acts in
  threads s !! 2 = Some [IJoin (Some 1); IFailAll; IUnlock write_mu_] /\
  threads s !! 1 = Some [ILock write_mu_; IHeartbeat; IUnlock write_mu_; IWait] /\
  owner_of s write_mu_ = Some 2.
Proof.
  cbv zeta. pose proof (failed_send_deadlocked _ failed_send_state) as Hd.
  destruct (deadlocked_run acts _ Hd) as [D1 D2 D3 _]. done.
Qed.

(** Thread 2 closes the client; before the dispatcher looks at [dispatcher_running_],
    thread 3 connects again, with thread 4 as its dispatcher. *)
Definition reconnect_during_close : list action :=
  first_call ++ AClose :: replicate 3 (AStep 2 yes) ++ ACall :: replicate 7 (AStep 3 yes) ++
  replicate 7 (AStep 4 yes).

Definition revived : clients := run false false no_clients reconnect_during_close.

Lemma revived_state :
  (threads revived, dispatcher_running_ revived, terminated revived) =
  ([[]; [IWait]; [IJoin (Some 1); IFailAll]; []; [IWait]], true, false).
Proof. vm_compute. reflexivity. Qed.

(** Nobody can change such a state by waiting for events. *)
Lemma waiting_run s acts :
  (threads s, dispatcher_running_ s, terminated s) =
    ([[]; [IWait]; [IJoin (Some 1); IFailAll]; []; [IWait]], true, false) ->
  Forall (fun a => match a with AStep _ ch => event ch <> EvStop | _ => False end) acts ->
  run false false s acts = s.
Proof.
  intros [= Et Er Ea] Ha. induction Ha as [|a acts Ha _ IH]; [done|]. destruct a as [| |t ch]; try done.
  unfold run. cbn [fold_left]. unfold act at 2. rewrite Ea.
  replace (default s (thread_step false false t ch s)) with s; [exact IH|].
  unfold thread_step, finished. rewrite Et, Er.
  destruct t as [|[|[|[|[|t]]]]]; simpl; try done; by destruct (event ch).
Qed.

(** [Close] can wait for a dispatcher that has been told to go on.  The flag that
    stops the dispatcher is the one a new connection sets: when another thread
    reconnects before the old dispatcher has looked, the old dispatcher never stops,
    and [Close] waits as long as the new connection stays up - here, for any number
    of steps of any threads - with two dispatchers running. *)
Theorem close_waits_for_revived_dispatcher acts :
  Forall (fun a => match a with AStep _ ch => event ch <> EvStop | _ => False end) acts ->
  let s := run false false revived acts in
  threads s !! 2 = Some [IJoin (Some 1); IFailAll] /\
  threads s !! 1 = Some [IWait] /\ threads s !! 4 = Some [IWait].
Proof.
  intros Ha. cbv zeta. rewrite (waiting_run revived acts revived_state Ha).
  pose proof revived_state as E. generalize dependent revived. intros s [= -> _ _]. done.
Qed.

(** Thread 1, the dispatcher, completes the call of a coroutine, which calls again; the
    send fails. *)
Definition coroutine_calls_again : list action :=
  first_call ++ [AStep 1 (on EvResume)] ++ replicate 4 (AStep 1 yes) ++ replicate 5 (AStep 1 no).

(** A coroutine can end the process.  A coroutine that [CallCo] suspended goes on
    on the dispatcher's thread; when its next call fails to send, [Close] makes the
    dispatcher join itself. *)
Theorem coroutine_call_joins_itself :
  terminated (run false true no_clients coroutine_calls_again) = true.
Proof. vm_compute. reflexivity. Qed.

(** ** A run *)






Lemma close_waits_for_revived_dispatcher_witness :
  threads (run false false revived
    [AStep 1 yes; AStep 2 yes; AStep 4 yes]) !! 2 = Some [IJoin (Some 1); IFailAll].
Proof.
  apply (close_waits_for_revived_dispatcher [AStep 1 yes; AStep 2 yes; AStep 4 yes]).
  repeat constructor; done.
Defined.
