(* ===== verification/ConnBuffer.v ===== *)
(** * The receive buffer of a connection and its frames ([Connection::Buffer],
    [EncodeFrame] and [DecodeFrameHeader] of server/connection.h and
    server/connection.cpp)

    A vector with two cursors; the readable bytes lie between them.  The
    abstract view is a queue of bytes. *)

From Stdlib Require Import ZArith Lia.
From S2P Require Import Prelude Codec Frames.

Local Open Scope string_scope.
Local Open Scope list_scope.
Local Open Scope nat_scope.

Record Buffer := {
  buffer_ : bytes;
  read_index_ : nat;
  write_index_ : nat;
}.

Definition make_buffer (initial_capacity : nat) : Buffer :=
  {| buffer_ := replicate initial_capacity x00; read_index_ := 0; write_index_ := 0 |}.

Definition readable_bytes (b : Buffer) : nat := write_index_ b - read_index_ b.

Definition writable_bytes (b : Buffer) : nat := length (buffer_ b) - write_index_ b.

Definition prependable_bytes (b : Buffer) : nat := read_index_ b.

(** The bytes from [peek()] on, up to the end of the vector. *)
Definition peek (b : Buffer) : bytes := drop (read_index_ b) (buffer_ b).

Definition retrieve (b : Buffer) (n : nat) : Buffer :=
  let r := read_index_ b + n in
  if r =? write_index_ b then {| buffer_ := buffer_ b; read_index_ := 0; write_index_ := 0 |}
  else {| buffer_ := buffer_ b; read_index_ := r; write_index_ := write_index_ b |}.

Definition retrieve_all (b : Buffer) : Buffer := retrieve b (readable_bytes b).

Definition peek_string_view (b : Buffer) : bytes := take (readable_bytes b) (peek b).

Definition has_written (b : Buffer) (n : nat) : Buffer :=
  {| buffer_ := buffer_ b; read_index_ := read_index_ b; write_index_ := write_index_ b + n |}.

(** [memcpy] and [memmove] of [data] to the offset [at_]. *)
Definition overwrite (v : bytes) (at_ : nat) (data : bytes) : bytes :=
  take at_ v ++ data ++ drop (at_ + length data) v.

Definition compact (b : Buffer) : Buffer :=
  if read_index_ b =? 0 then b
  else
    let readable := write_index_ b - read_index_ b in
    {| buffer_ := if 0 <? readable
                  then overwrite (buffer_ b) 0 (take readable (drop (read_index_ b) (buffer_ b)))
                  else buffer_ b;
       read_index_ := 0; write_index_ := readable |}.

(** [vector::resize]: new elements are zero. *)
Definition resize (v : bytes) (n : nat) : bytes := take n v ++ replicate (n - length v) x00.

Definition ensure_writable (b : Buffer) (len : nat) : Buffer :=
  if len <=? writable_bytes b then b
  else
    let b := compact b in
    if writable_bytes b <? len then
      {| buffer_ := resize (buffer_ b) (write_index_ b + len);
         read_index_ := read_index_ b; write_index_ := write_index_ b |}
    else b.

Definition append (b : Buffer) (data : bytes) : Buffer :=
  let b := ensure_writable b (length data) in
  {| buffer_ := overwrite (buffer_ b) (write_index_ b) data;
     read_index_ := read_index_ b; write_index_ := write_index_ b + length data |}.

(** ** Frames *)

(** [EncodeFrame]; [have_frame] says that the output pointer is not null. *)
Definition EncodeFrame (body : bytes) (have_frame : bool) (error_msg : option string)
    : bool * option bytes * option string :=
  if negb have_frame then (false, None, set_error error_msg "frame output is null")
  else if (length body =? 0) || (kMaxFrameSize <? Z.of_nat (length body))%Z then
    (false, None, set_error error_msg "invalid frame body size")
  else (true, Some (htonl_bytes (Z.of_nat (length body)) ++ body), error_msg).

Definition DecodeFrameHeader (data : bytes) (have_length : bool) (error_msg : option string)
    : bool * option nat * option string :=
  if negb have_length then (false, None, set_error error_msg "body_length is null")
  else
    let parsed := ntohl_bytes data in
    if ((parsed =? 0) || (kMaxFrameSize <? parsed))%Z then
      (false, None, set_error error_msg "invalid request frame length")
    else (true, Some (Z.to_nat parsed), error_msg).

(** ** Lemmas *)

Record buffer_wf (b : Buffer) : Prop := {
  wf_read : read_index_ b <= write_index_ b;
  wf_write : write_index_ b <= length (buffer_ b);
}.

(** The bytes received and not yet retrieved. *)
Definition contents (b : Buffer) : bytes := peek_string_view b.

Lemma length_buffer_contents b : buffer_wf b -> length (contents b) = readable_bytes b.
Proof.
  intros []. unfold contents, peek_string_view, peek, readable_bytes in *.
  rewrite length_take, length_drop. lia.
Qed.

Lemma overwrite_length v at_ data :
  at_ + length data <= length v -> length (overwrite v at_ data) = length v.
Proof. intros Hl. unfold overwrite. rewrite !length_app, length_take, length_drop. lia. Qed.

Lemma compact_spec b :
  buffer_wf b -> buffer_wf (compact b) /\ contents (compact b) = contents b /\
  length (buffer_ (compact b)) = length (buffer_ b).
Proof.
  intros Hb. destruct b as [v r w]. destruct Hb as [Hr Hw]. simpl in Hr, Hw.
  unfold compact. simpl. destruct (Nat.eqb_spec r 0) as [->|]; [by split; [split|]|].
  unfold contents, peek_string_view, peek, readable_bytes. simpl.
  destruct (Nat.ltb_spec 0 (w - r)).
  - assert (length (take (w - r) (drop r v)) = w - r) as Hl
      by (rewrite length_take, length_drop; lia).
    split_and!.
    + split; simpl; [lia|]. rewrite overwrite_length; lia.
    + unfold overwrite. simpl. rewrite drop_0, Nat.sub_0_r. rewrite <- Hl at 1. apply take_app_exact.
    + apply overwrite_length. lia.
  - replace (w - r) with 0 by lia. split_and!; [split; simpl; lia|done|done].
Qed.

Lemma contents_grow b v :
  buffer_wf b -> take (write_index_ b) v = take (write_index_ b) (buffer_ b) ->
  contents {| buffer_ := v; read_index_ := read_index_ b; write_index_ := write_index_ b |} =
  contents b.
Proof.
  intros [Hr Hw] E. unfold contents, peek_string_view, peek, readable_bytes. simpl.
  rewrite !take_drop_commute. replace (read_index_ b + (write_index_ b - read_index_ b))
    with (write_index_ b) by lia. by rewrite E.
Qed.

Lemma resize_spec v n : length v <= n -> length (resize v n) = n /\ take (length v) (resize v n) = v.
Proof.
  intros Hn. unfold resize. rewrite take_ge by lia. rewrite length_app, length_replicate.
  split; [lia|]. apply take_app_exact.
Qed.

Lemma ensure_writable_spec b len :
  buffer_wf b -> buffer_wf (ensure_writable b len) /\
  contents (ensure_writable b len) = contents b /\ len <= writable_bytes (ensure_writable b len).
Proof.
  intros Hb. unfold ensure_writable. destruct (Nat.leb_spec len (writable_bytes b)); [done|].
  destruct (compact_spec b Hb) as (Hc & Hcc & _).
  destruct (Nat.ltb_spec (writable_bytes (compact b)) len); [|done].
  set (c := compact b) in *. clearbody c. pose proof (wf_write _ Hc). pose proof (wf_read _ Hc).
  unfold writable_bytes in *.
  destruct (resize_spec (buffer_ c) (write_index_ c + len)) as [Hl Ht]; [lia|].
  split_and!.
  - split; simpl; [done|]. rewrite Hl. lia.
  - rewrite <- Hcc. apply contents_grow; [done|].
    rewrite <- Ht at 2. rewrite take_take. f_equal. lia.
  - simpl. rewrite Hl. lia.
Qed.

Lemma append_spec b data :
  buffer_wf b -> buffer_wf (append b data) /\ contents (append b data) = contents b ++ data.
Proof.
  intros Hb. unfold append. destruct (ensure_writable_spec b (length data) Hb) as (Hc & <- & Hw).
  set (c := ensure_writable b (length data)) in *. clearbody c. pose proof Hc as [Hr Hs].
  unfold writable_bytes in Hw. split.
  - split; simpl; [lia|]. rewrite overwrite_length; lia.
  - unfold contents, peek_string_view, peek, readable_bytes, overwrite. simpl.
    replace (write_index_ c + length data - read_index_ c)
      with ((write_index_ c - read_index_ c) + length data) by lia.
    rewrite drop_app_le by (rewrite length_take; lia).
    assert (length (drop (read_index_ c) (take (write_index_ c) (buffer_ c))) =
            write_index_ c - read_index_ c) as Hl by (rewrite length_drop, length_take; lia).
    rewrite take_app_add' by done. rewrite take_app_exact. f_equal.
    rewrite take_drop_commute. by replace (read_index_ c + (write_index_ c - read_index_ c))
      with (write_index_ c) by lia.
Qed.

Lemma retrieve_spec b n :
  buffer_wf b -> n <= readable_bytes b ->
  buffer_wf (retrieve b n) /\ contents (retrieve b n) = drop n (contents b).
Proof.
  intros [Hr Hw] Hn. unfold readable_bytes in Hn. unfold retrieve.
  unfold contents, peek_string_view, peek, readable_bytes.
  destruct (Nat.eqb_spec (read_index_ b + n) (write_index_ b)) as [E|Hne]; simpl.
  - split; [split; simpl; lia|]. symmetry. apply drop_ge. rewrite length_take. lia.
  - split; [split; simpl; lia|].
    rewrite skipn_firstn_comm, drop_drop.
    by replace (write_index_ b - read_index_ b - n) with (write_index_ b - (read_index_ b + n)) by lia.
Qed.

Lemma make_buffer_spec n : buffer_wf (make_buffer n) /\ contents (make_buffer n) = [].
Proof. split; [split; simpl; [lia|rewrite length_replicate; lia]|done]. Qed.

(** The bytes at [peek()] begin with the contents. *)
Lemma peek_contents b : exists rest, peek b = contents b ++ rest.
Proof.
  exists (drop (readable_bytes b) (peek b)). unfold contents, peek_string_view. by rewrite take_drop.
Qed.

(** ** Properties *)

Inductive buffer_op := OpAppend (data : bytes) | OpRetrieve (n : nat).

Definition buffer_step (b : Buffer) (op : buffer_op) : Buffer :=
  match op with
  | OpAppend data => append b data
  | OpRetrieve n => retrieve b n
  end.

(** The specification: a queue of bytes; retrieving more than there is, is not
    allowed. *)
Definition queue_step (q : bytes) (op : buffer_op) : option bytes :=
  match op with
  | OpAppend data => Some (q ++ data)
  | OpRetrieve n => if n <=? length q then Some (drop n q) else None
  end.

Fixpoint queue_run (q : bytes) (ops : list buffer_op) : option bytes :=
  match ops with
  | [] => Some q
  | op :: ops => match queue_step q op with
                 | Some q' => queue_run q' ops
                 | None => None
                 end
  end.

Lemma buffer_run ops : forall b q,
  buffer_wf b -> queue_run (contents b) ops = Some q ->
  buffer_wf (fold_left buffer_step ops b) /\ contents (fold_left buffer_step ops b) = q.
Proof.
  induction ops as [|op ops IH]; intros b q Hb Hq; simpl in *; [by simplify_eq|].
  destruct op as [data|n]; simpl in *.
  - destruct (append_spec b data Hb) as [H1 H2]. apply IH; [done|]. by rewrite H2.
  - destruct (Nat.leb_spec n (length (contents b))) as [Hn|]; [|done].
    rewrite length_buffer_contents in Hn by done.
    destruct (retrieve_spec b n Hb Hn) as [H1 H2]. apply IH; [done|]. by rewrite H2.
Qed.

(** C27: the receive buffer is a queue of bytes: after any sequence of appends
    and retrieves that never takes more than there is, through every
    compaction and growth, the cursors stay in order and the readable bytes are
    exactly those of the queue. *)
Theorem buffer_refines_queue capacity ops q :
  queue_run [] ops = Some q ->
  let b := fold_left buffer_step ops (make_buffer capacity) in
  read_index_ b <= write_index_ b <= length (buffer_ b) /\
  peek_string_view b = q /\ readable_bytes b = length q.
Proof.
  intros Hq. destruct (make_buffer_spec capacity) as [H1 H2].
  destruct (buffer_run ops (make_buffer capacity) q H1) as [H3 H4]; [by rewrite H2|].
  simpl. split; [destruct H3; lia|]. split; [exact H4|].
  rewrite <- length_buffer_contents by done. by rewrite H4.
Qed.

(** Encoding a frame and decoding its header are inverse, for exactly the
    body sizes from 1 byte to 4 MiB; every other size, announced or real, is
    refused on both sides with its message. *)
Theorem frame_codec_roundtrip body rest (e1 e2 : string) :
  let n := Z.of_nat (length body) in
  if ((0 <? n) && (n <=? kMaxFrameSize))%Z then
    exists frame, EncodeFrame body true (Some e1) = (true, Some frame, Some e1) /\
      DecodeFrameHeader (frame ++ rest) true (Some e2) = (true, Some (length body), Some e2) /\
      drop kFrameHeaderBytes frame = body
  else
    EncodeFrame body true (Some e1) = (false, None, Some "invalid frame body size") /\
    (forall hdr, ntohl_bytes hdr = n ->
       DecodeFrameHeader hdr true (Some e2) = (false, None, Some "invalid request frame length")).
Proof.
  cbv zeta. unfold EncodeFrame, DecodeFrameHeader. cbn [negb].
  destruct (Z.ltb_spec 0 (Z.of_nat (length body))); [|].
  - destruct (Nat.eqb_spec (length body) 0); [lia|].
    destruct (Z.leb_spec (Z.of_nat (length body)) kMaxFrameSize); simpl andb; cbv iota.
    + destruct (Z.ltb_spec kMaxFrameSize (Z.of_nat (length body))); [lia|]. simpl orb. cbv iota.
      eexists. split; [reflexivity|].
      rewrite <- app_assoc, ntohl_htonl by (unfold kMaxFrameSize in *; lia).
      destruct (Z.eqb_spec (Z.of_nat (length body)) 0); [lia|].
      destruct (Z.ltb_spec kMaxFrameSize (Z.of_nat (length body))); [lia|]. simpl orb. cbv iota.
      rewrite Nat2Z.id. done.
    + destruct (Z.ltb_spec kMaxFrameSize (Z.of_nat (length body))); [|lia]. simpl orb. cbv iota.
      split; [done|]. intros hdr ->. destruct (Z.eqb_spec (Z.of_nat (length body)) 0); [lia|].
      destruct (Z.ltb_spec kMaxFrameSize (Z.of_nat (length body))); [done|lia].
  - simpl andb. cbv iota. destruct (Nat.eqb_spec (length body) 0); [|lia]. simpl orb. cbv iota.
    split; [done|]. intros hdr ->. destruct (Z.eqb_spec (Z.of_nat (length body)) 0); [done|lia].
Qed.

Lemma buffer_refines_queue_witness :
  peek_string_view (fold_left buffer_step
    [OpAppend [x61; x62]; OpRetrieve 1; OpAppend [x63; x64; x65]] (make_buffer 2)) =
  [x62; x63; x64; x65].
Proof.
  apply (buffer_refines_queue 2 [OpAppend [x61; x62]; OpRetrieve 1; OpAppend [x63; x64; x65]]).
  vm_compute. reflexivity.
Defined.
