(* ===== verification/Connection.v ===== *)
(** * A connection of the server and its coroutine (server/connection.h,
    server/connection.cpp; [HandleConnectionCo] of server/worker_loop.cpp)

    The state of a [Connection] object together with what its worker keeps for
    it (the coroutine and its outcome), the kernel's side of its socket (the
    scripts of [recv] and [send]; a script that has ended means [EAGAIN]), the
    verdicts of the thread pool on the requests handed to it, and what came out
    ([wire], [dispatched]).  Coroutine handles are the two waiter flags: the only
    coroutine of a connection is [HandleConnectionCo], and [resume] continues it
    on the same thread until it suspends again or ends. *)

From Stdlib Require Import ZArith Lia.
From S2P Require Import Prelude RpcError Posix Codec Frames ServiceRegistry Proto3 ConnBuffer.

Local Open Scope string_scope.
Local Open Scope list_scope.
Local Open Scope nat_scope.

(** ** Data *)

Inductive State := kOpen | kReading | kWriting | kClosing | kClosed | kError.

#[export] Instance State_eq_dec : EqDecision State.
Proof. solve_decision. Defined.

Definition StateName (s : State) : string :=
  match s with
  | kOpen => "open"
  | kReading => "reading"
  | kWriting => "writing"
  | kClosing => "closing"
  | kClosed => "closed"
  | kError => "error"
  end.

Record Options := {
  read_timeout : Z;
  write_timeout : Z;
  max_write_buffer_bytes : Z;
}.

Definition Options_default : Options :=
  {| read_timeout := 5000; write_timeout := 5000; max_write_buffer_bytes := 8388608 |}.

Record PendingChunk := { data : bytes; offset : nat }.

(** Where the coroutine is: suspended in [WaitReadableCo] or [WaitWritableCo],
    running, or finished ([CoStuck]: the model ran out of fuel). *)
Inductive co_point := CoReading | CoWriting | CoRunning | CoDone | CoStuck.

Record Connection := {
  read_buffer_ : Buffer;
  write_buffer_ : list PendingChunk;
  pending_write_bytes_ : nat;
  last_error_ : string;
  state_ : State;
  should_close_ : bool;
  read_ready_ : bool;
  write_ready_ : bool;
  read_deadline_ : option Z;
  write_deadline_ : option Z;
  read_waiter_ : bool;
  write_waiter_ : bool;
  request_dispatcher_ : bool;
  next_request_sequence_ : Z;
  co : co_point;
  coroutine_ok : bool;
  coroutine_error : string;
  clock : Z;
  recv_script : list recv_event;
  send_script : list send_event;
  submit_script : list bool;
  wire : bytes;
  dispatched : list DispatchRequest;
}.

Definition set_read_buffer (v : Buffer) (c : Connection) : Connection :=
  {| read_buffer_ := v; write_buffer_ := write_buffer_ c;
     pending_write_bytes_ := pending_write_bytes_ c; last_error_ := last_error_ c;
     state_ := state_ c; should_close_ := should_close_ c; read_ready_ := read_ready_ c;
     write_ready_ := write_ready_ c; read_deadline_ := read_deadline_ c;
     write_deadline_ := write_deadline_ c; read_waiter_ := read_waiter_ c;
     write_waiter_ := write_waiter_ c; request_dispatcher_ := request_dispatcher_ c;
     next_request_sequence_ := next_request_sequence_ c; co := co c;
     coroutine_ok := coroutine_ok c; coroutine_error := coroutine_error c; clock := clock c;
     recv_script := recv_script c; send_script := send_script c;
     submit_script := submit_script c; wire := wire c; dispatched := dispatched c |}.

Definition set_write_buffer (v : list PendingChunk) (c : Connection) : Connection :=
  {| read_buffer_ := read_buffer_ c; write_buffer_ := v;
     pending_write_bytes_ := pending_write_bytes_ c; last_error_ := last_error_ c;
     state_ := state_ c; should_close_ := should_close_ c; read_ready_ := read_ready_ c;
     write_ready_ := write_ready_ c; read_deadline_ := read_deadline_ c;
     write_deadline_ := write_deadline_ c; read_waiter_ := read_waiter_ c;
     write_waiter_ := write_waiter_ c; request_dispatcher_ := request_dispatcher_ c;
     next_request_sequence_ := next_request_sequence_ c; co := co c;
     coroutine_ok := coroutine_ok c; coroutine_error := coroutine_error c; clock := clock c;
     recv_script := recv_script c; send_script := send_script c;
     submit_script := submit_script c; wire := wire c; dispatched := dispatched c |}.

Definition set_pending_write_bytes (v : nat) (c : Connection) : Connection :=
  {| read_buffer_ := read_buffer_ c; write_buffer_ := write_buffer_ c;
     pending_write_bytes_ := v; last_error_ := last_error_ c; state_ := state_ c;
     should_close_ := should_close_ c; read_ready_ := read_ready_ c;
     write_ready_ := write_ready_ c; read_deadline_ := read_deadline_ c;
     write_deadline_ := write_deadline_ c; read_waiter_ := read_waiter_ c;
     write_waiter_ := write_waiter_ c; request_dispatcher_ := request_dispatcher_ c;
     next_request_sequence_ := next_request_sequence_ c; co := co c;
     coroutine_ok := coroutine_ok c; coroutine_error := coroutine_error c; clock := clock c;
     recv_script := recv_script c; send_script := send_script c;
     submit_script := submit_script c; wire := wire c; dispatched := dispatched c |}.

Definition set_last_error (v : string) (c : Connection) : Connection :=
  {| read_buffer_ := read_buffer_ c; write_buffer_ := write_buffer_ c;
     pending_write_bytes_ := pending_write_bytes_ c; last_error_ := v; state_ := state_ c;
     should_close_ := should_close_ c; read_ready_ := read_ready_ c;
     write_ready_ := write_ready_ c; read_deadline_ := read_deadline_ c;
     write_deadline_ := write_deadline_ c; read_waiter_ := read_waiter_ c;
     write_waiter_ := write_waiter_ c; request_dispatcher_ := request_dispatcher_ c;
     next_request_sequence_ := next_request_sequence_ c; co := co c;
     coroutine_ok := coroutine_ok c; coroutine_error := coroutine_error c; clock := clock c;
     recv_script := recv_script c; send_script := send_script c;
     submit_script := submit_script c; wire := wire c; dispatched := dispatched c |}.

Definition set_state (v : State) (c : Connection) : Connection :=
  {| read_buffer_ := read_buffer_ c; write_buffer_ := write_buffer_ c;
     pending_write_bytes_ := pending_write_bytes_ c; last_error_ := last_error_ c; state_ := v;
     should_close_ := should_close_ c; read_ready_ := read_ready_ c;
     write_ready_ := write_ready_ c; read_deadline_ := read_deadline_ c;
     write_deadline_ := write_deadline_ c; read_waiter_ := read_waiter_ c;
     write_waiter_ := write_waiter_ c; request_dispatcher_ := request_dispatcher_ c;
     next_request_sequence_ := next_request_sequence_ c; co := co c;
     coroutine_ok := coroutine_ok c; coroutine_error := coroutine_error c; clock := clock c;
     recv_script := recv_script c; send_script := send_script c;
     submit_script := submit_script c; wire := wire c; dispatched := dispatched c |}.

Definition set_should_close (v : bool) (c : Connection) : Connection :=
  {| read_buffer_ := read_buffer_ c; write_buffer_ := write_buffer_ c;
     pending_write_bytes_ := pending_write_bytes_ c; last_error_ := last_error_ c;
     state_ := state_ c; should_close_ := v; read_ready_ := read_ready_ c;
     write_ready_ := write_ready_ c; read_deadline_ := read_deadline_ c;
     write_deadline_ := write_deadline_ c; read_waiter_ := read_waiter_ c;
     write_waiter_ := write_waiter_ c; request_dispatcher_ := request_dispatcher_ c;
     next_request_sequence_ := next_request_sequence_ c; co := co c;
     coroutine_ok := coroutine_ok c; coroutine_error := coroutine_error c; clock := clock c;
     recv_script := recv_script c; send_script := send_script c;
     submit_script := submit_script c; wire := wire c; dispatched := dispatched c |}.

Definition set_read_ready (v : bool) (c : Connection) : Connection :=
  {| read_buffer_ := read_buffer_ c; write_buffer_ := write_buffer_ c;
     pending_write_bytes_ := pending_write_bytes_ c; last_error_ := last_error_ c;
     state_ := state_ c; should_close_ := should_close_ c; read_ready_ := v;
     write_ready_ := write_ready_ c; read_deadline_ := read_deadline_ c;
     write_deadline_ := write_deadline_ c; read_waiter_ := read_waiter_ c;
     write_waiter_ := write_waiter_ c; request_dispatcher_ := request_dispatcher_ c;
     next_request_sequence_ := next_request_sequence_ c; co := co c;
     coroutine_ok := coroutine_ok c; coroutine_error := coroutine_error c; clock := clock c;
     recv_script := recv_script c; send_script := send_script c;
     submit_script := submit_script c; wire := wire c; dispatched := dispatched c |}.

Definition set_write_ready (v : bool) (c : Connection) : Connection :=
  {| read_buffer_ := read_buffer_ c; write_buffer_ := write_buffer_ c;
     pending_write_bytes_ := pending_write_bytes_ c; last_error_ := last_error_ c;
     state_ := state_ c; should_close_ := should_close_ c; read_ready_ := read_ready_ c;
     write_ready_ := v; read_deadline_ := read_deadline_ c;
     write_deadline_ := write_deadline_ c; read_waiter_ := read_waiter_ c;
     write_waiter_ := write_waiter_ c; request_dispatcher_ := request_dispatcher_ c;
     next_request_sequence_ := next_request_sequence_ c; co := co c;
     coroutine_ok := coroutine_ok c; coroutine_error := coroutine_error c; clock := clock c;
     recv_script := recv_script c; send_script := send_script c;
     submit_script := submit_script c; wire := wire c; dispatched := dispatched c |}.

Definition set_read_deadline (v : option Z) (c : Connection) : Connection :=
  {| read_buffer_ := read_buffer_ c; write_buffer_ := write_buffer_ c;
     pending_write_bytes_ := pending_write_bytes_ c; last_error_ := last_error_ c;
     state_ := state_ c; should_close_ := should_close_ c; read_ready_ := read_ready_ c;
     write_ready_ := write_ready_ c; read_deadline_ := v; write_deadline_ := write_deadline_ c;
     read_waiter_ := read_waiter_ c; write_waiter_ := write_waiter_ c;
     request_dispatcher_ := request_dispatcher_ c;
     next_request_sequence_ := next_request_sequence_ c; co := co c;
     coroutine_ok := coroutine_ok c; coroutine_error := coroutine_error c; clock := clock c;
     recv_script := recv_script c; send_script := send_script c;
     submit_script := submit_script c; wire := wire c; dispatched := dispatched c |}.

Definition set_write_deadline (v : option Z) (c : Connection) : Connection :=
  {| read_buffer_ := read_buffer_ c; write_buffer_ := write_buffer_ c;
     pending_write_bytes_ := pending_write_bytes_ c; last_error_ := last_error_ c;
     state_ := state_ c; should_close_ := should_close_ c; read_ready_ := read_ready_ c;
     write_ready_ := write_ready_ c; read_deadline_ := read_deadline_ c; write_deadline_ := v;
     read_waiter_ := read_waiter_ c; write_waiter_ := write_waiter_ c;
     request_dispatcher_ := request_dispatcher_ c;
     next_request_sequence_ := next_request_sequence_ c; co := co c;
     coroutine_ok := coroutine_ok c; coroutine_error := coroutine_error c; clock := clock c;
     recv_script := recv_script c; send_script := send_script c;
     submit_script := submit_script c; wire := wire c; dispatched := dispatched c |}.

Definition set_read_waiter (v : bool) (c : Connection) : Connection :=
  {| read_buffer_ := read_buffer_ c; write_buffer_ := write_buffer_ c;
     pending_write_bytes_ := pending_write_bytes_ c; last_error_ := last_error_ c;
     state_ := state_ c; should_close_ := should_close_ c; read_ready_ := read_ready_ c;
     write_ready_ := write_ready_ c; read_deadline_ := read_deadline_ c;
     write_deadline_ := write_deadline_ c; read_waiter_ := v; write_waiter_ := write_waiter_ c;
     request_dispatcher_ := request_dispatcher_ c;
     next_request_sequence_ := next_request_sequence_ c; co := co c;
     coroutine_ok := coroutine_ok c; coroutine_error := coroutine_error c; clock := clock c;
     recv_script := recv_script c; send_script := send_script c;
     submit_script := submit_script c; wire := wire c; dispatched := dispatched c |}.

Definition set_write_waiter (v : bool) (c : Connection) : Connection :=
  {| read_buffer_ := read_buffer_ c; write_buffer_ := write_buffer_ c;
     pending_write_bytes_ := pending_write_bytes_ c; last_error_ := last_error_ c;
     state_ := state_ c; should_close_ := should_close_ c; read_ready_ := read_ready_ c;
     write_ready_ := write_ready_ c; read_deadline_ := read_deadline_ c;
     write_deadline_ := write_deadline_ c; read_waiter_ := read_waiter_ c; write_waiter_ := v;
     request_dispatcher_ := request_dispatcher_ c;
     next_request_sequence_ := next_request_sequence_ c; co := co c;
     coroutine_ok := coroutine_ok c; coroutine_error := coroutine_error c; clock := clock c;
     recv_script := recv_script c; send_script := send_script c;
     submit_script := submit_script c; wire := wire c; dispatched := dispatched c |}.

Definition set_request_dispatcher (v : bool) (c : Connection) : Connection :=
  {| read_buffer_ := read_buffer_ c; write_buffer_ := write_buffer_ c;
     pending_write_bytes_ := pending_write_bytes_ c; last_error_ := last_error_ c;
     state_ := state_ c; should_close_ := should_close_ c; read_ready_ := read_ready_ c;
     write_ready_ := write_ready_ c; read_deadline_ := read_deadline_ c;
     write_deadline_ := write_deadline_ c; read_waiter_ := read_waiter_ c;
     write_waiter_ := write_waiter_ c; request_dispatcher_ := v;
     next_request_sequence_ := next_request_sequence_ c; co := co c;
     coroutine_ok := coroutine_ok c; coroutine_error := coroutine_error c; clock := clock c;
     recv_script := recv_script c; send_script := send_script c;
     submit_script := submit_script c; wire := wire c; dispatched := dispatched c |}.

Definition set_next_request_sequence (v : Z) (c : Connection) : Connection :=
  {| read_buffer_ := read_buffer_ c; write_buffer_ := write_buffer_ c;
     pending_write_bytes_ := pending_write_bytes_ c; last_error_ := last_error_ c;
     state_ := state_ c; should_close_ := should_close_ c; read_ready_ := read_ready_ c;
     write_ready_ := write_ready_ c; read_deadline_ := read_deadline_ c;
     write_deadline_ := write_deadline_ c; read_waiter_ := read_waiter_ c;
     write_waiter_ := write_waiter_ c; request_dispatcher_ := request_dispatcher_ c;
     next_request_sequence_ := v; co := co c; coroutine_ok := coroutine_ok c;
     coroutine_error := coroutine_error c; clock := clock c; recv_script := recv_script c;
     send_script := send_script c; submit_script := submit_script c; wire := wire c;
     dispatched := dispatched c |}.

Definition set_co (v : co_point) (c : Connection) : Connection :=
  {| read_buffer_ := read_buffer_ c; write_buffer_ := write_buffer_ c;
     pending_write_bytes_ := pending_write_bytes_ c; last_error_ := last_error_ c;
     state_ := state_ c; should_close_ := should_close_ c; read_ready_ := read_ready_ c;
     write_ready_ := write_ready_ c; read_deadline_ := read_deadline_ c;
     write_deadline_ := write_deadline_ c; read_waiter_ := read_waiter_ c;
     write_waiter_ := write_waiter_ c; request_dispatcher_ := request_dispatcher_ c;
     next_request_sequence_ := next_request_sequence_ c; co := v;
     coroutine_ok := coroutine_ok c; coroutine_error := coroutine_error c; clock := clock c;
     recv_script := recv_script c; send_script := send_script c;
     submit_script := submit_script c; wire := wire c; dispatched := dispatched c |}.

Definition set_coroutine_ok (v : bool) (c : Connection) : Connection :=
  {| read_buffer_ := read_buffer_ c; write_buffer_ := write_buffer_ c;
     pending_write_bytes_ := pending_write_bytes_ c; last_error_ := last_error_ c;
     state_ := state_ c; should_close_ := should_close_ c; read_ready_ := read_ready_ c;
     write_ready_ := write_ready_ c; read_deadline_ := read_deadline_ c;
     write_deadline_ := write_deadline_ c; read_waiter_ := read_waiter_ c;
     write_waiter_ := write_waiter_ c; request_dispatcher_ := request_dispatcher_ c;
     next_request_sequence_ := next_request_sequence_ c; co := co c; coroutine_ok := v;
     coroutine_error := coroutine_error c; clock := clock c; recv_script := recv_script c;
     send_script := send_script c; submit_script := submit_script c; wire := wire c;
     dispatched := dispatched c |}.

Definition set_coroutine_error (v : string) (c : Connection) : Connection :=
  {| read_buffer_ := read_buffer_ c; write_buffer_ := write_buffer_ c;
     pending_write_bytes_ := pending_write_bytes_ c; last_error_ := last_error_ c;
     state_ := state_ c; should_close_ := should_close_ c; read_ready_ := read_ready_ c;
     write_ready_ := write_ready_ c; read_deadline_ := read_deadline_ c;
     write_deadline_ := write_deadline_ c; read_waiter_ := read_waiter_ c;
     write_waiter_ := write_waiter_ c; request_dispatcher_ := request_dispatcher_ c;
     next_request_sequence_ := next_request_sequence_ c; co := co c;
     coroutine_ok := coroutine_ok c; coroutine_error := v; clock := clock c;
     recv_script := recv_script c; send_script := send_script c;
     submit_script := submit_script c; wire := wire c; dispatched := dispatched c |}.

Definition set_clock (v : Z) (c : Connection) : Connection :=
  {| read_buffer_ := read_buffer_ c; write_buffer_ := write_buffer_ c;
     pending_write_bytes_ := pending_write_bytes_ c; last_error_ := last_error_ c;
     state_ := state_ c; should_close_ := should_close_ c; read_ready_ := read_ready_ c;
     write_ready_ := write_ready_ c; read_deadline_ := read_deadline_ c;
     write_deadline_ := write_deadline_ c; read_waiter_ := read_waiter_ c;
     write_waiter_ := write_waiter_ c; request_dispatcher_ := request_dispatcher_ c;
     next_request_sequence_ := next_request_sequence_ c; co := co c;
     coroutine_ok := coroutine_ok c; coroutine_error := coroutine_error c; clock := v;
     recv_script := recv_script c; send_script := send_script c;
     submit_script := submit_script c; wire := wire c; dispatched := dispatched c |}.

Definition set_recv_script (v : list recv_event) (c : Connection) : Connection :=
  {| read_buffer_ := read_buffer_ c; write_buffer_ := write_buffer_ c;
     pending_write_bytes_ := pending_write_bytes_ c; last_error_ := last_error_ c;
     state_ := state_ c; should_close_ := should_close_ c; read_ready_ := read_ready_ c;
     write_ready_ := write_ready_ c; read_deadline_ := read_deadline_ c;
     write_deadline_ := write_deadline_ c; read_waiter_ := read_waiter_ c;
     write_waiter_ := write_waiter_ c; request_dispatcher_ := request_dispatcher_ c;
     next_request_sequence_ := next_request_sequence_ c; co := co c;
     coroutine_ok := coroutine_ok c; coroutine_error := coroutine_error c; clock := clock c;
     recv_script := v; send_script := send_script c; submit_script := submit_script c;
     wire := wire c; dispatched := dispatched c |}.

Definition set_send_script (v : list send_event) (c : Connection) : Connection :=
  {| read_buffer_ := read_buffer_ c; write_buffer_ := write_buffer_ c;
     pending_write_bytes_ := pending_write_bytes_ c; last_error_ := last_error_ c;
     state_ := state_ c; should_close_ := should_close_ c; read_ready_ := read_ready_ c;
     write_ready_ := write_ready_ c; read_deadline_ := read_deadline_ c;
     write_deadline_ := write_deadline_ c; read_waiter_ := read_waiter_ c;
     write_waiter_ := write_waiter_ c; request_dispatcher_ := request_dispatcher_ c;
     next_request_sequence_ := next_request_sequence_ c; co := co c;
     coroutine_ok := coroutine_ok c; coroutine_error := coroutine_error c; clock := clock c;
     recv_script := recv_script c; send_script := v; submit_script := submit_script c;
     wire := wire c; dispatched := dispatched c |}.

Definition set_submit_script (v : list bool) (c : Connection) : Connection :=
  {| read_buffer_ := read_buffer_ c; write_buffer_ := write_buffer_ c;
     pending_write_bytes_ := pending_write_bytes_ c; last_error_ := last_error_ c;
     state_ := state_ c; should_close_ := should_close_ c; read_ready_ := read_ready_ c;
     write_ready_ := write_ready_ c; read_deadline_ := read_deadline_ c;
     write_deadline_ := write_deadline_ c; read_waiter_ := read_waiter_ c;
     write_waiter_ := write_waiter_ c; request_dispatcher_ := request_dispatcher_ c;
     next_request_sequence_ := next_request_sequence_ c; co := co c;
     coroutine_ok := coroutine_ok c; coroutine_error := coroutine_error c; clock := clock c;
     recv_script := recv_script c; send_script := send_script c; submit_script := v;
     wire := wire c; dispatched := dispatched c |}.

Definition set_wire (v : bytes) (c : Connection) : Connection :=
  {| read_buffer_ := read_buffer_ c; write_buffer_ := write_buffer_ c;
     pending_write_bytes_ := pending_write_bytes_ c; last_error_ := last_error_ c;
     state_ := state_ c; should_close_ := should_close_ c; read_ready_ := read_ready_ c;
     write_ready_ := write_ready_ c; read_deadline_ := read_deadline_ c;
     write_deadline_ := write_deadline_ c; read_waiter_ := read_waiter_ c;
     write_waiter_ := write_waiter_ c; request_dispatcher_ := request_dispatcher_ c;
     next_request_sequence_ := next_request_sequence_ c; co := co c;
     coroutine_ok := coroutine_ok c; coroutine_error := coroutine_error c; clock := clock c;
     recv_script := recv_script c; send_script := send_script c;
     submit_script := submit_script c; wire := v; dispatched := dispatched c |}.

Definition set_dispatched (v : list DispatchRequest) (c : Connection) : Connection :=
  {| read_buffer_ := read_buffer_ c; write_buffer_ := write_buffer_ c;
     pending_write_bytes_ := pending_write_bytes_ c; last_error_ := last_error_ c;
     state_ := state_ c; should_close_ := should_close_ c; read_ready_ := read_ready_ c;
     write_ready_ := write_ready_ c; read_deadline_ := read_deadline_ c;
     write_deadline_ := write_deadline_ c; read_waiter_ := read_waiter_ c;
     write_waiter_ := write_waiter_ c; request_dispatcher_ := request_dispatcher_ c;
     next_request_sequence_ := next_request_sequence_ c; co := co c;
     coroutine_ok := coroutine_ok c; coroutine_error := coroutine_error c; clock := clock c;
     recv_script := recv_script c; send_script := send_script c;
     submit_script := submit_script c; wire := wire c; dispatched := v |}.

(** A new connection, before its coroutine starts. *)
Definition make_connection (dispatcher : bool) : Connection :=
  {| read_buffer_ := make_buffer 8192; write_buffer_ := []; pending_write_bytes_ := 0;
     last_error_ := ""; state_ := kOpen; should_close_ := false; read_ready_ := false;
     write_ready_ := false; read_deadline_ := None; write_deadline_ := None;
     read_waiter_ := false; write_waiter_ := false; request_dispatcher_ := dispatcher;
     next_request_sequence_ := 0; co := CoRunning; coroutine_ok := true;
     coroutine_error := ""; clock := 0; recv_script := []; send_script := [];
     submit_script := []; wire := []; dispatched := [] |}.

Definition HasPendingWrite (c : Connection) : bool :=
  match write_buffer_ c with [] => false | _ => true end.

Definition ShouldClose (c : Connection) : bool := should_close_ c.

Definition ClearReadDeadline (c : Connection) : Connection := set_read_deadline None c.

Definition ClearWriteDeadline (c : Connection) : Connection := set_write_deadline None c.

(** The points at which the coroutine goes on: the top of its loop, after
    [WaitReadableCo], the test of the write loop, after [WaitWritableCo]. *)
Inductive co_entry := EnTop | EnAfterRead | EnWriteLoop | EnAfterWrite.

Inductive ReadResult := RWouldBlock | RData | RPeerClosed | RError.

Section connection.
Context (opts : Options) (reg : registry).
Context `{ProtoMessage RpcRequest} `{ProtoMessage RpcResponse}.

Definition ArmReadDeadline (c : Connection) : Connection :=
  set_read_deadline (Some (clock c + read_timeout opts)%Z) c.

Definition ArmWriteDeadline (c : Connection) : Connection :=
  set_write_deadline (Some (clock c + write_timeout opts)%Z) c.

(** ** Responses *)

Definition QueueResponse (c : Connection) (response : RpcResponse) (error_msg : option string)
    : bool * Connection * option string :=
  let body_length := ByteSizeLong response in
  if ((body_length =? 0) || (kMaxFrameSize <? body_length))%Z then
    (false, c, set_error error_msg "invalid response frame size")
  else
    match SerializeToArray response with
    | None => (false, c, set_error error_msg "failed to serialize RpcResponse")
    | Some body =>
        match EncodeFrame body true error_msg with
        | (true, Some frame, error_msg) =>
            let next_size := pending_write_bytes_ c + length frame in
            if (max_write_buffer_bytes opts <? Z.of_nat next_size)%Z then
              (false, c, set_error error_msg "write buffer backpressure limit exceeded")
            else
              (true,
               set_write_buffer (write_buffer_ c ++ [{| data := frame; offset := 0 |}])
                 (set_pending_write_bytes next_size c), error_msg)
        | (_, _, error_msg) => (false, c, error_msg)
        end
    end.

Definition EnqueueResponse (c : Connection) (response : RpcResponse) (error_msg : option string)
    : bool * Connection * option string :=
  let '(queued, c, error_msg) := QueueResponse c response error_msg in
  (queued, if queued then ArmWriteDeadline c else c, error_msg).

(** The loop of [FlushWrites], over what [send] does; the kernel takes at least
    one byte when it takes any. *)
Fixpoint FlushWrites_loop (script : list send_event) (c : Connection) (error_msg : option string)
    : bool * Connection * option string :=
  match write_buffer_ c with
  | [] => (true, set_send_script script c, error_msg)
  | chunk :: rest =>
      match script with
      | [] => (true, set_send_script [] c, error_msg)
      | SendOk n :: s =>
          let remaining := length (data chunk) - offset chunk in
          let rc := Nat.min (Nat.max 1 n) remaining in
          let sent := take rc (drop (offset chunk) (data chunk)) in
          let chunk' := {| data := data chunk; offset := offset chunk + rc |} in
          FlushWrites_loop s
            (set_wire (wire c ++ sent)
               (set_pending_write_bytes (pending_write_bytes_ c - rc)
                  (set_write_buffer
                     (if offset chunk' =? length (data chunk') then rest else chunk' :: rest) c)))
            error_msg
      | SendErr e :: s =>
          if decide (e = EINTR) then FlushWrites_loop s c error_msg
          else if decide (e = EAGAIN) then (true, set_send_script s c, error_msg)
          else
            (false, set_send_script s c,
             set_error error_msg ("send failed: " +:+ strerror e))
      end
  end.

Definition FlushWrites (c : Connection) (error_msg : option string) :=
  FlushWrites_loop (send_script c) c error_msg.

(** ** Requests *)

Fixpoint ReadFromSocket_loop (script : list recv_event) (c : Connection) (error_msg : option string)
    : ReadResult * Connection * option string :=
  let would_block s :=
    ((if readable_bytes (read_buffer_ c) =? 0 then RWouldBlock else RData),
     set_recv_script s c, error_msg) in
  match script with
  | [] => would_block []
  | RecvBytes [] :: s =>
      (RPeerClosed, set_recv_script s c, set_error error_msg "peer closed connection")
  | RecvBytes bs :: s =>
      ReadFromSocket_loop s (set_read_buffer (append (read_buffer_ c) bs) c) error_msg
  | RecvErr e :: s =>
      if decide (e = EINTR) then ReadFromSocket_loop s c error_msg
      else if decide (e = EAGAIN) then would_block s
      else (RError, set_recv_script s c, set_error error_msg ("recv failed: " +:+ strerror e))
  end.

Definition ReadFromSocket (c : Connection) (error_msg : option string) :=
  ReadFromSocket_loop (recv_script c) c error_msg.

Definition heartbeat_service : string := "__Heartbeat__".

(** The dispatcher set by the worker ([DispatchRequestToThreadPool]): the next
    verdict of the thread pool. *)
Definition dispatch (c : Connection) (d : DispatchRequest) (error_msg : option string)
    : bool * Connection * option string :=
  let '(ok, rest) := match submit_script c with
                     | [] => (true, [])
                     | b :: rest => (b, rest)
                     end in
  let c := set_submit_script rest c in
  if ok then (true, set_dispatched (dispatched c ++ [d]) c, error_msg)
  else (false, c, set_error error_msg "thread pool rejected task submission").

(** What [TryParseRequests] does with a complete body, before it retrieves the
    frame. *)
Definition handle_body (c : Connection) (body : bytes) (error_msg : option string)
    : bool * Connection * option string :=
  match ParseFromArray body with
  | None =>
      EnqueueResponse c
        {| rs_request_id := ""; rs_error_code := proto_PARSE_ERROR;
           rs_error_msg := "failed to parse RpcRequest"; rs_payload := "" |} error_msg
  | Some request =>
      if String.eqb (rq_service_name request) heartbeat_service then
        EnqueueResponse c
          {| rs_request_id := rq_request_id request; rs_error_code := proto_OK;
             rs_error_msg := ""; rs_payload := "" |} error_msg
      else if request_dispatcher_ c then
        let seq := wrap64 (next_request_sequence_ c + 1)%Z in
        let '(ok, c, error_msg) :=
          dispatch (set_next_request_sequence seq c) (to_dispatch seq request) error_msg in
        if ok then (true, c, error_msg)
        else
          (false, c,
           match error_msg with
           | Some EmptyString => Some "failed to dispatch request"
           | _ => error_msg
           end)
      else EnqueueResponse c (HandleOneRequest reg request) error_msg
  end.

Fixpoint TryParseRequests_loop (fuel : nat) (c : Connection) (error_msg : option string)
    : bool * Connection * option string :=
  match fuel with
  | O => (true, c, error_msg)
  | S fuel =>
      let b := read_buffer_ c in
      if readable_bytes b <? kFrameHeaderBytes then (true, c, error_msg)
      else
        match DecodeFrameHeader (peek b) true error_msg with
        | (true, Some body_length, error_msg) =>
            if readable_bytes b <? kFrameHeaderBytes + body_length then (true, c, error_msg)
            else
              let body := take body_length (drop kFrameHeaderBytes (peek b)) in
              match handle_body c body error_msg with
              | (true, c, error_msg) =>
                  TryParseRequests_loop fuel
                    (set_read_buffer
                       (retrieve (read_buffer_ c) (kFrameHeaderBytes + body_length)) c)
                    error_msg
              | (false, c, error_msg) => (false, c, error_msg)
              end
        | (_, _, error_msg) => (false, c, error_msg)
        end
  end.

(** Every round retrieves at least a header. *)
Definition TryParseRequests (c : Connection) (error_msg : option string) :=
  TryParseRequests_loop (S (readable_bytes (read_buffer_ c))) c error_msg.

(** ** Resuming the coroutine *)

Section resume.
Context (resume : co_entry -> Connection -> Connection).

Definition ResumeReader (c : Connection) : Connection :=
  if read_waiter_ c then resume EnAfterRead (set_read_waiter false c) else c.

Definition ResumeWriter (c : Connection) : Connection :=
  if write_waiter_ c then resume EnAfterWrite (set_write_waiter false c) else c.

Definition EnterError (c : Connection) (message : string) : Connection :=
  let c := if str_empty message then c else set_last_error message c in
  let c := set_state kError (set_should_close true c) in
  ResumeWriter (ResumeReader (ClearWriteDeadline (ClearReadDeadline c))).

Definition error_or (error_msg : option string) (dflt : string) : string :=
  match error_msg with None => dflt | Some m => m end.

Definition OnReadable (c : Connection) (error_msg : option string)
    : bool * Connection * option string :=
  let '(r, c, error_msg) := ReadFromSocket c error_msg in
  match r with
  | RPeerClosed => (true, set_should_close true (set_state kClosing c), error_msg)
  | RError => (false, EnterError c (error_or error_msg "read error"), error_msg)
  | RWouldBlock => (true, c, error_msg)
  | RData =>
      let '(ok, c, error_msg) := TryParseRequests c error_msg in
      if ok then (true, set_state kOpen c, error_msg)
      else (false, EnterError c (error_or error_msg "parse/process error"), error_msg)
  end.

Definition OnWritable (c : Connection) (error_msg : option string)
    : bool * Connection * option string :=
  let '(ok, c, error_msg) := FlushWrites c error_msg in
  if negb ok then (false, EnterError c (error_or error_msg "write error"), error_msg)
  else if negb (HasPendingWrite c) then
    (true, set_state kOpen (ClearWriteDeadline c), error_msg)
  else (true, ArmWriteDeadline c, error_msg).

(** ** The coroutine, from one of its entries to the next await that suspends;
    [go] continues it. *)

(** [coroutine_ok = false] and the error text. *)
Definition co_fail (c : Connection) : Connection :=
  set_co CoDone
    (set_coroutine_ok false
       (if str_empty (coroutine_error c) then set_coroutine_error (last_error_ c) c else c)).

(** [coroutine_error] is the string the calls write their message to. *)
Definition with_error (r : bool * Connection * option string) : bool * Connection :=
  let '(ok, c, e) := r in (ok, set_coroutine_error (default "" e) c).

(** [ReadableAwaiter] and [WritableAwaiter]: whether to suspend, what suspending
    does (the second test of [await_suspend] is that of [await_ready]), and what
    is done on resumption. *)
Definition ReadableAwaiter_ready (c : Connection) : bool := should_close_ c || read_ready_ c.

Definition ReadableAwaiter_suspend (c : Connection) : Connection :=
  set_co CoReading (ArmReadDeadline (set_state kReading (set_read_waiter true c))).

Definition ReadableAwaiter_resume (c : Connection) : Connection := set_read_ready false c.

Definition WritableAwaiter_ready (c : Connection) : bool := should_close_ c || write_ready_ c.

Definition WritableAwaiter_suspend (c : Connection) : Connection :=
  set_co CoWriting (ArmWriteDeadline (set_state kWriting (set_write_waiter true c))).

Definition WritableAwaiter_resume (c : Connection) : Connection := set_write_ready false c.

(** [ReadRequestCo] and [WriteResponseCo] after their await. *)
Definition ReadRequestCo (c : Connection) : bool * Connection :=
  let c := ClearReadDeadline (ReadableAwaiter_resume c) in
  if ShouldClose c then (true, c)
  else with_error (OnReadable c (Some (coroutine_error c))).

Definition WriteResponseCo (c : Connection) : bool * Connection :=
  let c := ClearWriteDeadline (WritableAwaiter_resume c) in
  if ShouldClose c then (true, c)
  else with_error (OnWritable c (Some (coroutine_error c))).

Definition co_step (go : co_entry -> Connection -> Connection) (en : co_entry) (c : Connection)
    : Connection :=
  match en with
  | EnTop =>
      if ShouldClose c then set_co CoDone c
      else if ReadableAwaiter_ready c then go EnAfterRead c
      else ReadableAwaiter_suspend c
  | EnAfterRead =>
      let '(ok, c) := ReadRequestCo c in
      if negb ok then co_fail c
      else if ShouldClose c then set_co CoDone c
      else go EnWriteLoop c
  | EnWriteLoop =>
      if negb (HasPendingWrite c) then go EnTop c
      else if WritableAwaiter_ready c then go EnAfterWrite c
      else WritableAwaiter_suspend c
  | EnAfterWrite =>
      let '(ok, c) := WriteResponseCo c in
      if negb ok then co_fail c
      else if ShouldClose c then set_co CoDone c
      else go EnWriteLoop c
  end.

(** ** Events *)

Definition NotifyReadable (c : Connection) : Connection :=
  ResumeReader (set_state kReading (set_read_ready true c)).

Definition NotifyWritable (c : Connection) : Connection :=
  ResumeWriter (set_state kWriting (set_write_ready true c)).

Definition MarkClosing (c : Connection) : Connection :=
  let c := if decide (state_ c = kClosed \/ state_ c = kError) then c else set_state kClosing c in
  let c := ClearWriteDeadline (ClearReadDeadline (set_should_close true c)) in
  ResumeWriter (ResumeReader c).

Definition MarkClosed (c : Connection) : Connection :=
  set_write_waiter false
    (set_read_waiter false
       (ClearWriteDeadline
          (ClearReadDeadline
             (set_write_ready false
                (set_read_ready false (set_state kClosed (set_should_close true c))))))).

Definition Tick (now : Z) (c : Connection) : Connection :=
  if decide (state_ c = kClosed \/ state_ c = kError \/ should_close_ c = true) then c
  else
    match read_deadline_ c, write_deadline_ c with
    | Some d, w =>
        if (d <=? now)%Z then EnterError c "read timeout"
        else match w with
             | Some d => if (d <=? now)%Z then EnterError c "write timeout" else c
             | None => c
             end
    | None, Some d => if (d <=? now)%Z then EnterError c "write timeout" else c
    | None, None => c
    end.

End resume.

(** The coroutine with fuel: a nested [resume] and the next part of the loop
    both go on with less. *)
Fixpoint co_run (fuel : nat) (en : co_entry) (c : Connection) : Connection :=
  match fuel with
  | O => set_co CoStuck c
  | S fuel => co_step (co_run fuel) (co_run fuel) en (set_co CoRunning c)
  end.

(** Enough for every run (see [co_run_suspends]). *)
Definition co_fuel : nat := 10.

Definition resume : co_entry -> Connection -> Connection := co_run co_fuel.

(** [StartConnectionCoroutine]: the coroutine runs eagerly to its first await
    that suspends. *)
Definition start (c : Connection) : Connection := resume EnTop c.

End connection.

(** The parts of the coroutine, written out. *)
Ltac unfold_co :=
  unfold co_step; unfold ReadableAwaiter_ready, ReadableAwaiter_suspend, WritableAwaiter_ready,
    WritableAwaiter_suspend, ReadRequestCo, WriteResponseCo, ReadableAwaiter_resume,
    WritableAwaiter_resume; cbv zeta.

(** ** The control fields *)

(** What decides how the coroutine goes on. *)
Definition flags (c : Connection) : bool * bool * bool * bool * bool * bool :=
  (read_waiter_ c, write_waiter_ c, read_ready_ c, write_ready_ c, should_close_ c, coroutine_ok c).

(** No waiter is registered: the coroutine is running or finished. *)
Definition idle (c : Connection) : Prop := read_waiter_ c = false /\ write_waiter_ c = false.

(** Between two events the coroutine is suspended in one place with its handle
    registered there, or it is finished and the connection is to be closed. *)
Definition co_wf (c : Connection) : Prop :=
  match co c with
  | CoReading => read_waiter_ c = true /\ write_waiter_ c = false /\ should_close_ c = false
  | CoWriting => write_waiter_ c = true /\ read_waiter_ c = false /\ should_close_ c = false
  | CoDone => idle c /\ should_close_ c = true
  | CoRunning | CoStuck => False
  end.

Section lemmas.
Context (opts : Options) (reg : registry).
Context `{ProtoMessage RpcRequest} `{ProtoMessage RpcResponse}.

Lemma QueueResponse_flags c r e : flags (snd (fst (QueueResponse opts c r e))) = flags c.
Proof. unfold QueueResponse. repeat (split_match; try done). Qed.

Lemma EnqueueResponse_flags c r e : flags (snd (fst (EnqueueResponse opts c r e))) = flags c.
Proof.
  unfold EnqueueResponse. pose proof (QueueResponse_flags c r e) as Hq.
  destruct (QueueResponse opts c r e) as [[[] c'] e']; done.
Qed.

Lemma handle_body_flags c b e : flags (snd (fst (handle_body opts reg c b e))) = flags c.
Proof.
  unfold handle_body. destruct (ParseFromArray b) as [rq|]; [|apply EnqueueResponse_flags].
  destruct (String.eqb _ _); [apply EnqueueResponse_flags|].
  destruct (request_dispatcher_ c); [|apply EnqueueResponse_flags].
  unfold dispatch. simpl. destruct (submit_script c) as [|[] rest]; done.
Qed.

Lemma TryParseRequests_flags fuel : forall c e,
  flags (snd (fst (TryParseRequests_loop opts reg fuel c e))) = flags c.
Proof.
  induction fuel as [|fuel IH]; intros c e; [done|]. cbn [TryParseRequests_loop].
  destruct (_ <? _); [done|]. destruct (DecodeFrameHeader _ _ _) as [[[] [n|]] e1]; try done.
  destruct (_ <? _); [done|]. pose proof (handle_body_flags c (take n (drop kFrameHeaderBytes (peek (read_buffer_ c)))) e1) as Hb.
  destruct (handle_body _ _ c _ e1) as [[[] c1] e2]; [|done]. rewrite IH. done.
Qed.

Lemma ReadFromSocket_flags s : forall c e,
  flags (snd (fst (ReadFromSocket_loop s c e))) = flags c.
Proof.
  induction s as [|ev s IH]; intros c e; [done|]. cbn [ReadFromSocket_loop].
  destruct ev as [[|b bs]|en]; [done|by rewrite IH|].
  destruct (decide _); [by rewrite IH|]. by destruct (decide _).
Qed.

Lemma FlushWrites_flags s : forall c e,
  flags (snd (fst (FlushWrites_loop s c e))) = flags c.
Proof.
  induction s as [|ev s IH]; intros c e; cbn [FlushWrites_loop].
  - by destruct (write_buffer_ c).
  - destruct (write_buffer_ c) as [|chunk rest]; [done|].
    destruct ev as [n|en]; [by rewrite IH|].
    destruct (decide _); [by rewrite IH|]. by destruct (decide _).
Qed.

#[local] Opaque TryParseRequests_loop ReadFromSocket_loop FlushWrites_loop.

(** With no waiter registered an error resumes nobody. *)
Lemma EnterError_idle resume c msg :
  idle c -> idle (EnterError resume c msg) /\ should_close_ (EnterError resume c msg) = true.
Proof.
  intros [H1 H2]. unfold EnterError, ResumeWriter, ResumeReader.
  destruct (str_empty msg); simpl; rewrite H1; simpl; rewrite H2; done.
Qed.

Lemma flags_idle c c' : flags c' = flags c -> idle c -> idle c'.
Proof. unfold flags, idle. intros [= -> -> _ _ _ _]. done. Qed.

(** What a read or a write step leaves: on success the flags but for a close,
    on failure a connection to be closed. *)
Definition stepped (c : Connection) (r : bool * Connection) : Prop :=
  let '(ok, c') := r in
  idle c' /\ (ok = false -> should_close_ c' = true) /\
  (should_close_ c' = false -> read_ready_ c' = read_ready_ c /\ write_ready_ c' = write_ready_ c).

Lemma stepped_same c c' : flags c' = flags c -> idle c -> stepped c (true, c').
Proof.
  intros Hf Hi. split; [by eapply flags_idle|]. split; [done|].
  intros _. unfold flags in Hf. by simplify_eq.
Qed.

Lemma stepped_close c b c' : idle c' -> should_close_ c' = true -> stepped c (b, c').
Proof. intros Hi Hs. split; [done|]. split; [done|]. congruence. Qed.

Lemma stepped_error c b c' e : stepped c (b, c') -> stepped c (b, set_coroutine_error e c').
Proof. done. Qed.

Lemma stepped_EnterError resume c c1 msg : idle c1 -> stepped c (false, EnterError resume c1 msg).
Proof. intros Hi. destruct (EnterError_idle resume c1 msg Hi). by apply stepped_close. Qed.

Lemma OnReadable_stepped resume c e :
  idle c -> stepped c (with_error (OnReadable opts reg resume c e)).
Proof.
  intros Hi. unfold OnReadable, ReadFromSocket.
  pose proof (ReadFromSocket_flags (recv_script c) c e) as Hr.
  destruct (ReadFromSocket_loop (recv_script c) c e) as [[r c1] e1]. cbn [fst snd] in Hr.
  pose proof (flags_idle _ _ Hr Hi) as Hi1. destruct r.
  - by apply stepped_error, stepped_same.
  - unfold TryParseRequests.
    pose proof (TryParseRequests_flags (S (readable_bytes (read_buffer_ c1))) c1 e1) as Hp.
    destruct (TryParseRequests_loop _ _ _ c1 e1) as [[[] c2] e2]; cbn [fst snd] in Hp.
    + apply stepped_error, stepped_same; [|done]. by rewrite <- Hr, <- Hp.
    + apply stepped_error, stepped_EnterError. by eapply flags_idle.
  - by apply stepped_error, stepped_close.
  - by apply stepped_error, stepped_EnterError.
Qed.

Lemma OnWritable_stepped resume c e :
  idle c -> stepped c (with_error (OnWritable opts resume c e)).
Proof.
  intros Hi. unfold OnWritable, FlushWrites.
  pose proof (FlushWrites_flags (send_script c) c e) as Hr.
  destruct (FlushWrites_loop (send_script c) c e) as [[ok c1] e1]. cbn [fst snd] in Hr.
  pose proof (flags_idle _ _ Hr Hi) as Hi1. destruct ok; cbn [negb].
  - destruct (HasPendingWrite c1); cbn [negb with_error]; apply stepped_error, stepped_same; done.
  - cbn [with_error]. by apply stepped_error, stepped_EnterError.
Qed.

(** ** Runs of the coroutine *)

(** An upper bound on the parts the coroutine runs before it suspends. *)
Definition rank (en : co_entry) (rr wr sc : bool) : nat :=
  if sc then match en with EnWriteLoop => 2 | _ => 1 end else
  match en, rr, wr with
  | EnTop, false, _ => 1
  | EnTop, true, false => 4
  | EnTop, true, true => 6
  | EnAfterRead, _, false => 3
  | EnAfterRead, _, true => 5
  | EnWriteLoop, false, false => 2
  | EnWriteLoop, false, true => 4
  | EnWriteLoop, true, false => 5
  | EnWriteLoop, true, true => 7
  | EnAfterWrite, false, _ => 3
  | EnAfterWrite, true, _ => 6
  end.

Lemma co_fail_wf c : idle c -> should_close_ c = true -> co_wf (co_fail c).
Proof. intros Hi Hs. unfold co_fail, co_wf. simpl. by destruct (str_empty _). Qed.

(** The continuation both awaiters share: what follows the read or write that
    ran unless the connection was closing. *)
Lemma co_guarded_wf n c1 act :
  (forall en c, idle c -> rank en (read_ready_ c) (write_ready_ c) (should_close_ c) <= n ->
    co_wf (co_run opts reg n en c)) ->
  idle c1 -> stepped c1 act ->
  (should_close_ c1 = false -> rank EnWriteLoop (read_ready_ c1) (write_ready_ c1) false <= n) ->
  co_wf (let '(ok, c2) := if ShouldClose c1 then (true, c1) else act in
         if negb ok then co_fail c2
         else if ShouldClose c2 then set_co CoDone c2 else co_run opts reg n EnWriteLoop c2).
Proof.
  intros IH Hi1 Hst Hrank. unfold ShouldClose at 1.
  destruct (should_close_ c1) eqn:E1.
  { cbn [negb]. unfold ShouldClose. by rewrite E1. }
  destruct act as [ok c2]. destruct Hst as (Hi2 & Hf & Hr).
  destruct ok; cbn [negb]; [|apply co_fail_wf; auto].
  unfold ShouldClose. destruct (should_close_ c2) eqn:Es; [done|].
  destruct (Hr eq_refl) as [Hr1 Hr2]. apply IH; [done|]. rewrite Hr1, Hr2, Es. auto.
Qed.

Lemma co_run_wf n : forall en c,
  idle c -> rank en (read_ready_ c) (write_ready_ c) (should_close_ c) <= n ->
  co_wf (co_run opts reg n en c).
Proof.
  induction n as [|n IH]; intros en c Hi Hn.
  { exfalso. destruct en, (read_ready_ c), (write_ready_ c), (should_close_ c); simpl in Hn; lia. }
  cbn [co_run]. set (c0 := set_co CoRunning c).
  assert (idle c0) as Hi0 by exact Hi.
  change (read_ready_ c) with (read_ready_ c0) in Hn.
  change (write_ready_ c) with (write_ready_ c0) in Hn.
  change (should_close_ c) with (should_close_ c0) in Hn.
  clearbody c0.
  destruct en; unfold_co.
  - unfold ShouldClose. destruct (should_close_ c0) eqn:Es; [done|]. cbn [orb].
    destruct (read_ready_ c0) eqn:Er; [|by split_and!; try apply Hi0].
    apply IH; [done|]. rewrite Es, Er. destruct (write_ready_ c0); simpl in *; lia.
  - apply co_guarded_wf; [done|done|by apply OnReadable_stepped|].
    change (read_ready_ (ClearReadDeadline (set_read_ready false c0))) with false.
    change (should_close_ (ClearReadDeadline (set_read_ready false c0))) with (should_close_ c0).
    change (write_ready_ (ClearReadDeadline (set_read_ready false c0))) with (write_ready_ c0).
    intros Es. rewrite Es in Hn. destruct (write_ready_ c0); simpl in *; lia.
  - destruct (negb (HasPendingWrite c0)).
    + apply IH; [done|].
      destruct (read_ready_ c0), (write_ready_ c0), (should_close_ c0); simpl in *; lia.
    + destruct (should_close_ c0 || write_ready_ c0) eqn:Er.
      * apply IH; [done|].
        destruct (read_ready_ c0), (write_ready_ c0), (should_close_ c0); simpl in *; done || lia.
      * apply orb_false_iff in Er as [Er _]. by split_and!; try apply Hi0.
  - apply co_guarded_wf; [done|done|by apply OnWritable_stepped|].
    change (read_ready_ (ClearWriteDeadline (set_write_ready false c0))) with (read_ready_ c0).
    change (should_close_ (ClearWriteDeadline (set_write_ready false c0))) with (should_close_ c0).
    change (write_ready_ (ClearWriteDeadline (set_write_ready false c0))) with false.
    intros Es. rewrite Es in Hn. destruct (read_ready_ c0); simpl in *; lia.
Qed.

(** The fuel is enough. *)
Lemma co_run_suspends en c : idle c -> co_wf (resume opts reg en c).
Proof.
  intros Hi. apply co_run_wf; [done|]. unfold co_fuel.
  destruct en, (read_ready_ c), (write_ready_ c), (should_close_ c); simpl; lia.
Qed.

(** ** Events between runs *)

Lemma co_wf_resume_reader c : co_wf c -> co_wf (ResumeReader (resume opts reg) c).
Proof.
  intros Hw. unfold ResumeReader. destruct (read_waiter_ c) eqn:Er; [|done].
  apply co_run_suspends. split; [done|]. cbn. unfold co_wf, idle in Hw.
  destruct (co c); naive_solver congruence.
Qed.

Lemma co_wf_resume_writer c : co_wf c -> co_wf (ResumeWriter (resume opts reg) c).
Proof.
  intros Hw. unfold ResumeWriter. destruct (write_waiter_ c) eqn:Er; [|done].
  apply co_run_suspends. split; [|done]. cbn. unfold co_wf, idle in Hw.
  destruct (co c); naive_solver congruence.
Qed.

Lemma NotifyReadable_wf c : co_wf c -> co_wf (NotifyReadable (resume opts reg) c).
Proof. intros Hw. by apply co_wf_resume_reader. Qed.

Lemma NotifyWritable_wf c : co_wf c -> co_wf (NotifyWritable (resume opts reg) c).
Proof. intros Hw. by apply co_wf_resume_writer. Qed.

Lemma co_run_S n en c :
  co_run opts reg (S n) en c =
  co_step opts reg (co_run opts reg n) (co_run opts reg n) en (set_co CoRunning c).
Proof. reflexivity. Qed.

Lemma co_step_closing rs go c :
  should_close_ c = true ->
  co_step opts reg rs go EnAfterRead c = set_co CoDone (ClearReadDeadline (set_read_ready false c)).
Proof.
  intros Hs. unfold_co. set (c1 := ClearReadDeadline (set_read_ready false c)).
  assert (ShouldClose c1 = true) as E by exact Hs. rewrite E. cbn [negb]. by rewrite E.
Qed.

Lemma co_step_closing_write rs go c :
  should_close_ c = true ->
  co_step opts reg rs go EnAfterWrite c = set_co CoDone (ClearWriteDeadline (set_write_ready false c)).
Proof.
  intros Hs. unfold_co. set (c1 := ClearWriteDeadline (set_write_ready false c)).
  assert (ShouldClose c1 = true) as E by exact Hs. rewrite E. cbn [negb]. by rewrite E.
Qed.

Lemma NotifyReadable_runs c :
  read_waiter_ c = true ->
  NotifyReadable (resume opts reg) c =
  co_step opts reg (co_run opts reg 9) (co_run opts reg 9) EnAfterRead
    (set_co CoRunning (set_read_waiter false (set_state kReading (set_read_ready true c)))).
Proof.
  intros Hr. unfold NotifyReadable, ResumeReader. set (c1 := set_state _ _).
  assert (read_waiter_ c1 = true) as -> by exact Hr.
  unfold resume. change co_fuel with (S 9). by rewrite co_run_S.
Qed.

(** A coroutine that is resumed on a closing connection ends at once. *)
Lemma resume_closing en c :
  should_close_ c = true -> idle c -> en = EnAfterRead \/ en = EnAfterWrite ->
  co (resume opts reg en c) = CoDone /\ idle (resume opts reg en c) /\
  should_close_ (resume opts reg en c) = true /\ wire (resume opts reg en c) = wire c /\
  recv_script (resume opts reg en c) = recv_script c /\
  write_buffer_ (resume opts reg en c) = write_buffer_ c /\
  dispatched (resume opts reg en c) = dispatched c.
Proof.
  intros Hs Hi Hen. unfold resume. change co_fuel with (S 9). rewrite co_run_S.
  destruct Hen as [-> | ->]; [rewrite co_step_closing by exact Hs|
    rewrite co_step_closing_write by exact Hs]; done.
Qed.

(** A suspended or finished coroutine of a connection that is being closed. *)
Definition closing (c : Connection) : Prop :=
  should_close_ c = true /\
  match co c with
  | CoReading => read_waiter_ c = true /\ write_waiter_ c = false
  | CoWriting => write_waiter_ c = true /\ read_waiter_ c = false
  | CoDone => idle c
  | CoRunning | CoStuck => False
  end.

Lemma resume_both_closing c :
  closing c ->
  let c' := ResumeWriter (resume opts reg) (ResumeReader (resume opts reg) c) in
  co c' = CoDone /\ idle c' /\ should_close_ c' = true /\ wire c' = wire c /\
  recv_script c' = recv_script c /\ write_buffer_ c' = write_buffer_ c /\
  dispatched c' = dispatched c.
Proof.
  intros [Hs Hc]. unfold ResumeReader, ResumeWriter. cbv zeta. destruct (co c) eqn:Eco; try done.
  - destruct Hc as [Hr Hw]. rewrite Hr.
    destruct (resume_closing EnAfterRead (set_read_waiter false c)) as (H1 & H2 & H3 & H4 & H5);
      [done|done|by left|]. rewrite (proj2 H2). done.
  - destruct Hc as [Hw Hr]. rewrite Hr, Hw.
    apply (resume_closing EnAfterWrite (set_write_waiter false c)); [done|done|by right].
  - destruct Hc as [Hr Hw]. rewrite Hr, Hw. split; [done|]. by split.
Qed.

(** The same as an equation, for a coroutine that waits to read. *)
Lemma resume_reader_closing c :
  read_waiter_ c = true -> write_waiter_ c = false -> should_close_ c = true ->
  ResumeWriter (resume opts reg) (ResumeReader (resume opts reg) c) =
  set_co CoDone (ClearReadDeadline (set_read_ready false (set_co CoRunning (set_read_waiter false c)))).
Proof.
  intros Hr Hw Hs. unfold ResumeReader. rewrite Hr.
  assert (resume opts reg EnAfterRead (set_read_waiter false c) =
    set_co CoDone (ClearReadDeadline (set_read_ready false (set_co CoRunning (set_read_waiter false c)))))
    as ->.
  { unfold resume. change co_fuel with (S 9). rewrite co_run_S. by apply co_step_closing. }
  unfold ResumeWriter. set (c1 := set_co CoDone _).
  assert (write_waiter_ c1 = false) as -> by exact Hw. done.
Qed.

Lemma co_wf_closing c c' :
  co_wf c -> should_close_ c' = true -> co c' = co c ->
  read_waiter_ c' = read_waiter_ c -> write_waiter_ c' = write_waiter_ c -> closing c'.
Proof.
  unfold co_wf, closing, idle. intros Hw Hs -> -> ->. split; [done|]. destruct (co c); naive_solver.
Qed.

Lemma EnterError_closes c msg :
  co_wf c ->
  let c' := EnterError (resume opts reg) c msg in
  co c' = CoDone /\ idle c' /\ should_close_ c' = true /\ wire c' = wire c /\
  recv_script c' = recv_script c /\ write_buffer_ c' = write_buffer_ c /\
  dispatched c' = dispatched c.
Proof.
  intros Hw. unfold EnterError. set (c0 := if str_empty msg then c else set_last_error msg c).
  assert (co_wf c0 /\ wire c0 = wire c /\ recv_script c0 = recv_script c /\
    write_buffer_ c0 = write_buffer_ c /\ dispatched c0 = dispatched c) as (Hw0 & E1 & E2 & E3 & E4)
    by (unfold c0; by destruct (str_empty msg)).
  rewrite <- E1, <- E2, <- E3, <- E4. clearbody c0.
  apply (resume_both_closing (ClearWriteDeadline (ClearReadDeadline
    (set_state kError (set_should_close true c0))))). by apply (co_wf_closing c0).
Qed.

Lemma MarkClosing_closes c :
  co_wf c ->
  let c' := MarkClosing (resume opts reg) c in
  co c' = CoDone /\ idle c' /\ should_close_ c' = true /\ wire c' = wire c /\
  recv_script c' = recv_script c /\ write_buffer_ c' = write_buffer_ c /\
  dispatched c' = dispatched c.
Proof.
  intros Hw. unfold MarkClosing. set (c0 := if decide _ then c else set_state kClosing c).
  assert (co_wf c0 /\ wire c0 = wire c /\ recv_script c0 = recv_script c /\
    write_buffer_ c0 = write_buffer_ c /\ dispatched c0 = dispatched c) as (Hw0 & E1 & E2 & E3 & E4)
    by (unfold c0; by destruct (decide _)).
  rewrite <- E1, <- E2, <- E3, <- E4. clearbody c0.
  apply (resume_both_closing (ClearWriteDeadline (ClearReadDeadline (set_should_close true c0)))).
  by apply (co_wf_closing c0).
Qed.

Lemma done_wf c : co c = CoDone -> idle c -> should_close_ c = true -> co_wf c.
Proof. unfold co_wf. intros ->. done. Qed.

Lemma Tick_wf now c : co_wf c -> co_wf (Tick (resume opts reg) now c).
Proof.
  intros Hw. assert (forall msg, co_wf (EnterError (resume opts reg) c msg)) as He.
  { intros msg. destruct (EnterError_closes c msg Hw) as (H1 & H2 & H3 & _). by apply done_wf. }
  unfold Tick. destruct (decide _); [done|].
  destruct (read_deadline_ c) as [d|], (write_deadline_ c) as [d'|]; try done;
    repeat (destruct (_ <=? _)%Z; auto).
Qed.

(** A deadline neither sends nor hands anything over. *)
Lemma Tick_keeps now c :
  co_wf c -> write_buffer_ (Tick (resume opts reg) now c) = write_buffer_ c /\
  dispatched (Tick (resume opts reg) now c) = dispatched c.
Proof.
  intros Hw. assert (forall msg, write_buffer_ (EnterError (resume opts reg) c msg) = write_buffer_ c /\
    dispatched (EnterError (resume opts reg) c msg) = dispatched c)
    as He by (intros msg; by destruct (EnterError_closes c msg Hw) as (_ & _ & _ & _ & _ & ?)).
  unfold Tick. destruct (decide _); [done|].
  destruct (read_deadline_ c) as [d|], (write_deadline_ c) as [d'|]; try done;
    repeat (destruct (_ <=? _)%Z; auto).
Qed.

Lemma EnqueueResponse_co_wf c r e : co_wf c -> co_wf (snd (fst (EnqueueResponse opts c r e))).
Proof.
  intros Hw. pose proof (EnqueueResponse_flags c r e) as Hf.
  assert (co (snd (fst (EnqueueResponse opts c r e))) = co c) as Hc.
  { unfold EnqueueResponse, QueueResponse. repeat (split_match; simplify_eq/=; try done). }
  unfold flags in Hf. injection Hf as F1 F2 _ _ F5 _. unfold co_wf, idle in *.
  by rewrite Hc, F1, F2, F5.
Qed.

(** Nothing wakes a coroutine that is not waiting. *)
Lemma ResumeReader_idle rs c : idle c -> ResumeReader rs c = c.
Proof. intros [Hr _]. unfold ResumeReader. by rewrite Hr. Qed.

Lemma NotifyReadable_idle_state rs c : idle c -> state_ (NotifyReadable rs c) = kReading.
Proof.
  intros Hi. unfold NotifyReadable. by rewrite ResumeReader_idle.
Qed.

Lemma ResumeWriter_idle rs c : idle c -> ResumeWriter rs c = c.
Proof. intros [_ Hw]. unfold ResumeWriter. by rewrite Hw. Qed.

(** What happens to a connection from outside: the calls of its worker, and
    what the kernel and the clock do. *)
Inductive event :=
  | EvReadable
  | EvWritable
  | EvClosing
  | EvTick (now : Z)
  | EvEnqueue (r : RpcResponse)
  | EvKernel (clk : Z) (rs : list recv_event) (ss : list send_event) (subs : list bool).

Definition apply_event (c : Connection) (ev : event) : Connection :=
  match ev with
  | EvReadable => NotifyReadable (resume opts reg) c
  | EvWritable => NotifyWritable (resume opts reg) c
  | EvClosing => MarkClosing (resume opts reg) c
  | EvTick now => Tick (resume opts reg) now c
  | EvEnqueue r => snd (fst (EnqueueResponse opts c r (Some "")))
  | EvKernel clk rs ss subs =>
      set_clock clk (set_recv_script (recv_script c ++ rs)
        (set_send_script (send_script c ++ ss) (set_submit_script (submit_script c ++ subs) c)))
  end.

Definition run_events (c : Connection) (evs : list event) : Connection := fold_left apply_event evs c.

Lemma apply_event_wf c ev : co_wf c -> co_wf (apply_event c ev).
Proof.
  intros Hw. destruct ev; cbn [apply_event].
  - by apply NotifyReadable_wf.
  - by apply NotifyWritable_wf.
  - destruct (MarkClosing_closes c Hw) as (H1 & H2 & H3 & _). by apply done_wf.
  - by apply Tick_wf.
  - by apply EnqueueResponse_co_wf.
  - exact Hw.
Qed.

Definition recv_events (evs : list event) : list recv_event :=
  concat (map (fun ev => match ev with EvKernel _ rs _ _ => rs | _ => [] end) evs).

(** A connection whose coroutine has ended, compared with what it was before;
    [rs] is what the kernel has for it. *)
Definition ended (c0 c : Connection) (rs : list recv_event) : Prop :=
  co c = CoDone /\ idle c /\ wire c = wire c0 /\ dispatched c = dispatched c0 /\ recv_script c = rs.

Lemma EnterError_ended c0 c rs go msg : ended c0 c rs -> ended c0 (EnterError go c msg) rs.
Proof.
  intros He. unfold EnterError. set (c1 := ClearWriteDeadline _).
  assert (ended c0 c1 rs) as H1 by (unfold c1; by destruct (str_empty msg)).
  clearbody c1. pose proof (proj1 (proj2 H1)) as Hi.
  rewrite ResumeReader_idle by done. by rewrite ResumeWriter_idle.
Qed.

Lemma EnqueueResponse_ended c0 c rs r e :
  ended c0 c rs -> ended c0 (snd (fst (EnqueueResponse opts c r e))) rs.
Proof. unfold EnqueueResponse, QueueResponse. repeat (split_match; simplify_eq/=; try done). Qed.

Lemma apply_event_ended c0 c rs ev :
  ended c0 c rs -> ended c0 (apply_event c ev) (rs ++ recv_events [ev]).
Proof.
  intros He. pose proof (proj1 (proj2 He)) as Hi.
  destruct ev as [| | |now|r|clk rs' ss subs]; unfold recv_events; cbn [map concat apply_event];
    rewrite ?app_nil_r.
  - unfold NotifyReadable. by rewrite ResumeReader_idle.
  - unfold NotifyWritable. by rewrite ResumeWriter_idle.
  - unfold MarkClosing. set (c1 := ClearWriteDeadline _).
    assert (ended c0 c1 rs) as H1 by (unfold c1; by destruct (decide _)).
    clearbody c1. pose proof (proj1 (proj2 H1)) as Hi1.
    rewrite ResumeReader_idle by done. by rewrite ResumeWriter_idle.
  - unfold Tick. destruct (decide _); [done|].
    destruct (read_deadline_ c), (write_deadline_ c); try done;
      repeat (destruct (_ <=? _)%Z; try by apply EnterError_ended); done.
  - by apply EnqueueResponse_ended.
  - destruct He as (H1 & H2 & H3 & H4 & H5). repeat (split; [done|]). cbn. by rewrite H5.
Qed.

Lemma run_events_ended evs : forall c0 c rs,
  ended c0 c rs -> ended c0 (run_events c evs) (rs ++ recv_events evs).
Proof.
  induction evs as [|ev evs IH]; intros c0 c rs He.
  - unfold recv_events. simpl. by rewrite app_nil_r.
  - apply (apply_event_ended c0 c rs ev) in He. apply IH in He.
    assert (recv_events (ev :: evs) = recv_events [ev] ++ recv_events evs) as ->.
    { unfold recv_events. simpl. by rewrite app_nil_r. }
    by rewrite app_assoc.
Qed.

(** The read deadline of a waiting coroutine passes. *)
Lemma Tick_read_timeout now d c :
  co_wf c -> co c = CoReading -> state_ c = kReading ->
  read_deadline_ c = Some d -> (d <= now)%Z ->
  let c1 := Tick (resume opts reg) now c in
  co c1 = CoDone /\ state_ c1 = kError /\ last_error_ c1 = "read timeout" /\
  ShouldClose c1 = true /\ ended c c1 (recv_script c).
Proof.
  intros Hw Hco Hst Hd Hle. unfold co_wf in Hw. rewrite Hco in Hw. destruct Hw as (Hr & Hwr & Hs).
  cbv zeta. unfold Tick. rewrite Hst, Hs, Hd.
  rewrite decide_False by (intros [?|[?|?]]; congruence).
  destruct (Z.leb_spec d now); [|lia].
  unfold EnterError. cbn [str_empty]. rewrite resume_reader_closing by done.
  repeat (split; [reflexivity|]). done.
Qed.

Lemma run_events_wf evs : forall c, co_wf c -> co_wf (run_events c evs).
Proof.
  induction evs as [|ev evs IH]; intros c Hw; [done|]. apply IH. by apply apply_event_wf.
Qed.

Lemma start_wf d : co_wf (start opts reg (make_connection d)).
Proof. apply co_run_suspends. done. Qed.

(** ** The bytes that go out *)

Definition remaining (ch : PendingChunk) : bytes := drop (offset ch) (data ch).

Definition unsent (c : Connection) : bytes := concat (map remaining (write_buffer_ c)).

(** Everything the connection has decided to send, in order. *)
Definition output (c : Connection) : bytes := wire c ++ unsent c.

Record writes_ok (c : Connection) : Prop := {
  wo_chunks : Forall (fun ch => offset ch < length (data ch)) (write_buffer_ c);
  wo_pending : pending_write_bytes_ c = length (unsent c);
  wo_limit : (Z.of_nat (pending_write_bytes_ c) <= max_write_buffer_bytes opts)%Z;
}.

Definition fits (b : bytes) : Prop := (0 < Z.of_nat (length b) <= kMaxFrameSize)%Z.

(** A step keeps the write queue consistent and adds only whole frames. *)
Definition emits (c c' : Connection) : Prop :=
  writes_ok c -> writes_ok c' /\
  exists bodies, Forall fits bodies /\ output c' = output c ++ concat (map frame_of bodies).

Lemma emits_none c c' :
  (writes_ok c -> writes_ok c' /\ output c' = output c) -> emits c c'.
Proof.
  intros He Hw. destruct (He Hw) as [H1 H2]. split; [done|]. exists []. simpl.
  rewrite app_nil_r. by split.
Qed.

(** The control fields do not matter. *)
Lemma emits_control c c' :
  write_buffer_ c' = write_buffer_ c -> pending_write_bytes_ c' = pending_write_bytes_ c ->
  wire c' = wire c -> emits c c'.
Proof.
  intros E1 E2 E3. apply emits_none. intros [H1 H2 H3].
  assert (unsent c' = unsent c) as Eu by (unfold unsent; by rewrite E1).
  split; [split|]; rewrite ?E1, ?E2, ?Eu; try done. unfold output. by rewrite E3, Eu.
Qed.

Lemma emits_refl c : emits c c.
Proof. by apply emits_control. Qed.

Lemma emits_trans c1 c2 c3 : emits c1 c2 -> emits c2 c3 -> emits c1 c3.
Proof.
  intros H1 H2 Hw. destruct (H1 Hw) as (Hw2 & b1 & F1 & E1).
  destruct (H2 Hw2) as (Hw3 & b2 & F2 & E2). split; [done|]. exists (b1 ++ b2).
  split; [by apply Forall_app|]. rewrite E2, E1, map_app, concat_app. by rewrite <- app_assoc.
Qed.

Lemma EncodeFrame_ok body e frame e' :
  EncodeFrame body true e = (true, Some frame, e') -> fits body /\ frame = frame_of body /\ e' = e.
Proof.
  unfold EncodeFrame. cbn [negb]. destruct (_ || _) eqn:E; [done|]. breflect.
  intros [= <- <-]. unfold fits, frame_of. split; [lia|done].
Qed.

(** A response that is queued adds exactly its frame. *)
Lemma QueueResponse_spec c r e :
  let '(ok, c', _) := QueueResponse opts c r e in
  if ok then exists body, SerializeToArray r = Some body /\ fits body /\
    (writes_ok c -> writes_ok c') /\ wire c' = wire c /\ unsent c' = unsent c ++ frame_of body
  else c' = c.
Proof.
  unfold QueueResponse. destruct (_ || _); [done|].
  destruct (SerializeToArray r) as [body|]; [|done].
  destruct (EncodeFrame body true e) as [[[] [frame|]] e'] eqn:Ee; try done.
  apply EncodeFrame_ok in Ee as (Hf & -> & ->).
  destruct (Z.ltb_spec (max_write_buffer_bytes opts)
    (Z.of_nat (pending_write_bytes_ c + length (frame_of body)))) as [|Hl]; [done|].
  exists body. split; [done|]. split; [done|].
  assert (unsent (set_write_buffer (write_buffer_ c ++ [{| data := frame_of body; offset := 0 |}])
    (set_pending_write_bytes (pending_write_bytes_ c + length (frame_of body)) c)) =
    unsent c ++ frame_of body) as Hu.
  { unfold unsent. cbn [write_buffer_ set_write_buffer]. rewrite map_app, concat_app.
    cbn [map concat]. by rewrite app_nil_r. }
  split; [|by split]. intros [H1 H2 H3]. split.
  - cbn [write_buffer_ set_write_buffer]. apply Forall_app. split; [done|].
    apply Forall_singleton. cbn [offset data]. unfold frame_of. rewrite length_app. simpl. lia.
  - rewrite Hu, length_app, <- H2. done.
  - exact Hl.
Qed.

Lemma EnqueueResponse_emits c r e : emits c (snd (fst (EnqueueResponse opts c r e))).
Proof.
  unfold EnqueueResponse. pose proof (QueueResponse_spec c r e) as Hq.
  destruct (QueueResponse opts c r e) as [[[] c'] e'].
  - destruct Hq as (body & _ & Hf & Hw & E1 & E2).
    apply (emits_trans _ c'); [|by apply emits_control].
    intros Hc. split; [auto|]. exists [body]. split; [by apply Forall_singleton|].
    unfold output. cbn [map concat]. by rewrite app_nil_r, E1, E2, app_assoc.
  - subst c'. apply emits_refl.
Qed.

Lemma handle_body_emits c b e : emits c (snd (fst (handle_body opts reg c b e))).
Proof.
  unfold handle_body. destruct (ParseFromArray b) as [rq|]; [|apply EnqueueResponse_emits].
  destruct (String.eqb _ _); [apply EnqueueResponse_emits|].
  destruct (request_dispatcher_ c); [|apply EnqueueResponse_emits].
  unfold dispatch. cbn [submit_script set_next_request_sequence].
  destruct (submit_script c) as [|[] rest]; by apply emits_control.
Qed.

Lemma TryParseRequests_emits fuel : forall c e,
  emits c (snd (fst (TryParseRequests_loop opts reg fuel c e))).
Proof.
  #[local] Transparent TryParseRequests_loop.
  induction fuel as [|fuel IH]; intros c e; [apply emits_refl|]. cbn [TryParseRequests_loop].
  destruct (_ <? _); [apply emits_refl|].
  destruct (DecodeFrameHeader _ _ _) as [[[] [n|]] e1]; try apply emits_refl.
  destruct (_ <? _); [apply emits_refl|].
  pose proof (handle_body_emits c (take n (drop kFrameHeaderBytes (peek (read_buffer_ c)))) e1) as Hb.
  destruct (handle_body _ _ c _ e1) as [[[] c1] e2]; [|done].
  eapply emits_trans; [done|]. eapply emits_trans; [|apply IH]. by apply emits_control.
  #[local] Opaque TryParseRequests_loop.
Qed.

Lemma ReadFromSocket_emits s : forall c e,
  emits c (snd (fst (ReadFromSocket_loop s c e))).
Proof.
  #[local] Transparent ReadFromSocket_loop.
  induction s as [|ev s IH]; intros c e; [by apply emits_control|]. cbn [ReadFromSocket_loop].
  destruct ev as [[|b bs]|en]; [by apply emits_control|..].
  - eapply emits_trans; [|apply IH]. by apply emits_control.
  - destruct (decide _); [apply IH|]. destruct (decide _); by apply emits_control.
  #[local] Opaque ReadFromSocket_loop.
Qed.

(** Sending moves bytes from the queue to the wire, in order. *)
Lemma send_chunk_spec c chunk rest n :
  write_buffer_ c = chunk :: rest -> writes_ok c ->
  let rc := Nat.min (Nat.max 1 n) (length (data chunk) - offset chunk) in
  let chunk' := {| data := data chunk; offset := offset chunk + rc |} in
  let c' := set_wire (wire c ++ take rc (drop (offset chunk) (data chunk)))
              (set_pending_write_bytes (pending_write_bytes_ c - rc)
                 (set_write_buffer
                    (if offset chunk' =? length (data chunk') then rest else chunk' :: rest) c)) in
  writes_ok c' /\ output c' = output c.
Proof.
  intros Eb [H1 H2 H3] rc chunk' c'. rewrite Eb in H1. apply Forall_cons in H1 as [Hc Hr].
  assert (rc <= length (data chunk) - offset chunk) as Hrc by lia.
  assert (unsent c = take rc (drop (offset chunk) (data chunk)) ++ unsent c') as Hu.
  { unfold unsent, c'. cbn [write_buffer_ set_wire set_pending_write_bytes set_write_buffer].
    rewrite Eb. cbn [map concat]. unfold remaining at 1.
    rewrite <- (take_drop rc (drop (offset chunk) (data chunk))) at 1.
    rewrite <- app_assoc, drop_drop. f_equal.
    destruct (Nat.eqb_spec (offset chunk') (length (data chunk'))) as [E|]; [|done].
    cbn [offset data chunk'] in E. by rewrite E, drop_all. }
  assert (pending_write_bytes_ c' = length (unsent c')) as Hp.
  { change (pending_write_bytes_ c') with (pending_write_bytes_ c - rc). rewrite H2, Hu, length_app.
    rewrite length_take, length_drop. lia. }
  split; [split|].
  - change (write_buffer_ c') with
      (if offset chunk' =? length (data chunk') then rest else chunk' :: rest).
    destruct (Nat.eqb_spec (offset chunk') (length (data chunk'))); [done|].
    constructor; [|done]. cbn [offset data chunk'] in *. lia.
  - exact Hp.
  - change (pending_write_bytes_ c') with (pending_write_bytes_ c - rc). lia.
  - unfold output. rewrite Hu, app_assoc. done.
Qed.

Lemma FlushWrites_emits s : forall c e,
  writes_ok c -> let c' := snd (fst (FlushWrites_loop s c e)) in
  writes_ok c' /\ output c' = output c.
Proof.
  #[local] Transparent FlushWrites_loop.
  induction s as [|ev s IH]; intros c e Hw; cbn [FlushWrites_loop].
  - destruct (write_buffer_ c); cbv zeta; cbn [fst snd]; (split; [|done]); by destruct Hw.
  - destruct (write_buffer_ c) as [|chunk rest] eqn:Eb.
    + cbv zeta. cbn [fst snd]. split; [|done]. by destruct Hw.
    + destruct ev as [n|en].
      * destruct (send_chunk_spec c chunk rest n Eb Hw) as [H1 H2]. cbv zeta.
        rewrite <- H2. by apply IH.
      * destruct (decide _); [by apply IH|].
        destruct (decide _); cbv zeta; cbn [fst snd]; (split; [|done]); by destruct Hw.
  #[local] Opaque FlushWrites_loop.
Qed.

(** ** Relations every event respects

    A preorder between states that allows any change of the control fields and
    holds across the loops that read, parse and send holds across
    every run of the coroutine and every event. *)

(** The fields that are not control fields. *)
Definition traffic (c : Connection) :=
  (read_buffer_ c, write_buffer_ c, pending_write_bytes_ c, wire c, recv_script c, send_script c,
   submit_script c, dispatched c, next_request_sequence_ c, request_dispatcher_ c).

Record respected (R : Connection -> Connection -> Prop) : Prop := {
  re_preorder : PreOrder R;
  re_control : forall c c', traffic c' = traffic c -> R c c';
  re_read : forall c e, R c (snd (fst (ReadFromSocket c e)));
  re_parse : forall c e, R c (snd (fst (TryParseRequests opts reg c e)));
  re_flush : forall c e, R c (snd (fst (FlushWrites c e)));
}.

Section respected.
Context (R : Connection -> Connection -> Prop) (HR : respected R).
#[local] Instance respected_preorder : PreOrder R := re_preorder R HR.

Section respected_resume.
Context (rs : co_entry -> Connection -> Connection) (Hrs : forall en c, R c (rs en c)).

Lemma ResumeReader_respects c : R c (ResumeReader rs c).
Proof.
  unfold ResumeReader. destruct (read_waiter_ c); [|reflexivity].
  etransitivity; [|apply Hrs]. by apply HR.
Qed.

Lemma ResumeWriter_respects c : R c (ResumeWriter rs c).
Proof.
  unfold ResumeWriter. destruct (write_waiter_ c); [|reflexivity].
  etransitivity; [|apply Hrs]. by apply HR.
Qed.

Lemma resume_both_respects c c0 :
  R c c0 -> R c (ResumeWriter rs (ResumeReader rs c0)).
Proof.
  intros He. etransitivity; [exact He|].
  etransitivity; [apply ResumeReader_respects|apply ResumeWriter_respects].
Qed.

Lemma EnterError_respects c msg : R c (EnterError rs c msg).
Proof. unfold EnterError. apply resume_both_respects. destruct (str_empty msg); by apply HR. Qed.

Lemma MarkClosing_respects c : R c (MarkClosing rs c).
Proof. unfold MarkClosing. apply resume_both_respects. destruct (decide _); by apply HR. Qed.

Lemma Tick_respects now c : R c (Tick rs now c).
Proof.
  unfold Tick. destruct (decide _); [reflexivity|].
  destruct (read_deadline_ c), (write_deadline_ c); try reflexivity;
    repeat (destruct (_ <=? _)%Z; try apply EnterError_respects); reflexivity.
Qed.

Lemma NotifyReadable_respects c : R c (NotifyReadable rs c).
Proof. unfold NotifyReadable. etransitivity; [|apply ResumeReader_respects]. by apply HR. Qed.

Lemma NotifyWritable_respects c : R c (NotifyWritable rs c).
Proof. unfold NotifyWritable. etransitivity; [|apply ResumeWriter_respects]. by apply HR. Qed.

Lemma OnReadable_parse_respects c e :
  R (snd (fst (ReadFromSocket c e))) (snd (fst (OnReadable opts reg rs c e))).
Proof.
  unfold OnReadable. destruct (ReadFromSocket c e) as [[r c1] e1]. cbn [fst snd]. destruct r.
  - reflexivity.
  - pose proof (re_parse R HR c1 e1) as Hp.
    destruct (TryParseRequests opts reg c1 e1) as [[[] c2] e2]; cbn [fst snd] in *;
      (transitivity c2; [exact Hp|]); [by apply HR|apply EnterError_respects].
  - by apply HR.
  - apply EnterError_respects.
Qed.

Lemma OnReadable_respects c e : R c (snd (fst (OnReadable opts reg rs c e))).
Proof. etransitivity; [apply (re_read R HR)|apply OnReadable_parse_respects]. Qed.

Lemma OnWritable_flush_respects c e :
  R (snd (fst (FlushWrites c e))) (snd (fst (OnWritable opts rs c e))).
Proof.
  unfold OnWritable. destruct (FlushWrites c e) as [[ok c1] e1]. cbn [fst snd].
  destruct ok; cbn [negb]; [|apply EnterError_respects].
  destruct (HasPendingWrite c1); by apply HR.
Qed.

Lemma OnWritable_respects c e : R c (snd (fst (OnWritable opts rs c e))).
Proof. etransitivity; [apply (re_flush R HR)|apply OnWritable_flush_respects]. Qed.

Lemma with_error_respects c r : R c (snd (fst r)) -> R c (snd (with_error r)).
Proof.
  destruct r as [[ok c'] e]. intros He. transitivity c'; [exact He|]. by apply HR.
Qed.

Lemma co_fail_respects c : R c (co_fail c).
Proof. unfold co_fail. destruct (str_empty _); by apply HR. Qed.

(** The end of a part of the coroutine, after its read or its write. *)
Lemma co_rest_respects ok c :
  R c (if negb ok then co_fail c
       else if ShouldClose c then set_co CoDone c else rs EnWriteLoop c).
Proof.
  destruct ok; cbn [negb]; [|apply co_fail_respects].
  destruct (ShouldClose c); [by apply HR|apply Hrs].
Qed.

Lemma co_finish_respects c c1 (act : bool * Connection) :
  R c c1 -> R c1 (snd act) ->
  R c (let '(ok, c2) := if ShouldClose c1 then (true, c1) else act in
       if negb ok then co_fail c2
       else if ShouldClose c2 then set_co CoDone c2 else rs EnWriteLoop c2).
Proof.
  intros H1 H2.
  assert (R c1 (snd (if ShouldClose c1 then (true, c1) else act))) as H3
    by (destruct (ShouldClose c1); [reflexivity|exact H2]).
  destruct (if ShouldClose c1 then _ else _) as [ok c2]. cbn [snd] in H3.
  transitivity c1; [exact H1|]. transitivity c2; [exact H3|]. apply co_rest_respects.
Qed.

Lemma co_step_respects en c : R c (co_step opts reg rs rs en c).
Proof.
  destruct en; unfold_co.
  - destruct (ShouldClose c); [by apply HR|].
    destruct (should_close_ c || read_ready_ c); [apply Hrs|by apply HR].
  - apply co_finish_respects; [by apply HR|]. apply with_error_respects, OnReadable_respects.
  - destruct (HasPendingWrite c); [|apply Hrs].
    destruct (should_close_ c || write_ready_ c); [apply Hrs|by apply HR].
  - apply co_finish_respects; [by apply HR|]. apply with_error_respects, OnWritable_respects.
Qed.

End respected_resume.

Lemma co_run_respects n : forall en c, R c (co_run opts reg n en c).
Proof.
  induction n as [|n IH]; intros en c; cbn [co_run]; [by apply HR|].
  transitivity (set_co CoRunning c); [by apply HR|]. by apply co_step_respects.
Qed.

Lemma apply_event_respects c ev :
  match ev with EvKernel _ _ _ _ | EvEnqueue _ => False | _ => True end -> R c (apply_event c ev).
Proof.
  pose proof (co_run_respects co_fuel) as Hr. intros Hev. destruct ev; cbn [apply_event]; try done.
  - by apply NotifyReadable_respects.
  - by apply NotifyWritable_respects.
  - by apply MarkClosing_respects.
  - by apply Tick_respects.
Qed.

End respected.

Lemma emits_respected : respected emits.
Proof.
  split.
  - split; [exact emits_refl|exact emits_trans].
  - intros c c' E. unfold traffic in E. apply emits_control; congruence.
  - intros c e. apply ReadFromSocket_emits.
  - intros c e. apply TryParseRequests_emits.
  - intros c e. apply emits_none, FlushWrites_emits.
Qed.

Lemma run_events_emits evs : forall c, emits c (run_events c evs).
Proof.
  induction evs as [|ev evs IH]; intros c; [apply emits_refl|].
  eapply emits_trans; [|apply IH].
  destruct ev; try by apply (apply_event_respects emits emits_respected).
  - apply EnqueueResponse_emits.
  - by apply emits_control.
Qed.

(** ** Reading *)

(** What the kernel has for the connection is taken from the front. *)
Definition consumes (c c' : Connection) : Prop :=
  suffix (recv_script c') (recv_script c) /\ suffix (send_script c') (send_script c).

(** The two directions of the socket, which parsing and enqueueing leave alone. *)
Definition sides (c : Connection) := (recv_script c, send_script c, wire c).

Lemma EnqueueResponse_sides c r e : sides (snd (fst (EnqueueResponse opts c r e))) = sides c.
Proof. unfold EnqueueResponse, QueueResponse. repeat (split_match; simplify_eq/=; try done). Qed.

Lemma handle_body_sides c b e : sides (snd (fst (handle_body opts reg c b e))) = sides c.
Proof.
  unfold handle_body. destruct (ParseFromArray b) as [rq|]; [|apply EnqueueResponse_sides].
  destruct (String.eqb _ _); [apply EnqueueResponse_sides|].
  destruct (request_dispatcher_ c); [|apply EnqueueResponse_sides].
  unfold dispatch. cbn [submit_script set_next_request_sequence].
  destruct (submit_script c) as [|[] rest]; done.
Qed.

Lemma TryParseRequests_sides fuel : forall c e,
  sides (snd (fst (TryParseRequests_loop opts reg fuel c e))) = sides c.
Proof.
  #[local] Transparent TryParseRequests_loop.
  induction fuel as [|fuel IH]; intros c e; [done|]. cbn [TryParseRequests_loop].
  destruct (_ <? _); [done|]. destruct (DecodeFrameHeader _ _ _) as [[[] [n|]] e1]; try done.
  destruct (_ <? _); [done|].
  pose proof (handle_body_sides c (take n (drop kFrameHeaderBytes (peek (read_buffer_ c)))) e1) as Hb.
  destruct (handle_body _ _ c _ e1) as [[[] c1] e2]; [|done]. by rewrite IH.
  #[local] Opaque TryParseRequests_loop.
Qed.

Lemma FlushWrites_recv s : forall c e,
  recv_script (snd (fst (FlushWrites_loop s c e))) = recv_script c.
Proof.
  #[local] Transparent FlushWrites_loop.
  induction s as [|ev s IH]; intros c e; cbn [FlushWrites_loop].
  - by destruct (write_buffer_ c).
  - destruct (write_buffer_ c) as [|chunk rest]; [done|].
    destruct ev as [n|en]; [by rewrite IH|].
    destruct (decide _); [by rewrite IH|]. by destruct (decide _).
  #[local] Opaque FlushWrites_loop.
Qed.

Lemma FlushWrites_send s : forall c e,
  suffix (send_script (snd (fst (FlushWrites_loop s c e)))) s.
Proof.
  #[local] Transparent FlushWrites_loop.
  induction s as [|ev s IH]; intros c e; cbn [FlushWrites_loop].
  - by destruct (write_buffer_ c).
  - destruct (write_buffer_ c) as [|chunk rest]; [done|].
    destruct ev as [n|en]; [by apply suffix_cons_r|].
    destruct (decide _); [by apply suffix_cons_r|]. destruct (decide _); by apply suffix_cons_r.
  #[local] Opaque FlushWrites_loop.
Qed.

Lemma ReadFromSocket_recv s : forall c e,
  suffix (recv_script (snd (fst (ReadFromSocket_loop s c e)))) s.
Proof.
  #[local] Transparent ReadFromSocket_loop.
  induction s as [|ev s IH]; intros c e; [reflexivity|]. cbn [ReadFromSocket_loop].
  assert (forall x, suffix x s -> suffix x (ev :: s)) as Hc by (intros x; apply suffix_cons_r).
  destruct ev as [[|b bs]|en]; [by apply Hc|by apply Hc, IH|].
  destruct (decide _); [by apply Hc, IH|]. destruct (decide _); by apply Hc.
  #[local] Opaque ReadFromSocket_loop.
Qed.

Lemma ReadFromSocket_sending s : forall c e,
  let c' := snd (fst (ReadFromSocket_loop s c e)) in
  send_script c' = send_script c /\ wire c' = wire c.
Proof.
  #[local] Transparent ReadFromSocket_loop.
  induction s as [|ev s IH]; intros c e; [done|]. cbn [ReadFromSocket_loop].
  destruct ev as [[|b bs]|en]; [done|apply (IH (set_read_buffer _ c))|].
  destruct (decide _); [apply IH|]. by destruct (decide _).
  #[local] Opaque ReadFromSocket_loop.
Qed.

Lemma consumes_respected : respected consumes.
Proof.
  unfold consumes. split.
  - split; [intros c; by split|]. intros c1 c2 c3 [] []. split; by etransitivity.
  - intros c c' E. unfold traffic in E. injection E as _ _ _ _ -> -> _ _ _ _. done.
  - intros c e. split; [apply ReadFromSocket_recv|]. unfold ReadFromSocket.
    by rewrite (proj1 (ReadFromSocket_sending (recv_script c) c e)).
  - intros c e. unfold TryParseRequests.
    pose proof (TryParseRequests_sides (S (readable_bytes (read_buffer_ c))) c e) as E.
    by injection E as -> -> _.
  - intros c e. split; [|apply FlushWrites_send]. unfold FlushWrites. by rewrite FlushWrites_recv.
Qed.

Lemma apply_event_consumes c ev :
  match ev with EvKernel _ _ _ _ => False | _ => True end -> consumes c (apply_event c ev).
Proof.
  intros Hev. destruct ev; try by apply (apply_event_respects consumes consumes_respected).
  unfold consumes. cbn [apply_event]. pose proof (EnqueueResponse_sides c r (Some "")) as E.
  by injection E as -> -> _.
Qed.

(** A reader that is resumed reads first, a writer flushes first. *)
Section resumed.
Context (R : Connection -> Connection -> Prop) (HR : respected R).

Lemma NotifyReadable_from_read c :
  co_wf c -> co c = CoReading ->
  exists c1 e, traffic c1 = traffic c /\
    R (snd (fst (ReadFromSocket c1 e))) (NotifyReadable (resume opts reg) c).
Proof.
  intros Hw Hc. unfold co_wf in Hw. rewrite Hc in Hw. destruct Hw as (Hr & _ & Ho).
  rewrite NotifyReadable_runs by done. unfold_co. set (c1 := ClearReadDeadline _).
  assert (ShouldClose c1 = false) as -> by exact Ho.
  pose proof (co_run_respects R HR 9) as Hrun. pose proof (re_preorder R HR) as Hpre.
  pose proof (OnReadable_parse_respects R HR (co_run opts reg 9) Hrun
    c1 (Some (coroutine_error c1))) as H1.
  apply (with_error_respects R HR) in H1. exists c1, (Some (coroutine_error c1)). split; [done|].
  destruct (with_error _) as [ok c2]. cbn [snd] in H1.
  etransitivity; [exact H1|]. apply (co_rest_respects R HR (co_run opts reg 9) Hrun ok c2).
Qed.

Lemma NotifyWritable_from_flush c :
  co_wf c -> co c = CoWriting ->
  exists c1 e, traffic c1 = traffic c /\
    R (snd (fst (FlushWrites c1 e))) (NotifyWritable (resume opts reg) c).
Proof.
  intros Hw Hc. unfold co_wf in Hw. rewrite Hc in Hw. destruct Hw as (Hr & _ & Ho).
  unfold NotifyWritable, ResumeWriter. cbn [write_waiter_ set_state set_write_ready]. rewrite Hr.
  unfold resume. change co_fuel with (S 9). rewrite co_run_S. unfold_co. set (c1 := ClearWriteDeadline _).
  assert (ShouldClose c1 = false) as -> by exact Ho.
  pose proof (co_run_respects R HR 9) as Hrun. pose proof (re_preorder R HR) as Hpre.
  pose proof (OnWritable_flush_respects R HR (co_run opts reg 9) Hrun
    c1 (Some (coroutine_error c1))) as H1.
  apply (with_error_respects R HR) in H1. exists c1, (Some (coroutine_error c1)). split; [done|].
  destruct (with_error _) as [ok c2]. cbn [snd] in H1.
  etransitivity; [exact H1|]. apply (co_rest_respects R HR (co_run opts reg 9) Hrun ok c2).
Qed.

End resumed.

Lemma ReadFromSocket_all s : forall c e,
  Forall (fun ev => clean_event ev = true) s ->
  recv_script (snd (fst (ReadFromSocket_loop s c e))) = [].
Proof.
  #[local] Transparent ReadFromSocket_loop.
  induction s as [|ev s IH]; intros c e Hs; cbn [ReadFromSocket_loop]; [done|].
  apply Forall_cons in Hs as [Hev Hs].
  destruct ev as [[|b bs]|[]]; try done; by apply IH.
  #[local] Opaque ReadFromSocket_loop.
Qed.

(** A suspended reader that is told to read takes everything there is. *)
Lemma NotifyReadable_all c :
  co_wf c -> co c = CoReading -> Forall (fun ev => clean_event ev = true) (recv_script c) ->
  recv_script (NotifyReadable (resume opts reg) c) = [].
Proof.
  intros Hw Hc Hs.
  destruct (NotifyReadable_from_read consumes consumes_respected c Hw Hc) as (c1 & e & Et & [[k E] _]).
  unfold traffic in Et. injection Et as _ _ _ _ Er _ _ _ _ _. unfold ReadFromSocket in E.
  rewrite ReadFromSocket_all in E by by rewrite Er. symmetry in E. by apply app_eq_nil in E as [_ ?].
Qed.

(** It takes something when there is anything. *)
Lemma NotifyReadable_takes c :
  co_wf c -> co c = CoReading -> recv_script c <> [] ->
  length (recv_script (NotifyReadable (resume opts reg) c)) < length (recv_script c).
Proof.
  intros Hw Hc Hne.
  destruct (NotifyReadable_from_read consumes consumes_respected c Hw Hc) as (c1 & e & Et & [Hs _]).
  apply suffix_length in Hs. unfold traffic in Et. injection Et as _ _ _ _ Er _ _ _ _ _.
  eapply Nat.le_lt_trans; [exact Hs|]. unfold ReadFromSocket. rewrite Er.
  destruct (recv_script c) as [|ev s]; [done|].
  #[local] Transparent ReadFromSocket_loop.
  assert (forall c' e', length (recv_script (snd (fst (ReadFromSocket_loop s c' e')))) < length (ev :: s)) as Hl.
  { intros c' e'. pose proof (suffix_length _ _ (ReadFromSocket_recv s c' e')). simpl. lia. }
  cbn [ReadFromSocket_loop]. destruct ev as [[|b bs]|en]; [simpl; lia|apply Hl|].
  destruct (decide _); [apply Hl|]. destruct (decide _); simpl; lia.
  #[local] Opaque ReadFromSocket_loop.
Qed.

(** ** Handing requests over *)

(** Requests are appended to what was handed over, and only when a dispatcher
    is set. *)
Definition appends (c c' : Connection) : Prop :=
  request_dispatcher_ c' = request_dispatcher_ c /\ prefix (dispatched c) (dispatched c') /\
  (request_dispatcher_ c = false -> dispatched c' = dispatched c).

Lemma appends_same c c' :
  request_dispatcher_ c' = request_dispatcher_ c -> dispatched c' = dispatched c -> appends c c'.
Proof. unfold appends. intros -> ->. done. Qed.

Lemma appends_trans c1 c2 c3 : appends c1 c2 -> appends c2 c3 -> appends c1 c3.
Proof.
  intros (A1 & A2 & A3) (B1 & B2 & B3). split; [congruence|]. split; [by etransitivity|].
  intros E. rewrite B3 by congruence. by apply A3.
Qed.

Lemma EnqueueResponse_appends c r e : appends c (snd (fst (EnqueueResponse opts c r e))).
Proof.
  apply appends_same; unfold EnqueueResponse, QueueResponse;
    repeat (split_match; simplify_eq/=; try done).
Qed.

Lemma handle_body_appends c b e : appends c (snd (fst (handle_body opts reg c b e))).
Proof.
  unfold handle_body. destruct (ParseFromArray b) as [rq|]; [|apply EnqueueResponse_appends].
  destruct (String.eqb _ _); [apply EnqueueResponse_appends|].
  destruct (request_dispatcher_ c) eqn:Ed; [|apply EnqueueResponse_appends].
  unfold dispatch. cbn [submit_script set_next_request_sequence].
  destruct (submit_script c) as [|[] rest]; cbn [fst snd]; (split; [done|]); split;
    try done; try congruence; by apply prefix_app_r.
Qed.

Lemma TryParseRequests_appends fuel : forall c e,
  appends c (snd (fst (TryParseRequests_loop opts reg fuel c e))).
Proof.
  #[local] Transparent TryParseRequests_loop.
  induction fuel as [|fuel IH]; intros c e; [by apply appends_same|]. cbn [TryParseRequests_loop].
  destruct (_ <? _); [by apply appends_same|].
  destruct (DecodeFrameHeader _ _ _) as [[[] [n|]] e1]; try by apply appends_same.
  destruct (_ <? _); [by apply appends_same|].
  pose proof (handle_body_appends c (take n (drop kFrameHeaderBytes (peek (read_buffer_ c)))) e1) as Hb.
  destruct (handle_body _ _ c _ e1) as [[[] c1] e2]; [|done].
  eapply appends_trans; [exact Hb|]. eapply appends_trans; [|apply IH]. by apply appends_same.
  #[local] Opaque TryParseRequests_loop.
Qed.

Lemma ReadFromSocket_appends s : forall c e,
  appends c (snd (fst (ReadFromSocket_loop s c e))).
Proof.
  #[local] Transparent ReadFromSocket_loop.
  induction s as [|ev s IH]; intros c e; [by apply appends_same|]. cbn [ReadFromSocket_loop].
  destruct ev as [[|b bs]|en]; [by apply appends_same|..].
  - eapply appends_trans; [|apply IH]. by apply appends_same.
  - destruct (decide _); [apply IH|]. destruct (decide _); by apply appends_same.
  #[local] Opaque ReadFromSocket_loop.
Qed.

Lemma FlushWrites_appends s : forall c e, appends c (snd (fst (FlushWrites_loop s c e))).
Proof.
  #[local] Transparent FlushWrites_loop.
  induction s as [|ev s IH]; intros c e; cbn [FlushWrites_loop].
  - destruct (write_buffer_ c); by apply appends_same.
  - destruct (write_buffer_ c) as [|chunk rest]; [by apply appends_same|]. destruct ev as [n|en].
    + eapply appends_trans; [|apply IH]. by apply appends_same.
    + destruct (decide _); [apply IH|]. destruct (decide _); by apply appends_same.
  #[local] Opaque FlushWrites_loop.
Qed.

Lemma appends_respected : respected appends.
Proof.
  split.
  - split; [intros c; by apply appends_same|exact appends_trans].
  - intros c c' E. unfold traffic in E. apply appends_same; congruence.
  - intros c e. apply ReadFromSocket_appends.
  - intros c e. apply TryParseRequests_appends.
  - intros c e. apply FlushWrites_appends.
Qed.

(** Bytes that have gone out stay out. *)
Definition wire_grows (c c' : Connection) : Prop := prefix (wire c) (wire c').

Lemma FlushWrites_wire s : forall c e, wire_grows c (snd (fst (FlushWrites_loop s c e))).
Proof.
  #[local] Transparent FlushWrites_loop.
  unfold wire_grows. induction s as [|ev s IH]; intros c e; cbn [FlushWrites_loop];
    destruct (write_buffer_ c) as [|chunk rest]; try done. destruct ev as [n|en].
  - etransitivity; [|apply IH]. by apply prefix_app_r.
  - destruct (decide _); [apply IH|]. by destruct (decide _).
  #[local] Opaque FlushWrites_loop.
Qed.

Lemma wire_grows_respected : respected wire_grows.
Proof.
  unfold wire_grows. split.
  - split; [intros c; reflexivity|intros c1 c2 c3 H1 H2; by etransitivity].
  - intros c c' E. unfold traffic in E. replace (wire c') with (wire c) by congruence. done.
  - intros c e. unfold ReadFromSocket. by rewrite (proj2 (ReadFromSocket_sending (recv_script c) c e)).
  - intros c e. unfold TryParseRequests.
    pose proof (TryParseRequests_sides (S (readable_bytes (read_buffer_ c))) c e) as E.
    by injection E as _ _ ->.
  - intros c e. apply FlushWrites_wire.
Qed.

(** A writer that is told to write gets on when the kernel has anything to say, and
    sends something when the kernel takes something. *)
Lemma NotifyWritable_sends c :
  writes_ok c -> co_wf c -> co c = CoWriting -> HasPendingWrite c = true -> send_script c <> [] ->
  let c' := NotifyWritable (resume opts reg) c in
  length (send_script c') < length (send_script c) /\
  ((exists n s, send_script c = SendOk n :: s) -> length (wire c) < length (wire c')).
Proof.
  intros [Hch _ _] Hw Hc Hp Hne. cbv zeta.
  destruct (NotifyWritable_from_flush consumes consumes_respected c Hw Hc) as (c1 & e & Et & [_ Hs]).
  destruct (NotifyWritable_from_flush wire_grows wire_grows_respected c Hw Hc) as (c2 & e2 & Et2 & Hg).
  apply suffix_length in Hs. apply prefix_length in Hg. unfold traffic in Et, Et2.
  injection Et as _ Eb _ _ _ Es _ _ _ _. injection Et2 as _ Eb2 _ Ew2 _ Es2 _ _ _ _.
  unfold FlushWrites in Hs, Hg. rewrite Es in Hs. rewrite Es2 in Hg.
  set (c' := NotifyWritable _ c) in *. clearbody c'.
  destruct (send_script c) as [|ev s]; [done|]. unfold HasPendingWrite in Hp.
  destruct (write_buffer_ c) as [|ch rest] eqn:Ewb; [done|]. apply Forall_cons in Hch as [Hch _].
  #[local] Transparent FlushWrites_loop.
  assert (forall c e, length (send_script (snd (fst (FlushWrites_loop s c e)))) < length (ev :: s)) as Hl.
  { intros c0 e0. pose proof (suffix_length _ _ (FlushWrites_send s c0 e0)). simpl. lia. }
  cbn [FlushWrites_loop] in Hs, Hg. rewrite Eb in Hs. rewrite Eb2 in Hg. split.
  - eapply Nat.le_lt_trans; [exact Hs|]. destruct ev as [n|en]; [apply Hl|].
    destruct (decide _); [apply Hl|]. destruct (decide _); simpl; lia.
  - intros (n & s' & [= -> ->]). eapply Nat.lt_le_trans; [|exact Hg].
    match goal with |- context [FlushWrites_loop s' ?x e2] =>
      pose proof (prefix_length _ _ (FlushWrites_wire s' x e2)) as Hx end.
    eapply Nat.lt_le_trans; [|exact Hx]. cbn [wire set_wire]. rewrite Ew2, length_app, length_take, length_drop.
    lia.
  #[local] Opaque FlushWrites_loop.
Qed.

Lemma apply_event_grows c ev :
  wire_grows c (apply_event c ev) /\ prefix (dispatched c) (dispatched (apply_event c ev)).
Proof.
  destruct ev as [| | | |r|clk rs ss subs]; try (split;
    [by apply (apply_event_respects wire_grows wire_grows_respected)
    |by apply (apply_event_respects appends appends_respected)]).
  - cbn [apply_event]. split; [|apply EnqueueResponse_appends]. unfold wire_grows.
    pose proof (EnqueueResponse_sides c r (Some "")) as E. by injection E as _ _ ->.
  - split; [by unfold wire_grows|done].
Qed.

(** ** The parser as an instance of the generic frame loop *)

(** The state of the loop: the connection without its buffer, and the error
    string. *)
Definition strip (c : Connection) : Connection := set_read_buffer (make_buffer 0) c.

Definition on_body (s : Connection * option string) (body : bytes)
    : (Connection * option string) + (Connection * option string) :=
  match handle_body opts reg (fst s) body (snd s) with
  | (true, c, e) => inl (strip c, e)
  | (false, c, e) => inr (strip c, e)
  end.

Definition on_invalid (s : Connection * option string) : Connection * option string :=
  (fst s, set_error (snd s) "invalid request frame length").

Lemma EnqueueResponse_strip b c r e :
  EnqueueResponse opts (set_read_buffer b c) r e =
  let '(ok, c', e') := EnqueueResponse opts c r e in (ok, set_read_buffer b c', e').
Proof. unfold EnqueueResponse, QueueResponse. repeat (split_match; simplify_eq/=; try done). Qed.

(** Handling a body does not look at the buffer. *)
Lemma handle_body_strip b c body e :
  handle_body opts reg (set_read_buffer b c) body e =
  let '(ok, c', e') := handle_body opts reg c body e in (ok, set_read_buffer b c', e').
Proof.
  unfold handle_body. destruct (ParseFromArray body) as [rq|]; [|apply EnqueueResponse_strip].
  destruct (String.eqb _ _); [apply EnqueueResponse_strip|].
  change (request_dispatcher_ (set_read_buffer b c)) with (request_dispatcher_ c).
  destruct (request_dispatcher_ c); [|apply EnqueueResponse_strip].
  unfold dispatch. cbn [submit_script set_next_request_sequence next_request_sequence_ set_read_buffer].
  destruct (submit_script c) as [|[] rest]; done.
Qed.

Lemma handle_body_buffer c body e :
  read_buffer_ (snd (fst (handle_body opts reg c body e))) = read_buffer_ c.
Proof.
  pose proof (handle_body_strip (read_buffer_ c) c body e) as Hs.
  replace (set_read_buffer (read_buffer_ c) c) with c in Hs by by destruct c.
  destruct (handle_body opts reg c body e) as [[ok c'] e']. cbn [fst snd].
  by injection Hs as ->.
Qed.

(** The header and the body of the loop's tests, read off the contents. *)
Lemma TryParseRequests_view fuel c e :
  buffer_wf (read_buffer_ c) ->
  TryParseRequests_loop opts reg (S fuel) c e =
  match view_frame (contents (read_buffer_ c)) with
  | FIncomplete => (true, c, e)
  | FInvalid => (false, c, set_error e "invalid request frame length")
  | FFrame body rest =>
      match handle_body opts reg c body e with
      | (true, c', e') =>
          TryParseRequests_loop opts reg fuel
            (set_read_buffer (retrieve (read_buffer_ c) (kFrameHeaderBytes + length body)) c') e'
      | (false, c', e') => (false, c', e')
      end
  end.
Proof.
  #[local] Transparent TryParseRequests_loop.
  intros Hb. cbn [TryParseRequests_loop]. unfold view_frame. rewrite (length_buffer_contents _ Hb).
  destruct (readable_bytes (read_buffer_ c) <? kFrameHeaderBytes) eqn:E1; [done|]. breflect.
  pose proof (length_buffer_contents _ Hb) as Hl. destruct (peek_contents (read_buffer_ c)) as [more Hp].
  unfold DecodeFrameHeader. cbn [negb].
  rewrite Hp, ntohl_bytes_app by (unfold kFrameHeaderBytes in E1; lia).
  set (n := ntohl_bytes _). destruct (_ || _)%Z; [by destruct e|].
  destruct (_ <? kFrameHeaderBytes + Z.to_nat n) eqn:E2; [done|]. breflect.
  rewrite drop_app_le by lia. rewrite take_app_le by (rewrite length_drop; lia).
  set (body := take _ _). assert (length body = Z.to_nat n) as ->.
  { unfold body. rewrite length_take, length_drop. lia. }
  pose proof (handle_body_buffer c body e) as Hbuf.
  destruct (handle_body opts reg c body e) as [[[] c'] e']; [|done]. cbn [fst snd] in Hbuf.
  by rewrite Hbuf.
  #[local] Opaque TryParseRequests_loop.
Qed.

Lemma view_frame_rest buf body rest :
  view_frame buf = FFrame body rest ->
  rest = drop (kFrameHeaderBytes + length body) buf /\ kFrameHeaderBytes + length body <= length buf.
Proof.
  unfold view_frame. intros E. repeat (split_match_in E; simplify_eq). breflect.
  rewrite length_take, length_drop. unfold kFrameHeaderBytes in *. split; [f_equal|]; lia.
Qed.

Lemma TryParseRequests_frames n : forall c e,
  buffer_wf (read_buffer_ c) -> length (contents (read_buffer_ c)) < n ->
  let '(ok, c', e') := TryParseRequests_loop opts reg n c e in
  frames_loop on_body on_invalid (strip c, e) (contents (read_buffer_ c)) =
    (ok, (strip c', e'), contents (read_buffer_ c')) /\ buffer_wf (read_buffer_ c').
Proof.
  induction n as [|n IH]; intros c e Hb Hn; [lia|].
  rewrite TryParseRequests_view by done. rewrite frames_loop_unfold.
  destruct (view_frame (contents (read_buffer_ c))) as [| |body rest] eqn:Ev; [done|done|].
  unfold on_body at 1. cbn [fst snd]. unfold strip at 1. rewrite handle_body_strip.
  pose proof (handle_body_buffer c body e) as Hbuf.
  destruct (handle_body opts reg c body e) as [[[] c1] e1]; cbn [fst snd] in Hbuf; [|by rewrite Hbuf].
  apply view_frame_rest in Ev as [-> Hle]. rewrite (length_buffer_contents _ Hb) in Hle.
  destruct (retrieve_spec _ _ Hb Hle) as [Hb2 Hc2].
  set (b2 := retrieve _ _) in *.
  assert (length (contents b2) < n) as Hn2.
  { rewrite Hc2, length_drop. unfold kFrameHeaderBytes in *. rewrite (length_buffer_contents _ Hb) in *. lia. }
  specialize (IH (set_read_buffer b2 c1) e1 Hb2 Hn2).
  change (read_buffer_ (set_read_buffer b2 c1)) with b2 in IH. rewrite Hc2 in IH. exact IH.
Qed.

(** ** Serving a stream of requests *)

(** What the server owes for the body of a frame, with ([mode = true]) or
    without a thread pool: a response, or the request handed to the pool. *)
Definition reply (mode : bool) (body : bytes) : option RpcResponse :=
  match ParseFromArray body with
  | None => Some {| rs_request_id := ""; rs_error_code := proto_PARSE_ERROR;
                    rs_error_msg := "failed to parse RpcRequest"; rs_payload := "" |}
  | Some rq =>
      if String.eqb (rq_service_name rq) heartbeat_service then
        Some {| rs_request_id := rq_request_id rq; rs_error_code := proto_OK;
                rs_error_msg := ""; rs_payload := "" |}
      else if mode then None else Some (HandleOneRequest reg rq)
  end.

Definition request_for_pool (mode : bool) (body : bytes) : option RpcRequest :=
  match ParseFromArray body with
  | Some rq => if negb (String.eqb (rq_service_name rq) heartbeat_service) && mode then Some rq else None
  | None => None
  end.

Definition response_bytes (r : RpcResponse) : bytes :=
  match SerializeToArray r with Some b => frame_of b | None => [] end.

Definition reply_bytes (mode : bool) (body : bytes) : bytes :=
  match reply mode body with Some r => response_bytes r | None => [] end.

(** The bytes that answer a list of bodies, and the requests handed to the
    pool, numbered from 1. *)
Definition answers (mode : bool) (bodies : list bytes) : bytes :=
  concat (map (reply_bytes mode) bodies).

Definition handed (mode : bool) (bodies : list bytes) : list DispatchRequest :=
  imap (fun i rq => to_dispatch (wrap64 (Z.of_nat (S i))) rq) (omap (request_for_pool mode) bodies).

(** A response that can be serialized and framed. *)
Definition sendable (r : RpcResponse) : Prop :=
  exists b, SerializeToArray r = Some b /\ fits b /\ ByteSizeLong r = Z.of_nat (length b).

Definition answerable (mode : bool) (body : bytes) : Prop :=
  match reply mode body with Some r => sendable r | None => True end.

(** What a connection has dealt with, in order: bodies of frames, and responses
    its worker enqueued. *)
Definition bodies_of (log : list (bytes + RpcResponse)) : list bytes :=
  omap (fun it => match it with inl b => Some b | inr _ => None end) log.

Definition replies_of (log : list (bytes + RpcResponse)) : list RpcResponse :=
  omap (fun it => match it with inl _ => None | inr r => Some r end) log.

Definition item_bytes (mode : bool) (it : bytes + RpcResponse) : bytes :=
  match it with inl b => reply_bytes mode b | inr r => response_bytes r end.

Definition sent (mode : bool) (log : list (bytes + RpcResponse)) : bytes :=
  concat (map (item_bytes mode) log).

(** Neither end of stream nor failure on the socket. *)
Definition quiet_recv (e : recv_event) : bool :=
  match e with
  | RecvBytes [] => false
  | RecvBytes _ => true
  | RecvErr e => bool_decide (e = EINTR \/ e = EAGAIN)
  end.

Definition quiet_send (e : send_event) : bool :=
  match e with
  | SendOk _ => true
  | SendErr e => bool_decide (e = EINTR \/ e = EAGAIN)
  end.

(** The state of a connection that has dealt with [log] and has not
    failed. *)
Record answered (mode : bool) (log : list (bytes + RpcResponse)) (rs : list recv_event) (c : Connection) : Prop := {
  an_output : output c = sent mode log;
  an_dispatched : dispatched c = handed mode (bodies_of log);
  an_sequence : next_request_sequence_ c = wrap64 (Z.of_nat (length (dispatched c)));
  an_mode : request_dispatcher_ c = mode;
  an_writes : writes_ok c;
  an_open : should_close_ c = false;
  an_submit : Forall (fun b => b = true) (submit_script c);
  an_recv : recv_script c = rs;
  an_send : Forall (fun ev => quiet_send ev = true) (send_script c);
}.

Lemma sent_snoc mode log it : sent mode (log ++ [it]) = sent mode log ++ item_bytes mode it.
Proof. unfold sent. rewrite map_app, concat_app. simpl. by rewrite app_nil_r. Qed.

Lemma sent_length mode log :
  length (sent mode log) =
  length (answers mode (bodies_of log)) + length (concat (map response_bytes (replies_of log))).
Proof.
  unfold sent, answers. induction log as [|[b|r] log IH]; simpl; [done|..];
    rewrite !length_app, IH; lia.
Qed.

Lemma handed_snoc mode bs b :
  handed mode (bs ++ [b]) = handed mode bs ++
    match request_for_pool mode b with
    | Some rq => [to_dispatch (wrap64 (Z.of_nat (S (length (handed mode bs))))) rq]
    | None => []
    end.
Proof.
  unfold handed. rewrite omap_app, imap_app, length_imap. simpl.
  destruct (request_for_pool mode b); simpl; [|done]. by rewrite Nat.add_0_r.
Qed.

(** What sending leaves alone. *)
Definition kept (c : Connection) :=
  (dispatched c, next_request_sequence_ c, request_dispatcher_ c, should_close_ c,
   submit_script c, recv_script c).

Lemma answered_kept mode log log' rs c c' :
  answered mode log rs c -> kept c' = kept c ->
  Forall (fun ev => quiet_send ev = true) (send_script c') -> writes_ok c' ->
  output c' = sent mode log' -> handed mode (bodies_of log') = handed mode (bodies_of log) ->
  answered mode log' rs c'.
Proof.
  intros [] E Hsd Hw Ho Hh. unfold kept in E. injection E as E1 E2 E3 E4 E5 E6.
  split; rewrite ?E1, ?E2, ?E3, ?E4, ?E5, ?E6, ?Hh; done.
Qed.

(** A response that can be framed is queued as long as all output fits. *)
Lemma EnqueueResponse_accepts c r e b :
  writes_ok c -> SerializeToArray r = Some b -> fits b ->
  ByteSizeLong r = Z.of_nat (length b) ->
  (Z.of_nat (length (output c ++ frame_of b)) <= max_write_buffer_bytes opts)%Z ->
  exists c', EnqueueResponse opts c r e = (true, c', e) /\
    output c' = output c ++ frame_of b /\ kept c' = kept c /\ send_script c' = send_script c /\
    writes_ok c'.
Proof.
  intros Ha Es Hf Hsz Hmax. unfold EnqueueResponse. pose proof (QueueResponse_spec c r e) as Hq.
  unfold QueueResponse in *. rewrite Hsz in *.
  destruct (Z.eqb_spec (Z.of_nat (length b)) 0); [unfold fits in Hf; lia|].
  destruct (Z.ltb_spec kMaxFrameSize (Z.of_nat (length b))); [unfold fits in Hf; lia|].
  cbn [orb] in *. rewrite Es in *. unfold EncodeFrame in *. cbn [negb] in *.
  destruct (Nat.eqb_spec (length b) 0); [unfold fits in Hf; lia|].
  destruct (Z.ltb_spec kMaxFrameSize (Z.of_nat (length b))); [lia|]. cbn [orb] in *.
  change (htonl_bytes (Z.of_nat (length b)) ++ b) with (frame_of b) in *.
  destruct (Z.ltb_spec (max_write_buffer_bytes opts)
    (Z.of_nat (pending_write_bytes_ c + length (frame_of b)))) as [Hbad|_].
  { exfalso. rewrite (wo_pending _ Ha) in Hbad. unfold output in Hmax.
    rewrite !length_app in Hmax. lia. }
  destruct Hq as (b' & Eb & _ & Hw & E1 & E2). injection Eb as <-.
  eexists. split; [reflexivity|]. split.
  { unfold output. rewrite <- app_assoc. f_equal. exact E2. }
  split; [reflexivity|]. split; [reflexivity|]. destruct (Hw Ha). by split.
Qed.

Lemma EnqueueResponse_answered mode log rs c e r :
  answered mode log rs c -> sendable r ->
  (Z.of_nat (length (sent mode log ++ response_bytes r)) <= max_write_buffer_bytes opts)%Z ->
  exists c', EnqueueResponse opts c r e = (true, c', e) /\ read_buffer_ c' = read_buffer_ c /\
    forall it, item_bytes mode it = response_bytes r ->
      handed mode (bodies_of (log ++ [it])) = handed mode (bodies_of log) ->
      answered mode (log ++ [it]) rs c'.
Proof.
  intros Ha (b & Es & Hf & Hsz) Hmax. unfold response_bytes in *. rewrite Es in *.
  rewrite <- (an_output _ _ _ _ Ha) in Hmax.
  destruct (EnqueueResponse_accepts c r e b (an_writes _ _ _ _ Ha) Es Hf Hsz Hmax)
    as (c' & E1 & E2 & E3 & E3' & E4).
  exists c'. split; [done|]. split.
  { pose proof (EnqueueResponse_strip (read_buffer_ c) c r e) as Hs.
    replace (set_read_buffer (read_buffer_ c) c) with c in Hs by by destruct c.
    rewrite E1 in Hs. by injection Hs as ->. }
  intros it Eit Hh. eapply answered_kept; [done|done|by rewrite E3'; apply Ha|done| |done].
  by rewrite E2, sent_snoc, Eit, (an_output _ _ _ _ Ha).
Qed.

Lemma handle_body_answered mode log rs c e body :
  answered mode log rs c -> answerable mode body ->
  (Z.of_nat (length (sent mode (log ++ [inl body]))) <= max_write_buffer_bytes opts)%Z ->
  exists c', handle_body opts reg c body e = (true, c', e) /\ answered mode (log ++ [inl body]) rs c'.
Proof.
  intros Ha Hans Hmax.
  assert (bodies_of (log ++ [inl body]) = bodies_of log ++ [body]) as Ebs
    by (unfold bodies_of; by rewrite omap_app).
  assert (forall r, reply mode body = Some r -> exists c', EnqueueResponse opts c r e = (true, c', e) /\
    answered mode (log ++ [inl body]) rs c') as Hreply.
  { intros r Er. unfold answerable in Hans. rewrite Er in Hans.
    assert (reply_bytes mode body = response_bytes r) as Eb by (unfold reply_bytes; by rewrite Er).
    rewrite sent_snoc in Hmax. simpl in Hmax. rewrite Eb in Hmax.
    destruct (EnqueueResponse_answered mode log rs c e r Ha Hans Hmax) as (c' & E1 & _ & E2).
    exists c'. split; [done|]. apply E2; [done|].
    rewrite Ebs, handed_snoc. unfold reply in Er. unfold request_for_pool.
    destruct (ParseFromArray body) as [rq|]; [|by rewrite app_nil_r].
    destruct (String.eqb _ _), mode; try done; simpl; by rewrite app_nil_r. }
  unfold handle_body, reply in *.
  destruct (ParseFromArray body) as [rq|] eqn:Ep; [|by apply Hreply].
  destruct (String.eqb _ _) eqn:Eh; [by apply Hreply|].
  rewrite (an_mode _ _ _ _ Ha). destruct mode; [|by apply Hreply]. clear Hreply.
  assert (request_for_pool true body = Some rq) as Er by (unfold request_for_pool; by rewrite Ep, Eh).
  assert (reply_bytes true body = []) as Eb by (unfold reply_bytes, reply; by rewrite Ep, Eh).
  destruct Ha as [A1 A2 A3 A4 A5 A6 A7 A8 A9].
  assert (exists rest, dispatch (set_next_request_sequence (wrap64 (next_request_sequence_ c + 1)) c)
    (to_dispatch (wrap64 (next_request_sequence_ c + 1)) rq) e =
    (true, set_dispatched (dispatched c ++ [to_dispatch (wrap64 (next_request_sequence_ c + 1)) rq])
       (set_submit_script rest (set_next_request_sequence (wrap64 (next_request_sequence_ c + 1)) c)), e)
    /\ Forall (fun b => b = true) rest) as (rest & -> & Hrest).
  { unfold dispatch. cbn [submit_script set_next_request_sequence].
    destruct A7 as [|x l -> Hl]; eauto. }
  eexists. split; [reflexivity|].
  assert (wrap64 (next_request_sequence_ c + 1) = wrap64 (Z.of_nat (S (length (dispatched c))))) as Eseq.
  { rewrite A3. unfold wrap64. rewrite Zplus_mod_idemp_l. f_equal. lia. }
  rewrite Eseq. split; try done.
  - rewrite sent_snoc. simpl. rewrite Eb, app_nil_r. exact A1.
  - rewrite Ebs, handed_snoc, Er, <- A2. reflexivity.
  - cbn [next_request_sequence_ set_dispatched set_submit_script set_next_request_sequence dispatched].
    rewrite length_app. simpl. do 2 f_equal. lia.
  - destruct A5. by split.
Qed.

(** The end of the stream after some data. *)
Lemma OnReadable_closed rs c datas rest e :
  Forall (fun d => d <> []) datas -> buffer_wf (read_buffer_ c) ->
  recv_script c = map RecvBytes datas ++ RecvBytes [] :: rest ->
  exists b, OnReadable opts reg rs c e =
    (true, set_should_close true (set_state kClosing (set_recv_script rest (set_read_buffer b c))),
     set_error e "peer closed connection") /\
    contents b = contents (read_buffer_ c) ++ concat datas.
Proof.
  #[local] Transparent ReadFromSocket_loop.
  intros Hds Hb Hrs. unfold OnReadable, ReadFromSocket. rewrite Hrs. clear Hrs.
  assert (exists b, ReadFromSocket_loop (map RecvBytes datas ++ RecvBytes [] :: rest) c e =
    (RPeerClosed, set_recv_script rest (set_read_buffer b c), set_error e "peer closed connection") /\
    contents b = contents (read_buffer_ c) ++ concat datas) as (b & -> & Eb); [|by exists b].
  revert c e Hb. induction Hds as [|x xs Hx Hxs IH]; intros c e Hb.
  - exists (read_buffer_ c). cbn [map app ReadFromSocket_loop concat]. rewrite app_nil_r.
    split; [by destruct c|done].
  - destruct x as [|x0 x]; [done|]. cbn [map app ReadFromSocket_loop].
    destruct (append_spec (read_buffer_ c) (x0 :: x) Hb) as [Hb2 Hc2].
    destruct (IH (set_read_buffer (append (read_buffer_ c) (x0 :: x)) c) e Hb2) as (b & -> & Eb).
    exists b. split; [done|]. rewrite Eb. cbn [read_buffer_ set_read_buffer concat].
    by rewrite Hc2, <- app_assoc.
  #[local] Opaque ReadFromSocket_loop.
Qed.

Lemma co_step_read_closed rs go c c2 e :
  should_close_ c = false ->
  OnReadable opts reg rs (ClearReadDeadline (set_read_ready false c))
    (Some (coroutine_error (ClearReadDeadline (set_read_ready false c)))) = (true, c2, e) ->
  should_close_ c2 = true ->
  co_step opts reg rs go EnAfterRead c = set_co CoDone (set_coroutine_error (default "" e) c2).
Proof.
  intros Hs E Hc. unfold_co. set (c1 := ClearReadDeadline (set_read_ready false c)) in *.
  assert (ShouldClose c1 = false) as E1 by exact Hs. rewrite E1, E. cbn [with_error negb].
  assert (ShouldClose (set_coroutine_error (default "" e) c2) = true) as -> by exact Hc. done.
Qed.

Lemma ReadFromSocket_quiet s : forall c e,
  Forall (fun ev => quiet_recv ev = true) s -> buffer_wf (read_buffer_ c) ->
  exists r s' b, ReadFromSocket_loop s c e = (r, set_recv_script s' (set_read_buffer b c), e) /\
    Forall (fun ev => quiet_recv ev = true) s' /\ buffer_wf b /\
    contents b ++ script_bytes s' = contents (read_buffer_ c) ++ script_bytes s /\
    (r = RData \/ r = RWouldBlock /\ contents b = []).
Proof.
  #[local] Transparent ReadFromSocket_loop.
  assert (forall c s', buffer_wf (read_buffer_ c) ->
    exists r, (if readable_bytes (read_buffer_ c) =? 0 then RWouldBlock else RData) = r /\
    set_recv_script s' c = set_recv_script s' (set_read_buffer (read_buffer_ c) c) /\
    (r = RData \/ r = RWouldBlock /\ contents (read_buffer_ c) = [])) as Hblock.
  { intros c s' Hb. eexists. split; [reflexivity|]. split; [by destruct c|].
    destruct (Nat.eqb_spec (readable_bytes (read_buffer_ c)) 0) as [E|]; [right|by left].
    split; [done|]. apply nil_length_inv. by rewrite length_buffer_contents. }
  induction s as [|ev s IH]; intros c e Hq Hb; cbn [ReadFromSocket_loop].
  - destruct (Hblock c [] Hb) as (r & -> & -> & Hr). exists r, [], (read_buffer_ c). done.
  - apply Forall_cons in Hq as [Hev Hq]. destruct ev as [[|x bs]|en]; [done|..].
    + destruct (append_spec (read_buffer_ c) (x :: bs) Hb) as [Hb2 Hc2].
      destruct (IH (set_read_buffer (append (read_buffer_ c) (x :: bs)) c) e Hq Hb2)
        as (r & s' & b & -> & H2 & H3 & H4 & H5).
      exists r, s', b. split; [done|]. split; [done|]. split; [done|]. split; [|done].
      rewrite H4. cbn [read_buffer_ set_read_buffer]. rewrite Hc2, <- app_assoc. done.
    + simpl in Hev. destruct (decide (en = EINTR)) as [->|Hn]; [by apply IH|].
      apply bool_decide_eq_true in Hev as [?| ->]; [done|]. rewrite decide_True by done.
      destruct (Hblock c s Hb) as (r & -> & -> & Hr). exists r, s, (read_buffer_ c). done.
  #[local] Opaque ReadFromSocket_loop.
Qed.

Lemma FlushWrites_quiet s : forall c e,
  Forall (fun ev => quiet_send ev = true) s ->
  exists c', FlushWrites_loop s c e = (true, c', e) /\ kept c' = kept c /\
    read_buffer_ c' = read_buffer_ c /\ Forall (fun ev => quiet_send ev = true) (send_script c').
Proof.
  #[local] Transparent FlushWrites_loop.
  induction s as [|ev s IH]; intros c e Hq; cbn [FlushWrites_loop].
  - destruct (write_buffer_ c); eexists; done.
  - destruct (write_buffer_ c) as [|chunk rest]; [by eexists|].
    apply Forall_cons in Hq as [Hev Hq]. destruct ev as [n|en].
    + destruct (IH (set_wire (wire c ++ take (Nat.min (Nat.max 1 n) (length (data chunk) - offset chunk))
          (drop (offset chunk) (data chunk)))
        (set_pending_write_bytes
          (pending_write_bytes_ c - Nat.min (Nat.max 1 n) (length (data chunk) - offset chunk))
          (set_write_buffer (if offset chunk + Nat.min (Nat.max 1 n) (length (data chunk) - offset chunk)
             =? length (data chunk) then rest else {| data := data chunk;
             offset := offset chunk + Nat.min (Nat.max 1 n) (length (data chunk) - offset chunk) |} :: rest)
             c))) e Hq) as (c' & E1 & E2 & E3 & E4).
      exists c'. split; [exact E1|]. done.
    + simpl in Hev. destruct (decide (en = EINTR)) as [->|Hn]; [by apply IH|].
      apply bool_decide_eq_true in Hev as [?| ->]; [done|]. rewrite decide_True by done. by eexists.
  #[local] Opaque FlushWrites_loop.
Qed.

(** Runs in which nothing fails: no deadline is reached and no peer leaves. *)
Definition expired (c : Connection) (now : Z) : bool :=
  let due d := match d with Some d => (d <=? now)%Z | None => false end in
  due (read_deadline_ c) || due (write_deadline_ c).

Definition calm (c : Connection) (ev : event) : Prop :=
  match ev with
  | EvReadable | EvWritable => True
  | EvClosing => False
  | EvTick now => expired c now = false
  | EvEnqueue r => sendable r
  | EvKernel _ rs ss subs =>
      Forall (fun ev => quiet_recv ev = true) rs /\ Forall (fun ev => quiet_send ev = true) ss /\
      Forall (fun b => b = true) subs
  end.

Fixpoint calm_run (c : Connection) (evs : list event) : Prop :=
  match evs with
  | [] => True
  | ev :: evs => calm c ev /\ calm_run (apply_event c ev) evs
  end.

Definition received (evs : list event) : bytes :=
  concat (map (fun ev => match ev with EvKernel _ rs _ _ => script_bytes rs | _ => [] end) evs).

Definition enqueued (evs : list event) : list RpcResponse :=
  omap (fun ev => match ev with EvEnqueue r => Some r | _ => None end) evs.

Lemma script_bytes_app s1 s2 : script_bytes (s1 ++ s2) = script_bytes s1 ++ script_bytes s2.
Proof.
  induction s1 as [|[bs|en] s1 IH]; simpl; [done|..]; rewrite IH; [by rewrite app_assoc|done].
Qed.

Lemma Tick_calm rs now c : expired c now = false -> Tick rs now c = c.
Proof.
  unfold expired, Tick. intros [E1 E2]%orb_false_iff. destruct (decide _); [done|].
  destruct (read_deadline_ c), (write_deadline_ c); by rewrite ?E1, ?E2.
Qed.

Section serving.
Context (mode : bool) (bodies : list bytes) (tail : bytes) (replies : list RpcResponse).
Context (Hfits : Forall fits bodies) (Htail : view_frame tail = FIncomplete).
Context (Hansw : Forall (answerable mode) bodies).
Context (Hmax : (Z.of_nat (length (answers mode bodies) +
  length (concat (map response_bytes replies))) <= max_write_buffer_bytes opts)%Z).

(** Every part of the work fits the write buffer. *)
Lemma sent_bounded log rest later :
  bodies = bodies_of log ++ rest -> replies = replies_of log ++ later ->
  (Z.of_nat (length (sent mode log)) <= max_write_buffer_bytes opts)%Z.
Proof.
  intros E1 E2. rewrite sent_length. rewrite E1, E2 in Hmax. unfold answers in *.
  rewrite !map_app, !concat_app, !length_app in Hmax. lia.
Qed.

Lemma handle_all_answered rs later : forall todo log rest s,
  bodies = bodies_of log ++ todo ++ rest -> replies = replies_of log ++ later ->
  answered mode log rs (fst s) ->
  exists c', handle_all on_body s todo = (true, (c', snd s)) /\
    answered mode (log ++ map inl todo) rs c'.
Proof.
  induction todo as [|b todo IH]; intros log rest [c e] E Er Ha.
  - exists c. simpl map. rewrite app_nil_r. done.
  - simpl. unfold on_body. cbn [fst snd].
    assert (bodies = bodies_of (log ++ [inl b]) ++ todo ++ rest) as E'.
    { unfold bodies_of. rewrite omap_app, <- app_assoc. exact E. }
    assert (replies = replies_of (log ++ [inl b]) ++ later) as Er'.
    { unfold replies_of. rewrite omap_app. simpl. by rewrite app_nil_r. }
    assert (answerable mode b) as H1.
    { rewrite E in Hansw. rewrite !Forall_app, Forall_cons in Hansw. tauto. }
    destruct (handle_body_answered mode log rs c e b Ha H1 (sent_bounded _ _ _ E' Er'))
      as (c1 & -> & Ha1).
    destruct (IH (log ++ [inl b]) rest (strip c1, e) E' Er') as (c2 & E2 & Ha2).
    + destruct Ha1 as [? ? ? ? [] ? ? ? ?]. by split.
    + exists c2. split; [exact E2|]. by rewrite <- app_assoc in Ha2.
Qed.

(** The connection is in step with the stream: everything complete is
    answered, the rest is in the buffer, at the kernel or still to come
    ([future], [later]). *)
Definition serving (future : bytes) (later : list RpcResponse) (c : Connection) : Prop :=
  exists log todo, bodies = bodies_of log ++ todo /\ replies = replies_of log ++ later /\
    answered mode log (recv_script c) c /\
    buffer_wf (read_buffer_ c) /\ view_frame (contents (read_buffer_ c)) = FIncomplete /\
    contents (read_buffer_ c) ++ script_bytes (recv_script c) ++ future =
      concat (map frame_of todo) ++ tail /\
    Forall (fun ev => quiet_recv ev = true) (recv_script c).

Lemma bodies_of_app log todo : bodies_of (log ++ map inl todo) = bodies_of log ++ todo.
Proof.
  unfold bodies_of. rewrite omap_app. f_equal. induction todo as [|b todo IH]; simpl; by f_equal.
Qed.

Lemma replies_of_app log todo : replies_of (log ++ map inl todo) = replies_of log.
Proof.
  unfold replies_of. rewrite omap_app. induction todo as [|b todo IH]; [apply app_nil_r|exact IH].
Qed.

Lemma OnReadable_serving future later resume c e :
  serving future later c ->
  exists c', OnReadable opts reg resume c e = (true, c', e) /\ serving future later c'.
Proof.
  intros (log & todo & Eb & El & Ha & Hb & Hv & Hs & Hq). unfold OnReadable, ReadFromSocket.
  destruct (ReadFromSocket_quiet (recv_script c) c e Hq Hb) as (r & s' & b & -> & Hq' & Hb' & Hc & Hr).
  set (c1 := set_recv_script s' (set_read_buffer b c)).
  assert (answered mode log s' c1) as Ha1 by (destruct Ha as [? ? ? ? [] ? ? ? ?]; by split).
  assert (contents b ++ script_bytes s' ++ future = concat (map frame_of todo) ++ tail) as Hs1.
  { rewrite app_assoc, Hc, <- app_assoc. exact Hs. }
  destruct Hr as [-> | [-> Hnil]].
  - unfold TryParseRequests.
    pose proof (TryParseRequests_frames (S (readable_bytes (read_buffer_ c1))) c1 e Hb') as Hp.
    destruct (TryParseRequests_loop opts reg _ c1 e) as [[ok c2] e2].
    destruct Hp as [Hp Hb2]; [change (read_buffer_ c1) with b; rewrite (length_buffer_contents b Hb'); lia|].
    assert (Forall (fun b => 0 < Z.of_nat (length b) <= kMaxFrameSize)%Z todo) as Hft.
    { rewrite Eb in Hfits. by apply Forall_app in Hfits as [_ ?]. }
    destruct (frames_loop_prefix on_body on_invalid (script_bytes s' ++ future) tail
      (contents b) todo (strip c1, e) Hft Htail Hs1) as (seen & rest & Et & Hl).
    change (read_buffer_ c1) with b in Hp. rewrite Hp in Hl. destruct Hl as [Hl Hrest].
    destruct (handle_all_answered s' later seen log rest (strip c1, e)) as (c3 & E3 & Ha3).
    + by rewrite Eb, Et.
    + done.
    + destruct Ha1 as [? ? ? ? [] ? ? ? ?]. by split.
    + rewrite E3 in Hl. injection Hl as -> Hc3 ->. destruct (Hrest eq_refl) as [Hv2 Hs2].
      eexists. split; [reflexivity|]. exists (log ++ map inl seen), rest. subst c3.
      rewrite bodies_of_app, replies_of_app.
      assert (answered mode (log ++ map inl seen) s' c2) as Ha2
        by (destruct Ha3 as [? ? ? ? [] ? ? ? ?]; by split).
      pose proof (an_recv _ _ _ _ Ha2) as Er.
      split; [by rewrite Eb, Et, app_assoc|]. split; [done|].
      cbn [recv_script read_buffer_ set_state].
      rewrite Er. split; [destruct Ha2 as [? ? ? ? [] ? ? ? ?]; by split|]. done.
  - eexists. split; [reflexivity|]. exists log, todo. split; [done|]. split; [done|].
    split; [exact Ha1|]. split; [exact Hb'|]. split; [|by split].
    change (read_buffer_ c1) with b. by rewrite Hnil.
Qed.

(** Everything [serving] depends on. *)
Definition surface (c : Connection) :=
  (read_buffer_ c, write_buffer_ c, pending_write_bytes_ c, wire c, send_script c, kept c).

Lemma serving_control future later c c' :
  serving future later c -> surface c' = surface c -> serving future later c'.
Proof.
  intros (log & todo & Eb & El & [] & Hs) E. unfold surface, kept in E.
  injection E as E1 E2 E3 E4 E5 E6 E7 E8 E9 E10 E11.
  assert (output c' = output c) as Eo by (unfold output, unsent; by rewrite E2, E4).
  exists log, todo. rewrite E1, E11. split; [done|]. split; [done|]. split; [|done].
  split; rewrite ?Eo, ?E5, ?E6, ?E7, ?E8, ?E9, ?E10, ?E11; try done.
  destruct an_writes0. split; unfold unsent in *; rewrite ?E2, ?E3; done.
Qed.

Lemma OnWritable_serving future later resume c e :
  serving future later c ->
  exists c', OnWritable opts resume c e = (true, c', e) /\ serving future later c'.
Proof.
  intros (log & todo & Eb & El & Ha & Hs). unfold OnWritable, FlushWrites.
  destruct (FlushWrites_quiet (send_script c) c e (an_send _ _ _ _ Ha)) as (c1 & E1 & Ek & Er & Hq).
  pose proof (FlushWrites_emits (send_script c) c e (an_writes _ _ _ _ Ha)) as [Hw Ho].
  rewrite E1 in *. cbn [fst snd negb] in *.
  assert (serving future later c1) as Hc1.
  { exists log, todo. split; [done|]. split; [done|].
    assert (recv_script c1 = recv_script c) as Erv by by injection Ek.
    rewrite Er, Erv. split; [|done]. eapply answered_kept; try done.
    by rewrite Ho, (an_output _ _ _ _ Ha). }
  destruct (HasPendingWrite c1); cbn [negb]; eexists; (split; [reflexivity|]);
    by apply (serving_control _ _ c1).
Qed.

Lemma serving_open future later c : serving future later c -> should_close_ c = false.
Proof. intros (log & todo & _ & _ & Ha & _). apply Ha. Qed.

Lemma co_run_serving future later n : forall en c,
  serving future later c -> serving future later (co_run opts reg n en c).
Proof.
  induction n as [|n IH]; intros en c Hc; cbn [co_run]; [by apply (serving_control _ _ c)|].
  set (c0 := set_co CoRunning c).
  assert (serving future later c0) as Hc0 by by apply (serving_control _ _ c).
  clearbody c0. clear c Hc. pose proof (serving_open _ _ _ Hc0) as Ho.
  destruct en; unfold_co.
  - unfold ShouldClose. rewrite Ho. cbn [orb].
    destruct (read_ready_ c0); [by apply IH|by apply (serving_control _ _ c0)].
  - set (c1 := ClearReadDeadline (set_read_ready false c0)).
    assert (serving future later c1) as Hc1 by by apply (serving_control _ _ c0).
    unfold ShouldClose. rewrite (serving_open _ _ _ Hc1).
    destruct (OnReadable_serving future later (co_run opts reg n) c1 (Some (coroutine_error c1)) Hc1)
      as (c2 & -> & Hc2). cbn [with_error negb].
    assert (serving future later (set_coroutine_error (default "" (Some (coroutine_error c1))) c2))
      as Hc3 by by apply (serving_control _ _ c2).
    rewrite (serving_open _ _ _ Hc3). by apply IH.
  - destruct (HasPendingWrite c0); cbn [negb]; [|by apply IH]. rewrite Ho. cbn [orb].
    destruct (write_ready_ c0); [by apply IH|by apply (serving_control _ _ c0)].
  - set (c1 := ClearWriteDeadline (set_write_ready false c0)).
    assert (serving future later c1) as Hc1 by by apply (serving_control _ _ c0).
    unfold ShouldClose. rewrite (serving_open _ _ _ Hc1).
    destruct (OnWritable_serving future later (co_run opts reg n) c1 (Some (coroutine_error c1)) Hc1)
      as (c2 & -> & Hc2). cbn [with_error negb].
    assert (serving future later (set_coroutine_error (default "" (Some (coroutine_error c1))) c2))
      as Hc3 by by apply (serving_control _ _ c2).
    rewrite (serving_open _ _ _ Hc3). by apply IH.
Qed.

Lemma ResumeReader_serving future later c :
  serving future later c -> serving future later (ResumeReader (resume opts reg) c).
Proof.
  intros Hc. unfold ResumeReader. destruct (read_waiter_ c); [|done].
  apply co_run_serving. by apply (serving_control _ _ c).
Qed.

Lemma ResumeWriter_serving future later c :
  serving future later c -> serving future later (ResumeWriter (resume opts reg) c).
Proof.
  intros Hc. unfold ResumeWriter. destruct (write_waiter_ c); [|done].
  apply co_run_serving. by apply (serving_control _ _ c).
Qed.

Lemma serving_kernel future later c clk rs ss subs :
  serving (script_bytes rs ++ future) later c -> calm c (EvKernel clk rs ss subs) ->
  serving future later (apply_event c (EvKernel clk rs ss subs)).
Proof.
  intros (log & todo & Eb & El & Ha & Hb & Hv & Hs & Hq) (H1 & H2 & H3).
  exists log, todo. split; [done|]. split; [done|]. cbn [apply_event recv_script set_clock
    set_recv_script set_send_script set_submit_script read_buffer_].
  split; [|split; [done|]; split; [done|]; split].
  - destruct Ha as [A1 A2 A3 A4 [] A6 A7 A8 A9]. split; try done.
    + by apply Forall_app.
    + by apply Forall_app.
  - rewrite <- Hs, script_bytes_app, <- app_assoc. done.
  - by apply Forall_app.
Qed.

Lemma serving_enqueue future later c r :
  serving future (r :: later) c -> sendable r ->
  serving future later (apply_event c (EvEnqueue r)).
Proof.
  intros (log & todo & Eb & El & Ha & Hb & Hv & Hs & Hq) Hr. cbn [apply_event].
  assert (replies = replies_of (log ++ [inr r]) ++ later) as El'.
  { unfold replies_of. rewrite omap_app, <- app_assoc. exact El. }
  assert (bodies_of (log ++ [inr r]) = bodies_of log) as Ebs.
  { unfold bodies_of. rewrite omap_app. apply app_nil_r. }
  pose proof (sent_bounded (log ++ [inr r]) todo later) as Hm. rewrite Ebs in Hm.
  specialize (Hm Eb El'). rewrite sent_snoc in Hm.
  destruct (EnqueueResponse_answered mode log _ c (Some "") r Ha Hr Hm) as (c' & E1 & E2 & E3).
  rewrite E1. cbn [fst snd].
  assert (answered mode (log ++ [inr r]) (recv_script c) c') as Ha'.
  { apply E3; [done|]. by rewrite Ebs. }
  exists (log ++ [inr r]), todo. rewrite E2, Ebs, (an_recv _ _ _ _ Ha'). done.
Qed.

Lemma run_events_serving evs : forall c,
  serving (received evs) (enqueued evs) c -> calm_run c evs -> serving [] [] (run_events c evs).
Proof.
  induction evs as [|ev evs IH]; intros c Hc Hq; [done|]. destruct Hq as [Hev Hq].
  apply IH; [|done]. destruct ev; cbn [calm] in Hev.
  - apply ResumeReader_serving. by apply (serving_control _ _ c).
  - apply ResumeWriter_serving. by apply (serving_control _ _ c).
  - done.
  - cbn [apply_event]. by rewrite Tick_calm.
  - by apply serving_enqueue.
  - by apply serving_kernel.
Qed.

Lemma make_connection_serving future later :
  future = concat (map frame_of bodies) ++ tail -> later = replies ->
  serving future later (make_connection mode).
Proof.
  intros -> ->. exists [], bodies.
  pose proof (make_buffer_spec 8192) as [Hb Hc].
  change (read_buffer_ (make_connection mode)) with (make_buffer 8192). rewrite Hc.
  split; [done|]. split; [done|]. split; [|done].
  split; try done. split; [by constructor|done|]. cbn. lia.
Qed.

Lemma start_serving future later :
  future = concat (map frame_of bodies) ++ tail -> later = replies ->
  serving future later (start opts reg (make_connection mode)).
Proof. intros Ef El. by apply co_run_serving, make_connection_serving. Qed.

End serving.

End lemmas.

(** ** Properties *)

(** C10: whatever its worker, its socket and the clock do, the coroutine of a
    connection is between two events either suspended in one of its two waits
    with its handle registered there and nowhere else, or finished, and then
    the connection is marked for closing; it never runs forever and never loses
    its handle.  One call of [MarkClosing] ends it whatever it waits for, so
    that waiting for its result when a connection is closed does not block. *)
Theorem connection_coroutine_never_lost (opts : Options) (reg : registry)
    `{ProtoMessage RpcRequest} `{ProtoMessage RpcResponse} (mode : bool) (evs : list event) :
  let c := run_events opts reg (start opts reg (make_connection mode)) evs in
  match co c with
  | CoReading => read_waiter_ c = true /\ write_waiter_ c = false /\ should_close_ c = false
  | CoWriting => write_waiter_ c = true /\ read_waiter_ c = false /\ should_close_ c = false
  | CoDone => read_waiter_ c = false /\ write_waiter_ c = false /\ should_close_ c = true
  | CoRunning | CoStuck => False
  end /\
  let closed := MarkClosing (resume opts reg) c in
  co closed = CoDone /\ read_waiter_ closed = false /\ write_waiter_ closed = false /\
  should_close_ closed = true /\ wire closed = wire c.
Proof.
  cbv zeta. pose proof (run_events_wf opts reg evs _ (start_wf opts reg mode)) as Hw.
  set (c := run_events _ _ _ _) in *. clearbody c. split.
  - unfold co_wf, idle in Hw. destruct (co c); tauto.
  - destruct (MarkClosing_closes opts reg c Hw) as (H1 & [H2 H3] & H4 & H5 & _). done.
Qed.

(** Whatever its worker, its socket and the clock do, the bytes that have
    gone out on a connection followed by those still queued are a sequence of
    whole frames of legal size: partial sends, interrupted calls, errors and
    responses enqueued in between never split, repeat, drop or reorder a byte;
    the byte count is that of the queue and stays within the limit. *)
Theorem connection_output_is_frames (opts : Options) (reg : registry)
    `{ProtoMessage RpcRequest} `{ProtoMessage RpcResponse} (mode : bool) (evs : list event) :
  (0 <= max_write_buffer_bytes opts)%Z ->
  let c := run_events opts reg (start opts reg (make_connection mode)) evs in
  (exists bodies, Forall fits bodies /\
     wire c ++ unsent c = concat (map frame_of bodies)) /\
  pending_write_bytes_ c = length (unsent c) /\
  (Z.of_nat (pending_write_bytes_ c) <= max_write_buffer_bytes opts)%Z.
Proof.
  intros Hm. cbv zeta.
  assert (writes_ok opts (make_connection mode)) as Hw by (split; [by constructor|done|exact Hm]).
  destruct (emits_trans opts _ _ _ (co_run_respects opts reg _ (emits_respected opts reg) co_fuel
    EnTop (make_connection mode)) (run_events_emits opts reg evs _) Hw) as ([_ H2 H3] & bodies & Hb & E).
  split; [|done]. by exists bodies.
Qed.

(** C5: a connection answers the requests of its peer.  As long as neither
    side fails, and whatever cuts the stream into reads, whatever the kernel
    accepts per send and whatever responses the worker enqueues in between: the
    requests whose frames have arrived completely are dealt with exactly once
    and in order - answered on the spot (heartbeats, requests that cannot be
    parsed and, without a thread pool, every call) or handed to the pool with
    consecutive sequence numbers -, every enqueued response is sent, and the
    bytes not yet dealt with are kept.  When the coroutine waits to read, one
    readable event deals with everything the kernel has. *)
Theorem server_answers_in_order (opts : Options) (reg : registry)
    `{ProtoMessage RpcRequest} `{ProtoMessage RpcResponse} (mode : bool)
    (bodies : list bytes) (tail : bytes) (evs : list event) :
  let c0 := start opts reg (make_connection mode) in
  let c := run_events opts reg c0 evs in
  Forall fits bodies -> view_frame tail = FIncomplete ->
  Forall (answerable reg mode) bodies ->
  (Z.of_nat (length (answers reg mode bodies) +
     length (concat (map response_bytes (enqueued evs)))) <= max_write_buffer_bytes opts)%Z ->
  received evs = concat (map frame_of bodies) ++ tail -> calm_run opts reg c0 evs ->
  (exists log todo, bodies = bodies_of log ++ todo /\ replies_of log = enqueued evs /\
     wire c ++ unsent c = sent reg mode log /\ dispatched c = handed mode (bodies_of log) /\
     contents (read_buffer_ c) ++ script_bytes (recv_script c) =
       concat (map frame_of todo) ++ tail) /\
  (co c = CoReading -> Forall (fun ev => clean_event ev = true) (recv_script c) ->
   let c' := apply_event opts reg c EvReadable in
   exists log, bodies_of log = bodies /\ replies_of log = enqueued evs /\
     wire c' ++ unsent c' = sent reg mode log /\ dispatched c' = handed mode bodies /\
     contents (read_buffer_ c') = tail).
Proof.
  intros c0 c Hf Ht Ha Hm Hr Hc.
  assert (serving opts reg mode bodies tail (enqueued evs) [] [] c) as Hs.
  { apply run_events_serving; try done. by apply start_serving. }
  split.
  - destruct Hs as (log & todo & E1 & E2 & A & _ & _ & E3 & _). exists log, todo.
    rewrite app_nil_r in E2, E3. split; [done|]. split; [done|]. split; [apply A|].
    split; [apply A|exact E3].
  - intros Hco Hclean. cbv zeta. cbn [apply_event].
    pose proof (NotifyReadable_all opts reg c (run_events_wf opts reg evs _ (start_wf opts reg mode))
      Hco Hclean) as Hnil.
    assert (serving opts reg mode bodies tail (enqueued evs) [] [] (NotifyReadable (resume opts reg) c)) as Hs'.
    { apply ResumeReader_serving; try done. by eapply serving_control. }
    set (c' := NotifyReadable _ c) in *. clearbody c'.
    destruct Hs' as (log & todo & E1 & E2 & A & _ & Hv & E3 & _). rewrite Hnil in E3. simpl in E3.
    rewrite !app_nil_r in *. exists log. rewrite E2.
    assert (todo = []) as ->.
    { destruct todo as [|b todo]; [done|]. rewrite E3 in Hv. cbn [map concat] in Hv.
      rewrite <- app_assoc in Hv. unfold frame_of at 1 in Hv.
      rewrite <- app_assoc, view_frame_frame in Hv; [done|].
      rewrite E1 in Hf. by apply Forall_app in Hf as [_ [Hf _]%Forall_cons]. }
    rewrite app_nil_r in E1. rewrite E1. split; [done|]. split; [done|]. split; [apply A|].
    split; [apply A|exact E3].
Qed.

(** A connection whose peer is silent until the read deadline is dead
    before it is closed: [Tick] ends its coroutine with the error "read
    timeout", and whatever happens afterwards - requests that arrive, responses
    of slow handlers that the worker enqueues, further events - nothing more is
    read, handed to the pool or sent; a readable event overwrites the error
    state with [kReading]. *)
Theorem timed_out_connection_is_deaf (opts : Options) (reg : registry)
    `{ProtoMessage RpcRequest} `{ProtoMessage RpcResponse} (c : Connection) (d now : Z)
    (evs : list event) :
  co_wf c -> co c = CoReading -> state_ c = kReading ->
  read_deadline_ c = Some d -> (d <= now)%Z ->
  let c1 := Tick (resume opts reg) now c in
  let c2 := run_events opts reg c1 evs in
  co c1 = CoDone /\ state_ c1 = kError /\ last_error_ c1 = "read timeout" /\
  ShouldClose c1 = true /\ state_ (NotifyReadable (resume opts reg) c1) = kReading /\
  recv_script c2 = recv_script c ++ recv_events evs /\ wire c2 = wire c /\
  dispatched c2 = dispatched c /\ co c2 = CoDone.
Proof.
  intros Hw Hco Hst Hd Hle. cbv zeta.
  pose proof (Tick_read_timeout opts reg now d c Hw Hco Hst Hd Hle) as (E1 & E2 & E3 & E4 & Hf).
  set (c1 := Tick (resume opts reg) now c) in *. clearbody c1.
  pose proof (run_events_ended opts reg evs _ _ _ Hf) as (F1 & _ & F2 & F3 & F4).
  repeat (split; [done|]). split; [apply NotifyReadable_idle_state, Hf|].
  by rewrite F1, F2, F3, F4.
Qed.

(** The end of the peer's stream discards what was read before it: when
    [recv] reports it in the same readable event, no request of the buffer is
    handled, complete or not - nothing is handed to the pool, nothing is
    queued - and the coroutine ends without an error. *)
Theorem peer_close_discards_requests (opts : Options) (reg : registry)
    `{ProtoMessage RpcRequest} `{ProtoMessage RpcResponse} (c : Connection)
    (datas : list bytes) (rest : list recv_event) :
  co_wf c -> co c = CoReading -> Forall (fun d => d <> []) datas -> buffer_wf (read_buffer_ c) ->
  recv_script c = map RecvBytes datas ++ RecvBytes [] :: rest ->
  let c' := apply_event opts reg c EvReadable in
  contents (read_buffer_ c') = contents (read_buffer_ c) ++ concat datas /\
  dispatched c' = dispatched c /\ write_buffer_ c' = write_buffer_ c /\ wire c' = wire c /\
  co c' = CoDone /\ coroutine_ok c' = coroutine_ok c /\ state_ c' = kClosing.
Proof.
  intros Hw Hco Hds Hb Hrs. unfold co_wf in Hw. rewrite Hco in Hw. destruct Hw as (Hr & Hwr & Hs).
  cbv zeta. cbn [apply_event]. rewrite NotifyReadable_runs by done. set (c0 := set_co CoRunning _).
  assert (contents (read_buffer_ c0) = contents (read_buffer_ c) /\ dispatched c0 = dispatched c /\
    write_buffer_ c0 = write_buffer_ c /\ wire c0 = wire c /\ coroutine_ok c0 = coroutine_ok c /\
    should_close_ c0 = false /\ buffer_wf (read_buffer_ c0) /\ recv_script c0 = recv_script c)
    as (<- & <- & <- & <- & <- & Hs0 & Hb0 & Hrs0) by done.
  rewrite <- Hrs0 in Hrs. clearbody c0. clear Hr Hwr Hs Hb Hco Hrs0 c.
  destruct (OnReadable_closed opts reg (co_run opts reg 9)
    (ClearReadDeadline (set_read_ready false c0)) datas rest
    (Some (coroutine_error (ClearReadDeadline (set_read_ready false c0)))) Hds Hb0 Hrs) as (b & E & Eb).
  rewrite (co_step_read_closed _ _ _ _ _ _ _ Hs0 E) by done.
  split; [exact Eb|]. done.
Qed.

(** ** Witnesses *)

Definition w_registry : registry := {[ "Calc.Add" := fun p => HReturn (p +:+ "!") ]}.

Definition w_call (id : string) : bytes :=
  encode_request {| rq_request_id := id; rq_service_name := "Calc"; rq_method_name := "Add";
                    rq_payload := "12" |}.

Definition w_reply : RpcResponse :=
  {| rs_request_id := "9"; rs_error_code := 0; rs_error_msg := ""; rs_payload := "late" |}.

Definition w_stream : bytes := frame_of (w_call "1") ++ frame_of (w_call "2") ++ [x00].

(** The stream in two pieces, a response enqueued in between, and a send that
    takes only part of a frame. *)
Definition w_events : list event :=
  [EvKernel 10 [RecvBytes (take 30 w_stream); RecvErr EINTR] [] []; EvReadable;
   EvEnqueue w_reply; EvKernel 20 [RecvBytes (drop 30 w_stream)] [SendOk 3] []; EvWritable;
   EvKernel 30 [] [SendOk 99; SendOk 99; SendOk 99] []; EvWritable].

Lemma connection_output_is_frames_witness :
  let c := run_events Options_default w_registry
             (start Options_default w_registry (make_connection false)) w_events in
  length (wire c) > 0 /\ exists bodies, Forall fits bodies /\
    wire c ++ unsent c = concat (map frame_of bodies).
Proof.
  split; [vm_compute; lia|].
  apply (connection_output_is_frames Options_default w_registry false w_events). cbn. lia.
Defined.

Lemma w_sendable r b : encode_response r = b -> b <> [] -> length b < 100 -> sendable r.
Proof.
  intros E Hn Hl. exists b. split; [cbn; by rewrite E|]. split; [|cbn; by rewrite E].
  unfold fits, kMaxFrameSize. destruct b; [done|]. simpl in *. lia.
Qed.

Lemma server_answers_in_order_witness : exists log,
  let c := run_events Options_default w_registry
             (start Options_default w_registry (make_connection false)) w_events in
  bodies_of log = [w_call "1"; w_call "2"] /\ replies_of log = [w_reply] /\
  wire (apply_event Options_default w_registry c EvReadable) ++
    unsent (apply_event Options_default w_registry c EvReadable) = sent w_registry false log.
Proof.
  destruct (server_answers_in_order Options_default w_registry false [w_call "1"; w_call "2"]
    [x00] w_events) as [_ H].
  - repeat constructor; vm_compute; congruence.
  - reflexivity.
  - repeat constructor; (eapply w_sendable; [vm_compute; reflexivity|done|simpl; lia]).
  - vm_compute. congruence.
  - vm_compute. reflexivity.
  - cbn [calm_run w_events calm]. repeat split; try (repeat constructor; fail).
    eapply w_sendable; [vm_compute; reflexivity|done|simpl; lia].
  - destruct H as (log & H1 & H2 & H3 & _).
    + vm_compute. reflexivity.
    + vm_compute. repeat constructor.
    + exists log. split; [exact H1|]. split; [exact H2|exact H3].
Defined.

Lemma timed_out_connection_is_deaf_witness :
  let c := start Options_default w_registry (make_connection true) in
  let c2 := run_events Options_default w_registry (Tick (resume Options_default w_registry) 5000 c)
              [EvKernel 6000 [RecvBytes (frame_of (w_call "1"))] [] []; EvReadable] in
  recv_script c2 = [RecvBytes (frame_of (w_call "1"))] /\ dispatched c2 = [] /\ wire c2 = [].
Proof.
  destruct (timed_out_connection_is_deaf Options_default w_registry
    (start Options_default w_registry (make_connection true)) 5000 5000
    [EvKernel 6000 [RecvBytes (frame_of (w_call "1"))] [] []; EvReadable])
    as (_ & _ & _ & _ & _ & H1 & H2 & H3 & _).
  - apply start_wf.
  - vm_compute. reflexivity.
  - vm_compute. reflexivity.
  - vm_compute. reflexivity.
  - lia.
  - split; [|split]; [rewrite H1|rewrite H3|rewrite H2]; vm_compute; reflexivity.
Defined.

Lemma peer_close_discards_requests_witness :
  let c := run_events Options_default w_registry
             (start Options_default w_registry (make_connection true))
             [EvKernel 1 [RecvBytes (frame_of (w_call "1")); RecvBytes []] [] []] in
  dispatched (apply_event Options_default w_registry c EvReadable) = [].
Proof.
  destruct (peer_close_discards_requests Options_default w_registry
    (run_events Options_default w_registry
       (start Options_default w_registry (make_connection true))
       [EvKernel 1 [RecvBytes (frame_of (w_call "1")); RecvBytes []] [] []])
    [frame_of (w_call "1")] []) as (_ & H & _).
  - apply run_events_wf, start_wf.
  - vm_compute. reflexivity.
  - repeat constructor. vm_compute. congruence.
  - split; vm_compute; lia.
  - vm_compute. reflexivity.
  - cbv zeta. rewrite H. vm_compute. reflexivity.
Defined.
