(* ===== verification/ConnHistory.v ===== *)
(** * What a connection has done, whatever has happened to it

    Connection.v describes connections that do not fail exactly.  Here the peer may leave or
    send anything, the socket may fail, deadlines may pass, the pool may refuse and the
    connection may be closed, all at any time: what has been taken off the stream are the
    first of its frames, what has gone out are answers to them. *)

From Stdlib Require Import ZArith Lia.
From S2P Require Import Prelude RpcError Posix Codec Frames ServiceRegistry ConnBuffer Connection.

Local Open Scope string_scope.
Local Open Scope list_scope.

Section history.
Context (opts : Options) (reg : registry).
Context `{ProtoMessage RpcRequest} `{ProtoMessage RpcResponse}.

(** The body of a response, and a request as it was handed over. *)
Definition framed (b : bytes) (r : RpcResponse) : Prop := SerializeToArray r = Some b /\ fits b.

Definition hands (d : DispatchRequest) (rq : RpcRequest) : Prop :=
  exists seq, d = to_dispatch seq rq.

(** From [c] to [c'] the bodies were taken off the stream and dealt with, completely and in
    order. *)
Record dealt (mode : bool) (c : Connection) (bodies : list bytes) (c' : Connection) : Prop := {
  de_fits : Forall fits bodies;
  de_in : contents (read_buffer_ c) ++ script_bytes (recv_script c) =
          concat (map frame_of bodies) ++ contents (read_buffer_ c') ++ script_bytes (recv_script c');
  de_out : exists outs, Forall2 framed outs (omap (reply reg mode) bodies) /\
             output c' = output c ++ concat (map frame_of outs);
  de_pool : exists ds, Forall2 hands ds (omap (request_for_pool mode) bodies) /\
              dispatched c' = dispatched c ++ ds;
}.

Definition well_kept (mode : bool) (c : Connection) : Prop :=
  buffer_wf (read_buffer_ c) /\ writes_ok opts c /\ request_dispatcher_ c = mode.

Definition tracks (c c' : Connection) : Prop :=
  forall mode, well_kept mode c -> well_kept mode c' /\ exists bodies, dealt mode c bodies c'.

Lemma dealt_none mode c c' :
  contents (read_buffer_ c) ++ script_bytes (recv_script c) =
    contents (read_buffer_ c') ++ script_bytes (recv_script c') ->
  output c' = output c -> dispatched c' = dispatched c -> dealt mode c [] c'.
Proof.
  intros Ei Eo Ed. split; [done|done|exists []|exists []]; split; try constructor;
    by rewrite ?Eo, ?Ed, app_nil_r.
Qed.

Lemma dealt_trans mode c1 c2 c3 b1 b2 :
  dealt mode c1 b1 c2 -> dealt mode c2 b2 c3 -> dealt mode c1 (b1 ++ b2) c3.
Proof.
  intros [F1 I1 (o1 & Q1 & O1) (d1 & P1 & D1)] [F2 I2 (o2 & Q2 & O2) (d2 & P2 & D2)]. split.
  - by apply Forall_app.
  - by rewrite I1, I2, map_app, concat_app, <- app_assoc.
  - exists (o1 ++ o2). rewrite omap_app, O2, O1, map_app, concat_app, app_assoc.
    split; [by apply Forall2_app|done].
  - exists (d1 ++ d2). rewrite omap_app, D2, D1, app_assoc. split; [by apply Forall2_app|done].
Qed.

Lemma tracks_refl c : tracks c c.
Proof. intros mode Hc. split; [done|]. exists []. by apply dealt_none. Qed.

Lemma tracks_trans c1 c2 c3 : tracks c1 c2 -> tracks c2 c3 -> tracks c1 c3.
Proof.
  intros T1 T2 mode K1. destruct (T1 mode K1) as [K2 [b1 D1]]. destruct (T2 mode K2) as [K3 [b2 D2]].
  split; [done|]. exists (b1 ++ b2). by eapply dealt_trans.
Qed.

(** Changes that leave the traffic alone. *)
Lemma tracks_control c c' : traffic c' = traffic c -> tracks c c'.
Proof.
  unfold traffic. intros E. injection E as E1 E2 E3 E4 E5 E6 E7 E8 E9 E10.
  intros mode (Hb & [W1 W2 W3] & Hm).
  assert (unsent c' = unsent c) as Eu by (unfold unsent; by rewrite E2).
  split.
  - split; [by rewrite E1|]. split; [|congruence]. split; rewrite ?E2, ?E3, ?Eu; done.
  - exists []. apply dealt_none; [by rewrite E1, E5| |done]. unfold output. by rewrite Eu, E4.
Qed.

Lemma ReadFromSocket_tracks : forall c e, tracks c (snd (fst (ReadFromSocket c e))).
Proof.
  #[local] Transparent ReadFromSocket_loop.
  unfold ReadFromSocket.
  assert (forall c s, script_bytes s = script_bytes (recv_script c) -> tracks c (set_recv_script s c)) as Hs.
  { intros c s Es mode (Hb & [] & Hm). split; [split; [done|split; [by split|done]]|]. exists [].
    apply dealt_none; [|done..]. cbn [recv_script set_recv_script read_buffer_]. by rewrite Es. }
  enough (forall s c e, tracks (set_recv_script s c) (snd (fst (ReadFromSocket_loop s c e)))) as Hall.
  { intros c e. specialize (Hall (recv_script c) c e). by destruct c. }
  assert (forall s c, tracks (set_recv_script s c) (set_recv_script s c)) as Hr by (intros; apply tracks_refl).
  induction s as [|ev s IH]; intros c e; cbn [ReadFromSocket_loop]; [apply Hr|].
  destruct ev as [[|b bs]|en].
  - by apply (Hs (set_recv_script (RecvBytes [] :: s) c)).
  - eapply tracks_trans; [|apply IH].
    intros mode (Hb & [] & Hm). cbn [read_buffer_ set_recv_script] in Hb.
    destruct (append_spec (read_buffer_ c) (b :: bs) Hb) as [Hb2 Hc2].
    split; [split; [done|split; [by split|done]]|]. exists []. apply dealt_none; [|done..].
    cbn [recv_script set_recv_script read_buffer_ set_read_buffer script_bytes].
    by rewrite Hc2, <- app_assoc.
  - destruct (decide _); [eapply tracks_trans; [|apply IH]|destruct (decide _)];
      by apply (Hs (set_recv_script (RecvErr en :: s) c)).
  #[local] Opaque ReadFromSocket_loop.
Qed.

Lemma FlushWrites_tracks c e : tracks c (snd (fst (FlushWrites c e))).
Proof.
  intros mode (Hb & Hw & Hm). unfold FlushWrites.
  destruct (FlushWrites_emits opts (send_script c) c e Hw) as [Hw' Ho].
  assert (read_buffer_ (snd (fst (FlushWrites_loop (send_script c) c e))) = read_buffer_ c /\
    request_dispatcher_ (snd (fst (FlushWrites_loop (send_script c) c e))) = request_dispatcher_ c /\
    dispatched (snd (fst (FlushWrites_loop (send_script c) c e))) = dispatched c) as (E1 & E2 & E3).
  { clear. generalize (send_script c) as s. intros s. revert c e.
    #[local] Transparent FlushWrites_loop.
    induction s as [|ev s IH]; intros c e; cbn [FlushWrites_loop];
      destruct (write_buffer_ c) as [|chunk rest]; try done. destruct ev as [n|en].
    - rewrite !(proj1 (IH _ e)), !(proj1 (proj2 (IH _ e))), !(proj2 (proj2 (IH _ e))). done.
    - destruct (decide _); [apply IH|]. by destruct (decide _).
    #[local] Opaque FlushWrites_loop. }
  split; [split; [by rewrite E1|split; [done|congruence]]|]. exists [].
  apply dealt_none; [|done..]. by rewrite E1, FlushWrites_recv.
Qed.

(** What a response that is enqueued leaves alone. *)
Definition reading (c : Connection) :=
  (read_buffer_ c, recv_script c, dispatched c, request_dispatcher_ c).

Lemma EnqueueResponse_cases c r e :
  match EnqueueResponse opts c r e with
  | (true, c', _) => exists b, framed b r /\ (writes_ok opts c -> writes_ok opts c') /\
      output c' = output c ++ frame_of b /\ reading c' = reading c
  | (false, c', _) => c' = c
  end.
Proof.
  unfold EnqueueResponse. pose proof (QueueResponse_spec opts c r e) as Hq.
  assert (reading (snd (fst (QueueResponse opts c r e))) = reading c) as Hr.
  { unfold QueueResponse. by repeat (split_match; simplify_eq/=). }
  destruct (QueueResponse opts c r e) as [[[] c'] e']; [|done]. cbn [fst snd] in Hr.
  destruct Hq as (b & Es & Hf & Hw & E1 & E2). exists b. split; [done|]. split.
  - intros Hc. destruct (Hw Hc). by split.
  - split; [|exact Hr]. change (output (ArmWriteDeadline opts c')) with (output c').
    unfold output. by rewrite E1, E2, app_assoc.
Qed.

Lemma well_kept_reading mode c c' :
  well_kept mode c -> (writes_ok opts c -> writes_ok opts c') -> reading c' = reading c -> well_kept mode c'.
Proof.
  intros (Hb & Hw & Hm) Hw' E. unfold reading in E. injection E as E1 _ _ E2.
  split; [by rewrite E1|]. split; [auto|congruence].
Qed.

(** A body: dealt with, or nothing has been done. *)
Lemma handle_body_cases mode c b e :
  well_kept mode c ->
  match handle_body opts reg c b e with
  | (true, c', _) => well_kept mode c' /\ read_buffer_ c' = read_buffer_ c /\
      recv_script c' = recv_script c /\
      (exists outs, Forall2 framed outs (omap (reply reg mode) [b]) /\
         output c' = output c ++ concat (map frame_of outs)) /\
      (exists ds, Forall2 hands ds (omap (request_for_pool mode) [b]) /\
         dispatched c' = dispatched c ++ ds)
  | (false, c', _) => well_kept mode c' /\ dealt mode c [] c'
  end.
Proof.
  intros Hc. pose proof Hc as (_ & _ & Hm).
  assert (forall r, omap (reply reg mode) [b] = [r] -> omap (request_for_pool mode) [b] = [] ->
    match EnqueueResponse opts c r e with
    | (true, c', _) => well_kept mode c' /\ read_buffer_ c' = read_buffer_ c /\
        recv_script c' = recv_script c /\
        (exists outs, Forall2 framed outs (omap (reply reg mode) [b]) /\
           output c' = output c ++ concat (map frame_of outs)) /\
        (exists ds, Forall2 hands ds (omap (request_for_pool mode) [b]) /\
           dispatched c' = dispatched c ++ ds)
    | (false, c', _) => well_kept mode c' /\ dealt mode c [] c'
    end) as Henq.
  { intros r E1 E2. rewrite E1, E2. pose proof (EnqueueResponse_cases c r e) as He.
    destruct (EnqueueResponse opts c r e) as [[[] c'] e'].
    - destruct He as (body & Hf & Hw & Ho & Hr). clear E1 E2.
      split; [by eapply well_kept_reading|]. unfold reading in Hr. injection Hr as R1 R2 R3 _.
      split; [done|]. split; [done|]. split.
      + exists [body]. split; [constructor; [done|constructor]|]. cbn. by rewrite app_nil_r.
      + exists []. split; [constructor|]. by rewrite app_nil_r.
    - subst c'. split; [done|]. by apply dealt_none. }
  unfold handle_body. cbn [omap list_omap] in Henq |- *. unfold reply, request_for_pool in Henq |- *.
  destruct (ParseFromArray b) as [rq|]; [|by apply Henq].
  destruct (String.eqb (rq_service_name rq) heartbeat_service); [by apply Henq|].
  rewrite Hm. destruct mode; cbn [negb andb] in *; [|by apply Henq]. clear Henq.
  unfold dispatch. cbn [submit_script set_next_request_sequence].
  destruct Hc as (Hb & [] & _). destruct (submit_script c) as [|[] rest].
  3: { split; [split; [done|by split; [split|]]|by apply dealt_none]. }
  all: (split; [split; [done|by split; [split|]]|]); (split; [done|]); (split; [done|]);
    (split; [exists []; split; [constructor|by rewrite app_nil_r]|]);
    eexists [_]; split; [constructor; [by eexists|constructor]|done].
Qed.

Lemma TryParseRequests_tracks fuel : forall c e,
  tracks c (snd (fst (TryParseRequests_loop opts reg fuel c e))).
Proof.
  induction fuel as [|fuel IH]; intros c e; [apply tracks_refl|].
  intros mode Hc. rewrite TryParseRequests_view by apply Hc.
  destruct (view_frame (contents (read_buffer_ c))) as [| |body rest] eqn:Ev; [by apply tracks_refl..|].
  pose proof (handle_body_cases mode c body e Hc) as Hb.
  destruct (handle_body opts reg c body e) as [[[] c1] e1]; [|destruct Hb; eauto].
  destruct Hb as (K1 & B1 & R1 & O1 & D1). pose proof (view_frame_inv _ _ _ Ev) as [Hf Er].
  pose proof Hc as (Hwf & _). pose proof K1 as (_ & [] & Hm).
  destruct (retrieve_spec (read_buffer_ c) (kFrameHeaderBytes + length body) Hwf) as [Hwf2 Hcont].
  { rewrite <- (length_buffer_contents _ Hwf), Er. unfold frame_of. rewrite !length_app. simpl. lia. }
  set (c2 := set_read_buffer (retrieve (read_buffer_ c) (kFrameHeaderBytes + length body)) c1).
  assert (well_kept mode c2) as K2 by (split; [done|split; [by split|done]]).
  destruct (IH c2 e1 mode K2) as [K3 [bodies D3]]. split; [done|]. exists (body :: bodies).
  apply (dealt_trans mode c c2 _ [body] bodies); [|done]. split; [by constructor| |done|done].
  cbn [c2 read_buffer_ set_read_buffer recv_script map concat]. rewrite Hcont, R1, Er, app_nil_r.
  assert (kFrameHeaderBytes + length body = length (frame_of body)) as -> by done.
  by rewrite drop_app_length, <- app_assoc.
Qed.

Lemma tracks_respected : respected opts reg tracks.
Proof.
  split.
  - split; [exact tracks_refl|exact tracks_trans].
  - exact tracks_control.
  - exact ReadFromSocket_tracks.
  - intros c e. apply TryParseRequests_tracks.
  - exact FlushWrites_tracks.
Qed.

(** ** The whole life of a connection *)

(** What a connection has done that has been given [input] and the results [replies]: the
    bodies that were taken off the stream and the responses that were queued for sending. *)
Record life (mode : bool) (input : bytes) (c : Connection) (bodies : list bytes)
    (responses replies : list RpcResponse) : Prop := {
  lf_kept : well_kept mode c;
  lf_fits : Forall fits bodies;
  lf_in : input = concat (map frame_of bodies) ++ contents (read_buffer_ c) ++
                  script_bytes (recv_script c);
  lf_out : exists outs, Forall2 framed outs responses /\ output c = concat (map frame_of outs);
  lf_responses : responses ≡ₚ omap (reply reg mode) bodies ++ replies;
  lf_pool : Forall2 hands (dispatched c) (omap (request_for_pool mode) bodies);
}.

Lemma life_dealt mode input c c' bodies rs replies more :
  life mode input c bodies rs replies -> well_kept mode c' -> dealt mode c more c' ->
  life mode input c' (bodies ++ more) (rs ++ omap (reply reg mode) more) replies.
Proof.
  intros [_ F I (os & Q & O) R D] K [F' I' (os' & Q' & O') (ds & P' & D')]. split.
  - done.
  - by apply Forall_app.
  - by rewrite I, I', map_app, concat_app, <- app_assoc.
  - exists (os ++ os'). split; [by apply Forall2_app|]. by rewrite O', O, map_app, concat_app.
  - rewrite R, omap_app, <- !app_assoc. by rewrite (Permutation_app_comm replies).
  - rewrite D', omap_app. by apply Forall2_app.
Qed.

Lemma life_tracks mode input c c' bodies rs replies :
  life mode input c bodies rs replies -> tracks c c' ->
  exists bodies' rs', life mode input c' bodies' rs' replies.
Proof.
  intros Hl Ht. destruct (Ht mode (lf_kept _ _ _ _ _ _ Hl)) as [K [more D]].
  do 2 eexists. by eapply life_dealt.
Qed.

(** A result: queued, or the connection is as it was. *)
Lemma life_enqueue mode input c bodies rs replies r :
  life mode input c bodies rs replies ->
  match EnqueueResponse opts c r (Some "") with
  | (true, c', _) => life mode input c' bodies (rs ++ [r]) (replies ++ [r])
  | (false, c', _) => c' = c
  end.
Proof.
  intros [K F I (os & Q & O) R D]. pose proof (EnqueueResponse_cases c r (Some "")) as He.
  destruct (EnqueueResponse opts c r (Some "")) as [[[] c'] e']; [|done].
  destruct He as (b & Hf & Hw & Ho & Hr). pose proof (well_kept_reading mode c c' K Hw Hr) as K'.
  unfold reading in Hr. injection Hr as R1 R2 R3 _.
  split; rewrite ?R1, ?R2, ?R3; try done.
  - exists (os ++ [b]). split; [by apply Forall2_app; [|constructor; [|constructor]]|].
    rewrite Ho, O, map_app, concat_app. simpl. by rewrite app_nil_r.
  - by rewrite R, <- app_assoc.
Qed.

Lemma life_kernel mode input c bodies rs replies clk recv send subs :
  life mode input c bodies rs replies ->
  life mode (input ++ script_bytes recv)
    (apply_event opts reg c (EvKernel clk recv send subs)) bodies rs replies.
Proof.
  intros [(B & [W1 W2 W3] & M) F I O R D]. split; [|done| |done|done|done].
  - split; [done|split; [by split|done]].
  - rewrite I. cbn. by rewrite script_bytes_app, <- !app_assoc.
Qed.

Context (Hmax : (0 <= max_write_buffer_bytes opts)%Z).

Lemma life_start mode now : exists bodies rs,
  life mode [] (start opts reg (set_clock now (make_connection mode))) bodies rs [].
Proof.
  pose proof (make_buffer_spec 8192) as [Hb Hc].
  apply (life_tracks mode [] (set_clock now (make_connection mode)) _ [] []).
  - assert (contents (read_buffer_ (make_connection mode)) = []) as Hn by exact Hc.
    split; cbn [set_clock read_buffer_ recv_script dispatched]; rewrite ?Hn;
      [split; [exact Hb|split; [split; [constructor|done|done]|done]]|constructor|done| |done|constructor].
    exists []. split; [constructor|done].
  - exact (co_run_respects opts reg tracks tracks_respected co_fuel EnTop _).
Qed.

(** After the events [evs]; the results may have been refused. *)
Definition history (mode : bool) (evs : list event) (c : Connection) (bodies : list bytes)
    (responses replies : list RpcResponse) : Prop :=
  life mode (received evs) c bodies responses replies /\ replies `sublist_of` enqueued evs.

Lemma run_history mode evs : exists bodies rs replies,
  history mode evs (run_events opts reg (start opts reg (make_connection mode)) evs) bodies rs replies.
Proof.
  induction evs as [|ev evs IH] using rev_ind.
  { destruct (life_start mode (clock (make_connection mode))) as (bodies & rs & Hl). by exists bodies, rs, []. }
  destruct IH as (bodies & rs & replies & Hl & Hs). unfold run_events. rewrite fold_left_app. cbn [fold_left].
  fold (run_events opts reg (start opts reg (make_connection mode)) evs).
  set (c := run_events _ _ _ evs) in *. clearbody c. unfold history.
  assert (received (evs ++ [ev]) = received evs ++ received [ev]) as ->
    by (unfold received; by rewrite map_app, concat_app).
  assert (enqueued (evs ++ [ev]) = enqueued evs ++ enqueued [ev]) as -> by apply omap_app.
  destruct ev as [| | | |r|clk recv send subs]; cbn [received enqueued map concat omap list_omap];
    rewrite ?app_nil_r.
  5: { pose proof (life_enqueue _ _ _ _ _ _ r Hl) as He. cbn [apply_event].
    destruct (EnqueueResponse _ _ _ _) as [[[] c'] e']; cbn [fst snd].
    - do 3 eexists. split; [exact He|by apply sublist_app].
    - subst c'. do 3 eexists. split; [exact Hl|by apply sublist_inserts_r]. }
  5: { do 3 eexists. split; [by apply life_kernel|exact Hs]. }
  all: match goal with |- context [apply_event opts reg ?c ?ev] =>
    destruct (life_tracks _ _ _ _ _ _ _ Hl (apply_event_respects opts reg tracks tracks_respected c ev I))
      as (bodies' & rs' & Hl') end; by exists bodies', rs', replies.
Qed.

End history.
