(* ===== verification/ConnectionServe.v ===== *)
(** * A connection that serves its peer by itself

    [Connection::Serve] (server/connection.cpp) runs a connection without a worker
    loop: it makes the socket non-blocking and then reads, handles and writes in a
    loop until the peer closes or something fails.  The loop never waits - it polls
    the socket - so a run is a list of rounds, each with what the kernel has for it.
    [Owner] is the part of a connection that ties it to the thread of its worker. *)

From Stdlib Require Import ZArith Lia.
From S2P Require Import Prelude RpcError Posix Codec Frames ServiceRegistry Proto3 ConnBuffer Connection.

Local Open Scope string_scope.
Local Open Scope list_scope.

(** ** The owner of a connection *)

Module Owner.

(** [None] is [std::thread::id{}]. *)
Record t := { owner_worker_id_ : option nat; owner_thread_id_ : option nat }.

Definition make : t := {| owner_worker_id_ := None; owner_thread_id_ := None |}.

Definition BindToWorkerLoop (worker_id this_thread : nat) (o : t) : t :=
  {| owner_worker_id_ := Some worker_id; owner_thread_id_ := Some this_thread |}.

Definition IsBoundToWorkerLoop (o : t) : bool := bool_decide (is_Some (owner_worker_id_ o)).

Definition OwnerWorkerId (o : t) : option nat := owner_worker_id_ o.

Definition IsOnOwnerThread (this_thread : nat) (o : t) : bool :=
  match owner_thread_id_ o with
  | None => true
  | Some owner => Nat.eqb owner this_thread
  end.

(** [false]: the process is aborted; in a release build the check is left out. *)
Definition AssertOwnerThread (debug : bool) (this_thread : nat) (o : t) : bool :=
  negb debug || IsOnOwnerThread this_thread o.

End Owner.

(** ** The loop *)



Section serve.
Context (opts : Options) (reg : registry).
Context `{ProtoMessage RpcRequest} `{ProtoMessage RpcResponse}.





End serve.

(** ** Lemmas *)

Section rounds.
Context (opts : Options) (reg : registry).
Context `{ProtoMessage RpcRequest} `{ProtoMessage RpcResponse}.






Section smooth.
Context (mode : bool) (bodies : list bytes) (tail : bytes).
Context (Hfits : Forall fits bodies) (Htail : view_frame tail = FIncomplete).
Context (Hansw : Forall (answerable reg mode) bodies).
Context (Hmax : (Z.of_nat (length (answers reg mode bodies)) <= max_write_buffer_bytes opts)%Z).

Abbreviation in_step future := (serving opts reg mode bodies tail [] future []).



End smooth.

End rounds.

(** ** Properties *)



