(* ===== verification/WorkerLoop.v ===== *)
(** * A worker of the server (server/worker_loop.h, server/worker_loop.cpp)

    A worker owns an epoll set and the connections the acceptor hands to it; its
    loop drains the hand-over queue and the completions of the thread pool,
    checks the deadlines and passes the I/O events on.  The state of the model
    is that of [WorkerLoop] together with the kernel's side of its epoll
    instance ([interest], [ctl_script], [wake_count]), the tasks it has put into
    the thread pool ([tasks]) and what became of their results ([delivered],
    with the token of the connection that got it, and [discarded]), the descriptors it has
    closed, the connections it has closed as they were at the end ([gone]), and whether a
    wait for a coroutine would have blocked.  A call on a connection is a function on
    [Connection]; the requests it hands to the pool on the way are picked up by
    [on_connection].  Counters of requests and connections are natural numbers;
    connection tokens are 64-bit. *)

From Stdlib Require Import ZArith Lia.
From S2P Require Import Prelude RpcError Posix Codec Frames ServiceRegistry Proto3 ConnBuffer.
From S2P Require Import Connection.

Local Open Scope string_scope.
Local Open Scope list_scope.
Local Open Scope nat_scope.

(** ** Data *)

#[export] Instance co_point_eq_dec : EqDecision co_point.
Proof. solve_decision. Defined.

(** [ConnectionState]: the coroutine and its outcome are part of
    [Connection]. *)
Record ConnectionState := {
  connection : Connection;
  connection_token : Z;
}.

Record CompletedQueue := {
  responses : list CompletedResponse;
  accepting : bool;
  cq_wake_fd : Z;
}.

(** What the closure of [DispatchRequestToThreadPool] captures. *)
Record Task := {
  task_fd : Z;
  task_token : Z;
  task_request : DispatchRequest;
}.

(** The flags of an epoll event; [ev_close] is any of [EPOLLERR], [EPOLLHUP]
    and [EPOLLRDHUP]. *)
Record epoll_flags := { ev_in : bool; ev_out : bool; ev_close : bool }.

Record WorkerLoop := {
  thread_pool_ : bool;
  epoll_fd_ : UniqueFd.t;
  wake_fd_ : UniqueFd.t;
  wake_count : nat;
  interest : gmap Z bool;
  ctl_script : list (option errno);
  completed_queue_ : option CompletedQueue;
  connections_ : gmap Z ConnectionState;
  pending_connections_ : list (Z * string);
  stop_requested_ : bool;
  accepting_new_connections_ : bool;
  connection_count_ : nat;
  total_accepted_count_ : nat;
  in_flight_request_count_ : nat;
  submitted_request_count_ : nat;
  completed_request_count_ : nat;
  next_connection_token_ : Z;
  method_stats_ : method_stats;
  thread_started : bool;
  owner_thread_id_ : option nat;
  tasks : list Task;
  delivered : list (Z * CompletedResponse);
  discarded : list CompletedResponse;
  closed : list Z;
  blocked : bool;
  gone : list (Z * Connection);
}.

Definition set_thread_pool (v : bool) (w : WorkerLoop) : WorkerLoop :=
  {| thread_pool_ := v; epoll_fd_ := epoll_fd_ w; wake_fd_ := wake_fd_ w;
     wake_count := wake_count w; interest := interest w; ctl_script := ctl_script w;
     completed_queue_ := completed_queue_ w; connections_ := connections_ w;
     pending_connections_ := pending_connections_ w; stop_requested_ := stop_requested_ w;
     accepting_new_connections_ := accepting_new_connections_ w;
     connection_count_ := connection_count_ w;
     total_accepted_count_ := total_accepted_count_ w;
     in_flight_request_count_ := in_flight_request_count_ w;
     submitted_request_count_ := submitted_request_count_ w;
     completed_request_count_ := completed_request_count_ w;
     next_connection_token_ := next_connection_token_ w; method_stats_ := method_stats_ w;
     thread_started := thread_started w; owner_thread_id_ := owner_thread_id_ w;
     tasks := tasks w; delivered := delivered w; discarded := discarded w; closed := closed w;
     blocked := blocked w; gone := gone w |}.

Definition set_epoll_fd (v : UniqueFd.t) (w : WorkerLoop) : WorkerLoop :=
  {| thread_pool_ := thread_pool_ w; epoll_fd_ := v; wake_fd_ := wake_fd_ w;
     wake_count := wake_count w; interest := interest w; ctl_script := ctl_script w;
     completed_queue_ := completed_queue_ w; connections_ := connections_ w;
     pending_connections_ := pending_connections_ w; stop_requested_ := stop_requested_ w;
     accepting_new_connections_ := accepting_new_connections_ w;
     connection_count_ := connection_count_ w;
     total_accepted_count_ := total_accepted_count_ w;
     in_flight_request_count_ := in_flight_request_count_ w;
     submitted_request_count_ := submitted_request_count_ w;
     completed_request_count_ := completed_request_count_ w;
     next_connection_token_ := next_connection_token_ w; method_stats_ := method_stats_ w;
     thread_started := thread_started w; owner_thread_id_ := owner_thread_id_ w;
     tasks := tasks w; delivered := delivered w; discarded := discarded w; closed := closed w;
     blocked := blocked w; gone := gone w |}.

Definition set_wake_fd (v : UniqueFd.t) (w : WorkerLoop) : WorkerLoop :=
  {| thread_pool_ := thread_pool_ w; epoll_fd_ := epoll_fd_ w; wake_fd_ := v;
     wake_count := wake_count w; interest := interest w; ctl_script := ctl_script w;
     completed_queue_ := completed_queue_ w; connections_ := connections_ w;
     pending_connections_ := pending_connections_ w; stop_requested_ := stop_requested_ w;
     accepting_new_connections_ := accepting_new_connections_ w;
     connection_count_ := connection_count_ w;
     total_accepted_count_ := total_accepted_count_ w;
     in_flight_request_count_ := in_flight_request_count_ w;
     submitted_request_count_ := submitted_request_count_ w;
     completed_request_count_ := completed_request_count_ w;
     next_connection_token_ := next_connection_token_ w; method_stats_ := method_stats_ w;
     thread_started := thread_started w; owner_thread_id_ := owner_thread_id_ w;
     tasks := tasks w; delivered := delivered w; discarded := discarded w; closed := closed w;
     blocked := blocked w; gone := gone w |}.

Definition set_wake_count (v : nat) (w : WorkerLoop) : WorkerLoop :=
  {| thread_pool_ := thread_pool_ w; epoll_fd_ := epoll_fd_ w; wake_fd_ := wake_fd_ w;
     wake_count := v; interest := interest w; ctl_script := ctl_script w;
     completed_queue_ := completed_queue_ w; connections_ := connections_ w;
     pending_connections_ := pending_connections_ w; stop_requested_ := stop_requested_ w;
     accepting_new_connections_ := accepting_new_connections_ w;
     connection_count_ := connection_count_ w;
     total_accepted_count_ := total_accepted_count_ w;
     in_flight_request_count_ := in_flight_request_count_ w;
     submitted_request_count_ := submitted_request_count_ w;
     completed_request_count_ := completed_request_count_ w;
     next_connection_token_ := next_connection_token_ w; method_stats_ := method_stats_ w;
     thread_started := thread_started w; owner_thread_id_ := owner_thread_id_ w;
     tasks := tasks w; delivered := delivered w; discarded := discarded w; closed := closed w;
     blocked := blocked w; gone := gone w |}.

Definition set_interest (v : gmap Z bool) (w : WorkerLoop) : WorkerLoop :=
  {| thread_pool_ := thread_pool_ w; epoll_fd_ := epoll_fd_ w; wake_fd_ := wake_fd_ w;
     wake_count := wake_count w; interest := v; ctl_script := ctl_script w;
     completed_queue_ := completed_queue_ w; connections_ := connections_ w;
     pending_connections_ := pending_connections_ w; stop_requested_ := stop_requested_ w;
     accepting_new_connections_ := accepting_new_connections_ w;
     connection_count_ := connection_count_ w;
     total_accepted_count_ := total_accepted_count_ w;
     in_flight_request_count_ := in_flight_request_count_ w;
     submitted_request_count_ := submitted_request_count_ w;
     completed_request_count_ := completed_request_count_ w;
     next_connection_token_ := next_connection_token_ w; method_stats_ := method_stats_ w;
     thread_started := thread_started w; owner_thread_id_ := owner_thread_id_ w;
     tasks := tasks w; delivered := delivered w; discarded := discarded w; closed := closed w;
     blocked := blocked w; gone := gone w |}.

Definition set_ctl_script (v : list (option errno)) (w : WorkerLoop) : WorkerLoop :=
  {| thread_pool_ := thread_pool_ w; epoll_fd_ := epoll_fd_ w; wake_fd_ := wake_fd_ w;
     wake_count := wake_count w; interest := interest w; ctl_script := v;
     completed_queue_ := completed_queue_ w; connections_ := connections_ w;
     pending_connections_ := pending_connections_ w; stop_requested_ := stop_requested_ w;
     accepting_new_connections_ := accepting_new_connections_ w;
     connection_count_ := connection_count_ w;
     total_accepted_count_ := total_accepted_count_ w;
     in_flight_request_count_ := in_flight_request_count_ w;
     submitted_request_count_ := submitted_request_count_ w;
     completed_request_count_ := completed_request_count_ w;
     next_connection_token_ := next_connection_token_ w; method_stats_ := method_stats_ w;
     thread_started := thread_started w; owner_thread_id_ := owner_thread_id_ w;
     tasks := tasks w; delivered := delivered w; discarded := discarded w; closed := closed w;
     blocked := blocked w; gone := gone w |}.

Definition set_completed_queue (v : option CompletedQueue) (w : WorkerLoop) : WorkerLoop :=
  {| thread_pool_ := thread_pool_ w; epoll_fd_ := epoll_fd_ w; wake_fd_ := wake_fd_ w;
     wake_count := wake_count w; interest := interest w; ctl_script := ctl_script w;
     completed_queue_ := v; connections_ := connections_ w;
     pending_connections_ := pending_connections_ w; stop_requested_ := stop_requested_ w;
     accepting_new_connections_ := accepting_new_connections_ w;
     connection_count_ := connection_count_ w;
     total_accepted_count_ := total_accepted_count_ w;
     in_flight_request_count_ := in_flight_request_count_ w;
     submitted_request_count_ := submitted_request_count_ w;
     completed_request_count_ := completed_request_count_ w;
     next_connection_token_ := next_connection_token_ w; method_stats_ := method_stats_ w;
     thread_started := thread_started w; owner_thread_id_ := owner_thread_id_ w;
     tasks := tasks w; delivered := delivered w; discarded := discarded w; closed := closed w;
     blocked := blocked w; gone := gone w |}.

Definition set_connections (v : gmap Z ConnectionState) (w : WorkerLoop) : WorkerLoop :=
  {| thread_pool_ := thread_pool_ w; epoll_fd_ := epoll_fd_ w; wake_fd_ := wake_fd_ w;
     wake_count := wake_count w; interest := interest w; ctl_script := ctl_script w;
     completed_queue_ := completed_queue_ w; connections_ := v;
     pending_connections_ := pending_connections_ w; stop_requested_ := stop_requested_ w;
     accepting_new_connections_ := accepting_new_connections_ w;
     connection_count_ := connection_count_ w;
     total_accepted_count_ := total_accepted_count_ w;
     in_flight_request_count_ := in_flight_request_count_ w;
     submitted_request_count_ := submitted_request_count_ w;
     completed_request_count_ := completed_request_count_ w;
     next_connection_token_ := next_connection_token_ w; method_stats_ := method_stats_ w;
     thread_started := thread_started w; owner_thread_id_ := owner_thread_id_ w;
     tasks := tasks w; delivered := delivered w; discarded := discarded w; closed := closed w;
     blocked := blocked w; gone := gone w |}.

Definition set_pending_connections (v : list (Z * string)) (w : WorkerLoop) : WorkerLoop :=
  {| thread_pool_ := thread_pool_ w; epoll_fd_ := epoll_fd_ w; wake_fd_ := wake_fd_ w;
     wake_count := wake_count w; interest := interest w; ctl_script := ctl_script w;
     completed_queue_ := completed_queue_ w; connections_ := connections_ w;
     pending_connections_ := v; stop_requested_ := stop_requested_ w;
     accepting_new_connections_ := accepting_new_connections_ w;
     connection_count_ := connection_count_ w;
     total_accepted_count_ := total_accepted_count_ w;
     in_flight_request_count_ := in_flight_request_count_ w;
     submitted_request_count_ := submitted_request_count_ w;
     completed_request_count_ := completed_request_count_ w;
     next_connection_token_ := next_connection_token_ w; method_stats_ := method_stats_ w;
     thread_started := thread_started w; owner_thread_id_ := owner_thread_id_ w;
     tasks := tasks w; delivered := delivered w; discarded := discarded w; closed := closed w;
     blocked := blocked w; gone := gone w |}.

Definition set_stop_requested (v : bool) (w : WorkerLoop) : WorkerLoop :=
  {| thread_pool_ := thread_pool_ w; epoll_fd_ := epoll_fd_ w; wake_fd_ := wake_fd_ w;
     wake_count := wake_count w; interest := interest w; ctl_script := ctl_script w;
     completed_queue_ := completed_queue_ w; connections_ := connections_ w;
     pending_connections_ := pending_connections_ w; stop_requested_ := v;
     accepting_new_connections_ := accepting_new_connections_ w;
     connection_count_ := connection_count_ w;
     total_accepted_count_ := total_accepted_count_ w;
     in_flight_request_count_ := in_flight_request_count_ w;
     submitted_request_count_ := submitted_request_count_ w;
     completed_request_count_ := completed_request_count_ w;
     next_connection_token_ := next_connection_token_ w; method_stats_ := method_stats_ w;
     thread_started := thread_started w; owner_thread_id_ := owner_thread_id_ w;
     tasks := tasks w; delivered := delivered w; discarded := discarded w; closed := closed w;
     blocked := blocked w; gone := gone w |}.

Definition set_accepting_new_connections (v : bool) (w : WorkerLoop) : WorkerLoop :=
  {| thread_pool_ := thread_pool_ w; epoll_fd_ := epoll_fd_ w; wake_fd_ := wake_fd_ w;
     wake_count := wake_count w; interest := interest w; ctl_script := ctl_script w;
     completed_queue_ := completed_queue_ w; connections_ := connections_ w;
     pending_connections_ := pending_connections_ w; stop_requested_ := stop_requested_ w;
     accepting_new_connections_ := v; connection_count_ := connection_count_ w;
     total_accepted_count_ := total_accepted_count_ w;
     in_flight_request_count_ := in_flight_request_count_ w;
     submitted_request_count_ := submitted_request_count_ w;
     completed_request_count_ := completed_request_count_ w;
     next_connection_token_ := next_connection_token_ w; method_stats_ := method_stats_ w;
     thread_started := thread_started w; owner_thread_id_ := owner_thread_id_ w;
     tasks := tasks w; delivered := delivered w; discarded := discarded w; closed := closed w;
     blocked := blocked w; gone := gone w |}.

Definition set_connection_count (v : nat) (w : WorkerLoop) : WorkerLoop :=
  {| thread_pool_ := thread_pool_ w; epoll_fd_ := epoll_fd_ w; wake_fd_ := wake_fd_ w;
     wake_count := wake_count w; interest := interest w; ctl_script := ctl_script w;
     completed_queue_ := completed_queue_ w; connections_ := connections_ w;
     pending_connections_ := pending_connections_ w; stop_requested_ := stop_requested_ w;
     accepting_new_connections_ := accepting_new_connections_ w; connection_count_ := v;
     total_accepted_count_ := total_accepted_count_ w;
     in_flight_request_count_ := in_flight_request_count_ w;
     submitted_request_count_ := submitted_request_count_ w;
     completed_request_count_ := completed_request_count_ w;
     next_connection_token_ := next_connection_token_ w; method_stats_ := method_stats_ w;
     thread_started := thread_started w; owner_thread_id_ := owner_thread_id_ w;
     tasks := tasks w; delivered := delivered w; discarded := discarded w; closed := closed w;
     blocked := blocked w; gone := gone w |}.

Definition set_total_accepted_count (v : nat) (w : WorkerLoop) : WorkerLoop :=
  {| thread_pool_ := thread_pool_ w; epoll_fd_ := epoll_fd_ w; wake_fd_ := wake_fd_ w;
     wake_count := wake_count w; interest := interest w; ctl_script := ctl_script w;
     completed_queue_ := completed_queue_ w; connections_ := connections_ w;
     pending_connections_ := pending_connections_ w; stop_requested_ := stop_requested_ w;
     accepting_new_connections_ := accepting_new_connections_ w;
     connection_count_ := connection_count_ w; total_accepted_count_ := v;
     in_flight_request_count_ := in_flight_request_count_ w;
     submitted_request_count_ := submitted_request_count_ w;
     completed_request_count_ := completed_request_count_ w;
     next_connection_token_ := next_connection_token_ w; method_stats_ := method_stats_ w;
     thread_started := thread_started w; owner_thread_id_ := owner_thread_id_ w;
     tasks := tasks w; delivered := delivered w; discarded := discarded w; closed := closed w;
     blocked := blocked w; gone := gone w |}.

Definition set_in_flight_request_count (v : nat) (w : WorkerLoop) : WorkerLoop :=
  {| thread_pool_ := thread_pool_ w; epoll_fd_ := epoll_fd_ w; wake_fd_ := wake_fd_ w;
     wake_count := wake_count w; interest := interest w; ctl_script := ctl_script w;
     completed_queue_ := completed_queue_ w; connections_ := connections_ w;
     pending_connections_ := pending_connections_ w; stop_requested_ := stop_requested_ w;
     accepting_new_connections_ := accepting_new_connections_ w;
     connection_count_ := connection_count_ w;
     total_accepted_count_ := total_accepted_count_ w; in_flight_request_count_ := v;
     submitted_request_count_ := submitted_request_count_ w;
     completed_request_count_ := completed_request_count_ w;
     next_connection_token_ := next_connection_token_ w; method_stats_ := method_stats_ w;
     thread_started := thread_started w; owner_thread_id_ := owner_thread_id_ w;
     tasks := tasks w; delivered := delivered w; discarded := discarded w; closed := closed w;
     blocked := blocked w; gone := gone w |}.

Definition set_submitted_request_count (v : nat) (w : WorkerLoop) : WorkerLoop :=
  {| thread_pool_ := thread_pool_ w; epoll_fd_ := epoll_fd_ w; wake_fd_ := wake_fd_ w;
     wake_count := wake_count w; interest := interest w; ctl_script := ctl_script w;
     completed_queue_ := completed_queue_ w; connections_ := connections_ w;
     pending_connections_ := pending_connections_ w; stop_requested_ := stop_requested_ w;
     accepting_new_connections_ := accepting_new_connections_ w;
     connection_count_ := connection_count_ w;
     total_accepted_count_ := total_accepted_count_ w;
     in_flight_request_count_ := in_flight_request_count_ w; submitted_request_count_ := v;
     completed_request_count_ := completed_request_count_ w;
     next_connection_token_ := next_connection_token_ w; method_stats_ := method_stats_ w;
     thread_started := thread_started w; owner_thread_id_ := owner_thread_id_ w;
     tasks := tasks w; delivered := delivered w; discarded := discarded w; closed := closed w;
     blocked := blocked w; gone := gone w |}.

Definition set_completed_request_count (v : nat) (w : WorkerLoop) : WorkerLoop :=
  {| thread_pool_ := thread_pool_ w; epoll_fd_ := epoll_fd_ w; wake_fd_ := wake_fd_ w;
     wake_count := wake_count w; interest := interest w; ctl_script := ctl_script w;
     completed_queue_ := completed_queue_ w; connections_ := connections_ w;
     pending_connections_ := pending_connections_ w; stop_requested_ := stop_requested_ w;
     accepting_new_connections_ := accepting_new_connections_ w;
     connection_count_ := connection_count_ w;
     total_accepted_count_ := total_accepted_count_ w;
     in_flight_request_count_ := in_flight_request_count_ w;
     submitted_request_count_ := submitted_request_count_ w; completed_request_count_ := v;
     next_connection_token_ := next_connection_token_ w; method_stats_ := method_stats_ w;
     thread_started := thread_started w; owner_thread_id_ := owner_thread_id_ w;
     tasks := tasks w; delivered := delivered w; discarded := discarded w; closed := closed w;
     blocked := blocked w; gone := gone w |}.

Definition set_next_connection_token (v : Z) (w : WorkerLoop) : WorkerLoop :=
  {| thread_pool_ := thread_pool_ w; epoll_fd_ := epoll_fd_ w; wake_fd_ := wake_fd_ w;
     wake_count := wake_count w; interest := interest w; ctl_script := ctl_script w;
     completed_queue_ := completed_queue_ w; connections_ := connections_ w;
     pending_connections_ := pending_connections_ w; stop_requested_ := stop_requested_ w;
     accepting_new_connections_ := accepting_new_connections_ w;
     connection_count_ := connection_count_ w;
     total_accepted_count_ := total_accepted_count_ w;
     in_flight_request_count_ := in_flight_request_count_ w;
     submitted_request_count_ := submitted_request_count_ w;
     completed_request_count_ := completed_request_count_ w; next_connection_token_ := v;
     method_stats_ := method_stats_ w; thread_started := thread_started w;
     owner_thread_id_ := owner_thread_id_ w; tasks := tasks w; delivered := delivered w;
     discarded := discarded w; closed := closed w; blocked := blocked w; gone := gone w |}.

Definition set_method_stats (v : method_stats) (w : WorkerLoop) : WorkerLoop :=
  {| thread_pool_ := thread_pool_ w; epoll_fd_ := epoll_fd_ w; wake_fd_ := wake_fd_ w;
     wake_count := wake_count w; interest := interest w; ctl_script := ctl_script w;
     completed_queue_ := completed_queue_ w; connections_ := connections_ w;
     pending_connections_ := pending_connections_ w; stop_requested_ := stop_requested_ w;
     accepting_new_connections_ := accepting_new_connections_ w;
     connection_count_ := connection_count_ w;
     total_accepted_count_ := total_accepted_count_ w;
     in_flight_request_count_ := in_flight_request_count_ w;
     submitted_request_count_ := submitted_request_count_ w;
     completed_request_count_ := completed_request_count_ w;
     next_connection_token_ := next_connection_token_ w; method_stats_ := v;
     thread_started := thread_started w; owner_thread_id_ := owner_thread_id_ w;
     tasks := tasks w; delivered := delivered w; discarded := discarded w; closed := closed w;
     blocked := blocked w; gone := gone w |}.

Definition set_thread_started (v : bool) (w : WorkerLoop) : WorkerLoop :=
  {| thread_pool_ := thread_pool_ w; epoll_fd_ := epoll_fd_ w; wake_fd_ := wake_fd_ w;
     wake_count := wake_count w; interest := interest w; ctl_script := ctl_script w;
     completed_queue_ := completed_queue_ w; connections_ := connections_ w;
     pending_connections_ := pending_connections_ w; stop_requested_ := stop_requested_ w;
     accepting_new_connections_ := accepting_new_connections_ w;
     connection_count_ := connection_count_ w;
     total_accepted_count_ := total_accepted_count_ w;
     in_flight_request_count_ := in_flight_request_count_ w;
     submitted_request_count_ := submitted_request_count_ w;
     completed_request_count_ := completed_request_count_ w;
     next_connection_token_ := next_connection_token_ w; method_stats_ := method_stats_ w;
     thread_started := v; owner_thread_id_ := owner_thread_id_ w; tasks := tasks w;
     delivered := delivered w; discarded := discarded w; closed := closed w;
     blocked := blocked w; gone := gone w |}.

Definition set_owner_thread_id (v : option nat) (w : WorkerLoop) : WorkerLoop :=
  {| thread_pool_ := thread_pool_ w; epoll_fd_ := epoll_fd_ w; wake_fd_ := wake_fd_ w;
     wake_count := wake_count w; interest := interest w; ctl_script := ctl_script w;
     completed_queue_ := completed_queue_ w; connections_ := connections_ w;
     pending_connections_ := pending_connections_ w; stop_requested_ := stop_requested_ w;
     accepting_new_connections_ := accepting_new_connections_ w;
     connection_count_ := connection_count_ w;
     total_accepted_count_ := total_accepted_count_ w;
     in_flight_request_count_ := in_flight_request_count_ w;
     submitted_request_count_ := submitted_request_count_ w;
     completed_request_count_ := completed_request_count_ w;
     next_connection_token_ := next_connection_token_ w; method_stats_ := method_stats_ w;
     thread_started := thread_started w; owner_thread_id_ := v; tasks := tasks w;
     delivered := delivered w; discarded := discarded w; closed := closed w;
     blocked := blocked w; gone := gone w |}.

Definition set_tasks (v : list Task) (w : WorkerLoop) : WorkerLoop :=
  {| thread_pool_ := thread_pool_ w; epoll_fd_ := epoll_fd_ w; wake_fd_ := wake_fd_ w;
     wake_count := wake_count w; interest := interest w; ctl_script := ctl_script w;
     completed_queue_ := completed_queue_ w; connections_ := connections_ w;
     pending_connections_ := pending_connections_ w; stop_requested_ := stop_requested_ w;
     accepting_new_connections_ := accepting_new_connections_ w;
     connection_count_ := connection_count_ w;
     total_accepted_count_ := total_accepted_count_ w;
     in_flight_request_count_ := in_flight_request_count_ w;
     submitted_request_count_ := submitted_request_count_ w;
     completed_request_count_ := completed_request_count_ w;
     next_connection_token_ := next_connection_token_ w; method_stats_ := method_stats_ w;
     thread_started := thread_started w; owner_thread_id_ := owner_thread_id_ w; tasks := v;
     delivered := delivered w; discarded := discarded w; closed := closed w;
     blocked := blocked w; gone := gone w |}.

Definition set_delivered (v : list (Z * CompletedResponse)) (w : WorkerLoop) : WorkerLoop :=
  {| thread_pool_ := thread_pool_ w; epoll_fd_ := epoll_fd_ w; wake_fd_ := wake_fd_ w;
     wake_count := wake_count w; interest := interest w; ctl_script := ctl_script w;
     completed_queue_ := completed_queue_ w; connections_ := connections_ w;
     pending_connections_ := pending_connections_ w; stop_requested_ := stop_requested_ w;
     accepting_new_connections_ := accepting_new_connections_ w;
     connection_count_ := connection_count_ w;
     total_accepted_count_ := total_accepted_count_ w;
     in_flight_request_count_ := in_flight_request_count_ w;
     submitted_request_count_ := submitted_request_count_ w;
     completed_request_count_ := completed_request_count_ w;
     next_connection_token_ := next_connection_token_ w; method_stats_ := method_stats_ w;
     thread_started := thread_started w; owner_thread_id_ := owner_thread_id_ w;
     tasks := tasks w; delivered := v; discarded := discarded w; closed := closed w;
     blocked := blocked w; gone := gone w |}.

Definition set_discarded (v : list CompletedResponse) (w : WorkerLoop) : WorkerLoop :=
  {| thread_pool_ := thread_pool_ w; epoll_fd_ := epoll_fd_ w; wake_fd_ := wake_fd_ w;
     wake_count := wake_count w; interest := interest w; ctl_script := ctl_script w;
     completed_queue_ := completed_queue_ w; connections_ := connections_ w;
     pending_connections_ := pending_connections_ w; stop_requested_ := stop_requested_ w;
     accepting_new_connections_ := accepting_new_connections_ w;
     connection_count_ := connection_count_ w;
     total_accepted_count_ := total_accepted_count_ w;
     in_flight_request_count_ := in_flight_request_count_ w;
     submitted_request_count_ := submitted_request_count_ w;
     completed_request_count_ := completed_request_count_ w;
     next_connection_token_ := next_connection_token_ w; method_stats_ := method_stats_ w;
     thread_started := thread_started w; owner_thread_id_ := owner_thread_id_ w;
     tasks := tasks w; delivered := delivered w; discarded := v; closed := closed w;
     blocked := blocked w; gone := gone w |}.

Definition set_closed (v : list Z) (w : WorkerLoop) : WorkerLoop :=
  {| thread_pool_ := thread_pool_ w; epoll_fd_ := epoll_fd_ w; wake_fd_ := wake_fd_ w;
     wake_count := wake_count w; interest := interest w; ctl_script := ctl_script w;
     completed_queue_ := completed_queue_ w; connections_ := connections_ w;
     pending_connections_ := pending_connections_ w; stop_requested_ := stop_requested_ w;
     accepting_new_connections_ := accepting_new_connections_ w;
     connection_count_ := connection_count_ w;
     total_accepted_count_ := total_accepted_count_ w;
     in_flight_request_count_ := in_flight_request_count_ w;
     submitted_request_count_ := submitted_request_count_ w;
     completed_request_count_ := completed_request_count_ w;
     next_connection_token_ := next_connection_token_ w; method_stats_ := method_stats_ w;
     thread_started := thread_started w; owner_thread_id_ := owner_thread_id_ w;
     tasks := tasks w; delivered := delivered w; discarded := discarded w; closed := v;
     blocked := blocked w; gone := gone w |}.

Definition set_blocked (v : bool) (w : WorkerLoop) : WorkerLoop :=
  {| thread_pool_ := thread_pool_ w; epoll_fd_ := epoll_fd_ w; wake_fd_ := wake_fd_ w;
     wake_count := wake_count w; interest := interest w; ctl_script := ctl_script w;
     completed_queue_ := completed_queue_ w; connections_ := connections_ w;
     pending_connections_ := pending_connections_ w; stop_requested_ := stop_requested_ w;
     accepting_new_connections_ := accepting_new_connections_ w;
     connection_count_ := connection_count_ w;
     total_accepted_count_ := total_accepted_count_ w;
     in_flight_request_count_ := in_flight_request_count_ w;
     submitted_request_count_ := submitted_request_count_ w;
     completed_request_count_ := completed_request_count_ w;
     next_connection_token_ := next_connection_token_ w; method_stats_ := method_stats_ w;
     thread_started := thread_started w; owner_thread_id_ := owner_thread_id_ w;
     tasks := tasks w; delivered := delivered w; discarded := discarded w; closed := closed w;
     blocked := v; gone := gone w |}.

Definition set_gone (v : list (Z * Connection)) (w : WorkerLoop) : WorkerLoop :=
  {| thread_pool_ := thread_pool_ w; epoll_fd_ := epoll_fd_ w; wake_fd_ := wake_fd_ w;
     wake_count := wake_count w; interest := interest w; ctl_script := ctl_script w;
     completed_queue_ := completed_queue_ w; connections_ := connections_ w;
     pending_connections_ := pending_connections_ w; stop_requested_ := stop_requested_ w;
     accepting_new_connections_ := accepting_new_connections_ w;
     connection_count_ := connection_count_ w;
     total_accepted_count_ := total_accepted_count_ w;
     in_flight_request_count_ := in_flight_request_count_ w;
     submitted_request_count_ := submitted_request_count_ w;
     completed_request_count_ := completed_request_count_ w;
     next_connection_token_ := next_connection_token_ w; method_stats_ := method_stats_ w;
     thread_started := thread_started w; owner_thread_id_ := owner_thread_id_ w;
     tasks := tasks w; delivered := delivered w; discarded := discarded w; closed := closed w;
     blocked := blocked w; gone := v |}.

Definition make_worker (thread_pool : bool) : WorkerLoop :=
  {| thread_pool_ := thread_pool; epoll_fd_ := UniqueFd.empty; wake_fd_ := UniqueFd.empty;
     wake_count := 0; interest := ∅; ctl_script := []; completed_queue_ := None;
     connections_ := ∅; pending_connections_ := []; stop_requested_ := false;
     accepting_new_connections_ := false; connection_count_ := 0; total_accepted_count_ := 0;
     in_flight_request_count_ := 0; submitted_request_count_ := 0; completed_request_count_ := 0;
     next_connection_token_ := 1; method_stats_ := ∅; thread_started := false;
     owner_thread_id_ := None; tasks := []; delivered := []; discarded := []; closed := [];
     blocked := false; gone := [] |}.

(** ** Threads, queues and the kernel *)

Definition IsOnOwnerThread (w : WorkerLoop) (tid : nat) : bool :=
  match owner_thread_id_ w with None => true | Some t => t =? tid end.

Definition EnsureOwnerThread (w : WorkerLoop) (tid : nat) (error_msg : option string)
    : bool * option string :=
  if IsOnOwnerThread w tid then (true, error_msg)
  else (false, set_error error_msg "worker loop accessed from non-owner thread").

Definition is_open (u : UniqueFd.t) : bool := UniqueFd.Valid u.

(** [Wakeup]: the write to the eventfd; when its counter is full the write
    fails and it is readable anyway. *)
Definition Wakeup (w : WorkerLoop) : WorkerLoop :=
  if is_open (wake_fd_ w) then set_wake_count (S (wake_count w)) w else w.

(** The result of the next [epoll_ctl] call. *)
Definition next_ctl (w : WorkerLoop) : option errno * WorkerLoop :=
  match ctl_script w with
  | [] => (None, w)
  | r :: rest => (r, set_ctl_script rest w)
  end.

Definition EEXIST : errno := EOther 17.
Definition ENOENT : errno := EOther 2.

(** [EPOLL_CTL_ADD] of a descriptor that is registered and [EPOLL_CTL_MOD] of
    one that is not fail. *)
Definition epoll_ctl_add (w : WorkerLoop) (fd : Z) : option errno * WorkerLoop :=
  match interest w !! fd with
  | Some _ => (Some EEXIST, w)
  | None =>
      let '(r, w) := next_ctl w in
      (r, match r with None => set_interest (<[fd := false]> (interest w)) w | Some _ => w end)
  end.

Definition epoll_ctl_mod (w : WorkerLoop) (fd : Z) (out : bool) : option errno * WorkerLoop :=
  match interest w !! fd with
  | None => (Some ENOENT, w)
  | Some _ =>
      let '(r, w) := next_ctl w in
      (r, match r with None => set_interest (<[fd := out]> (interest w)) w | Some _ => w end)
  end.

Definition epoll_ctl_del (w : WorkerLoop) (fd : Z) : WorkerLoop :=
  set_interest (delete fd (interest w)) w.

(** A [close] call. *)
Definition close_fd (fd : Z) (w : WorkerLoop) : WorkerLoop := set_closed (closed w ++ [fd]) w.

(** ** Lifecycle *)

(** [Init]: [epoll] and [evfd] are what the system calls return (an error is
    negative), [ctl] is the result of [epoll_ctl], [e] the [errno] of a
    failure. *)
Definition Init (w : WorkerLoop) (tid : nat) (epoll evfd : Z) (ctl : option errno) (e : errno)
    (error_msg : option string) : bool * WorkerLoop * option string :=
  let w := set_epoll_fd (UniqueFd.make epoll) w in
  if negb (is_open (epoll_fd_ w)) then
    (false, w, set_error error_msg ("epoll_create1 failed: " +:+ strerror e))
  else
    let w := set_wake_count 0 (set_wake_fd (UniqueFd.make evfd) w) in
    if negb (is_open (wake_fd_ w)) then
      (false, w, set_error error_msg ("eventfd failed: " +:+ strerror e))
    else
      match ctl with
      | Some e => (false, w, set_error error_msg ("epoll_ctl add wake fd failed: " +:+ strerror e))
      | None =>
          (true,
           set_accepting_new_connections true
             (set_stop_requested false
                (set_completed_queue
                   (Some {| responses := []; accepting := true;
                            cq_wake_fd := UniqueFd.fd_ (wake_fd_ w) |})
                   (set_owner_thread_id (Some tid) w))), error_msg)
      end.

Definition Start (w : WorkerLoop) (error_msg : option string)
    : bool * WorkerLoop * option string :=
  if negb (is_open (epoll_fd_ w)) || negb (is_open (wake_fd_ w)) then
    (false, w, set_error error_msg "worker loop not initialized")
  else if thread_started w then (false, w, set_error error_msg "worker loop already started")
  else
    let w := set_accepting_new_connections true (set_stop_requested false w) in
    let w := set_completed_queue
               (match completed_queue_ w with
                | Some q => Some {| responses := responses q; accepting := true;
                                    cq_wake_fd := UniqueFd.fd_ (wake_fd_ w) |}
                | None => None
                end) w in
    (true, set_thread_started true w, error_msg).

Definition RequestStop (w : WorkerLoop) : WorkerLoop :=
  Wakeup (set_stop_requested true (set_accepting_new_connections false w)).

(** [EnqueueConnection], called by the acceptor; a refused descriptor is closed
    with the parameter that owns it. *)
Definition EnqueueConnection (w : WorkerLoop) (fd : Z) (peer_desc : string)
    (error_msg : option string) : bool * WorkerLoop * option string :=
  if negb (is_open (UniqueFd.make fd)) then (false, w, set_error error_msg "invalid client fd")
  else if negb (accepting_new_connections_ w) then
    (false, close_fd fd w,
     set_error error_msg "worker loop is stopping and no longer accepts new connections")
  else if negb (is_open (epoll_fd_ w)) || negb (is_open (wake_fd_ w)) then
    (false, close_fd fd w, set_error error_msg "worker loop not initialized")
  else
    (true, Wakeup (set_pending_connections (pending_connections_ w ++ [(fd, peer_desc)]) w),
     error_msg).

(** ** Requests for the thread pool *)

(** [DispatchRequestToThreadPool]; [accepted] is the verdict of
    [ThreadPool::Submit]. *)
Definition DispatchRequestToThreadPool (w : WorkerLoop) (fd token : Z) (request : DispatchRequest)
    (accepted : bool) (error_msg : option string) : bool * WorkerLoop * option string :=
  if negb (thread_pool_ w) then (false, w, set_error error_msg "thread pool not configured")
  else
    match completed_queue_ w with
    | None => (false, w, set_error error_msg "worker completion queue not initialized")
    | Some _ =>
        if negb accepted then
          (false, w, set_error error_msg "thread pool rejected task submission")
        else
          (true,
           set_in_flight_request_count (S (in_flight_request_count_ w))
             (set_submitted_request_count (S (submitted_request_count_ w))
                (set_tasks
                   (tasks w ++ [{| task_fd := fd; task_token := token; task_request := request |}])
                   w)), error_msg)
    end.

(** The requests a connection handed over during one of its calls. *)
Definition absorb (fd token : Z) (requests : list DispatchRequest) (w : WorkerLoop) : WorkerLoop :=
  fold_left (fun w d => snd (fst (DispatchRequestToThreadPool w fd token d true None))) requests w.

(** Where the result of a task goes. *)
Definition push_completed (completed : CompletedResponse) (w : WorkerLoop) : WorkerLoop :=
  match completed_queue_ w with
  | None => w
  | Some q =>
      if accepting q then
        set_completed_queue (Some {| responses := responses q ++ [completed];
                                     accepting := true; cq_wake_fd := cq_wake_fd q |}) w
      else set_discarded (discarded w ++ [completed]) w
  end.

Section worker.
Context (reg : registry).
Context `{ProtoMessage RpcRequest} `{ProtoMessage RpcResponse}.

(** The connections of a worker have the default options. *)
Abbreviation opts := Options_default.
Abbreviation go_on := (resume opts reg).

(** A thread of the pool runs the [i]-th of the worker's tasks that wait:
    phases 3 and 4 of the closure, then phase 5 ([RunTask_wake]). *)
Definition RunTask (i : nat) (w : WorkerLoop) : WorkerLoop :=
  match tasks w !! i with
  | None => w
  | Some t =>
      let completed := execute reg (task_fd t) (task_token t) (task_request t) in
      push_completed completed
        (set_method_stats
           (RecordMethodCall (method_stats_ w) (cr_method_key completed)
              (cr_handler_success completed))
           (set_tasks (delete i (tasks w)) w))
  end.

Definition RunTask_wake (w : WorkerLoop) : WorkerLoop :=
  match completed_queue_ w with
  | Some q => if (0 <=? cq_wake_fd q)%Z then set_wake_count (S (wake_count w)) w else w
  | None => w
  end.

(** ** Connections *)

(** A call [f] on the connection of [fd]. *)
Definition on_connection (fd : Z) (f : Connection -> Connection) (w : WorkerLoop) : WorkerLoop :=
  match connections_ w !! fd with
  | None => w
  | Some st =>
      let c := connection st in
      let c' := f c in
      absorb fd (connection_token st) (drop (length (dispatched c)) (dispatched c'))
        (set_connections
           (<[fd := {| connection := c'; connection_token := connection_token st |}]>
              (connections_ w)) w)
  end.

(** [StartConnectionCoroutine]. *)
Definition StartConnectionCoroutine (fd : Z) (w : WorkerLoop) : WorkerLoop :=
  on_connection fd (start opts reg) w.

Definition AddConnectionOnOwnerThread (w : WorkerLoop) (tid : nat) (now : Z) (fd : Z)
    (error_msg : option string) : bool * WorkerLoop * option string :=
  let '(ok, error_msg) := EnsureOwnerThread w tid error_msg in
  if negb ok then (false, close_fd fd w, error_msg)
  else if negb (is_open (epoll_fd_ w)) then
    (false, close_fd fd w, set_error error_msg "worker loop not initialized")
  else
    let '(r, w) := epoll_ctl_add w fd in
    match r with
    | Some e =>
        (false, close_fd fd w,
         set_error error_msg ("epoll_ctl add client fd failed: " +:+ strerror e))
    | None =>
        let token := next_connection_token_ w in
        let w := set_next_connection_token (wrap64 (token + 1)%Z) w in
        match connections_ w !! fd with
        | Some _ =>
            (false, close_fd fd (epoll_ctl_del w fd),
             set_error error_msg "duplicate client fd in worker connection map")
        | None =>
            let state := {| connection := set_clock now (make_connection (thread_pool_ w));
                            connection_token := token |} in
            let w := StartConnectionCoroutine fd
                       (set_connections (<[fd := state]> (connections_ w)) w) in
            (true,
             set_total_accepted_count (S (total_accepted_count_ w))
               (set_connection_count (size (connections_ w)) w), error_msg)
        end
    end.

Definition AddConnection (w : WorkerLoop) (tid : nat) (now : Z) (fd : Z) (error_msg : option string)
    : bool * WorkerLoop * option string :=
  let '(ok, error_msg) := EnsureOwnerThread w tid error_msg in
  if negb ok then (false, close_fd fd w, error_msg)
  else AddConnectionOnOwnerThread w tid now fd error_msg.

(** [CloseConnection]: [task->Get()] returns when the coroutine has ended. *)
Definition CloseConnection (fd : Z) (w : WorkerLoop) : bool * WorkerLoop :=
  match connections_ w !! fd with
  | None => (true, w)
  | Some _ =>
      let w := on_connection fd (MarkClosing go_on) w in
      let w := on_connection fd (NotifyReadable go_on) w in
      let w := on_connection fd (NotifyWritable go_on) w in
      let ended := match connections_ w !! fd with
                   | Some st => bool_decide (co (connection st) = CoDone)
                   | None => true
                   end in
      let w := if ended then w else set_blocked true w in
      let w := set_gone (gone w ++ match connections_ w !! fd with
                                   | Some st => [(connection_token st, connection st)]
                                   | None => []
                                   end) w in
      let w := epoll_ctl_del w fd in
      let w := close_fd fd (set_connections (delete fd (connections_ w)) w) in
      (true, set_connection_count (size (connections_ w)) w)
  end.

Definition UpdateEpollInterest (fd : Z) (w : WorkerLoop) (error_msg : option string)
    : bool * WorkerLoop * option string :=
  let out := match connections_ w !! fd with
             | Some st => HasPendingWrite (connection st)
             | None => false
             end in
  let '(r, w) := epoll_ctl_mod w fd out in
  match r with
  | None => (true, w, error_msg)
  | Some _ =>
      let '(ok, w) := CloseConnection fd w in
      if ok then (true, w, error_msg)
      else (false, w, set_error error_msg "failed to close connection after epoll mod failure")
  end.

(** ** The loop *)

(** [DrainWakeFd]: reads until the eventfd would block; [fail] is an error other
    than [EAGAIN] and [EINTR]. *)
Definition DrainWakeFd (w : WorkerLoop) (tid : nat) (fail : option errno) (error_msg : option string)
    : bool * WorkerLoop * option string :=
  let '(ok, error_msg) := EnsureOwnerThread w tid error_msg in
  if negb ok then (false, w, error_msg)
  else
    match fail with
    | None => (true, set_wake_count 0 w, error_msg)
    | Some e => (false, w, set_error error_msg ("read wake fd failed: " +:+ strerror e))
    end.

(** The loop of [DrainPendingConnections]; what is left of the local queue when
    it fails is closed with it. *)
Fixpoint DrainPending_loop (tid : nat) (now : Z) (local : list (Z * string)) (w : WorkerLoop)
    (error_msg : option string) : bool * WorkerLoop * option string :=
  match local with
  | [] => (true, w, error_msg)
  | (fd, _) :: rest =>
      match AddConnectionOnOwnerThread w tid now fd error_msg with
      | (true, w, error_msg) => DrainPending_loop tid now rest w error_msg
      | (false, w, error_msg) => (false, foldr (fun p => close_fd (fst p)) w rest, error_msg)
      end
  end.

Definition DrainPendingConnections (w : WorkerLoop) (tid : nat) (now : Z)
    (error_msg : option string) : bool * WorkerLoop * option string :=
  let '(ok, error_msg) := EnsureOwnerThread w tid error_msg in
  if negb ok then (false, w, error_msg)
  else DrainPending_loop tid now (pending_connections_ w) (set_pending_connections [] w) error_msg.

(** One completed response. *)
Definition DeliverCompleted (completed : CompletedResponse) (w : WorkerLoop)
    (error_msg : option string) : bool * WorkerLoop * option string :=
  let w := set_completed_request_count (S (completed_request_count_ w))
             (set_in_flight_request_count (in_flight_request_count_ w - 1) w) in
  let fd := cr_fd completed in
  match connections_ w !! fd with
  | None => (true, set_discarded (discarded w ++ [completed]) w, error_msg)
  | Some state =>
      if negb (connection_token state =? cr_connection_token completed)%Z then
        (true, set_discarded (discarded w ++ [completed]) w, error_msg)
      else
        let '(queued, c, _) :=
          EnqueueResponse opts (connection state) (to_response completed) (Some "") in
        let w := on_connection fd (fun _ => c) w in
        if negb queued then
          let '(ok, w) := CloseConnection fd (set_discarded (discarded w ++ [completed]) w) in
          if ok then (true, w, error_msg)
          else (false, w, set_error error_msg "failed to close connection after enqueue failure")
        else
          UpdateEpollInterest fd
            (on_connection fd (NotifyReadable go_on)
               (set_delivered (delivered w ++ [(connection_token state, completed)]) w)) error_msg
  end.

Fixpoint DrainCompleted_loop (local : list CompletedResponse) (w : WorkerLoop)
    (error_msg : option string) : bool * WorkerLoop * option string :=
  match local with
  | [] => (true, w, error_msg)
  | completed :: rest =>
      match DeliverCompleted completed w error_msg with
      | (true, w, error_msg) => DrainCompleted_loop rest w error_msg
      | (false, w, error_msg) => (false, w, error_msg)
      end
  end.

Definition DrainCompletedResponses (w : WorkerLoop) (tid : nat) (error_msg : option string)
    : bool * WorkerLoop * option string :=
  let '(ok, error_msg) := EnsureOwnerThread w tid error_msg in
  if negb ok then (false, w, error_msg)
  else
    match completed_queue_ w with
    | None => (true, w, error_msg)
    | Some q =>
        DrainCompleted_loop (responses q)
          (set_completed_queue (Some {| responses := []; accepting := accepting q;
                                        cq_wake_fd := cq_wake_fd q |}) w) error_msg
    end.

(** Step 2 of [PollOnce]: a deadline that has passed ends the coroutine; no
    request is handed over. *)
Definition TickAll (now : Z) (w : WorkerLoop) : WorkerLoop :=
  set_connections
    ((fun st => {| connection := Tick go_on now (connection st);
                   connection_token := connection_token st |}) <$> connections_ w) w.

(** One event of step 3. *)
Definition HandleEvent (fd : Z) (ev : epoll_flags) (w : WorkerLoop) (error_msg : option string)
    : bool * WorkerLoop * option string :=
  if (fd =? UniqueFd.fd_ (wake_fd_ w))%Z then (true, w, error_msg)
  else
    match connections_ w !! fd with
    | None => (true, w, error_msg)
    | Some _ =>
        let w := if ev_in ev then on_connection fd (NotifyReadable go_on) w else w in
        let w := if ev_out ev then on_connection fd (NotifyWritable go_on) w else w in
        let w := if ev_close ev then
                   on_connection fd (NotifyWritable go_on)
                     (on_connection fd (NotifyReadable go_on)
                        (on_connection fd (MarkClosing go_on) w))
                 else w in
        match connections_ w !! fd with
        | None => (true, w, error_msg)
        | Some state =>
            if negb (coroutine_ok (connection state)) then
              let '(ok, w) := CloseConnection fd w in
              if ok then (true, w, error_msg)
              else (false, w, set_error error_msg "failed to close errored connection")
            else if ShouldClose (connection state) then
              let '(ok, w) := CloseConnection fd w in
              if ok then (true, w, error_msg)
              else (false, w, set_error error_msg "failed to close closing connection")
            else UpdateEpollInterest fd w error_msg
        end
    end.

Fixpoint HandleEvents (events : list (Z * epoll_flags)) (w : WorkerLoop) (error_msg : option string)
    : bool * WorkerLoop * option string :=
  match events with
  | [] => (true, w, error_msg)
  | (fd, ev) :: rest =>
      match HandleEvent fd ev w error_msg with
      | (true, w, error_msg) => HandleEvents rest w error_msg
      | (false, w, error_msg) => (false, w, error_msg)
      end
  end.

(** What the kernel does in one round: the result of [epoll_wait], an error of
    the eventfd, the clock. *)
Record poll_env := {
  pe_wait : errno + list (Z * epoll_flags);
  pe_wake : option errno;
  pe_now : Z;
}.

(** The first part of a round, when the eventfd is among the events. *)
Definition DrainQueues (w : WorkerLoop) (tid : nat) (now : Z) (wake : option errno)
    (error_msg : option string) : bool * WorkerLoop * option string :=
  match DrainWakeFd w tid wake error_msg with
  | (false, w, error_msg) => (false, w, error_msg)
  | (true, w, error_msg) =>
      match DrainPendingConnections w tid now error_msg with
      | (false, w, error_msg) => (false, w, error_msg)
      | (true, w, error_msg) => DrainCompletedResponses w tid error_msg
      end
  end.

Definition PollOnce (w : WorkerLoop) (tid : nat) (env : poll_env) (error_msg : option string)
    : bool * WorkerLoop * option string :=
  let '(ok, error_msg) := EnsureOwnerThread w tid error_msg in
  if negb ok then (false, w, error_msg)
  else if negb (is_open (epoll_fd_ w)) then
    (false, w, set_error error_msg "worker loop not initialized")
  else
    match pe_wait env with
    | inl e =>
        if decide (e = EINTR) then (true, w, error_msg)
        else (false, w, set_error error_msg ("worker epoll_wait failed: " +:+ strerror e))
    | inr events =>
        let has_wakeup :=
          existsb (fun p => (fst p =? UniqueFd.fd_ (wake_fd_ w))%Z) events in
        match (if has_wakeup then DrainQueues w tid (pe_now env) (pe_wake env) error_msg
               else (true, w, error_msg)) with
        | (false, w, error_msg) => (false, w, error_msg)
        | (true, w, error_msg) => HandleEvents events (TickAll (pe_now env) w) error_msg
        end
    end.

Definition CloseAllConnections (w : WorkerLoop) : WorkerLoop :=
  foldr (fun fd w => snd (CloseConnection fd w)) w (map fst (map_to_list (connections_ w))).

(** The end of [Run], after its loop: first the queues are emptied. *)
Definition Run_drain (w : WorkerLoop) (tid : nat) (now : Z) (wake : option errno) : WorkerLoop :=
  match DrainWakeFd w tid wake (Some "") with
  | (true, w, e) =>
      let '(_, w, e) := DrainPendingConnections w tid now e in
      snd (fst (DrainCompletedResponses w tid e))
  | (false, w, _) => w
  end.

Definition Run_stop (w : WorkerLoop) (tid : nat) (now : Z) (wake : option errno) : WorkerLoop :=
  let w := Run_drain (set_accepting_new_connections false w) tid now wake in
  let w := CloseAllConnections w in
  set_completed_queue
    (match completed_queue_ w with
     | Some q => Some {| responses := responses q; accepting := false; cq_wake_fd := (-1)%Z |}
     | None => None
     end) w.

Definition MethodStats (w : WorkerLoop) : list (string * (Z * Z)) := map_to_list (method_stats_ w).

(** ** The threads of a worker *)

(** Where the worker's thread is in [Run]: waiting in [epoll_wait], between two
    parts of a round, leaving the loop, or at the end. *)
Inductive run_point :=
  | AtWait
  | AtDrainWake (env : poll_env) (events : list (Z * epoll_flags))
  | AtDrainPending (env : poll_env) (events : list (Z * epoll_flags))
  | AtDrainCompleted (env : poll_env) (events : list (Z * epoll_flags))
  | AtRest (env : poll_env) (events : list (Z * epoll_flags))
  | AtStop
  | AtEnded.

(** The worker, its thread, and the pool threads that have pushed a result and
    not yet written to the eventfd. *)
Record system := {
  worker : WorkerLoop;
  point : run_point;
  wakers : nat;
}.

(** The next part of [Run]; the parts are those between which other threads can
    touch the worker's queues.  [env] is what the kernel does when the thread
    waits. *)
Definition worker_step (tid : nat) (env : poll_env) (s : system) : system :=
  let w := worker s in
  let go w p := {| worker := w; point := p; wakers := wakers s |} in
  let next r p := let '(ok, w, _) := r in go w (if (ok : bool) then p else AtStop) in
  match point s with
  | AtWait =>
      if stop_requested_ w then go w AtStop
      else
        match pe_wait env with
        | inl e => go w (if decide (e = EINTR) then AtWait else AtStop)
        | inr events =>
            go w (if existsb (fun p => (fst p =? UniqueFd.fd_ (wake_fd_ w))%Z) events
                  then AtDrainWake env events else AtRest env events)
        end
  | AtDrainWake env evs => next (DrainWakeFd w tid (pe_wake env) (Some "")) (AtDrainPending env evs)
  | AtDrainPending env evs =>
      next (DrainPendingConnections w tid (pe_now env) (Some "")) (AtDrainCompleted env evs)
  | AtDrainCompleted env evs => next (DrainCompletedResponses w tid (Some "")) (AtRest env evs)
  | AtRest env evs => next (HandleEvents evs (TickAll (pe_now env) w) (Some "")) AtWait
  | AtStop => go (Run_stop w tid (pe_now env) (pe_wake env)) AtEnded
  | AtEnded => s
  end.

(** What can happen: a step of the worker's thread; the acceptor hands a
    connection over; a stop is requested; a pool thread runs a task and, later,
    wakes the worker; the kernel has something for a connection. *)
Inductive op :=
  | OpWorker (env : poll_env)
  | OpEnqueue (fd : Z) (peer : string)
  | OpRequestStop
  | OpRunTask (i : nat)
  | OpWake
  | OpKernel (fd clk : Z) (rs : list recv_event) (ss : list send_event) (subs : list bool)
  | OpCtl (results : list (option errno)).

Definition step (tid : nat) (s : system) (o : op) : system :=
  let at_worker w := {| worker := w; point := point s; wakers := wakers s |} in
  match o with
  | OpWorker env => worker_step tid env s
  | OpEnqueue fd peer => at_worker (snd (fst (EnqueueConnection (worker s) fd peer (Some ""))))
  | OpRequestStop => at_worker (RequestStop (worker s))
  | OpRunTask i =>
      match tasks (worker s) !! i with
      | None => s
      | Some _ => {| worker := RunTask i (worker s); point := point s; wakers := S (wakers s) |}
      end
  | OpWake =>
      match wakers s with
      | O => s
      | S n => {| worker := RunTask_wake (worker s); point := point s; wakers := n |}
      end
  | OpKernel fd clk rs ss subs =>
      at_worker (on_connection fd (fun c => apply_event opts reg c (EvKernel clk rs ss subs)) (worker s))
  | OpCtl results => at_worker (set_ctl_script (ctl_script (worker s) ++ results) (worker s))
  end.

Definition run (tid : nat) (s : system) (ops : list op) : system := fold_left (step tid) ops s.

(** A worker after [Init] and [Start], at the beginning of [Run]. *)
Definition started (thread_pool : bool) (tid : nat) (epoll evfd : Z) : system :=
  let w := snd (fst (Init (make_worker thread_pool) tid epoll evfd None EINTR (Some ""))) in
  let w := snd (fst (Start w (Some ""))) in
  {| worker := set_owner_thread_id (Some tid) w; point := AtWait; wakers := 0 |}.

End worker.

(** ** Calls on connections *)

Section lemmas.
Context (reg : registry).
Context `{ProtoMessage RpcRequest} `{ProtoMessage RpcResponse}.

Abbreviation opts := Options_default.
Abbreviation go_on := (resume opts reg).

(** The fields a call on a connection leaves alone. *)
Definition static (w : WorkerLoop) :=
  (thread_pool_ w, epoll_fd_ w, wake_fd_ w, wake_count w, interest w, ctl_script w,
   completed_queue_ w, pending_connections_ w, stop_requested_ w, accepting_new_connections_ w,
   connection_count_ w, total_accepted_count_ w, completed_request_count_ w,
   next_connection_token_ w, method_stats_ w, thread_started w, owner_thread_id_ w, delivered w,
   discarded w, closed w, blocked w, gone w).

(** The pool takes the requests of a worker with a pool. *)
Lemma absorb_spec fd token ds : forall w,
  static (absorb fd token ds w) = static w /\
  connections_ (absorb fd token ds w) = connections_ w /\
  let n := if thread_pool_ w && bool_decide (is_Some (completed_queue_ w)) then length ds else 0 in
  tasks (absorb fd token ds w) = tasks w ++
    map (fun d => {| task_fd := fd; task_token := token; task_request := d |}) (take n ds) /\
  in_flight_request_count_ (absorb fd token ds w) = in_flight_request_count_ w + n /\
  submitted_request_count_ (absorb fd token ds w) = submitted_request_count_ w + n.
Proof.
  induction ds as [|d ds IH]; intros w.
  - cbv zeta. cbn [absorb fold_left length]. rewrite take_nil. cbn [map]. rewrite app_nil_r.
    destruct (_ && _); rewrite !Nat.add_0_r; done.
  - change (absorb fd token (d :: ds) w) with
      (absorb fd token ds (snd (fst (DispatchRequestToThreadPool w fd token d true None)))).
    unfold DispatchRequestToThreadPool.
    destruct (thread_pool_ w) eqn:Et; cbn [negb fst snd].
    + destruct (completed_queue_ w) as [q|] eqn:Eq; cbn [negb fst snd].
      * set (w1 := set_in_flight_request_count _ _).
        destruct (IH w1) as (H1 & H2 & H3 & H4 & H5).
        change (thread_pool_ w1) with (thread_pool_ w) in *.
        change (completed_queue_ w1) with (completed_queue_ w) in *. rewrite Et, Eq in *.
        rewrite bool_decide_true in * by done. cbn [andb length] in *. cbv zeta in *.
        rewrite firstn_all in *. change (take (S (length ds)) (d :: ds)) with (d :: take (length ds) ds).
        rewrite firstn_all. split; [exact H1|]. split; [exact H2|]. rewrite H3, H4, H5. cbn [map].
        split; [|cbn; lia]. change (tasks w1) with (tasks w ++
          [{| task_fd := fd; task_token := token; task_request := d |}]). by rewrite <- app_assoc.
      * destruct (IH w) as (H1 & H2 & H3 & H4 & H5). rewrite Et, Eq in *. done.
    + destruct (IH w) as (H1 & H2 & H3 & H4 & H5). rewrite Et in *. done.
Qed.

Lemma on_connection_static fd f w : static (on_connection fd f w) = static w.
Proof.
  unfold on_connection. destruct (connections_ w !! fd) as [st|]; [|done].
  match goal with |- static (absorb ?a ?b ?c ?x) = _ => destruct (absorb_spec a b c x) as [-> _] end.
  done.
Qed.

Lemma on_connection_connections fd f w :
  connections_ (on_connection fd f w) =
  match connections_ w !! fd with
  | Some st => <[fd := {| connection := f (connection st);
                          connection_token := connection_token st |}]> (connections_ w)
  | None => connections_ w
  end.
Proof.
  unfold on_connection. destruct (connections_ w !! fd) as [st|]; [|done].
  match goal with |- connections_ (absorb ?a ?b ?c ?x) = _ =>
    destruct (absorb_spec a b c x) as (_ & -> & _) end. done.
Qed.

(** ** Well-formed workers *)

Definition pend (cs : gmap Z ConnectionState) : gmap Z bool :=
  (fun st => HasPendingWrite (connection st)) <$> cs.

(** Between two parts of a round: no wait has blocked, epoll knows exactly the
    worker's connections and watches for writability exactly those with output
    waiting, and every coroutine is where it should be. *)
Record worker_wf (w : WorkerLoop) : Prop := {
  wf_blocked : blocked w = false;
  wf_interest : interest w = pend (connections_ w);
  wf_count : connection_count_ w = size (connections_ w);
  wf_co : map_Forall (fun _ st => co_wf (connection st)) (connections_ w);
}.

(** While the connection of [fd] is worked on, its interest may be behind. *)
Record wf_at (fd : Z) (w : WorkerLoop) : Prop := {
  wa_blocked : blocked w = false;
  wa_interest : exists b, interest w = <[fd := b]> (pend (connections_ w));
  wa_count : connection_count_ w = size (connections_ w);
  wa_co : map_Forall (fun _ st => co_wf (connection st)) (connections_ w);
  wa_here : is_Some (connections_ w !! fd);
}.

Lemma worker_wf_at fd w : worker_wf w -> is_Some (connections_ w !! fd) -> wf_at fd w.
Proof.
  intros [] [st Hst]. split; try done. exists (HasPendingWrite (connection st)).
  rewrite wf_interest0, insert_id; [done|]. unfold pend. by rewrite lookup_fmap, Hst.
Qed.

(** A step that touches only fields [worker_wf] does not mention. *)
Definition wf_fields (w : WorkerLoop) := (blocked w, interest w, connection_count_ w, connections_ w).

Lemma worker_wf_fields w w' : wf_fields w' = wf_fields w -> worker_wf w -> worker_wf w'.
Proof.
  unfold wf_fields. intros E []. injection E as E1 E2 E3 E4.
  split; rewrite ?E1, ?E2, ?E3, ?E4; done.
Qed.

Lemma wf_at_fields fd w w' : wf_fields w' = wf_fields w -> wf_at fd w -> wf_at fd w'.
Proof.
  unfold wf_fields. intros E []. injection E as E1 E2 E3 E4.
  split; rewrite ?E1, ?E2, ?E3, ?E4; done.
Qed.

Lemma on_connection_wf_at fd f w :
  (forall c, co_wf c -> co_wf (f c)) -> wf_at fd w -> wf_at fd (on_connection fd f w).
Proof.
  intros Hf [H1 [b H2] H3 H4 [st Hst]].
  pose proof (on_connection_static fd f w) as Hs. unfold static in Hs.
  pose proof (on_connection_connections fd f w) as Hc. rewrite Hst in Hc.
  set (w' := on_connection fd f w) in *. clearbody w'. injection Hs; intros. clear Hs.
  split; [congruence|..]; rewrite ?Hc.
  - exists b. replace (interest w') with (interest w) by congruence. rewrite H2. unfold pend.
    by rewrite fmap_insert, insert_insert_eq.
  - replace (connection_count_ w') with (connection_count_ w) by congruence.
    by rewrite H3, map_size_insert_Some.
  - apply map_Forall_insert_2; [|done]. apply Hf. exact (H4 fd st Hst).
  - rewrite lookup_insert_eq. by eexists.
Qed.

Lemma delete_wf fd w :
  wf_at fd w ->
  worker_wf (set_connection_count (size (delete fd (connections_ w)))
    (close_fd fd (set_connections (delete fd (connections_ w)) (epoll_ctl_del w fd)))).
Proof.
  intros [H1 [b H2] H3 H4 H5]. split; try done.
  - cbn. rewrite H2. unfold pend. by rewrite delete_insert_eq, fmap_delete.
  - cbn. by apply map_Forall_delete.
Qed.

(** Closing a connection never waits and leaves a well-formed worker. *)
Lemma CloseConnection_wf fd w :
  wf_at fd w -> exists w', CloseConnection reg fd w = (true, w') /\ worker_wf w' /\
    connections_ w' = delete fd (connections_ w).
Proof.
  intros Hw. unfold CloseConnection. destruct (wa_here _ _ Hw) as [st Hst]. rewrite Hst.
  pose proof (wa_co _ _ Hw fd st Hst) as Hco. cbn [connection] in Hco.
  set (w1 := on_connection fd (MarkClosing go_on) w).
  assert (wf_at fd w1) as Hw1.
  { apply on_connection_wf_at; [|done]. intros c Hc.
    destruct (MarkClosing_closes opts reg c Hc) as (? & ? & ? & _). by apply done_wf. }
  assert (exists st1, connections_ w1 !! fd = Some st1 /\ co (connection st1) = CoDone /\
    idle (connection st1) /\ connections_ w1 = <[fd := st1]> (connections_ w)) as (st1 & E1 & D1 & I1 & C1).
  { unfold w1. rewrite on_connection_connections, Hst. rewrite lookup_insert_eq. eexists.
    split; [done|]. destruct (MarkClosing_closes opts reg _ Hco) as (? & ? & _). done. }
  clearbody w1.
  set (w2 := on_connection fd (NotifyReadable go_on) w1).
  assert (wf_at fd w2) as Hw2 by (apply on_connection_wf_at; [apply NotifyReadable_wf|done]).
  assert (exists st2, connections_ w2 !! fd = Some st2 /\ co (connection st2) = CoDone /\
    idle (connection st2) /\ connections_ w2 = <[fd := st2]> (connections_ w)) as (st2 & E2 & D2 & I2 & C2).
  { unfold w2. rewrite on_connection_connections, E1, lookup_insert_eq. eexists. split; [done|].
    cbn [connection]. unfold NotifyReadable. rewrite ResumeReader_idle by done.
    split; [done|]. split; [done|]. by rewrite C1, insert_insert_eq. }
  clearbody w2. clear w1 Hw1 E1 C1 D1 I1.
  set (w3 := on_connection fd (NotifyWritable go_on) w2).
  assert (wf_at fd w3) as Hw3 by (apply on_connection_wf_at; [apply NotifyWritable_wf|done]).
  assert (exists st3, connections_ w3 !! fd = Some st3 /\ co (connection st3) = CoDone /\
    connections_ w3 = <[fd := st3]> (connections_ w)) as (st3 & E3 & D3 & C3).
  { unfold w3. rewrite on_connection_connections, E2, lookup_insert_eq. eexists. split; [done|].
    cbn [connection]. unfold NotifyWritable. rewrite ResumeWriter_idle by done.
    split; [done|]. by rewrite C2, insert_insert_eq. }
  clearbody w3. rewrite E3, bool_decide_true by done.
  eexists. split; [reflexivity|]. split; [eapply worker_wf_fields; [|exact (delete_wf fd w3 Hw3)]; done|].
  cbn. rewrite C3. by rewrite delete_insert_eq.
Qed.

Lemma UpdateEpollInterest_wf fd w e :
  wf_at fd w -> exists w', UpdateEpollInterest reg fd w e = (true, w', e) /\ worker_wf w' /\
    (connections_ w' = connections_ w \/ connections_ w' = delete fd (connections_ w)).
Proof.
  intros Hw. unfold UpdateEpollInterest, epoll_ctl_mod, next_ctl.
  destruct (wa_here _ _ Hw) as [st Hst]. rewrite Hst.
  destruct (wa_interest _ _ Hw) as [b Hb]. rewrite Hb, lookup_insert_eq.
  assert (worker_wf (set_interest (<[fd := HasPendingWrite (connection st)]> (interest w)) w)) as Hok.
  { destruct Hw. split; try done. cbn. rewrite Hb, insert_insert_eq.
    apply insert_id. unfold pend. by rewrite lookup_fmap, Hst. }
  assert (forall w1, wf_fields w1 = wf_fields w -> exists w', (let '(ok, w2) := CloseConnection reg fd w1 in
    if ok then (true, w2, e)
    else (false, w2, set_error e "failed to close connection after epoll mod failure")) = (true, w', e) /\
    worker_wf w' /\ (connections_ w' = connections_ w \/ connections_ w' = delete fd (connections_ w)))
    as Hclose.
  { intros w1 E1. destruct (CloseConnection_wf fd w1) as (w' & -> & H1 & H2); [by eapply wf_at_fields|].
    exists w'. split; [done|]. split; [done|]. right. rewrite H2. unfold wf_fields in E1. congruence. }
  destruct (ctl_script w) as [|[en|] rest].
  - eexists. split; [reflexivity|]. split; [exact Hok|]. by left.
  - by apply Hclose.
  - eexists. split; [reflexivity|]. split; [|by left].
    apply (worker_wf_fields (set_interest (<[fd := HasPendingWrite (connection st)]> (interest w)) w)); [|exact Hok].
    cbn. by rewrite Hb.
Qed.

(** The end of an event: close the connection or bring its interest up to
    date. *)
Lemma HandleEvent_wf fd ev w e :
  worker_wf w -> exists w', HandleEvent reg fd ev w e = (true, w', e) /\ worker_wf w'.
Proof.
  intros Hw. unfold HandleEvent. destruct (_ =? _)%Z; [by exists w|].
  destruct (connections_ w !! fd) as [st|] eqn:Hst; [|by exists w].
  apply (worker_wf_at fd) in Hw; [|by eexists].
  set (w1 := if ev_in ev then _ else w).
  assert (wf_at fd w1) as Hw1.
  { unfold w1. destruct (ev_in ev); [|done]. apply on_connection_wf_at; [apply NotifyReadable_wf|done]. }
  set (w2 := if ev_out ev then _ else w1).
  assert (wf_at fd w2) as Hw2.
  { unfold w2. destruct (ev_out ev); [|done]. apply on_connection_wf_at; [apply NotifyWritable_wf|done]. }
  set (w3 := if ev_close ev then _ else w2).
  assert (wf_at fd w3) as Hw3.
  { unfold w3. destruct (ev_close ev); [|done].
    apply on_connection_wf_at; [apply NotifyWritable_wf|].
    apply on_connection_wf_at; [apply NotifyReadable_wf|].
    apply on_connection_wf_at; [|done]. intros c Hc.
    destruct (MarkClosing_closes opts reg c Hc) as (? & ? & ? & _). by apply done_wf. }
  clearbody w3. destruct (wa_here _ _ Hw3) as [st3 ->].
  destruct (CloseConnection_wf fd w3 Hw3) as (w4 & -> & Hw4 & _).
  destruct (negb _); [by exists w4|]. destruct (ShouldClose _); [by exists w4|].
  destruct (UpdateEpollInterest_wf fd w3 e Hw3) as (w5 & -> & Hw5 & _). by exists w5.
Qed.

Lemma HandleEvents_wf events : forall w e,
  worker_wf w -> exists w', HandleEvents reg events w e = (true, w', e) /\ worker_wf w'.
Proof.
  induction events as [|[fd ev] events IH]; intros w e Hw; cbn [HandleEvents]; [by exists w|].
  destruct (HandleEvent_wf fd ev w e Hw) as (w1 & -> & Hw1). by apply IH.
Qed.

Lemma TickAll_wf now w : worker_wf w -> worker_wf (TickAll reg now w).
Proof.
  intros []. split; try done.
  - cbn [interest connections_ TickAll set_connections]. rewrite wf_interest0. unfold pend.
    rewrite <- map_fmap_compose.
    apply map_fmap_ext. intros fd st Hst. unfold compose, HasPendingWrite. cbn [connection].
    by rewrite (proj1 (Tick_keeps opts reg now _ (wf_co0 fd st Hst))).
  - cbn. by rewrite map_size_fmap.
  - cbn [connections_ TickAll set_connections]. intros fd st'. rewrite lookup_fmap.
    intros (st & Hst & ->)%fmap_Some. cbn [connection].
    apply Tick_wf. exact (wf_co0 fd st Hst).
Qed.

Lemma DeliverCompleted_wf r w e :
  worker_wf w -> exists w', DeliverCompleted reg r w e = (true, w', e) /\ worker_wf w'.
Proof.
  intros Hw. unfold DeliverCompleted. set (w0 := set_completed_request_count _ _).
  assert (worker_wf w0) as Hw0 by by apply (worker_wf_fields w). clearbody w0. clear w Hw.
  destruct (connections_ w0 !! cr_fd r) as [st|] eqn:Hst;
    [|eexists; split; [done|]; by apply (worker_wf_fields w0)].
  destruct (negb _); [eexists; split; [done|]; by apply (worker_wf_fields w0)|].
  pose proof (wf_co _ Hw0 _ _ Hst) as Hco. cbn in Hco.
  pose proof (EnqueueResponse_co_wf opts (connection st) (to_response r) (Some "") Hco) as Hc.
  destruct (EnqueueResponse opts (connection st) (to_response r) (Some "")) as [[queued c] e'].
  cbn [fst snd] in Hc. apply (worker_wf_at (cr_fd r)) in Hw0; [|by eexists].
  assert (wf_at (cr_fd r) (on_connection (cr_fd r) (fun _ => c) w0)) as Hw1
    by (apply on_connection_wf_at; [done|done]).
  set (w1 := on_connection _ _ w0) in *. clearbody w1. destruct queued; cbn [negb].
  - destruct (UpdateEpollInterest_wf (cr_fd r) (on_connection (cr_fd r) (NotifyReadable go_on)
      (set_delivered (delivered w1 ++ [(connection_token st, r)]) w1)) e) as (w2 & -> & Hw2 & _);
      [|by exists w2].
    apply on_connection_wf_at; [apply NotifyReadable_wf|]. by apply (wf_at_fields _ w1).
  - destruct (CloseConnection_wf (cr_fd r) (set_discarded (discarded w1 ++ [r]) w1))
      as (w2 & -> & Hw2 & _); [by apply (wf_at_fields _ w1)|]. by exists w2.
Qed.

Lemma DrainCompleted_loop_wf local : forall w e,
  worker_wf w -> exists w', DrainCompleted_loop reg local w e = (true, w', e) /\ worker_wf w'.
Proof.
  induction local as [|r local IH]; intros w e Hw; cbn [DrainCompleted_loop]; [by exists w|].
  destruct (DeliverCompleted_wf r w e Hw) as (w1 & -> & Hw1). by apply IH.
Qed.

(** A new connection waits for its first request. *)
Lemma start_fresh now pool :
  let c := start opts reg (set_clock now (make_connection pool)) in
  co_wf c /\ HasPendingWrite c = false /\ dispatched c = [] /\ request_dispatcher_ c = pool.
Proof. split; [apply co_run_suspends; done|]. done. Qed.

Lemma AddConnection_wf w tid now fd e :
  worker_wf w -> worker_wf (snd (fst (AddConnectionOnOwnerThread reg w tid now fd e))).
Proof.
  intros Hw. unfold AddConnectionOnOwnerThread. destruct (EnsureOwnerThread w tid e) as [[] e1];
    [|by apply (worker_wf_fields w)].
  cbn [negb]. destruct (negb _); [by apply (worker_wf_fields w)|].
  unfold epoll_ctl_add. destruct (interest w !! fd) eqn:Ei; [by apply (worker_wf_fields w)|].
  assert (connections_ w !! fd = None) as Hn.
  { rewrite (wf_interest _ Hw) in Ei. unfold pend in Ei. rewrite lookup_fmap in Ei.
    by apply fmap_None in Ei. }
  destruct (next_ctl w) as [r w0] eqn:Ec.
  assert (wf_fields w0 = wf_fields w) as Ef.
  { unfold next_ctl in Ec. destruct (ctl_script w); by injection Ec as <- <-. }
  destruct r as [en|]; [by apply (worker_wf_fields w)|]. cbv zeta.
  set (w1 := set_next_connection_token _ _).
  assert (connections_ w1 = connections_ w /\ interest w1 = <[fd := false]> (interest w) /\
    blocked w1 = blocked w /\ connection_count_ w1 = connection_count_ w) as (C1 & I1 & B1 & N1).
  { unfold w1. cbn. unfold wf_fields in Ef. injection Ef as -> -> -> ->. done. }
  clearbody w1. rewrite C1, Hn. cbn [fst snd].
  set (st0 := {| connection := _; connection_token := _ |}).
  set (w2 := StartConnectionCoroutine _ _ _).
  assert (connections_ w2 = <[fd := {| connection := start opts reg (connection st0);
    connection_token := connection_token st0 |}]> (connections_ w) /\ interest w2 = interest w1 /\
    blocked w2 = blocked w1) as (C2 & I2 & B2).
  { unfold w2, StartConnectionCoroutine. rewrite on_connection_connections.
    pose proof (on_connection_static fd (start opts reg)
      (set_connections (<[fd := st0]> (connections_ w)) w1)) as Hs.
    unfold static in Hs. cbn [connections_ set_connections]. rewrite lookup_insert_eq, insert_insert_eq.
    split; [done|]. cbn [interest blocked set_connections] in Hs. split; congruence. }
  clearbody w2. destruct (start_fresh now (thread_pool_ w1)) as (F1 & F2 & _).
  destruct Hw as [H1 H2 H3 H4]. split; cbn [blocked interest connection_count_ connections_
    set_total_accepted_count set_connection_count].
  - congruence.
  - rewrite I2, I1, C2, H2. unfold pend. rewrite fmap_insert. cbn [connection st0]. by rewrite F2.
  - done.
  - rewrite C2. by apply map_Forall_insert_2.
Qed.

Lemma close_fds_wf rest w :
  worker_wf w -> worker_wf (foldr (fun (p : Z * string) => close_fd (fst p)) w rest).
Proof. intros Hw. induction rest as [|p rest IH]; [done|]. by eapply worker_wf_fields; [|exact IH]. Qed.

Lemma DrainPending_loop_wf tid now local : forall w e,
  worker_wf w -> worker_wf (snd (fst (DrainPending_loop reg tid now local w e))).
Proof.
  induction local as [|[fd peer] local IH]; intros w e Hw; cbn [DrainPending_loop]; [done|].
  pose proof (AddConnection_wf w tid now fd e Hw) as Ha.
  destruct (AddConnectionOnOwnerThread reg w tid now fd e) as [[[] w1] e1]; [by apply IH|].
  by apply close_fds_wf.
Qed.

Lemma DrainPendingConnections_wf w tid now e :
  worker_wf w -> worker_wf (snd (fst (DrainPendingConnections reg w tid now e))).
Proof.
  intros Hw. unfold DrainPendingConnections. destruct (EnsureOwnerThread w tid e) as [[] e1]; [|done].
  apply DrainPending_loop_wf. by apply (worker_wf_fields w).
Qed.

Lemma DrainWakeFd_wf w tid fail e :
  worker_wf w -> worker_wf (snd (fst (DrainWakeFd w tid fail e))).
Proof.
  intros Hw. unfold DrainWakeFd. destruct (EnsureOwnerThread w tid e) as [[] e1]; [|done].
  destruct fail; by apply (worker_wf_fields w).
Qed.

Lemma DrainCompletedResponses_wf w tid e :
  worker_wf w -> worker_wf (snd (fst (DrainCompletedResponses reg w tid e))).
Proof.
  intros Hw. unfold DrainCompletedResponses. destruct (EnsureOwnerThread w tid e) as [[] e1]; [|done].
  cbn [negb]. destruct (completed_queue_ w) as [q|]; [|done].
  match goal with |- context [DrainCompleted_loop reg ?l ?x ?e] =>
    destruct (DrainCompleted_loop_wf l x e) as (w1 & -> & Hw1); [by apply (worker_wf_fields w)|done] end.
Qed.

Lemma CloseConnection_any_wf fd w : worker_wf w -> worker_wf (snd (CloseConnection reg fd w)).
Proof.
  intros Hw. destruct (connections_ w !! fd) as [st|] eqn:Hst.
  - destruct (CloseConnection_wf fd w) as (w' & -> & Hw' & _); [by apply worker_wf_at|done].
  - unfold CloseConnection. by rewrite Hst.
Qed.

Lemma CloseAllConnections_wf w : worker_wf w -> worker_wf (CloseAllConnections reg w).
Proof.
  intros Hw. unfold CloseAllConnections. induction (map fst _) as [|fd fds IH]; [done|].
  by apply CloseConnection_any_wf.
Qed.

Lemma Run_drain_wf w tid now wake : worker_wf w -> worker_wf (Run_drain reg w tid now wake).
Proof.
  intros Hw. unfold Run_drain. pose proof (DrainWakeFd_wf w tid wake (Some "") Hw) as Hd.
  destruct (DrainWakeFd w tid wake (Some "")) as [[[] w2] e2]; [|done].
  pose proof (DrainPendingConnections_wf w2 tid now e2 Hd) as Hp.
  destruct (DrainPendingConnections reg w2 tid now e2) as [[ok w3] e3].
  by apply DrainCompletedResponses_wf.
Qed.

Lemma Run_stop_wf w tid now wake : worker_wf w -> worker_wf (Run_stop reg w tid now wake).
Proof.
  intros Hw. unfold Run_stop. apply (worker_wf_fields (CloseAllConnections reg
    (Run_drain reg (set_accepting_new_connections false w) tid now wake))); [done|].
  apply CloseAllConnections_wf, Run_drain_wf. by apply (worker_wf_fields w).
Qed.

Lemma worker_step_wf tid env s : worker_wf (worker s) -> worker_wf (worker (worker_step reg tid env s)).
Proof.
  intros Hw. unfold worker_step. destruct (point s) as [|env' evs|env' evs|env' evs|env' evs| |].
  - destruct (stop_requested_ _); [done|]. destruct (pe_wait env); done.
  - pose proof (DrainWakeFd_wf (worker s) tid (pe_wake env') (Some "") Hw) as Hd.
    by destruct (DrainWakeFd _ _ _ _) as [[ok w] e].
  - pose proof (DrainPendingConnections_wf (worker s) tid (pe_now env') (Some "") Hw) as Hd.
    by destruct (DrainPendingConnections _ _ _ _ _) as [[ok w] e].
  - pose proof (DrainCompletedResponses_wf (worker s) tid (Some "") Hw) as Hd.
    by destruct (DrainCompletedResponses _ _ _ _) as [[ok w] e].
  - destruct (HandleEvents_wf evs (TickAll reg (pe_now env') (worker s)) (Some "")) as (w & -> & Hw');
      [by apply TickAll_wf|done].
  - by apply Run_stop_wf.
  - done.
Qed.

(** A call that keeps the queue of a connection. *)
Lemma on_connection_wf fd f w :
  (forall c, co_wf c -> co_wf (f c)) ->
  (forall c, HasPendingWrite (f c) = HasPendingWrite c) ->
  worker_wf w -> worker_wf (on_connection fd f w).
Proof.
  intros Hf Hp Hw. destruct (connections_ w !! fd) as [st|] eqn:Hst;
    [|unfold on_connection; by rewrite Hst].
  destruct (on_connection_wf_at fd f w Hf) as [H1 _ H3 H4 _]; [by apply worker_wf_at|].
  split; try done. pose proof (on_connection_static fd f w) as Hs. unfold static in Hs.
  replace (interest (on_connection fd f w)) with (interest w) by congruence.
  rewrite on_connection_connections, Hst, (wf_interest _ Hw). unfold pend.
  rewrite fmap_insert. cbn [connection]. rewrite Hp.
  symmetry. apply insert_id. by rewrite lookup_fmap, Hst.
Qed.

Lemma op_wf tid s o : worker_wf (worker s) -> worker_wf (worker (step reg tid s o)).
Proof.
  intros Hw. destruct o as [env|fd peer| |i| |fd clk rs ss subs|results]; cbn [step].
  - by apply worker_step_wf.
  - cbn [worker]. unfold EnqueueConnection, Wakeup. repeat split_match; by apply (worker_wf_fields (worker s)).
  - cbn [worker]. unfold RequestStop, Wakeup. split_match; by apply (worker_wf_fields (worker s)).
  - destruct (tasks (worker s) !! i) as [t|] eqn:Et; [|done]. cbn [worker]. unfold RunTask.
    rewrite Et. unfold push_completed. repeat split_match; by apply (worker_wf_fields (worker s)).
  - destruct (wakers s); [done|]. cbn [worker]. unfold RunTask_wake.
    repeat split_match; by apply (worker_wf_fields (worker s)).
  - cbn [worker]. by apply on_connection_wf.
  - by apply (worker_wf_fields (worker s)).
Qed.

Lemma worker_run_wf tid ops : forall s, worker_wf (worker s) -> worker_wf (worker (run reg tid s ops)).
Proof. induction ops as [|o ops IH]; intros s Hs; [done|]. apply IH. by apply op_wf. Qed.

(** ** Requests, tasks and responses *)

(** What the tasks of the pool will return. *)
Definition execs (ts : list Task) : list CompletedResponse :=
  map (fun t => execute reg (task_fd t) (task_token t) (task_request t)) ts.

Definition queued (w : WorkerLoop) : list CompletedResponse :=
  match completed_queue_ w with Some q => responses q | None => [] end.

(** The requests that are being worked on: in the pool, in the hands of the
    worker ([local]) or in the completion queue. *)
Definition work (local : list CompletedResponse) (w : WorkerLoop) : list CompletedResponse :=
  execs (tasks w) ++ local ++ queued w.

Definition with_token (t : Z) (rs : list CompletedResponse) : list CompletedResponse :=
  filter (fun r => cr_connection_token r = t) rs.

(** The responses enqueued on the connection with token [t]. *)
Definition delivered_to (t : Z) (ds : list (Z * CompletedResponse)) : list CompletedResponse :=
  map snd (filter (fun p => fst p = t) ds).

(** [lp] are connections in the hands of the worker, [N] bounds the tokens, [ex]
    is a connection that is about to be closed. *)
Record conserved (ex : option Z) (N : Z) (lp : list (Z * string)) (local : list CompletedResponse) (w : WorkerLoop)
    : Prop := {
  cv_queue : exists q, completed_queue_ w = Some q /\ accepting q = true;
  cv_flight : in_flight_request_count_ w = length (work local w);
  cv_submitted : submitted_request_count_ w = completed_request_count_ w + in_flight_request_count_ w;
  cv_mode : map_Forall (fun _ st => request_dispatcher_ (connection st) = thread_pool_ w)
    (connections_ w);
  cv_next : (0 <= next_connection_token_ w)%Z /\
    (next_connection_token_ w + Z.of_nat (length lp) + Z.of_nat (length (pending_connections_ w)) <= N)%Z;
  cv_live : map_Forall (fun _ st => (connection_token st < next_connection_token_ w)%Z) (connections_ w);
  cv_work : Forall (fun r => (cr_connection_token r < next_connection_token_ w)%Z) (work local w);
  cv_sent : Forall (fun p => (fst p < next_connection_token_ w)%Z) (delivered w);
  cv_distinct : forall fd1 fd2 st1 st2, connections_ w !! fd1 = Some st1 ->
    connections_ w !! fd2 = Some st2 -> connection_token st1 = connection_token st2 -> fd1 = fd2;
  cv_perm : map_Forall (fun fd st => ex <> Some fd ->
    map (execute reg fd (connection_token st)) (dispatched (connection st)) ≡ₚ
    with_token (connection_token st) (work local w) ++ delivered_to (connection_token st) (delivered w))
    (connections_ w);
}.

(** The fields [conserved] depends on. *)
Definition cv_fields (w : WorkerLoop) :=
  (completed_queue_ w, tasks w, in_flight_request_count_ w, submitted_request_count_ w,
   completed_request_count_ w, connections_ w, thread_pool_ w, next_connection_token_ w,
   pending_connections_ w, delivered w).

Lemma conserved_fields ex N lp local w w' :
  cv_fields w' = cv_fields w -> conserved ex N lp local w -> conserved ex N lp local w'.
Proof.
  unfold cv_fields. intros E Hc. injection E as E1 E2 E3 E4 E5 E6 E7 E8 E9 E10.
  assert (work local w' = work local w) as Ew by (unfold work, queued; by rewrite E1, E2).
  destruct Hc. split; rewrite ?Ew, ?E1, ?E3, ?E4, ?E5, ?E6, ?E7, ?E8, ?E9, ?E10; done.
Qed.

Lemma with_token_app t rs1 rs2 : with_token t (rs1 ++ rs2) = with_token t rs1 ++ with_token t rs2.
Proof. apply filter_app. Qed.

Lemma with_token_all t rs : Forall (fun r => cr_connection_token r = t) rs -> with_token t rs = rs.
Proof.
  unfold with_token. induction 1 as [|r rs Hr Hrs IH]; [done|].
  by rewrite filter_cons_True, IH.
Qed.

Lemma with_token_none t rs : Forall (fun r => cr_connection_token r <> t) rs -> with_token t rs = [].
Proof.
  unfold with_token. induction 1 as [|r rs Hr Hrs IH]; [done|]. by rewrite filter_cons_False.
Qed.

Lemma execute_token r fd t d : cr_connection_token (execute r fd t d) = t.
Proof. unfold execute. repeat (split_match; try done). Qed.

Lemma execute_fd r fd t d : cr_fd (execute r fd t d) = fd.
Proof. unfold execute. repeat (split_match; try done). Qed.

Lemma execs_app ts1 ts2 : execs (ts1 ++ ts2) = execs ts1 ++ execs ts2.
Proof. apply map_app. Qed.

Lemma delivered_to_fresh t ds :
  Forall (fun p => (fst p < t)%Z) ds -> delivered_to t ds = [].
Proof.
  unfold delivered_to. induction 1 as [|p ds Hp Hds IH]; [done|].
  rewrite filter_cons_False; [done|]. lia.
Qed.

(** What a call on a connection does, all fields together. *)
Lemma on_connection_effect fd f w st :
  connections_ w !! fd = Some st -> appends (connection st) (f (connection st)) ->
  request_dispatcher_ (connection st) = thread_pool_ w -> is_Some (completed_queue_ w) ->
  exists ds, dispatched (f (connection st)) = dispatched (connection st) ++ ds /\
    let w' := on_connection fd f w in
    tasks w' = tasks w ++ map (fun d => {| task_fd := fd; task_token := connection_token st;
                                          task_request := d |}) ds /\
    in_flight_request_count_ w' = in_flight_request_count_ w + length ds /\
    submitted_request_count_ w' = submitted_request_count_ w + length ds.
Proof.
  intros Hst (_ & [ds Hds] & Hoff) Hmode Hq. exists ds. split; [done|]. cbv zeta.
  unfold on_connection. rewrite Hst. rewrite Hds, drop_app_length.
  match goal with |- context [absorb ?a ?b ?c ?x] => destruct (absorb_spec a b c x) as (_ & _ & H3 & H4 & H5) end.
  cbn [thread_pool_ completed_queue_ set_connections] in *. rewrite bool_decide_true in * by done.
  assert ((if thread_pool_ w && true then length ds else 0) = length ds) as En.
  { destruct (thread_pool_ w); [done|]. specialize (Hoff Hmode). rewrite Hds in Hoff.
    assert (ds = []) as -> by (by apply (app_inv_head (dispatched (connection st))); rewrite app_nil_r).
    done. }
  rewrite En in *. rewrite firstn_all in H3. done.
Qed.

Lemma on_connection_keeps fd f w :
  let w' := on_connection fd f w in
  thread_pool_ w' = thread_pool_ w /\ completed_queue_ w' = completed_queue_ w /\
  pending_connections_ w' = pending_connections_ w /\
  completed_request_count_ w' = completed_request_count_ w /\
  next_connection_token_ w' = next_connection_token_ w /\ delivered w' = delivered w.
Proof.
  pose proof (on_connection_static fd f w) as Hs. unfold static in Hs.
  cbv zeta. split_and!; congruence.
Qed.

Lemma insert_token_back fd fd' (st st' : ConnectionState) c' (m : gmap Z ConnectionState) :
  m !! fd = Some st ->
  <[fd := {| connection := c'; connection_token := connection_token st |}]> m !! fd' = Some st' ->
  exists st'', m !! fd' = Some st'' /\ connection_token st'' = connection_token st'.
Proof.
  intros Hst. rewrite lookup_insert. destruct (decide (fd = fd')) as [->|]; [|by eauto].
  intros [= <-]. by exists st.
Qed.

Lemma on_connection_conserved ex N lp local fd f w :
  (forall st, connections_ w !! fd = Some st -> appends (connection st) (f (connection st))) ->
  conserved ex N lp local w -> conserved ex N lp local (on_connection fd f w).
Proof.
  intros Hf Hc. destruct (connections_ w !! fd) as [st|] eqn:Hst;
    [|unfold on_connection; by rewrite Hst].
  specialize (Hf st eq_refl).
  destruct (cv_queue _ _ _ _ _ Hc) as (q & Hq & _).
  destruct (on_connection_effect fd f w st Hst Hf (cv_mode _ _ _ _ _ Hc _ _ Hst)) as (ds & Hd & T & F & S);
    [by rewrite Hq|].
  pose proof (on_connection_connections fd f w) as Ec. rewrite Hst in Ec.
  destruct (on_connection_keeps fd f w) as (S1 & S2 & S3 & S4 & S5 & S6).
  set (w' := on_connection fd f w) in *. clearbody w'.
  set (t := connection_token st) in *.
  assert (work local w' ≡ₚ work local w ++ map (execute reg fd t) ds) as Hwork.
  { unfold work, queued. rewrite T, S2, execs_app. unfold execs. rewrite (map_map _ _ ds). cbn.
    solve_Permutation. }
  assert (Forall (fun r => cr_connection_token r = t) (map (execute reg fd t) ds)) as Htok.
  { apply Forall_map, Forall_forall. intros d _. apply execute_token. }
  destruct Hc. split; rewrite ?S1, ?S2, ?S3, ?S4, ?S5, ?S6; try done.
  - rewrite F, Hwork, length_app, length_map. lia.
  - lia.
  - rewrite Ec. apply map_Forall_insert_2; [|done]. cbn [connection]. rewrite (proj1 Hf).
    exact (cv_mode0 fd st Hst).
  - rewrite Ec. apply map_Forall_insert_2; [|done]. exact (cv_live0 fd st Hst).
  - rewrite Hwork. apply Forall_app. split; [done|]. eapply Forall_impl; [exact Htok|].
    intros r ->. exact (cv_live0 fd st Hst).
  - rewrite Ec. intros fd1 fd2 st1 st2 H1 H2 E.
    destruct (insert_token_back _ _ _ _ _ _ Hst H1) as (s1 & L1 & E1),
      (insert_token_back _ _ _ _ _ _ Hst H2) as (s2 & L2 & E2).
    eapply cv_distinct0; [exact L1|exact L2|]. congruence.
  - rewrite Ec. intros fd' st'. rewrite lookup_insert. destruct (decide (fd = fd')) as [<-|Hne].
    + intros [= <-]. cbn [connection connection_token]. intros Hex. rewrite Hd, map_app.
      pose proof (cv_perm0 fd st Hst Hex) as Hp. cbv beta in Hp. fold t in Hp. rewrite Hp. unfold with_token. rewrite Hwork.
      rewrite (filter_app _ (work local w)). fold (with_token t (map (execute reg fd t) ds)).
      rewrite (with_token_all t _ Htok). fold t. solve_Permutation.
    + intros Hst' Hex. pose proof (cv_perm0 fd' st' Hst' Hex) as Hp. cbv beta in Hp. rewrite Hp. unfold with_token. rewrite Hwork, filter_app.
      fold (with_token (connection_token st') (map (execute reg fd t) ds)).
      rewrite with_token_none; [by rewrite app_nil_r|].
      eapply Forall_impl; [exact Htok|]. intros r Hr E. apply Hne.
      eapply cv_distinct0; [exact Hst|exact Hst'|]. fold t. congruence.
Qed.

Lemma respects_appends rs c c' :
  (forall R, respected opts reg R -> (forall en c, R c (rs en c)) -> R c c') ->
  rs = go_on -> appends c c'.
Proof.
  intros HR ->. apply HR; [apply appends_respected|].
  exact (co_run_respects opts reg appends (appends_respected opts reg) co_fuel).
Qed.

Lemma MarkClosing_appends c : appends c (MarkClosing go_on c).
Proof. apply (respects_appends go_on); [|done]. intros R HR Hr. by eapply MarkClosing_respects. Qed.

Lemma NotifyReadable_appends c : appends c (NotifyReadable go_on c).
Proof. apply (respects_appends go_on); [|done]. intros R HR Hr. by eapply NotifyReadable_respects. Qed.

Lemma NotifyWritable_appends c : appends c (NotifyWritable go_on c).
Proof. apply (respects_appends go_on); [|done]. intros R HR Hr. by eapply NotifyWritable_respects. Qed.

Lemma start_appends c : appends c (start opts reg c).
Proof. exact (co_run_respects opts reg appends (appends_respected opts reg) co_fuel EnTop c). Qed.

(** Closing a connection only removes what it is owed. *)
Lemma conserved_delete ex N lp local fd w :
  ex = None \/ ex = Some fd -> conserved ex N lp local w ->
  conserved None N lp local (set_connections (delete fd (connections_ w)) w).
Proof.
  intros Hex []. split; try done.
  - by apply map_Forall_delete.
  - by apply map_Forall_delete.
  - cbn. intros fd1 fd2 st1 st2 [_ H1]%lookup_delete_Some [_ H2]%lookup_delete_Some E. by eapply cv_distinct0.
  - cbn. intros fd' st' [Hne Hst']%lookup_delete_Some _. apply (cv_perm0 fd' st' Hst').
    destruct Hex; congruence.
Qed.

Lemma CloseConnection_conserved ex N lp local fd w :
  ex = None \/ ex = Some fd /\ is_Some (connections_ w !! fd) -> conserved ex N lp local w ->
  conserved None N lp local (snd (CloseConnection reg fd w)).
Proof.
  intros Hex Hc. unfold CloseConnection. destruct (connections_ w !! fd) as [st|].
  2: { destruct Hex as [->|[-> [? ?]]]; done. }
  cbv zeta. cbn [snd]. set (w3 := on_connection fd (NotifyWritable go_on) _).
  assert (conserved ex N lp local w3) as Hc3.
  { apply on_connection_conserved; [intros ??; apply NotifyWritable_appends|].
    apply on_connection_conserved; [intros ??; apply NotifyReadable_appends|].
    apply on_connection_conserved; [intros ??; apply MarkClosing_appends|done]. }
  clearbody w3.
  match goal with |- context [if ?b then w3 else set_blocked true w3] =>
    assert (conserved ex N lp local (if b then w3 else set_blocked true w3)) as Hc4
      by (destruct b; [done|by apply (conserved_fields _ _ _ _ w3)]);
    set (w4 := if b then w3 else set_blocked true w3) in * end.
  clearbody w4.
  apply (conserved_fields _ _ _ _ (set_connections (delete fd (connections_ w4)) w4)); [done|].
  apply (conserved_delete ex); [|done]. tauto.
Qed.

Lemma UpdateEpollInterest_conserved N lp local fd w e :
  conserved None N lp local w -> conserved None N lp local (snd (fst (UpdateEpollInterest reg fd w e))).
Proof.
  intros Hc. unfold UpdateEpollInterest. 
  assert (forall out, exists r w1, epoll_ctl_mod w fd out = (r, w1) /\ cv_fields w1 = cv_fields w) as Hm.
  { intros out. unfold epoll_ctl_mod, next_ctl. destruct (interest w !! fd); [|by eauto].
    destruct (ctl_script w) as [|[|] rest]; by eauto. }
  match goal with |- context [epoll_ctl_mod w fd ?o] => destruct (Hm o) as (r & w1 & -> & E) end.
  apply (conserved_fields _ _ _ _ _ _ E) in Hc. destruct r; [|done].
  pose proof (CloseConnection_conserved None N lp local fd w1 (or_introl eq_refl) Hc) as H1.
  by destruct (CloseConnection reg fd w1) as [[] w2].
Qed.

Lemma HandleEvent_conserved N lp local fd ev w e :
  conserved None N lp local w -> conserved None N lp local (snd (fst (HandleEvent reg fd ev w e))).
Proof.
  intros Hc. unfold HandleEvent. destruct (_ =? _)%Z; [done|].
  destruct (connections_ w !! fd) as [st|]; [|done]. cbv zeta.
  set (w1 := if ev_in ev then _ else w).
  assert (conserved None N lp local w1) as Hc1.
  { unfold w1. destruct (ev_in ev); [|done].
    apply on_connection_conserved; [intros ??; apply NotifyReadable_appends|done]. }
  set (w2 := if ev_out ev then _ else w1).
  assert (conserved None N lp local w2) as Hc2.
  { unfold w2. destruct (ev_out ev); [|done].
    apply on_connection_conserved; [intros ??; apply NotifyWritable_appends|done]. }
  set (w3 := if ev_close ev then _ else w2).
  assert (conserved None N lp local w3) as Hc3.
  { unfold w3. destruct (ev_close ev); [|done].
    apply on_connection_conserved; [intros ??; apply NotifyWritable_appends|].
    apply on_connection_conserved; [intros ??; apply NotifyReadable_appends|].
    apply on_connection_conserved; [intros ??; apply MarkClosing_appends|done]. }
  clearbody w3. destruct (connections_ w3 !! fd) as [st3|]; [|done].
  pose proof (CloseConnection_conserved None N lp local fd w3 (or_introl eq_refl) Hc3) as H4.
  destruct (CloseConnection reg fd w3) as [[] w4]; cbn [snd] in H4;
    (destruct (negb _); [done|]; destruct (ShouldClose _); [done|by apply UpdateEpollInterest_conserved]).
Qed.

Lemma HandleEvents_conserved N lp local events : forall w e,
  conserved None N lp local w -> conserved None N lp local (snd (fst (HandleEvents reg events w e))).
Proof.
  induction events as [|[fd ev] events IH]; intros w e Hc; cbn [HandleEvents]; [done|].
  pose proof (HandleEvent_conserved N lp local fd ev w e Hc) as H1.
  destruct (HandleEvent reg fd ev w e) as [[[] w1] e1]; [by apply IH|done].
Qed.

Lemma TickAll_conserved N lp local now w :
  worker_wf w -> conserved None N lp local w -> conserved None N lp local (TickAll reg now w).
Proof.
  intros Hw Hc.
  assert (forall fd st', connections_ (TickAll reg now w) !! fd = Some st' ->
    exists st, connections_ w !! fd = Some st /\ connection_token st' = connection_token st /\
      dispatched (connection st') = dispatched (connection st) /\
      request_dispatcher_ (connection st') = request_dispatcher_ (connection st)) as Hback.
  { intros fd st'. cbn [connections_ TickAll set_connections]. rewrite lookup_fmap.
    intros (st & Hst & ->)%fmap_Some. exists st. split; [done|]. split; [done|].
    cbn [connection]. split; [apply Tick_keeps, (wf_co _ Hw fd st Hst)|].
    apply (Tick_respects opts reg appends (appends_respected opts reg) go_on
      (co_run_respects opts reg appends (appends_respected opts reg) co_fuel)). }
  change (work local w) with (work local (TickAll reg now w)) in *.
  destruct Hc. split; try done.
  - intros fd st' (st & Hst & _ & _ & ->)%Hback. exact (cv_mode0 fd st Hst).
  - intros fd st' (st & Hst & -> & _)%Hback. exact (cv_live0 fd st Hst).
  - intros fd1 fd2 st1' st2' (st1 & H1 & -> & _)%Hback (st2 & H2 & -> & _)%Hback.
    by apply cv_distinct0.
  - intros fd st' (st & Hst & -> & -> & _)%Hback. exact (cv_perm0 fd st Hst).
Qed.

(** A response leaves the worker's hands: every connection it belongs to is the
    one about to be closed, or it is delivered. *)
Lemma conserved_drop ex N lp local r w :
  conserved None N lp (r :: local) w ->
  (forall fd st, connections_ w !! fd = Some st -> connection_token st = cr_connection_token r ->
     ex = Some fd) ->
  conserved ex N lp local (set_completed_request_count (S (completed_request_count_ w))
    (set_in_flight_request_count (in_flight_request_count_ w - 1) w)).
Proof.
  intros [] Hex.
  assert (work (r :: local) w ≡ₚ r :: work local w) as Hwork by (unfold work; solve_Permutation).
  rewrite Hwork in cv_flight0, cv_work0. apply Forall_cons in cv_work0 as [Hr Hwk].
  cbn [length] in cv_flight0. split; try done.
  - change (in_flight_request_count_ w - 1 = length (work local w)). lia.
  - change (submitted_request_count_ w =
      S (completed_request_count_ w) + (in_flight_request_count_ w - 1)). lia.
  - intros fd st Hst Hne. change (work local _) with (work local w).
    pose proof (cv_perm0 fd st Hst ltac:(done)) as Hp. cbv beta in Hp. rewrite Hp.
    unfold with_token. rewrite Hwork. rewrite filter_cons_False; [done|].
    intros E. apply Hne. by eapply Hex.
Qed.

Lemma conserved_deliver N lp local r w fd st :
  conserved None N lp (r :: local) w ->
  connections_ w !! fd = Some st -> connection_token st = cr_connection_token r ->
  conserved None N lp local
    (set_delivered (delivered w ++ [(connection_token st, r)])
       (set_completed_request_count (S (completed_request_count_ w))
          (set_in_flight_request_count (in_flight_request_count_ w - 1) w))).
Proof.
  intros Hc Hst Et.
  assert (work (r :: local) w ≡ₚ r :: work local w) as Hwork by (unfold work; solve_Permutation).
  destruct (conserved_drop (Some fd) N lp local r w Hc) as [].
  { intros fd' st' Hst' E. f_equal. eapply (cv_distinct _ _ _ _ _ Hc); [exact Hst|exact Hst'|congruence]. }
  split; try done.
  - cbn. apply Forall_app. split; [done|]. apply Forall_singleton. cbn. exact (cv_live0 fd st Hst).
  - intros fd' st' Hst' _. pose proof (cv_perm _ _ _ _ _ Hc fd' st' Hst' ltac:(done)) as Hp. cbv beta in Hp.
    change (connection_token st') with (connection_token st') in *. rewrite Hp.
    unfold with_token. rewrite Hwork. cbn [delivered set_delivered].
    change (work local _) with (work local w). unfold delivered_to. rewrite filter_app, map_app.
    destruct (decide (connection_token st' = connection_token st)) as [E|Hne].
    + rewrite filter_cons_True by congruence. rewrite (filter_cons_True _ (_, _)) by (cbn; congruence).
      cbn. solve_Permutation.
    + rewrite filter_cons_False by congruence. rewrite (filter_cons_False _ (_, _)) by (cbn; congruence).
      cbn. by rewrite app_nil_r.
Qed.

(** The response of a live connection finds it. *)
Lemma response_finds_connection N lp local r w fd st :
  conserved None N lp (r :: local) w ->
  connections_ w !! fd = Some st -> connection_token st = cr_connection_token r -> cr_fd r = fd.
Proof.
  intros Hc Hst Et. pose proof (cv_perm _ _ _ _ _ Hc fd st Hst ltac:(done)) as Hp. cbv beta in Hp.
  assert (r ∈ map (execute reg fd (connection_token st)) (dispatched (connection st))) as Hin.
  { rewrite Hp. apply elem_of_app. left. apply list_elem_of_filter. split; [done|].
    unfold work. rewrite !elem_of_app, elem_of_cons. tauto. }
  apply list_elem_of_fmap in Hin as (d & -> & _). apply execute_fd.
Qed.

Lemma on_connection_quiet fd f w st :
  connections_ w !! fd = Some st -> dispatched (f (connection st)) = dispatched (connection st) ->
  on_connection fd f w =
  set_connections (<[fd := {| connection := f (connection st);
                              connection_token := connection_token st |}]> (connections_ w)) w.
Proof. intros Hst E. unfold on_connection. by rewrite Hst, E, drop_all. Qed.

Lemma EnqueueResponse_dispatched c r e :
  dispatched (snd (fst (EnqueueResponse opts c r e))) = dispatched c.
Proof. unfold EnqueueResponse, QueueResponse. repeat (split_match; simplify_eq/=; try done). Qed.

Lemma DeliverCompleted_conserved N lp local r w e :
  conserved None N lp (r :: local) w ->
  conserved None N lp local (snd (fst (DeliverCompleted reg r w e))).
Proof.
  intros Hc. unfold DeliverCompleted. set (w0 := set_completed_request_count _ _).
  assert (forall w', (connections_ w0 !! cr_fd r = None \/ exists st,
    connections_ w0 !! cr_fd r = Some st /\ connection_token st <> cr_connection_token r) ->
    cv_fields w' = cv_fields w0 -> conserved None N lp local w') as Hdrop.
  { intros w' Hno E. apply (conserved_fields _ _ _ _ w0); [done|].
    apply (conserved_drop None N lp local r w); [done|]. intros fd st Hst Et. exfalso.
    pose proof (response_finds_connection _ _ _ _ _ _ _ Hc Hst Et) as <-.
    change (connections_ w0) with (connections_ w) in Hno. destruct Hno as [Hno|(st' & E1 & E2)]; congruence. }
  destruct (connections_ w0 !! cr_fd r) as [st|] eqn:Hst; [|apply Hdrop; by auto].
  destruct (Z.eqb_spec (connection_token st) (cr_connection_token r)) as [Et|Hne]; cbn [negb];
    [|apply Hdrop; [right; by eauto|done]].
  clear Hdrop. pose proof (EnqueueResponse_dispatched (connection st) (to_response r) (Some "")) as Hd.
  pose proof (EnqueueResponse_appends opts (connection st) (to_response r) (Some "")) as Ha.
  destruct (EnqueueResponse opts (connection st) (to_response r) (Some "")) as [[q c] e'].
  cbn [fst snd] in Hd, Ha.
  assert (forall w', connections_ w' = connections_ w0 -> forall st', connections_ w' !! cr_fd r = Some st' ->
    appends (connection st') ((fun _ => c) (connection st'))) as Ha'.
  { intros w' E st'. rewrite E, Hst. by intros [= <-]. }
  destruct q; cbn [negb].
  - apply UpdateEpollInterest_conserved.
    apply on_connection_conserved; [intros ??; apply NotifyReadable_appends|].
    set (w1 := set_delivered (delivered w ++ [(connection_token st, r)]) w0).
    assert (conserved None N lp local (on_connection (cr_fd r) (fun _ => c) w1)) as H1.
    { apply on_connection_conserved; [by apply Ha'|]. by apply (conserved_deliver _ _ _ _ _ (cr_fd r)). }
    rewrite (on_connection_quiet _ _ w1 st Hst Hd) in H1.
    rewrite (on_connection_quiet _ _ w0 st Hst Hd). exact H1.
  - pose proof (CloseConnection_conserved (Some (cr_fd r)) N lp local (cr_fd r)
      (set_discarded (discarded (on_connection (cr_fd r) (fun _ => c) w0) ++ [r])
         (on_connection (cr_fd r) (fun _ => c) w0))) as H1.
    destruct (CloseConnection reg (cr_fd r) _) as [[] w2]; apply H1.
    1, 3: right; split; [done|]; cbn [connections_ set_discarded];
      rewrite on_connection_connections, Hst, lookup_insert_eq; by eexists.
    all: apply (conserved_fields _ _ _ _ (on_connection (cr_fd r) (fun _ => c) w0)); [done|];
      apply on_connection_conserved; [by apply Ha'|]; 
      apply (conserved_drop (Some (cr_fd r)) N lp local r w); [done|]; intros fd' st' Hst' E; f_equal; by eapply response_finds_connection.
Qed.

Lemma DrainCompleted_loop_conserved N lp local : forall w e,
  worker_wf w -> conserved None N lp local w ->
  conserved None N lp [] (snd (fst (DrainCompleted_loop reg local w e))).
Proof.
  induction local as [|r local IH]; intros w e Hw Hc; cbn [DrainCompleted_loop]; [done|].
  pose proof (DeliverCompleted_conserved N lp local r w e Hc) as H1.
  destruct (DeliverCompleted_wf r w e Hw) as (w1 & E & Hw1). rewrite E in *. by apply IH.
Qed.

(** The worker takes the whole queue. *)
Lemma conserved_take N lp w q :
  completed_queue_ w = Some q -> conserved None N lp [] w ->
  conserved None N lp (responses q)
    (set_completed_queue (Some {| responses := []; accepting := accepting q;
                                  cq_wake_fd := cq_wake_fd q |}) w).
Proof.
  intros Eq Hc. set (w1 := set_completed_queue _ w).
  assert (work (responses q) w1 = work [] w) as Ew.
  { unfold work, queued. cbn. rewrite Eq. by rewrite app_nil_r. }
  destruct Hc. split; rewrite ?Ew; try done.
  destruct cv_queue0 as (q' & Hq' & Ha). rewrite Eq in Hq'. injection Hq' as <-.
  by eexists.
Qed.

Lemma DrainCompletedResponses_conserved N lp w tid e :
  worker_wf w -> conserved None N lp [] w ->
  conserved None N lp [] (snd (fst (DrainCompletedResponses reg w tid e))).
Proof.
  intros Hw Hc. unfold DrainCompletedResponses.
  destruct (EnsureOwnerThread w tid e) as [[] e1]; [|done]. cbn [negb].
  destruct (completed_queue_ w) as [q|] eqn:Eq; [|done].
  apply DrainCompleted_loop_conserved; [by apply (worker_wf_fields w)|by apply conserved_take].
Qed.

(** A new connection has a token nobody has. *)
Lemma conserved_insert N lp local fd st p w :
  conserved None N (p :: lp) local w -> (N < two64)%Z -> connections_ w !! fd = None ->
  connection_token st = next_connection_token_ w -> dispatched (connection st) = [] ->
  request_dispatcher_ (connection st) = thread_pool_ w ->
  conserved None N lp local
    (set_connections (<[fd := st]> (connections_ w))
       (set_next_connection_token (wrap64 (next_connection_token_ w + 1)) w)).
Proof.
  intros [] HN Hfd Et Ed Em. cbn [length] in cv_next0.
  assert (wrap64 (next_connection_token_ w + 1) = (next_connection_token_ w + 1)%Z) as En
    by (apply wrap64_small; lia).
  set (w' := set_connections _ _).
  assert (next_connection_token_ w' = (next_connection_token_ w + 1)%Z) as En' by exact En.
  change (work local w) with (work local w') in *. change (delivered w) with (delivered w') in *.
  assert (Forall (fun r => cr_connection_token r <> next_connection_token_ w) (work local w')) as Hwk.
  { eapply Forall_impl; [exact cv_work0|]. cbn. intros r ? ?. lia. }
  split; rewrite ?En'; try done.
  - apply map_Forall_insert_2; [done|exact cv_mode0].
  - cbn in *. lia.
  - apply map_Forall_insert_2; [lia|]. intros fd' st' Hst'. pose proof (cv_live0 fd' st' Hst'). cbn in *. lia.
  - eapply Forall_impl; [exact cv_work0|]. cbn. intros. lia.
  - eapply Forall_impl; [exact cv_sent0|]. cbn. intros. lia.
  - cbn [connections_ w' set_connections]. intros fd1 fd2 st1 st2. rewrite !lookup_insert.
    destruct (decide (fd = fd1)) as [<-|], (decide (fd = fd2)) as [<-|]; intros H1 H2 E; simplify_eq; try done.
    + pose proof (cv_live0 _ _ H2). cbn in *. lia.
    + pose proof (cv_live0 _ _ H1). cbn in *. lia.
    + by eapply cv_distinct0.
  - cbn [connections_ w' set_connections]. intros fd' st'. rewrite lookup_insert.
    destruct (decide (fd = fd')) as [<-|]; [|intros Hst'; exact (cv_perm0 fd' st' Hst')].
    intros [= <-] _. rewrite Ed, Et, (with_token_none _ _ Hwk), delivered_to_fresh; done.
Qed.

Lemma conserved_less N lp local p w :
  conserved None N (p :: lp) local w -> conserved None N lp local w.
Proof. intros []. split; try done. cbn [length] in cv_next0. lia. Qed.

Lemma AddConnection_conserved N lp local w tid now fd peer e :
  worker_wf w -> conserved None N ((fd, peer) :: lp) local w -> (N < two64)%Z ->
  conserved None N lp local (snd (fst (AddConnectionOnOwnerThread reg w tid now fd e))).
Proof.
  intros Hw Hc HN. pose proof (conserved_less _ _ _ _ _ Hc) as Hl. unfold AddConnectionOnOwnerThread.
  destruct (EnsureOwnerThread w tid e) as [[] e1]; [|by apply (conserved_fields _ _ _ _ w)].
  cbn [negb]. destruct (negb _); [by apply (conserved_fields _ _ _ _ w)|].
  unfold epoll_ctl_add. destruct (interest w !! fd) eqn:Ei; [by apply (conserved_fields _ _ _ _ w)|].
  assert (connections_ w !! fd = None) as Hn.
  { rewrite (wf_interest _ Hw) in Ei. unfold pend in Ei. rewrite lookup_fmap in Ei.
    by apply fmap_None in Ei. }
  destruct (next_ctl w) as [r w0] eqn:Ec.
  assert (cv_fields w0 = cv_fields w) as Ef.
  { unfold next_ctl in Ec. destruct (ctl_script w); by injection Ec as <- <-. }
  assert (connections_ w0 = connections_ w) as Ec0 by (unfold cv_fields in Ef; congruence).
  destruct r as [en|]; [by apply (conserved_fields _ _ _ _ w)|]. cbv zeta.
  cbn [connections_ set_next_connection_token set_interest]. rewrite Ec0, Hn. cbn [fst snd].
  match goal with |- conserved _ _ _ _ (set_total_accepted_count _ (set_connection_count _ ?x)) =>
    apply (conserved_fields _ _ _ _ x); [done|] end.
  unfold StartConnectionCoroutine. apply on_connection_conserved; [intros ??; apply start_appends|].
  set (wi := set_interest (<[fd := false]> (interest w0)) w0).
  rewrite <- Ec0. change (connections_ w0) with (connections_ wi).
  apply (conserved_insert N lp local fd _ (fd, peer)); try done.
  - by apply (conserved_fields _ _ _ _ w).
  - change (connections_ wi) with (connections_ w0). by rewrite Ec0.
Qed.

Lemma close_fds_conserved N lp local rest w :
  conserved None N lp local w ->
  conserved None N lp local (foldr (fun (p : Z * string) => close_fd (fst p)) w rest).
Proof.
  intros Hw. induction rest as [|p rest IH]; [done|]. cbn [foldr].
  by eapply conserved_fields; [|exact IH].
Qed.

Lemma conserved_less_all N lp local w :
  conserved None N lp local w -> conserved None N [] local w.
Proof. induction lp as [|p lp IH]; [done|]. intros Hc%conserved_less. by apply IH. Qed.

Lemma DrainPending_loop_conserved N tid now lp : forall w e,
  worker_wf w -> conserved None N lp [] w -> (N < two64)%Z ->
  conserved None N [] [] (snd (fst (DrainPending_loop reg tid now lp w e))).
Proof.
  induction lp as [|[fd peer] lp IH]; intros w e Hw Hc HN; cbn [DrainPending_loop]; [done|].
  pose proof (AddConnection_conserved N lp [] w tid now fd peer e Hw Hc HN) as H1.
  pose proof (AddConnection_wf w tid now fd e Hw) as Hw1.
  destruct (AddConnectionOnOwnerThread reg w tid now fd e) as [[[] w1] e1]; [by apply IH|].
  apply close_fds_conserved. by apply (conserved_less_all N lp).
Qed.

Lemma conserved_hand_over N local w :
  conserved None N [] local w ->
  conserved None N (pending_connections_ w) local (set_pending_connections [] w).
Proof. intros []. split; try done. cbn in *. lia. Qed.

Lemma DrainPendingConnections_conserved N w tid now e :
  worker_wf w -> conserved None N [] [] w -> (N < two64)%Z ->
  conserved None N [] [] (snd (fst (DrainPendingConnections reg w tid now e))).
Proof.
  intros Hw Hc HN. unfold DrainPendingConnections.
  destruct (EnsureOwnerThread w tid e) as [[] e1]; [|done]. cbn [negb].
  apply DrainPending_loop_conserved; [by apply (worker_wf_fields w)|by apply conserved_hand_over|done].
Qed.

Lemma DrainWakeFd_conserved N lp local w tid fail e :
  conserved None N lp local w -> conserved None N lp local (snd (fst (DrainWakeFd w tid fail e))).
Proof.
  intros Hw. unfold DrainWakeFd. destruct (EnsureOwnerThread w tid e) as [[] e1]; [|done].
  destruct fail; by apply (conserved_fields _ _ _ _ w).
Qed.

(** A pool thread runs a task: its result moves to the completion queue. *)
Lemma RunTask_conserved N lp local i w :
  conserved None N lp local w -> conserved None N lp local (RunTask reg i w).
Proof.
  intros Hc. unfold RunTask. destruct (tasks w !! i) as [t|] eqn:Et; [|done].
  set (x := execute _ _ _ _). cbv zeta. unfold push_completed.
  cbn [completed_queue_ set_method_stats set_tasks].
  destruct (cv_queue _ _ _ _ _ Hc) as (q & Eq & Ea). rewrite Eq, Ea.
  set (w' := set_completed_queue _ _).
  assert (work local w' ≡ₚ work local w) as Hwork.
  { unfold work, queued. cbn [completed_queue_ tasks w' set_completed_queue responses set_method_stats
      set_tasks]. rewrite Eq. unfold execs.
    rewrite (delete_Permutation (tasks w) i t Et) at 2. cbn [map]. fold x. solve_Permutation. }
  destruct Hc. split; try done.
  - cbn. by eexists.
  - rewrite Hwork. exact cv_flight0.
  - rewrite Hwork. exact cv_work0.
  - intros fd st Hst Hex. unfold with_token. rewrite Hwork. exact (cv_perm0 fd st Hst Hex).
Qed.

(** ** Runs *)

Definition serving_point (p : run_point) : Prop := match p with AtEnded => False | _ => True end.

Definition system_ok (N : Z) (s : system) : Prop :=
  worker_wf (worker s) /\ (serving_point (point s) -> conserved None N [] [] (worker s)).

Lemma conserved_mono N N' lp local w :
  (N <= N')%Z -> conserved None N lp local w -> conserved None N' lp local w.
Proof. intros HN []. split; try done. lia. Qed.

Lemma worker_step_conserved N tid env s :
  (N < two64)%Z -> system_ok N s -> system_ok N (worker_step reg tid env s).
Proof.
  intros HN [Hw Hc]. split; [by apply worker_step_wf|]. unfold worker_step.
  destruct (point s) as [|env' evs|env' evs|env' evs|env' evs| |] eqn:Ep; cbn [point worker];
    try specialize (Hc I).
  - destruct (stop_requested_ _); [done|]. destruct (pe_wait env); done.
  - pose proof (DrainWakeFd_conserved N [] [] (worker s) tid (pe_wake env') (Some "") Hc) as Hd.
    by destruct (DrainWakeFd _ _ _ _) as [[ok w] e].
  - pose proof (DrainPendingConnections_conserved N (worker s) tid (pe_now env') (Some "") Hw Hc HN) as Hd.
    by destruct (DrainPendingConnections _ _ _ _ _) as [[ok w] e].
  - pose proof (DrainCompletedResponses_conserved N [] (worker s) tid (Some "") Hw Hc) as Hd.
    by destruct (DrainCompletedResponses _ _ _ _) as [[ok w] e].
  - pose proof (HandleEvents_conserved N [] [] evs (TickAll reg (pe_now env') (worker s)) (Some "")
      (TickAll_conserved _ _ _ _ _ Hw Hc)) as Hd.
    by destruct (HandleEvents _ _ _ _) as [[ok w] e].
  - done.
  - by rewrite Ep.
Qed.

Lemma step_ok N tid s o :
  (N < two64)%Z -> system_ok N s -> system_ok (N + 1) (step reg tid s o).
Proof.
  intros HN Hs. assert (forall s', system_ok N s' -> system_ok (N + 1) s') as Hmono.
  { intros s' [H1 H2]. split; [done|]. intros Hp. eapply conserved_mono; [|by apply H2]. lia. }
  pose proof (op_wf tid s o (proj1 Hs)) as Hw'. destruct Hs as [Hw Hc].
  destruct o as [env|fd peer| |i| |fd clk rs ss subs|results]; cbn [step] in *.
  - apply Hmono, worker_step_conserved; [done|by split].
  - split; [done|]. cbn [point worker]. intros Hp. specialize (Hc Hp).
    unfold EnqueueConnection, Wakeup. repeat split_match; cbn [fst snd];
      try by (apply (conserved_fields _ _ _ _ (worker s)); [done|]; eapply conserved_mono; [|done]; lia).
    all: destruct Hc; split; try done; cbn in *; rewrite ?length_app in *; cbn in *; lia.
  - apply Hmono. split; [done|]. intros Hp. apply (conserved_fields _ _ _ _ (worker s)); [|by apply Hc].
    cbn [worker]. unfold RequestStop, Wakeup. by split_match.
  - apply Hmono. split; [done|]. destruct (tasks (worker s) !! i); [|done]. cbn [point worker].
    intros Hp. apply RunTask_conserved. by apply Hc.
  - apply Hmono. split; [done|]. destruct (wakers s); [done|]. cbn [point worker]. intros Hp.
    apply (conserved_fields _ _ _ _ (worker s)); [|by apply Hc].
    unfold RunTask_wake. by repeat split_match.
  - apply Hmono. split; [done|]. cbn [point worker]. intros Hp. apply on_connection_conserved; [|by apply Hc].
    intros st _. by apply appends_same.
  - apply Hmono. split; [done|]. cbn [point worker]. intros Hp.
    apply (conserved_fields _ _ _ _ (worker s)); [done|by apply Hc].
Qed.

Lemma worker_run_ok tid ops : forall N s,
  (N + Z.of_nat (length ops) <= two64)%Z -> system_ok N s ->
  system_ok (N + Z.of_nat (length ops)) (run reg tid s ops).
Proof.
  induction ops as [|o ops IH]; intros N s HN Hs.
  - by rewrite Z.add_0_r.
  - cbn [length] in *. replace (N + Z.of_nat (S (length ops)))%Z with
      (N + 1 + Z.of_nat (length ops))%Z by lia.
    apply IH; [lia|]. apply step_ok; [lia|done].
Qed.

Lemma worker_started_ok pool tid epoll evfd :
  (0 <= epoll)%Z -> (0 <= evfd)%Z -> system_ok 1 (started pool tid epoll evfd).
Proof.
  intros H1 H2. unfold started, Init, Start, is_open, UniqueFd.Valid. cbn.
  destruct (Z.leb_spec 0 epoll); [|lia]. cbn. destruct (Z.leb_spec 0 evfd); [|lia]. cbn.
  destruct (Z.leb_spec 0 epoll); [|lia]. destruct (Z.leb_spec 0 evfd); [|lia]. cbn.
  split; [split; try done; apply map_Forall_empty|]. intros _. split; try done; cbn.
  by eexists.
Qed.

(** ** Wakeups *)

(** What only the owner of a queue and its producers touch. *)
Definition plumbing (w : WorkerLoop) :=
  (completed_queue_ w, pending_connections_ w, wake_count w, wake_fd_ w, owner_thread_id_ w,
   stop_requested_ w).

Lemma on_connection_plumbing fd f w : plumbing (on_connection fd f w) = plumbing w.
Proof.
  pose proof (on_connection_static fd f w) as Hs. unfold static in Hs. unfold plumbing. congruence.
Qed.

Lemma CloseConnection_plumbing fd w : plumbing (snd (CloseConnection reg fd w)) = plumbing w.
Proof.
  unfold CloseConnection. destruct (connections_ w !! fd) as [st|]; [|done]. cbv zeta. cbn [snd].
  set (w3 := on_connection fd (NotifyWritable go_on) _).
  assert (plumbing w3 = plumbing w) as <- by (unfold w3; by rewrite !on_connection_plumbing).
  match goal with |- context [if ?b then w3 else set_blocked true w3] => by destruct b end.
Qed.

Lemma UpdateEpollInterest_plumbing fd w e :
  plumbing (snd (fst (UpdateEpollInterest reg fd w e))) = plumbing w.
Proof.
  unfold UpdateEpollInterest.
  assert (forall out, exists r w1, epoll_ctl_mod w fd out = (r, w1) /\ plumbing w1 = plumbing w) as Hm.
  { intros out. unfold epoll_ctl_mod, next_ctl. destruct (interest w !! fd); [|by eauto].
    destruct (ctl_script w) as [|[|] rest]; by eauto. }
  match goal with |- context [epoll_ctl_mod w fd ?o] => destruct (Hm o) as (r & w1 & -> & <-) end.
  destruct r; [|done]. pose proof (CloseConnection_plumbing fd w1) as H1.
  by destruct (CloseConnection reg fd w1) as [[] w2].
Qed.

Lemma HandleEvents_plumbing events : forall w e,
  plumbing (snd (fst (HandleEvents reg events w e))) = plumbing w.
Proof.
  assert (forall fd ev w e, plumbing (snd (fst (HandleEvent reg fd ev w e))) = plumbing w) as H1.
  { intros fd ev w e. unfold HandleEvent. destruct (_ =? _)%Z; [done|].
    destruct (connections_ w !! fd) as [st|]; [|done]. cbv zeta.
    set (w3 := if ev_close ev then _ else _).
    assert (plumbing w3 = plumbing w) as <-.
    { unfold w3. destruct (ev_close ev), (ev_out ev), (ev_in ev); by rewrite ?on_connection_plumbing. }
    clearbody w3. destruct (connections_ w3 !! fd) as [st3|]; [|done].
    pose proof (CloseConnection_plumbing fd w3) as H4.
    destruct (CloseConnection reg fd w3) as [[] w4]; cbn [snd] in H4;
      (destruct (negb _); [done|]; destruct (ShouldClose _); [done|apply UpdateEpollInterest_plumbing]). }
  induction events as [|[fd ev] events IH]; intros w e; cbn [HandleEvents]; [done|].
  specialize (H1 fd ev w e). destruct (HandleEvent reg fd ev w e) as [[[] w1] e1]; [|done].
  by rewrite IH.
Qed.

Lemma DrainCompleted_loop_plumbing local : forall w e,
  plumbing (snd (fst (DrainCompleted_loop reg local w e))) = plumbing w.
Proof.
  assert (forall r w e, plumbing (snd (fst (DeliverCompleted reg r w e))) = plumbing w) as H1.
  { intros r w e. unfold DeliverCompleted. set (w0 := set_completed_request_count _ _).
    change (plumbing w) with (plumbing w0). clearbody w0.
    destruct (connections_ w0 !! cr_fd r) as [st|]; [|done]. destruct (negb _); [done|].
    destruct (EnqueueResponse _ _ _ _) as [[q c] e'].
    set (w1 := on_connection (cr_fd r) (fun _ => c) w0).
    assert (plumbing w1 = plumbing w0) as <- by apply on_connection_plumbing. clearbody w1.
    destruct q; cbn [negb].
    - by rewrite UpdateEpollInterest_plumbing, on_connection_plumbing.
    - pose proof (CloseConnection_plumbing (cr_fd r) (set_discarded (discarded w1 ++ [r]) w1)) as Hc.
      by destruct (CloseConnection reg (cr_fd r) _) as [[] w2]. }
  induction local as [|r local IH]; intros w e; cbn [DrainCompleted_loop]; [done|].
  specialize (H1 r w e). destruct (DeliverCompleted reg r w e) as [[[] w1] e1]; [|done].
  by rewrite IH.
Qed.

Lemma AddConnection_plumbing w tid now fd e :
  plumbing (snd (fst (AddConnectionOnOwnerThread reg w tid now fd e))) = plumbing w.
Proof.
  unfold AddConnectionOnOwnerThread. destruct (EnsureOwnerThread w tid e) as [[] e1]; [|done].
  cbn [negb]. destruct (negb _); [done|]. unfold epoll_ctl_add, next_ctl.
  destruct (interest w !! fd); [done|]. destruct (ctl_script w) as [|[en|] rest]; try done; cbv zeta;
    (destruct (connections_ _ !! fd); [done|]); cbn [fst snd]; unfold StartConnectionCoroutine;
    match goal with |- plumbing (set_total_accepted_count _ (set_connection_count _ ?x)) = _ =>
      change (plumbing x = plumbing w) end; by rewrite on_connection_plumbing.
Qed.

Lemma DrainPending_loop_plumbing tid now lp : forall w e,
  plumbing (snd (fst (DrainPending_loop reg tid now lp w e))) = plumbing w.
Proof.
  induction lp as [|[fd peer] lp IH]; intros w e; cbn [DrainPending_loop]; [done|].
  pose proof (AddConnection_plumbing w tid now fd e) as H1.
  destruct (AddConnectionOnOwnerThread reg w tid now fd e) as [[[] w1] e1]; [by rewrite IH|].
  rewrite <- H1. clear. cbn [fst snd]. induction lp as [|p lp IH]; [done|]. exact IH.
Qed.



Lemma EnsureOwner_ok w tid e :
  owner_thread_id_ w = Some tid -> EnsureOwnerThread w tid e = (true, e).
Proof. intros E. unfold EnsureOwnerThread, IsOnOwnerThread. by rewrite E, Nat.eqb_refl. Qed.

Lemma RunTask_wake_cases w :
  RunTask_wake w = w \/ RunTask_wake w = set_wake_count (S (wake_count w)) w.
Proof. unfold RunTask_wake. repeat split_match; auto. Qed.





(** ** One round *)

(** A round is the sequence of the parts of the worker's thread. *)
Lemma AddConnection_error w tid now fd e w' e' :
  AddConnectionOnOwnerThread reg w tid now fd e = (true, w', e') -> e' = e.
Proof.
  unfold AddConnectionOnOwnerThread, EnsureOwnerThread. intros E.
  repeat (split_match_in E; simplify_eq/=; try done).
Qed.

Lemma DrainPending_error tid now lp : forall w e w' e',
  DrainPending_loop reg tid now lp w e = (true, w', e') -> e' = e.
Proof.
  induction lp as [|[fd peer] lp IH]; intros w e w' e'; cbn [DrainPending_loop]; [by intros [= _ <-]|].
  destruct (AddConnectionOnOwnerThread reg w tid now fd e) as [[[] w1] e1] eqn:E; [|done].
  apply AddConnection_error in E as ->. apply IH.
Qed.

Lemma DrainPendingConnections_keeps w tid now w' e' :
  owner_thread_id_ w = Some tid ->
  DrainPendingConnections reg w tid now (Some "") = (true, w', e') ->
  e' = Some "" /\ owner_thread_id_ w' = Some tid.
Proof.
  intros Ho. unfold DrainPendingConnections. rewrite EnsureOwner_ok by done. cbn [negb].
  intros E. split; [by apply DrainPending_error in E|].
  pose proof (DrainPending_loop_plumbing tid now (pending_connections_ w)
    (set_pending_connections [] w) (Some "")) as Hpl.
  rewrite E in Hpl. cbn [fst snd] in Hpl. unfold plumbing in Hpl. injection Hpl as _ _ _ _ ->. done.
Qed.

Lemma DrainCompletedResponses_succeeds w tid :
  owner_thread_id_ w = Some tid -> worker_wf w ->
  exists w', DrainCompletedResponses reg w tid (Some "") = (true, w', Some "").
Proof.
  intros Ho Hw. unfold DrainCompletedResponses. rewrite EnsureOwner_ok by done. cbn [negb].
  destruct (completed_queue_ w) as [q|]; [|by eexists].
  match goal with |- context [DrainCompleted_loop reg ?l ?x ?e] =>
    destruct (DrainCompleted_loop_wf l x e) as (w' & -> & _);
      [by apply (worker_wf_fields w)|by eexists] end.
Qed.

(** The state after a part of a round that returned [r]. *)
Abbreviation ends k r := (let '(ok, w, _) := r in
  {| worker := w; point := if (ok : bool) then AtWait else AtStop; wakers := k |}).

(** From the wakeup on: two or three steps do what remains of [DrainQueues] and
    of the round. *)
Lemma drain_queues_steps w k tid env events :
  owner_thread_id_ w = Some tid -> worker_wf w ->
  exists n, 1 <= n <= 4 /\
    Nat.iter n (worker_step reg tid env)
      {| worker := w; point := AtDrainWake env events; wakers := k |} =
    ends k (match DrainQueues reg w tid (pe_now env) (pe_wake env) (Some "") with
            | (false, w', e) => (false, w', e)
            | (true, w', e) => HandleEvents reg events (TickAll reg (pe_now env) w') e
            end).
Proof.
  intros Ho Hw. unfold DrainQueues.
  destruct (DrainWakeFd w tid (pe_wake env) (Some "")) as [[[] w1] e1] eqn:Ek.
  2: { exists 1. split; [lia|]. cbn. unfold worker_step. cbn [point worker wakers]. by rewrite Ek. }
  assert (owner_thread_id_ w1 = Some tid /\ worker_wf w1 /\ e1 = Some "") as (Ho1 & Hw1 & ->).
  { unfold DrainWakeFd in Ek. rewrite EnsureOwner_ok in Ek by done. cbn [negb] in Ek.
    destruct (pe_wake env); simplify_eq. split_and!; [done| |done]. by apply (worker_wf_fields w). }
  destruct (DrainPendingConnections reg w1 tid (pe_now env) (Some "")) as [[[] w2] e2] eqn:Edp.
  2: { exists 2. split; [lia|]. rewrite !Nat.iter_succ_r. change (Nat.iter 0 ?f ?x) with x. unfold worker_step at 2.
       cbn [point worker wakers]. rewrite Ek. unfold worker_step. cbn [point worker wakers].
       by rewrite Edp. }
  pose proof (DrainPendingConnections_wf w1 tid (pe_now env) (Some "") Hw1) as Hw2.
  rewrite Edp in Hw2. cbn [fst snd] in Hw2.
  destruct (DrainPendingConnections_keeps _ _ _ _ _ Ho1 Edp) as [-> Ho2].
  destruct (DrainCompletedResponses_succeeds w2 tid Ho2 Hw2) as [w3 Edc]. rewrite Edc.
  exists 4. split; [lia|]. rewrite !Nat.iter_succ_r.
  change (Nat.iter 0 ?f ?x) with x.
  unfold worker_step at 4. cbn [point worker wakers]. rewrite Ek.
  unfold worker_step at 3. cbn [point worker wakers]. rewrite Edp.
  unfold worker_step at 2. cbn [point worker wakers]. rewrite Edc.
  unfold worker_step. cbn [point worker wakers].
  by destruct (HandleEvents reg events _ _) as [[ok w4] e4].
Qed.

Lemma PollOnce_steps s tid env :
  point s = AtWait -> stop_requested_ (worker s) = false ->
  owner_thread_id_ (worker s) = Some tid -> is_open (epoll_fd_ (worker s)) = true ->
  worker_wf (worker s) ->
  exists n, 1 <= n <= 5 /\
    Nat.iter n (worker_step reg tid env) s =
    ends (wakers s) (PollOnce reg (worker s) tid env (Some "")).
Proof.
  intros Hp Hs Ho He Hw. destruct s as [w p k]. cbn [point worker wakers] in *. subst p.
  unfold PollOnce. rewrite EnsureOwner_ok by done. cbn [negb]. rewrite He. cbn [negb].
  destruct (pe_wait env) as [en|events] eqn:Ew.
  { exists 1. split; [lia|]. cbn. unfold worker_step. cbn [point worker]. rewrite Hs, Ew.
    by destruct (decide _). }
  destruct (existsb _ events) eqn:Eb.
  - destruct (drain_queues_steps w k tid env events Ho Hw) as (n & Hn & Hrun).
    exists (S n). split; [lia|]. rewrite Nat.iter_succ_r, <- Hrun. f_equal.
    unfold worker_step. cbn [point worker wakers]. by rewrite Hs, Ew, Eb.
  - exists 2. split; [lia|]. rewrite !Nat.iter_succ_r. change (Nat.iter 0 ?f ?x) with x.
    unfold worker_step at 2. cbn [point worker]. rewrite Hs, Ew, Eb. unfold worker_step.
    cbn [point worker wakers]. by destruct (HandleEvents reg events _ _) as [[ok w4] e4].
Qed.







(** ** The end of a worker *)

Lemma CloseConnection_connections fd w :
  worker_wf w -> connections_ (snd (CloseConnection reg fd w)) = delete fd (connections_ w).
Proof.
  intros Hw. destruct (connections_ w !! fd) as [st|] eqn:Hst.
  - destruct (CloseConnection_wf fd w) as (w' & -> & _ & E); [by apply worker_wf_at|exact E].
  - unfold CloseConnection. rewrite Hst. cbn [snd]. by rewrite delete_id.
Qed.

Lemma CloseAllConnections_empty w : worker_wf w -> connections_ (CloseAllConnections reg w) = ∅.
Proof.
  intros Hw. unfold CloseAllConnections.
  assert (forall fds, worker_wf (foldr (fun fd w => snd (CloseConnection reg fd w)) w fds) /\
    forall fd, connections_ (foldr (fun fd w => snd (CloseConnection reg fd w)) w fds) !! fd =
      if decide (fd ∈ fds) then None else connections_ w !! fd) as Hall.
  { induction fds as [|fd' fds [IH1 IH2]]; [by split|]. cbn [foldr]. split; [by apply CloseConnection_any_wf|].
    intros fd. rewrite CloseConnection_connections by done.
    rewrite lookup_delete, IH2. destruct (decide (fd' = fd)) as [->|].
    - rewrite decide_True; [done|]. by apply elem_of_cons; left.
    - destruct (decide (fd ∈ fds)); [rewrite decide_True|rewrite decide_False]; rewrite ?elem_of_cons;
        naive_solver. }
  apply map_empty. intros fd. rewrite (proj2 (Hall _)). destruct (decide _) as [|Hn]; [done|].
  apply eq_None_not_Some. intros [st Hst]. apply Hn.
  apply list_elem_of_fmap. exists (fd, st). split; [done|]. by apply elem_of_map_to_list.
Qed.

Lemma Run_stop_queue w tid now wake q :
  completed_queue_ (Run_stop reg w tid now wake) = Some q -> accepting q = false.
Proof.
  unfold Run_stop. set (x := CloseAllConnections reg _). cbn [completed_queue_ set_completed_queue].
  clearbody x. destruct (completed_queue_ x) as [q0|]; [|done]. intros E. injection E as <-. done.
Qed.

Lemma Run_stop_empty w tid now wake :
  worker_wf w -> connections_ (Run_stop reg w tid now wake) = ∅.
Proof.
  intros Hw. unfold Run_stop. cbv zeta. cbn [connections_ set_completed_queue].
  apply CloseAllConnections_empty, Run_drain_wf. by apply (worker_wf_fields w).
Qed.

Definition over (s : system) : Prop :=
  ~ serving_point (point s) -> connections_ (worker s) = ∅ /\
    forall q, completed_queue_ (worker s) = Some q -> accepting q = false.

Lemma step_over tid s o : worker_wf (worker s) -> over s -> over (step reg tid s o).
Proof.
  intros Hw Ho. unfold over in *.
  destruct o as [env|fd peer| |i| |fd clk rs ss subs|results]; cbn [step].
  - unfold worker_step. destruct (point s) eqn:Ep; cbn [point worker].
    1-5: intros Hp; exfalso; apply Hp; repeat case_match; done.
    + intros _. split; [by apply Run_stop_empty|apply Run_stop_queue].
    + rewrite Ep. exact Ho.
  - unfold EnqueueConnection, Wakeup. repeat split_match; exact Ho.
  - unfold RequestStop, Wakeup. split_match; exact Ho.
  - destruct (tasks (worker s) !! i) as [t|] eqn:Et; [|exact Ho]. cbn [point worker]. unfold RunTask.
    rewrite Et. unfold push_completed. cbn [completed_queue_ set_method_stats set_tasks].
    intros Hp. destruct (Ho Hp) as [H1 H2]. destruct (completed_queue_ (worker s)) as [q|] eqn:Eq.
    + rewrite (H2 q eq_refl). split; [exact H1|]. cbn. by rewrite Eq.
    + split; [exact H1|]. cbn. by rewrite Eq.
  - destruct (wakers s); [exact Ho|]. destruct (RunTask_wake_cases (worker s)) as [->| ->]; exact Ho.
  - cbn [point worker]. intros Hp. destruct (Ho Hp) as [H1 H2].
    unfold on_connection. rewrite H1, lookup_empty. done.
  - exact Ho.
Qed.

Lemma run_over tid ops : forall s, worker_wf (worker s) -> over s -> over (run reg tid s ops).
Proof.
  induction ops as [|o ops IH]; intros s Hw Hs; [done|]. apply IH; [by apply op_wf|by apply step_over].
Qed.

(** ** Stopping *)

(** How many parts of [Run] are ahead once a stop has been requested. *)
Definition run_rank (p : run_point) : nat :=
  match p with
  | AtEnded => 0
  | AtStop => 1
  | AtWait => 2
  | AtRest _ _ => 3
  | AtDrainCompleted _ _ => 4
  | AtDrainPending _ _ => 5
  | AtDrainWake _ _ => 6
  end.

Lemma worker_step_rank tid env s :
  stop_requested_ (worker s) = true ->
  run_rank (point (worker_step reg tid env s)) <= pred (run_rank (point s)).
Proof.
  intros Hs. unfold worker_step. rewrite Hs. destruct (point s) as [|env' evs|env' evs|env' evs|env' evs| |] eqn:Ep;
    cbn [point run_rank]; rewrite ?Ep; cbn [run_rank]; try lia.
  - destruct (DrainWakeFd _ _ _ _) as [[[] w] e]; cbn; lia.
  - destruct (DrainPendingConnections _ _ _ _ _) as [[[] w] e]; cbn; lia.
  - destruct (DrainCompletedResponses _ _ _ _) as [[[] w] e]; cbn; lia.
  - destruct (HandleEvents _ _ _ _) as [[[] w] e]; cbn; lia.
Qed.

Lemma plumbing_stop w w' : plumbing w' = plumbing w -> stop_requested_ w' = stop_requested_ w.
Proof. unfold plumbing. congruence. Qed.

Lemma CloseAllConnections_stop w : stop_requested_ (CloseAllConnections reg w) = stop_requested_ w.
Proof.
  unfold CloseAllConnections. induction (map fst _) as [|fd l IH]; [done|]. cbn [foldr].
  rewrite <- IH. apply plumbing_stop, CloseConnection_plumbing.
Qed.

Lemma DrainWakeFd_stop w tid fail e :
  stop_requested_ (snd (fst (DrainWakeFd w tid fail e))) = stop_requested_ w.
Proof. unfold DrainWakeFd. by repeat split_match. Qed.

Lemma DrainPendingConnections_stop w tid now e :
  stop_requested_ (snd (fst (DrainPendingConnections reg w tid now e))) = stop_requested_ w.
Proof.
  unfold DrainPendingConnections. destruct (EnsureOwnerThread w tid e) as [[] e']; [|done]. cbn [negb].
  etrans; [apply plumbing_stop, DrainPending_loop_plumbing|done].
Qed.

Lemma DrainCompletedResponses_stop w tid e :
  stop_requested_ (snd (fst (DrainCompletedResponses reg w tid e))) = stop_requested_ w.
Proof.
  unfold DrainCompletedResponses. destruct (EnsureOwnerThread w tid e) as [[] e']; [|done]. cbn [negb].
  destruct (completed_queue_ w) as [q|]; [|done].
  etrans; [apply plumbing_stop, DrainCompleted_loop_plumbing|done].
Qed.

Lemma Run_stop_stop w tid now wake : stop_requested_ (Run_stop reg w tid now wake) = stop_requested_ w.
Proof.
  unfold Run_stop. cbv zeta.
  match goal with |- stop_requested_ (set_completed_queue _ ?x) = _ =>
    change (stop_requested_ x = stop_requested_ w) end.
  rewrite CloseAllConnections_stop. unfold Run_drain.
  set (w0 := set_accepting_new_connections false w).
  change (stop_requested_ w) with (stop_requested_ w0).
  rewrite <- (DrainWakeFd_stop w0 tid wake (Some "")).
  destruct (DrainWakeFd w0 tid wake (Some "")) as [[[] w1] e1]; [|done]. cbn [fst snd].
  rewrite <- (DrainPendingConnections_stop w1 tid now e1).
  destruct (DrainPendingConnections reg w1 tid now e1) as [[ok w2] e2]. cbn [fst snd].
  apply DrainCompletedResponses_stop.
Qed.

(** A stop request is never taken back. *)
Lemma step_stop tid s o :
  stop_requested_ (worker s) = true -> stop_requested_ (worker (step reg tid s o)) = true.
Proof.
  intros Hs. destruct o as [env|fd peer| |i| |fd clk rs ss subs|results]; cbn [step].
  - unfold worker_step. destruct (point s) as [|env' evs|env' evs|env' evs|env' evs| |]; cbn [worker];
      rewrite ?Hs; try done.
    + pose proof (DrainWakeFd_stop (worker s) tid (pe_wake env') (Some "")) as E.
      destruct (DrainWakeFd _ _ _ _) as [[ok w] e]. cbn in *. congruence.
    + pose proof (DrainPendingConnections_stop (worker s) tid (pe_now env') (Some "")) as E.
      destruct (DrainPendingConnections _ _ _ _ _) as [[ok w] e]. cbn in *. congruence.
    + pose proof (DrainCompletedResponses_stop (worker s) tid (Some "")) as E.
      destruct (DrainCompletedResponses _ _ _ _) as [[ok w] e]. cbn in *. congruence.
    + pose proof (plumbing_stop _ _ (HandleEvents_plumbing evs (TickAll reg (pe_now env') (worker s)) (Some ""))) as E.
      destruct (HandleEvents _ _ _ _) as [[ok w] e]. cbn in *. congruence.
    + by rewrite Run_stop_stop.
  - unfold EnqueueConnection, Wakeup. by repeat split_match.
  - unfold RequestStop, Wakeup. by split_match.
  - destruct (tasks (worker s) !! i) as [t|] eqn:Et; [|done]. cbn [worker]. unfold RunTask. rewrite Et.
    unfold push_completed. by repeat split_match.
  - destruct (wakers s); [done|]. by destruct (RunTask_wake_cases (worker s)) as [E|E]; cbn; rewrite E.
  - cbn [worker]. pose proof (on_connection_plumbing fd
      (fun c => apply_event opts reg c (EvKernel clk rs ss subs)) (worker s)) as E.
    by rewrite (plumbing_stop _ _ E).
  - done.
Qed.

(** Only the worker's thread moves. *)
Lemma step_point tid s o :
  match o with OpWorker _ => True | _ => point (step reg tid s o) = point s end.
Proof. destruct o; cbn; repeat case_match; done. Qed.

Definition is_worker_op (o : op) : bool := match o with OpWorker _ => true | _ => false end.

Lemma run_rank_run tid ops : forall s,
  stop_requested_ (worker s) = true ->
  run_rank (point (run reg tid s ops)) <= run_rank (point s) - length (filter is_worker_op ops).
Proof.
  induction ops as [|o ops IH]; intros s Hs; [cbn; lia|].
  change (run reg tid s (o :: ops)) with (run reg tid (step reg tid s o) ops).
  specialize (IH (step reg tid s o) (step_stop tid s o Hs)). pose proof (step_point tid s o) as Hp.
  destruct o; rewrite filter_cons; cbn [is_worker_op]; rewrite ?Hp in IH; try exact IH.
  rewrite decide_True by done. cbn [length]. pose proof (worker_step_rank tid env s Hs) as Hr.
  change (step reg tid s (OpWorker env)) with (worker_step reg tid env s) in *. lia.
Qed.

End lemmas.

(** ** Properties *)

(** C8: whatever the acceptor, the pool's threads, the peers and the kernel
    do, between two parts of a round a worker is consistent: epoll knows exactly
    the worker's connections and watches for writability exactly those with
    output waiting (so queued output is never forgotten), the connection count
    is right, every connection's coroutine waits in one place or has ended, and
    no wait for a coroutine has ever blocked.  When the thread has ended, no
    connection is left and no result is accepted any more. *)
Theorem worker_connections_consistent (reg : registry)
    `{ProtoMessage RpcRequest} `{ProtoMessage RpcResponse}
    (pool : bool) (tid : nat) (epoll evfd : Z) (ops : list op) :
  (0 <= epoll)%Z -> (0 <= evfd)%Z ->
  let s := run reg tid (started pool tid epoll evfd) ops in
  let w := worker s in
  blocked w = false /\ connection_count_ w = size (connections_ w) /\
  (forall fd, interest w !! fd =
     (fun st => HasPendingWrite (connection st)) <$> connections_ w !! fd) /\
  (forall fd st, connections_ w !! fd = Some st -> co_wf (connection st)) /\
  (point s = AtEnded -> connections_ w = ∅ /\
     forall q, completed_queue_ w = Some q -> accepting q = false).
Proof.
  intros H1 H2. cbv zeta. destruct (worker_started_ok reg pool tid epoll evfd H1 H2) as [Hw _].
  pose proof (worker_run_wf reg tid ops _ Hw) as [F1 F2 F3 F4]. split; [done|]. split; [done|].
  split; [intros fd; rewrite F2; apply lookup_fmap|]. split; [exact F4|].
  intros Ep. apply (run_over reg tid ops (started pool tid epoll evfd) Hw).
  - intros Hs. exfalso. by apply Hs.
  - rewrite Ep. by intros ?.
Qed.

(** While a worker serves, no request is lost, answered twice or answered
    to the wrong peer: for every live connection the results of the requests it
    has handed over are exactly - each once - those still in the pool, those in
    the completion queue and those enqueued as responses on that very
    connection, also when its descriptor belonged to another connection before;
    tokens identify connections, and the three request counters add up. *)
Theorem worker_conserves_requests (reg : registry)
    `{ProtoMessage RpcRequest} `{ProtoMessage RpcResponse}
    (pool : bool) (tid : nat) (epoll evfd : Z) (ops : list op) :
  (0 <= epoll)%Z -> (0 <= evfd)%Z -> (Z.of_nat (length ops) < two64)%Z ->
  let s := run reg tid (started pool tid epoll evfd) ops in
  let w := worker s in
  point s <> AtEnded ->
  (forall fd st, connections_ w !! fd = Some st ->
     let t := connection_token st in
     map (execute reg fd t) (dispatched (connection st)) ≡ₚ
       with_token t (execs reg (tasks w) ++ queued w) ++ delivered_to t (delivered w)) /\
  (forall fd1 fd2 st1 st2, connections_ w !! fd1 = Some st1 -> connections_ w !! fd2 = Some st2 ->
     connection_token st1 = connection_token st2 -> fd1 = fd2) /\
  in_flight_request_count_ w = length (tasks w) + length (queued w) /\
  submitted_request_count_ w = completed_request_count_ w + in_flight_request_count_ w.
Proof.
  intros H1 H2 Hl s w Hp.
  destruct (worker_run_ok reg tid ops 1 (started pool tid epoll evfd)) as [_ Hc]; [lia|by apply worker_started_ok|].
  destruct Hc as [C1 C2 C3 C4 C5 C6 C7 C8 C9 C10]; [by destruct (point (run reg tid _ ops)) eqn:E|].
  split; [intros fd st Hst; by apply (C10 fd st Hst)|]. split; [exact C9|].
  split; [|exact C3]. fold s w in C2. rewrite C2. unfold work, execs. rewrite !length_app, length_map. done.
Qed.


(** C16: a stop request ends a worker.  Once [RequestStop] has been called,
    whatever the acceptor, the pool's threads, the peers and the kernel do, the
    request stands, six steps of the worker's thread end its loop - so [Join]
    returns - and then no connection is left. *)
Theorem worker_stops (reg : registry)
    `{ProtoMessage RpcRequest} `{ProtoMessage RpcResponse}
    (pool : bool) (tid : nat) (epoll evfd : Z) (ops1 ops2 : list op) :
  (0 <= epoll)%Z -> (0 <= evfd)%Z -> 6 <= length (filter is_worker_op ops2) ->
  let s := run reg tid (started pool tid epoll evfd) (ops1 ++ OpRequestStop :: ops2) in
  stop_requested_ (worker s) = true /\ point s = AtEnded /\ connections_ (worker s) = ∅.
Proof.
  intros H1 H2 Hl. cbv zeta. destruct (worker_started_ok reg pool tid epoll evfd H1 H2) as [Hw _].
  set (s0 := started pool tid epoll evfd) in *.
  set (s1 := step reg tid (run reg tid s0 ops1) OpRequestStop).
  assert (run reg tid s0 (ops1 ++ OpRequestStop :: ops2) = run reg tid s1 ops2) as E
    by (unfold run; by rewrite fold_left_app).
  assert (stop_requested_ (worker s1) = true) as Hs
    by (cbn; unfold RequestStop, Wakeup; by split_match).
  assert (point (run reg tid s1 ops2) = AtEnded) as Hp.
  { pose proof (run_rank_run reg tid ops2 s1 Hs) as Hr.
    assert (run_rank (point s1) <= 6) by (destruct (point s1); cbn; lia).
    destruct (point (run reg tid s1 ops2)); cbn [run_rank] in Hr; first [lia|done]. }
  rewrite E. split; [|split; [done|]].
  - clear -Hs. revert Hs. generalize s1. induction ops2 as [|o ops IH]; intros s Hs; [done|].
    apply IH. by apply step_stop.
  - pose proof (run_over reg tid (ops1 ++ OpRequestStop :: ops2) s0 Hw) as Ho. rewrite E in Ho.
    apply Ho; [intros Hn; exfalso; by apply Hn|]. rewrite Hp. by intros ?.
Qed.




(** ** Witnesses *)

Definition w_in : epoll_flags := {| ev_in := true; ev_out := false; ev_close := false |}.

Definition w_env (now : Z) (events : list (Z * epoll_flags)) : poll_env :=
  {| pe_wait := inr events; pe_wake := None; pe_now := now |}.

(** A connection on descriptor 7 is taken over and sends two requests; the pool
    has run the second and the worker has enqueued its response. *)
Definition w_adopt : list op :=
  [OpEnqueue 7 "peer"; OpWorker (w_env 1 [(5%Z, w_in)]); OpWorker (w_env 1 []); OpWorker (w_env 1 []);
   OpWorker (w_env 1 []); OpWorker (w_env 1 [])].

Definition w_ops : list op :=
  w_adopt ++
  [OpKernel 7 2 [RecvBytes w_stream] [] []; OpWorker (w_env 2 [(7%Z, w_in)]); OpWorker (w_env 2 []);
   OpRunTask 1; OpWake; OpWorker (w_env 3 [(5%Z, w_in)]); OpWorker (w_env 3 []);
   OpWorker (w_env 3 []); OpWorker (w_env 3 []); OpWorker (w_env 3 [])].

Definition w_system (ops : list op) : system := run w_registry 1 (started true 1 4 5) ops.

Lemma worker_connections_consistent_witness :
  interest (worker (w_system w_ops)) !! 7%Z = Some true /\ blocked (worker (w_system w_ops)) = false.
Proof.
  unfold w_system.
  destruct (worker_connections_consistent w_registry true 1 4 5 w_ops) as (H1 & _ & H2 & _); [lia|lia|].
  split; [|exact H1]. rewrite H2. vm_compute. reflexivity.
Defined.

Lemma worker_conserves_requests_witness :
  exists st, connections_ (worker (w_system w_ops)) !! 7%Z = Some st /\
    length (dispatched (connection st)) = 2 /\
    length (delivered_to 1 (delivered (worker (w_system w_ops)))) = 1 /\
    map (execute w_registry 7 1) (dispatched (connection st)) ≡ₚ
      with_token 1 (execs w_registry (tasks (worker (w_system w_ops))) ++
                    queued (worker (w_system w_ops))) ++
      delivered_to 1 (delivered (worker (w_system w_ops))).
Proof.
  unfold w_system.
  destruct (worker_conserves_requests w_registry true 1 4 5 w_ops) as (H1 & _).
  - lia.
  - lia.
  - vm_compute. reflexivity.
  - vm_compute. congruence.
  - destruct (connections_ (worker (run w_registry 1 (started true 1 4 5) w_ops)) !! 7%Z) as [st|] eqn:E;
      [|exfalso; vm_compute in E; discriminate].
    exists st. specialize (H1 7%Z st E).
    assert (connection_token st = 1%Z /\ length (dispatched (connection st)) = 2) as [Et El]
      by (vm_compute in E; by injection E as <-).
    rewrite Et in H1. split; [done|]. split; [done|]. split; [vm_compute; reflexivity|exact H1].
Defined.



Lemma worker_stops_witness :
  point (run w_registry 1 (started true 1 4 5)
           (w_ops ++ OpRequestStop :: replicate 6 (OpWorker (w_env 0 [])))) = AtEnded.
Proof.
  apply (worker_stops w_registry true 1 4 5 w_ops (replicate 6 (OpWorker (w_env 0 []))));
    [done|done|]. vm_compute. lia.
Defined.
