(* ===== verification/WorkerServe.v ===== *)
(** * What a worker does for each of its connections

    WorkerLoop.v counts the requests of a worker; ConnHistory.v follows the bytes of one
    connection.  Here the two meet: in any interleaving of any number of connections with the
    acceptor, the threads of the pool, deadlines and failures, each connection of a worker is
    served from its own stream only, and completely. *)

From Stdlib Require Import ZArith Lia.
From S2P Require Import Prelude RpcError Posix Codec Frames ServiceRegistry Proto3 ConnBuffer.
From S2P Require Import Connection ConnHistory WorkerLoop.

Local Open Scope string_scope.
Local Open Scope list_scope.
Local Open Scope nat_scope.

(** ** What every connection of a worker keeps *)

Section each.
Context (reg : registry).
Context `{ProtoMessage RpcRequest} `{ProtoMessage RpcResponse}.

Abbreviation opts := Options_default.
Abbreviation go_on := (resume opts reg).

Definition kept (w : WorkerLoop) := (delivered w, thread_pool_ w, next_connection_token_ w).

(** A property of connections and their tokens that whatever a connection does by itself
    keeps, and what is left of it when the connection has been closed. *)
Context (P Q : Z -> Connection -> Prop).
Context (Ptracks : forall t c c', P t c -> tracks opts reg c c' -> P t c').
Context (PQ : forall t c, P t c -> Q t c).

Definition each (w : WorkerLoop) : Prop :=
  map_Forall (fun _ st => P (connection_token st) (connection st)) (connections_ w) /\
  Forall (fun p => Q (fst p) (snd p)) (gone w).

Definition follows (w w' : WorkerLoop) : Prop := (each w -> each w') /\ kept w' = kept w.

#[export] Instance follows_preorder : PreOrder follows.
Proof.
  split; [by split|]. intros w1 w2 w3 [E1 K1] [E2 K2]. split; [auto|congruence].
Qed.

(** All the connections there are and were. *)
Definition everyone (w : WorkerLoop) := (connections_ w, gone w).

Lemma follows_fields w w' : everyone w' = everyone w -> kept w' = kept w -> follows w w'.
Proof. unfold everyone. intros [= E1 E2] K. split; [|done]. unfold each. by rewrite E1, E2. Qed.

Lemma on_connection_follows fd f w : (forall c, tracks opts reg c (f c)) -> follows w (on_connection fd f w).
Proof.
  intros Hf. pose proof (on_connection_static fd f w) as Hs. unfold static in Hs. split.
  - intros [He Hg]. split; [|replace (gone (on_connection fd f w)) with (gone w) by congruence; exact Hg].
    rewrite on_connection_connections. destruct (connections_ w !! fd) as [st|] eqn:Hst; [|done].
    apply map_Forall_insert_2; [|done]. eapply Ptracks; [exact (He fd st Hst)|apply Hf].
  - unfold kept. congruence.
Qed.

Lemma event_follows fd ev w :
  match ev with EvKernel _ _ _ _ | EvEnqueue _ => False | _ => True end ->
  follows w (on_connection fd (fun c => apply_event opts reg c ev) w).
Proof.
  intros Hev. apply on_connection_follows. intros c.
  by apply (apply_event_respects opts reg _ (tracks_respected opts reg)).
Qed.

Lemma readable_follows fd w : follows w (on_connection fd (NotifyReadable go_on) w).
Proof. exact (event_follows fd EvReadable w I). Qed.

Lemma writable_follows fd w : follows w (on_connection fd (NotifyWritable go_on) w).
Proof. exact (event_follows fd EvWritable w I). Qed.

Lemma closing_follows fd w : follows w (on_connection fd (MarkClosing go_on) w).
Proof. exact (event_follows fd EvClosing w I). Qed.

Lemma CloseConnection_follows fd w : follows w (snd (CloseConnection reg fd w)).
Proof.
  unfold CloseConnection. destruct (connections_ w !! fd) as [st|]; [|done]. cbv zeta. cbn [snd].
  etransitivity; [apply closing_follows|]. etransitivity; [apply readable_follows|].
  etransitivity; [apply writable_follows|]. set (w3 := on_connection fd (NotifyWritable go_on) _).
  match goal with |- context [if ?b then w3 else set_blocked true w3] =>
    transitivity (if b then w3 else set_blocked true w3); [destruct b; by apply follows_fields|];
    generalize (if b then w3 else set_blocked true w3) end.
  intros w4. split; [|done]. intros [He Hg]. split; [by apply map_Forall_delete|].
  cbn [gone set_gone set_connection_count close_fd set_closed set_connections epoll_ctl_del set_interest].
  apply Forall_app. split; [done|]. destruct (connections_ w4 !! fd) as [st4|] eqn:E4; [|constructor].
  constructor; [|constructor]. exact (PQ _ _ (He fd st4 E4)).
Qed.

Lemma UpdateEpollInterest_follows fd w e : follows w (snd (fst (UpdateEpollInterest reg fd w e))).
Proof.
  unfold UpdateEpollInterest.
  assert (forall out, exists r w1, epoll_ctl_mod w fd out = (r, w1) /\ follows w w1) as Hm.
  { intros out. unfold epoll_ctl_mod, next_ctl. destruct (interest w !! fd); [|do 2 eexists; by split].
    destruct (ctl_script w) as [|[|] rest]; do 2 eexists; (split; [done|by apply follows_fields]). }
  match goal with |- context [epoll_ctl_mod w fd ?o] => destruct (Hm o) as (r & w1 & -> & Hf) end.
  destruct r; [|done]. pose proof (CloseConnection_follows fd w1) as H1.
  etransitivity; [exact Hf|]. by destruct (CloseConnection reg fd w1) as [[] w2].
Qed.

Lemma HandleEvent_follows fd ev w e : follows w (snd (fst (HandleEvent reg fd ev w e))).
Proof.
  unfold HandleEvent. destruct (_ =? _)%Z; [done|].
  destruct (connections_ w !! fd) as [st|]; [|done]. cbv zeta.
  set (w1 := if ev_in ev then _ else w).
  transitivity w1. { unfold w1. destruct (ev_in ev); [apply readable_follows|done]. }
  set (w2 := if ev_out ev then _ else w1).
  transitivity w2. { unfold w2. destruct (ev_out ev); [apply writable_follows|done]. }
  set (w3 := if ev_close ev then _ else w2).
  transitivity w3.
  { unfold w3. destruct (ev_close ev); [|done]. etransitivity; [apply closing_follows|].
    etransitivity; [apply readable_follows|apply writable_follows]. }
  clearbody w3. destruct (connections_ w3 !! fd) as [st3|]; [|done].
  pose proof (CloseConnection_follows fd w3) as H4.
  destruct (CloseConnection reg fd w3) as [[] w4]; cbn [snd] in H4;
    (destruct (negb _); [done|]; destruct (ShouldClose _); [done|apply UpdateEpollInterest_follows]).
Qed.

Lemma HandleEvents_follows events : forall w e, follows w (snd (fst (HandleEvents reg events w e))).
Proof.
  induction events as [|[fd ev] events IH]; intros w e; cbn [HandleEvents]; [done|].
  pose proof (HandleEvent_follows fd ev w e) as H1.
  destruct (HandleEvent reg fd ev w e) as [[[] w1] e1]; [|done]. etransitivity; [exact H1|apply IH].
Qed.

Lemma TickAll_follows now w : follows w (TickAll reg now w).
Proof.
  split; [|done]. intros [He Hg]. split; [|exact Hg]. intros fd st'. cbn [connections_ TickAll set_connections].
  rewrite lookup_fmap.
  intros (st & Hst & ->)%fmap_Some. cbn [connection connection_token]. eapply Ptracks; [exact (He fd st Hst)|].
  exact (apply_event_respects opts reg _ (tracks_respected opts reg) (connection st) (EvTick now) I).
Qed.

End each.

(** ** Answers *)

Lemma reply_or_pool reg `{ProtoMessage RpcRequest} mode b :
  request_for_pool mode b = None /\ reply reg mode b = reply reg false b \/
  exists rq, request_for_pool mode b = Some rq /\ reply reg mode b = None /\
    reply reg false b = Some (HandleOneRequest reg rq).
Proof.
  unfold reply, request_for_pool. destruct (ParseFromArray b) as [rq|]; [|by left].
  destruct (String.eqb _ _), mode; cbn [negb andb]; eauto 6.
Qed.

(** The two ways of answering add up to the answers of the connection itself. *)
Lemma answers_split reg `{ProtoMessage RpcRequest} mode fd t bodies : forall ds,
  Forall2 hands ds (omap (request_for_pool mode) bodies) ->
  omap (reply reg mode) bodies ++ map to_response (map (execute reg fd t) ds) ≡ₚ
  omap (reply reg false) bodies.
Proof.
  induction bodies as [|b bodies IH]; intros ds Hd; cbn [omap list_omap] in *.
  { by apply Forall2_nil_inv_r in Hd as ->. }
  destruct (reply_or_pool reg mode b) as [[Ep ->]|(rq & Ep & -> & ->)]; rewrite Ep in Hd.
  - destruct (reply reg false b); cbn [app]; by rewrite (IH ds).
  - apply Forall2_cons_inv_r in Hd as (d & ds' & [seq ->] & Hd & ->). cbn [map].
    rewrite execute_response, <- Permutation_middle. by rewrite (IH ds').
Qed.

(** What has been sent answers what has arrived: it can be completed to whole response frames,
    and these are answers to requests among the bytes that have arrived, each at most once. *)
Definition faithful (reg : registry) `{ProtoMessage RpcRequest} `{ProtoMessage RpcResponse}
    (input out : bytes) : Prop :=
  exists bodies rest responses outs more,
    Forall fits bodies /\ input = concat (map frame_of bodies) ++ rest /\
    Forall2 framed outs responses /\ out ++ more = concat (map frame_of outs) /\
    responses ⊆+ omap (reply reg false) bodies.

Lemma faithful_more reg `{ProtoMessage RpcRequest} `{ProtoMessage RpcResponse} input out more :
  faithful reg input out -> faithful reg (input ++ more) out.
Proof.
  intros (bodies & rest & rs & outs & m & Hb & -> & Hrest). exists bodies, (rest ++ more), rs, outs, m.
  split; [done|]. by rewrite app_assoc.
Qed.

(** ** The life of each connection *)

Section alive.
Context (reg : registry).
Context `{ProtoMessage RpcRequest} `{ProtoMessage RpcResponse}.

Abbreviation opts := Options_default.

(** The answers a connection can be given by the pool. *)
Definition owed (c : Connection) : list RpcResponse :=
  map (fun d => to_response (execute reg 0 0 d)) (dispatched c).

Lemma owed_execute fd t c :
  map to_response (map (execute reg fd t) (dispatched c)) = owed c.
Proof.
  unfold owed. rewrite map_map. apply map_ext. intros d. unfold execute. by repeat split_match.
Qed.

(** The connection with token [t] has been given the bytes [arr t] and the results in [ds]. *)
Definition lives (mode : bool) (arr : Z -> bytes) (ds : list (Z * CompletedResponse)) (t : Z)
    (c : Connection) : Prop :=
  (exists bodies rs, life opts reg mode (arr t) c bodies rs (map to_response (delivered_to t ds))) /\
  map to_response (delivered_to t ds) ⊆+ owed c.

Definition lived (arr : Z -> bytes) (t : Z) (c : Connection) : Prop := faithful reg (arr t) (wire c).

Lemma lives_tracks mode arr ds t c c' :
  lives mode arr ds t c -> tracks opts reg c c' -> lives mode arr ds t c'.
Proof.
  intros [(bodies & rs & Hl) Ho] Ht. split; [by eapply life_tracks|].
  destruct (Ht mode (lf_kept _ _ _ _ _ _ _ _ Hl)) as [_ [more [_ _ _ (l & _ & Ed)]]].
  unfold owed. rewrite Ed, map_app. by apply submseteq_inserts_r.
Qed.

Lemma lives_lived mode arr ds t c : lives mode arr ds t c -> lived arr t c.
Proof.
  intros [(bodies & rs & [_ Hf Hin (outs & Ho & Eo) Hr Hp]) Hd].
  exists bodies, (contents (read_buffer_ c) ++ script_bytes (recv_script c)), rs, outs, (unsent c).
  split; [done|]. split; [done|]. split; [done|]. split; [done|].
  rewrite <- (answers_split reg mode 0 0 bodies _ Hp), owed_execute, Hr. by apply submseteq_app.
Qed.

Record alive (mode : bool) (arr : Z -> bytes) (w : WorkerLoop) : Prop := {
  al_mode : thread_pool_ w = mode;
  al_fresh : forall t, (next_connection_token_ w <= t)%Z -> arr t = [];
  al_each : each (lives mode arr (delivered w)) (lived arr) w;
}.

Lemma alive_follows mode arr w w' :
  (forall P Q, (forall t c c', P t c -> tracks opts reg c c' -> P t c') ->
     (forall t c, P t c -> Q t c) -> follows P Q w w') ->
  alive mode arr w -> alive mode arr w'.
Proof.
  intros Hf [M F E].
  destruct (Hf _ _ (lives_tracks mode arr (delivered w)) (lives_lived mode arr (delivered w))) as [He Hk].
  unfold kept in Hk. injection Hk as K1 K2 K3. split; rewrite ?K1, ?K2, ?K3; auto.
Qed.

Lemma alive_fields mode arr w w' :
  everyone w' = everyone w -> kept w' = kept w -> alive mode arr w -> alive mode arr w'.
Proof. intros E K. apply alive_follows. intros P Q _ _. by apply follows_fields. Qed.

Lemma alive_ext mode arr arr' w : (forall t, arr t = arr' t) -> alive mode arr w -> alive mode arr' w.
Proof.
  intros Ha [M F [E G]]. split; [done|intros t Ht; rewrite <- Ha; auto|]. split.
  - intros fd st Hst. specialize (E fd st Hst). unfold lives in *. by rewrite <- Ha.
  - eapply Forall_impl; [exact G|]. intros [t c]. unfold lived. by rewrite <- Ha.
Qed.

Lemma delivered_to_snoc t ds t' r :
  delivered_to t (ds ++ [(t', r)]) = delivered_to t ds ++ (if decide (t' = t) then [r] else []).
Proof.
  unfold delivered_to. rewrite filter_app, map_app. f_equal. unfold filter. cbn. by destruct (decide _).
Qed.

(** The result of a task reaches the connection of the request, and no other. *)
Lemma alive_deliver N lp local mode arr w w1 fd st r c :
  conserved reg None N lp local w -> alive mode arr w -> connections_ w !! fd = Some st ->
  lives mode arr (delivered w ++ [(connection_token st, r)]) (connection_token st) c ->
  everyone w1 =
    (<[fd := {| connection := c; connection_token := connection_token st |}]> (connections_ w), gone w) ->
  kept w1 = (delivered w ++ [(connection_token st, r)], thread_pool_ w, next_connection_token_ w) ->
  alive mode arr w1.
Proof.
  unfold everyone, kept. intros Hc [M F [E G]] Hst Hl [= Ec Eg] [= K1 K2 K3].
  split; [congruence|by rewrite K3|]. split; [|by rewrite Eg].
  rewrite Ec, K1. intros fd' st'. rewrite lookup_insert. destruct (decide (fd = fd')) as [<-|Hne].
  - intros [= <-]. exact Hl.
  - intros Hst'. pose proof (E fd' st' Hst') as El. unfold lives in *.
    rewrite delivered_to_snoc, decide_False, app_nil_r; [done|]. intros Et. apply Hne.
    by eapply (cv_distinct _ _ _ _ _ _ Hc).
Qed.

(** It is one of those the connection can be given. *)
Lemma owed_result N lp local w fd st r :
  conserved reg None N lp (r :: local) w -> connections_ w !! fd = Some st ->
  connection_token st = cr_connection_token r ->
  map to_response (delivered_to (connection_token st) (delivered w)) ++ [to_response r] ⊆+
    owed (connection st).
Proof.
  intros Hc Hst Et. pose proof (cv_perm _ _ _ _ _ _ Hc fd st Hst ltac:(done)) as Hp. cbv beta in Hp.
  rewrite <- (owed_execute fd (connection_token st)), Hp, map_app.
  rewrite (Permutation_app_comm (map to_response (with_token _ _))). apply submseteq_app; [done|].
  apply (fmap_submseteq to_response [r]). apply singleton_submseteq_l, list_elem_of_filter.
  split; [done|]. unfold work. rewrite !elem_of_app, elem_of_cons. tauto.
Qed.

Lemma DeliverCompleted_alive N lp local mode arr r w e :
  conserved reg None N lp (r :: local) w -> alive mode arr w ->
  alive mode arr (snd (fst (DeliverCompleted reg r w e))).
Proof.
  intros Hc Ha. unfold DeliverCompleted. set (w0 := set_completed_request_count _ _).
  assert (alive mode arr w0) as Ha0 by by apply (alive_fields _ _ w).
  destruct (connections_ w0 !! cr_fd r) as [st|] eqn:Hst; [|by apply (alive_fields _ _ w0)].
  destruct (Z.eqb_spec (connection_token st) (cr_connection_token r)) as [Et|_]; cbn [negb];
    [|by apply (alive_fields _ _ w0)].
  destruct (proj1 (al_each _ _ _ Ha0) _ _ Hst) as [(bodies & rs & Hl) _].
  pose proof (life_enqueue opts reg _ _ _ _ _ _ (to_response r) Hl) as He.
  pose proof (EnqueueResponse_dispatched (connection st) (to_response r) (Some "")) as Hd.
  destruct (EnqueueResponse opts (connection st) (to_response r) (Some "")) as [[q c] e'].
  cbn [fst snd] in Hd. rewrite (on_connection_quiet _ _ w0 st Hst Hd). destruct q; cbn [negb].
  - eapply alive_follows; [intros P Q HP HQ; by apply UpdateEpollInterest_follows|].
    eapply alive_follows; [intros P Q HP HQ; by apply readable_follows|].
    eapply (alive_deliver _ _ _ _ _ w _ _ st r c); [exact Hc|done|exact Hst| |done|done].
    unfold lives, owed. rewrite delivered_to_snoc, decide_True, map_app, Hd by done.
    split; [by eexists _, _|]. by eapply owed_result.
  - subst c. match goal with |- context [CloseConnection reg (cr_fd r) ?x] =>
      pose proof (fun P Q HP HQ => CloseConnection_follows reg P Q HP HQ (cr_fd r) x) as Hf;
      assert (alive mode arr x) as Hx end.
    + apply (alive_fields _ _ w0); [|done|done]. unfold everyone. f_equal.
      cbn [connections_ set_discarded set_connections]. apply insert_id. rewrite Hst. by destruct st.
    + apply (alive_follows _ _ _ _ Hf) in Hx. by destruct (CloseConnection _ _ _) as [[] w2].
Qed.

Lemma DrainCompleted_loop_alive N lp mode arr local : forall w e,
  worker_wf w -> conserved reg None N lp local w -> alive mode arr w ->
  alive mode arr (snd (fst (DrainCompleted_loop reg local w e))).
Proof.
  induction local as [|r local IH]; intros w e Hw Hc Ha; cbn [DrainCompleted_loop]; [done|].
  pose proof (DeliverCompleted_conserved reg N lp local r w e Hc) as H1.
  pose proof (DeliverCompleted_alive N lp local mode arr r w e Hc Ha) as H2.
  destruct (DeliverCompleted_wf reg r w e Hw) as (w1 & E & Hw1). rewrite E in *. by apply IH.
Qed.

Lemma DrainCompletedResponses_alive N lp mode arr w tid e :
  worker_wf w -> conserved reg None N lp [] w -> alive mode arr w ->
  alive mode arr (snd (fst (DrainCompletedResponses reg w tid e))).
Proof.
  intros Hw Hc Ha. unfold DrainCompletedResponses.
  destruct (EnsureOwnerThread w tid e) as [[] e1]; [|done]. cbn [negb].
  destruct (completed_queue_ w) as [q|] eqn:Eq; [|done].
  eapply DrainCompleted_loop_alive; [by apply (worker_wf_fields w)| |by apply (alive_fields _ _ w)].
  by apply conserved_take.
Qed.

(** A new connection starts with an empty stream. *)
Lemma AddConnection_alive N lp mode arr w tid now fd peer e :
  worker_wf w -> conserved reg None N ((fd, peer) :: lp) [] w -> (N < two64)%Z -> alive mode arr w ->
  alive mode arr (snd (fst (AddConnectionOnOwnerThread reg w tid now fd e))).
Proof.
  intros Hw Hc HN Ha. unfold AddConnectionOnOwnerThread.
  destruct (EnsureOwnerThread w tid e) as [[] e1]; [|by apply (alive_fields _ _ w)].
  cbn [negb]. destruct (negb _); [by apply (alive_fields _ _ w)|].
  destruct (epoll_ctl_add w fd) as [r w0] eqn:Ec.
  assert (everyone w0 = everyone w /\ kept w0 = kept w) as [E1 E2].
  { unfold epoll_ctl_add, next_ctl in Ec. repeat split_match_in Ec; by simplify_eq/=. }
  destruct r as [en|]; [by apply (alive_fields _ _ w)|]. cbv zeta.
  apply (alive_fields _ _ w w0 E1 E2) in Ha. destruct Ha as [M F [E G]].
  unfold kept in E2. injection E2 as K1 _ K3. destruct (cv_next _ _ _ _ _ _ Hc) as [Hn Hb]. cbn [length] in Hb.
  assert (wrap64 (next_connection_token_ w0 + 1) = (next_connection_token_ w0 + 1)%Z) as En
    by (apply wrap64_small; lia).
  cbn [connections_ set_next_connection_token]. destruct (connections_ w0 !! fd) as [st|]; cbn [fst snd].
  - split; [done| |by split]. cbn. rewrite En. intros t Ht. apply F. lia.
  - match goal with |- alive _ _ (set_total_accepted_count _ (set_connection_count _ ?x)) =>
      apply (alive_fields _ _ x); [done|done|] end.
    unfold StartConnectionCoroutine, on_connection. cbn [connections_ set_connections].
    rewrite lookup_insert_eq. cbn [connection connection_token].
    match goal with |- alive _ _ (absorb ?a ?b ?c ?x) => destruct (absorb_spec a b c x) as (Hs & Hx & _);
      generalize dependent (absorb a b c x) end.
    intros w2 Hs Hx. unfold static in Hs. cbn in Hs.
    assert (kept w2 = (delivered w0, thread_pool_ w0, wrap64 (next_connection_token_ w0 + 1)) /\
      gone w2 = gone w0) as [Hk Hg] by (unfold kept; split; congruence).
    unfold kept in Hk. injection Hk as S3 S1 S2.
    split; [by rewrite S1| |].
    + rewrite S2. cbn. rewrite En. intros t Ht. apply F. lia.
    + split; [|by rewrite Hg]. rewrite Hx, S3. cbn. rewrite insert_insert_eq. apply map_Forall_insert_2; [|exact E].
      cbn [connection connection_token]. unfold lives. rewrite F by lia.
      rewrite delivered_to_fresh; [|rewrite K1, K3; exact (cv_sent _ _ _ _ _ _ Hc)].
      rewrite M. split; [by apply life_start|apply submseteq_nil_l].
Qed.

Lemma close_fds_alive mode arr rest w :
  alive mode arr w -> alive mode arr (foldr (fun (p : Z * string) => close_fd (fst p)) w rest).
Proof.
  intros Ha. induction rest as [|p rest IH]; [done|]. cbn [foldr]. by eapply alive_fields; [..|exact IH].
Qed.

Lemma DrainPending_loop_alive N mode arr tid now lp : forall w e,
  worker_wf w -> conserved reg None N lp [] w -> (N < two64)%Z -> alive mode arr w ->
  alive mode arr (snd (fst (DrainPending_loop reg tid now lp w e))).
Proof.
  induction lp as [|[fd peer] lp IH]; intros w e Hw Hc HN Ha; cbn [DrainPending_loop]; [done|].
  pose proof (AddConnection_conserved reg N lp [] w tid now fd peer e Hw Hc HN) as H1.
  pose proof (AddConnection_wf reg w tid now fd e Hw) as Hw1.
  pose proof (AddConnection_alive N lp mode arr w tid now fd peer e Hw Hc HN Ha) as Ha1.
  destruct (AddConnectionOnOwnerThread reg w tid now fd e) as [[[] w1] e1]; [by apply IH|].
  by apply close_fds_alive.
Qed.

Lemma DrainPendingConnections_alive N mode arr w tid now e :
  worker_wf w -> conserved reg None N [] [] w -> (N < two64)%Z -> alive mode arr w ->
  alive mode arr (snd (fst (DrainPendingConnections reg w tid now e))).
Proof.
  intros Hw Hc HN Ha. unfold DrainPendingConnections.
  destruct (EnsureOwnerThread w tid e) as [[] e1]; [|done]. cbn [negb].
  eapply DrainPending_loop_alive; [by apply (worker_wf_fields w)| |done|by apply (alive_fields _ _ w)].
  by apply conserved_hand_over.
Qed.

Lemma DrainWakeFd_alive mode arr w tid fail e :
  alive mode arr w -> alive mode arr (snd (fst (DrainWakeFd w tid fail e))).
Proof.
  intros Ha. unfold DrainWakeFd. destruct (EnsureOwnerThread _ _ _) as [[] e1]; [|done].
  destruct fail; [done|]. by apply (alive_fields _ _ w).
Qed.

Lemma CloseAllConnections_alive mode arr w :
  alive mode arr w -> alive mode arr (CloseAllConnections reg w).
Proof.
  intros Ha. unfold CloseAllConnections. generalize (map fst (map_to_list (connections_ w))) as fds.
  induction fds as [|fd fds IH]; [done|]. cbn [foldr]. eapply alive_follows; [|exact IH].
  intros P Q HP HQ. by apply CloseConnection_follows.
Qed.

(** The end of [Run]: what has arrived is still taken over, then every connection is closed. *)
Lemma Run_stop_alive N mode arr w tid now wake :
  worker_wf w -> conserved reg None N [] [] w -> (N < two64)%Z -> alive mode arr w ->
  alive mode arr (Run_stop reg w tid now wake).
Proof.
  intros Hw Hc HN Ha. unfold Run_stop, Run_drain.
  set (w0 := set_accepting_new_connections false w).
  assert (worker_wf w0) as Hw0 by by apply (worker_wf_fields w).
  assert (conserved reg None N [] [] w0) as Hc0 by by apply (conserved_fields _ _ _ _ _ w).
  assert (alive mode arr w0) as Ha0 by by apply (alive_fields _ _ w).
  pose proof (DrainWakeFd_wf w0 tid wake (Some "") Hw0) as Hw1.
  pose proof (DrainWakeFd_conserved reg N [] [] w0 tid wake (Some "") Hc0) as Hc1.
  pose proof (DrainWakeFd_alive mode arr w0 tid wake (Some "") Ha0) as Ha1.
  match goal with |- context [CloseAllConnections reg ?x] => enough (alive mode arr x) as Hx;
    [apply CloseAllConnections_alive in Hx; by eapply alive_fields; [..|exact Hx]|] end.
  destruct (DrainWakeFd w0 tid wake (Some "")) as [[[] w1] e1]; cbn [fst snd] in *; [|done].
  pose proof (DrainPendingConnections_wf reg w1 tid now e1 Hw1) as Hw2.
  pose proof (DrainPendingConnections_conserved reg N w1 tid now e1 Hw1 Hc1 HN) as Hc2.
  pose proof (DrainPendingConnections_alive N mode arr w1 tid now e1 Hw1 Hc1 HN Ha1) as Ha2.
  destruct (DrainPendingConnections reg w1 tid now e1) as [[ok w2] e2]; cbn [fst snd] in *.
  by eapply DrainCompletedResponses_alive.
Qed.

Lemma worker_step_alive N mode arr tid env s :
  (N < two64)%Z -> system_ok reg N s -> alive mode arr (worker s) ->
  alive mode arr (worker (worker_step reg tid env s)).
Proof.
  intros HN [Hw Hc] Ha. unfold worker_step.
  destruct (point s) as [|env' evs|env' evs|env' evs|env' evs| |]; cbn [point worker] in *;
    try specialize (Hc I); try done.
  - destruct (stop_requested_ _); [done|]. by destruct (pe_wait env).
  - pose proof (DrainWakeFd_alive mode arr (worker s) tid (pe_wake env') (Some "") Ha) as Hd.
    by destruct (DrainWakeFd _ _ _ _) as [[ok w] e].
  - pose proof (DrainPendingConnections_alive N mode arr (worker s) tid (pe_now env') (Some "") Hw Hc HN Ha) as Hd.
    by destruct (DrainPendingConnections _ _ _ _ _) as [[ok w] e].
  - pose proof (DrainCompletedResponses_alive N [] mode arr (worker s) tid (Some "") Hw Hc Ha) as Hd.
    by destruct (DrainCompletedResponses _ _ _ _) as [[ok w] e].
  - pose proof (alive_follows mode arr (worker s)
      (snd (fst (HandleEvents reg evs (TickAll reg (pe_now env') (worker s)) (Some ""))))) as Hd.
    destruct (HandleEvents _ _ _ _) as [[ok w] e] eqn:Eh. cbn [fst snd worker] in *. apply Hd; [|done].
    intros P Q HP HQ. transitivity (TickAll reg (pe_now env') (worker s)); [by apply TickAll_follows|].
    change w with (snd (fst (ok, w, e))). rewrite <- Eh. by apply HandleEvents_follows.
  - by apply (Run_stop_alive N).
Qed.

(** ** What arrives *)

(** What a step gives to the connection with token [t]. *)
Definition gives (s : system) (o : op) (t : Z) : bytes :=
  match o with
  | OpKernel fd _ rs _ _ =>
      match connections_ (worker s) !! fd with
      | Some st => if (connection_token st =? t)%Z then script_bytes rs else []
      | None => []
      end
  | _ => []
  end.

Fixpoint stream_to (tid : nat) (s : system) (ops : list op) (t : Z) : bytes :=
  match ops with
  | [] => []
  | o :: ops => gives s o t ++ stream_to tid (step reg tid s o) ops t
  end.

Lemma alive_kernel mode arr w fd clk rs ss subs N lp local :
  (connections_ w <> ∅ -> conserved reg None N lp local w) -> alive mode arr w ->
  alive mode (fun t => arr t ++
      match connections_ w !! fd with
      | Some st => if (connection_token st =? t)%Z then script_bytes rs else []
      | None => []
      end)
    (on_connection fd (fun c => apply_event opts reg c (EvKernel clk rs ss subs)) w).
Proof.
  intros Hc [M F [E G]]. destruct (connections_ w !! fd) as [st|] eqn:Hst.
  2: { unfold on_connection. rewrite Hst. apply (alive_ext _ arr); [intros t; by rewrite app_nil_r|by split]. }
  specialize (Hc ltac:(intros E0; by rewrite E0 in Hst)).
  rewrite (on_connection_quiet _ _ _ _ Hst) by done. split; [done|..].
  - cbn. intros t Ht. rewrite F by done. pose proof (cv_live _ _ _ _ _ _ Hc fd st Hst) as Hl. cbn in Hl.
    destruct (Z.eqb_spec (connection_token st) t); [lia|done].
  - split; cbn.
    + intros fd' st'. rewrite lookup_insert. destruct (decide (fd = fd')) as [<-|Hne].
      * intros [= <-]. cbn [connection connection_token]. destruct (E fd st Hst) as [(bodies & rs' & Hl) Ho].
        split; [|exact Ho]. exists bodies, rs'. rewrite Z.eqb_refl. by apply life_kernel.
      * intros Hst'. pose proof (E fd' st' Hst') as El. unfold lives in *.
        destruct (Z.eqb_spec (connection_token st) (connection_token st')) as [Et|]; [|by rewrite app_nil_r].
        destruct Hne. by eapply (cv_distinct _ _ _ _ _ _ Hc).
    + eapply Forall_impl; [exact G|]. intros [t c] Hl. by apply faithful_more.
Qed.

Lemma step_alive N mode arr tid s o :
  (N < two64)%Z -> system_ok reg N s -> over s -> alive mode arr (worker s) ->
  alive mode (fun t => arr t ++ gives s o t) (worker (step reg tid s o)).
Proof.
  intros HN Hs Hov Ha.
  destruct o as [env|fd peer| |i| |fd clk rs ss subs|results]; cbn [step gives] in *.
  6: { cbn [point worker] in *. eapply alive_kernel; [|exact Ha]. intros Hne. apply (proj2 Hs).
       destruct (point s) eqn:Ep; try exact I. destruct Hne. apply Hov. rewrite Ep. by intros []. }
  all: apply (alive_ext _ arr); [intros t; by rewrite app_nil_r|].
  - by eapply worker_step_alive.
  - apply (alive_fields _ _ (worker s)); [..|exact Ha];
      unfold EnqueueConnection, Wakeup; cbn [worker]; by repeat split_match.
  - apply (alive_fields _ _ (worker s)); [..|exact Ha];
      unfold RequestStop, Wakeup; cbn [worker]; by repeat split_match.
  - destruct (tasks (worker s) !! i) eqn:Et; [|exact Ha].
    apply (alive_fields _ _ (worker s)); [..|exact Ha];
      unfold RunTask, push_completed; cbn [worker]; by repeat split_match.
  - destruct (wakers s); [exact Ha|].
    apply (alive_fields _ _ (worker s)); [..|exact Ha];
      unfold RunTask_wake; cbn [worker]; by repeat split_match.
  - by apply (alive_fields _ _ (worker s)).
Qed.

Lemma run_alive mode tid ops : forall N s arr,
  (N + Z.of_nat (length ops) <= two64)%Z -> system_ok reg N s -> over s -> alive mode arr (worker s) ->
  alive mode (fun t => arr t ++ stream_to tid s ops t) (worker (run reg tid s ops)).
Proof.
  induction ops as [|o ops IH]; intros N s arr HN Hs Hov Ha; cbn [length] in HN.
  - apply (alive_ext _ arr); [intros t; by rewrite app_nil_r|exact Ha].
  - apply (alive_ext _ (fun t => (arr t ++ gives s o t) ++ stream_to tid (step reg tid s o) ops t));
      [intros t; by rewrite <- app_assoc|].
    change (run reg tid s (o :: ops)) with (run reg tid (step reg tid s o) ops) in *.
    apply (IH (N + 1)%Z (step reg tid s o) (fun t => arr t ++ gives s o t)).
    + lia.
    + apply step_ok; [lia|exact Hs].
    + apply step_over; [apply Hs|exact Hov].
    + apply (step_alive N); [lia|exact Hs|exact Hov|exact Ha].
Qed.

Lemma started_alive pool tid epoll evfd : alive pool (fun _ => []) (worker (started pool tid epoll evfd)).
Proof.
  unfold started, Init, Start, is_open, UniqueFd.Valid. cbn.
  destruct (0 <=? epoll)%Z eqn:E1; cbn; rewrite ?E1; [destruct (0 <=? evfd)%Z eqn:E2; cbn; rewrite ?E1, ?E2|];
    cbn; split; try done; (split; [apply map_Forall_empty|constructor]).
Qed.

(** What each connection, closed or not, has sent. *)
Definition sent_on (w : WorkerLoop) : list (Z * bytes) :=
  map (fun p => (fst p, wire (snd p))) (gone w) ++
  map (fun p => (connection_token (snd p), wire (connection (snd p)))) (map_to_list (connections_ w)).

Lemma alive_sent mode arr w t out :
  alive mode arr w -> (t, out) ∈ sent_on w -> faithful reg (arr t) out.
Proof.
  intros [_ _ [E G]] [Hin|Hin]%elem_of_app; apply list_elem_of_fmap in Hin as ([k x] & [= -> ->] & Hin).
  - rewrite Forall_forall in G. exact (G _ Hin).
  - apply elem_of_map_to_list in Hin. exact (lives_lived _ _ _ _ _ (E _ _ Hin)).
Qed.

(** The worker after any run. *)
Lemma worker_alive pool tid epoll evfd ops :
  (0 <= epoll)%Z -> (0 <= evfd)%Z -> (Z.of_nat (length ops) < two64)%Z ->
  alive pool (stream_to tid (started pool tid epoll evfd) ops)
    (worker (run reg tid (started pool tid epoll evfd) ops)).
Proof.
  intros He Hv Hl. eapply (run_alive pool tid ops 1 _ (fun _ => [])); [lia|by apply worker_started_ok| |].
  - by intros [].
  - apply started_alive.
Qed.

End alive.

(** ** The property *)

(** What the invariants say of a live connection. *)
Lemma worker_connection_served (reg : registry)
    `{ProtoMessage RpcRequest} `{ProtoMessage RpcResponse}
    (pool : bool) (tid : nat) (epoll evfd : Z) (ops : list op) :
  (0 <= epoll)%Z -> (0 <= evfd)%Z -> (Z.of_nat (length ops) < two64)%Z ->
  let s := run reg tid (started pool tid epoll evfd) ops in
  let w := worker s in
  point s <> AtEnded ->
  forall fd st, connections_ w !! fd = Some st ->
  let c := connection st in
  let t := connection_token st in
  exists bodies responses outs,
    Forall fits bodies /\
    stream_to reg tid (started pool tid epoll evfd) ops t =
      concat (map frame_of bodies) ++ contents (read_buffer_ c) ++ script_bytes (recv_script c) /\
    Forall2 framed outs responses /\
    wire c ++ unsent c = concat (map frame_of outs) /\
    responses ++ map to_response (with_token t (execs reg (tasks w) ++ queued w)) ≡ₚ
      omap (reply reg false) bodies.
Proof.
  intros H1 H2 Hl s w Hp fd st Hst c t.
  pose proof (worker_started_ok reg pool tid epoll evfd H1 H2) as Hs0.
  destruct (worker_run_ok reg tid ops 1 (started pool tid epoll evfd)) as [_ Hc]; [lia|done|].
  assert (serving_point (point s)) as Hsp by (by destruct (point s)).
  specialize (Hc Hsp). fold s w in Hc.
  pose proof (worker_alive reg pool tid epoll evfd ops H1 H2 Hl) as [_ _ [He _]].
  destruct (He fd st Hst) as [(bodies & rs & [_ Hft Hin (outs & Hf & Ho) Hr Hd]) _].
  exists bodies, rs, outs. subst c t. split; [exact Hft|]. split; [exact Hin|]. split; [done|]. split; [exact Ho|].
  pose proof (cv_perm _ _ _ _ _ _ Hc fd st Hst ltac:(done)) as Hperm. cbv beta in Hperm.
  rewrite <- (answers_split reg pool fd (connection_token st) bodies _ Hd), Hperm, Hr, map_app.
  unfold work. cbn [app]. solve_Permutation.
Qed.

(** C4: a worker serves each of its connections from that connection's stream and completely.
    Whatever the other connections, the acceptor, the threads of the pool, the kernel and the
    clock do: the bytes that have arrived for a live connection are whole requests followed by
    those not parsed yet; everything on its wire and in its output buffer is a sequence of whole
    response frames; and these responses, together with those of its requests that are still in
    the pool or in the completion queue, are - each exactly once - the answers to the
    requests it has sent, also when its descriptor belonged to another connection before. *)
Theorem worker_serves_each_connection (reg : registry)
    `{ProtoMessage RpcRequest} `{ProtoMessage RpcResponse}
    (pool : bool) (tid : nat) (epoll evfd : Z) (ops : list op) :
  (0 <= epoll)%Z -> (0 <= evfd)%Z -> (Z.of_nat (length ops) < two64)%Z ->
  let s := run reg tid (started pool tid epoll evfd) ops in
  let w := worker s in
  point s <> AtEnded ->
  forall fd st, connections_ w !! fd = Some st ->
  let c := connection st in
  let t := connection_token st in
  exists bodies responses outs,
    Forall fits bodies /\
    stream_to reg tid (started pool tid epoll evfd) ops t =
      concat (map frame_of bodies) ++ contents (read_buffer_ c) ++ script_bytes (recv_script c) /\
    Forall2 framed outs responses /\
    wire c ++ unsent c = concat (map frame_of outs) /\
    responses ++ map to_response (with_token t (execs reg (tasks w) ++ queued w)) ≡ₚ
      omap (reply reg false) bodies.
Proof. apply worker_connection_served. Qed.

(** Descriptor 7 has sent two requests; one is in the pool, one has been answered. *)
Lemma worker_serves_each_connection_witness :
  exists st bodies responses outs,
    connections_ (worker (w_system w_ops)) !! 7%Z = Some st /\ unsent (connection st) <> [] /\
    length (with_token 1 (execs w_registry (tasks (worker (w_system w_ops))))) = 1 /\
    w_stream = concat (map frame_of bodies) ++ contents (read_buffer_ (connection st)) ++
               script_bytes (recv_script (connection st)) /\
    Forall2 framed outs responses /\
    wire (connection st) ++ unsent (connection st) = concat (map frame_of outs) /\
    responses ++ map to_response (with_token 1 (execs w_registry (tasks (worker (w_system w_ops))) ++
                                                queued (worker (w_system w_ops)))) ≡ₚ
      omap (reply w_registry false) bodies.
Proof.
  unfold w_system.
  destruct (connections_ (worker (run w_registry 1 (started true 1 4 5) w_ops)) !! 7%Z) as [st|] eqn:E;
    [|exfalso; vm_compute in E; discriminate].
  destruct (worker_serves_each_connection w_registry true 1 4 5 w_ops ltac:(lia) ltac:(lia)
    ltac:(vm_compute; reflexivity) ltac:(vm_compute; congruence) 7%Z st E)
    as (bodies & responses & outs & _ & Hin & Hf & Ho & Hr).
  exists st, bodies, responses, outs.
  assert (connection_token st = 1%Z /\ unsent (connection st) <> []) as [Et Eu]
    by (vm_compute in E; injection E as <-; vm_compute; split; congruence).
  assert (stream_to w_registry 1 (started true 1 4 5) w_ops 1 = w_stream) as Ea by (vm_compute; reflexivity).
  rewrite Et in Hin, Hr. rewrite Ea in Hin.
  split; [reflexivity|]. split; [exact Eu|]. split; [vm_compute; reflexivity|]. split; [exact Hin|].
  split; [exact Hf|]. split; [exact Ho|exact Hr].
Defined.
