(* ===== verification/RpcServer.v ===== *)
(** * The server: acceptor, workers and lifecycle (server/rpc_server.h,
    server/rpc_server.cpp)

    [Start] runs on one thread; it sets the acceptor up, starts the pool and the
    workers, accepts connections until it is stopped, and tears everything down.
    [Stop] may be called by any number of threads.  The code is modelled as the
    instructions between which other threads can act; the workers are the systems
    of WorkerLoop.v, the pool is that of ThreadPool.v, and their threads run in
    between.  What the kernel answers is the argument [senv] of a step.  The mutex
    [lifecycle_mu_] is held over several steps only by a [Stop] that cleans up
    itself ([lock_free]). *)

From Stdlib Require Import ZArith Lia.
From S2P Require Import Prelude RpcError Posix Codec Frames ServiceRegistry Proto3 ThreadPool.
From S2P Require Import ConnBuffer Connection WorkerLoop.

Local Open Scope string_scope.
Local Open Scope list_scope.
Local Open Scope nat_scope.

(** ** Data *)

(** The pieces of [Start] and [Stop]. *)
Inductive instr :=
  | IStoreStop (b : bool)
  | IStoreAccepting (b : bool)
  | IResetNext
  | IInitAcceptor
  | IStartPool
  | IClearWorkers
  | IStartWorker (i : nat)
  | ICloseAcceptor
  | IPoolStopAccepting
  | IPoolStopRequest
  | IPoolJoin
  | IPoolFree
  | IRequestStop (i : nat)
  | IJoinWorker (i : nat)
  | INotRunning (result : bool).

(** Where the thread of [Start] is: outside, in straight-line code and where that
    leads, or in the accept loop. *)
Inductive spoint :=
  | SpIdle
  | SpRun (code : list instr) (to_loop : bool)
  | SpLoop
  | SpWait
  | SpWaitFailed
  | SpCheck (events : list Z)
  | SpEvents (events : list Z)
  | SpAccept (events : list Z)
  | SpAccept4 (events : list Z)
  | SpHand (events : list Z) (fd : Z) (peer : string).

(** Where a thread is in [Stop]. *)
Inductive stopper :=
  | StIdle
  | StCheck
  | StClean (code : list instr)
  | StStoreAccepting
  | StStoreStop
  | StWait
  | StDone.

(** [closes] logs the [close] calls the server makes; [handed] the worker each
    connection of this [Start] was given to; [last_result] what [Start] returned;
    [dangling] the uses of a pool that has been freed. *)
Record RpcServer := {
  port_ : Z;
  worker_count_ : nat;
  business_thread_count_ : nat;
  listen_fd_ : UniqueFd.t;
  accept_epoll_fd_ : UniqueFd.t;
  business_thread_pool_ : option ThreadPool.ThreadPool;
  workers_ : list system;
  next_worker_ : nat;
  stop_requested_ : bool;
  accepting_new_connections_ : bool;
  running_ : bool;
  at_ : spoint;
  stoppers : list stopper;
  closes : list Z;
  handed : list nat;
  last_result : option bool;
  dangling : nat;
}.

(** The constructor; [n] threads may call [Stop]. *)
Definition make_server (port : Z) (worker_count business_thread_count n : nat) : RpcServer :=
  {| port_ := port; worker_count_ := if worker_count =? 0 then 1 else worker_count;
     business_thread_count_ := business_thread_count;
     listen_fd_ := UniqueFd.empty; accept_epoll_fd_ := UniqueFd.empty;
     business_thread_pool_ := None; workers_ := []; next_worker_ := 0; stop_requested_ := false;
     accepting_new_connections_ := false; running_ := false; at_ := SpIdle;
     stoppers := replicate n StIdle; closes := []; handed := []; last_result := None;
     dangling := 0 |}.

Definition set_listen (v : UniqueFd.t) (s : RpcServer) : RpcServer :=
  {| port_ := port_ s; worker_count_ := worker_count_ s; business_thread_count_ :=
     business_thread_count_ s; listen_fd_ := v; accept_epoll_fd_ := accept_epoll_fd_ s;
     business_thread_pool_ := business_thread_pool_ s; workers_ := workers_ s; next_worker_
     := next_worker_ s; stop_requested_ := stop_requested_ s; accepting_new_connections_ :=
     accepting_new_connections_ s; running_ := running_ s; at_ := at_ s; stoppers :=
     stoppers s; closes := closes s; handed := handed s; last_result := last_result s;
     dangling := dangling s |}.

Definition set_accept_epoll (v : UniqueFd.t) (s : RpcServer) : RpcServer :=
  {| port_ := port_ s; worker_count_ := worker_count_ s; business_thread_count_ :=
     business_thread_count_ s; listen_fd_ := listen_fd_ s; accept_epoll_fd_ := v;
     business_thread_pool_ := business_thread_pool_ s; workers_ := workers_ s; next_worker_
     := next_worker_ s; stop_requested_ := stop_requested_ s; accepting_new_connections_ :=
     accepting_new_connections_ s; running_ := running_ s; at_ := at_ s; stoppers :=
     stoppers s; closes := closes s; handed := handed s; last_result := last_result s;
     dangling := dangling s |}.

Definition set_pool (v : option ThreadPool.ThreadPool) (s : RpcServer) : RpcServer :=
  {| port_ := port_ s; worker_count_ := worker_count_ s; business_thread_count_ :=
     business_thread_count_ s; listen_fd_ := listen_fd_ s; accept_epoll_fd_ :=
     accept_epoll_fd_ s; business_thread_pool_ := v; workers_ := workers_ s; next_worker_ :=
     next_worker_ s; stop_requested_ := stop_requested_ s; accepting_new_connections_ :=
     accepting_new_connections_ s; running_ := running_ s; at_ := at_ s; stoppers :=
     stoppers s; closes := closes s; handed := handed s; last_result := last_result s;
     dangling := dangling s |}.

Definition set_workers (v : list system) (s : RpcServer) : RpcServer :=
  {| port_ := port_ s; worker_count_ := worker_count_ s; business_thread_count_ :=
     business_thread_count_ s; listen_fd_ := listen_fd_ s; accept_epoll_fd_ :=
     accept_epoll_fd_ s; business_thread_pool_ := business_thread_pool_ s; workers_ := v;
     next_worker_ := next_worker_ s; stop_requested_ := stop_requested_ s;
     accepting_new_connections_ := accepting_new_connections_ s; running_ := running_ s; at_
     := at_ s; stoppers := stoppers s; closes := closes s; handed := handed s; last_result
     := last_result s; dangling := dangling s |}.

Definition set_next (v : nat) (s : RpcServer) : RpcServer :=
  {| port_ := port_ s; worker_count_ := worker_count_ s; business_thread_count_ :=
     business_thread_count_ s; listen_fd_ := listen_fd_ s; accept_epoll_fd_ :=
     accept_epoll_fd_ s; business_thread_pool_ := business_thread_pool_ s; workers_ :=
     workers_ s; next_worker_ := v; stop_requested_ := stop_requested_ s;
     accepting_new_connections_ := accepting_new_connections_ s; running_ := running_ s; at_
     := at_ s; stoppers := stoppers s; closes := closes s; handed := handed s; last_result
     := last_result s; dangling := dangling s |}.

Definition set_stop (v : bool) (s : RpcServer) : RpcServer :=
  {| port_ := port_ s; worker_count_ := worker_count_ s; business_thread_count_ :=
     business_thread_count_ s; listen_fd_ := listen_fd_ s; accept_epoll_fd_ :=
     accept_epoll_fd_ s; business_thread_pool_ := business_thread_pool_ s; workers_ :=
     workers_ s; next_worker_ := next_worker_ s; stop_requested_ := v;
     accepting_new_connections_ := accepting_new_connections_ s; running_ := running_ s; at_
     := at_ s; stoppers := stoppers s; closes := closes s; handed := handed s; last_result
     := last_result s; dangling := dangling s |}.

Definition set_accepting (v : bool) (s : RpcServer) : RpcServer :=
  {| port_ := port_ s; worker_count_ := worker_count_ s; business_thread_count_ :=
     business_thread_count_ s; listen_fd_ := listen_fd_ s; accept_epoll_fd_ :=
     accept_epoll_fd_ s; business_thread_pool_ := business_thread_pool_ s; workers_ :=
     workers_ s; next_worker_ := next_worker_ s; stop_requested_ := stop_requested_ s;
     accepting_new_connections_ := v; running_ := running_ s; at_ := at_ s; stoppers :=
     stoppers s; closes := closes s; handed := handed s; last_result := last_result s;
     dangling := dangling s |}.

Definition set_running (v : bool) (s : RpcServer) : RpcServer :=
  {| port_ := port_ s; worker_count_ := worker_count_ s; business_thread_count_ :=
     business_thread_count_ s; listen_fd_ := listen_fd_ s; accept_epoll_fd_ :=
     accept_epoll_fd_ s; business_thread_pool_ := business_thread_pool_ s; workers_ :=
     workers_ s; next_worker_ := next_worker_ s; stop_requested_ := stop_requested_ s;
     accepting_new_connections_ := accepting_new_connections_ s; running_ := v; at_ := at_
     s; stoppers := stoppers s; closes := closes s; handed := handed s; last_result :=
     last_result s; dangling := dangling s |}.

Definition set_at (v : spoint) (s : RpcServer) : RpcServer :=
  {| port_ := port_ s; worker_count_ := worker_count_ s; business_thread_count_ :=
     business_thread_count_ s; listen_fd_ := listen_fd_ s; accept_epoll_fd_ :=
     accept_epoll_fd_ s; business_thread_pool_ := business_thread_pool_ s; workers_ :=
     workers_ s; next_worker_ := next_worker_ s; stop_requested_ := stop_requested_ s;
     accepting_new_connections_ := accepting_new_connections_ s; running_ := running_ s; at_
     := v; stoppers := stoppers s; closes := closes s; handed := handed s; last_result :=
     last_result s; dangling := dangling s |}.

Definition set_stoppers (v : list stopper) (s : RpcServer) : RpcServer :=
  {| port_ := port_ s; worker_count_ := worker_count_ s; business_thread_count_ :=
     business_thread_count_ s; listen_fd_ := listen_fd_ s; accept_epoll_fd_ :=
     accept_epoll_fd_ s; business_thread_pool_ := business_thread_pool_ s; workers_ :=
     workers_ s; next_worker_ := next_worker_ s; stop_requested_ := stop_requested_ s;
     accepting_new_connections_ := accepting_new_connections_ s; running_ := running_ s; at_
     := at_ s; stoppers := v; closes := closes s; handed := handed s; last_result :=
     last_result s; dangling := dangling s |}.

Definition add_closes (v : list Z) (s : RpcServer) : RpcServer :=
  {| port_ := port_ s; worker_count_ := worker_count_ s; business_thread_count_ :=
     business_thread_count_ s; listen_fd_ := listen_fd_ s; accept_epoll_fd_ :=
     accept_epoll_fd_ s; business_thread_pool_ := business_thread_pool_ s; workers_ :=
     workers_ s; next_worker_ := next_worker_ s; stop_requested_ := stop_requested_ s;
     accepting_new_connections_ := accepting_new_connections_ s; running_ := running_ s; at_
     := at_ s; stoppers := stoppers s; closes := closes s ++ v; handed := handed s;
     last_result := last_result s; dangling := dangling s |}.

Definition set_handed (v : list nat) (s : RpcServer) : RpcServer :=
  {| port_ := port_ s; worker_count_ := worker_count_ s; business_thread_count_ :=
     business_thread_count_ s; listen_fd_ := listen_fd_ s; accept_epoll_fd_ :=
     accept_epoll_fd_ s; business_thread_pool_ := business_thread_pool_ s; workers_ :=
     workers_ s; next_worker_ := next_worker_ s; stop_requested_ := stop_requested_ s;
     accepting_new_connections_ := accepting_new_connections_ s; running_ := running_ s; at_
     := at_ s; stoppers := stoppers s; closes := closes s; handed := v; last_result :=
     last_result s; dangling := dangling s |}.

Definition set_result (v : option bool) (s : RpcServer) : RpcServer :=
  {| port_ := port_ s; worker_count_ := worker_count_ s; business_thread_count_ :=
     business_thread_count_ s; listen_fd_ := listen_fd_ s; accept_epoll_fd_ :=
     accept_epoll_fd_ s; business_thread_pool_ := business_thread_pool_ s; workers_ :=
     workers_ s; next_worker_ := next_worker_ s; stop_requested_ := stop_requested_ s;
     accepting_new_connections_ := accepting_new_connections_ s; running_ := running_ s; at_
     := at_ s; stoppers := stoppers s; closes := closes s; handed := handed s; last_result
     := v; dangling := dangling s |}.

Definition add_dangling (v : nat) (s : RpcServer) : RpcServer :=
  {| port_ := port_ s; worker_count_ := worker_count_ s; business_thread_count_ :=
     business_thread_count_ s; listen_fd_ := listen_fd_ s; accept_epoll_fd_ :=
     accept_epoll_fd_ s; business_thread_pool_ := business_thread_pool_ s; workers_ :=
     workers_ s; next_worker_ := next_worker_ s; stop_requested_ := stop_requested_ s;
     accepting_new_connections_ := accepting_new_connections_ s; running_ := running_ s; at_
     := at_ s; stoppers := stoppers s; closes := closes s; handed := handed s; last_result
     := last_result s; dangling := dangling s + v |}.

(** ** The kernel's side *)

(** The results of the calls of [InitAcceptor]: descriptors, or the error of a call
    that failed. *)
Record acceptor_env := {
  ae_socket : Z;
  ae_reuseaddr : option errno;
  ae_reuseport : option errno;
  ae_fcntl : option errno;
  ae_bind : option errno;
  ae_listen : option errno;
  ae_epoll : Z;
  ae_ctl : option errno;
  ae_errno : errno;
}.

(** [se_pool]: why a thread of the pool cannot be created; [se_worker]: the results
    of the calls of a worker's [Init]; [se_wait]: [epoll_wait]; [se_accept]:
    [accept4], a descriptor with the peer's address and port. *)
Record senv := {
  se_acceptor : acceptor_env;
  se_pool : option string;
  se_worker : Z * Z * option errno * errno;
  se_wait : errno + list Z;
  se_accept : errno + (Z * string * Z);
}.

(** ** Setting up *)

(** Move assignment closes the descriptor that was held before. *)
Definition replace_fd (old : UniqueFd.t) (fd : Z) : UniqueFd.t * list Z := UniqueFd.Reset old fd.

Definition InitAcceptor (env : acceptor_env) (s : RpcServer) (error_msg : option string)
    : bool * RpcServer * option string :=
  let fail what e s := (false, s, set_error error_msg (what +:+ strerror e)) in
  let '(l, c) := replace_fd (listen_fd_ s) (ae_socket env) in
  let s := add_closes c (set_listen l s) in
  if negb (UniqueFd.Valid (listen_fd_ s)) then fail "socket failed: " (ae_errno env) s
  else
    match ae_reuseaddr env with
    | Some e => fail "setsockopt(SO_REUSEADDR) failed: " e s
    | None =>
    match ae_reuseport env with
    | Some e => fail "setsockopt(SO_REUSEPORT) failed: " e s
    | None =>
    match ae_fcntl env with
    | Some e => fail "fcntl(O_NONBLOCK) failed for listen fd: " e s
    | None =>
    match ae_bind env with
    | Some e => fail "bind failed: " e s
    | None =>
    match ae_listen env with
    | Some e => fail "listen failed: " e s
    | None =>
        let '(p, c) := replace_fd (accept_epoll_fd_ s) (ae_epoll env) in
        let s := add_closes c (set_accept_epoll p s) in
        if negb (UniqueFd.Valid (accept_epoll_fd_ s)) then
          fail "epoll_create1 failed: " (ae_errno env) s
        else
          match ae_ctl env with
          | Some e => fail "epoll_ctl add listen fd failed: " e s
          | None => (true, s, error_msg)
          end
    end end end end end.

Definition StartBusinessThreadPool (thread_failure : option string) (s : RpcServer)
    (error_msg : option string) : bool * RpcServer * option string :=
  if business_thread_count_ s =? 0 then (true, set_pool None s, error_msg)
  else
    let '(ok, error_msg, p) :=
      ThreadPool.Start (ThreadPool.make_pool (business_thread_count_ s)) thread_failure error_msg in
    if negb ok then (false, set_pool None s, error_msg) else (true, set_pool (Some p) s, error_msg).

(** The descriptors a worker closes when it is destroyed. *)
Definition worker_fds (w : WorkerLoop) : list Z :=
  UniqueFd.destroy (wake_fd_ w) ++ UniqueFd.destroy (epoll_fd_ w).

(** One round of the loop of [StartWorkers]: worker [i], whose thread is [S i].  A
    worker that fails is destroyed. *)
Definition start_worker (i : nat) (env : Z * Z * option errno * errno) (s : RpcServer)
    (error_msg : option string) : bool * RpcServer * option string :=
  let '(epoll, evfd, ctl, e) := env in
  let has_pool := match business_thread_pool_ s with Some _ => true | None => false end in
  match Init (make_worker has_pool) 0 epoll evfd ctl e error_msg with
  | (false, w, error_msg) => (false, add_closes (worker_fds w) s, error_msg)
  | (true, w, error_msg) =>
      match Start w error_msg with
      | (false, w, error_msg) => (false, add_closes (worker_fds w) s, error_msg)
      | (true, w, error_msg) =>
          (true,
           set_workers
             (workers_ s ++ [{| worker := set_owner_thread_id (Some (S i)) w; point := AtWait;
                                wakers := 0 |}]) s, error_msg)
      end
  end.

(** ** Accepting *)

(** [SelectWorker]: the index of the worker; [None] is an access out of range. *)
Definition SelectWorker (s : RpcServer) : option (nat * RpcServer) :=
  match workers_ s !! next_worker_ s with
  | Some _ => Some (next_worker_ s, set_next ((next_worker_ s + 1) mod length (workers_ s)) s)
  | None => None
  end.

Definition on_worker (i : nat) (f : system -> system) (s : RpcServer) : RpcServer :=
  set_workers (alter f i (workers_ s)) s.

(** The end of the body of the accept loop: the connection is handed to a worker; if
    the worker refuses it, its descriptor is closed (by the parameter that owned it,
    and by the acceptor again). *)
Definition hand_over (fd : Z) (peer : string) (s : RpcServer) : RpcServer :=
  match SelectWorker s with
  | None => s
  | Some (i, s) =>
      match workers_ s !! i with
      | None => s
      | Some sys =>
          let '(ok, w, _) := EnqueueConnection (worker sys) fd peer (Some "") in
          let s := on_worker i (fun sys => {| worker := w; point := point sys; wakers := wakers sys |}) s in
          let s := set_handed (handed s ++ [i]) s in
          if ok then s else add_closes [fd] s
      end
  end.

Definition peer_text (ip : string) (port : Z) : string := ip +:+ ":" +:+ to_string port.

(** ** Instructions *)

Inductive outcome :=
  | Blocked
  | Next (s : RpcServer)
  | Failed (s : RpcServer).

Definition CloseAcceptor (s : RpcServer) : RpcServer :=
  let '(p, c1) := UniqueFd.Reset (accept_epoll_fd_ s) (-1) in
  let '(l, c2) := UniqueFd.Reset (listen_fd_ s) (-1) in
  add_closes (c1 ++ c2) (set_listen l (set_accept_epoll p s)).

Definition lock_free (s : RpcServer) : bool :=
  forallb (fun st => match st with StClean _ => false | _ => true end) (stoppers s).

Definition ended (sys : system) : bool :=
  match point sys with AtEnded => true | _ => false end.

Definition exec (env : senv) (i : instr) (s : RpcServer) : outcome :=
  match i with
  | IStoreStop b => Next (set_stop b s)
  | IStoreAccepting b => Next (set_accepting b s)
  | IResetNext => Next (set_handed [] (set_next 0 s))
  | IInitAcceptor =>
      match InitAcceptor (se_acceptor env) s (Some "") with
      | (true, s, _) => Next s
      | (false, s, _) => Failed s
      end
  | IStartPool =>
      match StartBusinessThreadPool (se_pool env) s (Some "") with
      | (true, s, _) => Next s
      | (false, s, _) => Failed s
      end
  | IClearWorkers =>
      Next (set_workers []
              (add_closes (concat (map (fun sys => worker_fds (worker sys)) (workers_ s))) s))
  | IStartWorker i =>
      match start_worker i (se_worker env) s (Some "") with
      | (true, s, _) => Next s
      | (false, s, _) => Failed s
      end
  | ICloseAcceptor => Next (CloseAcceptor s)
  | IPoolStopAccepting => Next (set_pool (ThreadPool.Stop_accepting <$> business_thread_pool_ s) s)
  | IPoolStopRequest => Next (set_pool (ThreadPool.Stop_request <$> business_thread_pool_ s) s)
  | IPoolJoin =>
      match business_thread_pool_ s with
      | None => Next s
      | Some p =>
          match ThreadPool.Join p with
          | Some p => Next (set_pool (Some p) s)
          | None => Blocked
          end
      end
  | IPoolFree => Next (set_pool None s)
  | IRequestStop i =>
      Next (on_worker i (fun sys => {| worker := RequestStop (worker sys); point := point sys;
                                       wakers := wakers sys |}) s)
  | IJoinWorker i =>
      match workers_ s !! i with
      | Some sys => if ended sys then Next s else Blocked
      | None => Next s
      end
  | INotRunning result =>
      if lock_free s then Next (set_result (Some result) (set_running false s)) else Blocked
  end.

(** [StopBusinessThreadPool] and [StopWorkers] of [n] workers. *)
Definition StopBusinessThreadPool : list instr :=
  [IPoolStopAccepting; IPoolStopRequest; IPoolJoin; IPoolFree].

Definition StopWorkers (n : nat) : list instr :=
  map IRequestStop (seq 0 n) ++ map IJoinWorker (seq 0 n) ++ [IClearWorkers].

(** From the publication of the running state to the accept loop. *)
Definition start_up (n : nat) : list instr :=
  [IStoreStop false; IStoreAccepting true; IResetNext; IInitAcceptor; IStartPool; IClearWorkers] ++
  map IStartWorker (seq 0 n).

(** What follows the failure of an instruction of [start_up]. *)
Definition on_failure (i : instr) (n : nat) : list instr :=
  match i with
  | IStartWorker _ =>
      StopBusinessThreadPool ++ StopWorkers n ++ [ICloseAcceptor; INotRunning false]
  | _ => [ICloseAcceptor; INotRunning false]
  end.

(** The end of [Start]. *)
Definition tear_down (n : nat) (fatal_error : bool) : list instr :=
  [IStoreAccepting false; IStoreStop true; ICloseAcceptor] ++ StopBusinessThreadPool ++
  StopWorkers n ++ [INotRunning (negb fatal_error)].

(** What [Stop] does itself when the server is not running. *)
Definition clean_up (n : nat) : list instr :=
  [IStoreStop true; IStoreAccepting false] ++ StopBusinessThreadPool ++ StopWorkers n ++
  [ICloseAcceptor].

(** ** Steps *)

(** The first part of [Start]. *)
Definition begin_start (s : RpcServer) : RpcServer :=
  if negb (lock_free s) then s
  else if running_ s then s
  else set_at (SpRun (start_up (worker_count_ s)) true) (set_running true s).

(** The next step of the thread of [Start]; [None]: it waits. *)
Definition start_step (env : senv) (s : RpcServer) : option RpcServer :=
  match at_ s with
  | SpIdle => None
  | SpRun [] to_loop => Some (set_at (if to_loop then SpLoop else SpIdle) s)
  | SpRun (i :: code) to_loop =>
      match exec env i s with
      | Blocked => None
      | Next s => Some (set_at (SpRun code to_loop) s)
      | Failed s => Some (set_at (SpRun (on_failure i (length (workers_ s))) false) s)
      end
  | SpLoop =>
      Some (set_at (if stop_requested_ s
                    then SpRun (tear_down (length (workers_ s)) false) false else SpWait) s)
  | SpWait =>
      match se_wait env with
      | inl e => Some (set_at (if decide (e = EINTR) then SpLoop else SpWaitFailed) s)
      | inr events => Some (set_at (SpCheck events) s)
      end
  | SpWaitFailed =>
      Some (set_at (SpRun (tear_down (length (workers_ s)) (negb (stop_requested_ s))) false) s)
  | SpCheck events =>
      Some (set_at (if stop_requested_ s || negb (accepting_new_connections_ s)
                    then SpLoop else SpEvents events) s)
  | SpEvents [] => Some (set_at SpLoop s)
  | SpEvents (fd :: events) =>
      Some (set_at (if (fd =? UniqueFd.fd_ (listen_fd_ s))%Z then SpAccept events
                    else SpEvents events) s)
  | SpAccept events =>
      Some (set_at (if accepting_new_connections_ s then SpAccept4 events else SpEvents events) s)
  | SpAccept4 events =>
      match se_accept env with
      | inl e => Some (set_at (if decide (e = EINTR) then SpAccept events else SpEvents events) s)
      | inr (fd, ip, port) => Some (set_at (SpHand events fd (peer_text ip port)) s)
      end
  | SpHand events fd peer => Some (set_at (SpAccept events) (hand_over fd peer s))
  end.

(** The next step of thread [j] in [Stop]. *)
Definition stop_step (env : senv) (st : stopper) (s : RpcServer) : option (stopper * RpcServer) :=
  match st with
  | StIdle => None
  | StCheck =>
      if negb (lock_free s) then None
      else if running_ s then Some (StStoreAccepting, s)
      else Some (StClean (clean_up (length (workers_ s))), s)
  | StClean [] => Some (StDone, s)
  | StClean (i :: code) =>
      match exec env i s with
      | Next s => Some (StClean code, s)
      | _ => None
      end
  | StStoreAccepting => Some (StStoreStop, set_accepting false s)
  | StStoreStop => Some (StWait, set_stop true s)
  | StWait => if lock_free s && negb (running_ s) then Some (StDone, s) else None
  | StDone => None
  end.

(** ** Statistics *)

Record WorkerRuntimeStats := {
  worker_id : nat;
  current_connections : nat;
  total_accepted_connections : nat;
  in_flight_requests : nat;
  submitted_requests : nat;
  completed_requests : nat;
  worker_method_stats : list (string * (Z * Z));
}.

Record RuntimeStatsSnapshot := {
  snapshot_workers : list WorkerRuntimeStats;
  business_thread_pool : option StatsSnapshot;
}.

Definition worker_stats (i : nat) (sys : system) : WorkerRuntimeStats :=
  let w := worker sys in
  {| worker_id := i; current_connections := connection_count_ w;
     total_accepted_connections := total_accepted_count_ w;
     in_flight_requests := in_flight_request_count_ w;
     submitted_requests := submitted_request_count_ w;
     completed_requests := completed_request_count_ w; worker_method_stats := MethodStats w |}.

Definition StatsSnapshot (s : RpcServer) : RuntimeStatsSnapshot :=
  {| snapshot_workers := imap worker_stats (workers_ s);
     business_thread_pool := GetStatsSnapshot <$> business_thread_pool_ s |}.

(** ** Runs *)

Inductive action :=
  | ABeginStart
  | AStart (env : senv)
  | ABeginStop (j : nat)
  | AStop (j : nat) (env : senv)
  | AWorker (i : nat) (o : op)
  | APool (a : ThreadPool.action).

(** What the threads of a worker, of the pool and the kernel can do on their own:
    hand-over and stop requests come from the server, and a task can only run while
    the pool exists. *)
Definition own_op (pool : bool) (o : op) : bool :=
  match o with
  | OpEnqueue _ _ | OpRequestStop => false
  | OpRunTask _ => pool
  | _ => true
  end.

Definition own_action (a : ThreadPool.action) : bool :=
  match a with
  | ThreadPool.AStopAccepting | ThreadPool.AStopRequest => false
  | _ => true
  end.

Definition has_pool (s : RpcServer) : bool :=
  match business_thread_pool_ s with Some _ => true | None => false end.

Section server.
Context (reg : registry).
Context `{ProtoMessage RpcRequest} `{ProtoMessage RpcResponse}.

(** A step that puts a task into a pool that no longer exists is counted. *)
Definition worker_act (i : nat) (o : op) (s : RpcServer) : RpcServer :=
  match workers_ s !! i with
  | None => s
  | Some sys =>
      if own_op (has_pool s) o then
        let sys' := WorkerLoop.step reg (S i) sys o in
        let misuse := thread_pool_ (worker sys) && negb (has_pool s) &&
                      (length (tasks (worker sys)) <? length (tasks (worker sys'))) in
        add_dangling (if misuse then 1 else 0) (set_workers (<[i := sys']> (workers_ s)) s)
      else s
  end.

Definition act (s : RpcServer) (a : action) : RpcServer :=
  match a with
  | ABeginStart => begin_start s
  | AStart env => default s (start_step env s)
  | ABeginStop j =>
      match stoppers s !! j with
      | Some StIdle | Some StDone => set_stoppers (<[j := StCheck]> (stoppers s)) s
      | _ => s
      end
  | AStop j env =>
      match stoppers s !! j with
      | Some st =>
          match stop_step env st s with
          | Some (st', s') => set_stoppers (<[j := st']> (stoppers s')) s'
          | None => s
          end
      | None => s
      end
  | AWorker i o => worker_act i o s
  | APool a =>
      if own_action a then set_pool ((fun p => ThreadPool.act p a) <$> business_thread_pool_ s) s else s
  end.

Definition run (s : RpcServer) (acts : list action) : RpcServer := fold_left act acts s.

End server.

(** ** Invariants *)

Ltac server_simpl :=
  cbn [set_listen set_accept_epoll set_pool set_workers set_next set_stop set_accepting set_running
       set_at set_stoppers add_closes set_handed set_result add_dangling on_worker
       port_ worker_count_ business_thread_count_ listen_fd_ accept_epoll_fd_ business_thread_pool_
       workers_ next_worker_ stop_requested_ accepting_new_connections_ running_ at_ stoppers closes
       handed last_result dangling] in *.

(** No resource is held. *)
Record idle_clean (s : RpcServer) : Prop := {
  ic_listen : UniqueFd.Valid (listen_fd_ s) = false;
  ic_epoll : UniqueFd.Valid (accept_epoll_fd_ s) = false;
  ic_pool : business_thread_pool_ s = None;
  ic_workers : workers_ s = [];
}.

(** The instructions that only give resources back. *)
Definition tidy (i : instr) : bool :=
  match i with
  | IResetNext | IInitAcceptor | IStartPool | IStartWorker _ | INotRunning _ => false
  | _ => true
  end.

(** What is held will be given back by [code], and every thread it waits for has
    been told to stop before. *)
Record covers (code : list instr) (s : RpcServer) : Prop := {
  cv_fds : UniqueFd.Valid (listen_fd_ s) = true \/ UniqueFd.Valid (accept_epoll_fd_ s) = true ->
           ICloseAcceptor ∈ code;
  cv_pool : is_Some (business_thread_pool_ s) -> IPoolFree ∈ code;
  cv_workers : workers_ s <> [] -> IClearWorkers ∈ code;
  cv_stop_pool : forall p, business_thread_pool_ s = Some p ->
    ThreadPool.stop_requested_ p = true \/ IPoolStopRequest ∈ code;
  cv_stop_workers : forall i sys, workers_ s !! i = Some sys ->
    WorkerLoop.stop_requested_ (worker sys) = true \/ IRequestStop i ∈ code;
}.

(** No stop request follows the wait for the same component. *)
Fixpoint ordered (code : list instr) : Prop :=
  match code with
  | [] => True
  | i :: rest =>
      match i with
      | IJoinWorker _ => forall j, IRequestStop j ∉ rest
      | IPoolJoin => IPoolStopRequest ∉ rest
      | _ => True
      end /\ ordered rest
  end.

(** The acceptor is set up and all workers are there. *)
Record serving (s : RpcServer) : Prop := {
  sv_listen : UniqueFd.Valid (listen_fd_ s) = true;
  sv_epoll : UniqueFd.Valid (accept_epoll_fd_ s) = true;
  sv_workers : length (workers_ s) = worker_count_ s;
  sv_next : next_worker_ s = length (handed s) mod worker_count_ s;
}.

(** What is held after [k] instructions of [start_up]. *)
Record setting_up (k : nat) (s : RpcServer) : Prop := {
  su_clean : k <= 3 -> idle_clean s;
  su_fds : 4 <= k -> UniqueFd.Valid (listen_fd_ s) = true /\ UniqueFd.Valid (accept_epoll_fd_ s) = true;
  su_pool : k <= 4 -> business_thread_pool_ s = None;
  su_workers : length (workers_ s) = k - 6;
  su_next : 3 <= k -> next_worker_ s = 0 /\ handed s = [];
}.

Definition point_ok (s : RpcServer) : Prop :=
  match at_ s with
  | SpIdle => running_ s = false
  | SpRun code true =>
      running_ s = true /\ exists k, k <= 6 + worker_count_ s /\
        code = drop k (start_up (worker_count_ s)) /\ setting_up k s
  | SpRun code false =>
      (code = [] /\ running_ s = false) \/
      exists code' r, code = code' ++ [INotRunning r] /\ running_ s = true /\
        Forall tidy code' /\ ordered code' /\ covers code' s
  | _ => running_ s = true /\ serving s
  end.

Section invariant.
Context (reg : registry).
Context `{ProtoMessage RpcRequest} `{ProtoMessage RpcResponse}.

(** A worker the server holds is one that was initialised and started, and that
    the acceptor, its thread, the pool's threads and the kernel then acted on. *)
Definition worker_reached (i : nat) (sys : system) : Prop :=
  exists pool epoll evfd ops, (0 <= epoll)%Z /\ (0 <= evfd)%Z /\
    sys = WorkerLoop.run reg (S i) (WorkerLoop.started pool (S i) epoll evfd) ops.

Record server_ok (s : RpcServer) : Prop := {
  so_count : 0 < worker_count_ s;
  so_idle : running_ s = false -> idle_clean s;
  so_point : point_ok s;
  so_stoppers : forall j code, stoppers s !! j = Some (StClean code) ->
    running_ s = false /\ Forall tidy code;
  so_handed : handed s = map (fun k => k mod worker_count_ s) (seq 0 (length (handed s)));
  so_workers : forall i sys, workers_ s !! i = Some sys -> worker_reached i sys;
}.

(** The rest of the state. *)
Definition frame (s : RpcServer) :=
  (worker_count_ s, running_ s, at_ s, stoppers s, handed s, next_worker_ s).

Lemma worker_reached_step i sys o : worker_reached i sys -> worker_reached i (WorkerLoop.step reg (S i) sys o).
Proof.
  intros (pool & epoll & evfd & ops & H1 & H2 & ->). exists pool, epoll, evfd, (ops ++ [o]).
  split; [done|]. split; [done|]. unfold WorkerLoop.run. by rewrite fold_left_app.
Qed.

Definition all_reached (s : RpcServer) : Prop :=
  forall i sys, workers_ s !! i = Some sys -> worker_reached i sys.

Lemma alter_reached i o (l : list system) :
  (forall j sys, l !! j = Some sys -> worker_reached j sys) ->
  forall j sys, alter (fun sys => WorkerLoop.step reg (S i) sys o) i l !! j = Some sys ->
  worker_reached j sys.
Proof.
  intros Hl j sys Hj. rewrite list_lookup_alter in Hj. case_decide; [subst j|by apply Hl].
  destruct (l !! i) as [sys0|] eqn:E; [|done].
  injection Hj as <-. apply worker_reached_step. by apply Hl.
Qed.

Lemma list_alter_lookup {A} (f : A -> A) i (l : list A) x :
  l !! i = Some x -> alter f i l = <[i := f x]> l.
Proof.
  intros Hi. apply list_eq. intros j. rewrite list_lookup_alter.
  case_decide as Hd; [subst j|by rewrite list_lookup_insert_ne].
  rewrite Hi, list_lookup_insert_eq by (by eapply lookup_lt_Some). done.
Qed.

Lemma RequestStop_stop w : WorkerLoop.stop_requested_ (RequestStop w) = true.
Proof. unfold RequestStop, Wakeup. by split_match. Qed.

(** What an instruction of a clean-up does to the state. *)
Record gives_back (i : instr) (s s' : RpcServer) : Prop := {
  gb_frame : frame s' = frame s;
  gb_idle : idle_clean s -> idle_clean s';
  gb_reached : all_reached s -> all_reached s';
  gb_covers : forall code, covers (i :: code) s -> covers code s';
}.

(** An instruction that leaves the resources alone. *)
Lemma gives_back_same i s s' :
  match i with
  | ICloseAcceptor | IPoolFree | IClearWorkers | IPoolStopRequest | IRequestStop _ => false
  | _ => true
  end = true ->
  frame s' = frame s -> listen_fd_ s' = listen_fd_ s -> accept_epoll_fd_ s' = accept_epoll_fd_ s ->
  workers_ s' = workers_ s ->
  (ThreadPool.stop_requested_ <$> business_thread_pool_ s') =
  (ThreadPool.stop_requested_ <$> business_thread_pool_ s) ->
  gives_back i s s'.
Proof.
  intros Hi Hf E1 E2 E3 E4. split; [done|..].
  - intros [I1 I2 I3 I4]. rewrite <- E1, <- E2, <- E3 in *. split; try done.
    rewrite I3 in E4. by destruct (business_thread_pool_ s').
  - unfold all_reached. by rewrite E3.
  - intros code [C1 C2 C3 C4 C5]. setoid_rewrite elem_of_cons in C1. setoid_rewrite elem_of_cons in C2.
    setoid_rewrite elem_of_cons in C3. setoid_rewrite elem_of_cons in C4. setoid_rewrite elem_of_cons in C5.
    split; rewrite ?E1, ?E2, ?E3.
    + intros Hv. destruct (C1 Hv); [by subst|done].
    + intros [p Hp]. rewrite Hp in E4. destruct (business_thread_pool_ s); [|done].
      destruct C2; [done|by subst|done].
    + intros Hw. destruct (C3 Hw); [by subst|done].
    + intros p Hp. rewrite Hp in E4. destruct (business_thread_pool_ s) as [p'|]; [|done].
      injection E4 as ->. destruct (C4 p' eq_refl) as [?|[?|?]]; [by left|by subst|by right].
    + intros j sys Hj. destruct (C5 j sys Hj) as [?|[?|?]]; [by left|by subst|by right].
Qed.

Ltac covers_tail :=
  repeat match goal with
    | H : ?i ∈ ?j :: _ |- _ => apply elem_of_cons in H as [H|H]; [discriminate H|]
    | H : _ \/ ?i ∈ ?j :: _ |- _ => destruct H as [H|H]; [by left|]
    end; auto.

(** Asking the pool to stop. *)
Lemma exec_pool_stop_back env s s' :
  exec env IPoolStopRequest s = Next s' -> gives_back IPoolStopRequest s s'.
Proof.
  intros E. injection E as <-. split; [done|..].
  - intros [I1 I2 I3 I4]. split; try done. server_simpl. by rewrite I3.
  - done.
  - intros code [C1 C2 C3 C4 C5]. split; server_simpl; intros.
    + specialize (C1 H1). covers_tail.
    + rewrite fmap_is_Some in H1. specialize (C2 H1). covers_tail.
    + specialize (C3 H1). covers_tail.
    + destruct (business_thread_pool_ s); [|done]. injection H1 as <-. by left.
    + specialize (C5 i sys H1). covers_tail.
Qed.

(** Asking a worker to stop. *)
Lemma exec_request_stop_back env i s s' :
  exec env (IRequestStop i) s = Next s' -> gives_back (IRequestStop i) s s'.
Proof.
  intros E. injection E as <-. split; [done|..].
  - intros [I1 I2 I3 I4]. split; try done. server_simpl. by rewrite I4.
  - intros Ha j sys. server_simpl. by apply (alter_reached i OpRequestStop).
  - intros code [C1 C2 C3 C4 C5]. split; server_simpl; intros.
    + specialize (C1 H1). covers_tail.
    + specialize (C2 H1). covers_tail.
    + assert (workers_ s <> []) as Hw by (intros Ew; by rewrite Ew in H1).
      specialize (C3 Hw). covers_tail.
    + specialize (C4 p H1). covers_tail.
    + rewrite list_lookup_alter in H1. case_decide as Hd.
      * subst i0. destruct (workers_ s !! i) as [sys0|]; [|done]. injection H1 as <-.
        left. apply RequestStop_stop.
      * destruct (C5 i0 sys H1) as [?|Hin]; [by left|right].
        apply elem_of_cons in Hin as [Hin|?]; [congruence|done].
Qed.

Lemma exec_tidy env i s s' : tidy i -> exec env i s = Next s' -> gives_back i s s'.
Proof.
  intros Ht E. destruct i; try done; cbn [exec] in E.
  1-2: injection E as <-; by apply gives_back_same.
  - injection E as <-. split; [done|..].
    + intros [I1 I2 I3 I4]. by split.
    + by intros _ i sys.
    + intros code [C1 C2 C3 C4 C5]. split; server_simpl; try done; intros.
      * specialize (C1 H1). covers_tail.
      * specialize (C2 H1). covers_tail.
      * specialize (C4 p H1). covers_tail.
  - injection E as <-. split; [done|..].
    + intros [I1 I2 I3 I4]. by split.
    + done.
    + intros code [C1 C2 C3 C4 C5]. split; server_simpl; try done; intros.
      * by destruct H1.
      * specialize (C2 H1). covers_tail.
      * specialize (C3 H1). covers_tail.
      * specialize (C4 p H1). covers_tail.
      * specialize (C5 i sys H1). covers_tail.
  - injection E as <-. apply gives_back_same; try done. server_simpl.
    by destruct (business_thread_pool_ s).
  - by apply (exec_pool_stop_back env).
  - destruct (business_thread_pool_ s) as [p|] eqn:Ep; [|by simplify_eq; apply gives_back_same].
    unfold ThreadPool.Join in E. destruct (forallb _ _); [|done]. injection E as <-.
    apply gives_back_same; try done. server_simpl. by rewrite Ep.
  - injection E as <-. split; [done|..].
    + intros [I1 I2 I3 I4]. by split.
    + done.
    + intros code [C1 C2 C3 C4 C5]. split; server_simpl; try done; intros.
      * specialize (C1 H1). covers_tail.
      * specialize (C3 H1). covers_tail.
      * specialize (C5 i sys H1). covers_tail.
  - by apply (exec_request_stop_back env).
  - destruct (workers_ s !! i) as [sys|]; [destruct (ended sys); [|done]|];
      injection E as <-; by apply gives_back_same.
Qed.

(** The clean-up never fails, and it only waits for threads. *)
Lemma exec_tidy_cases env i s :
  tidy i ->
  (exists s', exec env i s = Next s') \/
  (exec env i s = Blocked /\
   ((i = IPoolJoin /\ exists p, business_thread_pool_ s = Some p /\ ThreadPool.Join p = None) \/
    exists j sys, i = IJoinWorker j /\ workers_ s !! j = Some sys /\ ended sys = false)).
Proof.
  intros Ht. destruct i; try done; cbn [exec]; eauto.
  - destruct (business_thread_pool_ s) as [p|]; [|by eauto].
    destruct (ThreadPool.Join p) eqn:Ej; [by eauto|]. right. split; [done|]. left. by eauto.
  - destruct (workers_ s !! i) as [sys|] eqn:Ew; [|by eauto].
    destruct (ended sys) eqn:Ee; [by eauto|]. right. split; [done|]. right. by eauto.
Qed.

(** ** The code of [Start] *)

Lemma StopWorkers_tidy n : Forall tidy (StopWorkers n).
Proof.
  unfold StopWorkers. rewrite !Forall_app, !Forall_map. repeat split; try (by apply Forall_true).
  by repeat constructor.
Qed.

Lemma request_in i n : i < n -> IRequestStop i ∈ StopWorkers n.
Proof.
  intros Hi. unfold StopWorkers. rewrite elem_of_app. left. apply list_elem_of_fmap.
  exists i. split; [done|]. apply elem_of_seq. lia.
Qed.

Lemma ordered_app l1 l2 :
  (forall i, i ∈ l1 -> match i with IJoinWorker _ | IPoolJoin => False | _ => True end) ->
  ordered l2 -> ordered (l1 ++ l2).
Proof.
  induction l1 as [|i l1 IH]; intros Hl H2; [done|]. cbn [app ordered]. split.
  - specialize (Hl i (list_elem_of_here _ _)). by destruct i.
  - apply IH; [|done]. intros j Hj. apply Hl. by apply list_elem_of_further.
Qed.

(** Waits for workers, then something that requests no stop. *)
Lemma ordered_joins js rest :
  (forall j, IRequestStop j ∉ rest) -> ordered rest -> ordered (map IJoinWorker js ++ rest).
Proof.
  intros Hr Ho. induction js as [|j js IH]; [done|]. cbn [map app ordered]. split; [|done].
  intros i Hi. apply elem_of_app in Hi as [Hi|Hi]; [|by apply (Hr i)].
  apply list_elem_of_fmap in Hi as (k & Hk & _). discriminate.
Qed.

Lemma ordered_StopWorkers n rest :
  (forall j, IRequestStop j ∉ rest) -> ordered rest -> ordered (StopWorkers n ++ rest).
Proof.
  intros Hr Ho. unfold StopWorkers. rewrite <- !app_assoc. apply ordered_app.
  { intros i Hi. by apply list_elem_of_fmap in Hi as (k & -> & _). }
  apply ordered_joins; [|done].
  intros j Hj. cbn [app] in Hj. apply elem_of_cons in Hj as [Hj|Hj]; [done|]. by apply (Hr j).
Qed.

Lemma pool_request_notin n rest :
  IPoolStopRequest ∉ rest -> IPoolStopRequest ∉ IPoolFree :: StopWorkers n ++ rest.
Proof.
  intros Hr Hi. apply elem_of_cons in Hi as [Hi|Hi]; [done|].
  apply elem_of_app in Hi as [Hi|Hi]; [|by apply Hr]. unfold StopWorkers in Hi.
  rewrite !elem_of_app in Hi. destruct Hi as [Hi|[Hi|Hi]].
  - by apply list_elem_of_fmap in Hi as (k & ? & _).
  - by apply list_elem_of_fmap in Hi as (k & ? & _).
  - by apply list_elem_of_singleton in Hi.
Qed.

Lemma ordered_stop_all n rest :
  (forall j, IRequestStop j ∉ rest) -> IPoolStopRequest ∉ rest -> ordered rest ->
  ordered (StopBusinessThreadPool ++ StopWorkers n ++ rest).
Proof.
  intros H1 H2 H3. cbn [StopBusinessThreadPool app ordered].
  repeat split; [by apply pool_request_notin|by apply ordered_StopWorkers].
Qed.

(** Code that ends a [Start] from a state with resources. *)
Definition finishes (code : list instr) (s : RpcServer) : Prop :=
  exists code' r, code = code' ++ [INotRunning r] /\ Forall tidy code' /\ ordered code' /\ covers code' s.

Ltac tidy_tac :=
  rewrite ?Forall_app; repeat split; try apply StopWorkers_tidy;
  repeat (apply Forall_cons_2; [done|]); apply Forall_nil_2.

Ltac notin_tac :=
  intros; rewrite ?not_elem_of_cons; repeat split; first [discriminate|apply not_elem_of_nil].

Lemma covers_all l1 l2 s :
  ICloseAcceptor ∈ l1 ++ StopBusinessThreadPool ++ StopWorkers (length (workers_ s)) ++ l2 ->
  covers (l1 ++ StopBusinessThreadPool ++ StopWorkers (length (workers_ s)) ++ l2) s.
Proof.
  intros Hc. split; intros.
  - done.
  - apply elem_of_app. right. apply elem_of_app. left. cbn. set_solver.
  - apply elem_of_app. right. apply elem_of_app. right. apply elem_of_app. left.
    unfold StopWorkers. set_solver.
  - right. apply elem_of_app. right. apply elem_of_app. left. cbn. set_solver.
  - right. apply elem_of_app. right. apply elem_of_app. right. apply elem_of_app. left.
    apply request_in. by eapply lookup_lt_Some.
Qed.

Lemma tear_down_finishes s fatal : finishes (tear_down (length (workers_ s)) fatal) s.
Proof.
  exists ([IStoreAccepting false; IStoreStop true; ICloseAcceptor] ++ StopBusinessThreadPool ++
          StopWorkers (length (workers_ s)) ++ []), (negb fatal). split; [|split; [|split]].
  - unfold tear_down. by rewrite app_nil_r, <- !app_assoc.
  - tidy_tac.
  - apply ordered_app; [set_solver|]. apply ordered_stop_all; [notin_tac..|done].
  - apply covers_all. set_solver.
Qed.

Lemma on_failure_workers s i : finishes (on_failure (IStartWorker i) (length (workers_ s))) s.
Proof.
  exists ([] ++ StopBusinessThreadPool ++ StopWorkers (length (workers_ s)) ++ [ICloseAcceptor]), false.
  split; [|split; [|split]].
  - unfold on_failure. by rewrite <- !app_assoc.
  - tidy_tac.
  - apply ordered_app; [set_solver|]. apply ordered_stop_all; [notin_tac..|done].
  - apply covers_all. rewrite !elem_of_app, list_elem_of_singleton. auto.
Qed.

Lemma on_failure_early s :
  business_thread_pool_ s = None -> workers_ s = [] -> finishes [ICloseAcceptor; INotRunning false] s.
Proof.
  intros Hp Hw. exists [ICloseAcceptor], false. split; [done|]. split; [by repeat constructor|].
  split; [done|]. split; rewrite ?Hp, ?Hw; try done. intros _. set_solver.
Qed.

(** The clean-up of [Stop]. *)
Lemma clean_up_tidy n : Forall tidy (clean_up n).
Proof. unfold clean_up. tidy_tac. Qed.

(** ** Setting up *)

Lemma InitAcceptor_spec env s e ok s' e' :
  InitAcceptor env s e = (ok, s', e') ->
  frame s' = frame s /\ business_thread_pool_ s' = business_thread_pool_ s /\ workers_ s' = workers_ s /\
  (ok = true -> UniqueFd.Valid (listen_fd_ s') = true /\ UniqueFd.Valid (accept_epoll_fd_ s') = true).
Proof.
  unfold InitAcceptor, replace_fd, UniqueFd.Reset. cbv zeta. server_simpl.
  repeat split_match; intros E; simplify_eq; repeat split; try done.
  all: by apply negb_false_iff.
Qed.

Lemma StartPool_spec fail s e ok s' e' :
  StartBusinessThreadPool fail s e = (ok, s', e') ->
  exists p, s' = set_pool p s /\ (ok = false -> p = None).
Proof.
  unfold StartBusinessThreadPool. intros E.
  destruct (_ =? 0); [simplify_eq; by exists None|].
  destruct (ThreadPool.Start _ _ _) as [[[] e1] p]; cbn [negb] in E; simplify_eq.
  - by exists (Some p).
  - by exists None.
Qed.

(** A worker after a successful [Init], and after [Start]. *)
Definition initialised (tid : nat) (epoll evfd : Z) (w : WorkerLoop) : WorkerLoop :=
  let w := set_wake_count 0 (set_wake_fd (UniqueFd.make evfd) (set_epoll_fd (UniqueFd.make epoll) w)) in
  WorkerLoop.set_accepting_new_connections true
    (WorkerLoop.set_stop_requested false
       (set_completed_queue
          (Some {| responses := []; accepting := true; cq_wake_fd := UniqueFd.fd_ (wake_fd_ w) |})
          (set_owner_thread_id (Some tid) w))).

Lemma is_open_make fd : is_open (UniqueFd.make fd) = (0 <=? fd)%Z.
Proof. done. Qed.

Lemma Init_cases w tid epoll evfd ctl er e :
  (0 <= epoll /\ 0 <= evfd)%Z /\ ctl = None /\
    Init w tid epoll evfd ctl er e = (true, initialised tid epoll evfd w, e) \/
  fst (fst (Init w tid epoll evfd ctl er e)) = false.
Proof.
  unfold Init. cbv zeta.
  change (is_open (epoll_fd_ (set_epoll_fd ?u w))) with (is_open u). rewrite is_open_make.
  destruct (0 <=? epoll)%Z eqn:E1; [|by right]. cbn [negb].
  change (is_open (wake_fd_ (set_wake_count 0 (set_wake_fd ?u ?x)))) with (is_open u).
  rewrite is_open_make. destruct (0 <=? evfd)%Z eqn:E2; [|by right]. cbn [negb].
  destruct ctl; [by right|]. left. split; [lia|]. done.
Qed.

(** What [Start] stores again is there already. *)
Lemma initialised_stable tid epoll evfd w :
  let w1 := WorkerLoop.set_accepting_new_connections true
              (WorkerLoop.set_stop_requested false (initialised tid epoll evfd w)) in
  set_completed_queue
    (match completed_queue_ w1 with
     | Some q => Some {| responses := responses q; accepting := true;
                         cq_wake_fd := UniqueFd.fd_ (wake_fd_ w1) |}
     | None => None
     end) w1 = initialised tid epoll evfd w.
Proof. destruct w. vm_compute. reflexivity. Qed.

Lemma Start_initialised tid epoll evfd w e :
  (0 <= epoll)%Z -> (0 <= evfd)%Z -> thread_started w = false ->
  Start (initialised tid epoll evfd w) e =
    (true, set_thread_started true (initialised tid epoll evfd w), e).
Proof.
  intros H1 H2 H3. unfold Start. cbv zeta. rewrite initialised_stable.
  assert (is_open (epoll_fd_ (initialised tid epoll evfd w)) = true) as -> by (by apply Z.leb_le).
  assert (is_open (wake_fd_ (initialised tid epoll evfd w)) = true) as -> by (by apply Z.leb_le).
  assert (thread_started (initialised tid epoll evfd w) = false) as -> by exact H3. done.
Qed.

Lemma started_initialised pool tid epoll evfd :
  (0 <= epoll)%Z -> (0 <= evfd)%Z ->
  WorkerLoop.started pool tid epoll evfd =
  {| worker := set_thread_started true (initialised tid epoll evfd (make_worker pool));
     point := AtWait; wakers := 0 |}.
Proof.
  intros H1 H2. unfold WorkerLoop.started.
  destruct (Init_cases (make_worker pool) tid epoll evfd None EINTR (Some "")) as [(_ & _ & ->)|Hf].
  - cbn [fst snd]. rewrite Start_initialised by done. done.
  - exfalso. revert Hf. unfold Init. cbv zeta.
    change (is_open (epoll_fd_ (set_epoll_fd ?u ?w))) with (is_open u). rewrite is_open_make.
    rewrite (proj2 (Z.leb_le _ _)) by done. cbn [negb].
    change (is_open (wake_fd_ (set_wake_count 0 (set_wake_fd ?u ?x)))) with (is_open u).
    rewrite is_open_make, (proj2 (Z.leb_le _ _)) by done. done.
Qed.

Lemma start_worker_spec i env s e ok s' e' :
  start_worker i env s e = (ok, s', e') ->
  if ok then exists pool epoll evfd, (0 <= epoll)%Z /\ (0 <= evfd)%Z /\
    s' = set_workers (workers_ s ++ [WorkerLoop.started pool (S i) epoll evfd]) s
  else exists c, s' = add_closes c s.
Proof.
  unfold start_worker. destruct env as [[[epoll evfd] ctl] er].
  set (hp := match business_thread_pool_ s with Some _ => true | None => false end). clearbody hp.
  destruct (Init_cases (make_worker hp) 0 epoll evfd ctl er e) as [((H1 & H2) & -> & ->)|Hf].
  - rewrite Start_initialised by done. intros E. injection E as <- <- <-.
    exists hp, epoll, evfd. split; [done|]. split; [done|]. by rewrite started_initialised by done.
  - destruct (Init _ _ _ _ _ _ _) as [[[] w] e1]; [done|]. intros E. injection E as <- <- <-. by eauto.
Qed.

(** ** Steps of the server *)

Lemma start_up_cons n k i code :
  drop k (start_up n) = i :: code -> start_up n !! k = Some i /\ code = drop (S k) (start_up n).
Proof.
  intros E. split.
  - rewrite <- (Nat.add_0_r k), <- lookup_drop, E. done.
  - rewrite <- Nat.add_1_r, <- drop_drop, E. done.
Qed.

Lemma start_up_length n : length (start_up n) = 6 + n.
Proof. unfold start_up. by rewrite length_app, length_map, length_seq. Qed.

Lemma start_up_worker n k i : 6 <= k -> start_up n !! k = Some i -> i = IStartWorker (k - 6).
Proof.
  intros Hk E. unfold start_up in E. rewrite lookup_app_r in E by (cbn; lia).
  apply list_lookup_fmap_Some in E as (x & -> & E). apply lookup_seq in E as [-> _]. done.
Qed.

Lemma covers_nil s : covers [] s -> idle_clean s.
Proof.
  intros [C1 C2 C3 _ _]. split.
  - apply not_true_iff_false. intros E. destruct (not_elem_of_nil ICloseAcceptor). by auto.
  - apply not_true_iff_false. intros E. destruct (not_elem_of_nil ICloseAcceptor). by auto.
  - destruct (business_thread_pool_ s); [|done]. destruct (not_elem_of_nil IPoolFree). by eauto.
  - destruct (workers_ s); [done|]. destruct (not_elem_of_nil IClearWorkers). by eauto.
Qed.

Lemma covers_fields code s s' :
  (listen_fd_ s', accept_epoll_fd_ s', business_thread_pool_ s', workers_ s') =
  (listen_fd_ s, accept_epoll_fd_ s, business_thread_pool_ s, workers_ s) ->
  covers code s -> covers code s'.
Proof. intros E [C1 C2 C3 C4 C5]. injection E as E1 E2 E3 E4. split; by rewrite ?E1, ?E2, ?E3, ?E4. Qed.

(** The server after a step that keeps [frame]. *)
Lemma server_moved p s s' :
  server_ok s -> frame s' = frame s -> all_reached s' -> (idle_clean s -> idle_clean s') ->
  point_ok (set_at p s') -> server_ok (set_at p s').
Proof.
  unfold frame. intros [S1 S2 S3 S4 S5 S6] E Hr Hi Hp. injection E as E1 E2 E3 E4 E5 E6.
  split; server_simpl; rewrite ?E1, ?E2, ?E4, ?E5; try done.
  intros Hn. destruct (Hi (S2 Hn)). by split.
Qed.

Lemma server_at p s : server_ok s -> point_ok (set_at p s) -> server_ok (set_at p s).
Proof. intros Hs Hp. apply (server_moved p s); try done. exact (so_workers _ Hs). Qed.

(** One instruction of [start_up]. *)
Lemma start_up_step env k i s s' :
  server_ok s -> running_ s = true -> start_up (worker_count_ s) !! k = Some i -> setting_up k s ->
  exec env i s = Next s' ->
  setting_up (S k) s' /\ all_reached s' /\ worker_count_ s' = worker_count_ s /\
  running_ s' = running_ s /\ stoppers s' = stoppers s /\ (handed s' = handed s \/ handed s' = []).
Proof.
  intros Hs Hrun Ei Hu E. pose proof (so_workers _ Hs) as Hr. destruct Hu as [U1 U2 U3 U4 U5].
  destruct (decide (6 <= k)) as [Hk|Hk].
  { rewrite (start_up_worker _ _ _ Hk Ei) in E. cbn [exec] in E.
    destruct (start_worker _ _ _ _) as [[[] s1] e] eqn:Ew; [|done]. injection E as <-.
    apply start_worker_spec in Ew as (pool & epoll & evfd & H1 & H2 & ->). server_simpl. split; [|split].
    - split; server_simpl; try lia.
      + intros _. apply U2. lia.
      + rewrite length_app, U4. cbn. lia.
      + intros _. apply U5. lia.
    - intros j sys' Hj. server_simpl. apply lookup_app_Some in Hj as [Hj|[Hl Hj]]; [by apply Hr|].
      apply list_lookup_singleton_Some in Hj as [Hj <-].
      assert (j = k - 6) as -> by (rewrite <- U4 in *; lia). by exists pool, epoll, evfd, [].
    - repeat split; auto. }
  assert (length (workers_ s) = 0) as Hw0 by lia. apply nil_length_inv in Hw0.
  destruct k as [|[|[|[|[|[|]]]]]]; [..|lia]; cbn in Ei; injection Ei as <-; cbn [exec] in E.
  - injection E as <-. destruct U1; [lia|]. split; [|by repeat split; auto]. split; server_simpl; try lia; by try split.
  - injection E as <-. destruct U1; [lia|]. split; [|by repeat split; auto]. split; server_simpl; try lia; by try split.
  - injection E as <-. destruct U1; [lia|]. split; [|by repeat split; auto]. split; server_simpl; try lia; by try split.
  - destruct (InitAcceptor _ _ _) as [[[] s1] e] eqn:Ea; [|done]. injection E as <-.
    destruct (InitAcceptor_spec _ _ _ _ _ _ Ea) as (Hf & Hp & Hw & Hv). unfold frame in Hf.
    injection Hf as F1 F2 F3 F4 F5 F6. split.
    + split; rewrite ?Hp, ?Hw, ?F5, ?F6; try lia; auto.
    + split; [unfold all_reached; by rewrite Hw|]. repeat split; auto.
  - destruct (StartBusinessThreadPool _ _ _) as [[[] s1] e] eqn:Ea; [|done]. injection E as <-.
    destruct (StartPool_spec _ _ _ _ _ _ Ea) as (p & -> & _). split; [|by repeat split; auto].
    split; server_simpl; try lia; auto.
  - injection E as <-. split; [|by repeat split; auto]. split; server_simpl; try lia; try done; auto.
Qed.

(** An instruction of [start_up] that fails. *)
Lemma start_up_fails env k i s s' :
  start_up (worker_count_ s) !! k = Some i -> setting_up k s -> all_reached s ->
  exec env i s = Failed s' ->
  frame s' = frame s /\ all_reached s' /\ finishes (on_failure i (length (workers_ s'))) s'.
Proof.
  intros Ei [U1 U2 U3 U4 U5] Hr E. destruct (decide (6 <= k)) as [Hk|Hk].
  { rewrite (start_up_worker _ _ _ Hk Ei) in *. cbn [exec] in E.
    destruct (start_worker _ _ _ _) as [[[] s1] e] eqn:Ew; [done|]. injection E as <-.
    apply start_worker_spec in Ew as (c & ->). split; [done|]. split; [exact Hr|].
    apply on_failure_workers. }
  assert (length (workers_ s) = 0) as Hw0 by lia. apply nil_length_inv in Hw0.
  destruct k as [|[|[|[|[|[|]]]]]]; [..|lia]; cbn in Ei; injection Ei as <-; cbn [exec] in E; try done.
  - destruct (InitAcceptor _ _ _) as [[[] s1] e] eqn:Ea; [done|]. injection E as <-.
    destruct (InitAcceptor_spec _ _ _ _ _ _ Ea) as (Hf & Hp & Hw & _). split; [done|].
    split; [unfold all_reached; by rewrite Hw|].
    apply on_failure_early; [rewrite Hp; apply U3; lia|by rewrite Hw].
  - destruct (StartBusinessThreadPool _ _ _) as [[[] s1] e] eqn:Ea; [done|]. injection E as <-.
    destruct (StartPool_spec _ _ _ _ _ _ Ea) as (p & -> & Hp). rewrite Hp by done.
    split; [done|]. split; [exact Hr|]. by apply on_failure_early.
Qed.

(** Handing a connection over while serving. *)
Lemma hand_over_spec fd peer s :
  0 < worker_count_ s -> serving s ->
  let i := length (handed s) mod worker_count_ s in
  exists sys, workers_ s !! i = Some sys /\
    let ok := fst (fst (EnqueueConnection (worker sys) fd peer (Some ""))) in
    hand_over fd peer s =
    (if ok then fun s => s else add_closes [fd])
      (set_handed (handed s ++ [i])
         (set_workers (alter (fun sys => WorkerLoop.step reg (S i) sys (OpEnqueue fd peer)) i (workers_ s))
            (set_next ((i + 1) mod worker_count_ s) s))).
Proof.
  intros Hc [V1 V2 V3 V4] i. unfold hand_over, SelectWorker. rewrite V4. fold i.
  destruct (lookup_lt_is_Some_2 (workers_ s) i) as [sys Hi].
  { rewrite V3. apply Nat.mod_upper_bound. lia. }
  exists sys. split; [done|]. rewrite Hi. cbv zeta. server_simpl. rewrite Hi, V3.
  destruct (EnqueueConnection (worker sys) fd peer (Some "")) as [[ok w] e] eqn:Ee. cbn [fst snd]. unfold on_worker.
  change (workers_ (set_next ?v s)) with (workers_ s).
  assert (alter (fun sys0 => {| worker := w; point := point sys0; wakers := wakers sys0 |}) i (workers_ s) =
    alter (fun sys => WorkerLoop.step reg (S i) sys (OpEnqueue fd peer)) i (workers_ s)) as ->.
  { apply list_alter_ext; [|done]. intros x Hx. assert (x = sys) as -> by congruence.
    cbn [WorkerLoop.step]. by rewrite Ee. }
  by destruct ok.
Qed.

Lemma hand_over_ok fd peer evs s :
  server_ok s -> serving s -> running_ s = true -> server_ok (set_at (SpAccept evs) (hand_over fd peer s)).
Proof.
  intros [S1 S2 S3 S4 S5 S6] Hv Hrun.
  destruct (hand_over_spec fd peer s S1 Hv) as (sys & Hi & ->). destruct Hv as [V1 V2 V3 V4].
  set (n := worker_count_ s) in *. set (i := length (handed s) mod n) in *.
  assert ((i + 1) mod n = (length (handed s) + 1) mod n) as En
    by (unfold i; by rewrite Nat.Div0.add_mod_idemp_l).
  destruct (fst (fst _)); (split; server_simpl; fold n;
    [done|by rewrite Hrun| |by intros j code Hj; destruct (S4 j code Hj); congruence| |
     by apply alter_reached]).
  1, 3: split; [done|]; split; server_simpl; fold n; rewrite ?length_alter, ?length_app; done.
  all: rewrite S5 at 1; rewrite length_app, seq_app, map_app; done.
Qed.

(** While [Start] runs, no [Stop] holds the mutex. *)
Lemma lock_free_running s : server_ok s -> running_ s = true -> lock_free s = true.
Proof.
  intros Hs Hr. unfold lock_free. apply forallb_forall. intros st Hst.
  apply list_elem_of_In, list_elem_of_lookup in Hst as [j Hj]. destruct st; try done.
  destruct (so_stoppers _ Hs j code Hj). congruence.
Qed.

Lemma finishes_point code s :
  running_ s = true -> finishes code s -> point_ok (set_at (SpRun code false) s).
Proof.
  intros Hr (code' & r & E & H1 & H2 & H3). right. exists code', r. repeat split; try done; apply H3.
Qed.

(** One instruction on the way into the loop. *)
Lemma run_up_ok env i code s s' :
  server_ok s -> at_ s = SpRun (i :: code) true -> start_step env s = Some s' -> server_ok s'.
Proof.
  intros Hs Ea E. pose proof (so_point _ Hs) as Hp. unfold point_ok in Hp. rewrite Ea in Hp.
  destruct Hp as (Hrun & k & Hk & Ec & Hu). destruct (start_up_cons _ _ _ _ (eq_sym Ec)) as [Ei ->].
  unfold start_step in E. rewrite Ea in E. destruct (exec env i s) as [|s1|s1] eqn:Ex; [done|..];
    injection E as <-.
  - destruct (start_up_step _ _ _ _ _ Hs Hrun Ei Hu Ex) as (Hu' & Hr & E1 & E2 & E3 & E4).
    destruct Hs as [S1 S2 S3 S4 S5 S6]. split; server_simpl; rewrite ?E1, ?E2, ?E3; try done.
    + congruence.
    + split; [server_simpl; by rewrite E2|]. exists (S k). server_simpl. rewrite E1. split; [|split; [done|]].
      * apply lookup_lt_Some in Ei. rewrite start_up_length in Ei. lia.
      * destruct Hu' as [V1 V2 V3 V4 V5]. split; try done. intros Hk3. destruct (V1 Hk3). by split.
    + by destruct E4 as [->| ->].
  - destruct (start_up_fails _ _ _ _ _ Ei Hu (so_workers _ Hs) Ex) as (Hf & Hr & Hfin).
    assert (running_ s1 = true) as Hr1 by (unfold frame in Hf; congruence).
    assert (forall p, point_ok (set_at p s1) -> server_ok (set_at p s1)) as Hgo.
    { intros p Hp. unfold frame in Hf. injection Hf as F1 F2 F3 F4 F5 F6.
      destruct Hs as [S1 S2 S3 S4 S5 S6].
      split; server_simpl; rewrite ?F1, ?F4, ?F5; try done; [congruence|]. by rewrite F2. }
    apply Hgo. by apply finishes_point.
Qed.

(** One instruction on the way out. *)
Lemma run_down_ok env i code s s' :
  server_ok s -> at_ s = SpRun (i :: code) false -> start_step env s = Some s' -> server_ok s'.
Proof.
  intros Hs Ea E. pose proof (so_point _ Hs) as Hp. unfold point_ok in Hp. rewrite Ea in Hp.
  destruct Hp as [[? _]|(code' & r & Ec & Hrun & Ht & Ho & Hc)]; [done|].
  unfold start_step in E. rewrite Ea in E. destruct code' as [|i' code']; injection Ec as -> ->.
  - cbn [exec] in E. rewrite (lock_free_running s Hs Hrun) in E. injection E as <-.
    pose proof (covers_nil _ Hc) as [I1 I2 I3 I4]. destruct Hs as [S1 S2 S3 S4 S5 S6].
    split; server_simpl; try done.
    + by left.
    + intros j code Hj. destruct (S4 j code Hj). congruence.
  - inversion_clear Ht as [|? ? Ht1 Ht2]. destruct Ho as [Ho1 Ho2].
    destruct (exec_tidy_cases env i' s Ht1) as [[s1 Ex]|[Ex _]]; rewrite Ex in E; [|done].
    injection E as <-. destruct (exec_tidy _ _ _ _ Ht1 Ex) as [G1 G2 G3 G4].
    apply (server_moved _ s); try done; [exact (G3 (so_workers _ Hs))|]. apply finishes_point.
    + unfold frame in G1. congruence.
    + exists code', r. split; [done|]. split; [done|]. split; [done|]. by apply G4.
Qed.

Lemma start_step_ok env s s' : server_ok s -> start_step env s = Some s' -> server_ok s'.
Proof.
  intros Hs E. pose proof (so_point _ Hs) as Hp. pose proof Hp as Hp0. unfold point_ok in Hp.
  destruct (at_ s) as [|code to_loop| | | |evs|evs|evs|evs|evs fd peer] eqn:Ea.
  { unfold start_step in E. by rewrite Ea in E. }
  { destruct code as [|i code].
    - unfold start_step in E. rewrite Ea in E. injection E as <-. apply server_at; [done|].
      destruct to_loop.
      + destruct Hp as (Hrun & k & Hk & Ec & [U1 U2 U3 U4 U5]).
        assert (length (drop k (start_up (worker_count_ s))) = 0) as El by (by rewrite <- Ec).
        rewrite length_drop, start_up_length in El. split; [done|]. split; server_simpl.
        * apply U2. lia.
        * apply U2. lia.
        * lia.
        * destruct U5 as [-> ->]; [lia|]. pose proof (so_count _ Hs). by rewrite Nat.mod_small.
      + destruct Hp as [[_ Hr]|(code' & r & Ec & _)]; [done|]. by destruct code'.
    - destruct to_loop; [by eapply run_up_ok|by eapply run_down_ok]. }
  all: destruct Hp as [Hrun Hv]; unfold start_step in E; rewrite Ea in E.
  all: assert (forall p, match p with SpIdle | SpRun _ _ => False | _ => True end ->
         server_ok (set_at p s)) as Hgo by
         (intros p Hpt; apply server_at; [done|]; destruct p; try done; (split; [done|]; by destruct Hv; split)).
  all: assert (forall b, server_ok (set_at (SpRun (tear_down (length (workers_ s)) b) false) s)) as Hout by
         (intros b; apply server_at; [done|]; apply finishes_point; [done|apply tear_down_finishes]).
  - injection E as <-. destruct (stop_requested_ s); auto.
  - destruct (se_wait env); injection E as <-; [case_decide|]; auto.
  - injection E as <-. auto.
  - injection E as <-. destruct (_ || _); auto.
  - destruct evs; injection E as <-; [|destruct (_ =? _)%Z]; auto.
  - injection E as <-. destruct (accepting_new_connections_ s); auto.
  - destruct (se_accept env) as [e|[[fd ip] port]]; injection E as <-; [case_decide|]; auto.
  - injection E as <-. by apply hand_over_ok.
Qed.

(** ** Steps of the other threads *)

(** What the threads besides that of [Start] do to a running server. *)
Record evolves (s s' : RpcServer) : Prop := {
  ev_frame : (worker_count_ s', running_ s', at_ s', handed s', next_worker_ s',
              listen_fd_ s', accept_epoll_fd_ s') =
             (worker_count_ s, running_ s, at_ s, handed s, next_worker_ s,
              listen_fd_ s, accept_epoll_fd_ s);
  ev_pool : forall p', business_thread_pool_ s' = Some p' ->
    exists p, business_thread_pool_ s = Some p /\
      (ThreadPool.stop_requested_ p = true -> ThreadPool.stop_requested_ p' = true);
  ev_length : length (workers_ s') = length (workers_ s);
  ev_workers : forall i sys', workers_ s' !! i = Some sys' ->
    exists sys, workers_ s !! i = Some sys /\
      (WorkerLoop.stop_requested_ (worker sys) = true ->
       WorkerLoop.stop_requested_ (worker sys') = true);
}.

Lemma evolves_same s s' :
  (worker_count_ s', running_ s', at_ s', handed s', next_worker_ s', listen_fd_ s',
   accept_epoll_fd_ s', business_thread_pool_ s', workers_ s') =
  (worker_count_ s, running_ s, at_ s, handed s, next_worker_ s, listen_fd_ s, accept_epoll_fd_ s,
   business_thread_pool_ s, workers_ s) -> evolves s s'.
Proof.
  intros E. injection E as E1 E2 E3 E4 E5 E6 E7 E8 E9.
  split; rewrite ?E1, ?E2, ?E3, ?E4, ?E5, ?E6, ?E7, ?E8, ?E9; eauto.
Qed.

Lemma evolves_pool s s' : evolves s s' -> business_thread_pool_ s = None -> business_thread_pool_ s' = None.
Proof.
  intros Hev E. destruct (business_thread_pool_ s') as [p|] eqn:Ep; [|done].
  destruct (ev_pool _ _ Hev p Ep) as (p0 & ? & _). congruence.
Qed.

Lemma evolves_nil s s' : evolves s s' -> workers_ s = [] -> workers_ s' = [].
Proof. intros Hev E. pose proof (ev_length _ _ Hev) as El. rewrite E in El. by apply nil_length_inv. Qed.

Lemma evolves_idle s s' : evolves s s' -> idle_clean s -> idle_clean s'.
Proof.
  intros Hev [I1 I2 I3 I4]. pose proof (ev_frame _ _ Hev) as E. injection E as E1 E2 E3 E4 E5 E6 E7.
  split; rewrite ?E6, ?E7; [done|done|by apply (evolves_pool s)|by apply (evolves_nil s)].
Qed.

Lemma evolves_covers code s s' : evolves s s' -> covers code s -> covers code s'.
Proof.
  intros Hev [C1 C2 C3 C4 C5]. pose proof (ev_frame _ _ Hev) as E. injection E as E1 E2 E3 E4 E5 E6 E7.
  split; rewrite ?E6, ?E7; [done|..].
  - intros [p Hp]. apply C2. destruct (ev_pool _ _ Hev p Hp) as (p0 & -> & _). done.
  - intros Hw. apply C3. intros E. apply Hw. by apply (evolves_nil s).
  - intros p Hp. destruct (ev_pool _ _ Hev p Hp) as (p0 & Hp0 & Hm). destruct (C4 p0 Hp0); auto.
  - intros i sys Hi. destruct (ev_workers _ _ Hev i sys Hi) as (sys0 & Hs0 & Hm).
    destruct (C5 i sys0 Hs0); auto.
Qed.

Lemma evolves_point s s' : evolves s s' -> point_ok s -> point_ok s'.
Proof.
  intros Hev Hp. pose proof (ev_frame _ _ Hev) as E. injection E as E1 E2 E3 E4 E5 E6 E7.
  pose proof (ev_length _ _ Hev) as El. unfold point_ok in *. rewrite E1, E2, E3.
  assert (serving s -> serving s') as Hv.
  { intros [V1 V2 V3 V4]. split; rewrite ?E1, ?E4, ?E5, ?E6, ?E7; congruence. }
  destruct (at_ s) as [|code []| | | |evs|evs|evs|evs|evs fd peer]; try done;
    try (destruct Hp; by auto).
  - destruct Hp as (Hrun & k & Hk & Ec & [U1 U2 U3 U4 U5]). split; [done|]. exists k.
    split; [done|]. split; [done|]. split; rewrite ?E4, ?E5, ?E6, ?E7; try done; [..|congruence].
    + intros Hk3. by apply (evolves_idle s), U1.
    + intros Hk4. by apply (evolves_pool s), U3.
  - destruct Hp as [?|(code' & r & Ec & Hrun & H1 & H2 & H3)]; [by left|right].
    exists code', r. repeat (split; [done|]). by apply (evolves_covers _ s).
Qed.

Lemma server_evolves s s' :
  server_ok s -> evolves s s' -> all_reached s' ->
  (forall j code, stoppers s' !! j = Some (StClean code) -> running_ s = false /\ Forall tidy code) ->
  server_ok s'.
Proof.
  intros [S1 S2 S3 S4 S5 S6] Hev Hr Hst. pose proof (ev_frame _ _ Hev) as E.
  injection E as E1 E2 E3 E4 E5 E6 E7. split; rewrite ?E1, ?E2, ?E4; try done.
  - intros Hn. by apply (evolves_idle s), S2.
  - by apply (evolves_point s).
Qed.

(** Without a [Start] running, the point says little. *)
Lemma point_ok_idle s s' :
  running_ s = false -> running_ s' = false -> at_ s' = at_ s -> point_ok s -> point_ok s'.
Proof.
  unfold point_ok. intros H1 H2 E Hp. rewrite E. destruct (at_ s) as [|code []| | | |?|?|?|?|? ? ?];
    rewrite ?H1, ?H2 in *; try done; try (by destruct Hp).
  destruct Hp as [?|(? & ? & ? & ? & _)]; [by left|done].
Qed.

(** A [Stop] moves on without touching resources. *)
Lemma stopper_moved j st s s' :
  server_ok s -> stoppers s' = stoppers s -> evolves s s' -> workers_ s' = workers_ s ->
  (forall code, st = StClean code -> running_ s = false /\ Forall tidy code) ->
  server_ok (set_stoppers (<[j := st]> (stoppers s')) s').
Proof.
  intros Hs Es Hev Hw Hst. apply (server_evolves s); [done|..].
  - by destruct Hev; split.
  - unfold all_reached. server_simpl. rewrite Hw. exact (so_workers _ Hs).
  - server_simpl. intros i code Hi. rewrite Es in Hi. destruct (decide (i = j)) as [->|Hn].
    + destruct (decide (j < length (stoppers s))) as [Hl|Hl].
      * rewrite list_lookup_insert_eq in Hi by done. injection Hi as Hi. by apply Hst.
      * rewrite list_insert_ge in Hi by lia. by apply (so_stoppers _ Hs j).
    + rewrite list_lookup_insert_ne in Hi by done. by apply (so_stoppers _ Hs i).
Qed.

Lemma stop_step_ok env j st st' s s' :
  server_ok s -> stoppers s !! j = Some st -> stop_step env st s = Some (st', s') ->
  server_ok (set_stoppers (<[j := st']> (stoppers s')) s').
Proof.
  intros Hs Hj E. destruct st as [| |code| | | |]; cbn [stop_step] in E; try done.
  - destruct (negb (lock_free s)); [done|]. destruct (running_ s) eqn:Er; injection E as <- <-.
    + by apply (stopper_moved j _ s); [|done|apply evolves_same| |].
    + apply (stopper_moved j _ s); [done|done|by apply evolves_same|done|].
      intros code [= <-]. split; [done|apply clean_up_tidy].
  - destruct (so_stoppers _ Hs j code Hj) as [Hr Ht]. destruct code as [|i code].
    + injection E as <- <-. by apply (stopper_moved j _ s); [|done|apply evolves_same| |].
    + inversion_clear Ht as [|? ? Ht1 Ht2].
      destruct (exec_tidy_cases env i s Ht1) as [[s1 Ex]|[Ex _]]; rewrite Ex in E; [|done].
      injection E as <- <-. destruct (exec_tidy _ _ _ _ Ht1 Ex) as [G1 G2 G3 _].
      unfold frame in G1. injection G1 as F1 F2 F3 F4 F5 F6.
      destruct Hs as [S1 S2 S3 S4 S5 S6]. split; server_simpl; rewrite ?F1, ?F2, ?F4, ?F5; try done.
      * intros _. destruct (G2 (S2 Hr)). by split.
      * apply (point_ok_idle s); server_simpl; congruence.
      * intros k code' Hk. destruct (decide (k = j)) as [->|Hn].
        -- rewrite list_lookup_insert_eq in Hk by (by eapply lookup_lt_Some).
           injection Hk as <-. done.
        -- rewrite list_lookup_insert_ne in Hk by done. by apply (S4 k).
      * exact (G3 S6).
  - injection E as <- <-. by apply (stopper_moved j _ s); [|done|apply evolves_same| |].
  - injection E as <- <-. by apply (stopper_moved j _ s); [|done|apply evolves_same| |].
  - destruct (_ && _); [|done]. injection E as <- <-.
    by apply (stopper_moved j _ s); [|done|apply evolves_same| |].
Qed.

Lemma pool_stop_kept p a :
  ThreadPool.stop_requested_ p = true -> ThreadPool.stop_requested_ (ThreadPool.act p a) = true.
Proof.
  intros Hp. destruct a as [i|t|t x| |]; cbn [ThreadPool.act]; try done.
  - unfold ThreadPool.worker_step. by repeat split_match.
  - unfold submitter_step. by repeat split_match.
  - unfold begin_submit. by repeat split_match.
Qed.

Lemma worker_act_ok i o s : server_ok s -> server_ok (worker_act reg i o s).
Proof.
  intros Hs. unfold worker_act. destruct (workers_ s !! i) as [sys|] eqn:Ei; [|done].
  destruct (own_op _ _); [|done]. cbv zeta. apply (server_evolves s); [done|..].
  - split; server_simpl; [done|by eauto|by rewrite length_insert|].
    intros j sys' Hj. destruct (decide (j = i)) as [->|Hn].
    + rewrite list_lookup_insert_eq in Hj by (by eapply lookup_lt_Some). injection Hj as <-.
      exists sys. split; [done|]. apply step_stop.
    + rewrite list_lookup_insert_ne in Hj by done. by eauto.
  - intros j sys' Hj. server_simpl. destruct (decide (j = i)) as [->|Hn].
    + rewrite list_lookup_insert_eq in Hj by (by eapply lookup_lt_Some). injection Hj as <-.
      apply worker_reached_step. by apply (so_workers _ Hs).
    + rewrite list_lookup_insert_ne in Hj by done. by apply (so_workers _ Hs).
  - exact (so_stoppers _ Hs).
Qed.

Lemma server_act_ok s a : server_ok s -> server_ok (act reg s a).
Proof.
  intros Hs. destruct a as [|env|j|j env|i o|a]; cbn [act].
  - unfold begin_start. destruct (lock_free s) eqn:El; [|done]. cbn [negb].
    destruct (running_ s) eqn:Er; [done|]. pose proof (so_idle _ Hs Er) as [I1 I2 I3 I4].
    destruct Hs as [S1 S2 S3 S4 S5 S6]. split; server_simpl; try done.
    + split; [done|]. exists 0. split; [lia|]. split; [done|].
      split; server_simpl; try lia; [by split|done|by rewrite I4].
    + intros j code Hj. exfalso. unfold lock_free in El. rewrite forallb_forall in El.
      specialize (El (StClean code)). cbv beta iota in El. discriminate El.
      apply list_elem_of_In, list_elem_of_lookup. by eauto.
  - destruct (start_step env s) as [s'|] eqn:E; [|done]. by eapply start_step_ok.
  - destruct (stoppers s !! j) as [st|] eqn:E; [|done].
    destruct st; try done; by apply (stopper_moved j _ s); [|done|apply evolves_same| |].
  - destruct (stoppers s !! j) as [st|] eqn:E; [|done].
    destruct (stop_step env st s) as [[st' s']|] eqn:E'; [|done]. by eapply stop_step_ok.
  - by apply worker_act_ok.
  - destruct (own_action a); [|done]. apply (server_evolves s); [done|..].
    + split; server_simpl; [done| |done|by eauto]. intros p' Hp'.
      destruct (business_thread_pool_ s) as [p|]; [|done]. injection Hp' as <-.
      exists p. split; [done|]. apply pool_stop_kept.
    + exact (so_workers _ Hs).
    + exact (so_stoppers _ Hs).
Qed.

(** *** Where the workers come from *)

Definition from_kernel (o : op) : bool := match o with OpKernel _ _ _ _ _ => true | _ => false end.

(** Worker [j] of the server after a step of a thread of the server: a new one, or the one it
    was, handed a connection or told to stop. *)
Definition succeeds (j : nat) (old : option system) (new : system) : Prop :=
  match old with
  | None => exists pool epoll evfd, (0 <= epoll)%Z /\ (0 <= evfd)%Z /\
      new = WorkerLoop.started pool (S j) epoll evfd
  | Some sys => new = sys \/ exists o, from_kernel o = false /\ new = WorkerLoop.step reg (S j) sys o
  end.

Lemma succeeds_same s s' j sys :
  workers_ s' = workers_ s -> workers_ s' !! j = Some sys -> succeeds j (workers_ s !! j) sys.
Proof. intros -> ->. by left. Qed.

Lemma succeeds_alter i o (l : list system) j sys :
  from_kernel o = false -> alter (fun sys => WorkerLoop.step reg (S i) sys o) i l !! j = Some sys ->
  succeeds j (l !! j) sys.
Proof.
  intros Ho Hj. rewrite list_lookup_alter in Hj. case_decide as Hd.
  - subst j. destruct (l !! i) as [sys0|]; [|done]. injection Hj as <-. right. by exists o.
  - rewrite Hj. by left.
Qed.

Lemma exec_workers env i s s' j sys :
  exec env i s = Next s' \/ exec env i s = Failed s' ->
  (forall n, i = IStartWorker n -> length (workers_ s) = n) ->
  workers_ s' !! j = Some sys -> succeeds j (workers_ s !! j) sys.
Proof.
  intros E Hn. destruct i; cbn [exec] in E.
  4: { destruct (InitAcceptor _ _ _) as [[ok s1] e] eqn:Ea. apply InitAcceptor_spec in Ea as (_ & _ & Hw & _).
       apply succeeds_same. destruct ok; destruct E as [E|E]; by simplify_eq. }
  4: { destruct (StartBusinessThreadPool _ _ _) as [[ok s1] e] eqn:Ea. apply StartPool_spec in Ea.
       apply succeeds_same. destruct Ea as (p & -> & _). destruct ok; destruct E as [E|E]; by simplify_eq. }
  5: { specialize (Hn i eq_refl). destruct (start_worker _ _ _ _) as [[[] s1] e] eqn:Ew;
         apply start_worker_spec in Ew.
       - destruct Ew as (pool & epoll & evfd & He & Hv & ->). destruct E as [E|E]; [|done]. injection E as <-.
         server_simpl. intros [Hj|[Hl Hj]]%lookup_app_Some; [rewrite Hj; by left|].
         apply list_lookup_singleton_Some in Hj as [Hj <-].
         rewrite lookup_ge_None_2 by lia. assert (j = i) as -> by lia. by exists pool, epoll, evfd.
       - destruct Ew as [c ->]. destruct E as [E|E]; [done|]. injection E as <-. by apply succeeds_same. }
  all: try (destruct E as [E|E]; [|done]; injection E as <-; by apply succeeds_same).
  - destruct E as [E|E]; [|done]. injection E as <-. done.
  - destruct (business_thread_pool_ s); [destruct (ThreadPool.Join _)|]; destruct E as [E|E]; try done;
      injection E as <-; by apply succeeds_same.
  - destruct E as [E|E]; [|done]. injection E as <-. server_simpl. by apply (succeeds_alter _ OpRequestStop).
  - destruct (workers_ s !! i) as [sys0|]; [destruct (ended sys0)|]; destruct E as [E|E]; try done;
      injection E as <-; by apply succeeds_same.
  - destruct (lock_free s); destruct E as [E|E]; try done. injection E as <-. by apply succeeds_same.
Qed.

Lemma start_step_workers env s s' j sys :
  server_ok s -> start_step env s = Some s' -> workers_ s' !! j = Some sys ->
  succeeds j (workers_ s !! j) sys.
Proof.
  intros Hs E. pose proof (so_point _ Hs) as Hp. unfold point_ok in Hp. unfold start_step in E.
  destruct (at_ s) as [|[|i code] to_loop| | | |evs|evs|evs|evs|evs fd peer] eqn:Ea; try done.
  { injection E as <-. by apply succeeds_same. }
  { assert (forall n, i = IStartWorker n -> length (workers_ s) = n) as Hn.
    { intros n ->. destruct to_loop.
      - destruct Hp as (_ & k & Hk & Ec & Hu). destruct (start_up_cons _ _ _ _ (eq_sym Ec)) as [Ei _].
        rewrite (su_workers _ _ Hu). destruct (decide (6 <= k)) as [Hk6|Hk6].
        + by injection (start_up_worker _ _ _ Hk6 Ei).
        + by destruct k as [|[|[|[|[|[|]]]]]]; [..|lia].
      - destruct Hp as [[? _]|(code' & r & Ec & _ & Ht & _)]; [done|].
        destruct code' as [|i' code']; [done|]. injection Ec as <- _. by inversion Ht. }
    destruct (exec env i s) as [|s1|s1] eqn:Ex; [done|..]; injection E as <-; server_simpl;
      eapply exec_workers; eauto. }
  8: { destruct Hp as [_ Hv]. injection E as <-.
       destruct (hand_over_spec fd peer s (so_count _ Hs) Hv) as (sys0 & _ & ->).
       destruct (fst (fst _)); server_simpl; by apply (succeeds_alter _ (OpEnqueue fd peer)). }
  all: assert (exists p, s' = set_at p s) as [p ->]; [|by apply succeeds_same].
  - by eexists; injection E as <-.
  - destruct (se_wait env); injection E as <-; by eexists.
  - by eexists; injection E as <-.
  - by eexists; injection E as <-.
  - destruct evs; injection E as <-; by eexists.
  - by eexists; injection E as <-.
  - destruct (se_accept env) as [e|[[fd ip] port]]; injection E as <-; by eexists.
Qed.

(** After any step: the kernel and the threads of worker [j] have acted on it, or a thread of
    the server. *)
Lemma act_workers s a j sys :
  server_ok s -> workers_ (act reg s a) !! j = Some sys ->
  (exists o sys0, a = AWorker j o /\ workers_ s !! j = Some sys0 /\ sys = WorkerLoop.step reg (S j) sys0 o) \/
  succeeds j (workers_ s !! j) sys.
Proof.
  intros Hs Hj. destruct a as [|env|k|k env|i o|a]; cbn [act] in Hj.
  - right. eapply succeeds_same; [|exact Hj]. unfold begin_start. by repeat split_match.
  - right. destruct (start_step env s) as [s'|] eqn:E; [by eapply start_step_workers|]. by apply (succeeds_same s s).
  - right. eapply succeeds_same; [|exact Hj]. by repeat split_match.
  - right. destruct (stoppers s !! k) as [st|] eqn:Ek; [|rewrite Hj; by left].
    destruct (stop_step env st s) as [[st' s']|] eqn:E; [|rewrite Hj; by left].
    cbn [workers_ set_stoppers] in Hj. destruct st as [| |[|i code]| | | |]; cbn [stop_step] in E; try done.
    + repeat split_match_in E; simplify_eq; rewrite Hj; by left.
    + simplify_eq. rewrite Hj. by left.
    + destruct (so_stoppers _ Hs k _ Ek) as [_ Ht]. apply Forall_cons in Ht as [Ht _].
      destruct (exec env i s) as [|s1|s1] eqn:Ex; try done. injection E as <- <-.
      eapply exec_workers; [by left| |exact Hj]. intros n ->. done.
    + simplify_eq. cbn in Hj. rewrite Hj. by left.
    + simplify_eq. cbn in Hj. rewrite Hj. by left.
    + repeat split_match_in E; simplify_eq; rewrite Hj; by left.
  - unfold worker_act in Hj. destruct (workers_ s !! i) as [sys0|] eqn:Ei; [|right; rewrite Hj; by left].
    destruct (own_op _ _); [|right; rewrite Hj; by left]. cbv zeta in Hj. server_simpl.
    destruct (decide (j = i)) as [->|Hn].
    + rewrite list_lookup_insert_eq in Hj by (by eapply lookup_lt_Some). injection Hj as <-. left. by exists o, sys0.
    + rewrite list_lookup_insert_ne in Hj by done. right. rewrite Hj. by left.
  - right. eapply succeeds_same; [|exact Hj]. by repeat split_match.
Qed.

Lemma server_run_ok acts : forall s, server_ok s -> server_ok (run reg s acts).
Proof. induction acts as [|a acts IH]; intros s Hs; [done|]. by apply IH, server_act_ok. Qed.

Lemma make_server_ok port n b k : server_ok (make_server port n b k).
Proof.
  split; cbn; try done.
  - destruct (n =? 0) eqn:E; [lia|]. apply Nat.eqb_neq in E. lia.
  - intros j code Hj. apply lookup_replicate in Hj as [Hj _]. done.
Qed.

(** ** Stopping *)

(** [Start] is on its way out: it has left the loop, or the loop will see the stop. *)
Definition shutting (s : RpcServer) : Prop :=
  match at_ s with
  | SpIdle => False
  | SpRun _ to_loop => to_loop = false
  | _ => stop_requested_ s = true /\ accepting_new_connections_ s = false
  end.

(** How many steps of [Start] are ahead at most, given that it is shutting down. *)
Definition shutdown_rank (s : RpcServer) : nat :=
  let base := 2 * length (workers_ s) in
  match at_ s with
  | SpIdle => 0
  | SpRun code _ => 1 + length code
  | SpLoop | SpWaitFailed => 11 + base
  | SpCheck _ => 12 + base
  | SpWait => 13 + base
  | SpEvents evs => 12 + 2 * length evs + base
  | SpAccept evs => 13 + 2 * length evs + base
  | SpHand evs _ _ => 14 + 2 * length evs + base
  | SpAccept4 evs => 15 + 2 * length evs + base
  end.

Lemma tear_down_length n b : length (tear_down n b) = 9 + 2 * n.
Proof.
  unfold tear_down, StopWorkers. rewrite !length_app, !length_map, !length_seq. cbn. lia.
Qed.

(** The thread [Start] waits for has been told to stop. *)
Definition waits_for_stopped (s : RpcServer) : Prop :=
  (exists p, business_thread_pool_ s = Some p /\ ThreadPool.Join p = None /\
     ThreadPool.stop_requested_ p = true) \/
  exists i sys, workers_ s !! i = Some sys /\ ended sys = false /\
    WorkerLoop.stop_requested_ (worker sys) = true.

Lemma shutdown_step env s :
  server_ok s -> shutting s ->
  (exists s', start_step env s = Some s' /\ shutdown_rank s' < shutdown_rank s /\
     (at_ s' = SpIdle \/ shutting s')) \/
  (start_step env s = None /\ waits_for_stopped s).
Proof.
  intros Hs Hsh. pose proof (so_point _ Hs) as Hp. unfold point_ok in Hp. unfold shutting in Hsh.
  unfold start_step, shutdown_rank.
  destruct (at_ s) as [|code to_loop| | | |evs|evs|evs|evs|evs fd peer] eqn:Ea; [done|..].
  { rewrite Hsh in *. destruct code as [|i code].
    { left. eexists. split; [done|]. server_simpl. split; [lia|by left]. }
    destruct Hp as [[? _]|(code' & r & Ec & Hrun & Ht & Ho & Hc)]; [done|].
    destruct code' as [|i' code']; injection Ec as -> ->.
    { left. cbn [exec]. rewrite (lock_free_running s Hs Hrun). eexists. split; [done|].
      server_simpl. cbn [length]. split; [lia|]. by right. }
    inversion_clear Ht as [|? ? Ht1 Ht2]. destruct Ho as [Ho1 Ho2].
    destruct (exec_tidy_cases env i' s Ht1) as [[s1 Ex]|[Ex Hb]]; rewrite Ex.
    - left. eexists. split; [done|]. server_simpl. cbn [length]. split; [lia|]. by right.
    - right. split; [done|]. destruct Hb as [(-> & p & Hpp & Hj)|(j & sys & -> & Hj & He)].
      + left. exists p. split; [done|]. split; [done|].
        destruct (cv_stop_pool _ _ Hc p Hpp) as [?|Hin]; [done|].
        apply elem_of_cons in Hin as [Hin|Hin]; [done|]. by destruct Ho1.
      + right. exists j, sys. split; [done|]. split; [done|].
        destruct (cv_stop_workers _ _ Hc j sys Hj) as [?|Hin]; [done|].
        apply elem_of_cons in Hin as [Hin|Hin]; [done|]. by destruct (Ho1 j). }
  all: destruct Hsh as [Hstop Hacc]; destruct Hp as [Hrun Hv]; left; rewrite ?Hstop, ?Hacc; cbn [orb].
  - eexists. split; [done|]. server_simpl. rewrite tear_down_length. split; [lia|by right].
  - destruct (se_wait env) as [e|evs]; eexists; (split; [done|]); server_simpl.
    + case_decide; (split; [lia|by right]).
    + split; [lia|by right].
  - eexists. split; [done|]. server_simpl. rewrite tear_down_length. split; [lia|by right].
  - eexists. split; [done|]. server_simpl. split; [lia|by right].
  - destruct evs as [|fd evs]; eexists; (split; [done|]); server_simpl; cbn [length];
      [|destruct (_ =? _)%Z]; (split; [lia|by right]).
  - eexists. split; [done|]. server_simpl. split; [lia|by right].
  - destruct (se_accept env) as [e|[[fd ip] port]]; eexists; (split; [done|]); server_simpl;
      [case_decide|]; (split; [lia|by right]).
  - eexists. split; [done|]. destruct (hand_over_spec fd peer s (so_count _ Hs) Hv) as (sys & _ & ->).
    destruct (fst (fst _)); server_simpl; rewrite length_alter; (split; [lia|by right]).
Qed.

(** The other threads. *)
Definition other_thread (a : action) : bool :=
  match a with AStart _ | ABeginStart => false | _ => true end.

Lemma others_keep s a :
  server_ok s -> running_ s = true -> other_thread a = true ->
  at_ (act reg s a) = at_ s /\ running_ (act reg s a) = true /\
  length (workers_ (act reg s a)) = length (workers_ s) /\
  (stop_requested_ s = true -> stop_requested_ (act reg s a) = true) /\
  (accepting_new_connections_ s = false -> accepting_new_connections_ (act reg s a) = false).
Proof.
  intros Hs Hrun Ha. destruct a as [|env|j|j env|i o|a]; try done; cbn [act].
  - destruct (stoppers s !! j) as [[]|]; done.
  - destruct (stoppers s !! j) as [st|] eqn:Ej; [|done].
    destruct st as [| |code| | | |]; cbn [stop_step]; try done.
    + destruct (negb (lock_free s)); [done|]. by rewrite Hrun.
    + destruct (so_stoppers _ Hs j code Ej). congruence.
    + by destruct (_ && _).
  - unfold worker_act. destruct (workers_ s !! i); [|done]. destruct (own_op _ _); [|done].
    server_simpl. by rewrite length_insert.
  - by destruct (own_action a).
Qed.

Lemma shutting_others s a :
  server_ok s -> running_ s = true -> shutting s -> other_thread a = true ->
  shutting (act reg s a) /\ shutdown_rank (act reg s a) = shutdown_rank s.
Proof.
  intros Hs Hrun Hsh Ha. destruct (others_keep s a Hs Hrun Ha) as (E1 & E2 & E3 & E4 & E5).
  unfold shutting, shutdown_rank in *. rewrite E1, E3. split; [|done].
  destruct (at_ s); try done; destruct Hsh; auto.
Qed.

End invariant.

(** ** Properties *)

(** C12: whatever the threads and the kernel do, in any order, a server that is not
    running holds nothing - no listening socket, no epoll instance, no pool, no
    worker - and in the accept loop the acceptor is open, every configured worker is
    there and the index of the next one is in range.  Every worker is one that was
    initialised and started and that its own threads, the acceptor and the kernel have
    acted on since, so the theorems on workers apply to it. *)
Theorem server_resources (reg : registry) `{ProtoMessage RpcRequest} `{ProtoMessage RpcResponse}
    (port : Z) (n b k : nat) (acts : list action) :
  let s := run reg (make_server port n b k) acts in
  (running_ s = false -> idle_clean s) /\
  (match at_ s with SpIdle | SpRun _ _ => False | _ => True end ->
     serving s /\ next_worker_ s < length (workers_ s)) /\
  (forall i sys, workers_ s !! i = Some sys -> worker_reached reg i sys).
Proof.
  cbv zeta. pose proof (server_run_ok reg acts _ (make_server_ok reg port n b k)) as Hs.
  set (s := run reg _ acts) in *. split; [apply Hs|]. split; [|apply Hs].
  intros Hp. pose proof (so_point _ _ Hs) as Ho. unfold point_ok in Ho.
  assert (serving s) as Hv by (destruct (at_ s); try done; apply Ho). split; [done|].
  rewrite (sv_workers _ Hv), (sv_next _ Hv). apply Nat.mod_upper_bound. pose proof (so_count _ _ Hs). lia.
Qed.

(** C13: when [Stop] returns, to whichever thread, [Start] is not running and everything
    it had acquired has been given back. *)
Theorem stop_releases_everything (reg : registry) `{ProtoMessage RpcRequest} `{ProtoMessage RpcResponse}
    (port : Z) (n b k : nat) (acts : list action) (env : senv) (j : nat) (st : stopper)
    (s' : RpcServer) :
  let s := run reg (make_server port n b k) acts in
  stoppers s !! j = Some st -> stop_step env st s = Some (StDone, s') ->
  running_ s' = false /\ idle_clean s'.
Proof.
  intros s Hj E. pose proof (server_run_ok reg acts _ (make_server_ok reg port n b k)) as Hs. fold s in Hs.
  destruct st as [| |code| | | |]; cbn [stop_step] in E; try done.
  - destruct (negb (lock_free s)); [done|]. destruct (running_ s); done.
  - destruct (so_stoppers _ _ Hs j code Hj) as [Hr _]. destruct code as [|i code].
    + injection E as <-. split; [done|]. by apply Hs.
    + by destruct (exec env i s).
  - destruct (lock_free s); [|done]. destruct (running_ s) eqn:Er; [done|]. injection E as <-.
    split; [done|]. by apply Hs.
Qed.

(** C15: connections are handed out strictly in turn.  The [k]-th connection accepted
    since [Start] went to worker [k mod n]; the next one goes to the worker after, which
    exists, and is appended to that worker's queue of pending connections - unless the
    worker refuses it, and then its descriptor is closed. *)
Theorem accept_round_robin (reg : registry) `{ProtoMessage RpcRequest} `{ProtoMessage RpcResponse}
    (port : Z) (n b k : nat) (acts : list action) (env : senv) (evs : list Z) (fd : Z) (peer : string) :
  let s := run reg (make_server port n b k) acts in
  at_ s = SpHand evs fd peer ->
  handed s = map (fun k => k mod worker_count_ s) (seq 0 (length (handed s))) /\
  let i := length (handed s) mod worker_count_ s in
  exists sys s' sys', workers_ s !! i = Some sys /\ start_step env s = Some s' /\
    handed s' = handed s ++ [i] /\ workers_ s' = <[i := sys']> (workers_ s) /\
    let '(ok, w, _) := EnqueueConnection (worker sys) fd peer (Some "") in
    worker sys' = w /\
    if ok then
      pending_connections_ w = pending_connections_ (worker sys) ++ [(fd, peer)] /\ closes s' = closes s
    else closes s' = closes s ++ [fd].
Proof.
  intros s Ea. pose proof (server_run_ok reg acts _ (make_server_ok reg port n b k)) as Hs. fold s in Hs.
  split; [apply Hs|]. intros i. pose proof (so_point _ _ Hs) as Ho. unfold point_ok in Ho. rewrite Ea in Ho.
  destruct Ho as [Hrun Hv]. destruct (hand_over_spec reg fd peer s (so_count _ _ Hs) Hv) as (sys & Hi & E).
  fold i in Hi, E. rewrite (list_alter_lookup _ _ _ sys Hi) in E. unfold start_step. rewrite Ea, E.
  eexists sys, _, (WorkerLoop.step reg (S i) sys (OpEnqueue fd peer)).
  split; [done|]. split; [done|]. cbn [WorkerLoop.step].
  destruct (EnqueueConnection (worker sys) fd peer (Some "")) as [[ok w] e] eqn:Ee. cbn [fst snd].
  destruct ok; server_simpl; [|by auto]. repeat (split; [done|]). split; [|done].
  revert Ee. unfold EnqueueConnection, Wakeup. by repeat split_match; intros [= <- <-].
Qed.

(** C14: a stop completes.  Once the stop is published (the accept loop has been left, or
    will see it), every step of [Start] brings it closer to its end, and it waits only
    for a pool or for a worker thread that has itself been told to stop; what the other
    threads do meanwhile changes neither. *)
Theorem server_stop_progress (reg : registry) `{ProtoMessage RpcRequest} `{ProtoMessage RpcResponse}
    (port : Z) (n b k : nat) (acts : list action) :
  let s := run reg (make_server port n b k) acts in
  shutting s ->
  (forall env,
     (exists s', start_step env s = Some s' /\ shutdown_rank s' < shutdown_rank s /\
        (at_ s' = SpIdle \/ shutting s')) \/
     (start_step env s = None /\ waits_for_stopped s)) /\
  (running_ s = true -> forall a, other_thread a = true ->
     shutting (act reg s a) /\ shutdown_rank (act reg s a) = shutdown_rank s).
Proof.
  intros s Hsh. pose proof (server_run_ok reg acts _ (make_server_ok reg port n b k)) as Hs. fold s in Hs.
  split; [intros env; by apply (shutdown_step reg)|]. intros Hr a Ha. by apply shutting_others.
Qed.

(** ** Concrete runs *)

(** The kernel grants everything; one connection waits to be accepted, or none. *)
Definition w_env_with (wait : errno + list Z) (accept : errno + (Z * string * Z)) : senv :=
  {| se_acceptor := {| ae_socket := 10; ae_reuseaddr := None; ae_reuseport := None; ae_fcntl := None;
                       ae_bind := None; ae_listen := None; ae_epoll := 11; ae_ctl := None;
                       ae_errno := EINTR |};
     se_pool := None; se_worker := (4, 5, None, EINTR)%Z; se_wait := wait; se_accept := accept |}.

Definition w_senv : senv := w_env_with (inr []) (inl EAGAIN).

Definition w_conn : senv := w_env_with (inr [10%Z]) (inr (7%Z, "127.0.0.1", 5000%Z)).

(** One worker, one thread in the pool, one thread that may call [Stop]. *)
Definition w_server : RpcServer := make_server 8080 1 1 1.

(** [Start] up to its loop, and the acceptance of a connection. *)
Definition w_start : list action := ABeginStart :: replicate 8 (AStart w_senv).

Definition w_accept : list action := replicate 6 (AStart w_conn).

Definition w_stop : list action := ABeginStop 0 :: replicate 3 (AStop 0 w_senv).

Definition w_run (acts : list action) : RpcServer := run w_registry w_server acts.

(** [Start] up to its end, with the threads it waits for. *)
Definition w_finish : list action :=
  replicate 9 (AStart w_senv) ++ replicate 8 (APool (ThreadPool.AWorker 0)) ++ replicate 3 (AStart w_senv) ++
  replicate 4 (AWorker 0 (OpWorker (w_env 1 []))) ++ replicate 4 (AStart w_senv).

(** The same, but the worker serves on between the end of the pool and its own: a
    connection it has taken over sends two requests. *)
Definition w_late : list action :=
  replicate 9 (AStart w_senv) ++ map (AWorker 0) (tail w_adopt) ++
  replicate 8 (APool (ThreadPool.AWorker 0)) ++ replicate 2 (AStart w_senv) ++
  map (AWorker 0) [OpKernel 7 2 [RecvBytes w_stream] [] []; OpWorker (w_env 2 [(7%Z, w_in)]);
                   OpWorker (w_env 2 [])].

(** The pool is destroyed before the workers that use it are stopped.  In this run
    [Start], on its way out, has freed the pool; a worker, not yet told to stop, reads
    requests and submits them to the freed object. *)
Theorem pool_freed_under_workers :
  let s := w_run (w_start ++ w_accept ++ w_stop ++ w_late) in
  business_thread_pool_ s = None /\ dangling s = 1 /\
  (fun sys => WorkerLoop.stop_requested_ (worker sys)) <$> workers_ s = [false].
Proof. vm_compute. done. Qed.

(** A [Stop] can be lost.  It is called right after [Start] has set [running_], and
    publishes its request before [Start] clears the flag: the request is overwritten,
    the server enters its loop and serves for any number of rounds while [Stop] waits. *)
Theorem stop_request_overwritten (rounds : nat) :
  let s := w_run ([ABeginStart] ++ w_stop ++ replicate 8 (AStart w_senv)) in
  stoppers s = [StWait] /\ stop_requested_ s = false /\ at_ s = SpLoop /\
  run w_registry s (concat (replicate rounds (replicate 4 (AStart w_senv)))) = s.
Proof.
  cbv zeta. split; [by vm_compute|]. split; [by vm_compute|]. split; [by vm_compute|].
  set (s := w_run _).
  assert (run w_registry s (replicate 4 (AStart w_senv)) = s) as E by (by vm_compute).
  clearbody s. induction rounds as [|k IH]; [done|].
  change (concat (replicate (S k) ?x)) with (x ++ concat (replicate k x)).
  unfold run in *. by rewrite fold_left_app, E.
Qed.

(** A refused connection is closed twice.  The worker's loop has ended after an error
    of [epoll_wait]; the connection it then refuses is closed with the parameter of
    [EnqueueConnection] that owns it, and once more by the acceptor, when the number may
    already belong to another descriptor. *)
Theorem refused_connection_closed_twice :
  let failing := {| pe_wait := inl EPIPE; pe_wake := None; pe_now := 1%Z |} in
  let s := w_run (w_start ++ replicate 2 (AWorker 0 (OpWorker failing)) ++ w_accept ++ [AStart w_senv]) in
  closes s = [7%Z] /\ (fun sys => closed (worker sys)) <$> workers_ s = [[7%Z]].
Proof. vm_compute. done. Qed.

Lemma stop_releases_everything_witness :
  let s := w_run (w_start ++ w_accept ++ w_stop ++ w_finish) in running_ s = false /\ idle_clean s.
Proof.
  apply (stop_releases_everything w_registry 8080 1 1 1 (w_start ++ w_accept ++ w_stop ++ w_finish)
           w_senv 0 StWait); vm_compute; reflexivity.
Defined.

Lemma accept_round_robin_witness :
  exists s', start_step w_senv (w_run (w_start ++ w_accept)) = Some s' /\ handed s' = [0].
Proof.
  destruct (accept_round_robin w_registry 8080 1 1 1 (w_start ++ w_accept) w_senv [] 7 "127.0.0.1:5000")
    as (_ & sys & s' & sys' & _ & H1 & H2 & _); [vm_compute; reflexivity|].
  exists s'. split; [exact H1|]. rewrite H2. vm_compute. reflexivity.
Defined.

Lemma server_stop_progress_witness :
  exists s', start_step w_senv (w_run (w_start ++ w_accept ++ w_stop)) = Some s' /\
    shutdown_rank s' < shutdown_rank (w_run (w_start ++ w_accept ++ w_stop)).
Proof.
  destruct (server_stop_progress w_registry 8080 1 1 1 (w_start ++ w_accept ++ w_stop)) as [H1 _];
    [vm_compute; done|].
  destruct (H1 w_senv) as [(s' & E & Hr & _)|[E _]]; [by exists s'|].
  exfalso. vm_compute in E. discriminate.
Defined.
