(* ===== verification/Network.v ===== *)
(** * Client, network and server together

    One client and one connection of a server, joined by two byte streams that the
    network cuts anywhere, with the business pool in between.  The parts are the
    models of RpcClient, Connection and ServiceRegistry, composed the way the
    sources compose them; what is added here is only the streams and the pool's
    choice which request to execute next.  The calls of the client, the binding of
    their promises, the dispatcher's reads, the events of the connection and the
    pool's tasks interleave arbitrarily.  Failures of the network are not part of
    this file: they are the subject of the theorems on the components. *)

From Stdlib Require Import ZArith Lia.
From S2P Require Import Prelude RpcError Posix Codec Frames PendingCalls ServiceRegistry.
From S2P Require Import Proto3 RpcClient ConnBuffer Connection.

Local Open Scope Z_scope.
Local Open Scope string_scope.
Local Open Scope list_scope.

(** ** The system *)

(** [unbound]: the calls, by their number, between the two phases of [CallAsync];
    [issued] and [happened] record the requests sent and the effects on promises. *)
Record network := {
  the_client : client;
  the_dispatcher : dispatcher;
  unbound : list nat;
  to_server : bytes;
  the_connection : Connection;
  pool : list DispatchRequest;
  to_client : bytes;
  issued : list RpcRequest;
  happened : list effect;
}.

Inductive action :=
  | ACall (ce : connect_env) (service method payload : string) (script : list send_event)
  | ABind (k : nat) (now : Z)
  | AServer (ev : event)
  | APool (k : nat)
  | ARead (now : Z) (script : list recv_event).

(** The rest of a stream after what has been taken from its front. *)
Fixpoint after (taken stream : bytes) : option bytes :=
  match taken, stream with
  | [], _ => Some stream
  | b :: taken, b' :: stream => if Byte.eqb b b' then after taken stream else None
  | _ :: _, [] => None
  end.

Section network.
Context `{ProtoMessage RpcRequest} `{ProtoMessage RpcResponse}.
Context (copts : RpcClientOptions) (sopts : Options) (reg : registry) (mode : bool).
Context (fd token : Z).

Definition quiet_network : network :=
  {| the_client := make_client;
     the_dispatcher := {| read_buffer := []; last_activity_time_ := 0; last_heartbeat_time_ := 0 |};
     unbound := []; to_server := [];
     the_connection := start sopts reg (make_connection mode);
     pool := []; to_client := []; issued := []; happened := [] |}.

(** An event of the connection: what it sends is on its way to the client, what it
    hands over is in the pool. *)
Definition serve (ev : event) (s : network) : network :=
  let c := the_connection s in
  let c' := apply_event sopts reg c ev in
  {| the_client := the_client s; the_dispatcher := the_dispatcher s; unbound := unbound s;
     to_server := to_server s; the_connection := c';
     pool := pool s ++ drop (length (dispatched c)) (dispatched c');
     to_client := to_client s ++ drop (length (wire c)) (wire c');
     issued := issued s; happened := happened s |}.

Definition with_client (c : client) (s : network) : network :=
  {| the_client := c; the_dispatcher := the_dispatcher s; unbound := unbound s;
     to_server := to_server s; the_connection := the_connection s; pool := pool s;
     to_client := to_client s; issued := issued s; happened := happened s |}.

Definition with_unbound (u : list nat) (s : network) : network :=
  {| the_client := the_client s; the_dispatcher := the_dispatcher s; unbound := u;
     to_server := to_server s; the_connection := the_connection s; pool := pool s;
     to_client := to_client s; issued := issued s; happened := happened s |}.

Definition with_to_server (b : bytes) (s : network) : network :=
  {| the_client := the_client s; the_dispatcher := the_dispatcher s; unbound := unbound s;
     to_server := b; the_connection := the_connection s; pool := pool s;
     to_client := to_client s; issued := issued s; happened := happened s |}.

Definition with_pool (p : list DispatchRequest) (s : network) : network :=
  {| the_client := the_client s; the_dispatcher := the_dispatcher s; unbound := unbound s;
     to_server := to_server s; the_connection := the_connection s; pool := p;
     to_client := to_client s; issued := issued s; happened := happened s |}.

Definition happens (es : list effect) (s : network) : network :=
  {| the_client := the_client s; the_dispatcher := the_dispatcher s; unbound := unbound s;
     to_server := to_server s; the_connection := the_connection s; pool := pool s;
     to_client := to_client s; issued := issued s; happened := happened s ++ es |}.

Definition issues (rq : RpcRequest) (s : network) : network :=
  {| the_client := the_client s; the_dispatcher := the_dispatcher s;
     unbound := unbound s ++ [length (issued s)];
     to_server := to_server s; the_connection := the_connection s; pool := pool s;
     to_client := to_client s; issued := issued s ++ [rq]; happened := happened s |}.

Definition reads (d : dispatcher) (rest : bytes) (s : network) : network :=
  {| the_client := the_client s; the_dispatcher := d; unbound := unbound s;
     to_server := to_server s; the_connection := the_connection s; pool := pool s;
     to_client := rest; issued := issued s; happened := happened s |}.

(** The answer of the pool to a request it was handed. *)
Definition respond (d : DispatchRequest) : RpcResponse := to_response (execute reg fd token d).

(** One step; the result of a task is enqueued and the connection notified, as in
    [DeliverCompleted].  [None] when it is not possible or a call fails.  The promise of a call
    is its number. *)
Definition step (s : network) (a : action) : option network :=
  match a with
  | ACall ce service method payload script =>
      match Call_begin (the_client s) ce service method payload script with
      | Some (inr id, c, _, w) =>
          Some (with_to_server (to_server s ++ w)
            (issues {| rq_request_id := id; rq_service_name := service;
                       rq_method_name := method; rq_payload := payload |} (with_client c s)))
      | _ => None
      end
  | ABind k now =>
      match unbound s !! k with
      | Some i =>
          match issued s !! i with
          | Some rq =>
              let '(failed, c, es) :=
                CallAsync_bind copts (the_client s) (rq_request_id rq) i now in
              match failed with
              | None => Some (happens es (with_unbound (delete k (unbound s)) (with_client c s)))
              | Some _ => None
              end
          | None => None
          end
      | None => None
      end
  | AServer (EvKernel clk rs ss subs) =>
      if forallb quiet_recv rs && forallb quiet_send ss && forallb id subs then
        match after (script_bytes rs) (to_server s) with
        | Some rest => Some (serve (EvKernel clk rs ss subs) (with_to_server rest s))
        | None => None
        end
      else None
  | AServer (EvTick now) =>
      if expired (the_connection s) now then None else Some (serve (EvTick now) s)
  | AServer (EvEnqueue _) | AServer EvClosing => None
  | AServer ev => Some (serve ev s)
  | APool k =>
      match pool s !! k with
      | Some d =>
          Some (serve EvReadable (serve (EvEnqueue (respond d)) (with_pool (delete k (pool s)) s)))
      | None => None
      end
  | ARead now script =>
      if forallb clean_event script then
        match after (script_bytes script) (to_client s) with
        | Some rest =>
            let '(c, d, es) := readable_iteration (the_client s) (the_dispatcher s) now script in
            Some (happens es (reads d rest (with_client c s)))
        | None => None
        end
      else None
  end.

Fixpoint steps (s : network) (acts : list action) : option network :=
  match acts with
  | [] => Some s
  | a :: acts => match step s a with Some s' => steps s' acts | None => None end
  end.

(** Nothing is on its way. *)
Record arrived (s : network) : Prop := {
  ar_bound : unbound s = [];
  ar_to_server : to_server s = [];
  ar_read : script_bytes (recv_script (the_connection s)) = [];
  ar_pool : pool s = [];
  ar_flushed : unsent (the_connection s) = [];
  ar_to_client : to_client s = [];
}.

(** What the framework promises for a request: the handler's result, or the answer
    to a heartbeat. *)
Definition served (rq : RpcRequest) : RpcResponse :=
  if String.eqb (rq_service_name rq) heartbeat_service then
    {| rs_request_id := rq_request_id rq; rs_error_code := proto_OK; rs_error_msg := "";
       rs_payload := "" |}
  else HandleOneRequest reg rq.

End network.

(** ** Streams of frames *)

Lemma after_spec taken : forall stream rest,
  after taken stream = Some rest -> stream = taken ++ rest.
Proof.
  induction taken as [|b taken IH]; intros [|b' stream] rest E; simplify_eq/=; [done..|].
  destruct (Byte.eqb b b') eqn:Eb; [|done]. apply Byte.byte_dec_bl in Eb as ->.
  by rewrite (IH _ _ E).
Qed.

Lemma frame_first b bs tail :
  fits b -> view_frame (concat (map frame_of (b :: bs)) ++ tail) =
            FFrame b (concat (map frame_of bs) ++ tail).
Proof. intros Hb. cbn [map concat]. unfold frame_of at 1. rewrite <- !app_assoc. by apply view_frame_frame. Qed.

(** What has arrived of a stream of frames: some whole frames and the beginning of
    the next one. *)
Lemma frames_split buf future bodies :
  Forall fits bodies -> buf ++ future = concat (map frame_of bodies) ->
  exists seen rest tail, bodies = seen ++ rest /\ buf = concat (map frame_of seen) ++ tail /\
    view_frame tail = FIncomplete /\ tail ++ future = concat (map frame_of rest).
Proof.
  intros Hf E. rewrite <- (app_nil_r (concat _)) in E.
  destruct (frames_loop_prefix (fun (_ : unit) _ => inl tt) (fun _ => tt) future [] buf bodies tt
    Hf eq_refl E) as (seen & rest & -> & Hl).
  assert (forall l, handle_all (fun (_ : unit) _ => inl tt) tt l = (true, tt)) as Hall.
  { intros l. by induction l. }
  destruct (frames_loop _ _ tt buf) as [[ok []] remain]. rewrite Hall in Hl.
  destruct Hl as [[= ->] Hl]. destruct (Hl eq_refl) as [Hv Hr]. rewrite app_nil_r in Hr.
  exists seen, rest, remain. split; [done|]. split; [|done]. apply (app_inv_tail future).
  rewrite E, app_nil_r, map_app, concat_app, <- app_assoc, Hr. done.
Qed.

(** Frames that have been taken off a stream are its first ones. *)
Lemma frames_prefix taken : forall all more,
  Forall fits taken -> Forall fits all ->
  concat (map frame_of taken) ++ more = concat (map frame_of all) ->
  exists rest, all = taken ++ rest /\ more = concat (map frame_of rest).
Proof.
  induction taken as [|b taken IH]; intros all more Ht Ha E; [by exists all|].
  apply Forall_cons in Ht as [Hb Ht]. pose proof (frame_first b taken more Hb) as Hf.
  rewrite E in Hf. destruct all as [|b' all]; [done|]. apply Forall_cons in Ha as [Hb' Ha].
  rewrite <- (app_nil_r (concat _)), frame_first in Hf by done. injection Hf as -> Hf.
  rewrite app_nil_r in Hf.
  destruct (IH all more Ht Ha) as (rest & -> & Hr); [done|]. by exists rest.
Qed.

(** ** Responses as multisets *)

Lemma concat_map_submseteq {A} (f : A -> bytes) l1 l2 :
  l1 ⊆+ l2 -> (length (concat (map f l1)) <= length (concat (map f l2)))%nat.
Proof.
  induction 1; cbn [map concat]; rewrite ?length_app; lia.
Qed.

Lemma filter_split {A} (p : A -> bool) l :
  List.filter p l ++ List.filter (fun x => negb (p x)) l ≡ₚ l.
Proof.
  induction l as [|x l IH]; [done|]. cbn [List.filter]. destruct (p x); cbn [negb app].
  - by rewrite IH.
  - by rewrite <- Permutation_middle, IH.
Qed.

Section responses.
Context `{ProtoLaws RpcRequest} `{ProtoLaws RpcResponse}.
Context (reg : registry) (mode : bool) (fd token : Z).

(** A request that can be sent, and whose answer can be sent back. *)
Record good (rq : RpcRequest) : Prop := {
  go_request : proto_valid rq;
  go_sendable : sendable (served reg rq);
  go_response : proto_valid (served reg rq);
}.

Definition carries (rq : RpcRequest) (b : bytes) : Prop := SerializeToArray rq = Some b /\ fits b.

Lemma carries_fits rqs bodies : Forall2 carries rqs bodies -> Forall fits bodies.
Proof. induction 1 as [|rq b rqs bodies [_ Hb]]; by constructor. Qed.

(** Whether the connection answers itself. *)
Definition direct (rq : RpcRequest) : bool :=
  String.eqb (rq_service_name rq) heartbeat_service || negb mode.

Lemma served_id rq : rs_request_id (served reg rq) = rq_request_id rq.
Proof.
  unfold served, HandleOneRequest. destruct (String.eqb _ _); [done|].
  destruct (Find _ _ _) as [h|]; [|done]. by destruct (h _).
Qed.

Lemma body_reply rq b : proto_valid rq -> carries rq b ->
  reply reg mode b = if direct rq then Some (served reg rq) else None.
Proof.
  intros Hv [Hs _]. unfold reply, direct, served. rewrite (parse_serialize rq b Hv Hs).
  destruct (String.eqb _ _); [done|]. by destruct mode.
Qed.

Lemma body_pool rq b : proto_valid rq -> carries rq b ->
  request_for_pool mode b = if direct rq then None else Some rq.
Proof.
  intros Hv [Hs _]. unfold request_for_pool, direct. rewrite (parse_serialize rq b Hv Hs).
  destruct (String.eqb _ _); [done|]. by destruct mode.
Qed.

Lemma bodies_replies rqs bodies : Forall good rqs -> Forall2 carries rqs bodies ->
  omap (reply reg mode) bodies = map (served reg) (List.filter direct rqs).
Proof.
  intros Hg. induction 1 as [|rq b rqs bodies Hc _ IH]; [done|]. apply Forall_cons in Hg as [Hr Hg].
  cbn [omap list_omap List.filter]. rewrite (body_reply rq b (go_request _ Hr) Hc).
  destruct (direct rq); cbn [map]; by rewrite IH.
Qed.

Lemma bodies_pool rqs bodies : Forall good rqs -> Forall2 carries rqs bodies ->
  omap (request_for_pool mode) bodies = List.filter (fun rq => negb (direct rq)) rqs.
Proof.
  intros Hg. induction 1 as [|rq b rqs bodies Hc _ IH]; [done|]. apply Forall_cons in Hg as [Hr Hg].
  cbn [omap list_omap List.filter]. rewrite (body_pool rq b (go_request _ Hr) Hc).
  destruct (direct rq); cbn [negb]; by rewrite IH.
Qed.

Lemma bodies_answerable rqs bodies : Forall good rqs -> Forall2 carries rqs bodies ->
  Forall (answerable reg mode) bodies.
Proof.
  intros Hg. induction 1 as [|rq b rqs bodies Hc _ IH]; [done|]. apply Forall_cons in Hg as [Hr Hg].
  constructor; [|by apply IH]. unfold answerable. rewrite (body_reply rq b (go_request _ Hr) Hc).
  destruct (direct rq); [apply Hr|done].
Qed.

(** What the pool answers to the requests it was handed. *)
Lemma handed_responses rqs bodies : Forall good rqs -> Forall2 carries rqs bodies ->
  map (respond reg fd token) (handed mode bodies) =
  map (served reg) (List.filter (fun rq => negb (direct rq)) rqs).
Proof.
  intros Hg Hc. unfold handed. rewrite (bodies_pool rqs bodies Hg Hc).
  assert (Forall (fun rq => direct rq = false) (List.filter (fun rq => negb (direct rq)) rqs)) as Hd.
  { apply List.Forall_forall. intros rq [_ Hn]%List.filter_In. by destruct (direct rq). }
  revert Hd. generalize (List.filter (fun rq => negb (direct rq)) rqs) as l.
  intros l.
  enough (forall g : nat -> Z, Forall (fun rq => direct rq = false) l ->
    map (respond reg fd token) (imap (fun i rq => to_dispatch (g i) rq) l) = map (served reg) l) as He.
  { apply (He (fun i => wrap64 (Z.of_nat (S i)))). }
  induction l as [|rq l IH]; intros g Hd; [done|]. apply Forall_cons in Hd as [Hr Hd].
  cbn [imap map]. f_equal; [|by apply (IH (fun i => g (S i)))].
  unfold respond. rewrite execute_response. unfold served, direct in *.
  by destruct (String.eqb _ _).
Qed.

(** The responses of a log, in the order they are sent. *)
Definition responses_of (log : list (bytes + RpcResponse)) : list RpcResponse :=
  omap (fun it => match it with inl b => reply reg mode b | inr r => Some r end) log.

Lemma sent_responses log :
  sent reg mode log = concat (map response_bytes (responses_of log)).
Proof.
  unfold sent, responses_of. induction log as [|[b|r] log IH]; [done|..];
    cbn [map concat omap list_omap item_bytes].
  - rewrite IH. unfold reply_bytes. by destruct (reply reg mode b).
  - by rewrite IH.
Qed.

Lemma responses_split log :
  responses_of log ≡ₚ omap (reply reg mode) (bodies_of log) ++ replies_of log.
Proof.
  unfold responses_of, bodies_of, replies_of.
  induction log as [|[b|r] log IH]; [done|..]; cbn [omap list_omap].
  - destruct (reply reg mode b); [by rewrite IH|done].
  - by rewrite IH, Permutation_middle.
Qed.

End responses.

(** ** The server's side *)

Section server_side.
Context `{ProtoLaws RpcRequest} `{ProtoLaws RpcResponse}.
Context (sopts : Options) (reg : registry) (mode : bool) (fd token : Z).

Abbreviation c0 := (start sopts reg (make_connection mode)).

Definition fits_buffer (rqs : list RpcRequest) : Prop :=
  (Z.of_nat (length (concat (map (fun rq => response_bytes (served reg rq)) rqs))) <=
   max_write_buffer_bytes sopts)%Z.

Lemma map_submseteq {A B} (f : A -> B) l1 l2 : l1 ⊆+ l2 -> map f l1 ⊆+ map f l2.
Proof. apply fmap_submseteq. Qed.

Lemma filter_app_submseteq {A} (p : A -> bool) l1 l2 : List.filter p l1 ⊆+ List.filter p (l1 ++ l2).
Proof. rewrite List.filter_app. by apply submseteq_inserts_r. Qed.

(** Whatever has been answered fits the write buffer. *)
Lemma answers_fit rqs bodies seen rest done k :
  Forall (good reg) rqs -> Forall2 carries rqs bodies -> fits_buffer rqs ->
  bodies = seen ++ rest -> done ⊆+ handed mode (take k bodies) ->
  (Z.of_nat (length (answers reg mode seen) +
     length (concat (map response_bytes (map (respond reg fd token) done)))) <=
   max_write_buffer_bytes sopts)%Z.
Proof.
  intros Hg Hc Hs -> Hd. unfold fits_buffer in Hs.
  apply Forall2_app_inv_r in Hc as (r1 & r2 & Q1 & Q2 & ->).
  assert (answers reg mode seen = concat (map response_bytes (omap (reply reg mode) seen))) as ->.
  { unfold answers. clear. induction seen as [|b seen IH]; [done|].
    cbn [map concat omap list_omap]. rewrite IH. unfold reply_bytes. by destruct (reply reg mode b). }
  rewrite <- length_app, <- concat_app, <- map_app.
  rewrite <- (map_map (served reg) response_bytes) in Hs.
  pose proof (Forall_app (good reg) r1 r2) as Ha. rewrite Ha in Hg. destruct Hg as [Hg1 Hg2].
  enough (omap (reply reg mode) seen ++ map (respond reg fd token) done ⊆+
          map (served reg) (r1 ++ r2)) as Hsub.
  { apply (concat_map_submseteq response_bytes) in Hsub. lia. }
  rewrite <- (filter_split (direct mode) (r1 ++ r2)), map_app. apply submseteq_app.
  - rewrite (bodies_replies reg mode r1 seen Hg1 Q1). apply map_submseteq, filter_app_submseteq.
  - etransitivity; [by apply map_submseteq|].
    assert (Forall2 carries (r1 ++ r2) (seen ++ rest)) as Q3 by by apply Forall2_app.
    rewrite (handed_responses reg mode fd token (take k (r1 ++ r2)));
      [|apply Forall_take; by apply Forall_app|by apply Forall2_take].
    apply map_submseteq. rewrite <- (take_drop k (r1 ++ r2)) at 2. apply filter_app_submseteq.
Qed.

(** A connection that has not failed and whose output has fitted its buffer. *)
Definition healthy (c : Connection) : Prop :=
  should_close_ c = false /\ writes_ok sopts c /\
  (Z.of_nat (length (wire c ++ unsent c)) <= max_write_buffer_bytes sopts)%Z.

(** What a connection has done with the part of the stream it has received, when
    the responses it was given are those of requests it had handed over. *)
Lemma connection_view rqs bodies evs future done k :
  Forall (good reg) rqs -> Forall2 carries rqs bodies -> fits_buffer rqs ->
  received evs ++ future = concat (map frame_of bodies) -> calm_run sopts reg c0 evs ->
  enqueued evs = map (respond reg fd token) done -> done ⊆+ handed mode (take k bodies) ->
  let c := run_events sopts reg c0 evs in
  exists log todo, bodies = bodies_of log ++ todo /\ replies_of log = enqueued evs /\
    wire c ++ unsent c = sent reg mode log /\ dispatched c = handed mode (bodies_of log) /\
    view_frame (contents (read_buffer_ c)) = FIncomplete /\
    contents (read_buffer_ c) ++ script_bytes (recv_script c) ++ future =
      concat (map frame_of todo) /\ healthy c.
Proof.
  intros Hg Hc Hs Hr Hq He Hd c.
  assert (Forall fits bodies) as Hf.
  { clear -Hc. induction Hc as [|rq b rqs bodies [_ Hb]]; by constructor. }
  destruct (frames_split _ _ _ Hf Hr) as (seen & rest & tail & Eb & Es & Hv & Ef).
  pose proof (bodies_answerable reg mode rqs bodies Hg Hc) as Hans. rewrite Eb in Hf, Hans.
  apply Forall_app in Hf as [Hf _]. apply Forall_app in Hans as [Hans _].
  pose proof (answers_fit rqs bodies seen rest done k Hg Hc Hs Eb Hd) as Hm. rewrite <- He in Hm.
  assert (serving sopts reg mode seen tail (enqueued evs) [] [] c) as Hserv.
  { apply run_events_serving; try done. by apply start_serving. }
  destruct Hserv as (log & todo & E1 & E2 & A & _ & Hview & E3 & _).
  pose proof (sent_bounded sopts reg mode seen (enqueued evs) Hm log todo [] E1 E2) as Hsent.
  rewrite app_nil_r in E2, E3. exists log, (todo ++ rest). rewrite Eb, E1, <- app_assoc.
  split; [done|]. split; [done|]. split; [apply A|]. split; [apply A|]. split; [done|]. split.
  - rewrite app_assoc, E3, map_app, concat_app, <- app_assoc, Ef. done.
  - split; [apply A|]. split; [apply A|]. rewrite <- (an_output _ _ _ _ _ _ A) in Hsent. exact Hsent.
Qed.

Lemma calm_run_snoc c evs ev :
  calm_run sopts reg c evs -> calm (run_events sopts reg c evs) ev ->
  calm_run sopts reg c (evs ++ [ev]).
Proof.
  revert c. induction evs as [|e evs IH]; intros c; [done|]. intros [Q1 Q2] Hev.
  split; [done|]. by apply IH.
Qed.

Lemma received_snoc evs ev : received (evs ++ [ev]) =
  received evs ++ match ev with EvKernel _ rs _ _ => script_bytes rs | _ => [] end.
Proof. unfold received. rewrite map_app, concat_app. simpl. by rewrite app_nil_r. Qed.

Lemma enqueued_snoc evs ev : enqueued (evs ++ [ev]) =
  enqueued evs ++ match ev with EvEnqueue r => [r] | _ => [] end.
Proof. unfold enqueued. rewrite omap_app. by destruct ev. Qed.

(** The state of the server's side: the events so far, the bodies of the requests
    sent to it, the requests the pool has executed, the bytes the client has read. *)
Record server_inv (s : network) (evs : list event) (bodies : list bytes)
    (done : list DispatchRequest) (got : bytes) : Prop := {
  si_conn : the_connection s = run_events sopts reg c0 evs;
  si_calm : calm_run sopts reg c0 evs;
  si_bodies : Forall2 carries (issued s) bodies;
  si_in : received evs ++ to_server s = concat (map frame_of bodies);
  si_done : enqueued evs = map (respond reg fd token) done;
  si_pool : dispatched (the_connection s) ≡ₚ done ++ pool s;
  si_handed : exists k, dispatched (the_connection s) = handed mode (take k bodies);
  si_out : wire (the_connection s) = got ++ to_client s;
}.

Lemma server_view s evs bodies done got :
  Forall (good reg) (issued s) -> fits_buffer (issued s) -> server_inv s evs bodies done got ->
  exists log todo, bodies = bodies_of log ++ todo /\
    replies_of log = map (respond reg fd token) done /\
    got ++ to_client s ++ unsent (the_connection s) = sent reg mode log /\
    dispatched (the_connection s) = handed mode (bodies_of log) /\
    view_frame (contents (read_buffer_ (the_connection s))) = FIncomplete /\
    contents (read_buffer_ (the_connection s)) ++
      script_bytes (recv_script (the_connection s)) ++ to_server s = concat (map frame_of todo) /\
    healthy (the_connection s).
Proof.
  intros Hg Hs [E1 E2 E3 E4 E5 E6 [k E7] E8].
  destruct (connection_view (issued s) bodies evs (to_server s) done k) as
    (log & todo & L1 & L2 & L3 & L4); try done.
  { rewrite <- E7, E6. by apply submseteq_inserts_r. }
  exists log, todo. rewrite <- E1 in L3, L4. rewrite E8, <- app_assoc in L3. rewrite L2. done.
Qed.

(** An event that the connection takes calmly keeps the invariant. *)
Lemma serve_inv s evs bodies done done' got ev s0 :
  Forall (good reg) (issued s) -> fits_buffer (issued s) -> server_inv s evs bodies done got ->
  calm (the_connection s) ev ->
  the_connection s0 = the_connection s -> issued s0 = issued s -> to_client s0 = to_client s ->
  match ev with
  | EvEnqueue r => exists d, r = respond reg fd token d /\ done' = done ++ [d] /\
                     pool s ≡ₚ d :: pool s0 /\ to_server s0 = to_server s
  | EvKernel _ rs _ _ => done' = done /\ pool s0 = pool s /\ to_server s = script_bytes rs ++ to_server s0
  | _ => done' = done /\ pool s0 = pool s /\ to_server s0 = to_server s
  end ->
  server_inv (serve sopts reg ev s0) (evs ++ [ev]) bodies done' got.
Proof.
  intros Hg Hs Hinv Hev Ec Ei Et Hd. pose proof Hinv as [E1 E2 E3 E4 E5 E6 [k E7] E8].
  set (c' := apply_event sopts reg (the_connection s) ev).
  assert (run_events sopts reg c0 (evs ++ [ev]) = c') as Erun.
  { unfold run_events. rewrite fold_left_app. simpl. unfold c'. by rewrite E1. }
  assert (calm_run sopts reg c0 (evs ++ [ev])) as Hcalm.
  { apply calm_run_snoc; [done|]. by rewrite <- E1. }
  destruct (apply_event_grows sopts reg (the_connection s) ev) as [Hw Hp]. fold c' in Hw, Hp.
  destruct Hw as [w Ew], Hp as [p Ep].
  assert (done' ++ pool s0 ≡ₚ done ++ pool s) as Hpool.
  { destruct ev; try (by destruct Hd as (-> & -> & _)).
    destruct Hd as (d & _ & -> & -> & _). by rewrite <- app_assoc. }
  assert (received (evs ++ [ev]) ++ to_server s0 = concat (map frame_of bodies)) as Hin.
  { rewrite received_snoc, <- E4, <- app_assoc. f_equal.
    destruct ev; try (by destruct Hd as (_ & _ & ->)). by destruct Hd as (d & _ & _ & _ & ->). }
  assert (enqueued (evs ++ [ev]) = map (respond reg fd token) done') as Hdone.
  { rewrite enqueued_snoc, E5. destruct ev; try (by destruct Hd as (-> & _); rewrite app_nil_r).
    destruct Hd as (d & -> & -> & _). by rewrite map_app. }
  destruct (connection_view (issued s) bodies (evs ++ [ev]) (to_server s0) done' k) as
    (log & todo & L1 & _ & _ & L4 & _); try done.
  { rewrite <- E7, E6, <- Hpool. by apply submseteq_inserts_r. }
  rewrite Erun in L4.
  split; cbn [serve the_connection issued to_server pool to_client]; rewrite ?Ec, ?Ei, ?Et; fold c';
    try done.
  - rewrite Ep, drop_app_length, E6, <- Hpool. by rewrite app_assoc.
  - exists (length (bodies_of log)). rewrite L4, L1, take_app_length. done.
  - rewrite Ew, drop_app_length, E8. by rewrite app_assoc.
Qed.

End server_side.

(** ** The client's side *)

Definition promises (es : list effect) : list nat :=
  omap (fun e => match e with SetValue p _ => Some p | _ => None end) es.

Lemma elem_of_promises p es : p ∈ promises es <-> exists r, SetValue p r ∈ es.
Proof.
  unfold promises. rewrite list_elem_of_omap. split.
  - intros ([p' r| |] & He & Ep); simplify_eq. by exists r.
  - intros [r Hr]. by exists (SetValue p r).
Qed.

Definition ids_ok (rqs : list RpcRequest) : Prop :=
  forall i rq, rqs !! i = Some rq -> rq_request_id rq = to_string (Z.of_nat i + 1).

Lemma ids_inj rqs i j rq1 rq2 :
  ids_ok rqs -> rqs !! i = Some rq1 -> rqs !! j = Some rq2 ->
  rq_request_id rq1 = rq_request_id rq2 -> i = j.
Proof.
  intros Hi E1 E2 E. rewrite (Hi _ _ E1), (Hi _ _ E2) in E. apply to_string_inj in E; lia.
Qed.

(** The slot of a call whose promise is bound. *)
Definition bound_slot (i : nat) (dl : Z) : Slot :=
  {| done := false; result := RpcCallResult_default; async_promise := Some i;
     async_bound := true; coroutine_handle := None; coroutine_bound := false; deadline := dl |}.

Definition delivered (D : list RpcResponse) (rq : RpcRequest) : Prop :=
  exists r, r ∈ D /\ rs_request_id r = rq_request_id rq.

(** The table and the promises, after the responses [D] have been delivered, for the
    calls [rqs] of which [u] have not bound their promise yet. *)
Record calls_inv (t : table) (u : list nat) (rqs : list RpcRequest) (D : list RpcResponse)
    (es : list effect) : Prop := {
  ca_unbound : NoDup u /\ Forall (fun i => i < length rqs)%nat u;
  ca_known : Forall (fun r => exists rq, rq ∈ rqs /\ rs_request_id r = rq_request_id rq) D;
  ca_waiting : forall i rq, rqs !! i = Some rq -> ~ delivered D rq ->
    if decide (i ∈ u) then t !! rq_request_id rq = Some Slot_default
    else exists dl, t !! rq_request_id rq = Some (bound_slot i dl);
  ca_arrived : forall i rq r, rqs !! i = Some rq -> r ∈ D -> rs_request_id r = rq_request_id rq ->
    if decide (i ∈ u) then t !! rq_request_id rq = Some (finish Slot_default (mapped_result r))
    else t !! rq_request_id rq = None /\ SetValue i (mapped_result r) ∈ es;
  ca_set : forall p res, SetValue p res ∈ es -> p ∉ u /\ exists rq r, rqs !! p = Some rq /\
    r ∈ D /\ rs_request_id r = rq_request_id rq /\ res = mapped_result r;
  ca_once : NoDup (promises es);
}.

Lemma calls_inv_start : calls_inv ∅ [] [] [] [].
Proof.
  split; try done; try by intros i rq E.
  - by split; [constructor|].
  - intros p r He. by apply not_elem_of_nil in He.
  - constructor.
Qed.

(** A call is sent. *)
Lemma calls_inv_call t u rqs D es rq :
  ids_ok (rqs ++ [rq]) -> calls_inv t u rqs D es ->
  calls_inv (<[rq_request_id rq := Slot_default]> t) (u ++ [length rqs]) (rqs ++ [rq]) D es.
Proof.
  intros Hids [[U1 U2] K W A S O].
  assert (rq_request_id rq = to_string (Z.of_nat (length rqs) + 1)) as Eid.
  { apply Hids. apply list_lookup_middle. done. }
  assert (forall i rq', rqs !! i = Some rq' -> rq_request_id rq' <> rq_request_id rq) as Hne.
  { intros i rq' E Eq. pose proof (lookup_lt_Some _ _ _ E) as Hl.
    assert (i = length rqs); [|lia].
    apply (ids_inj (rqs ++ [rq]) _ _ rq' rq Hids);
      [by rewrite lookup_app_l|by apply list_lookup_middle|done]. }
  assert (length rqs ∉ u) as Hu.
  { intros Hin. rewrite Forall_forall in U2. specialize (U2 _ Hin). simpl in U2. lia. }
  assert (~ delivered D rq) as Hnew.
  { intros (r & Hr & Er). rewrite Forall_forall in K. destruct (K r Hr) as (rq' & Hq & Eq).
    apply list_elem_of_lookup in Hq as [i Hi]. apply (Hne i rq' Hi). congruence. }
  assert (forall i rq', (rqs ++ [rq]) !! i = Some rq' ->
    (i = length rqs /\ rq' = rq) \/ (rqs !! i = Some rq' /\ i <> length rqs)) as Hcase.
  { intros i rq' E. apply lookup_app_Some in E as [E|[Hl E]].
    - right. split; [done|]. apply lookup_lt_Some in E. lia.
    - left. apply list_lookup_singleton_Some in E as [El <-]. split; [lia|done]. }
  assert (forall i, i <> length rqs -> (i ∈ u ++ [length rqs]) <-> (i ∈ u)) as Hmem.
  { intros i Hi. rewrite elem_of_app, list_elem_of_singleton. naive_solver. }
  split.
  - split.
    + apply NoDup_app. split; [done|]. split; [|by apply NoDup_singleton].
      intros x Hx ->%list_elem_of_singleton. done.
    + apply Forall_app. split; [|by constructor; [rewrite length_app; simpl; lia|]].
      eapply Forall_impl; [done|]. intros x. rewrite length_app. simpl. lia.
  - eapply Forall_impl; [exact K|]. intros r (rq' & Hq & Eq). exists rq'.
    split; [|done]. apply elem_of_app. by left.
  - intros i rq' [[-> ->]|[E Hi]]%Hcase Hd.
    + rewrite decide_True by (apply elem_of_app; right; by apply list_elem_of_singleton).
      by rewrite lookup_insert_eq.
    + rewrite lookup_insert_ne by (apply not_eq_sym; by eapply Hne).
      rewrite (decide_ext _ _ _ _ (Hmem i Hi)). by apply W.
  - intros i rq' r [[-> ->]|[E Hi]]%Hcase Hr Er; [by destruct Hnew; exists r|].
    rewrite lookup_insert_ne by (apply not_eq_sym; by eapply Hne).
    rewrite (decide_ext _ _ _ _ (Hmem i Hi)). by apply A.
  - intros p res Hp. destruct (S p res Hp) as (Hnu & rq' & r & E & Hr). split.
    + pose proof (lookup_lt_Some _ _ _ E). rewrite Hmem by lia. done.
    + exists rq', r. split; [by apply lookup_app_l_Some|done].
  - done.
Qed.

Lemma delete_elem k (u : list nat) i :
  NoDup u -> u !! k = Some i ->
  NoDup (delete k u) /\ forall j, j ∈ delete k u <-> j ∈ u /\ j <> i.
Proof.
  intros Hn Hk. pose proof (delete_Permutation u k i Hk) as Hp. revert Hp.
  generalize (delete k u) as v. intros v Hp. rewrite Hp in Hn. apply NoDup_cons in Hn as [Hi Hn].
  split; [done|]. intros j. rewrite Hp, elem_of_cons. split.
  - intros Hj. split; [by right|]. by intros ->.
  - by intros [[->|Hj] Hne].
Qed.

(** What has to be shown when the promise of a call is bound. *)
Lemma calls_inv_bound t t' u rqs D es e k i rq :
  calls_inv t u rqs D es -> u !! k = Some i -> rqs !! i = Some rq ->
  (forall j rq', rqs !! j = Some rq' -> j <> i -> t' !! rq_request_id rq' = t !! rq_request_id rq') ->
  (e = [] /\ ~ delivered D rq /\ (exists dl, t' !! rq_request_id rq = Some (bound_slot i dl)) \/
   exists r, (forall r', r' ∈ D -> rs_request_id r' = rq_request_id rq -> mapped_result r' = mapped_result r) /\
     r ∈ D /\ rs_request_id r = rq_request_id rq /\ e = [SetValue i (mapped_result r)] /\
     t' !! rq_request_id rq = None) ->
  calls_inv t' (delete k u) rqs D (es ++ e).
Proof.
  intros [[U1 U2] K W A S O] Hk Hi Ht He. destruct (delete_elem k u i U1 Hk) as [Hn Hdel].
  assert (i ∉ delete k u) as Hni by (rewrite Hdel; tauto).
  assert (i ∈ u) as Hiu by (by eapply list_elem_of_lookup_2).
  assert (forall j, j <> i -> j ∈ delete k u <-> j ∈ u) as Hmem by (intros j; rewrite Hdel; tauto).
  split; [split; [done|]|done|..].
  - apply Forall_forall. intros j Hj. rewrite Forall_forall in U2. apply U2. by apply Hdel.
  - intros j rq' Hj Hd. destruct (decide (j = i)) as [->|Hji].
    + rewrite decide_False by done. simplify_eq.
      destruct He as [(_ & _ & He)|(r & _ & Hr & Er & _)]; [done|]. destruct Hd. by exists r.
    + rewrite (decide_ext _ _ _ _ (Hmem j Hji)), (Ht j rq' Hj Hji). by apply W.
  - intros j rq' r Hj Hr Er. destruct (decide (j = i)) as [->|Hji].
    + rewrite decide_False, elem_of_app by done. simplify_eq.
      destruct He as [(_ & Hd & _)|(r' & Hf & _ & _ & -> & ->)]; [destruct Hd; by exists r|].
      rewrite (Hf r Hr Er), list_elem_of_singleton. tauto.
    + rewrite (decide_ext _ _ _ _ (Hmem j Hji)), (Ht j rq' Hj Hji).
      specialize (A j rq' r Hj Hr Er). destruct (decide (j ∈ u)); [done|]. rewrite elem_of_app. tauto.
  - intros p res [Hp|Hp]%elem_of_app.
    + destruct (S p res Hp) as (Hnu & Hx). split; [|done]. rewrite Hdel. tauto.
    + destruct He as [(-> & _)|(r & _ & Hr & Er & -> & _)]; [by apply not_elem_of_nil in Hp|].
      apply list_elem_of_singleton in Hp. simplify_eq. split; [done|]. by exists rq, r.
  - unfold promises. rewrite omap_app. fold (promises es) (promises e).
    destruct He as [(-> & _)|(r & _ & _ & _ & -> & _)]; [by rewrite app_nil_r|].
    apply NoDup_app. split; [done|]. split; [|apply NoDup_singleton].
    intros p Hp ->%list_elem_of_singleton. apply elem_of_promises in Hp as [res Hp].
    by destruct (S _ _ Hp).
Qed.

(** The promise of a call is bound. *)
Lemma calls_inv_bind t u rqs D es k i rq dl :
  ids_ok rqs -> calls_inv t u rqs D es -> u !! k = Some i -> rqs !! i = Some rq ->
  let '(bound, t', e) := BindAsync t (rq_request_id rq) i dl in
  bound = true /\ calls_inv t' (delete k u) rqs D (es ++ e).
Proof.
  intros Hids Hinv Hk Hi. pose proof Hinv as [_ _ W A _ _].
  assert (i ∈ u) as Hiu by (by eapply list_elem_of_lookup_2).
  assert (forall j rq', rqs !! j = Some rq' -> j <> i -> rq_request_id rq <> rq_request_id rq') as Hne.
  { intros j rq' Hj Hji E. apply Hji. by eapply ids_inj. }
  unfold BindAsync. destruct (decide (Exists (fun r => rs_request_id r = rq_request_id rq) D)) as [Hd|Hd].
  - apply Exists_exists in Hd as (r & Hr & Er).
    assert (forall r', r' ∈ D -> rs_request_id r' = rq_request_id rq ->
      t !! rq_request_id rq = Some (finish Slot_default (mapped_result r'))) as Ht.
    { intros r' Hr' Er'. pose proof (A i rq r' Hi Hr' Er') as Ht. by rewrite decide_True in Ht. }
    rewrite (Ht r Hr Er). cbn. split; [done|].
    apply (calls_inv_bound t _ u rqs D es _ k i rq Hinv Hk Hi).
    + intros j rq' Hj Hji. by rewrite lookup_delete_ne by by apply (Hne j).
    + right. exists r. rewrite lookup_delete_eq. split; [|done]. intros r' Hr' Er'.
      pose proof (Ht r' Hr' Er') as Ht'. rewrite (Ht r Hr Er) in Ht'.
      apply (inj Some), (f_equal result) in Ht'. exact (eq_sym Ht').
  - assert (~ delivered D rq) as Hnd.
    { intros (r & Hr & Er). apply Hd. apply Exists_exists. by exists r. }
    pose proof (W i rq Hi Hnd) as Ht. rewrite decide_True in Ht by done. rewrite Ht. cbn.
    split; [done|]. apply (calls_inv_bound t _ u rqs D es _ k i rq Hinv Hk Hi).
    + intros j rq' Hj Hji. by rewrite lookup_insert_ne by by apply (Hne j).
    + left. split; [done|]. split; [done|]. exists dl. by rewrite lookup_insert_eq.
Qed.

(** What has to be shown when a response arrives. *)
Lemma calls_inv_delivered t t' u rqs D es e i rq r :
  calls_inv t u rqs D es -> rqs !! i = Some rq -> rs_request_id r = rq_request_id rq ->
  ~ delivered D rq ->
  (forall j rq', rqs !! j = Some rq' -> j <> i -> rq_request_id rq <> rq_request_id rq' /\
     t' !! rq_request_id rq' = t !! rq_request_id rq') ->
  (if decide (i ∈ u)
   then t' !! rq_request_id rq = Some (finish Slot_default (mapped_result r)) /\ promises e = []
   else t' !! rq_request_id rq = None /\ e = [SetValue i (mapped_result r)]) ->
  calls_inv t' u rqs (D ++ [r]) (es ++ e).
Proof.
  intros [U K W A S O] Hi Er Hnd Ht He.
  assert (forall x, x ∈ D ++ [r] <-> x ∈ D \/ x = r) as HD.
  { intros x. by rewrite elem_of_app, list_elem_of_singleton. }
  split; [done|..].
  - apply Forall_app. split; [done|]. constructor; [|done]. exists rq.
    split; [by eapply list_elem_of_lookup_2|done].
  - intros j rq' Hj Hd. destruct (decide (j = i)) as [->|Hji].
    + simplify_eq. destruct Hd. exists r. rewrite HD. tauto.
    + destruct (Ht j rq' Hj Hji) as [_ ->]. apply W; [done|]. intros (r' & Hr' & Er').
      destruct Hd. exists r'. rewrite HD. tauto.
  - intros j rq' r' Hj [Hr'| ->]%HD Er'; destruct (decide (j = i)) as [->|Hji]; simplify_eq.
    + destruct Hnd. by exists r'.
    + destruct (Ht j rq' Hj Hji) as [_ ->]. specialize (A j rq' r' Hj Hr' Er').
      destruct (decide (j ∈ u)); [done|]. rewrite elem_of_app. tauto.
    + destruct (decide (i ∈ u)); [apply He|]. destruct He as [-> ->].
      rewrite elem_of_app, list_elem_of_singleton. tauto.
    + destruct (Ht j rq' Hj Hji) as [Hne _]. congruence.
  - intros p res [Hp|Hp]%elem_of_app.
    + destruct (S p res Hp) as (Hnu & rq' & r' & S1 & S2 & S3). split; [done|].
      exists rq', r'. rewrite HD. tauto.
    + assert (p ∈ promises e) as Hpe by (apply elem_of_promises; eauto).
      destruct (decide (i ∈ u)); destruct He as [_ He].
      * rewrite He in Hpe. by apply not_elem_of_nil in Hpe.
      * rewrite He in Hp. apply list_elem_of_singleton in Hp. simplify_eq. split; [done|].
        exists rq, r. rewrite HD. tauto.
  - unfold promises. rewrite omap_app. fold (promises es) (promises e).
    destruct (decide (i ∈ u)); destruct He as [_ He]; rewrite He; [by rewrite app_nil_r|].
    apply NoDup_app. split; [done|]. split; [|apply NoDup_singleton].
    intros p Hp ->%list_elem_of_singleton. apply elem_of_promises in Hp as [res Hp].
    destruct (S _ _ Hp) as (_ & rq' & r' & E' & Hr' & Er' & _). simplify_eq.
    destruct Hnd. by exists r'.
Qed.

(** A response arrives. *)
Lemma calls_inv_response t u rqs D es i rq r :
  ids_ok rqs -> calls_inv t u rqs D es -> rqs !! i = Some rq ->
  rs_request_id r = rq_request_id rq -> ~ delivered D rq ->
  let '(t', e) := on_response (t, []) r in calls_inv t' u rqs (D ++ [r]) (es ++ e).
Proof.
  intros Hids Hinv Hi Er Hnd. unfold on_response.
  rewrite Er, (Hids i rq Hi), to_string_not_heartbeat, <- (Hids i rq Hi). unfold Complete.
  assert (forall j rq', rqs !! j = Some rq' -> j <> i -> rq_request_id rq <> rq_request_id rq') as Hne.
  { intros j rq' Hj Hji E. apply Hji. by eapply ids_inj. }
  pose proof (ca_waiting _ _ _ _ _ Hinv i rq Hi Hnd) as Hslot.
  destruct (decide (i ∈ u)) as [Hu|Hu].
  - rewrite Hslot. cbn. apply (calls_inv_delivered t _ u rqs D es _ i rq r Hinv Hi Er Hnd).
    + intros j rq' Hj Hji. pose proof (Hne j rq' Hj Hji). by rewrite lookup_insert_ne.
    + rewrite decide_True, lookup_insert_eq by done. done.
  - destruct Hslot as [dl ->]. cbn. apply (calls_inv_delivered t _ u rqs D es _ i rq r Hinv Hi Er Hnd).
    + intros j rq' Hj Hji. pose proof (Hne j rq' Hj Hji). by rewrite lookup_delete_ne.
    + rewrite decide_False, lookup_delete_eq by done. done.
Qed.

Lemma calls_inv_responses u rqs : ids_ok rqs -> forall rs t D es,
  calls_inv t u rqs D es -> NoDup (map rs_request_id (D ++ rs)) ->
  Forall (fun r => exists rq, rq ∈ rqs /\ rs_request_id r = rq_request_id rq) rs ->
  let '(t', e) := on_responses (t, []) rs in calls_inv t' u rqs (D ++ rs) (es ++ e).
Proof.
  intros Hids. induction rs as [|r rs IH]; intros t D es Hinv Hn Hk; [cbn; by rewrite !app_nil_r|].
  apply Forall_cons in Hk as [(rq & Hq & Er) Hk]. apply list_elem_of_lookup in Hq as [i Hi].
  assert (~ delivered D rq) as Hnd.
  { intros (r' & Hr' & Er'). rewrite map_app in Hn. apply NoDup_app in Hn as (_ & Hn & _).
    apply (Hn (rs_request_id r')); [by apply (list_elem_of_fmap_2 rs_request_id)|].
    rewrite Er', <- Er. by left. }
  pose proof (calls_inv_response t u rqs D es i rq r Hids Hinv Hi Er Hnd) as H1.
  unfold on_responses. cbn [fold_left]. destruct (on_response (t, []) r) as [t1 e1].
  fold (on_responses (t1, e1) rs). rewrite on_responses_effects.
  specialize (IH t1 (D ++ [r]) (es ++ e1) H1). rewrite <- !app_assoc in IH. specialize (IH Hn Hk).
  destruct (on_responses (t1, []) rs) as [t2 e2]. cbn [fst snd app] in *. by rewrite app_assoc.
Qed.

(** ** Both sides *)

Section both_sides.
Context `{ProtoLaws RpcRequest} `{ProtoLaws RpcResponse}.
Context (copts : RpcClientOptions) (sopts : Options) (reg : registry) (mode : bool).
Context (fd token : Z).

Lemma encodes_inj bs : forall rs1 rs2, Forall2 encodes bs rs1 -> Forall2 encodes bs rs2 -> rs1 = rs2.
Proof.
  induction bs as [|b bs IH]; intros rs1 rs2 F1 F2; inversion F1 as [|? r1 ? ? E1 F1']; subst;
    inversion F2 as [|? r2 ? ? E2 F2']; subst; [done|].
  f_equal; [|by apply IH]. destruct E1 as (S1 & V1 & _), E2 as (S2 & V2 & _).
  pose proof (parse_serialize r1 b V1 S1) as P1. rewrite (parse_serialize r2 b V2 S2) in P1. congruence.
Qed.

Lemma encodes_fits bs rs : Forall2 encodes bs rs -> Forall fits bs.
Proof. induction 1 as [|b r bs rs (_ & _ & Hb)]; by constructor. Qed.

(** The responses to good requests, as frames. *)
Lemma served_frames R rqs :
  Forall (good reg) rqs -> R ⊆+ map (served reg) rqs ->
  exists bs, Forall2 encodes bs R /\ concat (map response_bytes R) = concat (map frame_of bs).
Proof.
  intros Hg Hs.
  assert (Forall (fun r => sendable r /\ proto_valid r) R) as HR.
  { apply Forall_forall. intros r Hr.
    apply (elem_of_submseteq _ _ _ Hr) in Hs. apply list_elem_of_In, in_map_iff in Hs as (rq & <- & Hq).
    apply list_elem_of_In in Hq. rewrite Forall_forall in Hg. by destruct (Hg rq Hq). }
  clear Hs. induction HR as [|r R [(b & Sb & Fb & _) Hv] _ (bs & Hbs & Ebs)]; [by exists []|].
  exists (b :: bs). split; [by constructor|]. cbn [map concat]. unfold response_bytes at 1.
  by rewrite Sb, Ebs.
Qed.

(** The bytes the client has read are frames of the responses delivered to it and
    what is in its buffer. *)
Definition client_read (s : network) (got : bytes) (D : list RpcResponse) : Prop :=
  (exists bs, Forall2 encodes bs D /\
     got = concat (map frame_of bs) ++ read_buffer (the_dispatcher s)) /\
  view_frame (read_buffer (the_dispatcher s)) = FIncomplete.

(** The responses delivered are the first of those on their way, and these are
    answers to requests of this client, each answered once. *)
Lemma responses_view s evs bodies done got D :
  Forall (good reg) (issued s) -> fits_buffer sopts reg (issued s) ->
  server_inv sopts reg mode fd token s evs bodies done got -> client_read s got D ->
  exists D' bs', Forall2 encodes bs' D' /\
    read_buffer (the_dispatcher s) ++ to_client s ++ unsent (the_connection s) =
      concat (map frame_of bs') /\
    D ++ D' ⊆+ map (served reg) (issued s) /\
    (arrived s -> D' = [] /\ D ≡ₚ map (served reg) (issued s)).
Proof.
  intros Hg Hf Hinv [(bs & Hbs & Egot) Hv].
  destruct (server_view sopts reg mode fd token s evs bodies done got Hg Hf Hinv) as
    (log & todo & L1 & L2 & L3 & L4 & L5 & L6 & _).
  pose proof Hinv as [_ _ Hb _ _ Hp _ _]. pose proof Hb as Hb2.
  rewrite L1 in Hb2. apply Forall2_app_inv_r in Hb2 as (r1 & r2 & C1 & C2 & Er).
  assert (Forall (good reg) r1) as Hg1 by (rewrite Er in Hg; apply Forall_app in Hg; tauto).
  assert (responses_of reg mode log ≡ₚ
    map (served reg) (List.filter (direct mode) r1) ++ map (respond reg fd token) done) as HR.
  { by rewrite responses_split, (bodies_replies reg mode r1 _ Hg1 C1), L2. }
  pose proof (handed_responses reg mode fd token r1 _ Hg1 C1) as Hh. rewrite <- L4 in Hh.
  assert (map (respond reg fd token) done ++ map (respond reg fd token) (pool s) ≡ₚ
    map (served reg) (List.filter (fun rq => negb (direct mode rq)) r1)) as Hd.
  { by rewrite <- Hh, <- map_app, Hp. }
  assert (responses_of reg mode log ++ map (respond reg fd token) (pool s) ≡ₚ map (served reg) r1) as Hall.
  { by rewrite HR, <- app_assoc, Hd, <- map_app, (filter_split (direct mode) r1). }
  assert (responses_of reg mode log ⊆+ map (served reg) (issued s)) as Hsub.
  { rewrite Er, map_app, <- Hall, <- app_assoc. by apply submseteq_inserts_r. }
  destruct (served_frames _ _ Hg Hsub) as (bsR & FR & ER).
  rewrite sent_responses, ER, Egot, <- app_assoc in L3.
  destruct (frames_prefix bs bsR _ (encodes_fits _ _ Hbs) (encodes_fits _ _ FR) L3) as (bs' & -> & Eb).
  apply Forall2_app_inv_l in FR as (D1 & D' & F1 & F2 & ED).
  rewrite (encodes_inj bs D1 D F1 Hbs) in ED. exists D', bs'.
  rewrite ED in Hsub, Hall. split; [done|]. split; [done|]. split; [done|].
  intros [A1 A2 A3 A4 A5 A6]. rewrite A5, A6, !app_nil_r in Eb.
  assert (bs' = []) as ->.
  { destruct bs' as [|b bs']; [done|]. rewrite Eb, <- (app_nil_r (concat _)), frame_first in Hv; [done|].
    apply encodes_fits in F2. by apply Forall_cons in F2 as [F2 _]. }
  inversion F2; subst. split; [done|]. rewrite A4, !app_nil_r in Hall. rewrite Hall.
  rewrite A2, A3, !app_nil_r in L6.
  assert (todo = []) as ->.
  { destruct todo as [|b todo]; [done|]. rewrite L6, <- (app_nil_r (concat _)), frame_first in L5; [done|].
    inversion C2 as [|? ? ? ? [_ Hfb]]. done. }
  inversion C2; subst. by rewrite Er, app_nil_r.
Qed.

End both_sides.

(** ** Every step keeps both sides in order *)

Section steps.
Context `{ProtoLaws RpcRequest} `{ProtoLaws RpcResponse}.
Context (copts : RpcClientOptions) (sopts : Options) (reg : registry) (mode : bool).
Context (fd token : Z).

Definition net_inv (s : network) : Prop :=
  exists evs bodies done got D,
    server_inv sopts reg mode fd token s evs bodies done got /\ client_read s got D /\
    calls_inv (pending_calls_ (the_client s)) (unbound s) (issued s) D (happened s) /\
    ids_ok (issued s) /\ next_id_ (the_client s) = Z.of_nat (length (issued s)).

(** The requests of the run so far are good, their answers fit the write buffer, and
    their numbers have not wrapped around. *)
Definition within (rqs : list RpcRequest) : Prop :=
  Forall (good reg) rqs /\ fits_buffer sopts reg rqs /\ Z.of_nat (length rqs) < 2 ^ 64.

Lemma within_prefix l k : prefix l k -> within k -> within l.
Proof.
  intros [l' ->] ([Hg _]%Forall_app & Hf & Hl). unfold within, fits_buffer in *.
  rewrite map_app, concat_app, !length_app in *. split; [done|]. lia.
Qed.

Lemma net_inv_start : net_inv (quiet_network sopts reg mode).
Proof.
  exists [], [], [], [], []. split; [|split; [|split; [exact calls_inv_start|done]]].
  - split; try done. by exists 0%nat.
  - split; [|done]. by exists [].
Qed.

Lemma Call_begin_state c ce service method payload script id c1 es w :
  Call_begin c ce service method payload script = Some (inr id, c1, es, w) ->
  pending_calls_ c1 = <[id := Slot_default]> (pending_calls_ c) /\
  next_id_ c1 = wrap64 (next_id_ c + 1).
Proof.
  unfold Call_begin.
  assert (next_id_ (snd (Connect c ce)) = next_id_ c /\
          pending_calls_ (snd (Connect c ce)) = pending_calls_ c) as [En Ep].
  { unfold Connect. by repeat (split_match; simpl). }
  destruct (Connect c ce) as [[] c']; [|done]. cbn [snd] in *. simpl. rewrite En, Ep.
  unfold Add. destruct (str_empty _); [done|]. destruct (pending_calls_ c !! _); [done|]. simpl.
  destruct (send_request _ _ _) as [[[[] ?] ?]|]; [by intros [= <- <- _ _]| |done].
  unfold Close. intros E. by repeat split_match_in E; simplify_eq/=.
Qed.

Lemma net_inv_call s ce service method payload script s' :
  net_inv s -> step copts sopts reg fd token s (ACall ce service method payload script) = Some s' ->
  within (issued s') -> net_inv s'.
Proof.
  intros (evs & bodies & done & got & D & [S1 S2 S3 S4 S5 S6 [k S7] S8] & HR & HC & Hids & Hn) E Hw.
  cbn [step] in E. destruct (Call_begin _ _ _ _ _ _) as [[[[[|id] c1] es] w]|] eqn:Eb; try done.
  injection E as <-. destruct (Call_begin_state _ _ _ _ _ _ _ _ _ _ Eb) as [Ep En].
  destruct (Call_begin_sent _ _ _ _ _ _ _ _ _ _ Eb) as (Eid & _ & _ & b & Hb & -> & Hl).
  cbn [with_to_server issues with_client issued] in Hw. destruct Hw as (_ & _ & Hw).
  rewrite length_app in Hw. simpl in Hw.
  assert (wrap64 (Z.of_nat (length (issued s)) + 1) = Z.of_nat (length (issued s)) + 1) as Ewrap.
  { apply wrap64_small. unfold two64. lia. }
  rewrite Hn, Ewrap in *.
  set (rq := {| rq_request_id := id; rq_service_name := service; rq_method_name := method;
                rq_payload := payload |}) in *.
  assert (ids_ok (issued s ++ [rq])) as Hids'.
  { intros i rq' [Hi|[Hi E]]%lookup_app_Some; [by apply Hids|].
    apply list_lookup_singleton_Some in E as [E <-].
    change (id = to_string (Z.of_nat i + 1)). rewrite Eid. f_equal. lia. }
  exists evs, (bodies ++ [b]), done, got, D. split; [|split; [exact HR|]].
  - split; cbn [with_to_server issues with_client issued the_connection to_server pool to_client]; try done.
    + apply Forall2_app; [done|]. constructor; [|done]. done.
    + rewrite app_assoc, S4, map_app, concat_app. simpl. by rewrite app_nil_r.
    + exists (Nat.min k (length bodies)). rewrite S7, take_app_le by lia. f_equal.
      rewrite <- (firstn_all bodies) at 1. by rewrite take_take.
  - cbn [with_to_server issues with_client issued the_client unbound happened].
    split; [|split; [exact Hids'|rewrite En, length_app; simpl; lia]].
    rewrite Ep. change id with (rq_request_id rq). by apply calls_inv_call.
Qed.

Lemma net_inv_bind s k now s' :
  net_inv s -> step copts sopts reg fd token s (ABind k now) = Some s' -> net_inv s'.
Proof.
  intros (evs & bodies & done & got & D & HS & HR & HC & Hids & Hn) E. cbn [step] in E.
  destruct (unbound s !! k) as [i|] eqn:Ek; [|done]. destruct (issued s !! i) as [rq|] eqn:Ei; [|done].
  unfold CallAsync_bind in E.
  pose proof (calls_inv_bind _ _ _ _ _ k i rq (now + recv_timeout copts) Hids HC Ek Ei) as Hb.
  destruct (BindAsync _ _ _ _) as [[bound t'] e]. destruct Hb as [-> Hb]. injection E as <-.
  exists evs, bodies, done, got, D. split; [by destruct HS; split|]. split; [exact HR|]. done.
Qed.

(** An event of the connection changes nothing at the client. *)
Lemma net_inv_serve s s0 ev evs bodies done done' got D :
  server_inv sopts reg mode fd token s evs bodies done got -> client_read s got D ->
  calls_inv (pending_calls_ (the_client s)) (unbound s) (issued s) D (happened s) ->
  ids_ok (issued s) -> next_id_ (the_client s) = Z.of_nat (length (issued s)) ->
  within (issued s) -> calm (the_connection s) ev ->
  the_connection s0 = the_connection s -> to_client s0 = to_client s ->
  (the_client s0, the_dispatcher s0, unbound s0, issued s0, happened s0) =
    (the_client s, the_dispatcher s, unbound s, issued s, happened s) ->
  match ev with
  | EvEnqueue r => exists d, r = respond reg fd token d /\ done' = done ++ [d] /\
                     pool s ≡ₚ d :: pool s0 /\ to_server s0 = to_server s
  | EvKernel _ rs _ _ => done' = done /\ pool s0 = pool s /\ to_server s = script_bytes rs ++ to_server s0
  | _ => done' = done /\ pool s0 = pool s /\ to_server s0 = to_server s
  end ->
  net_inv (serve sopts reg ev s0).
Proof.
  intros HS HR HC Hids Hn (Hg & Hf & _) Hev E1 E2 E3 Hd. injection E3 as F1 F2 F3 F4 F5.
  exists (evs ++ [ev]), bodies, done', got, D. split; [by eapply serve_inv|].
  unfold client_read in *. cbn [serve the_client the_dispatcher unbound issued happened].
  rewrite F1, F2, F3, F4, F5. done.
Qed.

Lemma net_inv_server s ev s' :
  net_inv s -> within (issued s) ->
  step copts sopts reg fd token s (AServer ev) = Some s' -> net_inv s'.
Proof.
  intros (evs & bodies & done & got & D & HS & HR & HC & Hids & Hn) Hw E. cbn [step] in E.
  destruct ev as [| | |now|r|clk rs ss subs]; try done.
  - injection E as <-. by apply (net_inv_serve s s EvReadable evs bodies done done got D).
  - injection E as <-. by apply (net_inv_serve s s EvWritable evs bodies done done got D).
  - destruct (expired _ _) eqn:Ex; [done|]. injection E as <-.
    by apply (net_inv_serve s s (EvTick now) evs bodies done done got D).
  - destruct (forallb quiet_recv rs && forallb quiet_send ss && forallb id subs) eqn:Eq; [|done].
    destruct (after _ _) as [rest|] eqn:Ea; [|done]. injection E as <-. apply after_spec in Ea.
    apply (net_inv_serve s _ _ evs bodies done done got D); try done.
    apply andb_true_iff in Eq as [[Q1 Q2]%andb_true_iff Q3].
    rewrite !forallb_forall in Q1, Q2, Q3.
    split; [|split]; apply List.Forall_forall; [exact Q1|exact Q2|exact Q3].
Qed.

Lemma net_inv_pool s k s' :
  net_inv s -> within (issued s) ->
  step copts sopts reg fd token s (APool k) = Some s' -> net_inv s'.
Proof.
  intros (evs & bodies & done & got & D & HS & HR & HC & Hids & Hn) Hw E. cbn [step] in E.
  destruct (pool s !! k) as [d|] eqn:Ek; [|done]. injection E as <-.
  pose proof (delete_Permutation _ _ _ Ek) as Hp.
  set (s1 := serve sopts reg (EvEnqueue _) _).
  enough (net_inv s1) as (evs1 & bodies1 & done1 & got1 & D1 & HS1 & HR1 & HC1 & Hids1 & Hn1).
  { by apply (net_inv_serve s1 s1 EvReadable evs1 bodies1 done1 done1 got1 D1). }
  apply (net_inv_serve s _ _ evs bodies done (done ++ [d]) got D); try done; [|by exists d].
  cbn [calm]. destruct Hw as (Hg & Hf & _). pose proof HS as [_ _ S3 _ _ S6 [j S7] _].
  pose proof (handed_responses reg mode fd token (take j (issued s)) (take j bodies)) as Hh.
  rewrite <- S7 in Hh.
  assert (respond reg fd token d ∈ map (respond reg fd token) (dispatched (the_connection s))) as Hin.
  { apply (list_elem_of_fmap_2 (respond reg fd token)). rewrite S6. apply elem_of_app. right.
    by eapply list_elem_of_lookup_2. }
  rewrite Hh in Hin; [|by apply Forall_take|by apply Forall2_take].
  apply list_elem_of_In, in_map_iff in Hin as (rq & <- & [Hq _]%List.filter_In).
  apply list_elem_of_In in Hq. apply (subseteq_take j (issued s)) in Hq.
  rewrite Forall_forall in Hg. apply (go_sendable _ _ (Hg rq Hq)).
Qed.

Lemma ids_nodup rqs : ids_ok rqs -> NoDup (map rq_request_id rqs).
Proof.
  intros Hi. apply NoDup_fmap_2_strong; [|apply NoDup_alt].
  - intros r1 r2 [i E1]%list_elem_of_lookup [j E2]%list_elem_of_lookup E.
    pose proof (ids_inj _ _ _ _ _ Hi E1 E2 E). congruence.
  - intros i j rq E1 E2. by eapply (ids_inj rqs).
Qed.

Lemma responses_known rqs R :
  ids_ok rqs -> R ⊆+ map (served reg) rqs ->
  NoDup (map rs_request_id R) /\
  Forall (fun r => exists rq, rq ∈ rqs /\ rs_request_id r = rq_request_id rq) R.
Proof.
  intros Hi Hs. split.
  - apply (map_submseteq rs_request_id) in Hs. rewrite map_map in Hs.
    rewrite (map_ext _ rq_request_id) in Hs by apply served_id.
    apply submseteq_Permutation in Hs as [l Hl]. pose proof (ids_nodup rqs Hi) as Hn.
    rewrite Hl in Hn. by apply NoDup_app in Hn as [Hn _].
  - apply Forall_forall. intros r Hr. apply (elem_of_submseteq _ _ _ Hr) in Hs.
    apply list_elem_of_In, in_map_iff in Hs as (rq & <- & Hq). exists rq.
    split; [by apply list_elem_of_In|apply served_id].
Qed.

Lemma net_inv_read s now script s' :
  net_inv s -> within (issued s) ->
  step copts sopts reg fd token s (ARead now script) = Some s' -> net_inv s'.
Proof.
  intros (evs & bodies & done & got & D & HS & HR & HC & Hids & Hn) (Hg & Hf & _) E. cbn [step] in E.
  destruct (forallb clean_event script) eqn:Ec; [|done].
  destruct (after _ _) as [rest|] eqn:Ea; [|done]. apply after_spec in Ea.
  destruct (responses_view sopts reg mode fd token s evs bodies done got D Hg Hf HS HR) as
    (D' & bs' & F' & Eb & Hsub & _).
  rewrite Ea, <- app_assoc, app_assoc, <- (app_nil_r (concat _)) in Eb.
  destruct (frames_loop_prefix on_response_body on_bad_length (rest ++ unsent (the_connection s)) []
    (read_buffer (the_dispatcher s) ++ script_bytes script) bs' (pending_calls_ (the_client s), [])
    (encodes_fits _ _ F') eq_refl Eb) as (seen & later & -> & Hl).
  apply Forall2_app_inv_l in F' as (D1 & D2 & F1 & F2 & ->).
  rewrite (handle_all_responses seen D1) in Hl.
  2: { clear -F1. induction F1 as [|b r bs rs (Sb & Vb & _)]; constructor; [|done]. by apply parse_serialize. }
  assert (clean_script script) as Hclean by (apply List.Forall_forall; by apply forallb_forall).
  pose proof (readable_clean (the_client s) (the_dispatcher s) now script Hclean) as Hr.
  destruct (frames_loop _ _ _ _) as [[ok [t es]] remain]. destruct Hl as [[= -> Hl] Hok].
  destruct (readable_iteration _ _ _ _) as [[c d] es']. destruct Hr as (-> & Hr & _).
  destruct (Hr eq_refl) as [-> Hbuf]. destruct (Hok eq_refl) as [Hview Hrest]. injection E as <-.
  destruct (responses_known _ _ Hids Hsub) as [Hnd Hk]. rewrite app_assoc, map_app in Hnd.
  apply NoDup_app in Hnd as (Hnd & _ & _). rewrite app_assoc in Hk. apply Forall_app in Hk as [Hk _].
  apply Forall_app in Hk as [_ Hk].
  pose proof (calls_inv_responses _ _ Hids D1 _ D _ HC Hnd Hk) as HC'. rewrite <- Hl in HC'.
  destruct HR as [(bs & Hbs & Egot) _].
  exists evs, bodies, done, (got ++ script_bytes script), (D ++ D1). split; [|split; [|done]].
  - destruct HS as [S1 S2 S3 S4 S5 S6 S7 S8]. split; try done.
    cbn [happens reads with_client the_connection to_client]. by rewrite S8, Ea, app_assoc.
  - unfold client_read. cbn [happens reads with_client the_dispatcher]. rewrite Hbuf. split; [|done].
    exists (bs ++ seen). split; [by apply Forall2_app|]. apply (app_inv_tail (rest ++ unsent (the_connection s))).
    rewrite Egot, map_app, concat_app, <- !app_assoc. f_equal.
    rewrite Hrest, app_nil_r, app_assoc, Eb, app_nil_r, map_app, concat_app. done.
Qed.

Lemma step_issued s a s' :
  step copts sopts reg fd token s a = Some s' -> prefix (issued s) (issued s').
Proof.
  intros E. destruct a as [ce sv m p sc|k now|ev|k|now sc]; cbn [step] in E.
  - repeat split_match_in E; simplify_eq/=. by apply prefix_app_r.
  - repeat split_match_in E; by simplify_eq/=.
  - destruct ev; repeat split_match_in E; by simplify_eq/=.
  - repeat split_match_in E; by simplify_eq/=.
  - repeat split_match_in E; by simplify_eq/=.
Qed.

Lemma steps_issued acts : forall s s',
  steps copts sopts reg fd token s acts = Some s' -> prefix (issued s) (issued s').
Proof.
  induction acts as [|a acts IH]; intros s s' E; [by injection E as <-|]. cbn [steps] in E.
  destruct (step _ _ _ _ _ s a) as [s1|] eqn:Ea; [|done].
  etransitivity; [by eapply step_issued|by apply IH].
Qed.

Lemma step_inv s a s' :
  net_inv s -> step copts sopts reg fd token s a = Some s' -> within (issued s') -> net_inv s'.
Proof.
  intros Hs E Hw. pose proof (within_prefix _ _ (step_issued _ _ _ E) Hw) as Hw0.
  destruct a; [by eapply net_inv_call|by eapply net_inv_bind|by eapply net_inv_server|
               by eapply net_inv_pool|by eapply net_inv_read].
Qed.

Lemma steps_inv acts : forall s s',
  net_inv s -> steps copts sopts reg fd token s acts = Some s' -> within (issued s') -> net_inv s'.
Proof.
  induction acts as [|a acts IH]; intros s s' Hs E Hw; [by injection E as <-|]. cbn [steps] in E.
  destruct (step _ _ _ _ _ s a) as [s1|] eqn:Ea; [|done]. apply (IH s1); [|done..].
  eapply step_inv; [done..|]. eapply within_prefix; [by eapply steps_issued|done].
Qed.

End steps.
