(* ===== verification/WorkerPeer.v ===== *)
(** * What a peer of a worker sees

    The contract of the server with a client that sends requests and reads what comes back: it
    holds for every connection of a worker at once, whatever the others send. *)

From Stdlib Require Import ZArith Lia.
From S2P Require Import Prelude RpcError Posix Codec Frames PendingCalls ServiceRegistry Proto3 ConnBuffer.
From S2P Require Import EventLoop RpcClient Connection ConnHistory WorkerLoop WorkerServe Network.

Local Open Scope string_scope.
Local Open Scope list_scope.
Local Open Scope nat_scope.

Section peer.
Context `{ProtoLaws RpcRequest} `{ProtoLaws RpcResponse}.
Context (reg : registry).

(** The connection's own answers to the bodies of requests. *)
Lemma carried_replies rqs bodies :
  Forall proto_valid rqs -> Forall2 carries rqs bodies ->
  omap (reply reg false) bodies = map (served reg) rqs.
Proof.
  intros Hv Hc. induction Hc as [|rq b rqs bodies Hc _ IH]; [done|]. apply Forall_cons in Hv as [Hr Hv].
  cbn [omap list_omap map]. rewrite (body_reply reg false rq b Hr Hc). unfold direct. cbn [negb].
  rewrite orb_true_r. by rewrite IH.
Qed.

Lemma concat_frames_nil bodies : concat (map frame_of bodies) = [] -> bodies = [].
Proof. by destruct bodies. Qed.

Lemma framed_fits outs rs : Forall2 framed outs rs -> Forall fits outs.
Proof. induction 1 as [|b r outs rs [_ Hb]]; by constructor. Qed.

Lemma framed_parse outs rs :
  Forall2 framed outs rs -> Forall proto_valid rs ->
  Forall2 (fun b r => ParseFromArray b = Some r) outs rs.
Proof.
  induction 1 as [|b r outs rs [Hs _] _ IH]; intros Hv; [done|]. apply Forall_cons in Hv as [Hr Hv].
  constructor; [by apply parse_serialize|auto].
Qed.

Lemma Forall_submseteq {A} (P : A -> Prop) l k : l ⊆+ k -> Forall P k -> Forall P l.
Proof. intros Hs Hf. apply Forall_forall. intros x Hx. rewrite Forall_forall in Hf. apply Hf. by eapply elem_of_submseteq. Qed.

End peer.

(** C3: every client of a worker gets answers to its own requests, each at most once, and all of
    them in the end.  Take any connection of a worker, among any others, and a client behind it
    whose requests have arrived as far as they have.  Cut what the worker has sent on this
    connection into frames: each is the answer to one of these requests, as the registered handler
    gives it, and no request is answered twice; and when all the requests have been read, none is
    in the pool or in the completion queue and everything has been sent, the answers are those to
    all the requests. *)
Theorem worker_peer_contract `{ProtoLaws RpcRequest} `{ProtoLaws RpcResponse} (reg : registry)
    (pool : bool) (tid : nat) (epoll evfd : Z) (ops : list op) fd st rqs bodies seen more :
  (0 <= epoll)%Z -> (0 <= evfd)%Z -> (Z.of_nat (length ops) < two64)%Z ->
  let s := run reg tid (started pool tid epoll evfd) ops in
  let w := worker s in
  let c := connection st in
  let t := connection_token st in
  point s <> AtEnded -> connections_ w !! fd = Some st ->
  Forall2 carries rqs bodies ->
  Forall (fun rq => proto_valid rq /\ proto_valid (served reg rq)) rqs ->
  stream_to reg tid (started pool tid epoll evfd) ops t `prefix_of` concat (map frame_of bodies) ->
  Forall fits seen -> wire c = concat (map frame_of seen) ++ more ->
  exists answers, Forall2 (fun b r => ParseFromArray b = Some r) seen answers /\
    answers ⊆+ map (served reg) rqs /\
    (stream_to reg tid (started pool tid epoll evfd) ops t = concat (map frame_of bodies) ->
     contents (read_buffer_ c) = [] -> script_bytes (recv_script c) = [] ->
     with_token t (execs reg (tasks w) ++ queued w) = [] -> more = [] -> unsent c = [] ->
     answers ≡ₚ map (served reg) rqs).
Proof.
  intros H1' H2' Hl s w c t Hp Hst Hc Hv [future Ha] Hs Hw.
  destruct (worker_connection_served reg pool tid epoll evfd ops H1' H2' Hl Hp fd st Hst)
    as (taken & rs & outs & Hft & Hin & Hfr & Ho & Hr). fold s w c t in Hin, Ho, Hr.
  rewrite Hw, <- app_assoc in Ho.
  destruct (frames_prefix seen outs _ Hs (framed_fits _ _ Hfr) Ho) as (unseen & -> & Hmore).
  apply Forall2_app_inv_l in Hfr as (answers & others & Hfr & Hfr' & ->).
  rewrite Hin, <- !app_assoc in Ha.
  destruct (frames_prefix taken bodies _ Hft (carries_fits _ _ Hc) (eq_sym Ha)) as (later & -> & Hlater).
  apply Forall2_app_inv_r in Hc as (r1 & r2 & C1 & C2 & ->).
  assert (Forall proto_valid r1) as Hv1.
  { apply Forall_app in Hv as [Hv _]. eapply Forall_impl; [exact Hv|]. by intros rq []. }
  rewrite (carried_replies reg r1 taken Hv1 C1) in Hr.
  assert (answers ⊆+ map (served reg) (r1 ++ r2)) as Hsub.
  { rewrite map_app, <- Hr, <- !app_assoc. by apply submseteq_inserts_r. }
  exists answers. split.
  - apply framed_parse; [done|]. eapply Forall_submseteq; [exact Hsub|].
    apply Forall_map. eapply Forall_impl; [exact Hv|]. by intros rq [].
  - split; [done|]. intros Hall Hc0 Hs0 Hw0 -> Hu0. rewrite Hu0 in Hmore. cbn in Hmore.
    symmetry in Hmore. apply concat_frames_nil in Hmore as ->.
    apply Forall2_nil_inv_l in Hfr' as ->. rewrite Hw0, !app_nil_r in Hr.
    rewrite Hall, Hc0, Hs0, !app_nil_r in Hin. rewrite map_app, concat_app in Hin.
    assert (concat (map frame_of later) = []) as ->%concat_frames_nil.
    { apply (app_inv_head (concat (map frame_of taken))). by rewrite Hin, app_nil_r. }
    apply Forall2_nil_inv_r in C2 as ->. by rewrite app_nil_r.
Qed.

(** ** Two peers *)

Definition w_out : epoll_flags := {| ev_in := false; ev_out := true; ev_close := false |}.

Definition peer_request (id : string) : RpcRequest :=
  {| rq_request_id := id; rq_service_name := "Calc"; rq_method_name := "Add"; rq_payload := "12" |}.

Definition peer_stream : bytes := frame_of (w_call "1") ++ frame_of (w_call "2").

(** Two connections use the same request identifier; the pool runs the tasks in the opposite
    order, and the second peer has received only a part of its answer. *)
Definition peer_ops : list op :=
  [OpEnqueue 7 "a"; OpEnqueue 8 "b"; OpWorker (w_env 1 [(5%Z, w_in)])] ++
  replicate 4 (OpWorker (w_env 1 [])) ++
  [OpKernel 7 2 [RecvBytes peer_stream] [SendOk 100; SendOk 100] [];
   OpKernel 8 2 [RecvBytes (frame_of (w_call "1"))] [SendOk 4] [];
   OpWorker (w_env 2 [(7%Z, w_in); (8%Z, w_in)]); OpWorker (w_env 2 []);
   OpRunTask 2; OpRunTask 1; OpRunTask 0; OpWake; OpWorker (w_env 3 [(5%Z, w_in)])] ++
  replicate 4 (OpWorker (w_env 3 [])) ++
  [OpWorker (w_env 4 [(7%Z, w_out); (8%Z, w_out)]); OpWorker (w_env 4 [])].

Definition peer_seen : list bytes :=
  [encode_response (served w_registry (peer_request "2")); encode_response (served w_registry (peer_request "1"))].

Lemma worker_peer_contract_witness : exists answers,
  Forall2 (fun b r => ParseFromArray b = Some r) peer_seen answers /\
  answers ≡ₚ map (served w_registry) [peer_request "1"; peer_request "2"].
Proof.
  destruct (connections_ (worker (run w_registry 1 (started true 1 4 5) peer_ops)) !! 7%Z) as [st|] eqn:E;
    [|exfalso; vm_compute in E; discriminate].
  assert (connection_token st = 1%Z /\ wire (connection st) = concat (map frame_of peer_seen) ++ [] /\
    contents (read_buffer_ (connection st)) = [] /\ script_bytes (recv_script (connection st)) = [] /\
    unsent (connection st) = []) as (Et & Ew & Ec & Er & Eu)
    by (vm_compute in E; injection E as <-; split_and!; vm_compute; reflexivity).
  assert (stream_to w_registry 1 (started true 1 4 5) peer_ops 1 =
    concat (map frame_of [w_call "1"; w_call "2"])) as Ea by (vm_compute; reflexivity).
  destruct (worker_peer_contract w_registry true 1 4 5 peer_ops 7%Z st
    [peer_request "1"; peer_request "2"] [w_call "1"; w_call "2"] peer_seen [])
    as (answers & Hp & _ & Hall).
  - lia.
  - lia.
  - vm_compute. reflexivity.
  - vm_compute. congruence.
  - exact E.
  - repeat constructor; vm_compute; congruence.
  - repeat constructor; vm_compute; congruence.
  - rewrite Et, Ea. done.
  - repeat constructor; vm_compute; congruence.
  - exact Ew.
  - exists answers. split; [exact Hp|]. rewrite Et in Hall. apply Hall; [exact Ea|exact Ec|exact Er| |done|exact Eu].
    vm_compute. reflexivity.
Defined.
