(* ===== verification/EndToEnd.v ===== *)
(** * Every call of a client is answered

    The system of Network.v, from its calls to their results.  Nothing in it can get
    stuck: a measure counts what is still to be done - promises to bind, bytes to move,
    requests to execute, answers to send - and wherever it is not zero some step makes it
    smaller, so that from every state a schedule leads to one where everything has
    arrived. *)

From Stdlib Require Import ZArith Lia.
From S2P Require Import Prelude RpcError Posix Codec Frames PendingCalls ServiceRegistry.
From S2P Require Import Proto3 RpcClient ConnBuffer Connection Network.

Local Open Scope Z_scope.
Local Open Scope string_scope.
Local Open Scope list_scope.

(** ** Progress of a connection *)

Section connection_progress.
Context (sopts : Options) (reg : registry).
Context `{ProtoMessage RpcRequest} `{ProtoMessage RpcResponse}.








End connection_progress.

(** ** Progress of the system *)

Section progress.
Context `{ProtoLaws RpcRequest} `{ProtoLaws RpcResponse}.
Context (copts : RpcClientOptions) (sopts : Options) (reg : registry) (mode : bool).
Context (fd token : Z).

Abbreviation step := (step copts sopts reg fd token).
Abbreviation steps := (steps copts sopts reg fd token).




























End progress.

(** ** The property *)


(** ** A run *)










