(* ===== verification/Calls.v ===== *)
(** * The calls of a client

    What the operations of a client do to its table of calls, whatever its connection does:
    which operation settles which promise, and where the results come from. *)

From Stdlib Require Import ZArith Lia.
From S2P Require Import Prelude RpcError Posix Codec Frames PendingCalls ServiceRegistry.
From S2P Require Import Proto3 EventLoop RpcClient ConnBuffer Connection Network.

Local Open Scope Z_scope.
Local Open Scope string_scope.
Local Open Scope list_scope.

(** What the [recv] loop of a readable event takes. *)
Definition drained (script : list recv_event) : bytes := fst (fst (drain script [] false)).

(** Nothing, or one whole frame. *)
Definition whole (w : bytes) : bool :=
  match w with
  | [] => true
  | _ => match view_frame w with FFrame _ [] => true | _ => false end
  end.


(** What a run of operations leaves to wait: a promise stored in some slot. *)
Definition waits (t : table) (p : nat) : Prop :=
  exists id sl, t !! id = Some sl /\ async_promise sl = Some p.

(** Operations of the client that forget nobody. *)
Definition gentle (op : Op) : bool :=
  match op with
  | OpAdd _ | OpBindAsync _ _ _ | OpComplete _ _ | OpTryPop _ | OpFailAll _ | OpFailTimedOut _ _ => true
  | _ => false
  end.

Lemma elem_of_fulfilled p es : p ∈ fulfilled es <-> exists r, SetValue p r ∈ es.
Proof. apply elem_of_promises. Qed.

Lemma waits_fail sel mark t p :
  (forall s, async_promise (mark s) = async_promise s) -> waits t p ->
  waits (fail_table sel mark t) p \/ p ∈ fulfilled (fail_effects sel mark t).
Proof.
  intros Hm (id & sl & E & Ep). destruct (sel sl) eqn:Es.
  - right. apply elem_of_fulfilled. exists (result (mark sl)). apply elem_of_SetValue_fail.
    exists id, sl. by rewrite Hm.
  - left. exists id, sl. rewrite fail_table_lookup, E. simpl. by rewrite Es.
Qed.

Lemma waits_insert t id sl p : waits t p ->
  (forall sl0, t !! id = Some sl0 -> async_promise sl0 = None) -> waits (<[id:=sl]> t) p.
Proof.
  intros (id' & sl' & E & Ep) Hn. exists id', sl'. destruct (decide (id = id')) as [->|Hne].
  - rewrite (Hn sl' E) in Ep. done.
  - by rewrite lookup_insert_ne.
Qed.

Lemma waits_delete t id p : waits t p ->
  (forall sl0, t !! id = Some sl0 -> async_promise sl0 = None) -> waits (delete id t) p.
Proof.
  intros (id' & sl' & E & Ep) Hn. exists id', sl'. destruct (decide (id = id')) as [->|Hne].
  - rewrite (Hn sl' E) in Ep. done.
  - by rewrite lookup_delete_ne.
Qed.

(** A promise that waits is fulfilled or goes on waiting. *)
Lemma step_waits t op p :
  table_wf t -> gentle op = true -> waits t p ->
  waits (fst (PendingCalls.step t op)) p \/ p ∈ fulfilled (snd (PendingCalls.step t op)).
Proof.
  intros [_ Hwf] Hg Hw. destruct op as [id|id q dl| |id r| | |id| |r|now r]; try done; cbn [PendingCalls.step].
  - left. unfold Add. destruct (str_empty id); [done|]. destruct (t !! id) eqn:E; [done|].
    apply waits_insert; [done|]. congruence.
  - left. unfold BindAsync. destruct (t !! id) as [sl|] eqn:E; [|done].
    assert (async_bound sl = false \/ done sl = true -> async_promise sl = None) as Hn.
    { intros Hb. destruct (async_promise sl) as [q'|] eqn:Eq; [|done].
      destruct (wf_promise sl (Hwf id sl E)) as [H1 H2]; [by rewrite Eq|]. naive_solver congruence. }
    destruct (async_bound sl) eqn:Eb; [done|]. destruct (coroutine_bound sl); [done|].
    destruct (done sl) eqn:Ed; simpl; [apply waits_delete|apply waits_insert]; try done;
      intros sl0 E0; simplify_eq; auto.
  - unfold Complete. destruct (t !! id) as [sl|] eqn:E; [|by left].
    destruct (done sl); [by left|]. simpl. destruct (async_promise sl) as [q|] eqn:Eq; simpl.
    + destruct (decide (p = q)) as [->|Hne]; [right; apply list_elem_of_here|left].
      destruct Hw as (id' & sl' & E' & Ep'). exists id', sl'. split; [|done].
      apply lookup_delete_Some. split; [|done]. intros ->. congruence.
    + left. destruct (bound_handle _); simpl; (apply waits_insert; [done|]); congruence.
  - left. unfold TryPop. destruct (t !! id) as [sl|] eqn:E; [|done].
    destruct (done sl) eqn:Ed; simpl; [|done]. apply waits_delete; [done|].
    intros sl0 E0. rewrite E in E0. injection E0 as <-. destruct (async_promise sl) eqn:Eq; [|done].
    destruct (wf_promise sl (Hwf id sl E)) as [_ H2]; [by rewrite Eq|]. congruence.
  - apply waits_fail; [|done]. intros s. unfold fail_all_mark. by destruct (done s).
  - by apply waits_fail.
Qed.

Lemma run_waits ops p : forall t,
  table_wf t -> Forall (fun op => gentle op = true) ops -> waits t p ->
  waits (fst (run t ops)) p \/ p ∈ fulfilled (snd (run t ops)).
Proof.
  induction ops as [|op ops IH]; intros t Hwf Hg Hw; [by left|]. apply Forall_cons in Hg as [H1 Hg].
  cbn [run]. pose proof (step_wf t op Hwf) as Hwf1. pose proof (step_waits t op p Hwf H1 Hw) as Hs.
  destruct (PendingCalls.step t op) as [t1 e1]. cbn [fst snd] in *.
  destruct Hs as [Hs|Hs].
  - specialize (IH t1 Hwf1 Hg Hs). destruct (run t1 ops) as [t2 e2]. cbn [fst snd] in *.
    rewrite fulfilled_app, elem_of_app. tauto.
  - destruct (run t1 ops) as [t2 e2]. cbn [fst snd]. rewrite fulfilled_app, elem_of_app. tauto.
Qed.

(** Operations of the dispatcher and of [Close]: they finish calls. *)
Definition sweeping (op : Op) : bool :=
  match op with OpComplete _ _ | OpFailAll _ | OpFailTimedOut _ _ => true | _ => false end.

(** A slot without a waiter. *)
Definition free (t : table) (id : string) : Prop :=
  exists sl, t !! id = Some sl /\ async_bound sl = false /\ coroutine_bound sl = false.

Lemma free_fail sel mark t id :
  (forall s, async_bound (mark s) = async_bound s /\ coroutine_bound (mark s) = coroutine_bound s) ->
  free t id -> free (fail_table sel mark t) id.
Proof.
  intros Hm (sl & E & F1 & F2). unfold free. rewrite fail_table_lookup, E. simpl. eexists. split; [done|].
  destruct (Hm sl) as [M1 M2]. destruct (sel sl); [|done].
  unfold collect_waiter, bound_handle. cbn. rewrite M2, F2. cbn. by rewrite M1, M2.
Qed.

Lemma step_free t op id :
  table_wf t -> sweeping op = true -> free t id -> free (fst (PendingCalls.step t op)) id.
Proof.
  intros [_ Hwf] Hs Hf. destruct op as [| | |id' r| | | | |r|now r]; try done; cbn [PendingCalls.step].
  - unfold Complete. destruct (t !! id') as [sl|] eqn:E; [|done]. destruct (done sl); [done|].
    destruct Hf as (sl0 & E0 & F1 & F2). destruct (decide (id = id')) as [->|Hne].
    + assert (sl0 = sl) as -> by congruence. pose proof (Hwf id' sl E) as [_ Hp _]. simpl.
      destruct (async_promise sl); [destruct Hp; [done|congruence]|].
      unfold bound_handle. simpl. rewrite F2. simpl. eexists. by rewrite lookup_insert_eq.
    + exists sl0. simpl. destruct (async_promise sl); [simpl; by rewrite lookup_delete_ne|].
      destruct (bound_handle _); simpl; by rewrite lookup_insert_ne.
  - apply free_fail; [|done]. intros s. unfold fail_all_mark. by destruct (done s).
  - by apply free_fail.
Qed.

Lemma run_free ops id : forall t,
  table_wf t -> Forall (fun op => sweeping op = true) ops -> free t id -> free (fst (run t ops)) id.
Proof.
  induction ops as [|op ops IH]; intros t Hwf Hs Hf; [done|]. apply Forall_cons in Hs as [H1 Hs].
  cbn [run]. pose proof (step_wf t op Hwf) as Hwf1. pose proof (step_free t op id Hwf H1 Hf) as Hf1.
  destruct (PendingCalls.step t op) as [t1 e1]. specialize (IH t1 Hwf1 Hs Hf1).
  by destruct (run t1 ops).
Qed.

(** A call whose response is awaited. *)
Definition awaited (t : table) (id : string) : Prop := exists sl, t !! id = Some sl /\ done sl = false.

Lemma settled_awaited t id : settled t -> ~ awaited t id.
Proof. intros Hs (sl & E & Ed). destruct (Hs id sl E). congruence. Qed.

Lemma awaited_fail sel mark t id :
  (forall s, done s = true -> done (mark s) = true) -> awaited (fail_table sel mark t) id -> awaited t id.
Proof.
  intros Hm (sl & E & Ed). rewrite fail_table_lookup in E. destruct (t !! id) as [s|] eqn:Es; [|done].
  injection E as <-. exists s. split; [done|]. destruct (sel s); [|done].
  rewrite (proj1 (collect_waiter_fields _)) in Ed. destruct (done s) eqn:Eds; [|done].
  rewrite (Hm s Eds) in Ed. done.
Qed.

(** Only a new call is awaited that was not before. *)
Lemma step_awaited t op id :
  gentle op = true -> awaited (fst (PendingCalls.step t op)) id -> awaited t id \/ op = OpAdd id.
Proof.
  intros Hg. destruct op as [id'|id' q dl| |id' r| | |id'| |r|now r]; try done; cbn [PendingCalls.step].
  - unfold Add. destruct (str_empty id'); [by left|]. destruct (t !! id'); [by left|]. cbn [fst snd].
    intros (sl & E & Ed). destruct (decide (id' = id)) as [->|Hne]; [by right|left]. exists sl. by rewrite lookup_insert_ne in E.
  - intros Ha. left. revert Ha. unfold BindAsync. destruct (t !! id') as [sl'|] eqn:E'; [|done].
    destruct (async_bound sl'); [done|]. destruct (coroutine_bound sl'); [done|].
    destruct (done sl') eqn:Ed'; cbn [fst snd]; intros (sl & E & Ed).
    + apply lookup_delete_Some in E as [_ E]. by exists sl.
    + destruct (decide (id' = id)) as [<-|Hne]; [by exists sl'|]. exists sl. by rewrite lookup_insert_ne in E.
  - intros Ha. left. revert Ha. unfold Complete. destruct (t !! id') as [sl'|] eqn:E'; [|done].
    destruct (done sl') eqn:Ed'; [done|].
    destruct (decide (id' = id)) as [<-|Hne]; [intros _; by exists sl'|].
    cbv zeta. destruct (async_promise _); [|destruct (bound_handle _)]; cbn [fst snd]; intros (sl & E & Ed); exists sl.
    + by rewrite lookup_delete_ne in E.
    + by rewrite lookup_insert_ne in E.
    + by rewrite lookup_insert_ne in E.
  - intros Ha. left. revert Ha. unfold TryPop. destruct (t !! id') as [sl'|]; [|done].
    destruct (done sl'); [|done]. cbn [fst snd negb]. intros (sl & [_ E]%lookup_delete_Some & Ed). by exists sl.
  - intros Ha. left. apply (awaited_fail (fun _ => true) (fail_all_mark r)); [|exact Ha].
    intros s Es. unfold fail_all_mark. by rewrite Es.
  - intros Ha. left. by apply (awaited_fail (times_out now) (fun s => finish s r)).
Qed.

Lemma run_awaited ops id : forall t,
  Forall (fun op => gentle op = true) ops -> awaited (fst (run t ops)) id -> awaited t id \/ OpAdd id ∈ ops.
Proof.
  induction ops as [|op ops IH]; intros t Hg Ha; [by left|]. apply Forall_cons in Hg as [H1 Hg].
  cbn [run] in Ha. pose proof (step_awaited t op id H1) as Hs.
  destruct (PendingCalls.step t op) as [t1 e1]. cbn [fst] in Hs.
  destruct (IH t1 Hg) as [Ha1|Hin]; [by destruct (run t1 ops)| |right; by right].
  destruct (Hs Ha1) as [?| ->]; [by left|right; left].
Qed.

(** A response ends the wait. *)
Lemma complete_awaited t id r : ~ awaited (fst (PendingCalls.step t (OpComplete id r))) id.
Proof.
  intros (sl & E & Ed). revert E. cbn [PendingCalls.step]. unfold Complete.
  destruct (t !! id) as [s|] eqn:Es; [|cbn; congruence]. destruct (done s) eqn:Eds; [cbn; congruence|].
  cbv zeta. destruct (async_promise _); [|unfold unbind_coroutine; destruct (bound_handle _)]; cbn [fst snd].
  - by rewrite lookup_delete_eq.
  - rewrite lookup_insert_eq. intros [= <-]. done.
  - rewrite lookup_insert_eq. intros [= <-]. done.
Qed.

Lemma completed_run ops id r : forall t,
  Forall (fun op => gentle op = true) ops -> OpComplete id r ∈ ops -> OpAdd id ∉ ops ->
  ~ awaited (fst (run t ops)) id.
Proof.
  induction ops as [|op ops IH]; intros t Hg Hin Hno Ha; [by apply not_elem_of_nil in Hin|].
  apply Forall_cons in Hg as [H1 Hg]. apply not_elem_of_cons in Hno as [_ Hno].
  cbn [run] in Ha. pose proof (complete_awaited t id r) as Hc.
  apply elem_of_cons in Hin as [<-|Hin].
  - destruct (PendingCalls.step t (OpComplete id r)) as [t1 e1]. cbn [fst] in Hc.
    destruct (run_awaited ops id t1 Hg) as [?|?]; [by destruct (run t1 ops)|done|done].
  - destruct (PendingCalls.step t op) as [t1 e1]. apply (IH t1 Hg Hin Hno). by destruct (run t1 ops).
Qed.

(** ** The calls of the client *)

Section calls.
Context (reg : registry).

(** Where an operation of the client comes from; [g] lifts the guarantee. *)
Definition op_ok (g : bool) (rqs : list RpcRequest) (op : Op) : Prop :=
  match op with
  | OpAdd _ | OpTryPop _ => True
  | OpBindAsync id p _ => exists rq, rqs !! p = Some rq /\ rq_request_id rq = id /\ id <> ""
  | OpComplete id r => g = true \/ RpcCallResult_ok r = false \/
      exists i rq, rqs !! i = Some rq /\ rq_request_id rq = id /\ r = mapped_result (served reg rq)
  | OpFailAll r | OpFailTimedOut _ r => RpcCallResult_ok r = false
  | _ => False
  end.

Lemma op_ok_mono g g' rqs rqs' op :
  (g = true -> g' = true) -> rqs `prefix_of` rqs' -> op_ok g rqs op -> op_ok g' rqs' op.
Proof.
  intros Hg Hp. destruct op; simpl; try done.
  - intros (rq & E & Hr). exists rq. split; [by eapply prefix_lookup_Some|done].
  - intros [?|[?|(i & rq & E & Hr)]]; [auto..|]. right. right. exists i, rq.
    split; [by eapply prefix_lookup_Some|done].
Qed.

Lemma op_ok_gentle g rqs op : op_ok g rqs op -> gentle op = true.
Proof. by destruct op. Qed.

Definition distinct (rqs : list RpcRequest) : Prop :=
  forall i j rq rq', rqs !! i = Some rq -> rqs !! j = Some rq' ->
    rq_request_id rq = rq_request_id rq' -> rq_request_id rq <> "" -> i = j.

(** The table [t] and the effects [es] come from the operations [ops]; every call is between
    its two phases, bound, or was over at once. *)
Record calls_ok (g : bool) (t : table) (es : list effect) (rqs : list RpcRequest) (unb : list nat)
    (rdy : list (nat * RpcCallResult)) (ops : list Op) : Prop := {
  ck_run : run ∅ ops = (t, es);
  ck_ops : Forall (op_ok g rqs) ops;
  ck_all : unb ++ promises_of ops ++ map fst rdy ≡ₚ seq 0 (length rqs);
  ck_unbound : forall i rq, i ∈ unb -> rqs !! i = Some rq ->
    rq_request_id rq <> "" /\ free t (rq_request_id rq);
  ck_ready : Forall (fun pr => RpcCallResult_ok (snd pr) = false) rdy;
  ck_bound : forall p, p ∈ promises_of ops -> p ∈ fulfilled es \/ waits t p;
  ck_ids : distinct rqs;
}.

Lemma calls_ok_wf g t es rqs unb rdy ops : calls_ok g t es rqs unb rdy ops -> table_wf t.
Proof. intros Hc. pose proof (run_wf ∅ ops table_wf_empty) as Hw. by rewrite (ck_run _ _ _ _ _ _ _ Hc) in Hw. Qed.

Lemma promises_of_app l1 l2 : promises_of (l1 ++ l2) = promises_of l1 ++ promises_of l2.
Proof. apply omap_app. Qed.

Lemma ck_run_app g t es rqs unb rdy ops ops2 t' e :
  calls_ok g t es rqs unb rdy ops -> run t ops2 = (t', e) -> run ∅ (ops ++ ops2) = (t', es ++ e).
Proof.
  intros Hc E. rewrite run_app, (ck_run _ _ _ _ _ _ _ Hc). cbn [fst snd]. by rewrite E.
Qed.

(** More operations that bind nothing. *)
Lemma calls_ok_ops g g' t es rqs unb rdy ops ops2 t' e :
  calls_ok g t es rqs unb rdy ops -> (g = true -> g' = true) ->
  Forall (op_ok g' rqs) ops2 -> promises_of ops2 = [] -> run t ops2 = (t', e) ->
  (forall id, free t id -> id ∈ map rq_request_id rqs -> free t' id) ->
  calls_ok g' t' (es ++ e) rqs unb rdy (ops ++ ops2).
Proof.
  intros Hc Hg Ho Ep E Hfree. pose proof (calls_ok_wf _ _ _ _ _ _ _ Hc) as Hwf.
  pose proof (ck_run_app _ _ _ _ _ _ _ _ _ _ Hc E) as Er. destruct Hc as [R O A U Y B I]. split.
  - exact Er.
  - apply Forall_app. split; [|done]. eapply Forall_impl; [exact O|]. intros op. by apply op_ok_mono.
  - by rewrite promises_of_app, Ep, app_nil_r.
  - intros i rq Hi Hq. destruct (U i rq Hi Hq) as [Hid Hf]. split; [done|]. apply Hfree; [done|].
    apply (list_elem_of_fmap_2 rq_request_id). by eapply list_elem_of_lookup_2.
  - done.
  - intros p. rewrite promises_of_app, Ep, app_nil_r. intros Hp. rewrite fulfilled_app, elem_of_app.
    destruct (B p Hp) as [Hb|Hb]; [tauto|].
    assert (Forall (fun op => gentle op = true) ops2) as Hgen.
    { eapply Forall_impl; [exact Ho|]. intros op. apply op_ok_gentle. }
    pose proof (run_waits ops2 p t Hwf Hgen Hb) as Hw. rewrite E in Hw. simpl in Hw. tauto.
  - done.
Qed.

Lemma sweeping_promises ops : Forall (fun op => sweeping op = true) ops -> promises_of ops = [].
Proof.
  unfold promises_of. induction 1 as [|op ops Hop Hs IH]; [done|]. simpl. by destruct op.
Qed.

(** Operations that finish calls. *)
Lemma calls_ok_sweep g g' t es rqs unb rdy ops ops2 t' e :
  calls_ok g t es rqs unb rdy ops -> (g = true -> g' = true) ->
  Forall (fun op => sweeping op = true) ops2 -> Forall (op_ok g' rqs) ops2 -> run t ops2 = (t', e) ->
  calls_ok g' t' (es ++ e) rqs unb rdy (ops ++ ops2).
Proof.
  intros Hc Hg Hs Ho E. pose proof (calls_ok_wf _ _ _ _ _ _ _ Hc) as Hwf.
  eapply calls_ok_ops; try done; [by apply sweeping_promises|]. intros id Hf _.
  pose proof (run_free ops2 id t Hwf Hs Hf) as Hf'. by rewrite E in Hf'.
Qed.

(** A request is sent. *)
Lemma calls_ok_add g t es rqs unb rdy ops rq t' :
  calls_ok g t es rqs unb rdy ops -> Add t (rq_request_id rq) = (true, t') ->
  (forall rq', rq' ∈ rqs -> rq_request_id rq' <> rq_request_id rq) ->
  calls_ok g t' es (rqs ++ [rq]) (unb ++ [length rqs]) rdy (ops ++ [OpAdd (rq_request_id rq)]).
Proof.
  intros Hc Ea Hnew. pose proof (calls_ok_wf _ _ _ _ _ _ _ Hc) as Hwf.
  assert (run t [OpAdd (rq_request_id rq)] = (t', [])) as Er by (cbn; by rewrite Ea).
  pose proof (ck_run_app _ _ _ _ _ _ _ _ _ _ Hc Er) as Hrun. rewrite app_nil_r in Hrun.
  unfold Add in Ea. destruct (str_empty _) eqn:Ee; [done|]. destruct (t !! _) eqn:Et; [done|].
  injection Ea as <-.
  assert (rq_request_id rq <> "") as Hne by (intros E; by rewrite E in Ee).
  destruct Hc as [R O A U Y B I]. split.
  - exact Hrun.
  - apply Forall_app. split; [|by repeat constructor]. eapply Forall_impl; [exact O|].
    intros op. apply op_ok_mono; [done|by apply prefix_app_r].
  - rewrite promises_of_app, length_app, seq_app. cbn. rewrite app_nil_r, <- A, <- !app_assoc.
    apply Permutation_app_head. rewrite (Permutation_app_comm [length rqs]). by rewrite <- app_assoc.
  - intros i rq' [Hi| ->%list_elem_of_singleton]%elem_of_app Hq.
    + assert (i < length rqs)%nat as Hl.
      { assert (i ∈ seq 0 (length rqs)) as Hs; [rewrite <- A; apply elem_of_app; by left|].
        apply elem_of_seq in Hs. lia. }
      rewrite lookup_app_l in Hq by done. destruct (U i rq' Hi Hq) as (Hid & sl & E & F1 & F2).
      split; [done|]. exists sl. rewrite lookup_insert_ne; [done|].
      apply not_eq_sym, Hnew. by eapply list_elem_of_lookup_2.
    + rewrite list_lookup_middle in Hq by done. injection Hq as <-. split; [done|].
      exists Slot_default. by rewrite lookup_insert_eq.
  - done.
  - intros p. rewrite promises_of_app. cbn. rewrite app_nil_r. intros Hp.
    destruct (B p Hp) as [Hb|Hb]; [by left|right]. apply waits_insert; [done|]. congruence.
  - intros i j r1 r2 [E1|[L1 [E1 <-]%list_lookup_singleton_Some]]%lookup_app_Some
      [E2|[L2 [E2 <-]%list_lookup_singleton_Some]]%lookup_app_Some Eid Hid.
    + by eapply I.
    + exfalso. apply (Hnew r1); [by eapply list_elem_of_lookup_2|done].
    + exfalso. apply (Hnew r2); [by eapply list_elem_of_lookup_2|done].
    + lia.
Qed.

(** A call that is over at once. *)
Lemma calls_ok_over g t es rqs unb rdy ops rq r :
  calls_ok g t es rqs unb rdy ops -> rq_request_id rq = "" -> RpcCallResult_ok r = false ->
  calls_ok g t es (rqs ++ [rq]) unb (rdy ++ [(length rqs, r)]) ops.
Proof.
  intros [R O A U Y B I] Hid Hr.
  assert (forall i, i ∈ unb -> i < length rqs)%nat as Hlt.
  { intros i Hi. assert (i ∈ seq 0 (length rqs)) as Hs; [rewrite <- A; apply elem_of_app; by left|].
    apply elem_of_seq in Hs. lia. }
  split; try done.
  - eapply Forall_impl; [exact O|]. intros op. apply op_ok_mono; [done|by apply prefix_app_r].
  - rewrite map_app, length_app, seq_app, <- A. cbn. by rewrite <- !app_assoc.
  - intros i rq' Hi Hq. rewrite lookup_app_l in Hq by auto. by apply U with i.
  - apply Forall_app. split; [done|]. by constructor.
  - intros i j r1 r2 [E1|[_ [E1 <-]%list_lookup_singleton_Some]]%lookup_app_Some
      [E2|[_ [E2 <-]%list_lookup_singleton_Some]]%lookup_app_Some Eid Hne; [by eapply I|congruence..].
Qed.

(** A request that could not be sent. *)
Lemma calls_ok_aborted g t es rqs unb rdy ops id t1 r f t' e :
  calls_ok g t es rqs unb rdy ops -> Add t id = (true, t1) ->
  RpcCallResult_ok r = false -> RpcCallResult_ok f = false ->
  run t1 [OpComplete id r; OpTryPop id; OpFailAll f] = (t', e) ->
  calls_ok g t' (es ++ e) rqs unb rdy (ops ++ [OpAdd id; OpComplete id r; OpTryPop id; OpFailAll f]).
Proof.
  intros Hc Ea Hr Hf E. eapply calls_ok_ops; try done.
  - rewrite !Forall_cons. split; [done|]. split; [right; by left|]. by split; [|split].
  - change (run t ([OpAdd id] ++ [OpComplete id r; OpTryPop id; OpFailAll f]) = (t', e)).
    rewrite run_app. replace (run t [OpAdd id]) with (t1, @nil effect) by (cbn; by rewrite Ea).
    cbn [fst snd app]. by rewrite E.
  - intros id' (sl & Es & F1 & F2) _. unfold Add in Ea. destruct (str_empty id); [done|].
    destruct (t !! id) as [|] eqn:Et; [done|]. injection Ea as <-.
    assert (id <> id') as Hne by congruence.
    cbn [run PendingCalls.step] in E. unfold Complete, TryPop in E. rewrite lookup_insert_eq in E.
    cbn in E. rewrite lookup_insert_eq in E. cbn in E. injection E as <- _.
    rewrite insert_insert_eq, delete_insert_eq by done.
    apply (free_fail (fun _ => true) (fail_all_mark f) (delete id t) id').
    + intros s. unfold fail_all_mark. by destruct (done s).
    + exists sl. by rewrite lookup_delete_ne.
Qed.

(** A promise is bound. *)
Lemma calls_ok_bind g t es rqs unb rdy ops k i rq dl :
  calls_ok g t es rqs unb rdy ops -> unb !! k = Some i -> rqs !! i = Some rq ->
  let '(bound, t', e) := BindAsync t (rq_request_id rq) i dl in
  bound = true /\
  calls_ok g t' (es ++ e) rqs (delete k unb) rdy (ops ++ [OpBindAsync (rq_request_id rq) i dl]).
Proof.
  intros Hc Hk Hi. pose proof (calls_ok_wf _ _ _ _ _ _ _ Hc) as Hwf.
  pose proof (delete_Permutation _ _ _ Hk) as Hperm.
  assert (NoDup unb) as Hnd.
  { pose proof (NoDup_seq 0 (length rqs)) as Hn. rewrite <- (ck_all _ _ _ _ _ _ _ Hc) in Hn.
    by apply NoDup_app in Hn as [Hn _]. }
  assert (i ∈ unb) as Hiu by by eapply list_elem_of_lookup_2.
  destruct (ck_unbound _ _ _ _ _ _ _ Hc i rq Hiu Hi) as (Hid & sl & E & F1 & F2).
  assert (run t [OpBindAsync (rq_request_id rq) i dl] =
    let '(_, t', e) := BindAsync t (rq_request_id rq) i dl in (t', e)) as Er.
  { cbn [run PendingCalls.step]. destruct (BindAsync _ _ _ _) as [[b t'] e]. by rewrite app_nil_r. }
  assert (forall p, waits t p -> waits (snd (fst (BindAsync t (rq_request_id rq) i dl))) p \/
    p ∈ fulfilled (snd (BindAsync t (rq_request_id rq) i dl))) as Hwaits.
  { intros p Hp. pose proof (run_waits [OpBindAsync (rq_request_id rq) i dl] p t Hwf) as Hw.
    rewrite Er in Hw. destruct (BindAsync _ _ _ _) as [[b t'] e]. apply Hw; [by repeat constructor|done]. }
  assert (forall id', id' <> rq_request_id rq -> free t id' ->
    free (snd (fst (BindAsync t (rq_request_id rq) i dl))) id') as Hother.
  { intros id' Hne (sl' & E' & Hf). exists sl'. unfold BindAsync. rewrite E, F1, F2.
    destruct (done sl); simpl; [by rewrite lookup_delete_ne|by rewrite lookup_insert_ne]. }
  assert (waits (snd (fst (BindAsync t (rq_request_id rq) i dl))) i \/
    i ∈ fulfilled (snd (BindAsync t (rq_request_id rq) i dl))) as Hnew.
  { unfold BindAsync. rewrite E, F1, F2. destruct (done sl); simpl; [right; apply list_elem_of_here|left].
    eexists _, _. by rewrite lookup_insert_eq. }
  assert (fst (fst (BindAsync t (rq_request_id rq) i dl)) = true) as Hb.
  { unfold BindAsync. rewrite E, F1, F2. by destruct (done sl). }
  destruct (BindAsync t (rq_request_id rq) i dl) as [[b t'] e]. cbn [fst snd] in *. subst b.
  split; [done|]. pose proof (ck_run_app _ _ _ _ _ _ _ _ _ _ Hc Er) as Hrun. destruct Hc as [R O A U Y B I].
  assert (promises_of (ops ++ [OpBindAsync (rq_request_id rq) i dl]) = promises_of ops ++ [i]) as Ep
    by by rewrite promises_of_app.
  split.
  - exact Hrun.
  - apply Forall_app. split; [done|]. constructor; [|done]. by exists rq.
  - rewrite Ep, <- A. clear -Hperm. revert Hperm. generalize (delete k unb) as u. intros u ->.
    rewrite <- app_assoc. cbn [app]. by rewrite <- !Permutation_middle.
  - intros j rq' Hj Hq'.
    assert (j ∈ unb /\ j <> i) as [Hju Hji] by by apply (delete_elem k unb i Hnd Hk).
    destruct (U j rq' Hju Hq') as [Hid' Hf]. split; [done|]. apply Hother; [|done].
    intros Eid. apply Hji. by eapply I.
  - done.
  - intros p. rewrite Ep, elem_of_app, list_elem_of_singleton, fulfilled_app, elem_of_app.
    intros [Hp| ->]; [|tauto]. destruct (B p Hp) as [Hb|Hb]; [tauto|].
    destruct (Hwaits p Hb); tauto.
  - done.
Qed.

End calls.

Section outcomes.
Context (reg : registry).

(** A promise that was bound is fulfilled or waits; it is fulfilled when the table is settled. *)
Lemma settled_or_waits g t es rqs unb rdy ops i :
  calls_ok reg g t es rqs unb rdy ops -> (i < length rqs)%nat -> i ∉ unb ->
  i ∈ fulfilled es ++ map fst rdy \/ waits t i.
Proof.
  intros Hc Hl Hu. rewrite elem_of_app.
  assert (i ∈ unb ++ promises_of ops ++ map fst rdy) as Hi.
  { rewrite (ck_all _ _ _ _ _ _ _ _ Hc). apply elem_of_seq. lia. }
  apply elem_of_app in Hi as [Hi|[Hi|Hi]%elem_of_app]; [done| |tauto].
  destruct (ck_bound _ _ _ _ _ _ _ _ Hc i Hi); tauto.
Qed.

Lemma settled_calls g t es rqs unb rdy ops i :
  calls_ok reg g t es rqs unb rdy ops -> settled t -> (i < length rqs)%nat -> i ∉ unb ->
  i ∈ fulfilled es ++ map fst rdy.
Proof.
  intros Hc Hs Hl Hu. destruct (settled_or_waits _ _ _ _ _ _ _ i Hc Hl Hu) as [?|(id & sl & E & Ep)]; [done|].
  destruct (Hs id sl E) as (_ & Hn & _). congruence.
Qed.

(** A promise is fulfilled once, with an error or the answer to its own request. *)
Lemma calls_once g t es rqs unb rdy ops :
  calls_ok reg g t es rqs unb rdy ops -> NoDup (fulfilled es ++ map fst rdy).
Proof.
  intros Hc. pose proof (NoDup_seq 0 (length rqs)) as Hn.
  rewrite <- (ck_all _ _ _ _ _ _ _ _ Hc) in Hn. apply NoDup_app in Hn as (_ & _ & Hn).
  pose proof (run_promises ∅ ops) as Hp. rewrite (ck_run _ _ _ _ _ _ _ _ Hc) in Hp. cbn [fst snd] in Hp.
  assert (waiters async_promise ∅ = []) as Ee by done. rewrite Ee, app_nil_r in Hp.
  assert (fulfilled es ++ map fst rdy ⊆+ promises_of ops ++ map fst rdy) as Hs.
  { apply submseteq_app; [|done]. etransitivity; [|exact Hp]. by apply submseteq_inserts_r. }
  apply submseteq_Permutation in Hs as [l Hl]. rewrite Hl in Hn. by apply NoDup_app in Hn as [Hn _].
Qed.

Lemma calls_right t es rqs unb rdy ops :
  calls_ok reg false t es rqs unb rdy ops -> forall p res, SetValue p res ∈ es \/ (p, res) ∈ rdy ->
  exists rq, rqs !! p = Some rq /\
    (RpcCallResult_ok res = false \/ res = mapped_result (served reg rq)).
Proof.
  intros Hc p res [Hp|Hp].
  - destruct (run_provenance ops) as [_ Hprov]. rewrite (ck_run _ _ _ _ _ _ _ _ Hc) in Hprov.
    destruct (Hprov p res Hp) as (id & dl & Hb & Hg). pose proof (ck_ops _ _ _ _ _ _ _ _ Hc) as Hops.
    rewrite Forall_forall in Hops. destruct (Hops _ Hb) as (rq & Hq & Hid & Hne). exists rq.
    split; [done|]. destruct Hg as [Hg|[Hg|[now Hg]]]; specialize (Hops _ Hg); cbn in Hops; [|by left..].
    destruct Hops as [?|[?|(i & rq' & Hi & Hid' & ->)]]; [done|by left|right].
    assert (p = i) as <-; [|by simplify_eq].
    apply (ck_ids _ _ _ _ _ _ _ _ Hc p i rq rq'); congruence.
  - assert (p ∈ seq 0 (length rqs)) as Hs.
    { rewrite <- (ck_all _ _ _ _ _ _ _ _ Hc), !elem_of_app. right. right.
      by apply (list_elem_of_fmap_2 fst) in Hp. }
    apply elem_of_seq in Hs. destruct (lookup_lt_is_Some_2 rqs p) as [rq Hq]; [lia|]. exists rq.
    split; [done|]. left. pose proof (ck_ready _ _ _ _ _ _ _ _ Hc) as Hr. rewrite Forall_forall in Hr.
    by apply (Hr _ Hp).
Qed.

Lemma run_ends_settled t ops f t' e :
  run t (ops ++ [OpFailAll f]) = (t', e) -> settled t'.
Proof.
  rewrite run_app. intros [= <- _]. apply (FailAll_settled (fst (run t ops)) f).
Qed.

(** A promise waits for the response to its own call. *)
Lemma waits_awaited g t es rqs unb rdy ops p :
  calls_ok reg g t es rqs unb rdy ops -> waits t p ->
  exists rq, rqs !! p = Some rq /\ rq_request_id rq <> "" /\ awaited t (rq_request_id rq).
Proof.
  intros Hc (id & sl & E & Ep). pose proof (calls_ok_wf _ _ _ _ _ _ _ _ Hc) as [_ Hwf].
  destruct (run_provenance ops) as [Hp _]. rewrite (ck_run _ _ _ _ _ _ _ _ Hc) in Hp.
  destruct (proj2 (Hp id sl E) p Ep) as [dl Hin]. pose proof (ck_ops _ _ _ _ _ _ _ _ Hc) as Hops.
  rewrite Forall_forall in Hops. destruct (Hops _ Hin) as (rq & Hq & <- & Hne). exists rq.
  split; [done|]. split; [done|]. exists sl. split; [done|].
  by destruct (wf_promise sl (Hwf _ _ E)) as [_ ?]; [rewrite Ep|].
Qed.

End outcomes.

(** ** What the client does to its table *)

Section client_ops.
Context `{ProtoLaws RpcRequest} `{ProtoLaws RpcResponse}.

Lemma Connect_pending c ce :
  pending_calls_ (snd (Connect c ce)) = pending_calls_ c /\
  next_id_ (snd (Connect c ce)) = next_id_ c /\
  (fst (Connect c ce) = false -> snd (Connect c ce) = c) /\
  (UniqueFd.Valid (sock_ c) = true -> Connect c ce = (true, c)) /\
  (fst (Connect c ce) = true -> UniqueFd.Valid (sock_ (snd (Connect c ce))) = true).
Proof.
  unfold Connect. destruct (UniqueFd.Valid (sock_ c)) eqn:Ev; [by split_and!|].
  destruct (UniqueFd.Valid (UniqueFd.make (ce_socket ce))) eqn:Es; cbn [negb]; [|by split_and!].
  destruct (ce_address_valid ce); cbn [negb]; [|by split_and!]. destruct (ce_connect ce); [by split_and!|].
  destruct (ce_sndtimeo ce), (ce_rcvtimeo ce); cbn; by split_and!.
Qed.

(** How the first phase of a call can end: no connection, an identifier that is taken,
    sent, or not sent. *)
Lemma Call_begin_cases c ce service method payload script res c' es w :
  Call_begin c ce service method payload script = Some (res, c', es, w) ->
  let c0 := snd (Connect c ce) in
  let id := to_string (wrap64 (next_id_ c + 1)) in
  fst (Connect c ce) = false /\ res = inl (err "connect failed") /\ c' = c /\ es = [] /\ w = [] \/
  fst (Connect c ce) = true /\ next_id_ c' = wrap64 (next_id_ c + 1) /\
  ((res = inl (err "duplicate request_id in pending table") /\ pending_calls_ c' = pending_calls_ c /\
    sock_ c' = sock_ c0 /\ dispatcher_running_ c' = dispatcher_running_ c0 /\ es = [] /\ w = []) \/
   (res = inr id /\ Add (pending_calls_ c) id = (true, pending_calls_ c') /\
    sock_ c' = sock_ c0 /\ dispatcher_running_ c' = dispatcher_running_ c0 /\ es = [] /\
    exists body, SerializeToArray {| rq_request_id := id; rq_service_name := service;
      rq_method_name := method; rq_payload := payload |} = Some body /\ w = frame_of body /\ fits body) \/
   (exists r t, res = inl r /\ RpcCallResult_ok r = false /\ Add (pending_calls_ c) id = (true, t) /\
    run t [OpComplete id r; OpTryPop id; OpFailAll (err "connection closed")] = (pending_calls_ c', es) /\
    UniqueFd.Valid (sock_ c') = false /\ dispatcher_running_ c' = false)).
Proof.
  unfold Call_begin. destruct (Connect_pending c ce) as (Ep & En & Ef & _).
  destruct (Connect c ce) as [[] c0]; cbn [fst snd] in *; cbn [negb].
  2: { intros [= <- <- <- <-]. left. rewrite Ef by done. done. }
  intros E. right. split; [done|].
  unfold NextRequestId in E. cbn [pending_calls_ with_next_id] in E. rewrite En, Ep in E.
  remember (to_string (wrap64 (next_id_ c + 1))) as id eqn:Eid. clear Eid.
  destruct (Add (pending_calls_ c) id) as [[] t] eqn:Ea; cbn [negb] in E.
  2: { unfold Add in Ea. assert (t = pending_calls_ c) as -> by (repeat split_match_in Ea; by simplify_eq).
       injection E as <- <- <- <-. split; [done|]. left. done. }
  destruct (send_request _ _ _) as [[[[] we] wire]|] eqn:Es; [| |done].
  - injection E as <- <- <- <-. split; [done|]. right. left. cbn. repeat (split; [done|]).
    unfold send_request in Es. destruct (UniqueFd.Valid _); [|done].
    destruct (WriteMessage script _ _) as [[[ok e] w'] s'|] eqn:Ew; [|done].
    injection Es as -> _ ->. apply WriteMessage_wire in Ew as (body & Eb & -> & Hb). by exists body.
  - assert (t !! id = Some Slot_default) as Ht.
    { unfold Add in Ea. repeat (split_match_in Ea; simplify_eq/=). by rewrite lookup_insert_eq. }
    unfold Complete, TryPop in E. cbn [pending_calls_ with_pending] in E. rewrite Ht in E.
    cbn in E. rewrite lookup_insert_eq in E. cbn in E. injection E as <- <- <- <-. split; [done|].
    right. right. exists (send_failure we), t. split; [done|]. split; [done|]. split; [done|].
    split; [|done]. cbn [run PendingCalls.step]. unfold Complete, TryPop. rewrite Ht. cbn.
    rewrite lookup_insert_eq. cbn. by rewrite app_nil_r.
Qed.

(** What the responses of a batch do. *)
Definition completes (rs : list RpcResponse) : list Op :=
  omap (fun r => if starts_with "hb_" (rs_request_id r) then None
                 else Some (OpComplete (rs_request_id r) (mapped_result r))) rs.

Lemma on_response_ops t r :
  on_response (t, []) r = run t (completes [r]).
Proof.
  unfold on_response, completes. cbn [omap list_omap]. destruct (starts_with _ _); [done|].
  cbn [run PendingCalls.step]. destruct (Complete t _ _) as [[b t'] e]. by rewrite app_nil_r.
Qed.

Lemma frames_loop_ops buf : forall t ok t' es rest,
  frames_loop on_response_body on_bad_length (t, []) buf = (ok, (t', es), rest) ->
  exists seen rs rest' f, Forall2 (fun b r => ParseFromArray b = Some r) seen rs /\ Forall fits seen /\
    buf = concat (map frame_of seen) ++ rest' /\ (ok = true -> rest' = rest) /\
    RpcCallResult_ok f = false /\
    run t (completes rs ++ (if ok then [] else [OpFailAll f])) = (t', es).
Proof.
  induction buf as [buf IH] using frames_loop_ind. intros t ok t' es rest.
  rewrite frames_loop_unfold. destruct (view_frame buf) as [| |body more] eqn:Ev.
  - intros [= <- <- <- <-]. by exists [], [], buf, (err "").
  - unfold on_bad_length, fail_all_in. destruct (FailAll t _) as [t1 e1] eqn:Efa. intros [= <- <- <- <-].
    exists [], [], buf, (err "invalid response frame length").
    repeat (split; [done|]). cbn [completes omap list_omap app run PendingCalls.step].
    rewrite Efa. by rewrite app_nil_r.
  - rewrite on_response_body_parsed. pose proof (view_frame_inv _ _ _ Ev) as [Hf Eb].
    destruct (ParseFromArray body) as [r|] eqn:Er.
    + rewrite on_response_ops. destruct (run t (completes [r])) as [t1 e1] eqn:E1.
      pose proof (frames_loop_effects more t1 e1) as He.
      destruct (frames_loop _ _ (t1, []) more) as [[ok2 [t2 e2]] r2] eqn:E2. rewrite He.
      intros [= <- <- <- <-].
      destruct (IH body more eq_refl t1 ok2 t2 e2 r2 E2) as (seen & rs & rest' & f & Q1 & Q2 & Q3 & Q4 & Q5 & Q6).
      exists (body :: seen), (r :: rs), rest', f. split; [by constructor|]. split; [by constructor|].
      split; [cbn [map concat]; by rewrite Eb, Q3, <- app_assoc|]. split; [done|]. split; [done|].
      replace (completes (r :: rs)) with (completes [r] ++ completes rs) by (symmetry; apply (omap_app _ [r] rs)).
      rewrite <- app_assoc, run_app, E1. cbn [fst snd]. by rewrite Q6.
    + unfold fail_all_in. destruct (FailAll t _) as [t1 e1] eqn:Efa. intros [= <- <- <- <-].
      exists [], [], buf, (failure kParseError "failed to parse RpcResponse").
      repeat (split; [done|]). cbn [completes omap list_omap app run PendingCalls.step].
      rewrite Efa. by rewrite app_nil_r.
Qed.

(** Operations of the dispatcher: the responses [rs], and failures. *)
Definition from_dispatcher (rs : list RpcResponse) (op : Op) : Prop :=
  op ∈ completes rs \/
  exists f, RpcCallResult_ok f = false /\ (op = OpFailAll f \/ exists now, op = OpFailTimedOut now f).

Lemma completes_from rs : Forall (from_dispatcher rs) (completes rs).
Proof. apply Forall_forall. intros op Hop. by left. Qed.

Lemma fail_from rs f : RpcCallResult_ok f = false -> from_dispatcher rs (OpFailAll f).
Proof. intros Hf. right. exists f. split; [done|]. by left. Qed.

Lemma from_dispatcher_sweeping rs op : from_dispatcher rs op -> sweeping op = true.
Proof.
  intros [Hop|(f & _ & [->|[now ->]])]; [|done..]. unfold completes in Hop.
  apply list_elem_of_omap in Hop as (r & _ & E). destruct (starts_with _ _); by simplify_eq.
Qed.

Lemma drain_drained script : forall buf got,
  fst (fst (drain script buf got)) = buf ++ drained script.
Proof.
  unfold drained.
  assert (forall buf got, fst (fst (drain script buf got)) =
    buf ++ fst (fst (drain script [] got)) /\
    fst (fst (drain script [] got)) = fst (fst (drain script [] false))) as Hd.
  { induction script as [|ev script IH]; intros buf got; cbn [drain]; [by rewrite app_nil_r|].
    destruct ev as [[|b bs]|en]; [by rewrite app_nil_r|..].
    - rewrite (proj1 (IH (buf ++ b :: bs) true)), (proj1 (IH ([] ++ b :: bs) true)).
      by rewrite <- app_assoc.
    - destruct (decide _); [apply IH|]. destruct (decide _); by rewrite app_nil_r. }
  intros buf got. destruct (Hd buf got) as [-> ->]. done.
Qed.

Lemma readable_ops c d now script c' d' es :
  readable_iteration c d now script = (c', d', es) ->
  exists ops seen rs rest', run (pending_calls_ c) ops = (pending_calls_ c', es) /\
    Forall (from_dispatcher rs) ops /\ completes rs ⊆ ops /\ Forall2 (fun b r => ParseFromArray b = Some r) seen rs /\
    Forall fits seen /\ read_buffer d ++ drained script = concat (map frame_of seen) ++ rest' /\
    (dispatcher_running_ c = true -> dispatcher_running_ c' = true -> rest' = read_buffer d') /\
    sock_ c' = sock_ c /\ next_id_ c' = next_id_ c.
Proof.
  unfold readable_iteration. pose proof (drain_drained script (read_buffer d) false) as Hd.
  destruct (drain script (read_buffer d) false) as [[buf got] fin]. cbn [fst] in Hd. rewrite <- Hd.
  assert (forall f, RpcCallResult_ok f = false -> forall t, run t [OpFailAll f] = FailAll t f) as Hfail.
  { intros f _ t. cbn. by rewrite app_nil_r. }
  assert (forall act ok t es1 rest act',
    HandleReadableFrames (pending_calls_ c) buf act now = (ok, (t, es1), rest, act') ->
    exists seen rs rest' f, Forall2 (fun b r => ParseFromArray b = Some r) seen rs /\ Forall fits seen /\
      buf = concat (map frame_of seen) ++ rest' /\ (ok = true -> rest' = rest) /\
      RpcCallResult_ok f = false /\
      run (pending_calls_ c) (completes rs ++ (if ok then [] else [OpFailAll f])) = (t, es1)) as Hh.
  { intros act ok t es1 rest act' E. unfold HandleReadableFrames in E.
    destruct (frames_loop _ _ _ buf) as [[ok1 [t1 e1]] rest1] eqn:El.
    destruct (frames_loop_ops buf _ _ _ _ _ El) as (seen & rs & rest' & f & Q).
    exists seen, rs, rest', f. by destruct ok1; simplify_eq/=; naive_solver. }
  destruct fin as [| |msg].
  - destruct (HandleReadableFrames _ _ _ _) as [[[ok [t es1]] rest] act] eqn:E.
    destruct (Hh _ _ _ _ _ _ E) as (seen & rs & rest' & f & Q1 & Q2 & Q3 & Q4 & Q5 & Q6).
    destruct ok; cbn [negb]; intros [= <- <- <-]; do 4 eexists; (split; [exact Q6|]);
      (split; [|split; [|by split_and!; try done; auto]]).
    + rewrite app_nil_r. apply completes_from.
    + by rewrite app_nil_r.
    + apply Forall_app. split; [apply completes_from|]. constructor; [by apply fail_from|done].
    + by apply list_subseteq_app_l.
  - destruct (HandleReadableFrames _ _ _ _) as [[[ok [t es1]] rest] act] eqn:E.
    destruct (Hh _ _ _ _ _ _ E) as (seen & rs & rest' & f & Q1 & Q2 & Q3 & Q4 & Q5 & Q6).
    destruct ok; cbn [negb].
    + rewrite app_nil_r in Q6. destruct (0 <? Size t)%nat.
      * destruct (FailAll t _) as [t2 e2] eqn:Ef. intros [= <- <- <-].
        exists (completes rs ++ [OpFailAll (err "dispatcher stopped: peer closed connection")]), seen, rs, rest'.
        split; [rewrite run_app, Q6; cbn [fst snd]; by rewrite Hfail, Ef|].
        split; [|split; [by apply list_subseteq_app_l|by split_and!]]. apply Forall_app.
        split; [apply completes_from|]. constructor; [by apply fail_from|done].
      * intros [= <- <- <-]. exists (completes rs), seen, rs, rest'. split; [done|].
        split; [apply completes_from|split; [done|by split_and!]].
    + intros [= <- <- <-]. do 4 eexists. split; [exact Q6|].
      split; [|split; [by apply list_subseteq_app_l|by split_and!]]. apply Forall_app. split; [apply completes_from|]. constructor; [by apply fail_from|done].
  - destruct (FailAll _ _) as [t2 e2] eqn:Ef. intros [= <- <- <-].
    exists [OpFailAll (err ("dispatcher stopped: " +:+ msg))], [], [], buf.
    split; [by rewrite Hfail, Ef|]. split; [constructor; [by apply fail_from|done]|].
    split; [apply list_subseteq_nil|by split_and!].
Qed.

(** The request of a heartbeat, as [SendHeartbeatRequest] builds it. *)
Definition heartbeat_request (n : Z) : RpcRequest :=
  {| rq_request_id := "hb_" +:+ to_string n; rq_service_name := kHeartbeatServiceName;
     rq_method_name := "Ping"; rq_payload := "" |}.

(** What a write that may have failed has left on the wire, when it is not a part of a frame. *)
Lemma send_request_whole c rq script ok we w :
  send_request c rq script = Some (ok, we, w) -> whole w = true ->
  w = [] \/ exists body, SerializeToArray rq = Some body /\ fits body /\ w = frame_of body.
Proof.
  unfold send_request. destruct (UniqueFd.Valid _); [|intros [= <- _ <-]; by left].
  destruct (WriteMessage script rq (Some "")) as [[[ok' e] w'] s'|] eqn:Ew; [|done].
  intros [= <- _ <-] Hw. destruct w' as [|x w']; [by left|]. right.
  pose proof Ew as Ew2. unfold WriteMessage in Ew2.
  destruct (SerializeToArray rq) as [body|] eqn:Es; [|by destruct (_ || _)%Z].
  destruct (_ || _)%Z eqn:Esz; [done|]. breflect. pose proof (serialize_size _ _ Es) as Hsz.
  assert (fits body) as Hf by (unfold fits, kMaxFrameSize in *; lia).
  destruct (codec_write_prefix _ _ _ _ _ _ _ _ Es Ew) as [[k Ek] _]. exists body.
  split; [done|]. split; [done|]. unfold whole in Hw.
  destruct (view_frame (x :: w')) as [| |b [|? ?]] eqn:Ev; try done.
  apply view_frame_inv in Ev as [Hb Eb]. rewrite app_nil_r in Eb. rewrite Eb in Ek |- *.
  pose proof (frame_first b [] k Hb) as F1. pose proof (frame_first body [] [] Hf) as F2.
  cbn [map concat app] in F1, F2. rewrite app_nil_r in F1. rewrite !app_nil_r in F2.
  rewrite <- Ek, F2 in F1. by injection F1 as -> _.
Qed.

Lemma iteration_ops opts c d e c' d' es w :
  dispatcher_iteration opts c d e = Some (c', d', es, w) ->
  (exists ops seen rs rest', run (pending_calls_ c) ops = (pending_calls_ c', es) /\
    Forall (from_dispatcher rs) ops /\ completes rs ⊆ ops /\ Forall2 (fun b r => ParseFromArray b = Some r) seen rs /\
    Forall fits seen /\
    read_buffer d ++ match ie_wait e with kReadable => drained (ie_recv e) | _ => [] end =
      concat (map frame_of seen) ++ rest' /\
    (dispatcher_running_ c = true -> dispatcher_running_ c' = true -> rest' = read_buffer d')) /\
  sock_ c' = sock_ c /\
  (w = [] /\ next_id_ c' = next_id_ c \/
   next_id_ c' = wrap64 (next_id_ c + 1) /\
   exists c0 ok we, send_request c0 (heartbeat_request (next_id_ c')) (ie_send e) = Some (ok, we, w)).
Proof.
  assert (forall f t now, run t [OpFailTimedOut now f] = FailTimedOut t now f) as Ht.
  { intros f t now. cbn. by rewrite app_nil_r. }
  assert (forall f t, run t [OpFailAll f] = FailAll t f) as Hfail.
  { intros f t. cbn. by rewrite app_nil_r. }
  assert (forall rs now f, RpcCallResult_ok f = false -> from_dispatcher rs (OpFailTimedOut now f)) as Hfrom.
  { intros rs now f Hf. right. exists f. split; [done|]. right. by exists now. }
  unfold dispatcher_iteration. destruct (ie_wait e).
  - destruct (readable_iteration c d (ie_now e) (ie_recv e)) as [[c1 d1] es1] eqn:E.
    intros [= <- <- <- <-].
    destruct (readable_ops _ _ _ _ _ _ _ E) as (ops & seen & rs & rest' & Q1 & Q2 & Qc & Q3 & Q4 & Q5 & Q6 & Q7 & Q8).
    split; [by exists ops, seen, rs, rest'|]. split; [done|]. by left.
  - unfold timeout_iteration. destruct (FailTimedOut _ _ _) as [t es1] eqn:Ef. cbn [pending_calls_ with_pending].
    assert (run (pending_calls_ c) [OpFailTimedOut (ie_now e) (err "call timeout")] = (t, es1)) as E1
      by by rewrite Ht, Ef.
    assert (exists ops seen rs rest', run (pending_calls_ c) ops = (t, es1) /\
      Forall (from_dispatcher rs) ops /\ completes rs ⊆ ops /\ Forall2 (fun b r => ParseFromArray b = Some r) seen rs /\
      Forall fits seen /\ read_buffer d ++ [] = concat (map frame_of seen) ++ rest' /\
      (dispatcher_running_ c = true -> dispatcher_running_ c = true -> rest' = read_buffer d)) as Hop.
    { exists [OpFailTimedOut (ie_now e) (err "call timeout")], [], [], (read_buffer d).
      split; [done|]. split; [constructor; [by apply Hfrom|done]|]. split; [apply list_subseteq_nil|].
      split; [constructor|]. split; [constructor|]. split; [by rewrite app_nil_r|done]. }
    destruct (_ && _).
    + destruct (FailAll t _) as [t2 e2] eqn:E2. intros [= <- <- <- <-]. split; [|split; [done|by left]].
      exists [OpFailTimedOut (ie_now e) (err "call timeout");
              OpFailAll (err "connection inactive (heartbeat timeout)")], [], [], (read_buffer d).
      split; [|split; [constructor; [by apply Hfrom|constructor; [by apply fail_from|done]]|]].
      * change (run (pending_calls_ c) ([OpFailTimedOut (ie_now e) (err "call timeout")] ++
          [OpFailAll (err "connection inactive (heartbeat timeout)")]) = (t2, es1 ++ e2)).
        rewrite run_app, E1. cbn [fst snd]. by rewrite Hfail, E2.
      * split; [apply list_subseteq_nil|]. split; [constructor|]. split; [constructor|].
        split; [by rewrite app_nil_r|done].
    + destruct (_ && _ && _).
      * unfold SendHeartbeatRequest. destruct (send_request _ _ _) as [[[ok we] wire]|] eqn:Es; [|done].
        intros [= <- <- <- <-]. split; [exact Hop|]. split; [done|]. right. split; [done|].
        eexists _, ok, we. exact Es.
      * intros [= <- <- <- <-]. split; [exact Hop|]. split; [done|by left].
  - intros [= <- <- <- <-]. split; [|split; [done|by left]]. exists [], [], [], (read_buffer d).
    split_and!; try done. by rewrite app_nil_r.
  - destruct (FailAll _ _) as [t es1] eqn:E1. intros [= <- <- <- <-]. split; [|split; [done|by left]].
    exists [OpFailAll (err "dispatcher stopped: event loop error")], [], [], (read_buffer d).
    split; [by rewrite Hfail, E1|]. split; [constructor; [by apply fail_from|done]|].
    split; [apply list_subseteq_nil|]. split; [constructor|]. split; [constructor|].
    split; [by rewrite app_nil_r|done].
Qed.

End client_ops.
