(* ===== verification/Caller.v ===== *)
(** * A client through failures and reconnections

    One client whose connection may do anything.  Sends fail or stop half way, the peer ends the
    stream, the dispatcher cannot be set up or stops, the client is closed and connects again, in
    any order and at any time; heartbeats share the connection with the calls.  Every call has a
    promise, those that fail at once included.

    Of the server the client relies on one thing only, [honest]: a frame it reads is an answer
    to a request it has sent on the same connection.  Cluster.v discharges it for the workers
    of a server. *)

From Stdlib Require Import ZArith Lia.
From S2P Require Import Prelude RpcError Posix Codec Frames PendingCalls ServiceRegistry.
From S2P Require Import Proto3 EventLoop RpcClient ConnBuffer Connection Network Calls.

Local Open Scope Z_scope.
Local Open Scope string_scope.
Local Open Scope list_scope.

(** ** The client *)

(** [cl_unbound]: calls between their two phases; [cl_issued]: the request of each call;
    [cl_happened]: what the table did; [cl_ready]: the futures that were ready when the call
    returned; [cl_cut]: a heartbeat has been cut short; [cl_sent], [cl_got]: the bytes written to
    and read from the current connection. *)
Record caller := {
  cl_client : client;
  cl_dispatcher : dispatcher;
  cl_unbound : list nat;
  cl_issued : list RpcRequest;
  cl_happened : list effect;
  cl_ready : list (nat * RpcCallResult);
  cl_cut : bool;
  cl_sent : bytes;
  cl_got : bytes;
}.

(** [now] is the time at which the dispatcher of a new connection starts. *)
Inductive caller_action :=
  | KCall (now : Z) (ce : connect_env) (service method payload : string) (script : list send_event)
  | KBind (k : nat) (now : Z)
  | KIterate (e : iteration_env)
  | KInit (init_ok set_ok : bool)
  | KClose.

Definition new_dispatcher (now : Z) : dispatcher :=
  {| read_buffer := []; last_activity_time_ := now; last_heartbeat_time_ := now |}.

Definition new_caller : caller :=
  {| cl_client := make_client; cl_dispatcher := new_dispatcher 0; cl_unbound := []; cl_issued := [];
     cl_happened := []; cl_ready := []; cl_cut := false; cl_sent := []; cl_got := [] |}.

Abbreviation connected c := (UniqueFd.Valid (sock_ (cl_client c))).

(** The call opens a new connection. *)
Definition reconnects (c : caller) (a : caller_action) : bool :=
  match a with
  | KCall _ ce _ _ _ _ => negb (connected c) && fst (Connect (cl_client c) ce)
  | _ => false
  end.

(** [Connect] has opened a new connection, which has its own dispatcher. *)
Definition new_connection (now : Z) (c : caller) : caller :=
  {| cl_client := cl_client c; cl_dispatcher := new_dispatcher now; cl_unbound := cl_unbound c;
     cl_issued := cl_issued c; cl_happened := cl_happened c; cl_ready := cl_ready c;
     cl_cut := cl_cut c; cl_sent := []; cl_got := [] |}.

(** What the dispatcher takes from the socket. *)
Definition taken (a : caller_action) : bytes :=
  match a with
  | KIterate e => match ie_wait e with kReadable => drained (ie_recv e) | _ => [] end
  | _ => []
  end.

(** The client goes on as [k], with the effects [es], having sent [bs]. *)
Definition goes_on (k : client) (es : list effect) (bs : bytes) (c : caller) : caller :=
  {| cl_client := k; cl_dispatcher := cl_dispatcher c; cl_unbound := cl_unbound c;
     cl_issued := cl_issued c; cl_happened := cl_happened c ++ es; cl_ready := cl_ready c;
     cl_cut := cl_cut c; cl_sent := cl_sent c ++ bs; cl_got := cl_got c |}.

(** A request is on its way; its promise, the number of the call, is not bound yet. *)
Definition add_call (rq : RpcRequest) (c : caller) : caller :=
  {| cl_client := cl_client c; cl_dispatcher := cl_dispatcher c;
     cl_unbound := cl_unbound c ++ [length (cl_issued c)];
     cl_issued := cl_issued c ++ [rq]; cl_happened := cl_happened c; cl_ready := cl_ready c;
     cl_cut := cl_cut c; cl_sent := cl_sent c; cl_got := cl_got c |}.

(** A call that is over when it returns has sent no request that could be answered: it has
    no identifier. *)
Definition add_failed (service method payload : string) (r : RpcCallResult) (c : caller) : caller :=
  {| cl_client := cl_client c; cl_dispatcher := cl_dispatcher c; cl_unbound := cl_unbound c;
     cl_issued := cl_issued c ++ [{| rq_request_id := ""; rq_service_name := service;
                                     rq_method_name := method; rq_payload := payload |}];
     cl_happened := cl_happened c; cl_ready := cl_ready c ++ [(length (cl_issued c), r)];
     cl_cut := cl_cut c; cl_sent := cl_sent c; cl_got := cl_got c |}.

Definition bound (k : nat) (i : nat) (r : option RpcCallResult) (c : caller) : caller :=
  {| cl_client := cl_client c; cl_dispatcher := cl_dispatcher c; cl_unbound := delete k (cl_unbound c);
     cl_issued := cl_issued c; cl_happened := cl_happened c;
     cl_ready := cl_ready c ++ match r with None => [] | Some r => [(i, r)] end;
     cl_cut := cl_cut c; cl_sent := cl_sent c; cl_got := cl_got c |}.

Definition read_on (d : dispatcher) (cut : bool) (bs : bytes) (c : caller) : caller :=
  {| cl_client := cl_client c; cl_dispatcher := d; cl_unbound := cl_unbound c;
     cl_issued := cl_issued c; cl_happened := cl_happened c; cl_ready := cl_ready c;
     cl_cut := cl_cut c || cut; cl_sent := cl_sent c; cl_got := cl_got c ++ bs |}.

Section steps.
Context `{ProtoMessage RpcRequest} `{ProtoMessage RpcResponse}.
Context (copts : RpcClientOptions).

(** The two phases of [CallAsync]; [None]: a write cannot be described by its script. *)
Definition caller_call (c : caller) (now : Z) (ce : connect_env) (service method payload : string)
    (script : list send_event) : option caller :=
  let a := KCall now ce service method payload script in
  let c := if reconnects c a then new_connection now c else c in
  match Call_begin (cl_client c) ce service method payload script with
  | None => None
  | Some (inr id, k, es, bs) =>
      Some (add_call {| rq_request_id := id; rq_service_name := service;
                        rq_method_name := method; rq_payload := payload |} (goes_on k es bs c))
  | Some (inl r, k, es, bs) => Some (add_failed service method payload r (goes_on k es bs c))
  end.

Definition caller_bind (c : caller) (n : nat) (now : Z) : option caller :=
  match cl_unbound c !! n with
  | None => None
  | Some i =>
      match cl_issued c !! i with
      | None => None
      | Some rq =>
          let '(failed, k, es) := CallAsync_bind copts (cl_client c) (rq_request_id rq) i now in
          Some (bound n i failed (goes_on k es [] c))
      end
  end.

(** One iteration of the dispatcher, while it runs. *)
Definition caller_iterate (c : caller) (e : iteration_env) : option caller :=
  if dispatcher_running_ (cl_client c) then
    match dispatcher_iteration copts (cl_client c) (cl_dispatcher c) e with
    | None => None
    | Some (k, d, es, bs) =>
        Some (read_on d (negb (whole bs)) (taken (KIterate e)) (goes_on k es bs c))
    end
  else None.

(** The dispatcher cannot set its event loop up. *)
Definition caller_init (c : caller) (init_ok set_ok : bool) : option caller :=
  if dispatcher_running_ (cl_client c) && negb (init_ok && set_ok) then
    match DispatcherLoop copts (cl_client c) 0 init_ok set_ok [] with
    | Some (k, es) => Some (goes_on k es [] c)
    | None => None
    end
  else None.

(** One step; [None] also when it is not possible now. *)
Definition caller_step (c : caller) (a : caller_action) : option caller :=
  match a with
  | KCall now ce service method payload script => caller_call c now ce service method payload script
  | KBind n now => caller_bind c n now
  | KIterate e => caller_iterate c e
  | KInit init_ok set_ok => caller_init c init_ok set_ok
  | KClose =>
      let '(k, es) := Close (cl_client c) in
      Some (goes_on k es [] c)
  end.

End steps.

(** The client is closed, or its dispatcher stops. *)
Definition stops (c : caller) (a : caller_action) (c' : caller) : Prop :=
  a = KClose \/ (dispatcher_running_ (cl_client c) = true /\ dispatcher_running_ (cl_client c') = false).

(** ** What the client relies on *)

Section contract.
Context `{ProtoLaws RpcRequest} `{ProtoLaws RpcResponse}.
Context (reg : registry).

(** A request and its answer can be read back. *)
Definition valid (rq : RpcRequest) : Prop := proto_valid rq /\ proto_valid (served reg rq).

(** Of the requests of calls: those that were sent. *)
Definition all_valid (rqs : list RpcRequest) : Prop :=
  Forall (fun rq => rq_request_id rq <> "" -> valid rq) rqs.

(** [got] answers [sent]: when the client has sent whole requests, every whole frame of what
    it has read is the answer to one of them. *)
Definition honest (sent got : bytes) : Prop :=
  forall rqs bodies seen more, Forall valid rqs -> Forall2 carries rqs bodies ->
    sent = concat (map frame_of bodies) -> Forall fits seen ->
    got = concat (map frame_of seen) ++ more ->
    forall b r, b ∈ seen -> ParseFromArray b = Some r -> exists rq, rq ∈ rqs /\ r = served reg rq.

(** [got] answers all of [sent]. *)
Definition exhaustive (sent got : bytes) : Prop :=
  forall rqs bodies seen, Forall valid rqs -> Forall2 carries rqs bodies ->
    sent = concat (map frame_of bodies) -> Forall fits seen -> got = concat (map frame_of seen) ->
    forall rq, rq ∈ rqs -> exists b, b ∈ seen /\ ParseFromArray b = Some (served reg rq).

End contract.

(** ** Invariant *)

Section invariant.
Context `{ProtoLaws RpcRequest} `{ProtoLaws RpcResponse}.
Context (copts : RpcClientOptions) (reg : registry).
Context (Hheartbeat : forall n, 0 <= n < 2 ^ 64 -> valid reg (heartbeat_request n)).

(** A request the client has sent: a call's, or a heartbeat. *)
Definition known (rqs : list RpcRequest) (rq : RpcRequest) : Prop :=
  (rq ∈ rqs /\ rq_request_id rq <> "") \/ exists n, 0 <= n < 2 ^ 64 /\ rq = heartbeat_request n.

(** Identifiers that have been given out. *)
Definition used (k : client) (rqs : list RpcRequest) : Prop :=
  Forall (fun rq => rq_request_id rq = "" \/
    exists n, 0 < n <= next_id_ k /\ rq_request_id rq = to_string n) rqs.

Abbreviation waiting c id := (awaited (pending_calls_ (cl_client c)) id).

(** A connection that no heartbeat has garbled: whole requests have been sent on it, those of the
    calls that wait among them, and what has been read are whole frames, which no call waits for
    any more, and the rest the dispatcher keeps. *)
Definition clean (c : caller) : Prop :=
  (exists rqs bodies, Forall2 carries rqs bodies /\ Forall (known (cl_issued c)) rqs /\
     cl_sent c = concat (map frame_of bodies) /\
     forall rq, rq ∈ cl_issued c -> rq_request_id rq <> "" -> waiting c (rq_request_id rq) -> rq ∈ rqs) /\
  (dispatcher_running_ (cl_client c) = true ->
     exists fs, Forall fits fs /\ cl_got c = concat (map frame_of fs) ++ read_buffer (cl_dispatcher c) /\
       forall b r, b ∈ fs -> ParseFromArray b = Some r -> starts_with "hb_" (rs_request_id r) = false ->
         exists rq, rq ∈ cl_issued c /\ rq_request_id rq <> "" /\ rs_request_id r = rq_request_id rq /\
           ~ waiting c (rq_request_id rq)).

(** After [n] steps. *)
Record caller_ok (n : Z) (c : caller) : Prop := {
  co_calls : exists ops, calls_ok reg (cl_cut c) (pending_calls_ (cl_client c))
    (cl_happened c) (cl_issued c) (cl_unbound c) (cl_ready c) ops;
  co_next : 0 <= next_id_ (cl_client c) <= n;
  co_used : used (cl_client c) (cl_issued c);
  co_running : dispatcher_running_ (cl_client c) = true -> connected c = true;
  co_clean : cl_cut c = false -> connected c = true -> clean c;
  co_off : connected c = false -> forall id, ~ waiting c id;
}.

Lemma caller_ok_mono n n' c : n <= n' -> caller_ok n c -> caller_ok n' c.
Proof. intros Hn []. split; try done. lia. Qed.

Lemma new_caller_ok : caller_ok 0 new_caller.
Proof.
  split; try done; [|constructor|by intros _ id (sl & E & _)]. exists []. split; [done|constructor|done| |constructor| |by intros i].
  - intros i rq Hi. by apply not_elem_of_nil in Hi.
  - intros p Hp. by apply not_elem_of_nil in Hp.
Qed.

Lemma known_valid rqs rqs' : all_valid reg rqs -> Forall (known rqs) rqs' -> Forall (valid reg) rqs'.
Proof.
  intros Hv Hk. eapply Forall_impl; [exact Hk|]. intros rq [[Hin Hne]|(n & Hn & ->)]; [|auto].
  unfold all_valid in Hv. rewrite Forall_forall in Hv. auto.
Qed.

Lemma known_more rqs rqs' l : rqs `prefix_of` rqs' -> Forall (known rqs) l -> Forall (known rqs') l.
Proof.
  intros [m ->] Hk. eapply Forall_impl; [exact Hk|]. intros rq [[Hin Hne]|Hh]; [left|by right].
  split; [|done]. apply elem_of_app. by left.
Qed.

(** Fewer calls wait. *)
Lemma clean_fewer c c' :
  clean c -> (cl_issued c', cl_sent c', cl_got c', cl_dispatcher c') =
    (cl_issued c, cl_sent c, cl_got c, cl_dispatcher c) ->
  (dispatcher_running_ (cl_client c') = true -> dispatcher_running_ (cl_client c) = true) ->
  (forall id, waiting c' id -> waiting c id) -> clean c'.
Proof.
  intros [(rqs & bodies & L1 & L2 & L3 & L4) L5] E Hr Hw. injection E as E1 E2 E3 E4.
  split; rewrite ?E1, ?E2, ?E3, ?E4.
  - exists rqs, bodies. split; [done|]. split; [done|]. split; [done|]. auto.
  - intros Hrun. destruct (L5 (Hr Hrun)) as (fs & F1 & F2 & F3). exists fs. split; [done|]. split; [done|].
    intros b r Hb Hp Hhb. destruct (F3 b r Hb Hp Hhb) as (rq & Hq & Hne & Hid & Hn). exists rq.
    split; [done|]. split; [done|]. split; [done|]. auto.
Qed.

(** *** Steps without traffic *)

Lemma caller_ok_bind n c i now c' :
  caller_ok n c -> caller_step copts c (KBind i now) = Some c' -> caller_ok (n + 1) c'.
Proof.
  intros [[ops C] N U R L O] E. cbn [caller_step] in E. unfold caller_bind in E.
  destruct (cl_unbound c !! i) as [j|] eqn:Ei; [|done].
  destruct (cl_issued c !! j) as [rq|] eqn:Ej; [|done]. unfold CallAsync_bind in E.
  pose proof (calls_ok_bind reg _ _ _ _ _ _ _ i j rq (now + recv_timeout copts) C Ei Ej) as Hb.
  pose proof (fun id => step_awaited (pending_calls_ (cl_client c))
    (OpBindAsync (rq_request_id rq) j (now + recv_timeout copts)) id eq_refl) as Ha. cbn [PendingCalls.step] in Ha.
  destruct (BindAsync _ _ _ _) as [[b t'] e]. destruct Hb as [-> Hb]. injection E as <-. cbn [fst] in Ha.
  split; cbn; rewrite ?app_nil_r; try done; [by eexists|lia|..].
  - intros Hg Hc. apply (clean_fewer c); [by apply L|cbn; by rewrite app_nil_r|done|].
    intros id Hid. by destruct (Ha id Hid).
  - intros Hc id Hid. destruct (Ha id Hid) as [Hw|]; [|done]. by apply (O Hc id).
Qed.

Lemma calls_ok_fail_all c ops r t e :
  calls_ok reg (cl_cut c) (pending_calls_ (cl_client c)) (cl_happened c) (cl_issued c)
    (cl_unbound c) (cl_ready c) ops ->
  RpcCallResult_ok r = false -> FailAll (pending_calls_ (cl_client c)) r = (t, e) ->
  calls_ok reg (cl_cut c) t (cl_happened c ++ e) (cl_issued c) (cl_unbound c) (cl_ready c)
    (ops ++ [OpFailAll r]).
Proof.
  intros C Hr E. eapply calls_ok_sweep; [exact C|done|by constructor|by constructor|].
  cbn [run PendingCalls.step]. by rewrite E, app_nil_r.
Qed.

Lemma caller_ok_close n c c' :
  caller_ok n c -> caller_step copts c KClose = Some c' -> caller_ok (n + 1) c'.
Proof.
  intros [[ops C] N U R L O] E. cbn [caller_step] in E. unfold Close in E.
  destruct (FailAll _ _) as [t e] eqn:Ef. injection E as <-.
  pose proof (FailAll_settled (pending_calls_ (cl_client c)) (err "connection closed")) as Hs. rewrite Ef in Hs.
  split; cbn; try done; [|lia|].
  - eexists. by apply (calls_ok_fail_all c ops (err "connection closed") t e C).
  - intros _ id. by apply settled_awaited.
Qed.

Lemma caller_ok_init n c a b c' :
  caller_ok n c -> caller_step copts c (KInit a b) = Some c' -> caller_ok (n + 1) c'.
Proof.
  intros [[ops C] N U R L O] E. cbn [caller_step] in E. unfold caller_init in E.
  destruct (dispatcher_running_ (cl_client c)) eqn:Er; [|done]. cbn [andb] in E.
  assert (forall t e m, FailAll (pending_calls_ (cl_client c)) (err m) = (t, e) ->
    caller_ok (n + 1) (goes_on (with_running (with_pending (cl_client c) t) false) e [] c)) as Hf.
  { intros t e m Ef. pose proof (FailAll_settled (pending_calls_ (cl_client c)) (err m)) as Hs. rewrite Ef in Hs.
    split; cbn; try done; [|lia|..].
    - eexists. by apply (calls_ok_fail_all c ops (err m) t e C).
    - intros Hg Hc. apply (clean_fewer c); [by apply L|cbn; by rewrite app_nil_r|done|].
      intros id Hid. by apply settled_awaited in Hid.
    - intros _ id. by apply settled_awaited. }
  unfold DispatcherLoop in E. rewrite (R eq_refl), Er in E.
  destruct a, b; try done; cbn [andb negb] in E; destruct (FailAll _ _) as [t e] eqn:Ef;
    injection E as <-; by eapply Hf.
Qed.

(** *** The dispatcher *)

Lemma used_mono k k' rqs : next_id_ k <= next_id_ k' -> used k rqs -> used k' rqs.
Proof.
  intros Hn Hu. eapply Forall_impl; [exact Hu|]. intros rq [->|(n & Hr & ->)]; [by left|right].
  exists n. split; [lia|done].
Qed.

Lemma heartbeat_id n : starts_with "hb_" (rq_request_id (heartbeat_request n)) = true.
Proof. unfold starts_with. simpl. by destruct (to_string n). Qed.

(** The responses of an iteration are answers to calls of this client. *)
Lemma dispatcher_answers c bs seen rs rest r :
  clean c -> all_valid reg (cl_issued c) -> dispatcher_running_ (cl_client c) = true ->
  honest reg (cl_sent c) (cl_got c ++ bs) ->
  read_buffer (cl_dispatcher c) ++ bs = concat (map frame_of seen) ++ rest ->
  Forall fits seen -> Forall2 (fun b r => ParseFromArray b = Some r) seen rs -> r ∈ rs ->
  starts_with "hb_" (rs_request_id r) = false ->
  exists rq, rq ∈ cl_issued c /\ rq_request_id rq <> "" /\ r = served reg rq.
Proof.
  intros [(rqs & bodies & Hc & Hk & Es & _) Hrd] Hv Hrun Hh Eb Hf Hp [i Hi]%list_elem_of_lookup Hhb.
  destruct (Hrd Hrun) as (fs & Hfs & Eg & _).
  destruct (Forall2_lookup_r _ _ _ i r Hp Hi) as (b & Hb & Hparse). apply list_elem_of_lookup_2 in Hb.
  destruct (Hh rqs bodies (fs ++ seen) rest (known_valid _ _ Hv Hk) Hc Es) with b r as (rq & Hq & ->); try done.
  - by apply Forall_app.
  - rewrite Eg, map_app, concat_app, <- !app_assoc. f_equal. exact Eb.
  - apply elem_of_app. by right.
  - rewrite served_id in Hhb. rewrite Forall_forall in Hk.
    destruct (Hk rq Hq) as [[Hin Hne]|(n & _ & ->)]; [by exists rq|by rewrite heartbeat_id in Hhb].
Qed.

Lemma dispatcher_ops_ok rqs rs op :
  (forall r, r ∈ rs -> starts_with "hb_" (rs_request_id r) = false ->
     exists rq, rq ∈ rqs /\ rq_request_id rq <> "" /\ r = served reg rq) ->
  from_dispatcher rs op -> op_ok reg false rqs op.
Proof.
  intros Ha [Hop|(f & Hf' & [->|[now ->]])]; [|done..].
  unfold completes in Hop. apply list_elem_of_omap in Hop as (r & Hr & E).
  destruct (starts_with _ _) eqn:Ehb; [done|]. injection E as <-.
  destruct (Ha r Hr Ehb) as (rq & [j Hj]%list_elem_of_lookup & Hne & ->). right. right.
  exists j, rq. by rewrite served_id.
Qed.

(** They end the wait for them. *)
Lemma completes_elem rs r :
  r ∈ rs -> starts_with "hb_" (rs_request_id r) = false ->
  OpComplete (rs_request_id r) (mapped_result r) ∈ completes rs.
Proof. intros Hr Hhb. unfold completes. apply list_elem_of_omap. exists r. by rewrite Hhb. Qed.

Lemma sweeping_no_add ops id : Forall (fun op => sweeping op = true) ops -> OpAdd id ∉ ops.
Proof. rewrite Forall_forall. intros Hs Hin. by apply Hs in Hin. Qed.

Lemma sweeping_gentle ops :
  Forall (fun op => sweeping op = true) ops -> Forall (fun op => gentle op = true) ops.
Proof. intros Hs. eapply Forall_impl; [exact Hs|]. by intros []. Qed.

(** On a garbled connection nothing is known. *)
Lemma garbled_ops_ok rqs rs op : from_dispatcher rs op -> op_ok reg true rqs op.
Proof.
  intros [Hop|(f & Hf & [->|[now ->]])]; [|done..]. unfold completes in Hop.
  apply list_elem_of_omap in Hop as (r & _ & Er). destruct (starts_with _ _); [done|].
  injection Er as <-. by left.
Qed.

(** What an iteration sends is a heartbeat, unless it is cut. *)
Lemma iteration_sends k k' rqs bs script :
  bs = [] /\ next_id_ k' = next_id_ k \/
    next_id_ k' = wrap64 (next_id_ k + 1) /\
    (exists c0 ok we, send_request c0 (heartbeat_request (next_id_ k')) script = Some (ok, we, bs)) ->
  whole bs = true ->
  0 <= next_id_ k' < 2 ^ 64 ->
  exists rqs' bodies, Forall2 carries rqs' bodies /\ Forall (known rqs) rqs' /\
    bs = concat (map frame_of bodies).
Proof.
  intros [[-> _]|[_ (c0 & ok & we & Hs)]] Hw Hn; [by exists [], []|].
  destruct (send_request_whole _ _ _ _ _ _ Hs Hw) as [->|(body & B1 & B2 & ->)]; [by exists [], []|].
  exists [heartbeat_request (next_id_ k')], [body]. split; [by constructor|]. split.
  - constructor; [|done]. right. by exists (next_id_ k').
  - cbn. by rewrite app_nil_r.
Qed.

Lemma caller_ok_iterate n c e c' :
  caller_ok n c -> n + 1 < 2 ^ 64 -> all_valid reg (cl_issued c) ->
  caller_step copts c (KIterate e) = Some c' ->
  honest reg (cl_sent c) (cl_got c ++ taken (KIterate e)) -> caller_ok (n + 1) c'.
Proof.
  intros [[ops C] N U R L O] Hn Hv E Hh. cbn [caller_step] in E. unfold caller_iterate in E.
  destruct (dispatcher_running_ (cl_client c)) eqn:Hrun; [|done].
  destruct (dispatcher_iteration _ _ _ _) as [[[[k d] es] bs]|] eqn:Ei; [|done]. injection E as <-.
  destruct (iteration_ops _ _ _ _ _ _ _ _ Ei) as
    ((ops2 & seen & rs & rest' & Q1 & Q2 & Qc & Q3 & Q4 & Q5 & Q6) & Hsock & Hsend).
  cbn [taken] in *. set (bt := match ie_wait e with kReadable => _ | _ => _ end) in *. clearbody bt.
  assert (Forall (fun op => sweeping op = true) ops2) as Hsweep.
  { eapply Forall_impl; [exact Q2|]. intros op. apply from_dispatcher_sweeping. }
  pose proof (fun id => run_awaited ops2 id (pending_calls_ (cl_client c)) (sweeping_gentle _ Hsweep)) as Hfewer.
  pose proof (fun id r => completed_run ops2 id r (pending_calls_ (cl_client c)) (sweeping_gentle _ Hsweep)) as Hover.
  rewrite Q1 in Hfewer, Hover. cbn [fst] in Hfewer, Hover.
  assert (forall id, awaited (pending_calls_ k) id -> waiting c id) as Hw.
  { intros id Hid. destruct (Hfewer id Hid) as [?|Hin]; [done|]. by apply sweeping_no_add in Hin. }
  assert (cl_cut c = false -> forall r, r ∈ rs -> starts_with "hb_" (rs_request_id r) = false ->
    exists rq, rq ∈ cl_issued c /\ rq_request_id rq <> "" /\ r = served reg rq) as Hans.
  { intros Hg r Hr Hhb. eapply (dispatcher_answers c bt); eauto. }
  assert (next_id_ k = next_id_ (cl_client c) \/ next_id_ k = next_id_ (cl_client c) + 1) as Hnext.
  { destruct Hsend as [[_ ->]|[-> _]]; [by left|right]. apply wrap64_small. unfold two64. lia. }
  split; cbn [read_on goes_on cl_client cl_happened cl_issued cl_unbound cl_ready cl_cut].
  - exists (ops ++ ops2). eapply calls_ok_sweep; [exact C|by intros ->|done| |exact Q1].
    eapply Forall_impl; [exact Q2|]. intros op Hop. destruct (cl_cut c) eqn:Eg.
    + by eapply garbled_ops_ok.
    + apply (op_ok_mono reg false _ (cl_issued c) _ op); [done|done|]. eapply dispatcher_ops_ok; [|exact Hop]. auto.
  - lia.
  - eapply used_mono; [|exact U]. lia.
  - rewrite Hsock. intros _. by apply R.
  - intros [Hg Hwhole]%orb_false_iff Hc. rewrite Hsock in Hc. apply negb_false_iff in Hwhole.
    destruct (L Hg Hc) as [(rqs & bodies & L1 & L2 & L3 & L3') L4]. destruct (L4 Hrun) as (fs & Hfs & Egot & Hfs').
    destruct (iteration_sends _ _ (cl_issued c) _ _ Hsend Hwhole ltac:(lia)) as (rqs' & bodies' & K1 & K2 & ->).
    split; cbn [read_on goes_on cl_client cl_sent cl_got cl_issued cl_dispatcher].
    + exists (rqs ++ rqs'), (bodies ++ bodies'). split; [by apply Forall2_app|]. split; [by apply Forall_app|].
      split; [by rewrite L3, map_app, concat_app|]. intros rq Hq Hne Hwait. apply elem_of_app. left. auto.
    + intros Hrun'. exists (fs ++ seen). split; [by apply Forall_app|]. split.
      * rewrite Egot, map_app, concat_app, <- !app_assoc. f_equal. by rewrite Q5, (Q6 Hrun Hrun').
      * intros b r [Hb|Hb]%elem_of_app Hparse Hhb.
        -- destruct (Hfs' b r Hb Hparse Hhb) as (rq & Hq & Hne & Hid & Hnw). exists rq.
           split; [done|]. split; [done|]. split; [done|]. auto.
        -- apply list_elem_of_lookup in Hb as [i Hi].
           destruct (Forall2_lookup_l _ _ _ i b Q3 Hi) as (r' & Hr' & Hparse').
           assert (r' = r) as -> by congruence. apply list_elem_of_lookup_2 in Hr'.
           destruct (Hans Hg r Hr' Hhb) as (rq & Hq & Hne & ->). exists rq. rewrite served_id in *.
           split; [done|]. split; [done|]. split; [done|].
           eapply Hover; [|by apply sweeping_no_add]. apply Qc. rewrite <- (served_id reg rq).
           apply completes_elem; [done|]. by rewrite served_id.
  - rewrite Hsock. intros Hc. by rewrite (R eq_refl) in Hc.
Qed.

(** *** Calls *)

Lemma used_fresh k rqs id t t' :
  used k rqs -> 0 <= next_id_ k -> next_id_ k + 1 < 2 ^ 64 ->
  id = to_string (wrap64 (next_id_ k + 1)) -> Add t id = (true, t') ->
  forall rq, rq ∈ rqs -> rq_request_id rq <> id.
Proof.
  intros Hu H0n Hn -> Ha rq Hq E. unfold used in Hu. rewrite Forall_forall in Hu.
  rewrite wrap64_small in * by (unfold two64; lia).
  destruct (Hu rq Hq) as [E'|(n & Hr & E')]; rewrite E in E'.
  - rewrite E' in Ha. done.
  - apply to_string_inj in E'; lia.
Qed.

Lemma used_snoc k k' rqs rq :
  used k rqs -> next_id_ k <= next_id_ k' ->
  rq_request_id rq = "" \/ (exists n, 0 < n <= next_id_ k' /\ rq_request_id rq = to_string n) ->
  used k' (rqs ++ [rq]).
Proof. intros Hu Hn Hr. apply Forall_app. split; [by eapply used_mono|by constructor]. Qed.

Lemma Connect_false_unconnected k ce :
  fst (Connect k ce) = false -> UniqueFd.Valid (sock_ k) = false.
Proof.
  intros Hf. destruct (UniqueFd.Valid (sock_ k)) eqn:Ev; [|done].
  destruct (Connect_pending k ce) as (_ & _ & _ & Hs & _). by rewrite (Hs Ev) in Hf.
Qed.

(** The connection of a call that has connected, or was connected. *)
Definition on_line (now : Z) (a : caller_action) (c : caller) : caller :=
  if reconnects c a then new_connection now c else c.

Lemma on_line_same now a c :
  (cl_client (on_line now a c), cl_issued (on_line now a c), cl_happened (on_line now a c),
   cl_unbound (on_line now a c), cl_ready (on_line now a c), cl_cut (on_line now a c)) =
  (cl_client c, cl_issued c, cl_happened c, cl_unbound c, cl_ready c, cl_cut c).
Proof. unfold on_line. by destruct (reconnects c a). Qed.

Lemma caller_step_call c now ce service method payload script :
  let a := KCall now ce service method payload script in
  caller_step copts c a =
  match Call_begin (cl_client c) ce service method payload script with
  | None => None
  | Some (inr id, k, es, bs) =>
      Some (add_call {| rq_request_id := id; rq_service_name := service;
                        rq_method_name := method; rq_payload := payload |}
              (goes_on k es bs (on_line now a c)))
  | Some (inl r, k, es, bs) => Some (add_failed service method payload r (goes_on k es bs (on_line now a c)))
  end.
Proof. intros a. unfold a. cbn [caller_step]. unfold caller_call, on_line. by destruct (reconnects c _). Qed.

(** More requests on it. *)
Lemma on_line_clean now ce sv m p sc c c' rqs bodies :
  let a := KCall now ce sv m p sc in
  (connected c = true -> clean c) -> (connected c = false -> forall id, ~ waiting c id) ->
  fst (Connect (cl_client c) ce) = true ->
  (dispatcher_running_ (cl_client c') = true ->
   dispatcher_running_ (snd (Connect (cl_client c) ce)) = true) ->
  cl_issued c `prefix_of` cl_issued c' -> Forall2 carries rqs bodies -> Forall (known (cl_issued c')) rqs ->
  cl_sent c' = cl_sent (on_line now a c) ++ concat (map frame_of bodies) ->
  cl_got c' = cl_got (on_line now a c) -> cl_dispatcher c' = cl_dispatcher (on_line now a c) ->
  (forall rq, rq ∈ cl_issued c' -> rq_request_id rq <> "" -> waiting c' (rq_request_id rq) ->
     rq ∈ rqs \/ rq ∈ cl_issued c /\ waiting c (rq_request_id rq)) ->
  (forall rq, rq ∈ cl_issued c -> rq_request_id rq <> "" -> waiting c' (rq_request_id rq) ->
     waiting c (rq_request_id rq)) ->
  clean c'.
Proof.
  intros a Hcl Hoff Hc Hrun Hp Hcar Hk Es Eg Ed Hnew Hold. unfold on_line, a, reconnects in *. rewrite Hc in *.
  destruct (Connect_pending (cl_client c) ce) as (_ & _ & _ & Hsame & _).
  destruct (connected c) eqn:Ev; cbn [negb andb] in *.
  - rewrite (Hsame eq_refl) in Hrun. destruct (Hcl eq_refl) as [(rqs0 & bodies0 & L1 & L2 & L3 & L3') L4]. split.
    + exists (rqs0 ++ rqs), (bodies0 ++ bodies). split; [by apply Forall2_app|]. split; [|split].
      * apply Forall_app. split; [by eapply known_more|done].
      * by rewrite Es, L3, map_app, concat_app.
      * intros rq Hq Hne Hw. apply elem_of_app. destruct (Hnew rq Hq Hne Hw) as [?|[Hq0 Hw0]]; auto.
    + intros Hr. rewrite Eg, Ed. destruct (L4 (Hrun Hr)) as (fs & F1 & F2 & F3). exists fs.
      split; [done|]. split; [done|]. intros b r Hb Hparse Hhb.
      destruct (F3 b r Hb Hparse Hhb) as (rq & Hq & Hne & Hid & Hnw). exists rq.
      destruct Hp as [l ->]. split; [apply elem_of_app; by left|]. split; [done|]. split; [done|].
      intros Hw. by apply Hnw, Hold.
  - split.
    + exists rqs, bodies. split; [done|]. split; [done|]. split; [done|]. intros rq Hq Hne Hw.
      destruct (Hnew rq Hq Hne Hw) as [?|[_ Hw0]]; [done|]. by apply (Hoff eq_refl) in Hw0.
    + intros _. exists []. rewrite Eg, Ed. split; [done|]. split; [done|].
      intros b r Hb. by apply not_elem_of_nil in Hb.
Qed.

(** A call that has been sent. *)
Lemma caller_ok_called n c now ce service method payload script k body :
  let a := KCall now ce service method payload script in
  let rq := {| rq_request_id := to_string (wrap64 (next_id_ (cl_client c) + 1));
               rq_service_name := service; rq_method_name := method; rq_payload := payload |} in
  caller_ok n c -> n + 1 < 2 ^ 64 -> fst (Connect (cl_client c) ce) = true ->
  next_id_ k = wrap64 (next_id_ (cl_client c) + 1) ->
  Add (pending_calls_ (cl_client c)) (rq_request_id rq) = (true, pending_calls_ k) ->
  sock_ k = sock_ (snd (Connect (cl_client c) ce)) ->
  dispatcher_running_ k = dispatcher_running_ (snd (Connect (cl_client c) ce)) ->
  SerializeToArray rq = Some body -> fits body ->
  caller_ok (n + 1) (add_call rq (goes_on k [] (frame_of body) (on_line now a c))).
Proof.
  intros a rq [[ops C] N U R L O] Hn Hf En Ea Es Er Eb Hb.
  pose proof (fun c' rqs bodies Hg => on_line_clean now ce service method payload script c c' rqs bodies (L Hg) O)
    as Hclean. fold a in Hclean.
  pose proof (on_line_same now a c) as Hs. injection Hs as S1 S2 S3 S4 S5 S6.
  set (c1 := on_line now a c) in *. clearbody c1.
  destruct (Connect_pending (cl_client c) ce) as (_ & _ & _ & _ & Hyes).
  pose proof (wrap64_small (next_id_ (cl_client c) + 1)) as Hwrap. unfold two64 in Hwrap.
  pose proof (used_fresh _ _ _ _ _ U (proj1 N) ltac:(lia) eq_refl Ea) as Hnew.
  assert (forall id, awaited (pending_calls_ k) id -> waiting c id \/ id = rq_request_id rq) as Hadd.
  { intros id Hid. destruct (step_awaited (pending_calls_ (cl_client c)) (OpAdd (rq_request_id rq)) id eq_refl)
      as [?|E]; [|by left|right; by injection E as E].
    cbn [PendingCalls.step]. by rewrite Ea. }
  split; cbn; rewrite ?S2, ?S3, ?S4, ?S5, ?S6, ?app_nil_r; try done.
  - eexists. by eapply (calls_ok_add reg _ _ _ _ _ _ _ rq).
  - rewrite En, Hwrap; lia.
  - eapply used_snoc; [done|rewrite En, Hwrap; lia|right]. exists (next_id_ k).
    rewrite En. split; [rewrite Hwrap; lia|done].
  - rewrite Es. intros _. by apply Hyes.
  - intros Hg _. eapply (Hclean _ [rq] [body] Hg Hf); cbn; rewrite ?S2, ?app_nil_r; try done.
    + by rewrite Er.
    + by apply prefix_app_r.
    + by constructor.
    + constructor; [|done]. left. split; [apply elem_of_app; right; apply list_elem_of_here|].
      intros E0. by rewrite E0 in Ea.
    + intros rq' [Hq| ->%list_elem_of_singleton]%elem_of_app Hne Hw; [|left; apply list_elem_of_here].
      right. split; [done|]. destruct (Hadd _ Hw) as [?|Eid]; [done|]. by apply Hnew in Hq.
    + intros rq' Hq Hne Hw. destruct (Hadd _ Hw) as [?|Eid]; [done|]. by apply Hnew in Hq.
  - intros Hc. rewrite Es, Hyes in Hc by done. done.
Qed.

Lemma caller_ok_call n c now ce service method payload script c' :
  caller_ok n c -> n + 1 < 2 ^ 64 ->
  caller_step copts c (KCall now ce service method payload script) = Some c' -> caller_ok (n + 1) c'.
Proof.
  intros Hok Hn E. rewrite caller_step_call in E.
  set (a := KCall now ce service method payload script) in *.
  destruct (Call_begin _ _ _ _ _ _) as [[[[res k] es] bs]|] eqn:Ec; [|done].
  pose proof (Call_begin_cases _ _ _ _ _ _ _ _ _ _ Ec) as
    [(Hf & -> & -> & -> & ->)|(Hf & En & [(-> & Ep & Es & Er & -> & ->)|
      [(-> & Ea & Es & Er & -> & body & Eb & -> & Hb)|(r & t & -> & Hr & Ea & Erun & Es & Er)]])];
    injection E as <-; [| |by apply caller_ok_called|]; destruct Hok as [[ops C] N U R L O];
    pose proof (on_line_clean now ce service method payload script c) as Hclean; cbv zeta in Hclean; fold a in Hclean;
    pose proof (on_line_same now a c) as Hs; injection Hs as S1 S2 S3 S4 S5 S6;
    set (c1 := on_line now a c) in *; clearbody c1;
    destruct (Connect_pending (cl_client c) ce) as (_ & _ & _ & _ & Hyes);
    pose proof (wrap64_small (next_id_ (cl_client c) + 1)) as Hwrap; unfold two64 in Hwrap;
    split; cbn; rewrite ?S2, ?S3, ?S4, ?S5, ?S6, ?app_nil_r; try done.
  - exists ops. by apply calls_ok_over.
  - lia.
  - eapply used_snoc; [done|done|by left].
  - intros Hg Hc. by rewrite (Connect_false_unconnected _ _ Hf) in Hc.
  - exists ops. rewrite Ep. by apply calls_ok_over.
  - rewrite En, Hwrap; lia.
  - eapply used_snoc; [done|rewrite En, Hwrap; lia|by left].
  - rewrite Es. intros _. by apply Hyes.
  - intros Hg _. eapply (Hclean _ [] [] (L Hg) O Hf); cbn; rewrite ?S2, ?Ep, ?app_nil_r; try done.
    + by rewrite Er.
    + by apply prefix_app_r.
    + intros rq [Hq| ->%list_elem_of_singleton]%elem_of_app Hne Hw; [by right|done].
  - intros Hc. rewrite Es, Hyes in Hc by done. done.
  - eexists. apply calls_ok_over; [|done|done].
    by eapply (calls_ok_aborted reg _ _ _ _ _ _ _ _ t r (err "connection closed")).
  - rewrite En, Hwrap; lia.
  - eapply used_snoc; [done|rewrite En, Hwrap; lia|by left].
  - rewrite Er. done.
  - intros Hg Hc. congruence.
  - intros _ id. apply settled_awaited. exact (run_ends_settled _ [_; _] _ _ _ Erun).
Qed.

Lemma caller_step_issued c a c' :
  caller_step copts c a = Some c' -> cl_issued c `prefix_of` cl_issued c'.
Proof.
  intros E. destruct a as [now ce sv m p sc|i now|e|a b|]; [rewrite caller_step_call in E|cbn [caller_step] in E..];
    unfold caller_bind, caller_iterate, caller_init in E.
  - pose proof (on_line_same now (KCall now ce sv m p sc) c) as Hs. injection Hs as _ <- _ _ _ _.
    destruct (Call_begin _ _ _ _ _ _) as [[[[[|] k] es] bs]|]; simplify_eq/=; by apply prefix_app_r.
  - repeat split_match_in E; by simplify_eq/=.
  - repeat split_match_in E; by simplify_eq/=.
  - repeat split_match_in E; by simplify_eq/=.
  - repeat split_match_in E; by simplify_eq/=.
Qed.

Lemma caller_step_sent c a c' :
  caller_step copts c a = Some c' -> reconnects c a = false -> cl_sent c `prefix_of` cl_sent c'.
Proof.
  intros E Hr. destruct a as [now ce sv m p sc|i now|e|a b|]; cbn [caller_step] in E;
    unfold caller_call, caller_bind, caller_iterate, caller_init in E.
  - rewrite Hr in E. repeat split_match_in E; simplify_eq/=; by apply prefix_app_r.
  - repeat split_match_in E; simplify_eq/=; by apply prefix_app_r.
  - repeat split_match_in E; simplify_eq/=; by apply prefix_app_r.
  - repeat split_match_in E; simplify_eq/=; by apply prefix_app_r.
  - repeat split_match_in E; simplify_eq/=; by apply prefix_app_r.
Qed.

Lemma all_valid_prefix l l' : l `prefix_of` l' -> all_valid reg l' -> all_valid reg l.
Proof. intros [m ->] [Hv _]%Forall_app. done. Qed.

(** Every step keeps the invariant, when what is read answers what was sent. *)
Lemma caller_ok_step n c a c' :
  caller_ok n c -> n + 1 < 2 ^ 64 -> all_valid reg (cl_issued c) ->
  caller_step copts c a = Some c' ->
  (forall e, a = KIterate e -> honest reg (cl_sent c) (cl_got c ++ taken a)) ->
  caller_ok (n + 1) c'.
Proof.
  intros Hc Hn Hv E Hh. destruct a.
  - by eapply caller_ok_call.
  - by eapply caller_ok_bind.
  - eapply caller_ok_iterate; eauto.
  - by eapply caller_ok_init.
  - by eapply caller_ok_close.
Qed.

(** Closing, and every way the dispatcher stops, settle the table. *)
Lemma stop_settles n c a c' :
  caller_ok n c -> caller_step copts c a = Some c' -> stops c a c' ->
  settled (pending_calls_ (cl_client c')).
Proof.
  intros Hc E Hstop. destruct a as [now ce sv m p sc|i now|e|a b|]; cbn [caller_step] in E;
    unfold caller_call, caller_bind, caller_iterate, caller_init in E.
  - destruct Hstop as [|[H1r H2r]]; [done|]. pose proof (co_running _ _ Hc H1r) as Hon.
    destruct (Connect_pending (cl_client c) ce) as (_ & _ & _ & Hsame & _).
    unfold reconnects in E. rewrite Hon in E. cbn [negb andb] in E.
    destruct (Call_begin _ _ _ _ _ _) as [[[[res k] es] bs]|] eqn:Ec; [|done].
    destruct (Call_begin_cases _ _ _ _ _ _ _ _ _ _ Ec) as
      [(Hf & _)|(_ & _ & [(-> & _ & _ & Er & _)|[(-> & _ & _ & Er & _)|(r & t & -> & _ & _ & Erun & _)]])];
      [by rewrite (Hsame Hon) in Hf|..]; injection E as <-; cbn in H2r |- *.
    + rewrite Er, (Hsame Hon) in H2r. cbn in H2r. congruence.
    + rewrite Er, (Hsame Hon) in H2r. cbn in H2r. congruence.
    + exact (run_ends_settled _ [_; _] _ _ _ Erun).
  - destruct Hstop as [|[H1r H2r]]; [done|]. unfold CallAsync_bind in E.
    repeat split_match_in E; simplify_eq/=; congruence.
  - destruct Hstop as [|[H1r H2r]]; [done|]. rewrite H1r in E.
    destruct (dispatcher_iteration _ _ _ _) as [[[[k d] es] bs]|] eqn:Ei; [|done].
    injection E as <-. cbn in *. by eapply iteration_stop_settled.
  - destruct Hstop as [|[H1r H2r]]; [done|]. rewrite H1r in E. cbn [andb] in E.
    unfold DispatcherLoop in E. rewrite (co_running _ _ Hc H1r), H1r in E.
    assert (forall r, settled (fst (FailAll (pending_calls_ (cl_client c)) r))) as Hf
      by (intros r; apply FailAll_settled).
    destruct a, b; try done; cbn [andb negb] in E;
      destruct (FailAll _ _) as [t es] eqn:Ef; injection E as <-; cbn;
      match type of Ef with FailAll _ ?r = _ => specialize (Hf r) end; by rewrite Ef in Hf.
  - unfold Close in E. pose proof (FailAll_settled (pending_calls_ (cl_client c)) (err "connection closed")) as Hf.
    destruct (FailAll _ _) as [t es]. injection E as <-. exact Hf.
Qed.

(** *** What the invariant says *)

Lemma caller_once n c : caller_ok n c -> NoDup (fulfilled (cl_happened c) ++ map fst (cl_ready c)).
Proof. intros Hc. destruct (co_calls _ _ Hc) as [ops C]. by eapply calls_once. Qed.

Lemma caller_right n c p res :
  caller_ok n c -> cl_cut c = false -> SetValue p res ∈ cl_happened c \/ (p, res) ∈ cl_ready c ->
  exists rq, cl_issued c !! p = Some rq /\
    (RpcCallResult_ok res = false \/ res = mapped_result (served reg rq)).
Proof. intros Hc Hg. destruct (co_calls _ _ Hc) as [ops C]. rewrite Hg in C. by eapply calls_right. Qed.

Lemma caller_settled n c p :
  caller_ok n c -> settled (pending_calls_ (cl_client c)) -> (p < length (cl_issued c))%nat ->
  p ∉ cl_unbound c -> p ∈ fulfilled (cl_happened c) ++ map fst (cl_ready c).
Proof. intros Hc. destruct (co_calls _ _ Hc) as [ops C]. by eapply settled_calls. Qed.

(** When everything sent has been answered and read, nothing is awaited. *)
Lemma caller_answered n c p :
  caller_ok n c -> all_valid reg (cl_issued c) -> cl_cut c = false ->
  dispatcher_running_ (cl_client c) = true -> read_buffer (cl_dispatcher c) = [] ->
  exhaustive reg (cl_sent c) (cl_got c) -> (p < length (cl_issued c))%nat -> p ∉ cl_unbound c ->
  p ∈ fulfilled (cl_happened c) ++ map fst (cl_ready c).
Proof.
  intros Hc Hv Hg Hrun Hrb Hex Hl Hu. destruct (co_calls _ _ Hc) as [ops C]. apply elem_of_app.
  destruct (settled_or_waits reg _ _ _ _ _ _ _ p C Hl Hu) as [Hd|Hw]; [by apply elem_of_app|exfalso].
  destruct (waits_awaited reg _ _ _ _ _ _ _ p C Hw) as (rq & Hq & Hne & Ha).
  destruct (co_clean _ _ Hc Hg (co_running _ _ Hc Hrun)) as [(rqs & bodies & L1 & L2 & L3 & L4) L5].
  destruct (L5 Hrun) as (fs & F1 & F2 & F3). rewrite Hrb, app_nil_r in F2.
  apply list_elem_of_lookup_2 in Hq.
  destruct (Hex rqs bodies fs (known_valid _ _ Hv L2) L1 L3 F1 F2 rq (L4 rq Hq Hne Ha)) as (b & Hb & Hparse).
  pose proof (co_used _ _ Hc) as Hused. unfold used in Hused. rewrite Forall_forall in Hused.
  destruct (Hused rq Hq) as [?|(m & _ & Hid)]; [done|].
  destruct (F3 b _ Hb Hparse) as (rq' & _ & _ & Hid' & Hn); rewrite served_id in *.
  - rewrite Hid. apply to_string_not_heartbeat.
  - by rewrite Hid' in Ha.
Qed.

End invariant.
