(* ===== verification/Cluster.v ===== *)
(** * Any number of clients and a whole server

    The server of RpcServer.v - acceptor, workers, pool, life cycle - and any number of clients
    as in Caller.v, joined by TCP.  Every thread of the server, the kernel at its side, and every
    client act in any order; the server is started and stopped, connections fail, time out, are
    refused and replaced by new ones, descriptors and indices are used again, and other peers,
    about which nothing is known, connect to the same workers and send what they like.

    A connection of a client and the connection of a worker that belongs to it are put together
    by [XLink]: the model leaves open which one it is, as long as it is nobody else's.  TCP is
    what remains of the network: what arrives at either end is the beginning of what was sent at
    the other.  It may be cut anywhere, and the rest may be lost. *)

From Stdlib Require Import ZArith Lia.
From S2P Require Import Prelude RpcError Posix Codec Frames PendingCalls ServiceRegistry Proto3.
From S2P Require Import EventLoop RpcClient ConnBuffer Connection ConnHistory WorkerLoop WorkerServe.
From S2P Require Import RpcServer Network WorkerPeer Calls Caller.

Local Open Scope Z_scope.
Local Open Scope string_scope.
Local Open Scope list_scope.

(** ** The system *)

(** Where the connection of a client ends: not known to the server yet, at the connection with
    token [t] of worker [j], or nowhere, because the worker has gone. *)
Inductive link :=
  | Waiting
  | Linked (j : nat) (t : Z)
  | Severed.

#[export] Instance link_eq_dec : EqDecision link.
Proof. solve_decision. Defined.

(** A client with its connection: the bytes that have arrived at the server, and those the
    server has sent on it. *)
Record peer := {
  p_caller : caller;
  p_link : link;
  p_arrived : bytes;
  p_wire : bytes;
}.

(** [foreign]: connections of workers that belong to no connection of a client. *)
Record cluster := {
  server : RpcServer;
  peers : list peer;
  foreign : list (nat * Z);
}.

Inductive cluster_action :=
  | XServer (a : RpcServer.action)
  | XClient (i : nat) (a : caller_action)
  | XLink (i j : nat) (t : Z).

(** The first part of a stream. *)
Definition starts (l1 l2 : bytes) : bool := match after l1 l2 with Some _ => true | None => false end.

(** [bs] arrives at the connection with token [t] of worker [j]. *)
Definition deliver (j : nat) (t : Z) (bs : bytes) (p : peer) : option peer :=
  if decide (p_link p = Linked j t) then
    if starts (p_arrived p ++ bs) (cl_sent (p_caller p)) then
      Some {| p_caller := p_caller p; p_link := p_link p; p_arrived := p_arrived p ++ bs;
              p_wire := p_wire p |}
    else None
  else Some p.

(** What the connection with token [t] has sent, if there is or was one. *)
Definition wire_of (t : Z) (w : WorkerLoop) : option bytes :=
  snd <$> List.find (fun p => (fst p =? t)%Z) (sent_on w).

(** The client's end after a step of the server. *)
Definition refresh (s : RpcServer) (p : peer) : peer :=
  match p_link p with
  | Linked j t =>
      match workers_ s !! j with
      | Some sys =>
          {| p_caller := p_caller p; p_link := p_link p; p_arrived := p_arrived p;
             p_wire := default (p_wire p) (wire_of t (worker sys)) |}
      | None =>
          {| p_caller := p_caller p; p_link := Severed; p_arrived := p_arrived p; p_wire := p_wire p |}
      end
  | _ => p
  end.

(** The connection an action of the kernel is about, and what arrives on it. *)
Definition arrives (s : RpcServer) (a : RpcServer.action) : option (nat * Z * bytes) :=
  match a with
  | AWorker j (OpKernel fd _ rs _ _) =>
      match workers_ s !! j with
      | Some sys =>
          match connections_ (worker sys) !! fd with
          | Some st => Some (j, connection_token st, script_bytes rs)
          | None => None
          end
      | None => None
      end
  | _ => None
  end.

(** Those of workers that are gone are forgotten. *)
Definition remaining (s : RpcServer) (l : list (nat * Z)) : list (nat * Z) :=
  filter (fun q => is_Some (workers_ s !! fst q)) l.

Definition is_linked (j : nat) (t : Z) (ps : list peer) : bool :=
  existsb (fun p => bool_decide (p_link p = Linked j t)) ps.

Section cluster.
Context (reg : registry).
Context `{ProtoMessage RpcRequest} `{ProtoMessage RpcResponse}.
Context (copts : nat -> RpcClientOptions).

(** A server that has been constructed, and [clients] clients. *)
Definition first_cluster (port : Z) (workers threads stoppers clients : nat) : cluster :=
  {| server := make_server port workers threads stoppers;
     peers := replicate clients
       {| p_caller := new_caller; p_link := Waiting; p_arrived := []; p_wire := [] |};
     foreign := [] |}.

(** A step of the server, of its workers or of the kernel: a connection of a client gets the
    next of the bytes the client has sent, any other connection anything. *)
Definition server_step (x : cluster) (a : RpcServer.action) : option cluster :=
  let s := act reg (server x) a in
  match arrives (server x) a with
  | None =>
      Some {| server := s; peers := map (refresh s) (peers x); foreign := remaining s (foreign x) |}
  | Some (j, t, bs) =>
      match mapM (deliver j t bs) (peers x) with
      | None => None
      | Some ps =>
          Some {| server := s; peers := map (refresh s) ps;
                  foreign := remaining s (if is_linked j t (peers x) then foreign x
                                          else (j, t) :: foreign x) |}
      end
  end.

(** A step of client [i]: what it has read is the beginning of what the server has sent.  A new
    connection leaves the old one to nobody. *)
Definition client_step (x : cluster) (i : nat) (a : caller_action) : option cluster :=
  match peers x !! i with
  | None => None
  | Some p =>
      match caller_step (copts i) (p_caller p) a with
      | None => None
      | Some c =>
          if negb (starts (cl_got (p_caller p) ++ taken a) (p_wire p)) then None
          else if reconnects (p_caller p) a then
            Some {| server := server x;
                    peers := <[i := {| p_caller := c; p_link := Waiting; p_arrived := []; p_wire := [] |}]>
                               (peers x);
                    foreign := match p_link p with Linked j t => [(j, t)] | _ => [] end ++ foreign x |}
          else
            Some {| server := server x;
                    peers := <[i := {| p_caller := c; p_link := p_link p; p_arrived := p_arrived p;
                                       p_wire := p_wire p |}]> (peers x);
                    foreign := foreign x |}
      end
  end.

(** The connection of client [i] is the one with token [t] of worker [j]. *)
Definition link_step (x : cluster) (i j : nat) (t : Z) : option cluster :=
  match peers x !! i, workers_ (server x) !! j with
  | Some p, Some sys =>
      if bool_decide (p_link p = Waiting) && connected (p_caller p) &&
         existsb (fun q => (connection_token (snd q) =? t)%Z) (map_to_list (connections_ (worker sys))) &&
         negb (is_linked j t (peers x)) && negb (bool_decide ((j, t) ∈ foreign x))
      then
        Some {| server := server x;
                peers := <[i := refresh (server x)
                                  {| p_caller := p_caller p; p_link := Linked j t; p_arrived := [];
                                     p_wire := [] |}]> (peers x);
                foreign := foreign x |}
      else None
  | _, _ => None
  end.

Definition cluster_step (x : cluster) (a : cluster_action) : option cluster :=
  match a with
  | XServer a => server_step x a
  | XClient i a => client_step x i a
  | XLink i j t => link_step x i j t
  end.

Fixpoint cluster_steps (x : cluster) (acts : list cluster_action) : option cluster :=
  match acts with
  | [] => Some x
  | a :: acts => match cluster_step x a with Some x' => cluster_steps x' acts | None => None end
  end.

End cluster.

(** ** What the workers owe a client *)

Section contract.
Context `{ProtoLaws RpcRequest} `{ProtoLaws RpcResponse}.
Context (reg : registry).



(** *** The streams of a worker *)










End contract.

(** ** Invariant *)

Section invariant.
Context `{ProtoLaws RpcRequest} `{ProtoLaws RpcResponse}.
Context (reg : registry) (copts : nat -> RpcClientOptions).
Context (Hheartbeat : forall n, 0 <= n < 2 ^ 64 -> valid reg (heartbeat_request n)).







(** *** Steps of the server *)











(** *** Steps of a client *)





(** *** Runs *)






End invariant.

(** ** The property *)




(** ** Runs *)

Definition x_start : cluster := first_cluster 8080 2 1 1 2.

Definition x_run (acts : list cluster_action) : option cluster :=
  cluster_steps w_registry (fun _ => RpcClientOptions_default) x_start acts.

Definition x_state (acts : list cluster_action) : cluster := default x_start (x_run acts).

Definition x_peer (i : nat) (acts : list cluster_action) : peer :=
  default {| p_caller := new_caller; p_link := Severed; p_arrived := []; p_wire := [] |}
    (peers (x_state acts) !! i).

Definition x_conn (fd port : Z) : senv := w_env_with (inr [10]) (inr (fd, "127.0.0.1", port)).

Definition x_worker (j : nat) (o : op) : cluster_action := XServer (AWorker j o).

(** Worker [j] waits, and handles [events]. *)
Definition x_round (j : nat) (now : Z) (events : list (Z * epoll_flags)) : list cluster_action :=
  x_worker j (OpWorker (w_env now events)) ::
  replicate (if existsb (fun e => (fst e =? 5)%Z) events then 4 else 1) (x_worker j (OpWorker (w_env now []))).

Definition x_call (i : nat) (payload : string) (script : list send_event) : cluster_action :=
  XClient i (KCall 0 w_connect "Calc" "Add" payload script).

Definition x_read (i : nat) (now : Z) (bs : bytes) : cluster_action :=
  XClient i (KIterate {| ie_wait := kReadable; ie_now := now; ie_recv := [RecvBytes bs]; ie_send := [] |}).

Definition x_all : list send_event := [SendOk 100; SendOk 100].

(** The server starts with two workers; two clients are accepted, one by each, and call. *)
Definition x_called : list cluster_action :=
  map XServer (ABeginStart :: replicate 9 (AStart w_senv) ++ replicate 7 (AStart (x_conn 7 5000)) ++
               replicate 3 (AStart (x_conn 8 5001))) ++
  [x_call 0 "x" x_all; XClient 0 (KBind 0 0); x_call 1 "y" x_all; XClient 1 (KBind 0 0)] ++
  x_round 0 1 [(5, w_in)] ++ x_round 1 1 [(5, w_in)] ++ [XLink 0 0 1; XLink 1 1 1].

(** The request of client [i] on descriptor [fd] of worker [i] is read, executed and answered. *)
Definition x_serve (i : nat) (fd : Z) (before : list cluster_action) : list cluster_action :=
  let p := x_peer i before in
  [x_worker i (OpKernel fd 2 [RecvBytes (drop (length (p_arrived p)) (cl_sent (p_caller p)))] x_all [])] ++
  x_round i 2 [(fd, w_in)] ++ [x_worker i (OpRunTask 0); x_worker i OpWake] ++ x_round i 3 [(5, w_in)] ++
  x_round i 4 [(fd, w_out)].

Definition x_served : list cluster_action :=
  x_called ++ x_serve 0 7 x_called ++ x_serve 1 8 x_called.

Definition x_taken : list cluster_action :=
  x_served ++ [x_read 0 5 (p_wire (x_peer 0 x_served)); x_read 1 5 (p_wire (x_peer 1 x_served))].







(** With a shorter interval, the idle connection of client 0 sends a heartbeat of which the kernel
    takes seven bytes; then the client calls "z", all of it sent. *)
Definition x_options : RpcClientOptions :=
  {| send_timeout := 2000; recv_timeout := 2000; heartbeat_interval := 1000; heartbeat_timeout := 3000 |}.

Definition x_half : list cluster_action := x_taken ++
  [XClient 0 (KIterate {| ie_wait := kTimeout; ie_now := 1005; ie_recv := [];
                          ie_send := [SendOk 4; SendOk 3; SendErr EAGAIN] |});
   x_call 0 "z" x_all; XClient 0 (KBind 0 1006)].

Definition x_half_sent : bytes :=
  match cluster_steps w_registry (fun _ => x_options) x_start x_half with
  | Some x => default [] ((fun p => cl_sent (p_caller p)) <$> peers x !! 0%nat)
  | None => []
  end.

Definition x_stuck : list cluster_action :=
  x_half ++ [x_worker 0 (OpKernel 7 1007 [RecvBytes (drop 21 x_half_sent)] x_all [])] ++
  x_round 0 1007 [(7, w_in)].

Definition x_connection (x : cluster) : option Connection :=
  sys ← workers_ (server x) !! 0%nat; st ← connections_ (worker sys) !! 7; Some (connection st).

(** C36: a heartbeat cut short swallows the call that follows.  [SendHeartbeatRequest] gives up
    after a partial write without closing the connection, and its result is not looked at; the
    bytes of the next request are then taken for the rest of the heartbeat.  In this run the
    second call has been sent completely and every byte has been received by the server, which
    still waits for the end of a frame: the call is neither dispatched nor answered, neither
    side has noticed anything, and its promise waits. *)
Theorem cut_heartbeat_swallows_call :
  exists x p k, cluster_steps w_registry (fun _ => x_options) x_start x_stuck = Some x /\ peers x !! 0%nat = Some p /\ x_connection x = Some k /\
    let c := p_caller p in
    map rq_payload (cl_issued c) = ["x"; "z"] /\ cl_unbound c = [] /\ p_arrived p = cl_sent c /\
    recv_script k = [] /\ length (dispatched k) = 1%nat /\ unsent k = [] /\ cl_got c = p_wire p /\
    should_close_ k = false /\ view_frame (contents (read_buffer_ k)) = FIncomplete /\
    contents (read_buffer_ k) <> [] /\ dispatcher_running_ (cl_client c) = true /\
    fulfilled (cl_happened c) ++ map fst (cl_ready c) = [0%nat].
Proof.
  do 3 eexists. split; [vm_compute; reflexivity|]. split; [vm_compute; reflexivity|].
  split; [vm_compute; reflexivity|]. repeat split; vm_compute; congruence.
Qed.
