(* ===== verification/Json.v ===== *)
(** * JSON values, and the text library behind an interface

    The code graph service uses nlohmann::json, a library that is not part of the
    sources.  Its values are JSON values, and the member functions the sources call
    (find, contains, value, operator[], erase, push_back, get<int>) are written out
    here as the library documents them; an object is a [std::map], so its members are
    sorted by key.  Reading and printing text are the class [JsonText] with its
    documented laws [JsonTextLaws]; a [None] of [json_dump] is the exception thrown
    for a string that is not UTF-8.  The end of the file shows that the laws can be
    inhabited. *)

From Stdlib Require Import ZArith Lia Strings.Ascii Strings.String.
From stdpp Require Import countable.
From S2P Require Import Prelude.

Local Open Scope string_scope.
Local Open Scope list_scope.

(** ** Values *)

(** A number is an integer ([int64_t] or [uint64_t]) or has a fraction or exponent,
    and then only its text matters here. *)
Inductive json :=
  | JNull
  | JBool (b : bool)
  | JInt (z : Z)
  | JFloat (repr : string)
  | JString (s : string)
  | JArray (l : list json)
  | JObject (m : list (string * json)).

Section json_ind.
Context (P : json -> Prop).
Context (Hnull : P JNull) (Hbool : forall b, P (JBool b)) (Hint : forall z, P (JInt z)).
Context (Hfloat : forall r, P (JFloat r)) (Hstring : forall s, P (JString s)).
Context (Harray : forall l, Forall P l -> P (JArray l)).
Context (Hobject : forall m, Forall (fun kv => P (snd kv)) m -> P (JObject m)).

(** Induction that goes into arrays and objects. *)
Fixpoint json_induction (j : json) : P j :=
  match j with
  | JNull => Hnull
  | JBool b => Hbool b
  | JInt z => Hint z
  | JFloat r => Hfloat r
  | JString s => Hstring s
  | JArray l =>
      Harray l ((fix go l : Forall P l :=
                   match l with
                   | [] => Forall_nil_2 _
                   | x :: l => Forall_cons_2 _ x l (json_induction x) (go l)
                   end) l)
  | JObject m =>
      Hobject m ((fix go m : Forall (fun kv => P (snd kv)) m :=
                    match m with
                    | [] => Forall_nil_2 _
                    | kv :: m => Forall_cons_2 _ kv m (json_induction (snd kv)) (go m)
                    end) m)
  end.

End json_ind.

Definition is_object (j : json) : bool := match j with JObject _ => true | _ => false end.
Definition is_array (j : json) : bool := match j with JArray _ => true | _ => false end.
Definition is_null (j : json) : bool := match j with JNull => true | _ => false end.
Definition is_string (j : json) : bool := match j with JString _ => true | _ => false end.

(** ** Members of objects *)

Fixpoint member (k : string) (m : list (string * json)) : option json :=
  match m with
  | [] => None
  | (k', v) :: m => if String.eqb k k' then Some v else member k m
  end.

(** [find], and [at] where it succeeds: no member for a value that is no object. *)
Definition find (k : string) (j : json) : option json :=
  match j with JObject m => member k m | _ => None end.

Definition contains (k : string) (j : json) : bool :=
  match find k j with Some _ => true | None => false end.

(** Inserting or assigning keeps the members sorted. *)
Fixpoint set_member (k : string) (v : json) (m : list (string * json)) : list (string * json) :=
  match m with
  | [] => [(k, v)]
  | (k', v') :: m' =>
      match String.compare k k' with
      | Eq => (k, v) :: m'
      | Lt => (k, v) :: m
      | Gt => (k', v') :: set_member k v m'
      end
  end.

(** [j[k] = v]; [None]: the exception for a value that is neither null nor an object. *)
Definition assign (k : string) (v : json) (j : json) : option json :=
  match j with
  | JNull => Some (JObject [(k, v)])
  | JObject m => Some (JObject (set_member k v m))
  | _ => None
  end.

Definition erase (k : string) (j : json) : json :=
  match j with
  | JObject m => JObject (List.filter (fun kv => negb (String.eqb k (fst kv))) m)
  | _ => j
  end.

(** [Json{{k, v}, ...}]. *)
Definition object (l : list (string * json)) : json :=
  JObject (foldr (fun kv m => set_member (fst kv) (snd kv) m) [] l).

(** The values a range-based loop visits. *)
Definition items (j : json) : list json :=
  match j with
  | JNull => []
  | JArray l => l
  | JObject m => map snd m
  | _ => [j]
  end.

(** [get<int>()] of an integer: the conversion from 64 bits, without a check. *)
Definition to_int (z : Z) : Z := ((z + 2147483648) mod 4294967296 - 2147483648)%Z.

(** ** Values the library can produce *)

Fixpoint sorted_keys (m : list (string * json)) : bool :=
  match m with
  | (k, _) :: ((k', _) :: _) as m' =>
      match String.compare k k' with Lt => true | _ => false end && sorted_keys m'
  | _ => true
  end.

(** Objects are sorted, integers fit, every string satisfies [ok] and the text of every
    other number [num]. *)
Fixpoint wf_json (ok num : string -> bool) (j : json) : bool :=
  match j with
  | JNull | JBool _ => true
  | JInt z => (-9223372036854775808 <=? z)%Z && (z <? 18446744073709551616)%Z
  | JFloat r => num r
  | JString s => ok s
  | JArray l => forallb (wf_json ok num) l
  | JObject m => sorted_keys m && forallb (fun kv => ok (fst kv) && wf_json ok num (snd kv)) m
  end.

(** Some string in the value does not satisfy [ok]. *)
Fixpoint bad_text (ok : string -> bool) (j : json) : bool :=
  match j with
  | JString s => negb (ok s)
  | JArray l => existsb (bad_text ok) l
  | JObject m => existsb (fun kv => negb (ok (fst kv)) || bad_text ok (snd kv)) m
  | _ => false
  end.

(** ** Text *)

(** [json_parse]: the text of the parse error, or a value.  [json_dump]: [dump()];
    [json_dump2]: [dump(2)].  [text_ok]: UTF-8.  [number_ok]: the text the
    library prints for a number that is no integer.  [type_error]: the text of the exception
    when a value is not of the type asked for. *)
Class JsonText := {
  text_ok : string -> bool;
  number_ok : string -> bool;
  json_parse : string -> string + json;
  json_dump : json -> option string;
  json_dump2 : json -> option string;
  type_error : json -> string;
}.

Definition is_ascii (s : string) : bool :=
  forallb (fun c => (Ascii.nat_of_ascii c <? 128)%nat) (list_ascii_of_string s).

Definition no_newline (s : string) : bool :=
  forallb (fun c => negb (Ascii.eqb c "010"%char)) (list_ascii_of_string s).

(** The values the library reads and prints. *)
Definition json_ok `{JsonText} (j : json) : bool := wf_json text_ok number_ok j.

Class JsonTextLaws `{JsonText} : Prop := {
  ascii_text_ok : forall s, is_ascii s = true -> text_ok s = true;
  text_ok_app : forall s1 s2, text_ok s1 = true -> text_ok s2 = true -> text_ok (s1 +:+ s2) = true;
  dump_throws : forall j, bad_text text_ok j = true -> json_dump j = None;
  parse_wf : forall s j, json_parse s = inr j -> json_ok j = true;
  dump_defined : forall j, json_ok j = true -> is_Some (json_dump j);
  dump2_defined : forall j, json_ok j = true -> is_Some (json_dump2 j);
  parse_dump : forall j s, json_ok j = true -> json_dump j = Some s -> json_parse s = inr j;
  parse_dump2 : forall j s, json_ok j = true -> json_dump2 j = Some s -> json_parse s = inr j;
  dump_one_line : forall j s, json_dump j = Some s -> no_newline s = true;
  dump_not_empty : forall j s, json_dump j = Some s -> s <> "";
}.

(** ** Lemmas *)

Lemma compare_refl s : String.compare s s = Eq.
Proof. pose proof (String.compare_antisym s s) as E. by destruct (String.compare s s). Qed.

Lemma member_set k v m : member k (set_member k v m) = Some v.
Proof.
  induction m as [|[k' v'] m IH]; cbn [set_member member]; [by rewrite String.eqb_refl|].
  destruct (String.compare k k') eqn:E; cbn [member]; rewrite ?String.eqb_refl; [done|done|].
  destruct (String.eqb_spec k k') as [->|]; [|done].
  by rewrite compare_refl in E.
Qed.

Lemma member_set_ne k k' v m : k <> k' -> member k (set_member k' v m) = member k m.
Proof.
  intros Hn. induction m as [|[k1 v1] m IH]; cbn [set_member member].
  - by destruct (String.eqb_spec k k').
  - destruct (String.compare k' k1) eqn:E; cbn [member].
    + apply String.compare_eq_iff in E as ->. by destruct (String.eqb_spec k k1).
    + by destruct (String.eqb_spec k k').
    + by rewrite IH.
Qed.

Lemma find_object k l :
  find k (object l) =
  match List.find (fun kv => String.eqb k (fst kv)) l with Some kv => Some (snd kv) | None => None end.
Proof.
  unfold object, find. induction l as [|[k1 v1] l IH]; [done|]. cbn [foldr fst snd List.find].
  destruct (String.eqb_spec k k1) as [->|Hn]; [by rewrite member_set|]. by rewrite member_set_ne.
Qed.

Lemma to_int_range z : (-2147483648 <= to_int z < 2147483648)%Z.
Proof. unfold to_int. pose proof (Z.mod_pos_bound (z + 2147483648) 4294967296 ltac:(lia)). lia. Qed.

Lemma to_int_small z : (-2147483648 <= z < 2147483648)%Z -> to_int z = z.
Proof. intros Hz. unfold to_int. rewrite Z.mod_small by lia. lia. Qed.

Lemma member_wf ok num k m v :
  forallb (fun kv => ok (fst kv) && wf_json ok num (snd kv)) m = true -> member k m = Some v ->
  wf_json ok num v = true.
Proof.
  induction m as [|[k' v'] m IH]; [done|]. cbn [forallb member fst snd].
  rewrite !andb_true_iff. intros [[_ Hv] Hm]. destruct (String.eqb k k'); [by intros [= <-]|by apply IH].
Qed.

Section text_lemmas.
Context `{JsonTextLaws}.

(** Parts of values the library produces are such values. *)
Lemma find_json_ok k j v : json_ok j = true -> find k j = Some v -> json_ok v = true.
Proof.
  unfold json_ok. destruct j as [| | | | | |m]; try done. cbn [wf_json find]. rewrite andb_true_iff.
  intros [_ Hm]. by apply member_wf.
Qed.

Lemma dump_inj j1 j2 s :
  json_ok j1 = true -> json_ok j2 = true -> json_dump j1 = Some s -> json_dump j2 = Some s -> j1 = j2.
Proof. intros H1 H2 E1 E2. apply parse_dump in E1, E2; [|done|done]. congruence. Qed.

End text_lemmas.

(** ** Building values the library can print *)

Lemma wf_json_mono (ok1 ok2 num1 num2 : string -> bool) :
  (forall s, ok1 s = true -> ok2 s = true) -> (forall s, num1 s = true -> num2 s = true) ->
  forall j, wf_json ok1 num1 j = true -> wf_json ok2 num2 j = true.
Proof.
  intros Hok Hnum. induction j as [| | | | |l IH|m IH] using json_induction; cbn [wf_json]; auto.
  - induction IH as [|x l Hx _ IHl]; [done|]. cbn [forallb]. rewrite !andb_true_iff. intros [? ?]. auto.
  - rewrite !andb_true_iff. intros [Hs Hm]. split; [done|]. clear Hs. revert Hm.
    induction IH as [|[k v] m Hx _ IHl]; [done|]. cbn [forallb fst snd] in *.
    rewrite !andb_true_iff. intros [[? ?] ?]. auto.
Qed.

Lemma sorted_set k v m : sorted_keys m = true -> sorted_keys (set_member k v m) = true.
Proof.
  induction m as [|[k1 v1] m IH]; [done|]. intros Hs. cbn [set_member].
  destruct (String.compare k k1) eqn:E.
  - apply String.compare_eq_iff in E as ->. by destruct m.
  - cbn [sorted_keys] in *. rewrite E. exact Hs.
  - assert (sorted_keys m = true) as Hm.
    { destruct m as [|[k2 v2] m]; [done|]. cbn [sorted_keys] in Hs. apply andb_true_iff in Hs. tauto. }
    assert (String.compare k1 k = Lt) as E1.
    { rewrite String.compare_antisym, E. done. }
    specialize (IH Hm). destruct m as [|[k2 v2] m]; cbn [set_member] in *.
    + cbn [sorted_keys]. by rewrite E1.
    + destruct (String.compare k k2) eqn:E2; cbn [sorted_keys] in *; rewrite ?E1; try exact IH.
      apply andb_true_iff in Hs as [-> _]. exact IH.
Qed.

Section building.
Context `{JsonTextLaws}.

Definition members_ok (m : list (string * json)) : bool :=
  forallb (fun kv => text_ok (fst kv) && json_ok (snd kv)) m.

Lemma members_set k v m :
  text_ok k = true -> json_ok v = true -> members_ok m = true -> members_ok (set_member k v m) = true.
Proof.
  intros Hk Hv. unfold members_ok. induction m as [|[k1 v1] m IH]; cbn [set_member forallb fst snd].
  - by rewrite Hk, Hv.
  - rewrite !andb_true_iff. intros [[? ?] ?]. destruct (String.compare k k1); cbn [forallb fst snd];
      rewrite !andb_true_iff; auto.
Qed.

Lemma object_members_ok l : members_ok l = true -> json_ok (object l) = true.
Proof.
  intros Hl. unfold json_ok, object. cbn [wf_json]. rewrite andb_true_iff.
  change (forallb _ ?m) with (members_ok m).
  induction l as [|[k v] l IH]; [done|]. cbn [foldr fst snd].
  unfold members_ok in Hl. cbn [forallb fst snd] in Hl. rewrite !andb_true_iff in Hl.
  destruct Hl as [[? ?] Hl]. destruct (IH Hl). split; [by apply sorted_set|by apply members_set].
Qed.

(** Constants. *)
Lemma ascii_json_ok j : wf_json is_ascii (fun _ => false) j = true -> json_ok j = true.
Proof. apply wf_json_mono; [apply ascii_text_ok|done]. Qed.

Lemma set_json_ok k v m :
  text_ok k = true -> json_ok v = true -> json_ok (JObject m) = true ->
  json_ok (JObject (set_member k v m)) = true.
Proof.
  intros Hk Hv. unfold json_ok. cbn [wf_json]. rewrite !andb_true_iff. intros [? ?].
  split; [by apply sorted_set|by apply members_set].
Qed.

End building.

(** ** The laws can hold *)

(** A value as a tree, as a number and as the text of its binary digits. *)
Module Bits.

Abbreviation leaf := (string + (Z + bool))%type.

Fixpoint to_tree (j : json) : gen_tree leaf :=
  match j with
  | JNull => GenNode 0 []
  | JBool b => GenNode 1 [GenLeaf (inr (inr b))]
  | JInt z => GenNode 2 [GenLeaf (inr (inl z))]
  | JFloat r => GenNode 3 [GenLeaf (inl r)]
  | JString s => GenNode 4 [GenLeaf (inl s)]
  | JArray l => GenNode 5 (map to_tree l)
  | JObject m => GenNode 6 (map (fun kv => GenNode 7 [GenLeaf (inl (fst kv)); to_tree (snd kv)]) m)
  end.

Fixpoint of_tree (t : gen_tree leaf) : json :=
  match t with
  | GenNode 1 [GenLeaf (inr (inr b))] => JBool b
  | GenNode 2 [GenLeaf (inr (inl z))] => JInt z
  | GenNode 3 [GenLeaf (inl r)] => JFloat r
  | GenNode 4 [GenLeaf (inl s)] => JString s
  | GenNode 5 l => JArray (map of_tree l)
  | GenNode 6 l =>
      JObject (map (fun t => match t with
                             | GenNode 7 [GenLeaf (inl k); v] => (k, of_tree v)
                             | _ => ("", JNull)
                             end) l)
  | _ => JNull
  end.

Lemma of_to_tree j : of_tree (to_tree j) = j.
Proof.
  induction j as [| | | | |l IH|m IH] using json_induction; try done; cbn [to_tree of_tree]; f_equal.
  - rewrite map_map. induction IH as [|x l Hx _ IHl]; [done|]. cbn. by rewrite Hx, IHl.
  - rewrite map_map. induction IH as [|[k v] m Hx _ IHl]; [done|]. cbn in *. by rewrite Hx, IHl.
Qed.

Fixpoint digits (p : positive) : string :=
  match p with
  | xH => "1"
  | xO p => String "0" (digits p)
  | xI p => String "1" (digits p)
  end.

Fixpoint of_digits (s : string) : option positive :=
  match s with
  | "1" => Some xH
  | String "0" s => xO <$> of_digits s
  | String "1" s => xI <$> of_digits s
  | _ => None
  end.

Lemma of_digits_digits p : of_digits (digits p) = Some p.
Proof.
  induction p as [p IH|p IH|]; [|cbn; by rewrite IH|done].
  cbn [digits of_digits]. rewrite IH. by destruct p.
Qed.

Lemma digits_line p : no_newline (digits p) = true /\ digits p <> "".
Proof. induction p as [p [IH _]|p [IH _]|]; done. Qed.

Definition wf : json -> bool := wf_json is_ascii is_ascii.

Definition print (j : json) : option string := if wf j then Some (digits (encode (to_tree j))) else None.

Definition parse (s : string) : string + json :=
  match of_digits s ≫= decode with
  | Some t => if wf (of_tree t) then inr (of_tree t) else inl ("unexpected value: " +:+ s)
  | None => inl ("unexpected character: " +:+ s)
  end.

Lemma parse_print j s : print j = Some s -> parse s = inr j.
Proof.
  unfold print, parse. destruct (wf j) eqn:E; [|done]. intros [= <-].
  rewrite of_digits_digits. cbn. rewrite decode_encode, of_to_tree, E. done.
Qed.

Definition text : JsonText :=
  {| text_ok := is_ascii; number_ok := is_ascii; json_parse := parse; json_dump := print;
     json_dump2 := print; type_error := fun _ => "type must be string" |}.

Lemma bad_text_not_wf j : bad_text is_ascii j = true -> wf j = false.
Proof.
  unfold wf. induction j as [| | | | |l IH|m IH] using json_induction; try done; cbn [bad_text wf_json].
  - apply negb_true_iff.
  - induction IH as [|x l Hx _ IHl]; [done|]. cbn [existsb forallb]. rewrite orb_true_iff.
    intros [Hb|Hb]; [by rewrite Hx|]. rewrite (IHl Hb). apply andb_false_r.
  - intros Hb. apply andb_false_iff. right. revert Hb.
    induction IH as [|[k v] m Hx _ IHl]; [done|]. cbn [existsb forallb fst snd] in *.
    rewrite !orb_true_iff, negb_true_iff. intros [[->|Hb]|Hb]; [done|by rewrite Hx, andb_false_r|].
    rewrite (IHl Hb). apply andb_false_r.
Qed.

Lemma is_ascii_app s1 s2 : is_ascii s1 = true -> is_ascii s2 = true -> is_ascii (s1 +:+ s2) = true.
Proof.
  unfold is_ascii. intros H1 H2. induction s1 as [|c s1 IH]; [done|].
  change (String c s1 +:+ s2) with (String c (s1 +:+ s2)).
  cbn [list_ascii_of_string forallb] in *.
  apply andb_true_iff in H1 as [-> H1]. by apply IH.
Qed.

Lemma laws : JsonTextLaws (H := text).
Proof.
  assert (forall j, wf j = true -> is_Some (print j)) as Hd.
  { intros j Hj. unfold print. by rewrite Hj. }
  split; try done.
  - apply is_ascii_app.
  - intros j Hb. cbn. unfold print. by rewrite bad_text_not_wf.
  - intros s j. cbn. unfold parse. destruct (_ ≫= _) as [t|]; [|done].
    destruct (wf (of_tree t)) eqn:E; [|done]. by intros [= <-].
  - intros j s _. apply parse_print.
  - intros j s _. apply parse_print.
  - intros j s. cbn. unfold print. destruct (wf j); [|done]. intros [= <-]. apply digits_line.
  - intros j s. cbn. unfold print. destruct (wf j); [|done]. intros [= <-]. apply digits_line.
Qed.

End Bits.
