(* ===== verification/CodeGraphService.v ===== *)
(** * The code graph service (codegraph/codegraph_rpc_service.h,
    codegraph/codegraph_rpc_service.cpp)

    The tools the service offers, the checks of their arguments, the backend that has
    no data, and the registration of the handlers.  A C++ exception is the left side
    of a [result]; a backend is what [CodeGraphBackend::Invoke] computes. *)

From Stdlib Require Import ZArith Lia Strings.String.
From S2P Require Import Prelude RpcError ServiceRegistry Json.

Local Open Scope string_scope.
Local Open Scope list_scope.

(** ** Exceptions *)

Inductive exception :=
  | RpcExc (ex : RpcException)
  | InvalidArgument (what : string)
  | ParseExc (what : string)
  | StdExc (what : string).

Abbreviation result A := (exception + A)%type.

Definition bind {A B} (r : result A) (f : A -> result B) : result B :=
  match r with inl e => inl e | inr a => f a end.

Declare Scope codegraph_scope.
Delimit Scope codegraph_scope with codegraph.
Notation "'let*' x := r 'in' k" := (bind r (fun x => k))
  (at level 200, x name, r at level 100, k at level 200) : codegraph_scope.
Local Open Scope codegraph_scope.

Definition RpcError (c : ErrorCode) (msg : string) : exception :=
  RpcExc (mkRpcException (fun _ _ => "") (make_error_code c) msg).

Definition ParseError (msg : string) : exception := RpcError kParseError msg.

(** [j[k] = v] on a value known to be an object. *)
Definition put (k : string) (v : json) (j : json) : json := default j (assign k v j).

(** ** Schemas *)

Definition ObjectSchema (properties : json) (required : list json) : json :=
  let schema := put "properties" properties (put "type" (JString "object") JNull) in
  match required with [] => schema | _ => put "required" (JArray required) schema end.

Definition StringProperty (description : string) : json :=
  object [("type", JString "string"); ("description", JString description)].

Definition IntegerProperty (description : string) (default_value : Z) : json :=
  object [("type", JString "integer"); ("description", JString description);
          ("default", JInt default_value)].

Record ToolSpec := {
  mcp_name : string;
  rpc_method : string;
  description : string;
  input_schema : json;
}.

Definition CodeGraphToolSpecs : list ToolSpec :=
  [ {| mcp_name := "codegraph_search"; rpc_method := "Search";
       description := "Search for code symbols by name and return matching symbols.";
       input_schema :=
         ObjectSchema (object [("query", StringProperty "Symbol name or search query");
                               ("limit", IntegerProperty "Max results" 20)]) [JString "query"] |};
    {| mcp_name := "codegraph_context"; rpc_method := "Context";
       description := "Get rich context for a symbol: definition, callers and callees.";
       input_schema :=
         ObjectSchema (object [("symbol", StringProperty "Symbol name");
                               ("limit", IntegerProperty "Max results" 10)]) [JString "symbol"] |};
    {| mcp_name := "codegraph_callers"; rpc_method := "Callers";
       description := "Find callers of a function or method.";
       input_schema :=
         ObjectSchema (object [("symbol", StringProperty "Symbol name");
                               ("max_depth", IntegerProperty "Max traversal depth" 3)])
           [JString "symbol"] |};
    {| mcp_name := "codegraph_callees"; rpc_method := "Callees";
       description := "Find callees of a function or method.";
       input_schema :=
         ObjectSchema (object [("symbol", StringProperty "Symbol name");
                               ("max_depth", IntegerProperty "Max traversal depth" 3)])
           [JString "symbol"] |};
    {| mcp_name := "codegraph_impact"; rpc_method := "Impact";
       description := "Analyze the impact radius of changing a symbol.";
       input_schema :=
         ObjectSchema (object [("symbol", StringProperty "Symbol name");
                               ("max_depth", IntegerProperty "Max traversal depth" 5)])
           [JString "symbol"] |};
    {| mcp_name := "codegraph_node"; rpc_method := "Node";
       description := "Get details for a single symbol.";
       input_schema :=
         ObjectSchema (object [("symbol", StringProperty "Symbol name")]) [JString "symbol"] |};
    {| mcp_name := "codegraph_status"; rpc_method := "Status";
       description := "Get CodeGraph service and index statistics.";
       input_schema := ObjectSchema (JObject []) [] |};
    {| mcp_name := "codegraph_files"; rpc_method := "Files";
       description := "List indexed files.";
       input_schema := ObjectSchema (JObject []) [] |} ].

Definition FindToolByMcpName (name : string) : option ToolSpec :=
  List.find (fun spec => String.eqb (mcp_name spec) name) CodeGraphToolSpecs.

Definition FindToolByRpcMethod (method : string) : option ToolSpec :=
  List.find (fun spec => String.eqb (rpc_method spec) method) CodeGraphToolSpecs.

(** ** Arguments *)

(** The three files of the service each have their own copy of the next two. *)
Definition RequiredString (args : json) (method key : string) : result string :=
  let error := inl (ParseError ("CodeGraph." +:+ method +:+ " requires non-empty string field '" +:+
                                key +:+ "'")) in
  match find key args with
  | Some (JString s) => if str_empty s then error else inr s
  | _ => error
  end.

Definition OptionalInt (args : json) (method key : string) (default_value min_value max_value : Z)
    : result Z :=
  let field := "CodeGraph." +:+ method +:+ " field '" +:+ key +:+ "'" in
  match find key args with
  | None | Some JNull => inr default_value
  | Some (JInt z) =>
      let value := to_int z in
      if (value <? min_value)%Z || (max_value <? value)%Z
      then inl (ParseError (field +:+ " is out of range"))
      else inr value
  | Some _ => inl (ParseError (field +:+ " must be an integer"))
  end.

(** ** Calls *)

(** What a backend computes for a method and its arguments. *)
Record CodeGraphBackend := { Invoke : string -> json -> result json }.

Section service.
Context `{JsonText}.

Definition ParsePayload (method payload : string) : result json :=
  if str_empty payload then inr (JObject [])
  else
    match json_parse payload with
    | inl what =>
        inl (ParseError ("CodeGraph." +:+ method +:+ " received invalid JSON payload: " +:+ what))
    | inr parsed =>
        if negb (is_object parsed)
        then inl (ParseError ("CodeGraph." +:+ method +:+ " payload must be a JSON object"))
        else inr parsed
    end.

Definition HandleRpcCall (backend : CodeGraphBackend) (method payload : string) : result string :=
  let* args := ParsePayload method payload in
  let* value := Invoke backend method args in
  match json_dump2 value with
  | Some text => inr text
  | None => inl (StdExc (type_error value))
  end.

(** The lambda that is registered, as the framework sees it. *)
Definition handler (backend : CodeGraphBackend) (method : string) : Handler :=
  fun payload =>
    match HandleRpcCall backend method payload with
    | inr text => HReturn text
    | inl (RpcExc ex) => HThrowRpc ex
    | inl (InvalidArgument what) | inl (ParseExc what) | inl (StdExc what) => HThrowStd what
    end.

(** One round of the loop of [RegisterCodeGraphService]. *)
Definition register_one (backend : CodeGraphBackend) (acc : bool * registry) (spec : ToolSpec)
    : bool * registry :=
  let '(ok, r) := acc in
  let '(done, r) := Register r "CodeGraph" (rpc_method spec) (Some (handler backend (rpc_method spec))) in
  (done && ok, r).

Definition RegisterCodeGraphService (r : registry) (backend : CodeGraphBackend) : bool * registry :=
  fold_left (register_one backend) CodeGraphToolSpecs (true, r).

End service.

(** ** The backend without data *)

Definition EmptyBackendEnvelope (method : string) (args : json) : json :=
  object [("backend", JString "empty"); ("method", JString method); ("args", args);
          ("warning", JString "CodeGraph backend is not configured yet; transport and MCP adapter are ready")].

Definition EmptyNodeResult (method : string) (args : json) : json :=
  put "edges" (JArray []) (put "nodes" (JArray []) (EmptyBackendEnvelope method args)).

Definition Empty_Invoke (method : string) (args : json) : result json :=
  if String.eqb method "Status" then
    let tools := map (fun spec => object [("mcp_name", JString (mcp_name spec));
                                          ("rpc_method", JString ("CodeGraph." +:+ rpc_method spec))])
                   CodeGraphToolSpecs in
    inr (object [("service", JString "CodeGraph"); ("backend", JString "empty"); ("ready", JBool true);
                 ("transport", JString "mini_rpc"); ("tools", JArray tools);
                 ("note", JString "MVP transport is live; attach a real CodeGraph backend next")])
  else if String.eqb method "Search" then
    let* query := RequiredString args method "query" in
    let* limit := OptionalInt args method "limit" 20 1 200 in
    inr (put "nodes" (JArray []) (put "limit" (JInt limit)
           (put "query" (JString query) (EmptyBackendEnvelope method args))))
  else if String.eqb method "Context" then
    let* symbol := RequiredString args method "symbol" in
    let* _ := OptionalInt args method "limit" 10 1 200 in
    inr (put "edges" (JArray []) (put "callees" (JArray []) (put "callers" (JArray [])
           (put "symbol" (JString symbol) (EmptyBackendEnvelope method args)))))
  else if String.eqb method "Callers" || String.eqb method "Callees" || String.eqb method "Impact" then
    let* symbol := RequiredString args method "symbol" in
    let* _ := OptionalInt args method "max_depth" (if String.eqb method "Impact" then 5 else 3) 1 20 in
    inr (put "symbol" (JString symbol) (EmptyNodeResult method args))
  else if String.eqb method "Node" then
    let* symbol := RequiredString args method "symbol" in
    inr (put "node" JNull (put "symbol" (JString symbol) (EmptyBackendEnvelope method args)))
  else if String.eqb method "Files" then
    inr (put "files" (JArray []) (EmptyBackendEnvelope method args))
  else inl (RpcError kMethodNotFound ("unknown CodeGraph method: " +:+ method)).

Definition EmptyCodeGraphBackend : CodeGraphBackend := {| Invoke := Empty_Invoke |}.

(** ** Lemmas *)

(** The keys under which the handlers are registered. *)
Definition service_key (spec : ToolSpec) : string := BuildKey "CodeGraph" (rpc_method spec).

Lemma specs_keys : NoDup (map service_key CodeGraphToolSpecs).
Proof. apply (bool_decide_unpack _). vm_compute. done. Qed.

Lemma specs_methods : Forall (fun spec => str_empty (rpc_method spec) = false) CodeGraphToolSpecs.
Proof. by repeat constructor. Qed.

Section registration.
Context `{JsonText}.

Lemma register_one_spec backend ok r spec :
  str_empty (rpc_method spec) = false ->
  register_one backend (ok, r) spec =
  match r !! service_key spec with
  | Some _ => (false, r)
  | None => (ok, <[service_key spec := handler backend (rpc_method spec)]> r)
  end.
Proof.
  intros Hm. unfold register_one, Register, service_key. rewrite Hm. cbn [str_empty orb].
  by destruct (r !! BuildKey _ _).
Qed.

Lemma register_all_spec backend specs : forall ok r,
  NoDup (map service_key specs) -> Forall (fun spec => str_empty (rpc_method spec) = false) specs ->
  let '(ok', r') := fold_left (register_one backend) specs (ok, r) in
  (ok' = true <-> ok = true /\ Forall (fun spec => r !! service_key spec = None) specs) /\
  (forall k, k ∉ map service_key specs -> r' !! k = r !! k) /\
  Forall (fun spec => r' !! service_key spec =
            Some (default (handler backend (rpc_method spec)) (r !! service_key spec))) specs.
Proof.
  induction specs as [|spec specs IH]; intros ok r Hn Hm.
  { cbn [fold_left map]. split; [|split; [done|constructor]].
    split; [intros ->; by split|by intros [-> _]]. }
  inversion_clear Hn as [|? ? Hni Hn']. inversion_clear Hm as [|? ? Hm1 Hm2].
  cbn [fold_left]. rewrite register_one_spec by done.
  destruct (r !! service_key spec) as [h|] eqn:E.
  - specialize (IH false r Hn' Hm2). destruct (fold_left _ _ _) as [ok' r'].
    destruct IH as (I1 & I2 & I3). split; [|split].
    + rewrite I1. split; [by intros [? _]|]. intros [_ Hf]. inversion_clear Hf. congruence.
    + intros k Hk. apply I2. set_solver.
    + constructor; [|done]. rewrite E. cbn. rewrite I2 by done. done.
  - set (r1 := <[service_key spec := _]> r).
    specialize (IH ok r1 Hn' Hm2). destruct (fold_left _ _ _) as [ok' r'].
    destruct IH as (I1 & I2 & I3).
    assert (forall sp, sp ∈ specs -> r1 !! service_key sp = r !! service_key sp) as Hr1.
    { intros sp Hsp. unfold r1. rewrite lookup_insert_ne; [done|]. intros Ek. apply Hni.
      rewrite Ek. apply list_elem_of_fmap. by exists sp. }
    split; [|split].
    + rewrite I1. split; intros [H1 H2]; (split; [done|]).
      * constructor; [done|]. apply Forall_forall. intros sp Hsp.
        rewrite <- Hr1 by done. by apply (proj1 (Forall_forall _ _) H2).
      * inversion_clear H2 as [|? ? ? H3]. apply Forall_forall. intros sp Hsp.
        rewrite Hr1 by done. by apply (proj1 (Forall_forall _ _) H3).
    + intros k Hk. rewrite I2 by set_solver. unfold r1. apply lookup_insert_ne. set_solver.
    + constructor.
      * rewrite I2 by done. unfold r1. by rewrite lookup_insert_eq, E.
      * apply Forall_forall. intros sp Hsp. rewrite <- Hr1 by done.
        by apply (proj1 (Forall_forall _ _) I3).
Qed.

Lemma OptionalInt_spec args method key d lo hi v :
  OptionalInt args method key d lo hi = inr v <->
  ((find key args = None \/ find key args = Some JNull) /\ v = d) \/
  (exists z, find key args = Some (JInt z) /\ v = to_int z /\ (lo <= v <= hi)%Z).
Proof.
  unfold OptionalInt. destruct (find key args) as [[| |z| | | |]|]; cbv zeta; split.
  all: try (intros [= <-]; left; by auto).
  all: try (intros [[[?|?] ?]|(? & ? & ?)]; by simplify_eq).
  all: try (intros; discriminate).
  - destruct (_ || _) eqn:E; [done|]. intros [= <-]. apply orb_false_iff in E as [E1 E2].
    right. exists z. split; [done|]. split; [done|]. lia.
  - intros [[[?|?] ?]|(z' & [= ->] & -> & Hv)]; try done.
    destruct (to_int z' <? lo)%Z eqn:E1; [lia|]. destruct (hi <? to_int z')%Z eqn:E2; [lia|]. done.
Qed.

Lemma RequiredString_spec args method key s :
  RequiredString args method key = inr s <-> find key args = Some (JString s) /\ s <> "".
Proof.
  unfold RequiredString. destruct (find key args) as [[| | | |s'| |]|]; cbv zeta;
    try (split; [done|intros [? _]; done]).
  destruct s' as [|c s']; cbn [str_empty]; split; try done.
  - by intros [[= <-] ?].
  - by intros [= <-].
  - by intros [[= <-] _].
Qed.

End registration.

(** The arguments of a method that the backends insist on: a non-empty string, and an
    integer in a range. *)
Definition method_arguments (method : string) : list string * list (string * Z) :=
  if String.eqb method "Search" then (["query"], [("limit", 200%Z)])
  else if String.eqb method "Context" then (["symbol"], [("limit", 200%Z)])
  else if String.eqb method "Callers" || String.eqb method "Callees" || String.eqb method "Impact"
  then (["symbol"], [("max_depth", 20%Z)])
  else if String.eqb method "Node" then (["symbol"], [])
  else ([], []).

Definition acceptable (method : string) (args : json) : Prop :=
  let '(strings, ints) := method_arguments method in
  Forall (fun k => exists s, find k args = Some (JString s) /\ s <> "") strings /\
  Forall (fun '(k, hi) => find k args = None \/ find k args = Some JNull \/
            exists z, find k args = Some (JInt z) /\ (1 <= to_int z <= hi)%Z) ints.

(** ** Checking arguments *)

Section checks.
Context (args : json) (m : string).

Definition is_parse_error {A} (r : result A) : Prop :=
  forall e, r = inl e -> exists msg, e = ParseError msg.

Lemma RequiredString_error k : is_parse_error (RequiredString args m k).
Proof.
  intros e. unfold RequiredString. cbv zeta.
  destruct (find k args) as [[| | | |s| |]|]; [..|]; try (intros [= <-]; by eauto).
  destruct (str_empty s); intros [= <-]. by eauto.
Qed.

Lemma OptionalInt_error k d lo hi : is_parse_error (OptionalInt args m k d lo hi).
Proof.
  intros e. unfold OptionalInt. cbv zeta.
  destruct (find k args) as [[| |z| | | |]|]; try (intros [= <-]; by eauto); try done.
  destruct (_ || _); intros [= <-]. by eauto.
Qed.

Lemma RequiredString_accepts k :
  (exists s, RequiredString args m k = inr s) <-> exists s, find k args = Some (JString s) /\ s <> "".
Proof. split; intros [s Hs]; exists s; by apply (RequiredString_spec args m). Qed.

Lemma OptionalInt_accepts k d lo hi :
  (exists v, OptionalInt args m k d lo hi = inr v) <->
  find k args = None \/ find k args = Some JNull \/
  exists z, find k args = Some (JInt z) /\ (lo <= to_int z <= hi)%Z.
Proof.
  setoid_rewrite OptionalInt_spec. split.
  - intros [v [[[?|?] _]|(z & ? & -> & ?)]]; eauto.
  - intros [?|[?|(z & ? & ?)]]; [exists d|exists d|exists (to_int z)]; eauto 10.
Qed.

(** A method with a string and an integer, one with a string, one with neither. *)
Lemma checked_two k k2 d lo hi (f : string -> Z -> json) :
  ((exists v, (let* s := RequiredString args m k in
               let* n := OptionalInt args m k2 d lo hi in inr (f s n)) = inr v) <->
   (exists s, find k args = Some (JString s) /\ s <> "") /\
   (find k2 args = None \/ find k2 args = Some JNull \/
    exists z, find k2 args = Some (JInt z) /\ (lo <= to_int z <= hi)%Z)) /\
  is_parse_error (let* s := RequiredString args m k in
                  let* n := OptionalInt args m k2 d lo hi in inr (f s n)).
Proof.
  rewrite <- (OptionalInt_accepts k2 d lo hi), <- RequiredString_accepts.
  pose proof (RequiredString_error k) as H1. pose proof (OptionalInt_error k2 d lo hi) as H2.
  destruct (RequiredString args m k) as [e1|s]; cbn [bind].
  { split; [|intros e [= <-]; by apply H1]. split; [by intros [v ?]|by intros [[s ?] _]]. }
  destruct (OptionalInt args m k2 d lo hi) as [e2|n]; cbn [bind].
  { split; [|intros e [= <-]; by apply H2]. split; [by intros [v ?]|by intros [_ [s' ?]]]. }
  split; [|done]. split; eauto.
Qed.

Lemma checked_one k (f : string -> json) :
  ((exists v, (let* s := RequiredString args m k in inr (f s)) = inr v) <->
   (exists s, find k args = Some (JString s) /\ s <> "") /\ True) /\
  is_parse_error (let* s := RequiredString args m k in inr (f s)).
Proof.
  rewrite <- RequiredString_accepts. pose proof (RequiredString_error k) as H1.
  destruct (RequiredString args m k) as [e1|s]; cbn [bind].
  { split; [|intros e [= <-]; by apply H1]. split; [by intros [v ?]|by intros [[s ?] _]]. }
  split; [|done]. split; eauto.
Qed.

Lemma checked_none (v : json) :
  ((exists v', (inr v : result json) = inr v') <-> True /\ True) /\ is_parse_error (inr v : result json).
Proof. split; [|done]. split; eauto. Qed.

End checks.

(** ** Requests for the service *)

Section requests.
Context `{JsonTextLaws}.

Lemma registered_handler backend spec :
  In spec CodeGraphToolSpecs ->
  Find (snd (RegisterCodeGraphService ∅ backend)) "CodeGraph" (rpc_method spec) =
  Some (handler backend (rpc_method spec)).
Proof.
  intros Hin.
  pose proof (register_all_spec backend CodeGraphToolSpecs true ∅ specs_keys specs_methods) as Hr.
  change (fold_left (register_one backend) CodeGraphToolSpecs (true, ∅))
    with (RegisterCodeGraphService ∅ backend) in Hr.
  destruct (RegisterCodeGraphService ∅ backend) as [ok r]. destruct Hr as (_ & _ & H3). cbn [snd].
  rewrite Forall_forall in H3. specialize (H3 spec (proj2 (list_elem_of_In _ _) Hin)).
  by rewrite lookup_empty in H3.
Qed.

Lemma ParsePayload_args m payload args :
  (payload = "" /\ args = JObject []) \/ (payload <> "" /\ json_parse payload = inr args) ->
  ParsePayload m payload =
  if is_object args then inr args
  else inl (ParseError ("CodeGraph." +:+ m +:+ " payload must be a JSON object")).
Proof.
  unfold ParsePayload. intros [[-> ->]|[Hne Hp]]; [done|].
  destruct payload; [done|]. cbn [str_empty]. rewrite Hp. by destruct (is_object args).
Qed.

End requests.

(** ** Properties *)

(** The service registers under "CodeGraph.<method>" a handler for every tool it
    offers and touches no other key; it reports success exactly when all its keys were
    free, and a key that was taken keeps its handler while the others are still
    registered. *)
Theorem codegraph_registration `{JsonText} (r : registry) (backend : CodeGraphBackend) :
  let '(ok, r') := RegisterCodeGraphService r backend in
  (ok = true <-> Forall (fun spec => Find r "CodeGraph" (rpc_method spec) = None) CodeGraphToolSpecs) /\
  (forall k, k ∉ map service_key CodeGraphToolSpecs -> r' !! k = r !! k) /\
  Forall (fun spec => Find r' "CodeGraph" (rpc_method spec) =
            Some (default (handler backend (rpc_method spec)) (Find r "CodeGraph" (rpc_method spec))))
    CodeGraphToolSpecs.
Proof.
  pose proof (register_all_spec backend CodeGraphToolSpecs true r specs_keys specs_methods) as Hr.
  change (fold_left (register_one backend) CodeGraphToolSpecs (true, r))
    with (RegisterCodeGraphService r backend) in Hr.
  destruct (RegisterCodeGraphService r backend) as [ok r']. destruct Hr as (H1 & H2 & H3).
  split; [rewrite H1; tauto|]. split; [exact H2|exact H3].
Qed.

(** A request for a tool travels through the framework and back unchanged.  On a
    registry where the service is registered, a request whose payload is the text of an
    object (or empty, for no arguments) makes the backend compute on exactly these
    arguments, and the payload of the response is text that reads back as the value the
    backend returned; an exception of the backend arrives with its code and message, and
    a payload that is no object is a parse error the backend never sees. *)
Theorem codegraph_call `{JsonTextLaws} (backend : CodeGraphBackend) (spec : ToolSpec)
    (id payload : string) (args : json) :
  In spec CodeGraphToolSpecs ->
  (payload = "" /\ args = JObject []) \/ (payload <> "" /\ json_parse payload = inr args) ->
  let r := snd (RegisterCodeGraphService ∅ backend) in
  let m := rpc_method spec in
  let response := HandleOneRequest r {| rq_request_id := id; rq_service_name := "CodeGraph";
                                        rq_method_name := m; rq_payload := payload |} in
  rs_request_id response = id /\
  if is_object args then
    (forall v, Invoke backend m args = inr v -> json_ok v = true ->
       rs_error_code response = proto_OK /\ json_parse (rs_payload response) = inr v) /\
    (forall c msg, Invoke backend m args = inl (RpcError c msg) -> msg <> "" ->
       rs_error_code response = ToProtoErrorCode (make_error_code c) /\ rs_error_msg response = msg)
  else rs_error_code response = proto_PARSE_ERROR /\
       rs_error_msg response = "CodeGraph." +:+ m +:+ " payload must be a JSON object".
Proof.
  intros Hin Hp. cbv zeta. unfold HandleOneRequest.
  cbn [rq_service_name rq_method_name rq_payload rq_request_id].
  rewrite registered_handler by done. unfold handler, HandleRpcCall.
  rewrite (ParsePayload_args _ _ _ Hp). destruct (is_object args); cbn [bind]; [|done].
  split; [by repeat case_match|]. split.
  - intros v -> Hv. cbn [bind]. destruct (dump2_defined v Hv) as [text Et]. rewrite Et.
    split; [done|]. by apply (parse_dump2 v).
  - intros c msg -> Hm. cbn [bind]. by destruct msg.
Qed.

(** The backend without data accepts exactly the calls whose arguments are right -
    the fields the published schema of the tool requires are non-empty strings, and its
    integers are absent, null or in range - and every refusal is a parse error. *)
Theorem empty_backend_arguments (spec : ToolSpec) (args : json) :
  In spec CodeGraphToolSpecs ->
  find "required" (input_schema spec) =
    match fst (method_arguments (rpc_method spec)) with
    | [] => None
    | ks => Some (JArray (map JString ks))
    end /\
  ((exists v, Empty_Invoke (rpc_method spec) args = inr v) <-> acceptable (rpc_method spec) args) /\
  (forall e, Empty_Invoke (rpc_method spec) args = inl e -> exists msg, e = ParseError msg).
Proof.
  intros Hin. unfold CodeGraphToolSpecs in Hin. cbn [In] in Hin.
  repeat (destruct Hin as [<-|Hin]; [|]); [..|done];
    cbn [rpc_method input_schema]; (split; [vm_compute; reflexivity|]);
    unfold Empty_Invoke, acceptable, method_arguments; cbn [String.eqb Ascii.eqb Bool.eqb orb];
    rewrite ?Forall_singleton, ?Forall_nil;
    first [apply checked_two|apply checked_one|apply checked_none].
Qed.

(** An integer argument is not checked but reduced to 32 bits: whatever multiple of
    2^32 is added to an acceptable limit, the call is accepted with the limit itself. *)
Theorem optional_int_truncates (method key : string) (d lo hi v k : Z) :
  (-2147483648 <= lo)%Z -> (hi < 2147483648)%Z -> (lo <= v <= hi)%Z ->
  OptionalInt (object [(key, JInt (v + 4294967296 * k))]) method key d lo hi = inr v.
Proof.
  intros H1 H2 H3. apply OptionalInt_spec. right. exists (v + 4294967296 * k)%Z.
  rewrite find_object. cbn [List.find fst snd]. rewrite String.eqb_refl. split; [done|].
  assert (to_int (v + 4294967296 * k) = v) as ->; [|by split].
  unfold to_int. replace (v + 4294967296 * k + 2147483648)%Z with (v + 2147483648 + k * 4294967296)%Z by lia.
  rewrite Z_mod_plus_full, Z.mod_small by lia. lia.
Qed.

(** ** Concrete calls *)

Definition w_search : ToolSpec := nth 0 CodeGraphToolSpecs
  {| mcp_name := ""; rpc_method := ""; description := ""; input_schema := JNull |}.

Definition w_args : json := object [("query", JString "main"); ("limit", JInt 5)].

Lemma codegraph_call_witness :
  let r := snd (RegisterCodeGraphService (H := Bits.text) ∅ EmptyCodeGraphBackend) in
  let payload := default "" (json_dump (JsonText := Bits.text) w_args) in
  rs_error_code (HandleOneRequest r {| rq_request_id := "1"; rq_service_name := "CodeGraph";
                                       rq_method_name := "Search"; rq_payload := payload |}) = proto_OK.
Proof.
  destruct (@codegraph_call Bits.text Bits.laws EmptyCodeGraphBackend w_search "1"
    (default "" (json_dump (JsonText := Bits.text) w_args)) w_args) as (_ & H1 & _).
  - left. reflexivity.
  - right. split; [vm_compute; congruence|vm_compute; reflexivity].
  - eapply H1; [vm_compute; reflexivity|vm_compute; reflexivity].
Defined.

Lemma empty_backend_arguments_witness :
  exists v, Empty_Invoke "Search" w_args = inr v.
Proof.
  destruct (empty_backend_arguments w_search w_args) as (_ & H1 & _); [left; reflexivity|].
  apply H1. split; apply Forall_singleton.
  - exists "main". split; [reflexivity|congruence].
  - right. right. exists 5%Z. split; [reflexivity|]. vm_compute. split; congruence.
Defined.

Lemma optional_int_truncates_witness :
  OptionalInt (object [("limit", JInt 4294967297)]) "Search" "limit" 20 1 200 = inr 1%Z.
Proof. apply (optional_int_truncates "Search" "limit" 20 1 200 1 1); lia. Defined.
