(* ===== verification/McpAdapter.v ===== *)
(** * The MCP adapter (codegraph/mcp_adapter.h, codegraph/mcp_adapter.cpp)

    A program that reads JSON-RPC requests, one per line, and answers them; tool calls
    become calls of the RPC client.  The client is the argument [Call], a state machine
    that the theorems instantiate with the service itself. *)

From Stdlib Require Import ZArith Lia Strings.Ascii Strings.String.
From S2P Require Import Prelude RpcError PendingCalls ServiceRegistry RpcClient Json CodeGraphService.

Local Open Scope string_scope.
Local Open Scope list_scope.
Local Open Scope codegraph_scope.

Record McpAdapterOptions := { host : string; port : Z; rpc_timeout : Z }.

Definition McpAdapterOptions_default : McpAdapterOptions :=
  {| host := "127.0.0.1"; port := 50061; rpc_timeout := 3000 |}.

(** ** Parts of a request *)

Definition JsonRpcId (request : json) : json := default JNull (find "id" request).

Definition IsNotification (request : json) : bool :=
  match find "id" request with None | Some JNull => true | Some _ => false end.

Definition RequiredStringParam (params : json) (key : string) : result string :=
  let error := inl (InvalidArgument ("missing non-empty string param '" +:+ key +:+ "'")) in
  match find key params with
  | Some (JString s) => if str_empty s then error else inr s
  | _ => error
  end.

Definition RequestParamsObject (request : json) : result json :=
  match find "params" request with
  | None | Some JNull => inr (JObject [])
  | Some (JObject m) => inr (JObject m)
  | Some _ => inl (InvalidArgument "params must be an object")
  end.

(** ** Answers *)

Definition MakeResponse (id result : json) : json :=
  object [("jsonrpc", JString "2.0"); ("result", result); ("id", id)].

Definition MakeError (id : json) (code : Z) (message : string) : json :=
  object [("jsonrpc", JString "2.0");
          ("error", object [("code", JInt code); ("message", JString message)]); ("id", id)].

Definition MakeToolResult (text : string) (is_error : bool) : json :=
  let result := object [("content", JArray [object [("type", JString "text"); ("text", JString text)]])] in
  if is_error then put "isError" (JBool true) result else result.

(** [std::to_string] of an [int]; the name of a foreign category is that category's. *)
Definition int_text (z : Z) : string := if (z <? 0)%Z then "-" +:+ to_string (- z) else to_string z.

Definition category_name (foreign_name : positive -> string) (c : error_category) : string :=
  match c with RpcErrorCategory => "rpc" | OtherCategory id => foreign_name id end.

Definition RpcFailureText (foreign_name : positive -> string) (r : RpcCallResult) : string :=
  let c := code (status r) in
  "RPC error: code=" +:+ int_text (value c) +:+ " category=" +:+
  category_name foreign_name (category c) +:+ " message=" +:+ message (status r).

Section adapter.
Context `{JsonText}.
Context {S : Type} (Call : S -> string -> string -> string -> RpcCallResult * S).
Context (foreign_name : positive -> string).

Definition HandleInitialize (request : json) : json :=
  MakeResponse (JsonRpcId request)
    (object [("protocolVersion", JString "2024-11-05");
             ("capabilities", object [("tools", JObject [])]);
             ("serverInfo", object [("name", JString "codegraph-mini-rpc-adapter");
                                    ("version", JString "0.1.0")])]).

Definition HandleToolsList (request : json) : json :=
  let tools := map (fun spec => object [("name", JString (mcp_name spec));
                                        ("description", JString (description spec));
                                        ("inputSchema", input_schema spec)]) CodeGraphToolSpecs in
  MakeResponse (JsonRpcId request) (object [("tools", JArray tools)]).

Definition what (e : exception) : string :=
  match e with
  | RpcExc ex => ex_what ex
  | InvalidArgument what | ParseExc what | StdExc what => what
  end.

(** The arguments that are forwarded; [None]: they are not an object. *)
Definition tool_arguments (params : json) : option json :=
  match find "arguments" params with
  | None | Some JNull => Some (JObject [])
  | Some (JObject m) => Some (JObject m)
  | Some _ => None
  end.

Definition HandleToolsCall (request : json) (s : S) : result json * S :=
  let id := JsonRpcId request in
  match RequestParamsObject request with
  | inl e => (inr (MakeError id (-32602) (what e)), s)
  | inr params =>
      match RequiredStringParam params "name" with
      | inl e => (inr (MakeError id (-32602) (what e)), s)
      | inr tool_name =>
          match FindToolByMcpName tool_name with
          | None => (inr (MakeResponse id (MakeToolResult ("Unknown tool: " +:+ tool_name) true)), s)
          | Some spec =>
              match tool_arguments params with
              | None => (inr (MakeError id (-32602) "arguments must be an object"), s)
              | Some arguments =>
                  match json_dump arguments with
                  | None => (inl (StdExc (type_error arguments)), s)
                  | Some payload =>
                      let '(r, s) := Call s "CodeGraph" (rpc_method spec) payload in
                      (inr (if negb (RpcCallResult_ok r)
                            then MakeResponse id (MakeToolResult (RpcFailureText foreign_name r) true)
                            else MakeResponse id (MakeToolResult (response_payload r) false)), s)
                  end
              end
          end
      end
  end.

Definition HandleRequest (request : json) (s : S) : result json * S :=
  if negb (is_object request) then (inl (InvalidArgument "request must be an object"), s)
  else
    let id := JsonRpcId request in
    match find "method" request with
    | Some (JString method) =>
        if str_empty method then (inr (MakeError id (-32600) "missing method"), s)
        else if String.eqb method "initialize" then (inr (HandleInitialize request), s)
        else if String.eqb method "tools/list" then (inr (HandleToolsList request), s)
        else if String.eqb method "tools/call" then HandleToolsCall request s
        else if String.eqb method "notifications/initialized" then
          (inr (MakeResponse id (JObject [])), s)
        else (inr (MakeError id (-32601) ("Method not found: " +:+ method)), s)
    | None => (inr (MakeError id (-32600) "missing method"), s)
    | Some v => (inl (StdExc (type_error v)), s)
    end.

(** ** The loop *)

(** One round of [Run]: the answer to a line, if there is one. *)
Definition answer (line : string) (s : S) : option json * S :=
  if str_empty line then (None, s)
  else
    match json_parse line with
    | inl error => (Some (MakeError JNull (-32700) ("Parse error: " +:+ error)), s)
    | inr request =>
        if IsNotification request then (None, s)
        else
          let '(r, s) := HandleRequest request s in
          (Some match r with
                | inr response => response
                | inl (ParseExc e) => MakeError JNull (-32700) ("Parse error: " +:+ e)
                | inl (InvalidArgument e) => MakeError JNull (-32600) ("Invalid request: " +:+ e)
                | inl (StdExc e) => MakeError JNull (-32603) ("Internal error: " +:+ e)
                | inl (RpcExc ex) => MakeError JNull (-32603) ("Internal error: " +:+ ex_what ex)
                end, s)
    end.

(** [Run] over the lines of the input: the lines it writes, and whether it returned;
    printing an answer is outside the [try], so an exception there leaves [Run]. *)
Fixpoint Run (lines : list string) (s : S) : list string * bool * S :=
  match lines with
  | [] => ([], true, s)
  | line :: rest =>
      match answer line s with
      | (None, s) => Run rest s
      | (Some response, s) =>
          match json_dump response with
          | None => ([], false, s)
          | Some text => let '(out, returned, s) := Run rest s in (text :: out, returned, s)
          end
      end
  end.

End adapter.

(** [std::getline] until the end of the input; a last line without an end counts if it
    is not empty. *)
Fixpoint getlines (current : string) (input : string) : list string :=
  match input with
  | EmptyString => if str_empty current then [] else [current]
  | String c rest =>
      if Ascii.eqb c "010"%char then current :: getlines "" rest
      else getlines (current +:+ String c "") rest
  end.

(** ** What an answer looks like *)




Section printable.
Context `{JsonTextLaws}.












End printable.

(** ** Numbers in messages *)




(** ** Answering *)

Section answering.
Context `{JsonTextLaws}.
Context {S : Type} (Call : S -> string -> string -> string -> RpcCallResult * S).
Context (foreign_name : positive -> string).












End answering.

(** ** Properties *)




(** One answer that cannot be printed ends the adapter.  Answers are printed outside
    the [try]: when the text of a tool's result is not UTF-8, the exception leaves [Run],
    the request is not answered and the lines after it are never read. *)
Theorem mcp_unprintable_answer_ends_run `{JsonTextLaws} {S : Type}
    (Call : S -> string -> string -> string -> RpcCallResult * S) (foreign_name : positive -> string)
    (line : string) (rest : list string) (request : json) (text : string) (is_error : bool) (s s' : S) :
  line <> "" -> json_parse line = inr request -> IsNotification request = false ->
  HandleRequest Call foreign_name request s =
    (inr (MakeResponse (JsonRpcId request) (MakeToolResult text is_error)), s') ->
  text_ok text = false ->
  Run Call foreign_name (line :: rest) s = ([], false, s').
Proof.
  intros Hl Hp Hn Hh Ht. cbn [Run]. unfold answer. destruct line; [done|]. cbn [str_empty].
  rewrite Hp, Hn, Hh. rewrite dump_throws; [done|].
  set (content := JArray [JObject [("text", JString text); ("type", JString "text")]]).
  assert (bad_text text_ok content = true) as Hc 
    by (unfold content; cbn [bad_text existsb fst snd]; rewrite Ht; cbn [negb orb]; by rewrite ?orb_true_r).
  assert (bad_text text_ok (MakeToolResult text is_error) = true) as Hr.
  { destruct is_error; [change (bad_text text_ok (JObject [("content", content); ("isError", JBool true)]) = true)
                       |change (bad_text text_ok (JObject [("content", content)]) = true)];
      cbn [bad_text existsb fst snd]; by rewrite Hc, ?orb_true_r. }
  change (bad_text text_ok (JObject [("id", JsonRpcId request); ("jsonrpc", JString "2.0");
    ("result", MakeToolResult text is_error)]) = true).
  cbn [bad_text existsb fst snd]. by rewrite Hr, ?orb_true_r.
Qed.

(** What the adapter does with odd requests.  A line that is a JSON value but not an
    object is taken for a notification and not answered at all, although the code has an
    answer for it; a request whose method is not a string is answered, but with a null
    identifier, so its sender cannot match the answer. *)
Theorem mcp_odd_requests `{JsonTextLaws} {S : Type}
    (Call : S -> string -> string -> string -> RpcCallResult * S) (foreign_name : positive -> string)
    (line : string) (request : json) (s : S) :
  json_parse line = inr request ->
  (is_object request = false ->
     answer Call foreign_name line s = (None, s) /\
     HandleRequest Call foreign_name request s = (inl (InvalidArgument "request must be an object"), s)) /\
  (line <> "" -> IsNotification request = false ->
   forall v, find "method" request = Some v -> is_string v = false ->
     answer Call foreign_name line s =
     (Some (MakeError JNull (-32603) ("Internal error: " +:+ type_error v)), s)).
Proof.
  intros Hp. split.
  - intros Ho. unfold HandleRequest, answer. rewrite Hp, Ho. split; [|done].
    assert (IsNotification request = true) as -> by (by destruct request). by destruct (str_empty line).
  - intros Hl Hn v Hv Hs. unfold answer, HandleRequest. destruct line; [done|]. cbn [str_empty].
    rewrite Hp, Hn. assert (is_object request = true) as -> by (by destruct request). cbn [negb].
    rewrite Hv. by destruct v.
Qed.

(** ** Concrete sessions *)

Definition w_text : JsonText := Bits.text.

(** The text of a value, and three requests. *)
Definition w_line (j : json) : string := default "" (json_dump (JsonText := w_text) j).

Definition w_call : json :=
  object [("id", JInt 7); ("method", JString "tools/call");
          ("params", object [("name", JString "codegraph_search"); ("arguments", w_args)])].


Definition w_odd : json := object [("id", JInt 8); ("method", JInt 5)].

(** A client whose answers are always the same text. *)
Definition w_client (text : string) (n : nat) (service method payload : string) : RpcCallResult * nat :=
  ({| status := Status_Ok; response_payload := text |}, S n).

Definition w_names (_ : positive) : string := "system".





Lemma mcp_unprintable_answer_ends_run_witness :
  let bad := String "255" "" in
  @Run w_text nat (w_client bad) w_names [w_line w_call; w_line w_call] 0 = ([], false, 1).
Proof.
  cbv zeta.
  apply (@mcp_unprintable_answer_ends_run w_text Bits.laws nat (w_client (String "255" "")) w_names
    (w_line w_call) [w_line w_call] w_call (String "255" "") false 0 1); try (vm_compute; reflexivity).
  vm_compute. congruence.
Defined.

Lemma mcp_odd_requests_witness :
  answer (H := w_text) (w_client "") w_names (w_line w_odd) 0 =
  (Some (MakeError JNull (-32603) "Internal error: type must be string"), 0).
Proof.
  destruct (@mcp_odd_requests w_text Bits.laws nat (w_client "") w_names (w_line w_odd) w_odd 0) as [_ H1];
    [vm_compute; reflexivity|].
  apply (H1 ltac:(vm_compute; congruence) eq_refl (JInt 5) eq_refl eq_refl).
Defined.
