(* ===== verification/SqliteBackend.v ===== *)
(** * The backend on a SQLite database (codegraph/sqlite_codegraph_backend.cpp)

    SQLite is a library the sources link with: what a statement yields is the argument
    [query] of this file, a function of the SQL text and of the bound parameters, as the
    database is opened read-only.  The texts of the statements, the loops over their rows
    and everything that is computed from them are those of the source. *)

From Stdlib Require Import ZArith Lia Strings.String.
From S2P Require Import Prelude RpcError Json CodeGraphService.

Local Open Scope string_scope.
Local Open Scope list_scope.
Local Open Scope codegraph_scope.

(** ** Rows *)

Record NodeRow := {
  nr_id : string;
  nr_kind : string;
  nr_name : string;
  nr_qualified_name : string;
  nr_file_path : string;
  nr_language : string;
  nr_start_line : Z;
  nr_start_column : Z;
  nr_end_line : Z;
  nr_end_column : Z;
  nr_signature : string;
  nr_docstring : string;
  nr_is_static : bool;
  nr_is_exported : bool;
}.

Record EdgeRow := {
  er_id : Z;
  er_source : string;
  er_target : string;
  er_kind : string;
  er_line : Z;
  er_col : Z;
  er_metadata : string;
}.

Inductive SchemaFlavor := kOfficialCodeGraph | kCodeGraphCpp.

Definition BackendError (msg : string) : exception := RpcError kInternalError msg.

(** ** SQLite *)

(** A column of a row, as text ([None]: NULL) and as an integer. *)
Record cell := { as_text : option string; as_int : Z }.

Inductive param := PText (s : string) | PInt (z : Z).

(** What a statement yields: it cannot be prepared; or rows, whether a binding or a step
    failed after them, and what [sqlite3_errmsg] says then. *)
Inductive query_result :=
  | PrepareFailed (errmsg : string)
  | Rows (rows : list (list cell)) (failed : bool) (errmsg : string).

Definition no_cell : cell := {| as_text := None; as_int := 0 |}.

Definition Text (row : list cell) (col : nat) : string := default "" (as_text (nth col row no_cell)).

Definition column_int (row : list cell) (col : nat) : Z := as_int (nth col row no_cell).

(** ** The texts of statements *)

Definition SchemaName (schema : SchemaFlavor) : string :=
  match schema with
  | kOfficialCodeGraph => "official_codegraph"
  | kCodeGraphCpp => "codegraph_cpp"
  end.

Definition NodeKindCaseSql (column : string) : string :=
  "CASE " +:+ column +:+
  " WHEN 0 THEN 'file' WHEN 1 THEN 'function' WHEN 2 THEN 'method' WHEN 3 THEN 'class'" +:+
  " WHEN 4 THEN 'struct' WHEN 5 THEN 'enum' WHEN 6 THEN 'enum_member' WHEN 7 THEN 'variable'" +:+
  " WHEN 8 THEN 'type_alias' WHEN 9 THEN 'namespace' WHEN 10 THEN 'import'" +:+
  " WHEN 11 THEN 'parameter' WHEN 12 THEN 'field' ELSE 'unknown' END".

Definition EdgeKindCaseSql (column : string) : string :=
  "CASE " +:+ column +:+
  " WHEN 0 THEN 'contains' WHEN 1 THEN 'calls' WHEN 2 THEN 'imports' WHEN 3 THEN 'exports'" +:+
  " WHEN 4 THEN 'extends' WHEN 5 THEN 'implements' WHEN 6 THEN 'references' WHEN 7 THEN 'type_of'" +:+
  " WHEN 8 THEN 'returns' WHEN 9 THEN 'overrides' ELSE 'unknown' END".

Definition NodeSelectSql (schema : SchemaFlavor) : string :=
  match schema with
  | kOfficialCodeGraph =>
      "SELECT id, kind, name, qualified_name, file_path, language, start_line, start_column, " +:+
      "end_line, end_column, signature, docstring, is_static, is_exported FROM nodes "
  | kCodeGraphCpp =>
      "SELECT CAST(id AS TEXT), " +:+ NodeKindCaseSql "kind" +:+
      ", name, COALESCE(qualified_name, name), file_path, COALESCE(language, ''), line, col, " +:+
      "end_line, end_col, COALESCE(signature, ''), COALESCE(docstring, ''), " +:+
      "is_static, is_exported FROM nodes "
  end.

Definition exact_sql (schema : SchemaFlavor) : string :=
  NodeSelectSql schema +:+ "WHERE name=? OR qualified_name=? " +:+
  "ORDER BY CASE WHEN name=? THEN 0 WHEN qualified_name=? THEN 1 ELSE 2 END LIMIT ?".

Definition like_sql (schema : SchemaFlavor) : string :=
  NodeSelectSql schema +:+ "WHERE (name LIKE ? OR qualified_name LIKE ?) " +:+
  "AND name<>? AND qualified_name<>? LIMIT ?".

Definition search_sql (schema : SchemaFlavor) : string :=
  NodeSelectSql schema +:+ "WHERE lower(name) LIKE lower(?) OR lower(qualified_name) LIKE lower(?) " +:+
  "ORDER BY CASE WHEN name=? THEN 0 WHEN qualified_name=? THEN 1 ELSE 2 END, file_path, " +:+
  (match schema with kOfficialCodeGraph => "start_line" | kCodeGraphCpp => "line" end) +:+ " LIMIT ?".

Definition edges_sql (schema : SchemaFlavor) (outgoing : bool) : string :=
  match schema with
  | kOfficialCodeGraph =>
      if outgoing
      then "SELECT id, source, target, kind, line, col, metadata FROM edges WHERE source=? AND kind=? LIMIT ?"
      else "SELECT id, source, target, kind, line, col, metadata FROM edges WHERE target=? AND kind=? LIMIT ?"
  | kCodeGraphCpp =>
      "SELECT id, CAST(source_id AS TEXT), CAST(target_id AS TEXT), " +:+ EdgeKindCaseSql "kind" +:+
      (if outgoing
       then ", line, col, COALESCE(metadata, '') FROM edges WHERE source_id=? AND kind=? LIMIT ?"
       else ", line, col, COALESCE(metadata, '') FROM edges WHERE target_id=? AND kind=? LIMIT ?")
  end.

Definition node_by_id_sql (schema : SchemaFlavor) : string :=
  NodeSelectSql schema +:+
  (match schema with
   | kOfficialCodeGraph => "WHERE id=? LIMIT ?"
   | kCodeGraphCpp => "WHERE CAST(id AS TEXT)=? LIMIT ?"
   end).

(** ** Rows as values *)

Definition ReadNode (row : list cell) : NodeRow :=
  {| nr_id := Text row 0; nr_kind := Text row 1; nr_name := Text row 2; nr_qualified_name := Text row 3;
     nr_file_path := Text row 4; nr_language := Text row 5; nr_start_line := column_int row 6;
     nr_start_column := column_int row 7; nr_end_line := column_int row 8;
     nr_end_column := column_int row 9; nr_signature := Text row 10; nr_docstring := Text row 11;
     nr_is_static := negb (column_int row 12 =? 0)%Z; nr_is_exported := negb (column_int row 13 =? 0)%Z |}.

Definition ReadEdge (row : list cell) : EdgeRow :=
  {| er_id := column_int row 0; er_source := Text row 1; er_target := Text row 2;
     er_kind := Text row 3; er_line := column_int row 4; er_col := column_int row 5;
     er_metadata := Text row 6 |}.

Definition NodeToJson (node : NodeRow) : json :=
  object [("id", JString (nr_id node)); ("kind", JString (nr_kind node)); ("name", JString (nr_name node));
          ("qualified_name", JString (nr_qualified_name node)); ("file", JString (nr_file_path node));
          ("language", JString (nr_language node)); ("line", JInt (nr_start_line node));
          ("col", JInt (nr_start_column node)); ("end_line", JInt (nr_end_line node));
          ("end_col", JInt (nr_end_column node)); ("signature", JString (nr_signature node));
          ("docstring", JString (nr_docstring node)); ("is_static", JBool (nr_is_static node));
          ("is_exported", JBool (nr_is_exported node))].

Definition EdgeToJson (edge : EdgeRow) : json :=
  object [("id", JInt (er_id edge)); ("source_id", JString (er_source edge));
          ("target_id", JString (er_target edge)); ("kind", JString (er_kind edge));
          ("line", JInt (er_line edge)); ("col", JInt (er_col edge)); ("metadata", JString (er_metadata edge))].

(** ** Traversal *)

(** What the traversal carries: the ids seen, the next frontier, the edges and nodes
    reported, how many edges. *)
Record traversal := {
  visited : gset string;
  next_ids : list string;
  edges_out : list EdgeRow;
  nodes_out : list NodeRow;
  emitted : Z;
}.

Definition start_traversal (id : string) : traversal :=
  {| visited := {[ id ]}; next_ids := []; edges_out := []; nodes_out := []; emitted := 0 |}.

Definition adjacent (outgoing : bool) (edge : EdgeRow) : string :=
  if outgoing then er_target edge else er_source edge.

(** The loop over the edges of a node, left when the limit is reached. *)
Fixpoint visit_edges (outgoing : bool) (limit : Z) (edges : list EdgeRow) (t : traversal) : traversal :=
  match edges with
  | [] => t
  | edge :: rest =>
      let a := adjacent outgoing edge in
      if bool_decide (a ∈ visited t) then visit_edges outgoing limit rest t
      else
        let t := {| visited := {[ a ]} ∪ visited t; next_ids := next_ids t ++ [a];
                    edges_out := edges_out t ++ [edge]; nodes_out := nodes_out t;
                    emitted := emitted t + 1 |} in
        if (limit <=? emitted t)%Z then t else visit_edges outgoing limit rest t
  end.

(** The loop over the frontier; [edges_of] is the query. *)
Fixpoint visit_frontier (edges_of : string -> result (list EdgeRow)) (outgoing : bool) (limit : Z)
    (frontier : list string) (t : traversal) : result traversal :=
  match frontier with
  | [] => inr t
  | id :: rest =>
      let* edges := edges_of id in
      let t := visit_edges outgoing limit edges t in
      if (limit <=? emitted t)%Z then inr t else visit_frontier edges_of outgoing limit rest t
  end.

(** The loop over the depths. *)
Fixpoint Traversal_loop (edges_of : string -> result (list EdgeRow))
    (nodes_of : list string -> result (list NodeRow)) (outgoing : bool) (limit : Z) (depths : nat)
    (frontier : list string) (t : traversal) : result traversal :=
  match depths with
  | O => inr t
  | S depths =>
      match frontier with
      | [] => inr t
      | _ =>
          if (emitted t <? limit)%Z then
            let* t := visit_frontier edges_of outgoing limit frontier
                        {| visited := visited t; next_ids := []; edges_out := edges_out t;
                           nodes_out := nodes_out t; emitted := emitted t |} in
            let* nodes := nodes_of (next_ids t) in
            Traversal_loop edges_of nodes_of outgoing limit depths (next_ids t)
              {| visited := visited t; next_ids := next_ids t; edges_out := edges_out t;
                 nodes_out := nodes_out t ++ nodes; emitted := emitted t |}
          else inr t
      end
  end.

Definition traversal_json (t : traversal) : json :=
  object [("nodes", JArray (map NodeToJson (nodes_out t))); ("edges", JArray (map EdgeToJson (edges_out t)))].

(** ** The database *)

Section database.
(** [sqlite_open] and [sqlite_exec]: the error of the call, if it fails. *)
Context (sqlite_open : string -> option string).
Context (sqlite_exec : string -> option string).
Context (query : string -> list param -> query_result).

Definition OpenReadOnly (path : string) : result unit :=
  match sqlite_open path with
  | Some msg => inl (BackendError ("failed to open CodeGraph DB '" +:+ path +:+ "': " +:+ msg))
  | None => inr tt
  end.

Definition Exec (sql : string) : result unit :=
  match sqlite_exec sql with Some msg => inl (BackendError msg) | None => inr tt end.

(** All rows of a statement, or the error. *)
Definition all_rows (sql : string) (params : list param) : result (list (list cell)) :=
  match query sql params with
  | PrepareFailed msg => inl (BackendError msg)
  | Rows rows failed msg => if failed then inl (BackendError msg) else inr rows
  end.

(** A table that cannot be described has no column; the rows are read until the column is
    found, so an error after it goes unnoticed. *)
Definition HasColumn (table column : string) : result bool :=
  match query ("PRAGMA table_info(" +:+ table +:+ ")") [] with
  | PrepareFailed _ => inr false
  | Rows rows failed msg =>
      if existsb (fun row => String.eqb (Text row 1) column) rows then inr true
      else if failed then inl (BackendError msg) else inr false
  end.

(** [HasColumn(db, table, a) && HasColumn(db, table, b)]. *)
Definition HasColumns (table a b : string) : result bool :=
  let* has_a := HasColumn table a in
  if has_a then HasColumn table b else inr false.

Definition DetectSchema : result SchemaFlavor :=
  let* official_nodes := HasColumns "nodes" "start_line" "start_column" in
  let* official_edges := HasColumns "edges" "source" "target" in
  if official_nodes && official_edges then inr kOfficialCodeGraph
  else
    let* cpp_nodes := HasColumns "nodes" "line" "col" in
    let* cpp_edges := HasColumns "edges" "source_id" "target_id" in
    if cpp_nodes && cpp_edges then inr kCodeGraphCpp
    else inl (BackendError ("unsupported CodeGraph SQLite schema: expected official codegraph.db " +:+
                            "or codegraph-cpp .codegraph/index")).

(** The first row of a statement. *)
Definition Count (sql : string) : result Z :=
  match query sql [] with
  | PrepareFailed msg => inl (BackendError msg)
  | Rows (row :: _) _ _ => inr (column_int row 0)
  | Rows [] _ msg => inl (BackendError msg)
  end.

Definition QueryNodes (sql : string) (text_params : list string) (limit : Z) : result (list NodeRow) :=
  let* rows := all_rows sql (map PText text_params ++ [PInt limit]) in
  inr (map ReadNode rows).

Definition FindNodes (symbol : string) (schema : SchemaFlavor) (limit : Z) : result (list NodeRow) :=
  let* exact := QueryNodes (exact_sql schema) [symbol; symbol; symbol; symbol] limit in
  if (limit <=? Z.of_nat (length exact))%Z then inr exact
  else
    let remaining := (limit - Z.of_nat (length exact))%Z in
    let pattern := "%" +:+ symbol +:+ "%" in
    let* fuzzy := QueryNodes (like_sql schema) [pattern; pattern; symbol; symbol] remaining in
    inr (exact ++ fuzzy).

Definition SearchNodes (text : string) (schema : SchemaFlavor) (limit : Z) : result (list NodeRow) :=
  let pattern := "%" +:+ text +:+ "%" in
  QueryNodes (search_sql schema) [pattern; pattern; text; text] limit.

Definition QueryEdges (schema : SchemaFlavor) (outgoing : bool) (kind : string) (limit : Z)
    (node_id : string) : result (list EdgeRow) :=
  let kind_param :=
    match schema with
    | kOfficialCodeGraph => PText kind
    | kCodeGraphCpp => PInt (if String.eqb kind "calls" then 1 else -1)
    end in
  let* rows := all_rows (edges_sql schema outgoing) [PText node_id; kind_param; PInt limit] in
  inr (map ReadEdge rows).

Fixpoint GetNodesByIds (schema : SchemaFlavor) (ids : list string) : result (list NodeRow) :=
  match ids with
  | [] => inr []
  | id :: rest =>
      let* rows := QueryNodes (node_by_id_sql schema) [id] 1 in
      let* nodes := GetNodesByIds schema rest in
      inr (rows ++ nodes)
  end.

Definition Traversal (schema : SchemaFlavor) (start : NodeRow) (outgoing : bool) (max_depth limit : Z)
    : result traversal :=
  Traversal_loop (QueryEdges schema outgoing "calls" limit) (GetNodesByIds schema) outgoing limit
    (Z.to_nat max_depth) [nr_id start] (start_traversal (nr_id start)).

Definition Files (limit : Z) : result json :=
  let* rows := all_rows "SELECT path, language FROM files ORDER BY path LIMIT ?" [PInt limit] in
  inr (JArray (map (fun row => object [("path", JString (Text row 0)); ("language", JString (Text row 1))])
                 rows)).

(** A traversal in one direction, as [Callers], [Callees] and [Impact] report it. *)
Definition neighbourhood (schema : SchemaFlavor) (start : NodeRow) (outgoing : bool)
    (max_depth limit : Z) : result json :=
  let* t := Traversal schema start outgoing max_depth limit in
  inr (put "symbol" (NodeToJson start) (put "schema" (JString (SchemaName schema))
         (put "backend" (JString "sqlite") (traversal_json t)))).

Definition not_found (symbol : string) : json :=
  object [("error", JString ("Symbol not found: " +:+ symbol))].

Definition Sqlite_Invoke (db_path : string) (method : string) (args : json) : result json :=
  let* _ := OpenReadOnly db_path in
  let* _ := Exec "PRAGMA query_only=ON" in
  let* schema := DetectSchema in
  if String.eqb method "Status" then
    let* node_count := Count "SELECT COUNT(*) FROM nodes" in
    let* edge_count := Count "SELECT COUNT(*) FROM edges" in
    let* file_count := Count "SELECT COUNT(*) FROM files" in
    inr (object [("service", JString "CodeGraph"); ("backend", JString "sqlite");
                 ("schema", JString (SchemaName schema)); ("db_path", JString db_path);
                 ("ready", JBool true); ("transport", JString "mini_rpc");
                 ("node_count", JInt node_count); ("edge_count", JInt edge_count);
                 ("file_count", JInt file_count)])
  else if String.eqb method "Files" then
    let* limit := OptionalInt args method "limit" 200 1 10000 in
    let* files := Files limit in
    inr (object [("backend", JString "sqlite"); ("schema", JString (SchemaName schema)); ("files", files)])
  else if String.eqb method "Search" then
    let* text := RequiredString args method "query" in
    let* limit := OptionalInt args method "limit" 20 1 200 in
    let* nodes := SearchNodes text schema limit in
    inr (object [("backend", JString "sqlite"); ("schema", JString (SchemaName schema));
                 ("query", JString text); ("limit", JInt limit); ("nodes", JArray (map NodeToJson nodes))])
  else if String.eqb method "Node" then
    let* symbol := RequiredString args method "symbol" in
    let* nodes := FindNodes symbol schema 1 in
    match nodes with
    | [] => inr (not_found symbol)
    | node :: _ =>
        inr (object [("backend", JString "sqlite"); ("schema", JString (SchemaName schema));
                     ("node", NodeToJson node)])
    end
  else if String.eqb method "Callers" || String.eqb method "Callees" || String.eqb method "Impact" ||
          String.eqb method "Context" then
    let* symbol := RequiredString args method "symbol" in
    let* nodes := FindNodes symbol schema 1 in
    match nodes with
    | [] => inr (not_found symbol)
    | start :: _ =>
        let default_depth := if String.eqb method "Impact" then 5%Z else 3%Z in
        let* max_depth := OptionalInt args method "max_depth" default_depth 1 20 in
        let* limit := OptionalInt args method "limit" 50 1 500 in
        if String.eqb method "Callers" then neighbourhood schema start false max_depth limit
        else if String.eqb method "Callees" then neighbourhood schema start true max_depth limit
        else if String.eqb method "Impact" then neighbourhood schema start false max_depth limit
        else
          let* callers := Traversal schema start false 2 limit in
          let* callees := Traversal schema start true 2 limit in
          inr (object [("backend", JString "sqlite"); ("schema", JString (SchemaName schema));
                       ("symbol", NodeToJson start);
                       ("callers", JArray (map NodeToJson (nodes_out callers)));
                       ("callees", JArray (map NodeToJson (nodes_out callees)));
                       ("edges", JArray (map EdgeToJson (edges_out callers ++ edges_out callees)))])
    end
  else inl (RpcError kMethodNotFound ("unknown CodeGraph method: " +:+ method)).

Definition SQLiteCodeGraphBackend (db_path : string) : CodeGraphBackend :=
  {| Invoke := Sqlite_Invoke db_path |}.

End database.

(** ** The traversal is a breadth-first search *)

Section search.
Context (E : string -> list EdgeRow) (outgoing : bool) (start : string) (limit : Z).
Context (Hlimit : (1 <= limit)%Z).

Abbreviation adj := (adjacent outgoing).





Abbreviation query_edges := (fun id => inr (E id) : result (list EdgeRow)).



Abbreviation query_nodes N := (fun ids => inr (concat (map N ids)) : result (list NodeRow)).





End search.

(** ** Errors *)

(** Every exception of a computation satisfies [P]. *)
Definition throws_only {A} (P : exception -> Prop) (r : result A) : Prop := forall e, r = inl e -> P e.

Definition of_database (e : exception) : Prop := exists msg, e = BackendError msg.

(** Of the database or of the arguments. *)
Definition proper (e : exception) : Prop := of_database e \/ exists msg, e = ParseError msg.

Lemma throws_value {A} P (a : A) : throws_only P (inr a).
Proof. done. Qed.

Lemma throws_bind {A B} P (r : result A) (f : A -> result B) :
  throws_only P r -> (forall a, throws_only P (f a)) -> throws_only P (bind r f).
Proof. intros Hr Hf. destruct r as [e|a]; cbn [bind]; [|apply Hf]. intros e' [= <-]. by apply Hr. Qed.

Lemma throws_parse {A} (r : result A) : is_parse_error r -> throws_only proper r.
Proof. intros Hr e He. right. by apply Hr. Qed.

Lemma throws_proper {A} (r : result A) : throws_only of_database r -> throws_only proper r.
Proof. intros Hr e He. left. by apply Hr. Qed.

Lemma throws_backend {A} msg : throws_only of_database (inl (BackendError msg) : result A).
Proof. intros e [= <-]. by exists msg. Qed.

Ltac throws_tac :=
  repeat first [apply throws_value|apply throws_backend|apply throws_bind; [|intros ?]
               |apply throws_parse, RequiredString_error|apply throws_parse, OptionalInt_error].

Section errors.
Context (sqlite_open : string -> option string) (sqlite_exec : string -> option string).
Context (query : string -> list param -> query_result).

Lemma all_rows_errors sql ps : throws_only of_database (all_rows query sql ps).
Proof. unfold all_rows. destruct (query sql ps) as [|? [] ?]; throws_tac. Qed.

Lemma HasColumn_errors table column : throws_only of_database (HasColumn query table column).
Proof. unfold HasColumn. destruct (query _ _) as [|? [] ?]; [|destruct (existsb _ _)..]; throws_tac. Qed.

Lemma HasColumns_errors table a b : throws_only of_database (HasColumns query table a b).
Proof.
  unfold HasColumns. apply throws_bind; [apply HasColumn_errors|]. intros []; [apply HasColumn_errors|throws_tac].
Qed.

Lemma DetectSchema_errors : throws_only of_database (DetectSchema query).
Proof.
  unfold DetectSchema. do 2 (apply throws_bind; [apply HasColumns_errors|intros ?]).
  destruct (_ && _); [throws_tac|]. do 2 (apply throws_bind; [apply HasColumns_errors|intros ?]).
  destruct (_ && _); throws_tac.
Qed.

Lemma Count_errors sql : throws_only of_database (Count query sql).
Proof. unfold Count. destruct (query sql []) as [|[|row rows] ? ?]; throws_tac. Qed.

Lemma QueryNodes_errors sql ps limit : throws_only of_database (QueryNodes query sql ps limit).
Proof. unfold QueryNodes. apply throws_bind; [apply all_rows_errors|intros ?; throws_tac]. Qed.

Lemma FindNodes_errors symbol schema limit : throws_only of_database (FindNodes query symbol schema limit).
Proof.
  unfold FindNodes. apply throws_bind; [apply QueryNodes_errors|intros exact].
  destruct (_ <=? _)%Z; [throws_tac|]. apply throws_bind; [apply QueryNodes_errors|intros ?; throws_tac].
Qed.

Lemma QueryEdges_errors schema outgoing kind limit id :
  throws_only of_database (QueryEdges query schema outgoing kind limit id).
Proof. unfold QueryEdges. apply throws_bind; [apply all_rows_errors|intros ?; throws_tac]. Qed.

Lemma GetNodesByIds_errors schema ids : throws_only of_database (GetNodesByIds query schema ids).
Proof.
  induction ids as [|id ids IH]; cbn [GetNodesByIds]; [throws_tac|].
  apply throws_bind; [apply QueryNodes_errors|intros ?]. apply throws_bind; [done|intros ?; throws_tac].
Qed.

Lemma visit_frontier_errors edges_of outgoing limit frontier : forall t,
  (forall id, throws_only of_database (edges_of id)) ->
  throws_only of_database (visit_frontier edges_of outgoing limit frontier t).
Proof.
  induction frontier as [|id frontier IH]; intros t He; cbn [visit_frontier]; [throws_tac|].
  apply throws_bind; [apply He|intros ?]. cbv zeta. destruct (_ <=? _)%Z; [throws_tac|by apply IH].
Qed.

Lemma Traversal_loop_errors edges_of nodes_of outgoing limit depths : forall frontier t,
  (forall id, throws_only of_database (edges_of id)) -> (forall ids, throws_only of_database (nodes_of ids)) ->
  throws_only of_database (Traversal_loop edges_of nodes_of outgoing limit depths frontier t).
Proof.
  induction depths as [|d IH]; intros frontier t He Hn; cbn [Traversal_loop]; [throws_tac|].
  destruct frontier; [throws_tac|]. destruct (_ <? _)%Z; [|throws_tac].
  apply throws_bind; [by apply visit_frontier_errors|intros ?].
  apply throws_bind; [by apply Hn|intros ?]. by apply IH.
Qed.

Lemma Traversal_errors schema start outgoing max_depth limit :
  throws_only of_database (Traversal query schema start outgoing max_depth limit).
Proof. apply Traversal_loop_errors; [apply QueryEdges_errors|apply GetNodesByIds_errors]. Qed.

Lemma neighbourhood_errors schema start outgoing max_depth limit :
  throws_only of_database (neighbourhood query schema start outgoing max_depth limit).
Proof. apply throws_bind; [apply Traversal_errors|intros ?; throws_tac]. Qed.

Lemma OpenReadOnly_errors path : throws_only of_database (OpenReadOnly sqlite_open path).
Proof. unfold OpenReadOnly. destruct (sqlite_open path); throws_tac. Qed.

Lemma Exec_errors sql : throws_only of_database (Exec sqlite_exec sql).
Proof. unfold Exec. destruct (sqlite_exec sql); throws_tac. Qed.

Lemma Files_errors limit : throws_only of_database (Files query limit).
Proof. apply throws_bind; [apply all_rows_errors|intros ?; throws_tac]. Qed.

Lemma Sqlite_Invoke_errors db_path method args :
  FindToolByRpcMethod method <> None ->
  throws_only proper (Sqlite_Invoke sqlite_open sqlite_exec query db_path method args).
Proof.
  intros Hm. unfold Sqlite_Invoke.
  apply throws_bind; [apply throws_proper, OpenReadOnly_errors|intros _].
  apply throws_bind; [apply throws_proper, Exec_errors|intros _].
  apply throws_bind; [apply throws_proper, DetectSchema_errors|intros schema].
  destruct (String.eqb method "Status") eqn:E1.
  { do 3 (apply throws_bind; [apply throws_proper, Count_errors|intros ?]). throws_tac. }
  destruct (String.eqb method "Files") eqn:E2.
  { do 2 (apply throws_bind; [first [apply throws_parse, OptionalInt_error|apply throws_proper, Files_errors]|intros ?]).
    throws_tac. }
  destruct (String.eqb method "Search") eqn:E3.
  { apply throws_bind; [throws_tac|intros ?]. apply throws_bind; [throws_tac|intros ?].
    apply throws_bind; [apply throws_proper, QueryNodes_errors|intros ?; throws_tac]. }
  destruct (String.eqb method "Node") eqn:E4.
  { apply throws_bind; [throws_tac|intros ?].
    apply throws_bind; [apply throws_proper, FindNodes_errors|intros [|? ?]; throws_tac]. }
  destruct (_ || _) eqn:E5.
  { apply throws_bind; [throws_tac|intros ?].
    apply throws_bind; [apply throws_proper, FindNodes_errors|intros [|start ?]; [throws_tac|]].
    cbv zeta. apply throws_bind; [throws_tac|intros max_depth]. apply throws_bind; [throws_tac|intros limit].
    destruct (String.eqb method "Callers"); [apply throws_proper, neighbourhood_errors|].
    destruct (String.eqb method "Callees"); [apply throws_proper, neighbourhood_errors|].
    destruct (String.eqb method "Impact"); [apply throws_proper, neighbourhood_errors|].
    do 2 (apply throws_bind; [apply throws_proper, Traversal_errors|intros ?]). throws_tac. }
  exfalso. apply Hm. unfold FindToolByRpcMethod, CodeGraphToolSpecs. cbn [List.find rpc_method].
  rewrite !orb_false_iff in E5. destruct E5 as [[[? ?] ?] ?].
  rewrite !(String.eqb_sym _ method).
  repeat match goal with H : String.eqb method ?x = false |- _ => rewrite H; clear H end.
  done.
Qed.

End errors.




(** ** Properties *)


(** The errors of the backend.  For a method of the service, an exception is an error
    of the database or a complaint about the arguments; any other method is refused as
    unknown - once the database has been opened and its schema recognised, whose failure
    comes first. *)
Theorem sqlite_backend_errors sqlite_open sqlite_exec query db_path method args e :
  Sqlite_Invoke sqlite_open sqlite_exec query db_path method args = inl e ->
  (exists msg, e = BackendError msg) \/
  if FindToolByRpcMethod method then exists msg, e = ParseError msg
  else e = RpcError kMethodNotFound ("unknown CodeGraph method: " +:+ method).
Proof.
  intros E. destruct (FindToolByRpcMethod method) as [spec|] eqn:Em.
  { eapply Sqlite_Invoke_errors; [|done]. congruence. }
  unfold Sqlite_Invoke in E.
  destruct (OpenReadOnly sqlite_open db_path) eqn:Eo; cbn [bind] in E.
  { injection E as <-. left. by apply (OpenReadOnly_errors sqlite_open db_path). }
  destruct (Exec sqlite_exec "PRAGMA query_only=ON") eqn:Ee; cbn [bind] in E.
  { injection E as <-. left. by apply (Exec_errors sqlite_exec "PRAGMA query_only=ON"). }
  destruct (DetectSchema query) eqn:Ed; cbn [bind] in E.
  { injection E as <-. left. by apply (DetectSchema_errors query). }
  right. revert Em E. unfold FindToolByRpcMethod, CodeGraphToolSpecs. cbn [List.find rpc_method].
  rewrite !(String.eqb_sym _ method).
  repeat match goal with |- (if ?b then _ else _) = None -> _ => destruct b; [done|] end.
  intros _ E. by injection E as <-.
Qed.

(** ** A small graph *)

(** a calls b and c, b calls c, c calls a and d. *)
Definition w_graph : list (string * string) := [("a", "b"); ("a", "c"); ("b", "c"); ("c", "a"); ("c", "d")].

Definition w_cell (s : string) : cell := {| as_text := Some s; as_int := 0 |}.

Definition w_edge (p : string * string) : list cell :=
  [no_cell; w_cell (fst p); w_cell (snd p); w_cell "calls"; no_cell; no_cell; no_cell].

Definition w_query (sql : string) (ps : list param) : query_result :=
  match ps with
  | PText id :: _ =>
      if String.eqb sql (edges_sql kOfficialCodeGraph true)
      then Rows (map w_edge (List.filter (fun p => String.eqb (fst p) id) w_graph)) false ""
      else if String.eqb sql (node_by_id_sql kOfficialCodeGraph) then Rows [[w_cell id]] false ""
      else PrepareFailed "no such table"
  | _ => PrepareFailed "no such table"
  end.



Lemma sqlite_backend_errors_witness :
  exists msg, Sqlite_Invoke (fun _ => Some "unable to open database file") (fun _ => None) w_query
                "x.db" "Search" JNull = inl (BackendError msg).
Proof.
  destruct (sqlite_backend_errors (fun _ => Some "unable to open database file") (fun _ => None) w_query
    "x.db" "Search" JNull
    (BackendError "failed to open CodeGraph DB 'x.db': unable to open database file")) as [[msg E]|[msg E]].
  - vm_compute. reflexivity.
  - exists msg. rewrite <- E. vm_compute. reflexivity.
  - exfalso. vm_compute in E. discriminate.
Defined.
