(* ===== verification/NativeBackend.v ===== *)
(** * The backend on codegraph-cpp (codegraph/codegraph_native_backend.h,
    codegraph/codegraph_native_backend.cpp)

    codegraph-cpp is a project of its own; what its classes answer for the database that
    is opened is the argument [engine].  The cache is an [unordered_map]: a list of its
    entries in the order of iteration, which an insertion may change in any way
    ([rehash]).  The clock is that of [steady_clock], in nanoseconds. *)

From Stdlib Require Import ZArith Lia Strings.Ascii Strings.String.
From S2P Require Import Prelude RpcError Json CodeGraphService.

Local Open Scope string_scope.
Local Open Scope list_scope.
Local Open Scope codegraph_scope.

(** ** codegraph-cpp *)

Record file_record := { fr_path : string; fr_language : string; fr_mtime : Z; fr_size : Z }.

(** The constructor of [Database], [ContextBuilder] and [Database::get_all_files]; each may
    throw. *)
Record engine := {
  open_database : result unit;
  get_status : result json;
  get_all_files : result (list file_record);
  search_symbols : string -> Z -> result json;
  build_context : string -> Z -> Z -> result json;
  get_callers : string -> Z -> result json;
  get_callees : string -> Z -> result json;
  get_impact : string -> Z -> result json;
}.

(** ** The cache *)

Record CacheEntry := { entry_result : json; expires_at : Z }.

Definition kCacheMaxSize : Z := 128.
Definition kCacheTTL : Z := 30000000000.

Abbreviation cache := (list (string * CacheEntry)).

Fixpoint cache_find (key : string) (c : cache) : option CacheEntry :=
  match c with
  | [] => None
  | (k, e) :: c => if String.eqb key k then Some e else cache_find key c
  end.

Definition cache_erase (key : string) (c : cache) : cache :=
  List.filter (fun p => negb (String.eqb key (fst p))) c.

Definition cache_get (key : string) (now : Z) (c : cache) : option json * cache :=
  match cache_find key c with
  | None => (None, c)
  | Some e =>
      if (expires_at e <? now)%Z then (None, cache_erase key c)
      else (Some (entry_result e), c)
  end.

Section backend.
Context `{JsonText}.
Context (rehash : cache -> cache).

(** [cache_[key] = e]: assigned in place, or inserted. *)
Definition cache_assign (key : string) (e : CacheEntry) (c : cache) : cache :=
  match cache_find key c with
  | Some _ => map (fun p => if String.eqb key (fst p) then (key, e) else p) c
  | None => rehash ((key, e) :: c)
  end.

Definition cache_put (key : string) (r : json) (now : Z) (c : cache) : cache :=
  let c := if (kCacheMaxSize <=? Z.of_nat (length c))%Z then drop (Nat.div (length c) 2) c else c in
  cache_assign key {| entry_result := r; expires_at := now + kCacheTTL |} c.

(** ** Normalising *)

(** [j[k] = v], with the exception of the library. *)
Definition set_field (k : string) (v : json) (j : json) : result json :=
  match assign k v j with Some j => inr j | None => inl (StdExc (type_error j)) end.

(** Rename a field, unless the new name is taken. *)
Definition rename_field (old new : string) (j : json) : result json :=
  match find old j with
  | Some v => if contains new j then inr j else let* j := set_field new v j in inr (erase old j)
  | None => inr j
  end.

Definition NormalizeNodeJson (node : json) : result json :=
  let* node := rename_field "file" "file_path" node in
  if contains "signature" node then inr node else set_field "signature" (JString "") node.

Definition NormalizeEdgeJson (edge : json) : result json :=
  let* edge := rename_field "src" "source_id" edge in
  let* edge := rename_field "dst" "target_id" edge in
  if contains "line" edge then inr edge else set_field "line" (JInt 0) edge.

Fixpoint normalize_all (f : json -> result json) (l : list json) : result (list json) :=
  match l with
  | [] => inr []
  | j :: l => let* j := f j in let* l := normalize_all f l in inr (j :: l)
  end.

Definition NormalizeNodesArray (nodes : json) : result json :=
  let* l := normalize_all NormalizeNodeJson (items nodes) in inr (JArray l).

Definition NormalizeEdgesArray (edges : json) : result json :=
  let* l := normalize_all NormalizeEdgeJson (items edges) in inr (JArray l).

Definition MakeCacheKey (method : string) (args : json) : result string :=
  match json_dump args with
  | Some text => inr (method +:+ ":" +:+ text)
  | None => inl (StdExc (type_error args))
  end.

(** [if (r.contains(k)) r[k] = f(r[k])]. *)
Definition normalize_field (k : string) (f : json -> result json) (r : json) : result json :=
  match find k r with
  | Some v => let* v := f v in set_field k v r
  | None => inr r
  end.

(** ** Queries *)

(** What [Callers], [Callees] and [Impact] make of an answer. *)
Definition graph_result (answer : result json) : result json :=
  let* r := answer in
  let* r := set_field "backend" (JString "native") r in
  let* r := normalize_field "nodes" NormalizeNodesArray r in
  normalize_field "edges" NormalizeEdgesArray r.

(** The expensive queries, without the cache. *)
Definition compute (g : engine) (method : string) (args : json) : result json :=
  let* _ := open_database g in
  if String.eqb method "Search" then
    let* query := RequiredString args method "query" in
    let* limit := OptionalInt args method "limit" 20 1 200 in
    let* found := search_symbols g query limit in
    let* nodes := NormalizeNodesArray found in
    inr (object [("backend", JString "native"); ("query", JString query); ("limit", JInt limit);
                 ("nodes", nodes)])
  else if String.eqb method "Node" then
    let* symbol := RequiredString args method "symbol" in
    let* found := search_symbols g symbol 1 in
    match found with
    | JArray (first :: _) =>
        let* node := NormalizeNodeJson first in
        inr (object [("backend", JString "native"); ("node", node)])
    | _ => inr (object [("error", JString ("Symbol not found: " +:+ symbol))])
    end
  else if String.eqb method "Context" then
    let* symbol := RequiredString args method "symbol" in
    let* limit := OptionalInt args method "limit" 10 1 200 in
    let* max_depth := OptionalInt args method "max_depth" 3 1 20 in
    let* r := build_context g symbol limit max_depth in
    let* r := set_field "backend" (JString "native") r in
    let* r := normalize_field "callers" NormalizeNodesArray r in
    let* r := normalize_field "callees" NormalizeNodesArray r in
    let* r := normalize_field "edges" NormalizeEdgesArray r in
    normalize_field "symbol" NormalizeNodeJson r
  else if String.eqb method "Callers" then
    let* symbol := RequiredString args method "symbol" in
    let* max_depth := OptionalInt args method "max_depth" 3 1 20 in
    graph_result (get_callers g symbol max_depth)
  else if String.eqb method "Callees" then
    let* symbol := RequiredString args method "symbol" in
    let* max_depth := OptionalInt args method "max_depth" 3 1 20 in
    graph_result (get_callees g symbol max_depth)
  else if String.eqb method "Impact" then
    let* symbol := RequiredString args method "symbol" in
    let* max_depth := OptionalInt args method "max_depth" 5 1 20 in
    graph_result (get_impact g symbol max_depth)
  else inl (RpcError kMethodNotFound ("unknown CodeGraph method: " +:+ method)).

Definition native_status (g : engine) (db_path : string) : result json :=
  let* _ := open_database g in
  let* status := get_status g in
  let* status := set_field "backend" (JString "native") status in
  let* status := set_field "db_path" (JString db_path) status in
  let* status := set_field "ready" (JBool true) status in
  set_field "transport" (JString "mini_rpc") status.

Definition native_files (g : engine) (method : string) (args : json) : result json :=
  let* _ := open_database g in
  let* limit := OptionalInt args method "limit" 200 1 10000 in
  let* files := get_all_files g in
  inr (object [("backend", JString "native");
               ("files", JArray (map (fun f => object [("path", JString (fr_path f));
                                                       ("language", JString (fr_language f));
                                                       ("mtime", JInt (fr_mtime f));
                                                       ("size", JInt (fr_size f))])
                                     (take (Z.to_nat limit) files)))]).

(** [Invoke]; [now1] is the clock when the cache is asked, [now2] when the result is
    stored. *)
Definition Native_Invoke (g : engine) (db_path : string) (method : string) (args : json)
    (now1 now2 : Z) (c : cache) : result json * cache :=
  if String.eqb method "Status" then (native_status g db_path, c)
  else if String.eqb method "Files" then (native_files g method args, c)
  else
    match MakeCacheKey method args with
    | inl e => (inl e, c)
    | inr key =>
        match cache_get key now1 c with
        | (Some r, c) => (inr r, c)
        | (None, c) =>
            match compute g method args with
            | inl e => (inl e, c)
            | inr r => (inr r, cache_put key r now2 c)
            end
        end
    end.

(** The same without a cache. *)
Definition uncached (g : engine) (db_path : string) (method : string) (args : json) : result json :=
  if String.eqb method "Status" then native_status g db_path
  else if String.eqb method "Files" then native_files g method args
  else let* _ := MakeCacheKey method args in compute g method args.

(** A sequence of calls. *)
Record call := { c_method : string; c_args : json; c_now1 : Z; c_now2 : Z }.

Fixpoint run_calls (g : engine) (db_path : string) (calls : list call) (c : cache)
    : list (result json) * cache :=
  match calls with
  | [] => ([], c)
  | x :: rest =>
      let '(r, c) := Native_Invoke g db_path (c_method x) (c_args x) (c_now1 x) (c_now2 x) c in
      let '(rs, c) := run_calls g db_path rest c in
      (r :: rs, c)
  end.

End backend.

(** ** Lemmas *)

Fixpoint no_colon (s : string) : bool :=
  match s with
  | EmptyString => true
  | String c s => negb (Ascii.eqb c ":"%char) && no_colon s
  end.

Lemma colon_inj s1 : forall s2 t1 t2,
  no_colon s1 = true -> no_colon s2 = true -> s1 +:+ ":" +:+ t1 = s2 +:+ ":" +:+ t2 -> s1 = s2 /\ t1 = t2.
Proof.
  induction s1 as [|c1 s1 IH]; intros [|c2 s2] t1 t2 H1 H2 E; cbn in *; simplify_eq; try done.
  breflect. destruct (IH s2 t1 t2) as [-> ->]; done.
Qed.

Definition known (method : string) : Prop := FindToolByRpcMethod method <> None.

Lemma known_no_colon method : known method -> no_colon method = true.
Proof.
  unfold known. intros Hm. destruct (FindToolByRpcMethod method) as [spec|] eqn:E; [|done].
  unfold FindToolByRpcMethod in E. apply List.find_some in E as [Hin He].
  apply String.eqb_eq in He as <-. clear Hm. unfold CodeGraphToolSpecs in Hin. cbn [In] in Hin.
  repeat (destruct Hin as [<-|Hin]; [reflexivity|]). done.
Qed.

Lemma cache_find_in key c e : cache_find key c = Some e -> (key, e) ∈ c.
Proof.
  induction c as [|[k e'] c IH]; [done|]. cbn [cache_find]. destruct (String.eqb_spec key k) as [->|].
  - intros [= ->]. apply list_elem_of_here.
  - intros E. apply list_elem_of_further. by apply IH.
Qed.

Lemma cache_find_none key c : cache_find key c = None -> key ∉ map fst c.
Proof.
  induction c as [|[k e] c IH]; [intros _; apply not_elem_of_nil|]. cbn [cache_find map fst].
  destruct (String.eqb_spec key k); [done|]. intros E. rewrite not_elem_of_cons. auto.
Qed.

Lemma cache_find_unique key c e : NoDup (map fst c) -> (key, e) ∈ c -> cache_find key c = Some e.
Proof.
  induction c as [|[k e'] c IH]; intros Hn Hin; [by apply elem_of_nil in Hin|]. cbn [map fst] in Hn.
  inversion_clear Hn as [|? ? Hk Hn']. cbn [cache_find]. apply elem_of_cons in Hin as [[= <- <-]|Hin].
  - by rewrite String.eqb_refl.
  - destruct (String.eqb_spec key k) as [->|]; [|by apply IH].
    exfalso. apply Hk. apply list_elem_of_fmap. by exists (k, e).
Qed.

Lemma filter_keys f (c : cache) : NoDup (map fst c) -> NoDup (map fst (List.filter f c)).
Proof.
  induction c as [|p c IH]; intros Hn; [done|]. cbn [map] in Hn. inversion_clear Hn as [|? ? Hp Hn'].
  cbn [List.filter]. destruct (f p); [|by apply IH]. cbn [map]. constructor; [|by apply IH].
  intros Hin. apply Hp. apply list_elem_of_fmap in Hin as (q & -> & Hq).
  apply list_elem_of_In, filter_In in Hq as [Hq _]. apply list_elem_of_fmap. exists q.
  split; [done|]. by apply list_elem_of_In.
Qed.

Section cache_lemmas.
Context `{JsonTextLaws}.
Context (rehash : cache -> cache) (Hrehash : forall c, rehash c ≡ₚ c).
Context (g : engine).

Lemma MakeCacheKey_inj m1 a1 m2 a2 k :
  known m1 -> known m2 -> json_ok a1 = true -> json_ok a2 = true ->
  MakeCacheKey m1 a1 = inr k -> MakeCacheKey m2 a2 = inr k -> m1 = m2 /\ a1 = a2.
Proof.
  intros K1 K2 A1 A2. unfold MakeCacheKey.
  destruct (json_dump a1) as [t1|] eqn:E1; [|done]. destruct (json_dump a2) as [t2|] eqn:E2; [|done].
  intros [= <-] [= E]. apply colon_inj in E as [-> ->]; [|by apply known_no_colon..].
  split; [done|]. by eapply dump_inj.
Qed.

(** The value under a key is what its query computes. *)
Definition entry_ok (p : string * CacheEntry) : Prop :=
  exists m a, known m /\ json_ok a = true /\ MakeCacheKey m a = inr (fst p) /\
    compute g m a = inr (entry_result (snd p)).

Record cache_ok (c : cache) : Prop := {
  co_keys : NoDup (map fst c);
  co_size : (Z.of_nat (length c) <= kCacheMaxSize)%Z;
  co_entries : Forall entry_ok c;
}.

Lemma cache_get_ok key now c : cache_ok c -> cache_ok (snd (cache_get key now c)).
Proof.
  intros [C1 C2 C3]. unfold cache_get. destruct (cache_find key c) as [e|]; [|done].
  destruct (_ <? _)%Z; [|done]. cbn [snd]. unfold cache_erase.
  set (f := fun p : string * CacheEntry => negb (String.eqb key (fst p))).
  split.
  - by apply filter_keys.
  - pose proof (List.filter_length_le f c). lia.
  - apply Forall_forall. intros p Hp. apply list_elem_of_In, filter_In in Hp as [Hp _].
    rewrite Forall_forall in C3. by apply C3, list_elem_of_In.
Qed.

Lemma cache_assign_ok key e c :
  cache_ok c -> (Z.of_nat (length c) < kCacheMaxSize)%Z \/ is_Some (cache_find key c) -> entry_ok (key, e) ->
  cache_ok (cache_assign rehash key e c).
Proof.
  intros [C1 C2 C3] Hroom He. unfold cache_assign. destruct (cache_find key c) as [e0|] eqn:E.
  - set (f := fun p : string * CacheEntry => if String.eqb key (fst p) then (key, e) else p).
    assert (map fst (map f c) = map fst c) as Ek.
    { rewrite map_map. apply map_ext. intros [k e']. unfold f. cbn [fst]. by destruct (String.eqb_spec key k) as [->|]. }
    split; [by rewrite Ek|by rewrite length_map|]. apply Forall_map. eapply Forall_impl; [exact C3|].
    intros p Hp. unfold f. by destruct (String.eqb key (fst p)).
  - destruct Hroom as [Hroom|[? ?]]; [|done]. pose proof (Hrehash ((key, e) :: c)) as Hp. split.
    + rewrite (Permutation_map fst Hp). cbn [map fst]. constructor; [by apply cache_find_none|done].
    + rewrite Hp. cbn [length]. lia.
    + rewrite Hp. by constructor.
Qed.

Lemma cache_put_ok key r now c :
  cache_ok c -> (forall e, entry_result e = r -> entry_ok (key, e)) -> cache_ok (cache_put rehash key r now c).
Proof.
  intros Hc He. unfold cache_put. cbv zeta.
  assert (forall c', cache_ok c' -> (Z.of_nat (length c') < kCacheMaxSize)%Z ->
    cache_ok (cache_assign rehash key {| entry_result := r; expires_at := now + kCacheTTL |} c')) as Hput.
  { intros c' H1 H2. apply cache_assign_ok; [done|by left|by apply He]. }
  destruct (kCacheMaxSize <=? Z.of_nat (length c))%Z eqn:El.
  - destruct Hc as [C1 C2 C3]. unfold kCacheMaxSize in *. assert (length c = 128) as Hl by lia.
    rewrite Hl. change (128 / 2) with 64. apply Hput.
    + split; [rewrite <- (take_drop 64 c) in C1; rewrite map_app in C1; by apply NoDup_app in C1 as (_ & _ & ?)
             |rewrite length_drop; unfold kCacheMaxSize; lia|by apply Forall_drop].
    + rewrite length_drop. unfold kCacheMaxSize. lia.
  - apply Hput; [done|lia].
Qed.

End cache_lemmas.

(** ** Many threads *)

(** The two places where a call touches the cache, each under its lock: the lookup, and
    the storing of a result that has been computed. *)
Inductive cache_op :=
  | OpLookup (method : string) (args : json) (now : Z)
  | OpStore (method : string) (args : json) (now : Z).

Definition op_ok `{JsonText} (o : cache_op) : Prop :=
  match o with OpLookup m a _ | OpStore m a _ => known m /\ json_ok a = true end.

Definition cache_step `{JsonText} (rehash : cache -> cache) (g : engine) (c : cache) (o : cache_op) : cache :=
  match o with
  | OpLookup m a now =>
      match MakeCacheKey m a with inr key => snd (cache_get key now c) | inl _ => c end
  | OpStore m a now =>
      match MakeCacheKey m a, compute g m a with
      | inr key, inr r => cache_put rehash key r now c
      | _, _ => c
      end
  end.

Definition cache_after `{JsonText} (rehash : cache -> cache) (g : engine) (ops : list cache_op) : cache :=
  fold_left (cache_step rehash g) ops [].

Section threads.
Context `{JsonTextLaws}.
Context (rehash : cache -> cache) (Hrehash : forall c, rehash c ≡ₚ c).
Context (g : engine).

Lemma cache_step_ok c o : op_ok o -> cache_ok g c -> cache_ok g (cache_step rehash g c o).
Proof.
  intros Ho Hc. destruct o as [m a now|m a now]; destruct Ho as [Hm Ha]; cbn [cache_step].
  - destruct (MakeCacheKey m a); [done|]. by apply cache_get_ok.
  - destruct (MakeCacheKey m a) as [|key] eqn:Ek; [done|]. destruct (compute g m a) as [|r] eqn:Er; [done|].
    apply cache_put_ok; [done|done|]. intros e <-. exists m, a. done.
Qed.

Lemma cache_after_ok ops : Forall op_ok ops -> cache_ok g (cache_after rehash g ops).
Proof.
  unfold cache_after. intros Ho.
  assert (cache_ok g []) as Hc by (split; [constructor|done|constructor]).
  revert Hc. generalize ([] : cache). induction Ho as [|o ops Ho1 _ IH]; intros c Hc; [done|].
  apply IH. by apply cache_step_ok.
Qed.

Lemma cache_put_find key r now c :
  NoDup (map fst c) ->
  cache_find key (cache_put rehash key r now c) =
  Some {| entry_result := r; expires_at := now + kCacheTTL |}.
Proof.
  intros Hn. unfold cache_put. cbv zeta. set (e := {| entry_result := r |}).
  set (c1 := if (_ <=? _)%Z then _ else c).
  assert (NoDup (map fst c1)) as Hn1.
  { unfold c1. destruct (_ <=? _)%Z; [|done]. rewrite <- (take_drop (length c / 2) c), map_app in Hn.
    by apply NoDup_app in Hn as (_ & _ & ?). }
  unfold cache_assign. destruct (cache_find key c1) as [e0|] eqn:E.
  - clear Hn Hn1. induction c1 as [|[k e'] c2 IH]; [done|]. cbn [map cache_find fst] in *.
    destruct (String.eqb key k) eqn:Ek; cbn [cache_find]; rewrite ?Ek, ?String.eqb_refl; [done|]. by apply IH.
  - pose proof (Hrehash ((key, e) :: c1)) as Hp. apply cache_find_unique.
    + rewrite (Permutation_map fst Hp). cbn [map fst]. constructor; [by apply cache_find_none|done].
    + rewrite Hp. apply list_elem_of_here.
Qed.

End threads.

(** ** Properties *)

(** C32: the cache is invisible and bounded.  Whatever the other threads look up and store,
    in any interleaving, and in whatever order the map keeps its entries, a call for a
    method of the service returns exactly what it would return without a cache on the same
    database, and the cache never holds more than 128 entries. *)
Theorem native_cache_transparent `{JsonTextLaws} (rehash : cache -> cache) (g : engine)
    (db_path method : string) (args : json) (now1 now2 : Z) (ops : list cache_op) :
  (forall c, rehash c ≡ₚ c) -> Forall op_ok ops -> known method -> json_ok args = true ->
  let c := cache_after rehash g ops in
  let '(r, c') := Native_Invoke rehash g db_path method args now1 now2 c in
  r = uncached g db_path method args /\ (Z.of_nat (length c') <= kCacheMaxSize)%Z.
Proof.
  intros Hp Ho Hm Ha. cbv zeta. pose proof (cache_after_ok rehash Hp g ops Ho) as Hc.
  set (c := cache_after rehash g ops) in *. unfold Native_Invoke, uncached.
  destruct (String.eqb method "Status"); [split; [done|apply Hc]|].
  destruct (String.eqb method "Files"); [split; [done|apply Hc]|].
  destruct (MakeCacheKey method args) as [e|key] eqn:Ek; cbn [bind]; [split; [done|apply Hc]|].
  pose proof (cache_get_ok g key now1 c Hc) as Hc1. unfold cache_get in *.
  assert (forall c', cache_ok g c' ->
    let '(r, c'') := match compute g method args with
                     | inl e => (inl e, c')
                     | inr r => (inr r, cache_put rehash key r now2 c')
                     end in
    r = compute g method args /\ (Z.of_nat (length c'') <= kCacheMaxSize)%Z) as Hmiss.
  { intros c' Hc'. destruct (compute g method args) as [e|r] eqn:Er; [split; [done|apply Hc']|].
    split; [done|]. eapply co_size. apply (cache_put_ok rehash Hp g); [exact Hc'|]. intros e <-.
    exists method, args. done. }
  destruct (cache_find key c) as [e|] eqn:Ef; [|by apply Hmiss].
  destruct (_ <? _)%Z; [by apply Hmiss|]. split; [|apply Hc].
  pose proof (co_entries _ _ Hc) as Hent. rewrite Forall_forall in Hent.
  destruct (Hent (key, e) (cache_find_in _ _ _ Ef)) as (m & a & K & A & Ekey & Ecomp). cbn [fst snd] in *.
  destruct (MakeCacheKey_inj m a method args key) as [-> ->]; done.
Qed.

(** What is stored is found for thirty seconds and not longer. *)
Theorem native_cache_put_get `{JsonTextLaws} (rehash : cache -> cache) (g : engine)
    (ops : list cache_op) (key : string) (r : json) (now now' : Z) :
  (forall c, rehash c ≡ₚ c) -> Forall op_ok ops ->
  fst (cache_get key now' (cache_put rehash key r now (cache_after rehash g ops))) =
  if (now' <=? now + kCacheTTL)%Z then Some r else None.
Proof.
  intros Hp Ho. pose proof (cache_after_ok rehash Hp g ops Ho) as Hc. unfold cache_get.
  rewrite cache_put_find; [|done|apply Hc]. cbn [expires_at entry_result].
  destruct (Z.ltb_spec (now + kCacheTTL) now'), (Z.leb_spec now' (now + kCacheTTL)); try done; lia.
Qed.

(** The eviction is neither of the oldest nor of the least recently used entries: it
    removes the first half in the map's own order.  With an order in which a new entry
    comes first, storing into a full cache throws out the entry stored just before, while
    the oldest of all stays. *)
Theorem native_cache_evicts_newest :
  let key i := to_string (Z.of_nat i) in
  let full := fold_left (fun c i => cache_put id (key i) JNull (Z.of_nat i) c) (seq 0 128) [] in
  let c := cache_put id "new" JNull 128 full in
  fst (cache_get (key 127) 128 full) = Some JNull /\ fst (cache_get (key 127) 128 c) = None /\
  fst (cache_get (key 0) 128 c) = Some JNull.
Proof. vm_compute. done. Qed.

(** ** A concrete cache *)

Definition w_engine : engine :=
  {| open_database := inr tt; get_status := inr (object []); get_all_files := inr [];
     search_symbols := fun q n => inr (JArray [object [("name", JString q)]]);
     build_context := fun _ _ _ => inr (object []); get_callers := fun _ _ => inr (object []);
     get_callees := fun _ _ => inr (object []); get_impact := fun _ _ => inr (object []) |}.

Definition w_ops : list cache_op := [OpLookup "Search" w_args 0; OpStore "Search" w_args 1].

Lemma w_ops_ok : Forall (op_ok (H := Bits.text)) w_ops.
Proof. repeat constructor; vm_compute; congruence. Qed.

Lemma native_cache_transparent_witness :
  fst (Native_Invoke (H := Bits.text) id w_engine "g.db" "Search" w_args 2 3
         (cache_after (H := Bits.text) id w_engine w_ops)) =
  uncached (H := Bits.text) w_engine "g.db" "Search" w_args.
Proof.
  pose proof (@native_cache_transparent Bits.text Bits.laws id w_engine "g.db" "Search" w_args 2 3 w_ops
    (fun c => Permutation_refl c) w_ops_ok ltac:(vm_compute; congruence) eq_refl) as Hn.
  cbv zeta in Hn. destruct (Native_Invoke _ _ _ _ _ _ _ _) as [r c']. exact (proj1 Hn).
Defined.

Lemma native_cache_put_get_witness :
  fst (cache_get "k" 5 (cache_put id "k" (JInt 1) 4 (cache_after (H := Bits.text) id w_engine w_ops))) =
  Some (JInt 1).
Proof.
  apply (@native_cache_put_get Bits.text Bits.laws id w_engine w_ops "k" (JInt 1) 4 5
    (fun c => Permutation_refl c) w_ops_ok).
Defined.
