(* ===== verification/Programs.v ===== *)
(** * The programs

    The [main] functions of src/demo: the code graph server, the MCP adapter, and the
    calculator's server and client.  They read the command line, put the components
    together and turn failures into exit codes.  What a program prints is part of its
    result; what it logs is too, with the text.  The protobuf messages of the
    calculator are generated code: they are the class [ProtoMessage] with the
    accessors as fields of the records. *)

From Stdlib Require Import ZArith Lia Strings.Ascii Strings.String.
From S2P Require Import Prelude RpcError Codec PendingCalls ServiceRegistry RpcClient.
From S2P Require Import Json CodeGraphService McpAdapter.

Local Open Scope string_scope.
Local Open Scope list_scope.

(** ** Numbers on the command line *)

(** [std::from_chars] for a [uint64_t]: the value and the rest of the text, [None] when
    there is no digit or the number does not fit. *)
Definition digit_value (c : ascii) : option Z :=
  let n := Z.of_N (N_of_ascii c) in
  if (48 <=? n)%Z && (n <=? 57)%Z then Some (n - 48)%Z else None.

Fixpoint digits (acc : Z) (s : string) : Z * string :=
  match s with
  | EmptyString => (acc, EmptyString)
  | String c rest =>
      match digit_value c with
      | Some d => digits (acc * 10 + d) rest
      | None => (acc, s)
      end
  end.

Definition from_chars (s : string) : option (Z * string) :=
  match s with
  | EmptyString => None
  | String c _ =>
      match digit_value c with
      | None => None
      | Some _ =>
          let '(value, rest) := digits 0 s in
          if (value <? two64)%Z then Some (value, rest) else None
      end
  end.

Definition ParseUnsigned (text : string) : option Z :=
  if str_empty text then None
  else
    match from_chars text with
    | Some (value, EmptyString) => Some value
    | _ => None
    end.

(** ** The code graph server *)

Module GraphServer.

Inductive BackendKind := kSqlite | kNative.

Record ServerConfig := {
  port : Z;
  workers : Z;
  business_threads : Z;
  db_path : string;
  backend : BackendKind;
}.

Definition ServerConfig_default : ServerConfig :=
  {| port := 50061; workers := 2; business_threads := 4; db_path := ""; backend := kSqlite |}.

Definition PrintUsage (argv0 : string) : string :=
  "Usage: " +:+ argv0 +:+
  " [--port N] [--workers N] [--business-threads N] [--db PATH] [--backend sqlite|native]".

Definition set_port (v : Z) (c : ServerConfig) : ServerConfig :=
  {| port := v; workers := workers c; business_threads := business_threads c;
     db_path := db_path c; backend := backend c |}.
Definition set_workers (v : Z) (c : ServerConfig) : ServerConfig :=
  {| port := port c; workers := v; business_threads := business_threads c;
     db_path := db_path c; backend := backend c |}.
Definition set_business_threads (v : Z) (c : ServerConfig) : ServerConfig :=
  {| port := port c; workers := workers c; business_threads := v;
     db_path := db_path c; backend := backend c |}.
Definition set_db_path (v : string) (c : ServerConfig) : ServerConfig :=
  {| port := port c; workers := workers c; business_threads := business_threads c;
     db_path := v; backend := backend c |}.
Definition set_backend (v : BackendKind) (c : ServerConfig) : ServerConfig :=
  {| port := port c; workers := workers c; business_threads := business_threads c;
     db_path := db_path c; backend := v |}.

(** One option with its value: the new configuration, or what is printed on stderr. *)
Definition option_value (arg value_text : string) (config : ServerConfig) : string + ServerConfig :=
  if String.eqb arg "--port" then
    match ParseUnsigned value_text with
    | None => inl ("invalid numeric value for " +:+ arg)
    | Some value =>
        if (value =? 0)%Z || (65535 <? value)%Z then inl "port out of range"
        else inr (set_port value config)
    end
  else if String.eqb arg "--workers" then
    match ParseUnsigned value_text with
    | None => inl ("invalid numeric value for " +:+ arg)
    | Some value =>
        if (value =? 0)%Z then inl "workers must be greater than zero"
        else inr (set_workers value config)
    end
  else if String.eqb arg "--business-threads" then
    match ParseUnsigned value_text with
    | None => inl ("invalid numeric value for " +:+ arg)
    | Some value => inr (set_business_threads value config)
    end
  else if String.eqb arg "--db" then
    if str_empty value_text then inl "db path must not be empty" else inr (set_db_path value_text config)
  else if String.eqb arg "--backend" then
    if String.eqb value_text "sqlite" then inr (set_backend kSqlite config)
    else if String.eqb value_text "native" then inr (set_backend kNative config)
    else inl "backend must be sqlite or native"
  else inl ("unknown option: " +:+ arg).

(** The loop over [argv[1 ..]]. *)
Fixpoint ParseArgs (argv0 : string) (args : list string) (config : ServerConfig)
    : string + ServerConfig :=
  match args with
  | [] => inr config
  | arg :: rest =>
      if String.eqb arg "--help" || String.eqb arg "-h" then inl (PrintUsage argv0)
      else
        match rest with
        | [] => inl ("missing value for " +:+ arg)
        | value_text :: rest =>
            match option_value arg value_text config with
            | inl msg => inl msg
            | inr config => ParseArgs argv0 rest config
            end
        end
  end.

(** What the program did: whether it started a server, on what, and its exit code. *)
Record outcome := {
  exit_code : Z;
  printed : list string;
  logged : list string;
  served : option (ServerConfig * registry);
}.

Section main.
Context `{JsonText}.

(** The constructors of the backends; the native one is there or not, as compiled. *)
Context (sqlite : string -> CodeGraphBackend) (native : option (string -> CodeGraphBackend)).

Definition fails (logs : list string) : outcome :=
  {| exit_code := 1; printed := []; logged := logs; served := None |}.

Definition banner (config : ServerConfig) : string :=
  "CodeGraph RPC server listening on 0.0.0.0:" +:+ to_string (port config) +:+ " workers=" +:+
  to_string (workers config) +:+ " business_threads=" +:+ to_string (business_threads config) +:+
  " backend=" +:+
  (if str_empty (db_path config) then "empty"
   else match backend config with kNative => "native" | kSqlite => "sqlite" end) +:+
  " db=" +:+ (if str_empty (db_path config) then "-" else db_path config).

(** The backend the configuration asks for, once it has answered a first request. *)
Definition select_backend (config : ServerConfig) : string + CodeGraphBackend :=
  if str_empty (db_path config) then inr EmptyCodeGraphBackend
  else
    match (match backend config, native with
           | kNative, None => None
           | kNative, Some make => Some (make (db_path config))
           | kSqlite, _ => Some (sqlite (db_path config))
           end) with
    | None => inl "native CodeGraph backend is not available in this build"
    | Some b =>
        match Invoke b "Status" (object []) with
        | inl ex => inl ("invalid CodeGraph DB: " +:+ what ex)
        | inr _ => inr b
        end
    end.

(** [started]: what [RpcServer::Start] returns. *)
Definition main (argv0 : string) (args : list string) (started : bool) : outcome :=
  match ParseArgs argv0 args ServerConfig_default with
  | inl msg => {| exit_code := 1; printed := [msg]; logged := []; served := None |}
  | inr config =>
      match select_backend config with
      | inl msg => fails [msg]
      | inr b =>
          match RegisterCodeGraphService ∅ b with
          | (false, _) => fails ["failed to register CodeGraph RPC service"]
          | (true, reg) =>
              {| exit_code := if started then 0 else 1; printed := [banner config];
                 logged := if started then [] else ["CodeGraph RPC server failed to start"];
                 served := Some (config, reg) |}
          end
      end
  end.

End main.

End GraphServer.

(** ** The MCP adapter *)

Module AdapterMain.

Record AdapterConfig := { host : string; port : Z; timeout : Z }.

Definition AdapterConfig_default : AdapterConfig :=
  {| host := "127.0.0.1"; port := 50061; timeout := 3000 |}.

Definition PrintUsage (argv0 : string) : string :=
  "Usage: " +:+ argv0 +:+ " [--host HOST] [--port N] [--timeout-ms N]".

(** [std::chrono::milliseconds] of a [uint64_t]: the representation is signed. *)
Definition milliseconds (v : Z) : Z := ((v + 2 ^ 63) mod 2 ^ 64 - 2 ^ 63)%Z.

Definition option_value (arg value : string) (config : AdapterConfig) : string + AdapterConfig :=
  if String.eqb arg "--host" then
    if str_empty value then inl "host must not be empty"
    else inr {| host := value; port := port config; timeout := timeout config |}
  else if String.eqb arg "--port" then
    match ParseUnsigned value with
    | Some parsed =>
        if (parsed =? 0)%Z || (65535 <? parsed)%Z then inl "invalid port"
        else inr {| host := host config; port := parsed; timeout := timeout config |}
    | None => inl "invalid port"
    end
  else if String.eqb arg "--timeout-ms" then
    match ParseUnsigned value with
    | Some parsed =>
        if (parsed =? 0)%Z then inl "invalid timeout"
        else inr {| host := host config; port := port config; timeout := milliseconds parsed |}
    | None => inl "invalid timeout"
    end
  else inl ("unknown option: " +:+ arg).

Fixpoint ParseArgs (argv0 : string) (args : list string) (config : AdapterConfig)
    : string + AdapterConfig :=
  match args with
  | [] => inr config
  | arg :: rest =>
      if String.eqb arg "--help" || String.eqb arg "-h" then inl (PrintUsage argv0)
      else
        match rest with
        | [] => inl ("missing value for " +:+ arg)
        | value :: rest =>
            match option_value arg value config with
            | inl msg => inl msg
            | inr config => ParseArgs argv0 rest config
            end
        end
  end.

Definition options (config : AdapterConfig) : McpAdapterOptions :=
  {| McpAdapter.host := host config; McpAdapter.port := port config; rpc_timeout := timeout config |}.

(** The exit code ([None]: the process is terminated by an exception that nobody
    catches), the lines on stdout and on stderr.  [client] makes the RPC client of the
    adapter from its options. *)
Definition main `{JsonText} {S : Type} (foreign_name : positive -> string)
    (client : McpAdapterOptions -> S -> string -> string -> string -> RpcCallResult * S)
    (argv0 : string) (args : list string) (input : string) (s : S)
    : option Z * list string * list string :=
  match ParseArgs argv0 args AdapterConfig_default with
  | inl msg => (Some 1%Z, [], [msg])
  | inr config =>
      let '(out, returned, _) :=
        Run (client (options config)) foreign_name (getlines "" input) s in
      (if returned then Some 0%Z else None, out, [])
  end.

End AdapterMain.

(** ** The calculator *)

Module Calc.

Record AddRequest := { a : Z; b : Z }.
Record AddResponse := { result : Z }.

(** What the sources call of the generated messages, and what is documented of it. *)
Class Messages := {
  request_to_string : AddRequest -> option string;
  request_from_string : string -> option AddRequest;
  response_to_string : AddResponse -> option string;
  response_from_string : string -> option AddResponse;
}.

Class MessagesLaws `{Messages} := {
  request_round_trip : forall m s, request_to_string m = Some s -> request_from_string s = Some m;
  response_round_trip : forall m s, response_to_string m = Some s -> response_from_string s = Some m;
}.

Section programs.
Context `{Messages}.

(** The handler the server registers.  The sum of two [int32_t] is only defined when it
    fits; [overflow] stands for what the machine makes of it otherwise. *)
Context (overflow : Z -> Z).

Definition int32_sum (x y : Z) : Z :=
  if (-2147483648 <=? x + y)%Z && (x + y <? 2147483648)%Z then (x + y)%Z else overflow (x + y)%Z.

Definition Add (request_payload : string) : handler_outcome :=
  match request_from_string request_payload with
  | None => HThrowRpc {| ex_code := make_error_code kParseError;
                         ex_what := "failed to parse calc::AddRequest" |}
  | Some request =>
      match response_to_string {| result := int32_sum (a request) (b request) |} with
      | Some response_payload => HReturn response_payload
      | None => HThrowRpc {| ex_code := make_error_code kInternalError;
                             ex_what := "failed to serialize calc::AddResponse" |}
      end
  end.

(** [server_main.cpp]: the exit code, the log, and the port, the workers and the
    registry of the server. *)
Definition server_main (started : bool) : Z * list string * option (Z * nat * registry) :=
  match Register ∅ "CalcService" "Add" (Some Add) with
  | (false, _) => (1%Z, ["failed to register CalcService.Add"], None)
  | (true, reg) =>
      if started then (0%Z, [], Some (50051%Z, 2, reg))
      else (1%Z, ["server start failed"], Some (50051%Z, 2, reg))
  end.

(** [client_main.cpp], with the client's [Call]: the exit code, the output, the log. *)
Definition client_main (foreign_name : positive -> string)
    (Call : string -> string -> string -> RpcCallResult) : Z * list string * list string :=
  match request_to_string {| a := 1; b := 2 |} with
  | None => (1%Z, [], ["failed to serialize AddRequest"])
  | Some request_payload =>
      let r := Call "CalcService" "Add" request_payload in
      if negb (RpcCallResult_ok r) then
        (1%Z, [], ["rpc failed: code=" +:+ int_text (value (code (status r))) +:+ " category=" +:+
                   category_name foreign_name (category (code (status r))) +:+ " msg=" +:+
                   message (status r)])
      else
        match response_from_string (response_payload r) with
        | None => (1%Z, [], ["failed to parse AddResponse"])
        | Some response => (0%Z, ["Add(1,2) = " +:+ int_text (result response)], [])
        end
  end.

(** [coroutine_client_main.cpp]: [RunDemo] with what [co_await client.CallCo] gives, under
    [SyncWait]; the program succeeds whatever the call did. *)
Definition coroutine_main (foreign_name : positive -> string)
    (CallCo : string -> string -> string -> RpcCallResult) : Z * list string * list string :=
  match request_to_string {| a := 1; b := 2 |} with
  | None => (1%Z, [], ["failed to serialize AddRequest"])
  | Some request_payload =>
      let r := CallCo "CalcService" "Add" request_payload in
      if negb (RpcCallResult_ok r) then
        (0%Z, [], ["rpc failed: code=" +:+ int_text (value (code (status r))) +:+ " category=" +:+
                   category_name foreign_name (category (code (status r))) +:+ " msg=" +:+
                   message (status r)])
      else
        match response_from_string (response_payload r) with
        | None => (0%Z, [], ["failed to parse AddResponse"])
        | Some response => (0%Z, ["[co] Add(1,2) = " +:+ int_text (result response)], [])
        end
  end.

End programs.

End Calc.

(** ** Lemmas *)

Lemma digit_char (n : N) : (n < 10)%N -> digit_value (pretty_N_char n) = Some (Z.of_N n).
Proof.
  intros Hn. assert (exists k, (k < 10)%nat /\ n = N.of_nat k) as (k & Hk & ->).
  { exists (N.to_nat n). split; lia. }
  do 10 (destruct k as [|k]; [reflexivity|]). lia.
Qed.

Lemma digits_pretty (n : N) : forall s, digits 0 (pretty_N_go n s) = digits (Z.of_N n) s.
Proof.
  induction (N.lt_wf_0 n) as [n _ IH]. intros s.
  destruct (decide (n = 0)%N) as [->|Hn]; [by rewrite pretty_N_go_0|].
  rewrite pretty_N_go_step, IH by (try apply N.div_lt; lia). cbn [digits].
  rewrite digit_char by by apply N.mod_lt. f_equal.
  pose proof (N.div_mod n 10 ltac:(done)). lia.
Qed.

Lemma first_digit z : exists c s d, to_string z = String c s /\ digit_value c = Some d.
Proof.
  unfold to_string, pretty, pretty_N. destruct (decide _) as [|Hn]; [by exists "0"%char, "", 0%Z|].
  enough (forall n s, (n <> 0)%N -> exists c s' d, pretty_N_go n s = String c s' /\ digit_value c = Some d) as He
    by by apply He.
  intros n. induction (N.lt_wf_0 n) as [n _ IH]. intros s Hne.
  rewrite pretty_N_go_step by lia. destruct (decide (n / 10 = 0)%N) as [->|Hd].
  - rewrite pretty_N_go_0. eexists _, s, _. split; [done|]. apply digit_char. by apply N.mod_lt.
  - apply IH; [apply N.div_lt; lia|done].
Qed.

(** A number is read back. *)
Lemma ParseUnsigned_to_string z : (0 <= z < two64)%Z -> ParseUnsigned (to_string z) = Some z.
Proof.
  intros Hz. destruct (first_digit z) as (c & s & d & E & Ed).
  assert (digits 0 (to_string z) = (z, EmptyString)) as Hd.
  { unfold to_string, pretty, pretty_N. destruct (decide _) as [E0|Hn].
    - assert (z = 0%Z) as -> by lia. reflexivity.
    - rewrite digits_pretty, Z2N.id by lia. reflexivity. }
  unfold ParseUnsigned, from_chars. rewrite E in *. cbn [str_empty]. rewrite Ed, Hd.
  destruct (Z.ltb_spec z two64); [done|lia].
Qed.

Lemma ParseUnsigned_range s z : ParseUnsigned s = Some z -> (0 <= z < two64)%Z.
Proof.
  unfold ParseUnsigned, from_chars. destruct s as [|c s]; [done|]. cbn [str_empty].
  destruct (digit_value c); [|done].
  assert (forall s acc, (0 <= acc)%Z -> (0 <= fst (digits acc s))%Z) as Hpos.
  { clear. induction s as [|c s IH]; intros acc Ha; [done|]. cbn [digits].
    destruct (digit_value c) as [d|] eqn:Ed; [|done]. apply IH.
    unfold digit_value in Ed. destruct (_ && _) eqn:E; [|done]. injection Ed as <-. lia. }
  specialize (Hpos (String c s) 0%Z). destruct (digits 0 (String c s)) as [v rest].
  destruct (Z.ltb_spec v two64); [|done]. destruct rest; [|done]. intros [= <-]. simpl in Hpos. lia.
Qed.

(** ** Properties *)

(** What the server can be started with. *)
Record valid_config (c : GraphServer.ServerConfig) : Prop := {
  vc_port : (1 <= GraphServer.port c <= 65535)%Z;
  vc_workers : (1 <= GraphServer.workers c < two64)%Z;
  vc_threads : (0 <= GraphServer.business_threads c < two64)%Z;
}.

(** A command line for a configuration. *)
Definition command_line (c : GraphServer.ServerConfig) : list string :=
  ["--port"; to_string (GraphServer.port c); "--workers"; to_string (GraphServer.workers c);
   "--business-threads"; to_string (GraphServer.business_threads c)] ++
  (if str_empty (GraphServer.db_path c) then [] else ["--db"; GraphServer.db_path c]) ++
  ["--backend"; match GraphServer.backend c with
                | GraphServer.kSqlite => "sqlite" | GraphServer.kNative => "native" end].

Lemma option_value_valid arg v c c' :
  valid_config c -> GraphServer.option_value arg v c = inr c' -> valid_config c'.
Proof.
  intros [V1 V2 V3] E. unfold GraphServer.option_value in E.
  destruct (ParseUnsigned v) as [z|] eqn:Ez;
    [pose proof (ParseUnsigned_range v z Ez)|];
    repeat split_match_in E; simplify_eq; split; cbn; try done; lia.
Qed.

Lemma ParseArgs_valid argv0 : forall n args c c', length args <= n ->
  valid_config c -> GraphServer.ParseArgs argv0 args c = inr c' -> valid_config c'.
Proof.
  induction n as [|n IH]; intros [|arg [|v args]] c c' Hl Hc E; simpl in Hl; try lia; cbn in E;
    try (by injection E as <-); try (by destruct (_ || _)).
  destruct (_ || _); [done|]. destruct (GraphServer.option_value arg v c) as [|c1] eqn:E1; [done|].
  apply (IH args c1 c'); [lia|by eapply option_value_valid|done].
Qed.

(** C34: the command line of the server determines its configuration.  Every valid
    configuration is read back from the command line that spells it out; and whatever
    the arguments, an accepted configuration has a port from 1 to 65535, at least one
    worker, and counts that fit their type. *)
Theorem graph_server_args argv0 c args c' :
  valid_config c ->
  GraphServer.ParseArgs argv0 (command_line c) GraphServer.ServerConfig_default = inr c /\
  (GraphServer.ParseArgs argv0 args GraphServer.ServerConfig_default = inr c' -> valid_config c').
Proof.
  intros [V1 V2 V3]. split.
  - destruct c as [p w t db be]. unfold command_line.
    cbn [GraphServer.port GraphServer.workers GraphServer.business_threads GraphServer.db_path
      GraphServer.backend] in *.
    cbn [app GraphServer.ParseArgs]. cbn [String.eqb Ascii.eqb Bool.eqb orb andb].
    unfold GraphServer.option_value. cbn [String.eqb Ascii.eqb Bool.eqb].
    rewrite (ParseUnsigned_to_string p) by (unfold two64; lia).
    destruct (Z.eqb_spec p 0); [lia|]. destruct (Z.ltb_spec 65535 p); [lia|]. cbn [orb].
    rewrite (ParseUnsigned_to_string w) by lia. destruct (Z.eqb_spec w 0); [lia|].
    rewrite (ParseUnsigned_to_string t) by lia.
    destruct db as [|ch db]; cbn [str_empty app GraphServer.ParseArgs];
      cbn [String.eqb Ascii.eqb Bool.eqb orb andb]; by destruct be.
  - eapply ParseArgs_valid; [done|]. by split; cbn; unfold two64.
Qed.

(** The code graph server serves what it was asked to serve, or says why not.  It
    starts a server exactly when the arguments are accepted and the backend they ask
    for exists and has answered a request for its status - the backend without data
    when there is no path; every tool is then registered with that backend, and the
    exit code is that of [Start]. *)
Theorem graph_server_main `{JsonText} sqlite native argv0 args started :
  let o := GraphServer.main sqlite native argv0 args started in
  match GraphServer.ParseArgs argv0 args GraphServer.ServerConfig_default with
  | inl msg => o = {| GraphServer.exit_code := 1; GraphServer.printed := [msg];
                      GraphServer.logged := []; GraphServer.served := None |}
  | inr config =>
      match GraphServer.select_backend sqlite native config with
      | inl msg => o = {| GraphServer.exit_code := 1; GraphServer.printed := [];
                          GraphServer.logged := [msg]; GraphServer.served := None |}
      | inr b =>
          GraphServer.exit_code o = (if started then 0 else 1)%Z /\
          GraphServer.printed o = [GraphServer.banner config] /\
          (GraphServer.db_path config = "" -> b = EmptyCodeGraphBackend) /\
          (GraphServer.db_path config <> "" ->
             exists v, Invoke b "Status" (object []) = inr v) /\
          exists reg, GraphServer.served o = Some (config, reg) /\
            Forall (fun spec => Find reg "CodeGraph" (rpc_method spec) =
                                  Some (handler b (rpc_method spec))) CodeGraphToolSpecs
      end
  end.
Proof.
  cbv zeta. unfold GraphServer.main.
  destruct (GraphServer.ParseArgs _ _ _) as [msg|config]; [done|].
  destruct (GraphServer.select_backend sqlite native config) as [msg|b] eqn:Eb; [done|].
  pose proof (codegraph_registration ∅ b) as Hr.
  destruct (RegisterCodeGraphService ∅ b) as [ok reg]. destruct Hr as (Hok & _ & Hall).
  assert (ok = true) as ->.
  { apply Hok. apply Forall_forall. intros spec _. unfold Find. by rewrite lookup_empty. }
  split; [done|]. split; [done|]. split; [|split].
  - intros E. unfold GraphServer.select_backend in Eb. rewrite E in Eb. cbn in Eb. congruence.
  - intros E. unfold GraphServer.select_backend in Eb.
    destruct (GraphServer.db_path config) as [|ch p]; [done|]. cbn [str_empty] in Eb.
    destruct (GraphServer.backend config), native as [make|]; simplify_eq;
      destruct (Invoke _ "Status" (object [])) as [|v] eqn:Ev; simplify_eq; by exists v.
  - exists reg. split; [done|]. eapply Forall_impl; [exact Hall|]. intros spec. cbv beta.
    intros ->. unfold Find. by rewrite lookup_empty.
Qed.

(** The calculator's client prints the sum.  When the server's registry executes the
    request of the client and the messages are what the libraries document, the
    client and the coroutine client print 3. *)
Theorem calc_demo_prints_sum `{Calc.MessagesLaws} overflow foreign_name id payload answer :
  Calc.request_to_string {| Calc.a := 1; Calc.b := 2 |} = Some payload ->
  Calc.response_to_string {| Calc.result := 3 |} = Some answer ->
  let '(_, _, server) := Calc.server_main overflow true in
  exists port workers reg, server = Some (port, workers, reg) /\
  let Call service method payload :=
    mapped_result (HandleOneRequest reg {| rq_request_id := id; rq_service_name := service;
                                           rq_method_name := method; rq_payload := payload |}) in
  Calc.client_main foreign_name Call = (0%Z, ["Add(1,2) = 3"], []) /\
  Calc.coroutine_main foreign_name Call = (0%Z, ["[co] Add(1,2) = 3"], []).
Proof.
  intros E1 E2. unfold Calc.server_main, Register. cbn [str_empty orb]. rewrite lookup_empty.
  eexists _, _, _. split; [reflexivity|]. cbv zeta.
  unfold Calc.client_main, Calc.coroutine_main. rewrite E1. unfold HandleOneRequest, Find.
  cbn [rq_service_name rq_method_name rq_payload]. rewrite lookup_insert_eq.
  unfold Calc.Add. rewrite (Calc.request_round_trip _ _ E1). cbn [Calc.a Calc.b].
  change (Calc.int32_sum overflow 1 2) with 3%Z. rewrite E2.
  unfold mapped_result. cbn [rs_payload rs_error_code rs_error_msg response_payload].
  rewrite (Calc.response_round_trip _ _ E2). done.
Qed.

(** A timeout on the adapter's command line is not checked against its type: the
    accepted numbers from 2^63 on become negative durations. *)
Theorem adapter_timeout_wraps argv0 n :
  (2 ^ 63 <= n < two64)%Z ->
  AdapterMain.ParseArgs argv0 ["--timeout-ms"; to_string n] AdapterMain.AdapterConfig_default =
  inr {| AdapterMain.host := "127.0.0.1"; AdapterMain.port := 50061;
         AdapterMain.timeout := (n - two64)%Z |} /\ (n - two64 < 0)%Z.
Proof.
  unfold two64. intros Hn. split; [|lia].
  cbn [AdapterMain.ParseArgs String.eqb Ascii.eqb Bool.eqb orb].
  unfold AdapterMain.option_value. cbn [String.eqb Ascii.eqb Bool.eqb].
  rewrite ParseUnsigned_to_string by (unfold two64; lia). destruct (Z.eqb_spec n 0); [lia|].
  unfold AdapterMain.milliseconds, AdapterMain.AdapterConfig_default. do 2 f_equal.
  replace (n + 2 ^ 63)%Z with (n - 2 ^ 63 + 1 * 2 ^ 64)%Z by lia. rewrite Z.mod_add, Z.mod_small by lia. lia.
Qed.

(** ** Witnesses *)

Definition w_config : GraphServer.ServerConfig :=
  {| GraphServer.port := 8080; GraphServer.workers := 3; GraphServer.business_threads := 0;
     GraphServer.db_path := "/tmp/graph.db"; GraphServer.backend := GraphServer.kNative |}.

Lemma graph_server_args_witness :
  GraphServer.ParseArgs "server" ["--port"; "8080"; "--workers"; "3"; "--business-threads"; "0";
    "--db"; "/tmp/graph.db"; "--backend"; "native"] GraphServer.ServerConfig_default = inr w_config /\
  valid_config w_config.
Proof.
  assert (valid_config w_config) as Hv by (split; cbn; unfold two64; lia).
  destruct (graph_server_args "server" w_config (command_line w_config) w_config Hv) as [H1 H2].
  split; [exact H1|apply H2; exact H1].
Defined.

(** Messages as text: the fields in decimal. *)
Definition w_messages : Calc.Messages :=
  {| Calc.request_to_string := fun m =>
       if bool_decide (Calc.a m = 1 /\ Calc.b m = 2)%Z then Some "1,2" else None;
     Calc.request_from_string := fun s =>
       if String.eqb s "1,2" then Some {| Calc.a := 1; Calc.b := 2 |} else None;
     Calc.response_to_string := fun m =>
       if (0 <=? Calc.result m)%Z && (Calc.result m <? two64)%Z then Some (to_string (Calc.result m)) else None;
     Calc.response_from_string := fun s =>
       match ParseUnsigned s with Some z => Some {| Calc.result := z |} | None => None end |}.

Lemma w_messages_laws : @Calc.MessagesLaws w_messages.
Proof.
  split.
  - intros [x y] s E. cbn in E. case_bool_decide as Hb; [|done]. destruct Hb as [Hx Hy].
    injection E as <-. cbn in Hx, Hy. by rewrite Hx, Hy.
  - intros [z] s E. cbn in E. destruct (_ && _) eqn:Hb; [|done]. injection E as <-. cbn.
    rewrite ParseUnsigned_to_string; [done|]. lia.
Qed.

Lemma calc_demo_prints_sum_witness :
  let '(_, _, server) := @Calc.server_main w_messages id true in
  exists port workers reg, server = Some (port, workers, reg) /\
  let Call service method payload :=
    mapped_result (HandleOneRequest reg {| rq_request_id := "1"; rq_service_name := service;
                                           rq_method_name := method; rq_payload := payload |}) in
  @Calc.client_main w_messages (fun _ => "system") Call = (0%Z, ["Add(1,2) = 3"], []) /\
  @Calc.coroutine_main w_messages (fun _ => "system") Call = (0%Z, ["[co] Add(1,2) = 3"], []).
Proof.
  apply (@calc_demo_prints_sum w_messages w_messages_laws id (fun _ => "system") "1" "1,2" "3").
  - vm_compute. reflexivity.
  - vm_compute. reflexivity.
Defined.

Lemma adapter_timeout_wraps_witness :
  AdapterMain.ParseArgs "mcp" ["--timeout-ms"; to_string (two64 - 1)] AdapterMain.AdapterConfig_default =
  inr {| AdapterMain.host := "127.0.0.1"; AdapterMain.port := 50061; AdapterMain.timeout := -1 |}.
Proof. apply (adapter_timeout_wraps "mcp" (two64 - 1)). unfold two64. lia. Defined.
